(* ===== verification/_CoqProject ===== *)
-Q . S2P
Prelude.v
Define.v
Crc.v
NormalLink.v
MessageBuffer.v
Crypter.v
Pipeline.v
Sending.v
Sender.v
Lifecycle.v
RpcWire.v
RpcServer.v
RpcClient.v
RpcEndToEnd.v
Terminal.v
Messaging.v
Resend.v
Handlers.v
Reconnect.v
MessageClient.v
ClientStream.v
ClientSend.v
ClientWork.v
Threads.v
Semaphore.v
Mutex.v
RWMutex.v
Condition.v
Queue.v
TimeoutSpec.v
TimeoutList.v
RoutineEnv.v
Heartbeat.v
RpcThread.v
RpcCalls.v
Pool.v
Pools.v
CoSwap.v
CoLink.v
TimeWheel.v
EventLoop.v
Handshake.v
Kcp.v
InnerRpc.v
HookSys.v
