(* ===== verification/Prelude.v ===== *)
(** * libcorpc: a verification development

    libcorpc is a C++ library for RPC and messaging servers: coroutines in the
    style of libco (src/co), an I/O layer with pipelines that cut byte streams
    into frames (src/corpc/src/corpc_io), an RPC client and server, RPC between
    the threads of a process, message servers and clients over TCP, UDP and KCP
    with serials, acknowledgements, checksums, encryption, heartbeats and
    reconnection, synchronisation primitives for coroutines, and connection pools
    for databases (src/corpc_redis, _mysql, _mongodb, _memcached).  This library
    models these parts as executable definitions and proves what makes them
    correct.

    ** How the parts work together

    Each thread runs an event loop, in which its coroutines wait for descriptors,
    times and condition variables.  Threads exchange tasks through queues and wake
    each other's coroutines through their coroutine environments.  A connection
    has a receiver and a sender in different threads: the receiver reads the
    socket and feeds the receiving pipeline, whose decoder makes tasks for a
    worker; the sender takes data from the sending pipeline, whose encoder writes
    frames, and writes them to the socket.  The RPC server, the RPC client and the
    message terminal are pairs of a decoder and an encoder with their state.

    ** Files

    Common.  Prelude.v: outcomes of C++ statements ([outcome], with a monad, and
    the faults a statement can end in: overrun of a buffer, null or dangling
    pointer, failed assertion, ...), fixed-width integers, memory ranges,
    reachability ([reach]), tactics.  Define.v: corpc_define.h, constants and byte
    order.  Crc.v, Crypter.v: corpc_crc.cpp, corpc_crypter.cpp.  NormalLink.v:
    the list class of corpc_define.h over a heap.

    Streams (corpc_io.cpp).  Pipeline.v: [TcpPipeline::upflow] and
    [UdpPipeline::upflow] against the class [Decoder]; Sending.v:
    [MessagePipeline::downflow] against [Encoder]; Sender.v: [Connection::write]
    and the coroutines of [Sender]; Lifecycle.v: [Receiver::connectionRoutine] and
    the closing of a connection; Heartbeat.v: [Heartbeater]; Handshake.v:
    [UdpAcceptor] with [UdpClient::connect]; Kcp.v: corpc_kcp.cpp.

    RPC.  RpcWire.v: corpc_rpc_common.h, corpc_controller.h and what is used of
    protobuf messages ([Message], [MessageLaws]); RpcServer.v: corpc_rpc_server.cpp;
    RpcClient.v: encoder and decoder of corpc_rpc_client.cpp; RpcThread.v: its
    thread and channels, RpcCalls.v the theorems on them; RpcEndToEnd.v: client,
    sender, pipeline and server composed; InnerRpc.v: corpc_inner_rpc.cpp.

    Messages.  MessageBuffer.v: corpc_message_buffer.cpp; Terminal.v:
    corpc_message_terminal.cpp; Messaging.v, Resend.v, Handlers.v: theorems on
    encoding, on serials and sending again, on the table of handlers;
    Reconnect.v: the client of corpc_message_client.cpp as it is compiled
    ([NEW_MESSAGE_CLIENT_IMPLEMENT], with Handshake.v for UDP); MessageClient.v,
    ClientStream.v, ClientSend.v, ClientWork.v: the polling [TcpClient] that this
    macro switches off.

    Coroutines.  Threads.v: interleavings and counting; Semaphore.v, Mutex.v,
    RWMutex.v, Condition.v, Queue.v: the files corpc_*.cpp and corpc_queue.h of
    these names; TimeoutSpec.v, TimeoutList.v: corpc_timeout_list.h, contract and
    skip list; RoutineEnv.v: corpc_routine_env.cpp; CoSwap.v: [co_swap] and the
    shared stacks of co_routine.cpp; CoLink.v, TimeWheel.v,
    EventLoop.v: lists, time wheel and event loop of co_routine.cpp; HookSys.v: the
    system calls that co_hook_sys_call.cpp replaces.

    Pools.  Pool.v: [take], [put] and the clearing of idle connections, written
    once against [PoolApi]; Pools.v: the four pools.

    ** How code is modelled

    Objects are records with the members of the class under their names; pointers
    to nodes that are shared or freed are addresses in a heap; buffers are byte
    lists read and written with bounds checks.  Integers are [Z] with their wrap-around
    written out ([u32], [i32], ...).  Functions that can fail return [outcome].
    Coroutines and threads are transition systems: the state has the shared
    variables and the point each coroutine has reached, a step is what runs
    without interruption (one access to a shared variable between threads, the
    code between two points that yield within a thread).  What a system call, the
    clock, a random number or another library answers is an argument of the step,
    so the theorems hold for all answers.  Interfaces between components are type
    classes ([Decoder], [Encoder], [Downflow], [CrypterLaws], [TimeoutLaws],
    [KcpLaws], [PoolApi]): clients are proved against the laws, implementations
    prove them.

    ** What the theorems show

    - Streams: [upflow] refines a one-shot parser, whatever the chunks; it stays
      in its buffers and ends.  The sender puts a prefix of the frames of the
      accepted data on the wire, never sleeps on data, and a connection is closed
      only after both routines have stopped, which is always possible.
    - RPC: the calls accepted on a connection reach the worker of the server once
      and in order; each call of the client is in one place until it ends, once;
      without contention for the mutex of a connection no call is lost, and with
      contention one can be.  RPC between threads is safe, gives each call the
      result of its own request, and completes.
    - Messages: encoding and decoding are inverse, damage within two adjacent
      bytes is refused, serials and buffer stay in step, the worker never faults,
      and a client that reconnects gets what the server has kept.  The UDP
      handshake agrees under loss, repetition and reordering.  KCP connections
      deliver the frames that were written, given the contract of KCP.
    - Coroutines: mutual exclusion, no failing consistency check, conservation of
      units, no lost wake-up, FIFO queues under every interleaving; the skip list
      is an ordered list; each call is ended once by answer or time-out; an item
      that waits in the event loop is in one list and is resumed once, no earlier
      than it should be; a coroutine finds its stack as it has left it.
    - Hooks: no call on a registered descriptor blocks the thread, [write] writes
      a prefix of the buffer and tells how much, [poll] with repeated descriptors
      reports what it would report without repetition, environment variables are
      private to coroutines; [select] reports what it should not.
    - Pools: the counts are exact, and no connection has two users.
    - Errors of the code that the models show are stated as theorems too
      (rpc_call_stranded, select_reports_all, and theorems next to the properties,
      such as [cond_signal_lost], [handshake_stuck], [client_partial_write],
      [udp_upflow_overflow], [connect_refused]).

    ** Fuel and bounds

    Loops that are not structural take fuel and return [OutOfFuel] without enough
    of it: [upflow_loop] the bytes of the chunk, [encode_loop] the queued data,
    [timeout_loop] the entries of the list, [write_loop] the bytes to write, the
    walks of lists their length.  The callers pass a bound computed from the
    input, and the theorems that a routine returns [Ok] show that it is enough.
    Sizes are limited where the protocol limits them (a serialised message is
    below 2^31 bytes, as protobuf guarantees; times fit 64 bits), and these limits
    are hypotheses of the theorems.

    ** Not modelled

    - The kernel, the switch of registers and epoll (src/co/src: coctx*,
      co_epoll.cpp): assembly and the interface of the kernel; the models use
      their effect, that a coroutine waits and is resumed.  Of the hooks, the
      functions of the resolver.
    - The KCP library (src/corpc/src/kcp), third-party code: its contract is
      [KcpLaws].  protobuf, hiredis and the other client libraries are not in the
      repository.
    - The polling variants of [UdpClient] and [KcpClient]: they are switched off
      and repeat [TcpClient]'s loop.
    - [Worker], [TcpAcceptor] and the start functions of servers and I/O objects,
      which start threads and coroutines; corpc_pubsub, which passes messages
      between Redis and callbacks; logging, random numbers, timers and the other
      small helpers; generated code, examples, tests, tutorials and the clients in
      other languages. *)
From Stdlib Require Export ZArith Lia.
From stdpp Require Export base tactics decidable option numbers list list_numbers gmap.

#[export] Set Default Goal Selector "!".
Open Scope Z_scope.

(** ** Outcomes of C++ statements

    A statement either completes with a value or stops in one of the ways the
    code can go wrong.  [OutOfFuel] never describes the program: it marks a
    loop whose fuel bound was too small, and the termination theorems show
    that it is not reached. *)
Inductive fault : Type :=
  | OutOfBounds      (** a read or write outside a buffer *)
  | AssertFailed     (** a failing [assert] *)
  | NullDeref        (** a dereference of a null or dangling pointer *)
  | DivByZero        (** an integer remainder by zero *)
  | BadCast          (** a [shared_ptr<void>] cast to another type than it holds *)
  | Uninitialized    (** a read of a variable no one has written *)
  | Aborted          (** a call of [abort()] *)
  | BadShift         (** a shift by the width of the type or more *)
  | OutOfFuel.

Inductive outcome (A : Type) : Type :=
  | Ok (a : A)
  | Fault (f : fault).
Arguments Ok {A} _.
Arguments Fault {A} _.

#[export] Instance fault_eq_dec : EqDecision fault.
Proof. solve_decision. Defined.
#[export] Instance outcome_eq_dec `{EqDecision A} : EqDecision (outcome A).
Proof. solve_decision. Defined.

#[export] Instance outcome_ret : MRet outcome := λ A a, Ok a.
#[export] Instance outcome_bind : MBind outcome := λ A B k m,
  match m with Ok a => k a | Fault f => Fault f end.
#[export] Instance outcome_fmap : FMap outcome := λ A B f m,
  match m with Ok a => Ok (f a) | Fault e => Fault e end.

(** [assert(P)]: stops the program when [P] does not hold. *)
Definition require (P : Prop) `{Decision P} : outcome unit :=
  if decide P then Ok tt else Fault AssertFailed.

(** [*p] for a pointer that may be null. *)
Definition deref {A} (p : option A) : outcome A :=
  match p with Some a => Ok a | None => Fault NullDeref end.

Definition is_ok {A} (m : outcome A) : Prop := ∃ a, m = Ok a.

(** The value of an outcome, for runs of a model on concrete inputs. *)
Definition get {A} (d : A) (o : outcome A) : A := match o with Ok a => a | Fault _ => d end.
Definition isok {A} (o : outcome A) : bool := match o with Ok a => true | Fault _ => false end.
Lemma get_ok {A} (d : A) o : isok o = true → o = Ok (get d o).
Proof. by destruct o. Qed.

Section outcome.
Context {A B : Type}.
Implicit Types (m : outcome A) (k : A → outcome B).

Lemma bind_Ok k a : (Ok a ≫= k) = k a.
Proof. done. Qed.

Lemma bind_Fault k f : (Fault f ≫= k) = Fault f.
Proof. done. Qed.

Lemma bind_Ok_inv m k b : (m ≫= k) = Ok b → ∃ a, m = Ok a ∧ k a = Ok b.
Proof. destruct m as [a|f]; simpl; [by exists a|done]. Qed.

Lemma require_true (P : Prop) `{Decision P} : P → require P = Ok tt.
Proof. intros ?. unfold require. by rewrite decide_True. Qed.

Lemma require_false (P : Prop) `{Decision P} : ¬ P → require P = Fault AssertFailed.
Proof. intros ?. unfold require. by rewrite decide_False. Qed.

Lemma require_inv (P : Prop) `{Decision P} : require P = Ok tt → P.
Proof. unfold require. by case_decide. Qed.
End outcome.

Create Rewrite HintDb outcome.
#[export] Hint Rewrite @bind_Ok @bind_Fault : outcome.

(** Invert every [m ≫= k = Ok b] in the context. *)
Ltac inv_bind :=
  repeat match goal with
  | H : (_ ≫= _) = Ok _ |- _ =>
      let a := fresh "a" in let Ha := fresh "Ha" in
      apply bind_Ok_inv in H as (a & Ha & H); simpl in H
  | H : require _ = Ok ?u |- _ => destruct u; apply require_inv in H
  end.

(** ** Fixed-width integers: the value of a C++ conversion to the width *)
Definition u8 (x : Z) : Z := x `mod` 2^8.
Definition u16 (x : Z) : Z := x `mod` 2^16.
Definition u32 (x : Z) : Z := x `mod` 2^32.
Definition u64 (x : Z) : Z := x `mod` 2^64.
Definition i32 (x : Z) : Z := (x + 2^31) `mod` 2^32 - 2^31.

Definition is_u16 (x : Z) : Prop := 0 ≤ x < 2^16.
Definition is_u32 (x : Z) : Prop := 0 ≤ x < 2^32.
Definition is_u64 (x : Z) : Prop := 0 ≤ x < 2^64.
Definition is_i32 (x : Z) : Prop := - 2^31 ≤ x < 2^31.
(** A byte of a buffer, [uint8_t]. *)
Definition is_byte (b : Z) : Prop := 0 ≤ b < 2^8.

#[export] Instance is_byte_dec b : Decision (is_byte b).
Proof. unfold is_byte. apply _. Defined.
#[export] Instance is_u16_dec b : Decision (is_u16 b).
Proof. unfold is_u16. apply _. Defined.
#[export] Instance is_u32_dec b : Decision (is_u32 b).
Proof. unfold is_u32. apply _. Defined.
#[export] Instance is_u64_dec b : Decision (is_u64 b).
Proof. unfold is_u64. apply _. Defined.
#[export] Instance is_i32_dec b : Decision (is_i32 b).
Proof. unfold is_i32. apply _. Defined.

Lemma u8_range x : 0 ≤ u8 x < 2^8.
Proof. unfold u8. apply Z.mod_pos_bound. lia. Qed.
Lemma u16_range x : 0 ≤ u16 x < 2^16.
Proof. unfold u16. apply Z.mod_pos_bound. lia. Qed.
Lemma u32_range x : 0 ≤ u32 x < 2^32.
Proof. unfold u32. apply Z.mod_pos_bound. lia. Qed.
Lemma u64_range x : 0 ≤ u64 x < 2^64.
Proof. unfold u64. apply Z.mod_pos_bound. lia. Qed.
Lemma i32_range x : - 2^31 ≤ i32 x < 2^31.
Proof. unfold i32. pose proof (Z.mod_pos_bound (x + 2^31) (2^32)). lia. Qed.

Lemma u8_small x : 0 ≤ x < 2^8 → u8 x = x.
Proof. intros. unfold u8. by apply Z.mod_small. Qed.
Lemma u16_small x : 0 ≤ x < 2^16 → u16 x = x.
Proof. intros. unfold u16. by apply Z.mod_small. Qed.
Lemma u32_small x : 0 ≤ x < 2^32 → u32 x = x.
Proof. intros. unfold u32. by apply Z.mod_small. Qed.
Lemma u64_small x : 0 ≤ x < 2^64 → u64 x = x.
Proof. intros. unfold u64. by apply Z.mod_small. Qed.
Lemma i32_small x : - 2^31 ≤ x < 2^31 → i32 x = x.
Proof. intros. unfold i32. rewrite Z.mod_small; lia. Qed.

(** A signed value survives the conversion to [uint32_t] and back. *)
Lemma i32_u32 x : i32 (u32 x) = i32 x.
Proof.
  unfold i32, u32. f_equal. rewrite <-(Z.add_mod_idemp_l x) by lia. done.
Qed.

Lemma u32_add_l x y : u32 (u32 x + y) = u32 (x + y).
Proof. unfold u32. by rewrite Zplus_mod_idemp_l. Qed.
Lemma u32_sub_l x y : u32 (u32 x - y) = u32 (x - y).
Proof. unfold u32. by rewrite Zminus_mod_idemp_l. Qed.
Lemma u32_i32 x : u32 (i32 x) = u32 x.
Proof.
  unfold i32, u32. rewrite Zminus_mod_idemp_l. f_equal. lia.
Qed.

(** ** Byte buffers *)
Abbreviation bytes := (list Z).

Definition zlen {A} (l : list A) : Z := Z.of_nat (length l).
Definition ztake {A} (n : Z) (l : list A) : list A := take (Z.to_nat n) l.
Definition zdrop {A} (n : Z) (l : list A) : list A := drop (Z.to_nat n) l.
(** [l[off .. off+n)] *)
Definition slice {A} (off n : Z) (l : list A) : list A := ztake n (zdrop off l).

Section zlist.
Context {A : Type}.
Implicit Types (l k : list A) (n m off : Z).

Lemma zlen_nonneg l : 0 ≤ zlen l.
Proof. unfold zlen. lia. Qed.
Lemma zlen_nil : zlen ([] : list A) = 0.
Proof. done. Qed.
Lemma zlen_cons x l : zlen (x :: l) = 1 + zlen l.
Proof. unfold zlen. simpl. lia. Qed.
Lemma zlen_app l k : zlen (l ++ k) = zlen l + zlen k.
Proof. unfold zlen. rewrite length_app. lia. Qed.
Lemma zlen_0_inv l : zlen l = 0 → l = [].
Proof. unfold zlen. destruct l; simpl; [done|lia]. Qed.
Lemma zlen_replicate n (x : A) : 0 ≤ n → zlen (replicate (Z.to_nat n) x) = n.
Proof. intros. unfold zlen. rewrite length_replicate. lia. Qed.

Lemma zlen_ztake n l : zlen (ztake n l) = Z.min (Z.max 0 n) (zlen l).
Proof. unfold zlen, ztake. rewrite length_take. lia. Qed.
Lemma zlen_zdrop n l : zlen (zdrop n l) = Z.max 0 (zlen l - Z.max 0 n).
Proof. unfold zlen, zdrop. rewrite length_drop. lia. Qed.
Lemma zlen_slice off n l :
  0 ≤ off → 0 ≤ n → off + n ≤ zlen l → zlen (slice off n l) = n.
Proof. intros. unfold slice. rewrite zlen_ztake, zlen_zdrop. lia. Qed.

Lemma ztake_zdrop n l : ztake n l ++ zdrop n l = l.
Proof. apply take_drop. Qed.
Lemma ztake_ge n l : zlen l ≤ n → ztake n l = l.
Proof. unfold zlen, ztake. intros. apply take_ge. lia. Qed.
Lemma zdrop_ge n l : zlen l ≤ n → zdrop n l = [].
Proof. unfold zlen, zdrop. intros. apply drop_ge. lia. Qed.
Lemma ztake_0 l n : n ≤ 0 → ztake n l = [].
Proof. intros. unfold ztake. replace (Z.to_nat n) with 0%nat by lia. done. Qed.
Lemma zdrop_0 l n : n ≤ 0 → zdrop n l = l.
Proof. intros. unfold zdrop. replace (Z.to_nat n) with 0%nat by lia. done. Qed.

Lemma ztake_app n l k : ztake n (l ++ k) = ztake n l ++ ztake (n - zlen l) k.
Proof.
  unfold ztake, zlen. rewrite take_app. do 2 f_equal. lia.
Qed.
Lemma zdrop_app n l k : 0 ≤ n → zdrop n (l ++ k) = zdrop n l ++ zdrop (n - zlen l) k.
Proof.
  intros. unfold zdrop, zlen. rewrite drop_app. do 2 f_equal. lia.
Qed.
Lemma ztake_app_l n l k : n ≤ zlen l → ztake n (l ++ k) = ztake n l.
Proof. intros. rewrite ztake_app, (ztake_0 k) by lia. by rewrite app_nil_r. Qed.
Lemma ztake_app_r n l k : zlen l ≤ n → ztake n (l ++ k) = l ++ ztake (n - zlen l) k.
Proof. intros. by rewrite ztake_app, ztake_ge by done. Qed.
Lemma zdrop_app_l n l k : 0 ≤ n ≤ zlen l → zdrop n (l ++ k) = zdrop n l ++ k.
Proof. intros. rewrite zdrop_app, (zdrop_0 k) by lia. done. Qed.
Lemma zdrop_app_r n l k : zlen l ≤ n → zdrop n (l ++ k) = zdrop (n - zlen l) k.
Proof. intros. pose proof (zlen_nonneg l). rewrite zdrop_app, zdrop_ge by lia. done. Qed.
Lemma ztake_app_exact l k : ztake (zlen l) (l ++ k) = l.
Proof. rewrite ztake_app_l by lia. by apply ztake_ge. Qed.
Lemma zdrop_app_exact l k : zdrop (zlen l) (l ++ k) = k.
Proof. rewrite zdrop_app_r by lia. by rewrite zdrop_0 by lia. Qed.

Lemma ztake_ztake n m l : ztake n (ztake m l) = ztake (Z.min n m) l.
Proof. unfold ztake. rewrite take_take. f_equal. lia. Qed.
Lemma zdrop_zdrop n m l : 0 ≤ n → 0 ≤ m → zdrop n (zdrop m l) = zdrop (m + n) l.
Proof. intros. unfold zdrop. rewrite drop_drop. f_equal. lia. Qed.

Lemma slice_app_ztake off n m l :
  0 ≤ off → 0 ≤ n → 0 ≤ m →
  slice off (n + m) l = slice off n l ++ slice (off + n) m l.
Proof.
  intros. unfold slice.
  rewrite <-(ztake_zdrop n (ztake (n + m) (zdrop off l))).
  rewrite ztake_ztake, Z.min_l by lia. f_equal.
  unfold ztake, zdrop.
  replace (Z.to_nat (off + n)) with (Z.to_nat off + Z.to_nat n)%nat by lia.
  rewrite <-(drop_drop l), skipn_firstn_comm. f_equal. lia.
Qed.
Lemma slice_all l : slice 0 (zlen l) l = l.
Proof. unfold slice. by rewrite zdrop_0, ztake_ge by lia. Qed.
Lemma slice_0 off l : slice off 0 l = [].
Proof. unfold slice. by apply ztake_0. Qed.
End zlist.

Create Rewrite HintDb zlist.
#[export] Hint Rewrite @zlen_app @zlen_cons @zlen_nil @zlen_ztake @zlen_zdrop : zlist.

(** Length arithmetic over concatenations, prefixes and suffixes. *)
Ltac zlen :=
  autorewrite with zlist in *;
  repeat match goal with
  | |- context [zlen ?l] => lazymatch goal with
      | _ : 0 ≤ zlen l |- _ => fail | _ => pose proof (zlen_nonneg l) end
  | _ : context [zlen ?l] |- _ => lazymatch goal with
      | _ : 0 ≤ zlen l |- _ => fail | _ => pose proof (zlen_nonneg l) end
  end;
  lia.

(** [memcpy(dst + doff, src + soff, n)] for two distinct buffers: faults when
    the source or the destination range leaves its buffer. *)
Definition memcpy (dst : bytes) (doff : Z) (src : bytes) (soff n : Z) : outcome bytes :=
  if bool_decide (0 ≤ n ∧ 0 ≤ doff ∧ doff + n ≤ zlen dst ∧ 0 ≤ soff ∧ soff + n ≤ zlen src)
  then Ok (ztake doff dst ++ slice soff n src ++ zdrop (doff + n) dst)
  else Fault OutOfBounds.

(** [memcpy(&x, buf + off, n)]: reading [n] bytes out of a buffer. *)
Definition memread (buf : bytes) (off n : Z) : outcome bytes :=
  if bool_decide (0 ≤ n ∧ 0 ≤ off ∧ off + n ≤ zlen buf)
  then Ok (slice off n buf) else Fault OutOfBounds.

(** [std::string(n, 0)] / [assign(n, 0)]. *)
Definition zeros (n : Z) : bytes := replicate (Z.to_nat n) 0.

Section memcpy.
Implicit Types (dst src buf : bytes).

Lemma memcpy_ok dst doff src soff n :
  0 ≤ n → 0 ≤ doff → doff + n ≤ zlen dst → 0 ≤ soff → soff + n ≤ zlen src →
  memcpy dst doff src soff n
  = Ok (ztake doff dst ++ slice soff n src ++ zdrop (doff + n) dst).
Proof. intros. unfold memcpy. by rewrite bool_decide_true by lia. Qed.

Lemma memcpy_front dst src soff n :
  0 ≤ n → n ≤ zlen dst → 0 ≤ soff → soff + n ≤ zlen src →
  memcpy dst 0 src soff n = Ok (slice soff n src ++ zdrop n dst).
Proof. intros. by rewrite memcpy_ok by lia. Qed.

Lemma memcpy_inv dst doff src soff n dst' :
  memcpy dst doff src soff n = Ok dst' →
  0 ≤ n ∧ 0 ≤ doff ∧ doff + n ≤ zlen dst ∧ 0 ≤ soff ∧ soff + n ≤ zlen src ∧
  dst' = ztake doff dst ++ slice soff n src ++ zdrop (doff + n) dst.
Proof. unfold memcpy. case_bool_decide; naive_solver. Qed.

Lemma memcpy_overflow dst doff src soff n :
  zlen dst < doff + n → memcpy dst doff src soff n = Fault OutOfBounds.
Proof. intros. unfold memcpy. rewrite bool_decide_false by lia. done. Qed.

Lemma memcpy_length dst doff src soff n dst' :
  memcpy dst doff src soff n = Ok dst' → zlen dst' = zlen dst.
Proof.
  intros (?&?&?&?&?&->)%memcpy_inv. rewrite !zlen_app, zlen_slice by lia. zlen.
Qed.

(** Filling a buffer from the front: what was written so far is extended by
    the copied bytes. *)
Lemma memcpy_fill dst doff src soff n dst' :
  memcpy dst doff src soff n = Ok dst' →
  ztake (doff + n) dst' = ztake doff dst ++ slice soff n src.
Proof.
  intros (?&?&?&?&?&->)%memcpy_inv.
  rewrite (app_assoc (ztake doff dst)).
  assert (zlen (ztake doff dst ++ slice soff n src) = doff + n) as Hl.
  { rewrite zlen_app, zlen_slice by lia. zlen. }
  rewrite <-Hl at 1. apply ztake_app_exact.
Qed.

Lemma memread_ok buf off n :
  0 ≤ n → 0 ≤ off → off + n ≤ zlen buf → memread buf off n = Ok (slice off n buf).
Proof. intros. unfold memread. by rewrite bool_decide_true by lia. Qed.

Lemma memread_front buf n : 0 ≤ n ≤ zlen buf → memread buf 0 n = Ok (ztake n buf).
Proof. intros. by rewrite memread_ok by lia. Qed.

Lemma memread_prefix buf buf' off n m :
  ztake m buf = ztake m buf' → 0 ≤ n → 0 ≤ off → off + n ≤ m →
  m ≤ zlen buf → m ≤ zlen buf' → memread buf off n = memread buf' off n.
Proof.
  intros Heq ?????. rewrite !memread_ok by lia. f_equal.
  assert (∀ b : bytes, slice off n b = slice off n (ztake m b)) as Hs.
  { intros b. unfold slice, ztake, zdrop. rewrite skipn_firstn_comm, take_take.
    f_equal. lia. }
  by rewrite (Hs buf), (Hs buf'), Heq.
Qed.

Lemma zlen_zeros n : 0 ≤ n → zlen (zeros n) = n.
Proof. apply zlen_replicate. Qed.

Lemma zeros_bytes n : Forall is_byte (zeros n).
Proof. apply Forall_replicate. unfold is_byte. lia. Qed.

Lemma Forall_slice (P : Z → Prop) off n buf :
  Forall P buf → Forall P (slice off n buf).
Proof. intros. unfold slice, ztake, zdrop. by apply Forall_take, Forall_drop. Qed.

Lemma memcpy_Forall (P : Z → Prop) dst doff src soff n dst' :
  memcpy dst doff src soff n = Ok dst' → Forall P dst → Forall P src → Forall P dst'.
Proof.
  intros (?&?&?&?&?&->)%memcpy_inv ??. rewrite !Forall_app. split_and!.
  - by apply Forall_take.
  - by apply Forall_slice.
  - by apply Forall_drop.
Qed.
End memcpy.

(** [mem] with the range starting at [off] overwritten by [bs]. *)
Definition splice (mem : bytes) (off : Z) (bs : bytes) : bytes :=
  ztake off mem ++ bs ++ zdrop (off + zlen bs) mem.

(** Splicing back the same range with other bytes of the same length. *)
Lemma splice_slice (mem bs : bytes) p : 0 ≤ p → p + zlen bs ≤ zlen mem →
  slice p (zlen bs) (splice mem p bs) = bs.
Proof.
  intros. unfold slice, splice.
  assert (zlen (ztake p mem) = p) as Hl by zlen.
  rewrite <-Hl at 1. rewrite zdrop_app_exact. apply ztake_app_exact.
Qed.

Lemma splice_splice (mem bs bs' : bytes) p : 0 ≤ p → p + zlen bs ≤ zlen mem →
  zlen bs' = zlen bs → splice (splice mem p bs) p bs' = splice mem p bs'.
Proof.
  intros ?? Hl. unfold splice.
  assert (zlen (ztake p mem) = p) as Hp by zlen.
  rewrite ztake_app_l, (ztake_ge p (ztake p mem)) by zlen. do 2 f_equal.
  rewrite app_assoc, zdrop_app_r by zlen.
  rewrite zlen_app, zdrop_0 by lia. by rewrite Hl.
Qed.

Lemma splice_same (mem : bytes) p n : 0 ≤ p → 0 ≤ n → p + n ≤ zlen mem →
  splice mem p (slice p n mem) = mem.
Proof.
  intros. unfold splice. rewrite zlen_slice by done. unfold slice.
  rewrite <-(zdrop_zdrop n p), ztake_zdrop by lia. apply ztake_zdrop.
Qed.

Lemma zlen_splice (mem bs : bytes) p : 0 ≤ p → p + zlen bs ≤ zlen mem →
  zlen (splice mem p bs) = zlen mem.
Proof. intros. unfold splice. zlen. Qed.

Lemma splice_Forall (P : Z → Prop) (mem bs : bytes) p :
  Forall P mem → Forall P bs → Forall P (splice mem p bs).
Proof.
  intros. unfold splice. rewrite !Forall_app. split_and!; [by apply Forall_take|done|].
  by apply Forall_drop.
Qed.

(** Appending to what has been written so far. *)
Lemma splice_append (buf bs : bytes) (size : Z) :
  0 ≤ size → size + zlen bs ≤ zlen buf →
  ztake (size + zlen bs) (splice buf size bs) = ztake size buf ++ bs.
Proof.
  intros. unfold splice. rewrite app_assoc.
  assert (zlen (ztake size buf ++ bs) = size + zlen bs) as <- by zlen.
  apply ztake_app_exact.
Qed.

(** Filling a buffer from a position on, piece by piece. *)
Lemma splice_nil (mem : bytes) off : 0 ≤ off → splice mem off [] = mem.
Proof. intros. unfold splice. simpl. unfold zlen. simpl. rewrite Z.add_0_r. apply ztake_zdrop. Qed.

Lemma memcpy_next (mem pre src : bytes) off k soff n :
  zlen pre = k → 0 ≤ off → 0 ≤ n → off + k + n ≤ zlen mem → 0 ≤ soff → soff + n ≤ zlen src →
  memcpy (splice mem off pre) (off + k) src soff n = Ok (splice mem off (pre ++ slice soff n src)).
Proof.
  intros Hk ?????. pose proof (zlen_nonneg pre). rewrite memcpy_ok by (rewrite ?zlen_splice; lia). f_equal.
  assert (zlen (slice soff n src) = n) as Hn by (by apply zlen_slice).
  assert (zlen (ztake off mem) = off) as Ho by zlen.
  unfold splice. rewrite !(app_assoc (ztake off mem) pre).
  assert (zlen (ztake off mem ++ pre) = off + k) as Hp by (rewrite zlen_app; lia).
  rewrite ztake_app_l, ztake_ge, zdrop_app_r, Hp by lia. rewrite zdrop_zdrop by lia.
  rewrite <-!app_assoc. do 4 f_equal. rewrite zlen_app. lia.
Qed.

(** Writing a piece behind the place of another one, and then that one. *)
Lemma splice_behind (mem a b : bytes) off k : 0 ≤ off → zlen a = k → off + k + zlen b ≤ zlen mem →
  splice (splice mem (off + k) b) off a = splice mem off (a ++ b).
Proof.
  intros Hoff <- Hle. pose proof (zlen_nonneg a). pose proof (zlen_nonneg b). unfold splice.
  rewrite ztake_app_l by zlen. rewrite ztake_ztake, Z.min_l by lia.
  rewrite <-app_assoc. do 2 f_equal.
  rewrite zdrop_app_r by zlen. rewrite zdrop_0 by zlen. do 2 f_equal. zlen.
Qed.

(** The middle part of a concatenation. *)
Lemma slice_mid (pre mid post : bytes) k n :
  zlen pre = k → zlen mid = n → slice k n (pre ++ mid ++ post) = mid.
Proof. intros <- <-. unfold slice. by rewrite zdrop_app_exact, ztake_app_exact. Qed.

Lemma slice_front (mid post : bytes) n : zlen mid = n → slice 0 n (mid ++ post) = mid.
Proof. intros. by apply (slice_mid [] mid post 0 n). Qed.

(** [buf[i]] and [buf[i] = v]. *)
Definition buf_get (buf : bytes) (i : Z) : outcome Z :=
  if decide (0 ≤ i)
  then match buf !! Z.to_nat i with Some b => Ok b | None => Fault OutOfBounds end
  else Fault OutOfBounds.
Definition buf_set (buf : bytes) (i v : Z) : outcome bytes :=
  if bool_decide (0 ≤ i < zlen buf) then Ok (<[Z.to_nat i := v]> buf) else Fault OutOfBounds.

(** [for (int i = lo; i < lo + n; i++) body(i)] over a state. *)
Fixpoint for_from {S} (n : nat) (lo : Z) (body : Z → S → outcome S) (s : S) : outcome S :=
  match n with
  | O => Ok s
  | Datatypes.S n => s' ← body lo s; for_from n (lo + 1) body s'
  end.

(** The invariant rule for counted loops. *)
Lemma for_from_inv {S} (I : Z → S → Prop) n lo body s :
  I lo s →
  (∀ i s, lo ≤ i < lo + Z.of_nat n → I i s → ∃ s', body i s = Ok s' ∧ I (i + 1) s') →
  ∃ s', for_from n lo body s = Ok s' ∧ I (lo + Z.of_nat n) s'.
Proof.
  revert lo s. induction n as [|n IH]; intros lo s Hs Hbody.
  { exists s. split; [done|]. by replace (lo + Z.of_nat 0) with lo by lia. }
  destruct (Hbody lo s ltac:(lia) Hs) as (s1 & E & H1).
  destruct (IH (lo + 1) s1 H1) as (s' & E' & H').
  { intros i s2 Hi. apply Hbody. lia. }
  exists s'. simpl. rewrite E. simpl. split; [done|].
  by replace (lo + Z.of_nat (Datatypes.S n)) with (lo + 1 + Z.of_nat n) by lia.
Qed.

#[export] Hint Resolve u8_range u16_range u32_range u64_range zeros_bytes : core.

Lemma list_filter_all {A} (P : A → Prop) `{∀ x, Decision (P x)} (l : list A) : Forall P l → filter P l = l.
Proof. induction 1 as [|x l Hx _ IH]; [done|]. by rewrite filter_cons_True, IH. Qed.

Lemma list_filter_none {A} (P : A → Prop) `{∀ x, Decision (P x)} (l : list A) : Forall (λ x, ¬ P x) l → filter P l = [].
Proof. induction 1 as [|x l Hx _ IH]; [done|]. by rewrite filter_cons_False, IH. Qed.

Lemma ForallOrdPairs_sublist {A} (R : A → A → Prop) (l k : list A) :
  l `sublist_of` k → ForallOrdPairs R k → ForallOrdPairs R l.
Proof.
  induction 1 as [|x l k Hs IH|x l k Hs IH]; intros Hk; [constructor|..]; inversion_clear Hk as [|? ? Hx Hk'].
  - constructor; [|auto]. rewrite Forall_forall in Hx |- *. intros y Hy. apply Hx. by eapply elem_of_submseteq, sublist_submseteq.
  - auto.
Qed.
Lemma ForallOrdPairs_snoc {A} (R : A → A → Prop) (l : list A) y :
  ForallOrdPairs R l → Forall (λ x, R x y) l → ForallOrdPairs R (l ++ [y]).
Proof.
  induction 1 as [|x l Hx Hl IH]; intros Hy; simpl; [by repeat constructor|].
  apply Forall_cons in Hy as [? Hy]. constructor; [|auto]. apply Forall_app. split; [done|by repeat constructor].
Qed.

(** ** Steps and reachable states of a transition system *)
Section steps.
Context {S : Type} (step : S → S → Prop).

(** States reachable from [s] in any number of steps. *)
Inductive reach (s : S) : S → Prop :=
  | reach_refl : reach s s
  | reach_step s1 s2 : reach s s1 → step s1 s2 → reach s s2.

(** An invariant that holds initially and that every step preserves holds in
    every reachable state. *)
Lemma reach_invariant (I : S → Prop) s s' :
  I s → (∀ s1 s2, I s1 → step s1 s2 → I s2) → reach s s' → I s'.
Proof. intros Hs Hstep. induction 1; eauto. Qed.

Lemma reach_trans s1 s2 s3 : reach s1 s2 → reach s2 s3 → reach s1 s3.
Proof. intros H12. induction 1; [done|by eapply reach_step]. Qed.

Lemma reach_cons s1 s2 s3 : step s1 s2 → reach s2 s3 → reach s1 s3.
Proof. intros H12. apply reach_trans. by eapply reach_step; [apply reach_refl|]. Qed.
End steps.
