(* ===== verification/Define.v ===== *)
(** * corpc_define.h: protocol constants and byte order

    The sizes and message types of the wire formats, the byte-swapping macros
    [bswap16/32/64] and the conversions [htobe*] / [be*toh] built on them, for
    both branches of the [__BYTE_ORDER__] test.  The lemmas show that storing a
    converted integer with [memcpy] writes its big-endian bytes whatever the
    byte order of the host, and that the converted load reads them back. *)
From S2P Require Import Prelude.
Open Scope Z_scope.

(** ** Constants (corpc_define.h) *)
Definition CORPC_MAX_BUFFER_SIZE : Z := 0x10000.
Definition CORPC_MAX_REQUEST_SIZE : Z := 0x100000.
Definition CORPC_MAX_RESPONSE_SIZE : Z := 0x100000.
Definition CORPC_REQUEST_HEAD_SIZE : Z := 28.
Definition CORPC_RESPONSE_HEAD_SIZE : Z := 24.
Definition CORPC_MESSAGE_HEAD_SIZE : Z := 22.
Definition CORPC_UDP_HANDSHAKE_SIZE : Z := 4.
Definition CORPC_MAX_MESSAGE_SIZE : Z := 0x10000.
Definition CORPC_MAX_UDP_MESSAGE_SIZE : Z := 540.
Definition CORPC_MAX_KCP_PACKAGE_SIZE : Z := 0x1000.
Definition CORPC_MESSAGE_FLAG_CRYPT : Z := 0x1.
Definition CORPC_MSG_TYPE_CONNECT : Z := -1.
Definition CORPC_MSG_TYPE_CLOSE : Z := -2.
Definition CORPC_MSG_TYPE_BANNED : Z := -10.
Definition CORPC_MSG_TYPE_UDP_UNSHAKE : Z := -110.
Definition CORPC_MSG_TYPE_UDP_HANDSHAKE_1 : Z := -111.
Definition CORPC_MSG_TYPE_UDP_HANDSHAKE_2 : Z := -112.
Definition CORPC_MSG_TYPE_UDP_HANDSHAKE_3 : Z := -113.
Definition CORPC_MSG_TYPE_UDP_HANDSHAKE_4 : Z := -114.
Definition CORPC_MSG_TYPE_HEARTBEAT : Z := -115.
Definition CORPC_MSG_TYPE_JUMP_SERIAL : Z := -116.
Definition CORPC_HEARTBEAT_PERIOD : Z := 5000.
Definition CORPC_MAX_NO_HEARTBEAT_TIME : Z := 15000.
Definition CORPC_MAX_UINT64 : Z := 0xFFFFFFFFFFFFFFFF.
Definition CORPC_MIN_UINT64 : Z := 0.
Definition CORPC_SKIP_LIST_MAX_LEVEL : Z := 16.

(** ** Byte swapping (corpc_define.h) *)
Definition bswap16 (x : Z) : Z := u16 (Z.lor (x ≪ 8) (x ≫ 8)).

Definition bswap32 (x : Z) : Z :=
  Z.lor (Z.lor (Z.lor
    (x ≫ 24)
    (Z.land x (0xff ≪ 16) ≫ 8))
    (u32 (Z.land x (0xff ≪ 8) ≪ 8)))
    (u32 (x ≪ 24)).

Definition bswap64 (x : Z) : Z :=
  Z.lor (Z.lor (Z.lor (Z.lor (Z.lor (Z.lor (Z.lor
    (x ≫ 56)
    (Z.land (x ≫ 40) (0xff ≪ 8)))
    (Z.land (x ≫ 24) (0xff ≪ 16)))
    (Z.land (x ≫ 8) (0xff ≪ 24)))
    (Z.land (u64 (x ≪ 8)) (0xff ≪ 32)))
    (Z.land (u64 (x ≪ 24)) (0xff ≪ 40)))
    (Z.land (u64 (x ≪ 40)) (0xff ≪ 48)))
    (u64 (x ≪ 56)).

(** ** Host byte order *)
Inductive endian : Type := LittleEndian | BigEndian.

(** The bytes of an [n]-byte integer in the memory of the host, and the value
    of [n] bytes read as an integer by the host. *)
Definition host_bytes (e : endian) (n x : Z) : bytes :=
  match e with
  | LittleEndian => Z_to_little_endian n 8 x
  | BigEndian => reverse (Z_to_little_endian n 8 x)
  end.
Definition host_val (e : endian) (bs : bytes) : Z :=
  match e with
  | LittleEndian => little_endian_to_Z 8 bs
  | BigEndian => little_endian_to_Z 8 (reverse bs)
  end.

(** The conversion macros (corpc_define.h). *)
Definition htobe16 (e : endian) (x : Z) : Z :=
  match e with LittleEndian => bswap16 (u16 x) | BigEndian => u16 x end.
Definition htobe32 (e : endian) (x : Z) : Z :=
  match e with LittleEndian => bswap32 (u32 x) | BigEndian => u32 x end.
Definition htobe64 (e : endian) (x : Z) : Z :=
  match e with LittleEndian => bswap64 (u64 x) | BigEndian => u64 x end.
Definition be16toh (e : endian) (x : Z) : Z :=
  match e with LittleEndian => bswap16 (u16 x) | BigEndian => u16 x end.
Definition be32toh (e : endian) (x : Z) : Z :=
  match e with LittleEndian => bswap32 (u32 x) | BigEndian => u32 x end.
Definition be64toh (e : endian) (x : Z) : Z :=
  match e with LittleEndian => bswap64 (u64 x) | BigEndian => u64 x end.

(** ** Big-endian integers, the specification *)
Definition be_bytes (n x : Z) : bytes := reverse (Z_to_little_endian n 8 x).
Definition be_val (bs : bytes) : Z := little_endian_to_Z 8 (reverse bs).

Section arith.
(** Disjoint [or] is addition. *)
Lemma lor_add a b k : 0 ≤ k → 0 ≤ a < 2^k → Z.lor a (b * 2^k) = a + b * 2^k.
Proof.
  intros Hk Ha. rewrite <-Z.shiftl_mul_pow2 by done. symmetry.
  rewrite <-Z.add_lor_land. enough (Z.land a (b ≪ k) = 0) by lia.
  apply Z.bits_inj_iff'. intros n Hn. rewrite Z.land_spec, Z.bits_0.
  destruct (decide (n < k)).
  - rewrite (Z.shiftl_spec_low b k n) by done. apply andb_false_r.
  - rewrite Z.shiftl_spec by done.
    rewrite (proj1 (Z.bounded_iff_bits_nonneg k a ltac:(lia) ltac:(lia))); [done|lia..].
Qed.

Lemma land_mask x k : 0 ≤ k → Z.land x (0xff ≪ k) = (x `div` 2^k) `mod` 2^8 * 2^k.
Proof.
  intros Hk. rewrite <-(Z.shiftl_mul_pow2 _ k), <-(Z.shiftr_div_pow2 x k) by done.
  rewrite <-(Z.land_ones _ 8) by lia. change (Z.ones 8) with 0xff.
  apply Z.bits_inj_iff'. intros n Hn.
  rewrite Z.land_spec, !Z.shiftl_spec by done. rewrite Z.land_spec.
  destruct (decide (n < k)).
  - rewrite !(Z.testbit_neg_r _ (n - k)) by lia. by rewrite !andb_false_r.
  - rewrite Z.shiftr_spec by lia. do 2 f_equal. lia.
Qed.

Lemma le_cons b bs : is_byte b →
  little_endian_to_Z 8 (b :: bs) = b + little_endian_to_Z 8 bs * 2^8.
Proof.
  intros. cbn [little_endian_to_Z].
  rewrite Z.shiftl_mul_pow2 by lia. by apply lor_add; [lia|].
Qed.
End arith.

(** The swaps reverse the bytes. *)
Section bswap.
Ltac arith :=
  rewrite ?land_mask, ?Z.shiftl_mul_pow2, ?Z.shiftr_div_pow2 by lia;
  unfold u16, u32, u64 in *; unfold is_byte in *.

Ltac dlia := subst; Z.div_mod_to_equations; lia.

Lemma bswap16_le b0 b1 : is_byte b0 → is_byte b1 →
  bswap16 (b0 + b1 * 2^8) = b1 + b0 * 2^8.
Proof.
  intros. unfold bswap16. arith. rewrite Z.lor_comm.
  replace ((b0 + b1 * 2^8) `div` 2^8) with b1 by dlia.
  rewrite (lor_add b1 _ 8) by lia. dlia.
Qed.

Lemma bswap32_le b0 b1 b2 b3 : is_byte b0 → is_byte b1 → is_byte b2 → is_byte b3 →
  bswap32 (b0 + (b1 + (b2 + b3 * 2^8) * 2^8) * 2^8)
  = b3 + (b2 + (b1 + b0 * 2^8) * 2^8) * 2^8.
Proof.
  intros. match goal with |- _ ?y = _ => remember y as x eqn:Hx end. unfold bswap32. arith.
  replace (x `div` 2^24) with b3 by dlia.
  replace (((x `div` 2^16) `mod` 2^8 * 2^16) `div` 2^8) with (b2 * 2^8) by dlia.
  replace (((x `div` 2^8) `mod` 2^8 * 2^8 * 2^8) `mod` 2^32) with (b1 * 2^16) by dlia.
  replace ((x * 2^24) `mod` 2^32) with (b0 * 2^24) by dlia.
  rewrite (lor_add b3 _ 8), (lor_add _ _ 16), (lor_add _ _ 24) by lia. lia.
Qed.

Lemma bswap64_le b0 b1 b2 b3 b4 b5 b6 b7 :
  is_byte b0 → is_byte b1 → is_byte b2 → is_byte b3 →
  is_byte b4 → is_byte b5 → is_byte b6 → is_byte b7 →
  bswap64 (b0 + (b1 + (b2 + (b3 + (b4 + (b5 + (b6 + b7 * 2^8) * 2^8) * 2^8) * 2^8) * 2^8) * 2^8) * 2^8)
  = b7 + (b6 + (b5 + (b4 + (b3 + (b2 + (b1 + b0 * 2^8) * 2^8) * 2^8) * 2^8) * 2^8) * 2^8) * 2^8.
Proof.
  intros. match goal with |- _ ?y = _ => remember y as x eqn:Hx end. unfold bswap64. arith.
  replace (x `div` 2^56) with b7 by dlia.
  replace (((x `div` 2^40) `div` 2^8) `mod` 2^8 * 2^8) with (b6 * 2^8) by dlia.
  replace (((x `div` 2^24) `div` 2^16) `mod` 2^8 * 2^16) with (b5 * 2^16) by dlia.
  replace (((x `div` 2^8) `div` 2^24) `mod` 2^8 * 2^24) with (b4 * 2^24) by dlia.
  replace ((((x * 2^8) `mod` 2^64) `div` 2^32) `mod` 2^8 * 2^32) with (b3 * 2^32) by dlia.
  replace ((((x * 2^24) `mod` 2^64) `div` 2^40) `mod` 2^8 * 2^40) with (b2 * 2^40) by dlia.
  replace ((((x * 2^40) `mod` 2^64) `div` 2^48) `mod` 2^8 * 2^48) with (b1 * 2^48) by dlia.
  replace ((x * 2^56) `mod` 2^64) with (b0 * 2^56) by dlia.
  rewrite (lor_add b7 _ 8), (lor_add _ _ 16), (lor_add _ _ 24), (lor_add _ _ 32),
    (lor_add _ _ 40), (lor_add _ _ 48), (lor_add _ _ 56) by lia. lia.
Qed.
End bswap.

(** ** Stores and loads in network byte order *)
Section network.
(** What [bswap16], [bswap32] and [bswap64] share: the swap of an [n]-byte
    integer reverses its bytes. *)
Definition swaps (n : Z) (swap : Z → Z) : Prop :=
  ∀ bs, zlen bs = n → Forall is_byte bs →
    swap (little_endian_to_Z 8 bs) = little_endian_to_Z 8 (reverse bs).

Lemma le_nil : little_endian_to_Z 8 [] = 0.
Proof. done. Qed.

Lemma bswap16_swaps : swaps 2 bswap16.
Proof.
  intros bs. unfold zlen. intros Hlen Hb.
  destruct bs as [|b0 [|b1 [|]]]; simpl in Hlen; try lia.
  rewrite !Forall_cons in Hb. destruct_and! Hb.
  change (reverse [b0; b1]) with [b1; b0].
  rewrite !le_cons, !le_nil, !Z.mul_0_l, !Z.add_0_r by done. by apply bswap16_le.
Qed.
Lemma bswap32_swaps : swaps 4 bswap32.
Proof.
  intros bs. unfold zlen. intros Hlen Hb.
  destruct bs as [|b0 [|b1 [|b2 [|b3 [|]]]]]; simpl in Hlen; try lia.
  rewrite !Forall_cons in Hb. destruct_and! Hb.
  change (reverse [b0; b1; b2; b3]) with [b3; b2; b1; b0].
  rewrite !le_cons, !le_nil, !Z.mul_0_l, !Z.add_0_r by done. by apply bswap32_le.
Qed.
Lemma bswap64_swaps : swaps 8 bswap64.
Proof.
  intros bs. unfold zlen. intros Hlen Hb.
  destruct bs as [|b0 [|b1 [|b2 [|b3 [|b4 [|b5 [|b6 [|b7 [|]]]]]]]]]; simpl in Hlen; try lia.
  rewrite !Forall_cons in Hb. destruct_and! Hb.
  change (reverse [b0; b1; b2; b3; b4; b5; b6; b7]) with [b7; b6; b5; b4; b3; b2; b1; b0].
  rewrite !le_cons, !le_nil, !Z.mul_0_l, !Z.add_0_r by done. by apply bswap64_le.
Qed.

Lemma le_bytes_props n x : 0 ≤ n →
  zlen (Z_to_little_endian n 8 x) = n ∧ Forall is_byte (Z_to_little_endian n 8 x).
Proof.
  intros. split; [by apply length_Z_to_little_endian|].
  by apply Z_to_little_endian_bound.
Qed.

Lemma zlen_reverse {A} (l : list A) : zlen (reverse l) = zlen l.
Proof. unfold zlen. by rewrite length_reverse. Qed.

Lemma be_bytes_length n x : 0 ≤ n → zlen (be_bytes n x) = n.
Proof. intros. unfold be_bytes. rewrite zlen_reverse. by apply le_bytes_props. Qed.
Lemma be_bytes_bytes n x : 0 ≤ n → Forall is_byte (be_bytes n x).
Proof. intros. unfold be_bytes. apply Forall_reverse. by apply le_bytes_props. Qed.

Lemma be_val_bytes n x : 0 ≤ n → be_val (be_bytes n x) = x `mod` 2^(n * 8).
Proof.
  intros. unfold be_val, be_bytes. rewrite reverse_involutive.
  by rewrite little_endian_to_Z_to_little_endian by lia.
Qed.
Lemma be_bytes_val n bs : zlen bs = n → Forall is_byte bs → be_bytes n (be_val bs) = bs.
Proof.
  intros Hlen Hb. unfold be_val, be_bytes.
  rewrite Z_to_little_endian_to_Z; [by rewrite reverse_involutive| |lia|].
  - rewrite length_reverse. by unfold zlen in Hlen.
  - by apply Forall_reverse.
Qed.
Lemma be_val_range bs : Forall is_byte bs → 0 ≤ be_val bs < 2^(zlen bs * 8).
Proof.
  intros. unfold be_val. rewrite <-(zlen_reverse bs).
  apply little_endian_to_Z_bound; [lia|]. by apply Forall_reverse.
Qed.

Lemma mod_mod_same x m : (x `mod` m) `mod` m = x `mod` m.
Proof. apply Zmod_mod. Qed.

(** A swap that reverses bytes makes the stored bytes big-endian. *)
Lemma swap_store n swap x : 0 ≤ n → swaps n swap →
  Z_to_little_endian n 8 (swap (x `mod` 2^(n * 8))) = be_bytes n x.
Proof.
  intros Hn Hs. destruct (le_bytes_props n x Hn) as [Hl Hb].
  rewrite <-(little_endian_to_Z_to_little_endian n 8 x) by lia.
  rewrite Hs by done. unfold be_bytes. apply Z_to_little_endian_to_Z; [|lia|].
  - rewrite length_reverse. unfold zlen in Hl. lia.
  - by apply Forall_reverse.
Qed.
Lemma le_mod n x : 0 ≤ n →
  Z_to_little_endian n 8 (x `mod` 2^(n * 8)) = Z_to_little_endian n 8 x.
Proof.
  intros Hn. destruct (le_bytes_props n x Hn) as [Hl Hb].
  rewrite <-(little_endian_to_Z_to_little_endian n 8 x) by lia.
  apply Z_to_little_endian_to_Z; [|lia|done]. unfold zlen in Hl. lia.
Qed.
Lemma swap_load n swap bs : zlen bs = n → Forall is_byte bs → swaps n swap →
  swap (little_endian_to_Z 8 bs `mod` 2^(n * 8)) = be_val bs.
Proof.
  intros Hl Hb Hs. rewrite Z.mod_small; [by apply Hs|].
  subst n. apply little_endian_to_Z_bound; [lia|done].
Qed.

(** [x = htobe<n>(v)] leaves the big-endian bytes of [v] in memory. *)
Lemma htobe16_bytes e v : host_bytes e 2 (htobe16 e v) = be_bytes 2 v.
Proof. destruct e; [apply (swap_store 2); [lia|apply bswap16_swaps]|].
  unfold host_bytes, be_bytes. f_equal. by apply (le_mod 2). Qed.
Lemma htobe32_bytes e v : host_bytes e 4 (htobe32 e v) = be_bytes 4 v.
Proof. destruct e; [apply (swap_store 4); [lia|apply bswap32_swaps]|].
  unfold host_bytes, be_bytes. f_equal. by apply (le_mod 4). Qed.
Lemma htobe64_bytes e v : host_bytes e 8 (htobe64 e v) = be_bytes 8 v.
Proof. destruct e; [apply (swap_store 8); [lia|apply bswap64_swaps]|].
  unfold host_bytes, be_bytes. f_equal. by apply (le_mod 8). Qed.

Lemma be16toh_val e bs : zlen bs = 2 → Forall is_byte bs →
  be16toh e (host_val e bs) = be_val bs.
Proof. intros Hl Hb. destruct e; [by apply (swap_load 2), bswap16_swaps|].
  apply u16_small. pose proof (be_val_range bs Hb) as Hr. by rewrite Hl in Hr. Qed.
Lemma be32toh_val e bs : zlen bs = 4 → Forall is_byte bs →
  be32toh e (host_val e bs) = be_val bs.
Proof. intros Hl Hb. destruct e; [by apply (swap_load 4), bswap32_swaps|].
  apply u32_small. pose proof (be_val_range bs Hb) as Hr. by rewrite Hl in Hr. Qed.
Lemma be64toh_val e bs : zlen bs = 8 → Forall is_byte bs →
  be64toh e (host_val e bs) = be_val bs.
Proof. intros Hl Hb. destruct e; [by apply (swap_load 8), bswap64_swaps|].
  apply u64_small. pose proof (be_val_range bs Hb) as Hr. by rewrite Hl in Hr. Qed.
End network.

(** [tmp = htobe<n>(v); std::memcpy(buf + off, &tmp, sizeof(tmp))] *)
Definition put_be16 (e : endian) (buf : bytes) (off v : Z) : outcome bytes :=
  memcpy buf off (host_bytes e 2 (htobe16 e v)) 0 2.
Definition put_be32 (e : endian) (buf : bytes) (off v : Z) : outcome bytes :=
  memcpy buf off (host_bytes e 4 (htobe32 e v)) 0 4.
Definition put_be64 (e : endian) (buf : bytes) (off v : Z) : outcome bytes :=
  memcpy buf off (host_bytes e 8 (htobe64 e v)) 0 8.

(** [std::memcpy(&x, buf + off, sizeof(x)); x = be<n>toh(x)] *)
Definition get_be16 (e : endian) (buf : bytes) (off : Z) : outcome Z :=
  bs ← memread buf off 2; Ok (be16toh e (host_val e bs)).
Definition get_be32 (e : endian) (buf : bytes) (off : Z) : outcome Z :=
  bs ← memread buf off 4; Ok (be32toh e (host_val e bs)).
Definition get_be64 (e : endian) (buf : bytes) (off : Z) : outcome Z :=
  bs ← memread buf off 8; Ok (be64toh e (host_val e bs)).

Section put_get.
Context (e : endian).
Implicit Types (buf : bytes).

(** A store replaces the addressed range by the big-endian bytes. *)
Lemma memcpy_all buf off src n : zlen src = n → 0 ≤ off → off + n ≤ zlen buf →
  memcpy buf off src 0 n = Ok (ztake off buf ++ src ++ zdrop (off + n) buf).
Proof.
  intros Hn ??. pose proof (zlen_nonneg src).
  rewrite memcpy_ok by lia. do 2 f_equal. f_equal.
  unfold slice. rewrite zdrop_0, ztake_ge by lia. done.
Qed.

Lemma put_be16_ok buf off v : 0 ≤ off → off + 2 ≤ zlen buf →
  put_be16 e buf off v = Ok (ztake off buf ++ be_bytes 2 v ++ zdrop (off + 2) buf).
Proof. intros. unfold put_be16. rewrite htobe16_bytes.
  apply memcpy_all; [by apply be_bytes_length|done..]. Qed.
Lemma put_be32_ok buf off v : 0 ≤ off → off + 4 ≤ zlen buf →
  put_be32 e buf off v = Ok (ztake off buf ++ be_bytes 4 v ++ zdrop (off + 4) buf).
Proof. intros. unfold put_be32. rewrite htobe32_bytes.
  apply memcpy_all; [by apply be_bytes_length|done..]. Qed.
Lemma put_be64_ok buf off v : 0 ≤ off → off + 8 ≤ zlen buf →
  put_be64 e buf off v = Ok (ztake off buf ++ be_bytes 8 v ++ zdrop (off + 8) buf).
Proof. intros. unfold put_be64. rewrite htobe64_bytes.
  apply memcpy_all; [by apply be_bytes_length|done..]. Qed.

Lemma get_be16_ok buf off : Forall is_byte buf → 0 ≤ off → off + 2 ≤ zlen buf →
  get_be16 e buf off = Ok (be_val (slice off 2 buf)).
Proof. intros. unfold get_be16. rewrite memread_ok by lia. simpl.
  rewrite be16toh_val; [done| |by apply Forall_slice]. by apply zlen_slice. Qed.
Lemma get_be32_ok buf off : Forall is_byte buf → 0 ≤ off → off + 4 ≤ zlen buf →
  get_be32 e buf off = Ok (be_val (slice off 4 buf)).
Proof. intros. unfold get_be32. rewrite memread_ok by lia. simpl.
  rewrite be32toh_val; [done| |by apply Forall_slice]. by apply zlen_slice. Qed.
Lemma get_be64_ok buf off : Forall is_byte buf → 0 ≤ off → off + 8 ≤ zlen buf →
  get_be64 e buf off = Ok (be_val (slice off 8 buf)).
Proof. intros. unfold get_be64. rewrite memread_ok by lia. simpl.
  rewrite be64toh_val; [done| |by apply Forall_slice]. by apply zlen_slice. Qed.

(** Writing the fields of a head one after the other. *)
Lemma put_be32_first mem off v : 0 ≤ off → off + 4 ≤ zlen mem →
  put_be32 e mem off v = Ok (splice mem off (be_bytes 4 v)).
Proof. intros. rewrite put_be32_ok by done. unfold splice. by rewrite be_bytes_length by lia. Qed.
Lemma put_be16_next mem pre off k v : zlen pre = k → 0 ≤ off → off + k + 2 ≤ zlen mem →
  put_be16 e (splice mem off pre) (off + k) v = Ok (splice mem off (pre ++ be_bytes 2 v)).
Proof.
  intros. unfold put_be16. rewrite htobe16_bytes.
  pose proof (be_bytes_length 2 v ltac:(lia)) as Hl. rewrite memcpy_next by lia.
  unfold slice. by rewrite zdrop_0, ztake_ge by lia.
Qed.
Lemma put_be32_next mem pre off k v : zlen pre = k → 0 ≤ off → off + k + 4 ≤ zlen mem →
  put_be32 e (splice mem off pre) (off + k) v = Ok (splice mem off (pre ++ be_bytes 4 v)).
Proof.
  intros. unfold put_be32. rewrite htobe32_bytes.
  pose proof (be_bytes_length 4 v ltac:(lia)) as Hl. rewrite memcpy_next by lia.
  unfold slice. by rewrite zdrop_0, ztake_ge by lia.
Qed.
Lemma put_be64_next mem pre off k v : zlen pre = k → 0 ≤ off → off + k + 8 ≤ zlen mem →
  put_be64 e (splice mem off pre) (off + k) v = Ok (splice mem off (pre ++ be_bytes 8 v)).
Proof.
  intros. unfold put_be64. rewrite htobe64_bytes.
  pose proof (be_bytes_length 8 v ltac:(lia)) as Hl. rewrite memcpy_next by lia.
  unfold slice. by rewrite zdrop_0, ztake_ge by lia.
Qed.

(** Reading a field out of a head. *)
Lemma get_be16_field pre v post k : zlen pre = k → is_u16 v →
  Forall is_byte pre → Forall is_byte post →
  get_be16 e (pre ++ be_bytes 2 v ++ post) k = Ok v.
Proof.
  intros Hk Hv ??. pose proof (be_bytes_length 2 v ltac:(lia)). pose proof (zlen_nonneg pre).
  pose proof (zlen_nonneg post). rewrite get_be16_ok;
    [|rewrite !Forall_app; split_and!; [done|by apply be_bytes_bytes|done]|lia|zlen].
  rewrite slice_mid, be_val_bytes by done. f_equal. by apply Z.mod_small.
Qed.
Lemma get_be32_field pre v post k : zlen pre = k → is_u32 v →
  Forall is_byte pre → Forall is_byte post →
  get_be32 e (pre ++ be_bytes 4 v ++ post) k = Ok v.
Proof.
  intros Hk Hv ??. pose proof (be_bytes_length 4 v ltac:(lia)). pose proof (zlen_nonneg pre).
  pose proof (zlen_nonneg post). rewrite get_be32_ok;
    [|rewrite !Forall_app; split_and!; [done|by apply be_bytes_bytes|done]|lia|zlen].
  rewrite slice_mid, be_val_bytes by done. f_equal. by apply Z.mod_small.
Qed.
Lemma get_be64_field pre v post k : zlen pre = k → is_u64 v →
  Forall is_byte pre → Forall is_byte post →
  get_be64 e (pre ++ be_bytes 8 v ++ post) k = Ok v.
Proof.
  intros Hk Hv ??. pose proof (be_bytes_length 8 v ltac:(lia)). pose proof (zlen_nonneg pre).
  pose proof (zlen_nonneg post). rewrite get_be64_ok;
    [|rewrite !Forall_app; split_and!; [done|by apply be_bytes_bytes|done]|lia|zlen].
  rewrite slice_mid, be_val_bytes by done. f_equal. by apply Z.mod_small.
Qed.
End put_get.

#[global] Opaque be_bytes be_val.
