(* ===== verification/Crc.v ===== *)
(** * corpc_crc.cpp: the CRC-16 of message bodies

    The lookup table, [CheckSum], and the functions [Reverse] and [InitTable]
    that generate a table from a polynomial.  The theorems show that the
    literal table is the one generated from the polynomial 0x8005, that the
    table-driven loop computes the bit-serial CRC, and that every corruption
    confined to two adjacent bytes of a body changes the checksum. *)
From S2P Require Import Prelude.
Open Scope Z_scope.

Module CRC.

(** corpc_crc.cpp *)
Definition MbTable : list Z := [
    0x0000; 0xC0C1; 0xC181; 0x0140; 0xC301; 0x03C0; 0x0280; 0xC241;
    0xC601; 0x06C0; 0x0780; 0xC741; 0x0500; 0xC5C1; 0xC481; 0x0440;
    0xCC01; 0x0CC0; 0x0D80; 0xCD41; 0x0F00; 0xCFC1; 0xCE81; 0x0E40;
    0x0A00; 0xCAC1; 0xCB81; 0x0B40; 0xC901; 0x09C0; 0x0880; 0xC841;
    0xD801; 0x18C0; 0x1980; 0xD941; 0x1B00; 0xDBC1; 0xDA81; 0x1A40;
    0x1E00; 0xDEC1; 0xDF81; 0x1F40; 0xDD01; 0x1DC0; 0x1C80; 0xDC41;
    0x1400; 0xD4C1; 0xD581; 0x1540; 0xD701; 0x17C0; 0x1680; 0xD641;
    0xD201; 0x12C0; 0x1380; 0xD341; 0x1100; 0xD1C1; 0xD081; 0x1040;
    0xF001; 0x30C0; 0x3180; 0xF141; 0x3300; 0xF3C1; 0xF281; 0x3240;
    0x3600; 0xF6C1; 0xF781; 0x3740; 0xF501; 0x35C0; 0x3480; 0xF441;
    0x3C00; 0xFCC1; 0xFD81; 0x3D40; 0xFF01; 0x3FC0; 0x3E80; 0xFE41;
    0xFA01; 0x3AC0; 0x3B80; 0xFB41; 0x3900; 0xF9C1; 0xF881; 0x3840;
    0x2800; 0xE8C1; 0xE981; 0x2940; 0xEB01; 0x2BC0; 0x2A80; 0xEA41;
    0xEE01; 0x2EC0; 0x2F80; 0xEF41; 0x2D00; 0xEDC1; 0xEC81; 0x2C40;
    0xE401; 0x24C0; 0x2580; 0xE541; 0x2700; 0xE7C1; 0xE681; 0x2640;
    0x2200; 0xE2C1; 0xE381; 0x2340; 0xE101; 0x21C0; 0x2080; 0xE041;
    0xA001; 0x60C0; 0x6180; 0xA141; 0x6300; 0xA3C1; 0xA281; 0x6240;
    0x6600; 0xA6C1; 0xA781; 0x6740; 0xA501; 0x65C0; 0x6480; 0xA441;
    0x6C00; 0xACC1; 0xAD81; 0x6D40; 0xAF01; 0x6FC0; 0x6E80; 0xAE41;
    0xAA01; 0x6AC0; 0x6B80; 0xAB41; 0x6900; 0xA9C1; 0xA881; 0x6840;
    0x7800; 0xB8C1; 0xB981; 0x7940; 0xBB01; 0x7BC0; 0x7A80; 0xBA41;
    0xBE01; 0x7EC0; 0x7F80; 0xBF41; 0x7D00; 0xBDC1; 0xBC81; 0x7C40;
    0xB401; 0x74C0; 0x7580; 0xB541; 0x7700; 0xB7C1; 0xB681; 0x7640;
    0x7200; 0xB2C1; 0xB381; 0x7340; 0xB101; 0x71C0; 0x7080; 0xB041;
    0x5000; 0x90C1; 0x9181; 0x5140; 0x9301; 0x53C0; 0x5280; 0x9241;
    0x9601; 0x56C0; 0x5780; 0x9741; 0x5500; 0x95C1; 0x9481; 0x5440;
    0x9C01; 0x5CC0; 0x5D80; 0x9D41; 0x5F00; 0x9FC1; 0x9E81; 0x5E40;
    0x5A00; 0x9AC1; 0x9B81; 0x5B40; 0x9901; 0x59C0; 0x5880; 0x9841;
    0x8801; 0x48C0; 0x4980; 0x8941; 0x4B00; 0x8BC1; 0x8A81; 0x4A40;
    0x4E00; 0x8EC1; 0x8F81; 0x4F40; 0x8D01; 0x4DC0; 0x4C80; 0x8C41;
    0x4400; 0x84C1; 0x8581; 0x4540; 0x8701; 0x47C0; 0x4680; 0x8641;
    0x8201; 0x42C0; 0x4380; 0x8341; 0x4100; 0x81C1; 0x8081; 0x4040
].

(** One iteration of the loop of [CheckSum]; [MbTable[n]] is in range because
    [n] is a [uint8_t]. *)
Definition crc_step (crc16 : Z) (b : Z) : Z :=
  let n := u8 (Z.lxor b crc16) in
  let crc16 := crc16 ≫ 8 in
  Z.lxor crc16 (MbTable !!! Z.to_nat n).

(** corpc_crc.cpp; [data] is the buffer the pointer argument points to. *)
Definition CheckSum (data : bytes) (crc16 len : Z) : outcome Z :=
  if bool_decide (len ≤ zlen data)
  then Ok (foldl crc_step crc16 (ztake len data))
  else Fault OutOfBounds.

(** corpc_crc.cpp: the state of the loop is [(value, data)]. *)
Definition Reverse (data : Z) : Z :=
  (foldl (λ '(value, data) i,
    let value := if bool_decide (Z.land data 1 ≠ 0)
                 then u16 (Z.lor value (1 ≪ (16 - i))) else value in
    (value, data ≫ 1)) (0, data) (seqZ 1 16)).1.

(** The inner loop of [InitTable], one of its eight rounds. *)
Definition init_round (reverse_poly crc : Z) : Z :=
  if bool_decide (Z.land crc 0x01 ≠ 0)
  then Z.lxor reverse_poly (crc ≫ 1) else crc ≫ 1.

(** corpc_crc.cpp *)
Definition InitTable (polynomial : Z) : list Z :=
  let reverse_poly := Reverse polynomial in
  (λ i, Nat.iter 8 (init_round reverse_poly) i) <$> seqZ 0 256.

(** ** The bit-serial reference

    One bit of input is added to the low end of the register, which is then
    divided by the (bit-reversed) polynomial 0x8005. *)
Definition round8 (x : Z) : Z := Nat.iter 8 (init_round 0xA001) x.
Definition serial_byte (crc b : Z) : Z := round8 (Z.lxor crc b).
Definition serial_crc (crc : Z) (data : bytes) : Z := foldl serial_byte crc data.

(** Undoing one round, to show that rounds lose no information. *)
Definition unround (y : Z) : Z :=
  if bool_decide (Z.testbit y 15) then Z.lor (Z.lxor y 0xA001 ≪ 1) 1 else y ≪ 1.
Definition unround8 (y : Z) : Z := Nat.iter 8 unround y.

(** ** Exhaustive facts about 16-bit registers *)
Lemma seqZ_forallb (f : Z → bool) m n x :
  forallb f (seqZ m n) = true → m ≤ x < m + n → f x = true.
Proof.
  intros Hf Hx. rewrite forallb_forall in Hf. apply Hf.
  rewrite <-list_elem_of_In, elem_of_seqZ. lia.
Qed.

(** Checking a predicate on all 16-bit values, one byte at a time. *)
Definition forall_u16 (f : Z → bool) : bool :=
  forallb (λ h, forallb (λ l, f (h * 256 + l)) (seqZ 0 256)) (seqZ 0 256).

Lemma forall_u16_spec (f : Z → bool) x : forall_u16 f = true → is_u16 x → f x = true.
Proof.
  intros Hf Hx. unfold is_u16 in Hx. unfold forall_u16 in Hf.
  pose proof (Z.div_mod x 256 ltac:(lia)). pose proof (Z.mod_pos_bound x 256 ltac:(lia)).
  pose proof (seqZ_forallb _ 0 256 (x `div` 256) Hf ltac:(lia)) as H1.
  pose proof (seqZ_forallb _ 0 256 (x `mod` 256) H1 ltac:(lia)) as H2. simpl in H2.
  by replace (x `div` 256 * 256 + x `mod` 256) with x in H2 by lia.
Qed.

Lemma table_round x : is_u16 x →
  round8 x = Z.lxor (x ≫ 8) (MbTable !!! Z.to_nat (u8 x)).
Proof.
  intros Hx. apply Z.eqb_eq.
  apply (forall_u16_spec (λ x, round8 x
    =? Z.lxor (x ≫ 8) (MbTable !!! Z.to_nat (u8 x)))); [vm_compute; reflexivity|done].
Qed.

Lemma unround_round x : is_u16 x →
  unround8 (round8 x) = x.
Proof.
  intros Hx. apply Z.eqb_eq.
  apply (forall_u16_spec (λ x, unround8 (round8 x) =? x));
    [vm_compute; reflexivity|done].
Qed.

Lemma table_u16 n : is_u16 (MbTable !!! n).
Proof.
  assert (Forall is_u16 MbTable) as H
    by (apply (bool_decide_unpack _); vm_compute; exact I).
  rewrite list_lookup_total_alt.
  destruct (MbTable !! n) eqn:E; simpl; [by eapply Forall_lookup_1|].
  unfold is_u16. simpl. lia.
Qed.

(** The high bytes of the table are pairwise distinct: an inverse of
    [n ↦ MbTable[n] >> 8]. *)
Lemma table_high_inj n m : 0 ≤ n < 256 → 0 ≤ m < 256 →
  (MbTable !!! Z.to_nat n) ≫ 8 = (MbTable !!! Z.to_nat m) ≫ 8 → n = m.
Proof.
  intros Hn Hm Heq.
  assert (forallb (λ n, forallb (λ m,
      implb ((MbTable !!! Z.to_nat n) ≫ 8 =? (MbTable !!! Z.to_nat m) ≫ 8) (n =? m))
      (seqZ 0 256)) (seqZ 0 256) = true) as H by (vm_compute; reflexivity).
  pose proof (seqZ_forallb _ 0 256 n H ltac:(lia)) as H1.
  pose proof (seqZ_forallb _ 0 256 m H1 ltac:(lia)) as H2. simpl in H2.
  rewrite Heq, Z.eqb_refl in H2. by apply Z.eqb_eq in H2.
Qed.

#[local] Opaque round8 unround8 MbTable.

(** ** The step on registers *)
Lemma lxor_u16 a b : is_u16 a → is_u16 b → is_u16 (Z.lxor a b).
Proof.
  unfold is_u16. intros Ha Hb. apply (Z.bounded_iff_bits_nonneg' 16); [lia| |].
  { apply Z.lxor_nonneg. lia. }
  intros l Hl. rewrite Z.lxor_spec.
  rewrite (proj1 (Z.bounded_iff_bits_nonneg 16 a ltac:(lia) ltac:(lia))) by lia.
  by rewrite (proj1 (Z.bounded_iff_bits_nonneg 16 b ltac:(lia) ltac:(lia))) by lia.
Qed.

Lemma byte_u16 b : is_byte b → is_u16 b.
Proof. unfold is_byte, is_u16. lia. Qed.

Lemma shiftr_byte b : is_byte b → b ≫ 8 = 0.
Proof. unfold is_byte. intros. rewrite Z.shiftr_div_pow2 by lia. apply Z.div_small. lia. Qed.

(** The loop body is eight bit-serial rounds. *)
Lemma crc_step_serial crc b : is_u16 crc → is_byte b → crc_step crc b = serial_byte crc b.
Proof.
  intros Hc Hb. unfold serial_byte, crc_step.
  rewrite table_round by (apply lxor_u16; auto using byte_u16).
  rewrite Z.shiftr_lxor, (shiftr_byte b), Z.lxor_0_r by done. by rewrite (Z.lxor_comm b).
Qed.

Lemma crc_step_u16 crc b : is_u16 crc → is_u16 (crc_step crc b).
Proof.
  intros Hc. apply lxor_u16; [|apply table_u16]. unfold is_u16 in *.
  rewrite Z.shiftr_div_pow2 by lia. split; [apply Z.div_pos; lia|].
  apply Z.div_lt_upper_bound; lia.
Qed.

Lemma crc_fold_u16 crc data : is_u16 crc → is_u16 (foldl crc_step crc data).
Proof. revert crc. induction data; simpl; auto using crc_step_u16. Qed.

Lemma crc_fold_serial crc data : is_u16 crc → Forall is_byte data →
  foldl crc_step crc data = serial_crc crc data.
Proof.
  intros Hc Hd. revert crc Hc. induction Hd as [|b data Hb _ IH]; intros crc Hc; [done|].
  unfold serial_crc in *. simpl. rewrite IH by auto using crc_step_u16.
  by rewrite crc_step_serial.
Qed.

Lemma lxor_cancel_l a b c : Z.lxor a b = Z.lxor a c → b = c.
Proof.
  intros H. apply (f_equal (Z.lxor a)) in H.
  by rewrite <-!Z.lxor_assoc, !Z.lxor_nilpotent, !Z.lxor_0_l in H.
Qed.

Lemma serial_byte_inj c d a b : is_u16 c → is_u16 d → is_byte a → is_byte b →
  serial_byte c a = serial_byte d b → Z.lxor c a = Z.lxor d b.
Proof.
  intros ???? H. unfold serial_byte in H.
  apply (f_equal unround8) in H.
  by rewrite !unround_round in H by (apply lxor_u16; auto using byte_u16).
Qed.

(** The register after a byte determines the register before it, and the
    byte. *)
Lemma crc_step_inj_crc c d b : is_u16 c → is_u16 d → is_byte b →
  crc_step c b = crc_step d b → c = d.
Proof.
  intros ??? H. rewrite !crc_step_serial in H by done.
  apply serial_byte_inj in H; [|done..].
  rewrite !(Z.lxor_comm _ b) in H. by apply lxor_cancel_l in H.
Qed.
Lemma crc_step_inj_byte c a b : is_u16 c → is_byte a → is_byte b →
  crc_step c a = crc_step c b → a = b.
Proof.
  intros ??? H. rewrite !crc_step_serial in H by done.
  apply serial_byte_inj in H; [|done..]. by apply lxor_cancel_l in H.
Qed.

Lemma crc_fold_inj c d data : is_u16 c → is_u16 d → Forall is_byte data →
  foldl crc_step c data = foldl crc_step d data → c = d.
Proof.
  intros Hc Hd Hb. revert c d Hc Hd. induction Hb as [|b data Hb _ IH]; intros c d Hc Hd H; [done|].
  simpl in H. apply IH in H; auto using crc_step_u16. by eapply crc_step_inj_crc.
Qed.

(** Two consecutive bytes are also determined by the register they lead to. *)
Lemma crc_two_inj c a b a' b' : is_u16 c →
  is_byte a → is_byte b → is_byte a' → is_byte b' →
  crc_step (crc_step c a) b = crc_step (crc_step c a') b' → a = a' ∧ b = b'.
Proof.
  intros Hc Ha Hb Ha' Hb' H.
  assert (a = a') as <-.
  { rewrite !(crc_step_serial (crc_step _ _)) in H by auto using crc_step_u16.
    apply serial_byte_inj in H; auto using crc_step_u16.
    apply (f_equal (λ x, x ≫ 8)) in H.
    rewrite !Z.shiftr_lxor, !(shiftr_byte b), !(shiftr_byte b'), !Z.lxor_0_r in H by done.
    unfold crc_step in H. rewrite !Z.shiftr_lxor in H. apply lxor_cancel_l in H.
    apply table_high_inj in H; [|apply u8_range..].
    apply (f_equal (λ x, x `mod` 2^8)) in H. unfold u8 in H. rewrite !Zmod_mod in H.
    rewrite <-!Z.land_ones in H by lia.
    assert (∀ x, is_byte x → Z.land x (Z.ones 8) = x) as Hland.
    { intros x Hx. rewrite Z.land_ones by lia. by apply Z.mod_small. }
    rewrite <-(Hland a Ha), <-(Hland a' Ha').
    apply Z.bits_inj_iff'. intros n Hn. apply (f_equal (λ x, Z.testbit x n)) in H.
    rewrite !Z.land_spec, !Z.lxor_spec in H. rewrite !Z.land_spec.
    destruct (Z.testbit a n), (Z.testbit a' n), (Z.testbit c n), (Z.testbit (Z.ones 8) n);
      simpl in *; congruence. }
  split; [done|]. apply (crc_step_inj_byte (crc_step c a)); auto using crc_step_u16.
Qed.

(** ** Properties *)

#[local] Transparent round8 MbTable.

(** The table of 256 constants in the source is the one
    [InitTable] computes for the generator polynomial 0x8005 of CRC-16. *)
Theorem MbTable_generated : InitTable 0x8005 = MbTable.
Proof. vm_compute. reflexivity. Qed.

(** The table-driven [CheckSum] computes the bit-serial
    CRC: for every starting value and every byte string it equals shifting the
    register one bit at a time with the reflected polynomial 0xA001. *)
Theorem CheckSum_serial data crc len :
  is_u16 crc → Forall is_byte data → 0 ≤ len ≤ zlen data →
  CheckSum data crc len = Ok (serial_crc crc (ztake len data)).
Proof.
  intros. unfold CheckSum. rewrite bool_decide_true by lia. f_equal.
  apply crc_fold_serial; [done|]. by apply Forall_take.
Qed.

Lemma CheckSum_full data crc : CheckSum data crc (zlen data) = Ok (foldl crc_step crc data).
Proof. unfold CheckSum. rewrite bool_decide_true by lia. by rewrite ztake_ge by lia. Qed.

(** The registers after two such strings differ. *)
Lemma crc_fold_burst pre p q post crc :
  is_u16 crc → Forall is_byte (pre ++ p ++ post) → Forall is_byte q →
  length p = length q → (length p ≤ 2)%nat → p ≠ q →
  foldl crc_step crc (pre ++ p ++ post) ≠ foldl crc_step crc (pre ++ q ++ post).
Proof.
  rewrite !Forall_app. intros Hc (Hpre & Hp & Hpost) Hq Hl H2 Hne Heq.
  rewrite !foldl_app in Heq.
  apply crc_fold_inj in Heq; auto using crc_fold_u16.
  pose proof (crc_fold_u16 crc pre Hc) as Hc'. generalize dependent (foldl crc_step crc pre).
  intros c Heq Hc'.
  destruct p as [|a [|b [|]]], q as [|a' [|b' [|]]]; simpl in *; try lia; [done|..];
    rewrite ?Forall_cons in *; destruct_and?.
  - apply Hne. f_equal. by eapply crc_step_inj_byte.
  - apply Hne. apply crc_two_inj in Heq as [-> ->]; done.
Qed.

(** Two byte strings that differ only within one or
    two adjacent bytes never have the same checksum: every error burst within
    two bytes is detected. *)
Theorem CheckSum_detects_burst pre p q post crc :
  is_u16 crc → Forall is_byte (pre ++ p ++ post) → Forall is_byte q →
  length p = length q → (length p ≤ 2)%nat → p ≠ q →
  CheckSum (pre ++ p ++ post) crc (zlen (pre ++ p ++ post))
  ≠ CheckSum (pre ++ q ++ post) crc (zlen (pre ++ q ++ post)).
Proof.
  intros Hc Hp Hq Hl H2 Hne. rewrite !CheckSum_full. intros Heq. injection Heq. by apply crc_fold_burst.
Qed.

Lemma CheckSum_serial_witness :
  CheckSum [0x31; 0x32; 0x33] 0xFFFF 3 = Ok (serial_crc 0xFFFF [0x31; 0x32; 0x33]).
Proof.
  apply (CheckSum_serial [0x31; 0x32; 0x33] 0xFFFF 3); [done|by apply (bool_decide_unpack _)|done].
Defined.

Lemma CheckSum_detects_burst_witness :
  CheckSum ([1; 2] ++ [3; 4] ++ [5]) 0 5 ≠ CheckSum ([1; 2] ++ [3; 5] ++ [5]) 0 5.
Proof.
  apply (CheckSum_detects_burst [1; 2] [3; 4] [3; 5] [5] 0);
    [done|by apply (bool_decide_unpack _)|by apply (bool_decide_unpack _)|done|done|done].
Defined.
End CRC.
