(* ===== verification/NormalLink.v ===== *)
(** * corpc_define.h: the intrusive doubly linked list [NormalLink]

    The nodes live in a heap, a finite map from addresses; a null pointer is
    [None].  [rep] relates a list object and the heap to the sequence of nodes
    it stands for, and every operation of the class refines the operation of
    sequences it is meant to be, without touching any other node and without
    dereferencing a null or freed pointer. *)
From stdpp Require Import gmap.
From S2P Require Import Prelude.
Open Scope Z_scope.

Module NormalLink.

(** [NormalLink<T>::Node] *)
Record node (A : Type) : Type := Node { data : A; next : option Z; prev : option Z }.
Arguments Node {_} _ _ _.
Arguments data {_} _.
Arguments next {_} _.
Arguments prev {_} _.

Abbreviation heap A := (gmap Z (node A)).

(** [NormalLink<T>]: the members [head_] and [tail_]. *)
Record t : Type := Make { head_ : option Z; tail_ : option Z }.

Section ops.
Context {A : Type}.
Implicit Types (h : heap A) (lk : t) (p : Z).

Definition load h p : outcome (node A) := deref (h !! p).
Definition set_next h p (v : option Z) : outcome (heap A) :=
  n ← load h p; Ok (<[p := Node (data n) v (prev n)]> h).
Definition set_prev h p (v : option Z) : outcome (heap A) :=
  n ← load h p; Ok (<[p := Node (data n) (next n) v]> h).
(** Writing through a pointer that is null does nothing where the code tests it. *)
Definition set_next_if h (q v : option Z) : outcome (heap A) :=
  match q with Some q => set_next h q v | None => Ok h end.
Definition set_prev_if h (q v : option Z) : outcome (heap A) :=
  match q with Some q => set_prev h q v | None => Ok h end.

Definition push_back h lk p : outcome (heap A * t) :=
  match head_ lk with
  | Some _ =>
    t ← deref (tail_ lk);
    tn ← load h t;
    _ ← require (next tn = None);
    h ← set_next h p None;
    h ← set_prev h p (Some t);
    h ← set_next h t (Some p);
    Ok (h, Make (head_ lk) (Some p))
  | None =>
    _ ← require (tail_ lk = None);
    h ← set_next h p None;
    h ← set_prev h p None;
    Ok (h, Make (Some p) (Some p))
  end.

Definition pop_front h lk : outcome (heap A * t * option Z) :=
  match head_ lk with
  | None => Ok (h, lk, None)
  | Some p =>
    n ← load h p;
    '(h, tl) ← (match next n with
      | Some q => h ← set_prev h q None; Ok (h, tail_ lk)
      | None => _ ← require (tail_ lk = Some p); Ok (h, None)
      end);
    h ← set_next h p None;
    h ← set_prev h p None;
    Ok (h, Make (next n) tl, Some p)
  end.

Definition erase h lk p : outcome (heap A * t) :=
  n ← load h p;
  h ← set_next_if h (prev n) (next n);
  h ← set_prev_if h (next n) (prev n);
  let hd := if decide (head_ lk = Some p) then next n else head_ lk in
  let tl := if decide (tail_ lk = Some p) then prev n else tail_ lk in
  Ok (delete p h, Make hd tl).

(** The loop of [eraseTo]; the fuel bounds the number of nodes. *)
Fixpoint erase_before (fuel : nat) h (tmpNode : option Z) p : outcome (heap A) :=
  if decide (tmpNode = Some p) then Ok h else
  match fuel with
  | O => Fault OutOfFuel
  | S fuel =>
    q ← match tmpNode with Some q => Ok q | None => Fault AssertFailed end;
    n ← load h q;
    erase_before fuel (delete q h) (next n) p
  end.

Definition eraseTo h lk p : outcome (heap A * t) :=
  h ← erase_before (size h) h (head_ lk) p;
  n ← load h p;
  '(h, tl) ← (match next n with
    | Some q => h ← set_prev h q None; Ok (h, tail_ lk)
    | None => _ ← require (tail_ lk = Some p); Ok (h, None)
    end);
  Ok (delete p h, Make (next n) tl).

Definition moveToTail h lk p : outcome (heap A * t) :=
  n ← load h p;
  _ ← require (next n ≠ None ∨ tail_ lk = Some p);
  match next n with
  | None => Ok (h, lk)
  | Some q =>
    h ← set_prev h q (prev n);
    h ← set_next_if h (prev n) (Some q);
    let hd := if decide (head_ lk = Some p) then Some q else head_ lk in
    h ← set_next h p None;
    h ← set_prev h p (tail_ lk);
    t ← deref (tail_ lk);
    h ← set_next h t (Some p);
    Ok (h, Make hd (Some p))
  end.

Fixpoint clear_loop (fuel : nat) h (p : option Z) : outcome (heap A) :=
  match p with
  | None => Ok h
  | Some q =>
    match fuel with
    | O => Fault OutOfFuel
    | S fuel => n ← load h q; clear_loop fuel (delete q h) (next n)
    end
  end.

Definition clear h lk : outcome (heap A * t) :=
  h ← clear_loop (size h) h (head_ lk);
  Ok (h, Make None None).
End ops.

(** ** The sequence a list object stands for *)
Section rep.
Context {A : Type}.
Implicit Types (h : heap A) (lk : t) (p : Z) (l : list (Z * A)).

Definition first l (nx : option Z) : option Z := match l with [] => nx | (p, _) :: _ => Some p end.
Fixpoint lastp l (pv : option Z) : option Z := match l with [] => pv | (p, _) :: l => lastp l (Some p) end.

(** The nodes of [l], between [pv] and [nx]. *)
Fixpoint seg h (pv : option Z) l (nx : option Z) : Prop :=
  match l with
  | [] => True
  | (p, d) :: l => h !! p = Some (Node d (first l nx) pv) ∧ seg h (Some p) l nx
  end.

(** [lk] is the list of the nodes [l]. *)
Definition rep h lk l : Prop :=
  NoDup l.*1 ∧ seg h None l None ∧ head_ lk = first l None ∧ tail_ lk = lastp l None.

Lemma lastp_snoc l p d pv : lastp (l ++ [(p, d)]) pv = Some p.
Proof. revert pv. induction l as [|[q e] l IH]; intros pv; [done|]. apply IH. Qed.

Lemma first_app l1 l2 nx : first (l1 ++ l2) nx = first l1 (first l2 nx).
Proof. by destruct l1 as [|[??]?]. Qed.

Lemma lastp_app l1 l2 pv : lastp (l1 ++ l2) pv = lastp l2 (lastp l1 pv).
Proof. revert pv. induction l1 as [|[q e] l1 IH]; intros pv; [done|]. apply IH. Qed.

Lemma seg_app h pv l1 l2 nx :
  seg h pv (l1 ++ l2) nx ↔ seg h pv l1 (first l2 nx) ∧ seg h (lastp l1 pv) l2 nx.
Proof.
  revert pv. induction l1 as [|[p d] l1 IH]; intros pv; simpl; [tauto|].
  rewrite IH, first_app. tauto.
Qed.

(** A segment only depends on its own nodes. *)
Lemma seg_frame h h' pv l nx :
  (∀ p, p ∈ l.*1 → h' !! p = h !! p) → seg h pv l nx → seg h' pv l nx.
Proof.
  revert pv. induction l as [|[p d] l IH]; intros pv Heq; simpl; [done|].
  intros [Hp Hs]. split; [rewrite Heq; [done|left]|]. apply IH; [|done]. intros q Hq. apply Heq. by right.
Qed.

Lemma seg_insert h pv l nx p n : p ∉ l.*1 → seg h pv l nx → seg (<[p := n]> h) pv l nx.
Proof. intros Hp. apply seg_frame. intros q Hq. apply lookup_insert_ne. set_solver. Qed.

Lemma seg_delete h pv l nx p : p ∉ l.*1 → seg h pv l nx → seg (delete p h) pv l nx.
Proof. intros Hp. apply seg_frame. intros q Hq. apply lookup_delete_ne. set_solver. Qed.

Lemma seg_lookup h pv l nx p d l2 l1 : l = l1 ++ (p, d) :: l2 → seg h pv l nx →
  h !! p = Some (Node d (first l2 nx) (lastp l1 pv)).
Proof. intros ->. rewrite seg_app. simpl. naive_solver. Qed.

(** Redirecting the pointer out of the end of a segment, or into its front. *)
Lemma seg_set_next h pv l nx nx' : NoDup l.*1 → seg h pv l nx →
  ∃ h', set_next_if h (lastp l None) nx' = Ok h' ∧ seg h' pv l nx' ∧
    ∀ q, Some q ≠ lastp l None → h' !! q = h !! q.
Proof.
  intros Hnd Hs. destruct l as [|[p d] l _] using rev_ind; [by exists h|].
  rewrite lastp_snoc. simpl. rewrite seg_app in Hs. simpl in Hs. destruct Hs as (Hs & Hp & _).
  unfold set_next, load. rewrite Hp. simpl. eexists. split; [done|]. rewrite seg_app. simpl.
  rewrite fmap_app in Hnd. apply NoDup_app in Hnd as (_ & Hni & _).
  split_and!.
  - apply seg_insert; [|done]. intros Hin. apply (Hni p Hin). left.
  - apply lookup_insert_eq.
  - done.
  - intros q Hq. apply lookup_insert_ne. congruence.
Qed.

Lemma seg_set_prev h pv l nx pv' : NoDup l.*1 → seg h pv l nx →
  ∃ h', set_prev_if h (first l None) pv' = Ok h' ∧ seg h' pv' l nx ∧
    ∀ q, Some q ≠ first l None → h' !! q = h !! q.
Proof.
  intros Hnd Hs. destruct l as [|[p d] l]; [by exists h|].
  simpl in *. destruct Hs as [Hp Hs]. apply NoDup_cons in Hnd as [Hni _].
  unfold set_prev, load. rewrite Hp. simpl. eexists. split; [done|].
  split_and!.
  - apply lookup_insert_eq.
  - by apply seg_insert.
  - intros q Hq. apply lookup_insert_ne. congruence.
Qed.

(** The other nodes of the heap are left alone. *)
Definition frame h h' l : Prop := ∀ q, q ∉ l.*1 → h' !! q = h !! q.

Lemma push_back_rep h lk l p n : rep h lk l → h !! p = Some n → p ∉ l.*1 →
  ∃ h' lk', push_back h lk p = Ok (h', lk') ∧ rep h' lk' (l ++ [(p, data n)]) ∧
    frame h h' (l ++ [(p, data n)]).
Proof.
  intros (Hnd & Hs & Hh & Ht) Hp Hni. unfold push_back, frame. rewrite Hh.
  assert (NoDup (l ++ [(p, data n)]).*1) as Hnd'.
  { rewrite fmap_app. apply NoDup_app. split_and!; [done| |apply NoDup_singleton].
    intros q Hq Hq'. apply list_elem_of_singleton in Hq' as ->. done. }
  destruct l as [|[q e] l _] using rev_ind.
  - simpl in *. rewrite Ht, require_true by done. simpl. unfold set_next, set_prev, load.
    rewrite Hp. simpl. rewrite lookup_insert_eq. simpl. rewrite insert_insert_eq. eexists _, _. split; [done|].
    split; [split_and!; simpl; try done; split; [apply lookup_insert_eq|done]|].
    intros r Hr. apply lookup_insert_ne. set_solver.
  - rewrite lastp_snoc in Ht. rewrite first_app. simpl.
    destruct (first l (Some q)) as [hd|] eqn:Ef; [|by destruct l as [|[??]?]]. rewrite Ht. simpl.
    pose proof (seg_lookup _ _ _ _ q e [] l eq_refl Hs) as Hq. unfold load at 1. rewrite Hq. simpl.
    assert (p ∉ l.*1 ∧ q ≠ p) as [Hnl Hqp] by (rewrite fmap_app in Hni; set_solver).
    unfold set_next, set_prev, load. rewrite Hp. simpl.
    rewrite lookup_insert_eq. simpl. rewrite insert_insert_eq, lookup_insert_ne, Hq by done. simpl.
    eexists _, _. split; [done|]. split; [|intros r Hr; rewrite !fmap_app in Hr; rewrite !lookup_insert_ne; set_solver].
    split_and!; [done| | |by rewrite lastp_snoc].
    + rewrite seg_app in Hs. destruct Hs as (Hs & Hqq & _). rewrite <-app_assoc, seg_app. simpl.
      rewrite fmap_app in Hnd. apply NoDup_app in Hnd as (Hnd & Hdisj & _).
      split_and!; [|apply lookup_insert_eq|rewrite lookup_insert_ne by done; apply lookup_insert_eq|done].
      apply seg_insert; [intros Hin; apply (Hdisj q Hin); left|]. by apply seg_insert.
    + simpl. by rewrite !first_app.
Qed.

Lemma pop_front_rep h lk p d l : rep h lk ((p, d) :: l) →
  ∃ h' lk', pop_front h lk = Ok (h', lk', Some p) ∧ rep h' lk' l ∧
    h' !! p = Some (Node d None None) ∧ frame h h' ((p, d) :: l).
Proof.
  intros (Hnd & [Hp Hs] & Hh & Ht). simpl in *. apply NoDup_cons in Hnd as [Hni Hnd].
  unfold pop_front, frame. rewrite Hh. unfold load at 1. rewrite Hp. cbn [mbind outcome_bind deref next].
  destruct (seg_set_prev h (Some p) l None None Hnd Hs) as (h1 & Hset & Hs1 & Hfr).
  assert (h1 !! p = Some (Node d (first l None) None)) as Hp1.
  { rewrite Hfr; [done|]. destruct l as [|[q e] l]; simpl in *; [done|]. intros [= ->]. apply Hni. left. }
  assert (∃ tl, match first l None with
      | Some q => h ← set_prev h q None; Ok (h, tail_ lk)
      | None => _ ← require (tail_ lk = Some p); Ok (h, None)
      end = Ok (h1, tl) ∧ tl = lastp l None) as (tl & -> & ->).
  { destruct l as [|[q e] l]; simpl in *.
    - injection Hset as ->. rewrite require_true by done. simpl. eauto.
    - rewrite Hset. simpl. rewrite Ht. eauto. }
  cbn [mbind outcome_bind]. unfold set_next, set_prev, load. rewrite Hp1. simpl.
  rewrite lookup_insert_eq. simpl. rewrite insert_insert_eq. eexists _, _. split; [done|].
  split_and!; [split_and!; [done|by apply seg_insert|done|done]|apply lookup_insert_eq|].
  intros q Hq. apply not_elem_of_cons in Hq as [Hqp Hql]. rewrite lookup_insert_ne by done. apply Hfr.
  destruct l as [|[r e] l]; simpl in *; [done|]. intros [= ->]. apply Hql. left.
Qed.

Lemma pop_front_nil h lk : rep h lk [] → pop_front h lk = Ok (h, lk, None).
Proof. intros (_ & _ & Hh & _). unfold pop_front. by rewrite Hh. Qed.

(** Unlinking a node: its neighbours are joined. *)
Lemma unlink_rep h l1 p d l2 : NoDup (l1 ++ (p, d) :: l2).*1 → seg h None (l1 ++ (p, d) :: l2) None →
  ∃ h1 h2, set_next_if h (lastp l1 None) (first l2 None) = Ok h1 ∧
    set_prev_if h1 (first l2 None) (lastp l1 None) = Ok h2 ∧
    seg h2 None (l1 ++ l2) None ∧ h2 !! p = h !! p ∧
    frame h h2 (l1 ++ (p, d) :: l2) ∧ NoDup (l1 ++ l2).*1 ∧ p ∉ (l1 ++ l2).*1.
Proof.
  intros Hnd Hs. unfold frame. rewrite !fmap_app in *. simpl in *.
  apply NoDup_app in Hnd as (Hnd1 & Hdisj & [Hp2 Hnd2]%NoDup_cons).
  rewrite seg_app in Hs. simpl in Hs. destruct Hs as (Hs1 & Hp & Hs2).
  assert (p ∉ l1.*1) as Hp1 by (intros Hin; apply (Hdisj p Hin); left).
  destruct (seg_set_next h None l1 (Some p) (first l2 None) Hnd1 Hs1) as (h1 & E1 & Hs1' & Hf1).
  assert (∀ q : Z, q ∉ l1.*1 → Some q ≠ lastp l1 None) as Hlast.
  { intros q Hq E. destruct l1 as [|[r e] l1 _] using rev_ind; [done|].
    rewrite lastp_snoc in E. injection E as ->. apply Hq. rewrite fmap_app. set_solver. }
  assert (seg h1 (Some p) l2 None) as Hs2'.
  { eapply seg_frame; [|exact Hs2]. intros q Hq. apply Hf1, Hlast. intros Hin. apply (Hdisj q Hin). by right. }
  destruct (seg_set_prev h1 (Some p) l2 None (lastp l1 None) Hnd2 Hs2') as (h2 & E2 & Hs2'' & Hf2).
  assert (∀ q : Z, q ∉ l2.*1 → Some q ≠ first l2 None) as Hfirst.
  { intros q Hq E. destruct l2 as [|[r e] l2]; [done|]. simpl in *. injection E as ->. set_solver. }
  exists h1, h2. split_and!; try done.
  - apply seg_app. split; [|done]. eapply seg_frame; [|exact Hs1'].
    intros q Hq. apply Hf2, Hfirst. intros Hin. apply (Hdisj q Hq). by right.
  - rewrite Hf2, Hf1; [done|by apply Hlast|by apply Hfirst].
  - intros q Hq. rewrite Hf2, Hf1; [done|apply Hlast; set_solver|apply Hfirst; set_solver].
  - apply NoDup_app. split_and!; try done. intros q Hq Hq2. apply (Hdisj q Hq). by right.
  - set_solver.
Qed.

Lemma erase_rep h lk l1 p d l2 : rep h lk (l1 ++ (p, d) :: l2) →
  ∃ h' lk', erase h lk p = Ok (h', lk') ∧ rep h' lk' (l1 ++ l2) ∧ h' !! p = None ∧
    frame h h' (l1 ++ (p, d) :: l2).
Proof.
  intros (Hnd & Hs & Hh & Ht). destruct (unlink_rep h l1 p d l2 Hnd Hs) as (h1 & h2 & E1 & E2 & Hs' & _ & Hf & Hnd' & Hp).
  unfold erase, load. rewrite (seg_lookup _ _ _ _ p d l2 l1 eq_refl Hs). simpl. rewrite E1. simpl. rewrite E2. simpl.
  eexists _, _. split; [done|]. split_and!.
  - split_and!; [done|by apply seg_delete| |].
    + simpl. rewrite Hh, !first_app. simpl. destruct l1 as [|[q e] l1]; simpl; [by rewrite decide_True|].
      rewrite decide_False; [done|]. intros [= ->]. rewrite fmap_app in Hp. set_solver.
    + simpl. rewrite Ht, !lastp_app. simpl. destruct l2 as [|[q e] l2 _] using rev_ind; simpl; [by rewrite decide_True|].
      rewrite !lastp_snoc. rewrite decide_False; [done|]. intros [= ->]. rewrite !fmap_app in Hp. set_solver.
  - apply lookup_delete_eq.
  - intros q Hq. rewrite lookup_delete_ne; [by apply Hf|]. rewrite fmap_app in Hq. set_solver.
Qed.

(** The nodes of a segment are in the heap, so the heap bounds their number. *)
Lemma seg_size h pv l nx : NoDup l.*1 → seg h pv l nx → (length l ≤ size h)%nat.
Proof.
  intros Hnd Hs. assert (list_to_set l.*1 ⊆ (dom h : gset Z)) as Hsub.
  { intros q [[q' d] [-> Hq]]%elem_of_list_to_set%list_elem_of_fmap. apply elem_of_dom. simpl.
    apply list_elem_of_split in Hq as (l1 & l2 & ->). eexists. by eapply seg_lookup. }
  apply subseteq_size in Hsub. rewrite size_list_to_set, size_dom in Hsub by done.
  by rewrite length_fmap in Hsub.
Qed.

Lemma erase_before_rep fuel h pv l1 p d l2 nx :
  NoDup (l1 ++ (p, d) :: l2).*1 → seg h pv (l1 ++ (p, d) :: l2) nx → (length l1 ≤ fuel)%nat →
  ∃ h', erase_before fuel h (first (l1 ++ (p, d) :: l2) nx) p = Ok h' ∧
    seg h' (lastp l1 pv) ((p, d) :: l2) nx ∧ (∀ q, q ∈ l1.*1 → h' !! q = None) ∧
    (∀ q, q ∉ l1.*1 → h' !! q = h !! q).
Proof.
  revert fuel h pv. induction l1 as [|[r e] l1 IH]; intros fuel h pv Hnd Hs Hf.
  { exists h. split; [destruct fuel; simpl; by rewrite decide_True|]. split; [done|].
    split; [by intros q Hq%elem_of_nil|done]. }
  destruct fuel as [|fuel]; simpl in Hf; [lia|]. cbn [app first seg erase_before fmap list_fmap fst] in *.
  destruct Hs as [Hr Hs]. apply NoDup_cons in Hnd as [Hrn Hnd].
  assert (r ≠ p) as Hrp by (intros ->; apply Hrn; rewrite fmap_app; set_solver).
  rewrite decide_False by congruence. cbn [mbind outcome_bind]. unfold load. rewrite Hr. cbn [mbind outcome_bind deref next].
  destruct (IH fuel (delete r h) (Some r) Hnd) as (h' & -> & Hs' & Hdel & Hfr); [by apply seg_delete|lia|].
  exists h'. split; [done|]. split; [done|]. split.
  - intros q [->|Hq]%elem_of_cons; [|by apply Hdel].
    rewrite Hfr; [apply lookup_delete_eq|]. rewrite fmap_app in Hrn. set_solver.
  - intros q [Hqr Hq]%not_elem_of_cons. rewrite Hfr by done. by apply lookup_delete_ne.
Qed.

Lemma eraseTo_rep h lk l1 p d l2 : rep h lk (l1 ++ (p, d) :: l2) →
  ∃ h' lk', eraseTo h lk p = Ok (h', lk') ∧ rep h' lk' l2 ∧
    (∀ q, q ∈ l1.*1 ++ [p] → h' !! q = None) ∧ frame h h' (l1 ++ (p, d) :: l2).
Proof.
  intros (Hnd & Hs & Hh & Ht). pose proof (seg_size _ _ _ _ Hnd Hs) as Hsz.
  rewrite length_app in Hsz. simpl in Hsz. unfold eraseTo, frame. rewrite Hh.
  destruct (erase_before_rep (size h) h None l1 p d l2 None Hnd Hs) as (h1 & -> & [Hp Hs1] & Hdel & Hfr); [lia|].
  rewrite fmap_app in Hnd. apply NoDup_app in Hnd as (Hnd1 & Hdisj & [Hp2 Hnd2]%NoDup_cons). simpl in Hdisj.
  cbn [mbind outcome_bind]. unfold load. rewrite Hp. cbn [mbind outcome_bind deref next].
  destruct (seg_set_prev h1 (Some p) l2 None None Hnd2 Hs1) as (h2 & Hset & Hs2 & Hfr2).
  assert (∃ tl, match first l2 None with
      | Some q => h ← set_prev h1 q None; Ok (h, tail_ lk)
      | None => _ ← require (tail_ lk = Some p); Ok (h1, None)
      end = Ok (h2, tl) ∧ tl = lastp l2 None) as (tl & -> & ->).
  { rewrite Ht, lastp_app. destruct l2 as [|[q e] l2]; simpl in *.
    - injection Hset as ->. rewrite require_true by done. simpl. eauto.
    - rewrite Hset. simpl. eauto. }
  cbn [mbind outcome_bind]. eexists _, _. split; [done|].
  assert (∀ q : Z, q ∉ l2.*1 → Some q ≠ first l2 None) as Hfirst.
  { intros q Hq E. destruct l2 as [|[r e] l2]; [done|]. simpl in *. injection E as ->. apply Hq. left. }
  split_and!; [split_and!; [done|by apply seg_delete|done|done]| |].
  - intros q [Hq| ->%list_elem_of_singleton]%elem_of_app; [|apply lookup_delete_eq].
    rewrite lookup_delete_ne by (intros <-; apply (Hdisj _ Hq); left).
    rewrite Hfr2; [by apply Hdel|]. apply Hfirst. intros Hin. apply (Hdisj q Hq). by right.
  - intros q Hq. rewrite fmap_app in Hq. simpl in Hq.
    apply not_elem_of_app in Hq as [Hq1 [Hqp Hq2]%not_elem_of_cons].
    rewrite lookup_delete_ne, Hfr2, Hfr by (done || by apply Hfirst). done.
Qed.

Lemma set_commute h h1 h2 a b v w : a ≠ b →
  set_next_if h a v = Ok h1 → set_prev_if h1 b w = Ok h2 →
  ∃ h1', set_prev_if h b w = Ok h1' ∧ set_next_if h1' a v = Ok h2.
Proof.
  destruct a as [a|], b as [b|]; simpl; intros Hab E1 E2; [|naive_solver..].
  assert (a ≠ b) by congruence. unfold set_next, set_prev, load in *.
  destruct (h !! a) as [na|] eqn:Ea; [|done]. injection E1 as <-.
  rewrite lookup_insert_ne in E2 by done. destruct (h !! b) as [nb|] eqn:Eb; [|done]. injection E2 as <-.
  simpl. eexists. split; [done|]. rewrite lookup_insert_ne, Ea by done. simpl. f_equal.
  by rewrite insert_insert_ne by done.
Qed.

Lemma moveToTail_rep h lk l1 p d l2 : rep h lk (l1 ++ (p, d) :: l2) →
  ∃ h' lk', moveToTail h lk p = Ok (h', lk') ∧ rep h' lk' (l1 ++ l2 ++ [(p, d)]) ∧
    frame h h' (l1 ++ (p, d) :: l2).
Proof.
  intros (Hnd & Hs & Hh & Ht). pose proof (seg_lookup _ _ _ _ p d l2 l1 eq_refl Hs) as Hp.
  unfold moveToTail, load. rewrite Hp. cbn [mbind outcome_bind deref next prev].
  destruct l2 as [|[q e] l2].
  { simpl. rewrite require_true by (right; by rewrite Ht, lastp_snoc). simpl.
    exists h, lk. split_and!; [done|done|intros r _; done]. }
  cbn [first]. rewrite require_true by (by left). cbn [mbind outcome_bind].
  destruct (unlink_rep h l1 p d ((q, e) :: l2) Hnd Hs) as (h1 & h2 & E1 & E2 & Hs2 & Hp2 & Hf & Hnd2 & Hpn).
  cbn [first] in E1, E2. destruct (set_commute h h1 h2 (lastp l1 None) (Some q) (Some q) (lastp l1 None)) as (h1' & E1' & E2');
    [|done|done|].
  { intros E. destruct l1 as [|[r f] l1 _] using rev_ind; [done|]. rewrite lastp_snoc in E. injection E as ->.
    rewrite fmap_app in Hnd2. apply NoDup_app in Hnd2 as (_ & Hd & _). apply (Hd q); [|left].
    rewrite fmap_app. set_solver. }
  cbn [set_prev_if] in E1'. rewrite E1'. cbn [mbind outcome_bind]. rewrite E2'. cbn [mbind outcome_bind].
  set (lk2 := Make (first (l1 ++ (q, e) :: l2) None) (tail_ lk)).
  assert (tail_ lk = lastp (l1 ++ (q, e) :: l2) None) as Ht2 by (rewrite Ht, !lastp_app; done).
  destruct (push_back_rep h2 lk2 (l1 ++ (q, e) :: l2) p (Node d (Some q) (lastp l1 None)))
    as (h3 & lk3 & E3 & Hrep3 & Hf3); [split_and!; done|by rewrite Hp2|done|]. cbn [data] in *.
  unfold push_back in E3. cbn [head_ tail_ lk2] in E3. rewrite first_app in E3.
  destruct (first l1 (first ((q, e) :: l2) None)) as [hd|] eqn:Efst; [|by destruct l1 as [|[??]?]].
  apply bind_Ok_inv in E3 as (tl & Etl & E3). apply bind_Ok_inv in E3 as (tn & Etn & E3).
  apply bind_Ok_inv in E3 as ([] & Ereq & E3).
  assert (tail_ lk = Some tl) as Htl by (destruct (tail_ lk); simpl in Etl; congruence).
  rewrite Htl. apply bind_Ok_inv in E3 as (h4 & E4 & E3). rewrite E4. cbn [mbind outcome_bind].
  apply bind_Ok_inv in E3 as (h5 & E5 & E3). rewrite E5. cbn [mbind outcome_bind deref].
  apply bind_Ok_inv in E3 as (h6 & E6 & E3). rewrite E6. cbn [mbind outcome_bind].
  injection E3 as <- <-. eexists h6, _. split; [done|].
  assert ((if decide (head_ lk = Some p) then Some q else head_ lk) = Some hd) as ->.
  { rewrite Hh, <-Efst. destruct l1 as [|[r f] l1]; simpl; [by rewrite decide_True|].
    rewrite decide_False; [done|]. intros [= ->]. apply Hpn. left. }
  split; [by rewrite app_assoc|]. intros r Hr. rewrite Hf3, Hf; [done|done|].
  intros Hin. apply Hr. rewrite !fmap_app in *. simpl in *. set_solver.
Qed.

Lemma clear_loop_rep fuel h pv l : NoDup l.*1 → seg h pv l None → (length l ≤ fuel)%nat →
  ∃ h', clear_loop fuel h (first l None) = Ok h' ∧ (∀ q, q ∈ l.*1 → h' !! q = None) ∧ frame h h' l.
Proof.
  revert fuel h pv. induction l as [|[p d] l IH]; intros fuel h pv Hnd Hs Hf; unfold frame.
  { exists h. split; [by destruct fuel|]. split; [by intros q Hq%elem_of_nil|done]. }
  destruct fuel as [|fuel]; simpl in Hf; [lia|]. cbn [seg first clear_loop fmap list_fmap fst] in *.
  destruct Hs as [Hp Hs]. apply NoDup_cons in Hnd as [Hpn Hnd].
  unfold load. rewrite Hp. cbn [mbind outcome_bind deref next].
  destruct (IH fuel (delete p h) (Some p) Hnd) as (h' & -> & Hdel & Hfr); [by apply seg_delete|lia|].
  exists h'. split; [done|]. split.
  - intros q [->|Hq]%elem_of_cons; [|by apply Hdel]. rewrite Hfr by done. apply lookup_delete_eq.
  - intros q [Hqp Hq]%not_elem_of_cons. rewrite Hfr by done. by apply lookup_delete_ne.
Qed.

Lemma clear_rep h lk l : rep h lk l →
  ∃ h', clear h lk = Ok (h', Make None None) ∧ rep h' (Make None None) [] ∧
    (∀ q, q ∈ l.*1 → h' !! q = None) ∧ frame h h' l.
Proof.
  intros (Hnd & Hs & Hh & _). pose proof (seg_size _ _ _ _ Hnd Hs). unfold clear. rewrite Hh.
  destruct (clear_loop_rep (size h) h None l) as (h' & -> & Hdel & Hfr); [done..|].
  exists h'. split_and!; try done. split_and!; [apply NoDup_nil_2|done..].
Qed.

End rep.

(** A list of three nodes at the addresses 16, 32 and 48. *)
Definition example_heap : heap Z :=
  {[ 16 := Node 1 (Some 32) None; 32 := Node 2 (Some 48) (Some 16); 48 := Node 3 None (Some 32) ]}.
Definition example_link : t := Make (Some 16) (Some 48).

End NormalLink.
