(* ===== verification/MessageBuffer.v ===== *)
(** * corpc_message_buffer.cpp: the buffer of sent messages

    A terminal keeps the messages it has sent until the peer acknowledges them,
    to send them again on a new connection.  The buffer is a [NormalLink], here
    the sequence of its nodes (NormalLink.v shows that the operations of the
    class are those of sequences), and a map from serials to nodes.  The
    invariant is that the map indexes exactly the nodes of the list, that the
    serials increase, and that the limit on the number of messages holds. *)
From stdpp Require Import gmap sorting.
From S2P Require Import Prelude.
Open Scope Z_scope.

(** corpc_define.h: [SendMessageInfo]; [msg] is a string when [isRaw] and a
    protobuf message otherwise. *)
Record SendMessageInfo (M : Type) : Type := {
  type : Z;
  isRaw : bool;
  needCrypt : bool;
  tag : Z;
  serial : Z;
  msg : option M;
}.
Arguments type {_} _.
Arguments isRaw {_} _.
Arguments needCrypt {_} _.
Arguments tag {_} _.
Arguments serial {_} _.
Arguments msg {_} _.

Module MessageBuffer.
Section buffer.
Context {M : Type}.
Implicit Types (m : SendMessageInfo M).

(** corpc_message_buffer.h; a node is its address and its data. *)
Record t : Type := Make {
  bufMsglink_ : list (Z * SendMessageInfo M);
  bufMsgMap_ : gmap Z Z;
  broken_ : bool;
  maxMsgNum_ : Z;
  lastSerial_ : Z;
  lastScrapSerial_ : Z;
}.
Implicit Types (b : t).

Definition init (maxMsgNum : Z) : t := Make [] ∅ false maxMsgNum 0 0.

(** [MessageBuffer::reset] *)
Definition reset (serial : Z) b : t := Make [] ∅ false (maxMsgNum_ b) serial serial.

(** [insertMessage]: the oldest message makes room when the buffer is full. *)
Definition drop_oldest b : outcome t :=
  match bufMsglink_ b with
  | [] => Fault AssertFailed
  | (_, m) :: l => Ok (Make l (delete (serial m) (bufMsgMap_ b)) (broken_ b) (maxMsgNum_ b)
                         (lastSerial_ b) (serial m))
  end.

(** [MessageBuffer::insertMessage]; [addr] is the address [new] returns. *)
Definition insertMessage (addr : Z) m b : outcome (bool * t) :=
  if broken_ b then Ok (false, b) else
  b ← (if bool_decide (maxMsgNum_ b > 0 ∧ Z.of_nat (size (bufMsgMap_ b)) >= maxMsgNum_ b)
       then drop_oldest b else Ok b);
  if bool_decide (serial m ≠ u32 (lastSerial_ b + 1)) then
    Ok (false, Make [] ∅ true (maxMsgNum_ b) (lastSerial_ b) (lastScrapSerial_ b))
  else
    let map := match bufMsgMap_ b !! serial m with
      | Some _ => bufMsgMap_ b
      | None => <[serial m := addr]> (bufMsgMap_ b)
      end in
    Ok (true, Make (bufMsglink_ b ++ [(addr, m)]) map (broken_ b) (maxMsgNum_ b)
                (serial m) (lastScrapSerial_ b)).

(** [MessageBuffer::jumpToSerial] *)
Definition jumpToSerial (s : Z) b : bool * t :=
  if broken_ b then (false, b) else
  if bool_decide (s ≠ u32 (lastSerial_ b + 1)) then
    (false, Make [] ∅ true (maxMsgNum_ b) (lastSerial_ b) (lastScrapSerial_ b))
  else (true, Make (bufMsglink_ b) (bufMsgMap_ b) (broken_ b) (maxMsgNum_ b) s (lastScrapSerial_ b)).

(** [MessageBuffer::traverse], over a state the handle may change. *)
Fixpoint traverse {S} (handle : SendMessageInfo M → S → bool * S) (l : list (Z * SendMessageInfo M)) (s : S) : S :=
  match l with
  | [] => s
  | (_, m) :: l => let '(go, s) := handle m s in if go : bool then traverse handle l s else s
  end.

(** [MessageBuffer::scrapMessages]: the loop and the whole. *)
Fixpoint scrap_loop (s : Z) (l : list (Z * SendMessageInfo M)) (map : gmap Z Z)
    : list (Z * SendMessageInfo M) * gmap Z Z :=
  match l with
  | [] => ([], map)
  | (a, m) :: l' => if bool_decide (serial m > s) then (l, map) else scrap_loop s l' (delete (serial m) map)
  end.
Definition scrapMessages (s : Z) b : t :=
  let '(l, map) := scrap_loop s (bufMsglink_ b) (bufMsgMap_ b) in
  Make l map (broken_ b) (maxMsgNum_ b) (lastSerial_ b)
    (if bool_decide (lastScrapSerial_ b < s) then s else lastScrapSerial_ b).
End buffer.
Arguments t : clear implicits.

(** ** Invariant *)
Section invariant.
Context {M : Type}.
Implicit Types (m : SendMessageInfo M) (b : t M) (l : list (Z * SendMessageInfo M)).

Definition serials l : list Z := (λ x, serial x.2) <$> l.

(** The map indexes the nodes of the list. *)
Definition indexes (map : gmap Z Z) l : Prop :=
  ∀ s a, map !! s = Some a ↔ ∃ m, (a, m) ∈ l ∧ serial m = s.

(** Up to the last serial, no wrap-around has happened. *)
Record wf b : Prop := {
  wf_sorted : StronglySorted Z.lt (serials (bufMsglink_ b));
  wf_last : Forall (λ s, 0 < s ≤ lastSerial_ b) (serials (bufMsglink_ b));
  wf_index : indexes (bufMsgMap_ b) (bufMsglink_ b);
  wf_size : size (bufMsgMap_ b) = length (bufMsglink_ b);
  wf_max : 0 < maxMsgNum_ b → zlen (bufMsglink_ b) ≤ maxMsgNum_ b;
  wf_range : 0 ≤ lastSerial_ b < 2^32;
  wf_limit : 0 ≤ maxMsgNum_ b;
}.

Lemma serials_above (x : Z) (l : list Z) : StronglySorted Z.lt (x :: l) → Forall (Z.lt x) l.
Proof. by inversion 1. Qed.

(** Taking the first node off. *)
Lemma index_tail map a m l :
  StronglySorted Z.lt (serials ((a, m) :: l)) → indexes map ((a, m) :: l) → size map = length ((a, m) :: l) →
  indexes (delete (serial m) map) l ∧ size (delete (serial m) map) = length l.
Proof.
  intros Hs Hi Hsz. apply serials_above in Hs. rewrite Forall_forall in Hs. split.
  - intros s a'. destruct (decide (s = serial m)) as [->|Hne].
    + rewrite lookup_delete_eq. split; [done|]. intros (m' & Hin & He).
      assert (serial m < serial m') by (apply Hs, list_elem_of_fmap; by exists (a', m')). lia.
    + rewrite lookup_delete_ne by done. rewrite (Hi s a'). split.
      * intros (m' & [[= -> ->]|Hin]%elem_of_cons & He); [done|eauto].
      * intros (m' & Hin & He). exists m'. split; [by right|done].
  - rewrite map_size_delete_Some; [rewrite Hsz; done|]. exists a. apply Hi. exists m. split; [left|done].
Qed.

Lemma scrap_loop_spec s l map :
  StronglySorted Z.lt (serials l) → indexes map l → size map = length l →
  ∃ l' map', scrap_loop s l map = (l', map') ∧ l' = filter (λ x, s < serial x.2) l ∧
    indexes map' l' ∧ size map' = length l' ∧ StronglySorted Z.lt (serials l') ∧ (∃ k, l' = drop k l).
Proof.
  revert map. induction l as [|[a m] l IH]; intros map Hs Hi Hsz; cbn [scrap_loop].
  { exists [], map. split_and!; try done. by exists 0%nat. }
  case_bool_decide as Hgt.
  - exists ((a, m) :: l), map. split_and!; try done; [|by exists 0%nat].
    symmetry. apply list_filter_all. pose proof (serials_above _ _ Hs) as Habove.
    change (Forall (Z.lt (serial m)) ((λ x : Z * SendMessageInfo M, serial x.2) <$> l)) in Habove.
    rewrite Forall_fmap in Habove.
    constructor; [simpl; lia|]. eapply Forall_impl; [exact Habove|]. simpl. intros. lia.
  - destruct (index_tail map a m l Hs Hi Hsz) as [Hi' Hsz'].
    destruct (IH (delete (serial m) map)) as (l' & map' & -> & Hl' & ? & ? & ? & k & Hk);
      [by inversion Hs|done|done|].
    exists l', map'. split_and!; try done; [|by exists (S k)].
    rewrite Hl'. rewrite filter_cons_False; [done|]. simpl. lia.
Qed.

Lemma sorted_snoc (l : list Z) (x : Z) : StronglySorted Z.lt l → Forall (λ y, y < x) l → StronglySorted Z.lt (l ++ [x]).
Proof.
  induction 1 as [|y l Hs IH Hy]; intros Hx; simpl; [repeat constructor|].
  apply Forall_cons in Hx as [Hyx Hx]. constructor; [by apply IH|].
  apply Forall_app. split; [done|]. by constructor.
Qed.

Lemma wf_init n : 0 ≤ n → wf (init n : t M).
Proof.
  intros. constructor; simpl; try done; try lia; [constructor|].
  intros s a. rewrite lookup_empty. split; [done|]. by intros (m & Hin%elem_of_nil & _).
Qed.

Lemma wf_cleared n (br : bool) last scrap : 0 ≤ n → 0 ≤ last < 2^32 → wf (Make [] ∅ br n last scrap : t M).
Proof.
  intros. constructor; simpl; try done; try lia; [constructor|].
  intros s a. rewrite lookup_empty. split; [done|]. by intros (m & Hin%elem_of_nil & _).
Qed.

Lemma wf_drop_oldest b : wf b → bufMsglink_ b ≠ [] →
  ∃ a m l, bufMsglink_ b = (a, m) :: l ∧ ∃ b', drop_oldest b = Ok b' ∧ wf b' ∧ bufMsglink_ b' = l ∧
    broken_ b' = broken_ b ∧ maxMsgNum_ b' = maxMsgNum_ b ∧ lastSerial_ b' = lastSerial_ b ∧
    lastScrapSerial_ b' = serial m ∧ zlen l < zlen (bufMsglink_ b).
Proof.
  intros [Hs Hl Hi Hsz Hm Hr Hlim] Hne. unfold drop_oldest.
  destruct (bufMsglink_ b) as [|[a m] l] eqn:E; [done|]. exists a, m, l. split; [done|].
  destruct (index_tail _ _ _ _ Hs Hi Hsz) as [Hi' Hsz'].
  eexists. split; [done|]. rewrite zlen_cons in *. split_and!; try done; [|lia].
  constructor; simpl; try done; [by inversion Hs|by inversion Hl|].
  intros Hpos. specialize (Hm Hpos). lia.
Qed.

(** Inserting the next message. *)
Lemma insert_next b addr m : wf b → broken_ b = false → serial m = lastSerial_ b + 1 → serial m < 2^32 →
  addr ∉ (bufMsglink_ b).*1 →
  let kept := if bool_decide (0 < maxMsgNum_ b ≤ zlen (bufMsglink_ b)) then drop 1 (bufMsglink_ b)
              else bufMsglink_ b in
  ∃ b', insertMessage addr m b = Ok (true, b') ∧ wf b' ∧ bufMsglink_ b' = kept ++ [(addr, m)] ∧
    lastSerial_ b' = serial m ∧ broken_ b' = false.
Proof.
  intros Hwf Hbr Hser Hrng Hfresh kept. unfold insertMessage. rewrite Hbr.
  assert (∃ b1, (if bool_decide (maxMsgNum_ b > 0 ∧ Z.of_nat (size (bufMsgMap_ b)) >= maxMsgNum_ b)
      then drop_oldest b else Ok b) = Ok b1 ∧ wf b1 ∧ bufMsglink_ b1 = kept ∧ broken_ b1 = false ∧
      maxMsgNum_ b1 = maxMsgNum_ b ∧ lastSerial_ b1 = lastSerial_ b ∧
      (0 < maxMsgNum_ b → zlen kept < maxMsgNum_ b)) as (b1 & -> & Hwf1 & Hk & Hb1 & Hm1 & Hl1 & Hroom).
  { unfold kept. rewrite (wf_size _ Hwf). fold (zlen (bufMsglink_ b)).
    destruct (decide (0 < maxMsgNum_ b ≤ zlen (bufMsglink_ b))) as [Hfull|Hroom].
    - rewrite (bool_decide_true (_ ∧ _)), bool_decide_true by (unfold zlen in *; lia).
      destruct (wf_drop_oldest b Hwf) as (a0 & m0 & l0 & E & b1 & -> & Hwf1 & Hl0 & Hbr1 & Hm1 & Hls1 & _ & Hlt).
      { intros E. rewrite E in Hfull. unfold zlen in Hfull. simpl in Hfull. lia. }
      exists b1. rewrite E in *. simpl. pose proof (wf_max _ Hwf ltac:(lia)). rewrite E in *.
      split_and!; try done; try congruence. intros. rewrite drop_0. lia.
    - rewrite (bool_decide_false (_ ∧ _)), bool_decide_false by (unfold zlen in *; lia).
      exists b. split_and!; try done. lia. }
  cbn [mbind outcome_bind]. pose proof (wf_range _ Hwf) as Hr.
  rewrite Hl1, u32_small by lia. rewrite bool_decide_false by (intros H; apply H; lia).
  destruct Hwf1 as [Hs Hl Hi Hsz Hmx Hrg Hlim].
  assert (∀ x, x ∈ bufMsglink_ b1 → serial x.2 < serial m) as Hlt.
  { rewrite Forall_forall in Hl. intros x Hx.
    specialize (Hl (serial x.2) ltac:(apply list_elem_of_fmap; by exists x)). lia. }
  assert (bufMsgMap_ b1 !! serial m = None) as Hnone.
  { destruct (bufMsgMap_ b1 !! serial m) as [a|] eqn:E; [|done]. apply Hi in E as (m' & Hin & He).
    specialize (Hlt (a, m') Hin). simpl in Hlt. lia. }
  rewrite Hnone. eexists. split; [done|]. rewrite Hk in *. split_and!; try done.
  constructor; simpl; try done.
  - unfold serials in *. rewrite fmap_app. apply sorted_snoc; [done|].
    rewrite Forall_fmap. apply Forall_forall. intros x Hx. simpl. by apply Hlt.
  - unfold serials in *. rewrite fmap_app. apply Forall_app. split; [|constructor; [simpl; lia|constructor]].
    eapply Forall_impl; [exact Hl|]. simpl. intros. lia.
  - intros s a. destruct (decide (s = serial m)) as [->|Hne].
    + rewrite lookup_insert_eq. split.
      * intros [= <-]. exists m. split; [apply elem_of_app; right; left|done].
      * intros (m' & [Hin|[= <- <-]%list_elem_of_singleton]%elem_of_app & He); [|done].
        specialize (Hlt (a, m') Hin). simpl in Hlt. lia.
    + rewrite lookup_insert_ne by done. rewrite (Hi s a). split.
      * intros (m' & Hin & He). exists m'. split; [apply elem_of_app; by left|done].
      * intros (m' & [Hin|[= <- <-]%list_elem_of_singleton]%elem_of_app & He); [eauto|done].
  - rewrite map_size_insert_None by done. rewrite length_app. simpl. lia.
  - intros Hpos. rewrite Hm1 in *. specialize (Hroom Hpos). rewrite zlen_app. unfold zlen in *. simpl. lia.
  - lia.
Qed.

(** Inserting the message with the next serial into a
    well-formed buffer succeeds and appends it; when the buffer is full the
    oldest message makes room, so the limit [maxMsgNum_] always holds, and the
    index keeps pointing to exactly the buffered messages.  Any other serial
    empties the buffer and breaks it. *)
Theorem message_buffer_insert b addr m : wf b → broken_ b = false → addr ∉ (bufMsglink_ b).*1 →
  0 < serial m < 2^32 →
  let kept := if bool_decide (0 < maxMsgNum_ b ≤ zlen (bufMsglink_ b)) then drop 1 (bufMsglink_ b)
              else bufMsglink_ b in
  ∃ ok b', insertMessage addr m b = Ok (ok, b') ∧ wf b' ∧
    (ok = true ↔ serial m = lastSerial_ b + 1) ∧
    (ok = true → bufMsglink_ b' = kept ++ [(addr, m)] ∧ lastSerial_ b' = serial m ∧ broken_ b' = false) ∧
    (ok = false → bufMsglink_ b' = [] ∧ broken_ b' = true).
Proof.
  intros Hwf Hbr Hfresh Hm kept. destruct (decide (serial m = lastSerial_ b + 1)) as [Hn|Hn].
  - destruct (insert_next b addr m) as (b' & E & Hwf' & Hl & Hs & Hb); [done..|lia|done|].
    exists true, b'. split_and!; done.
  - unfold insertMessage. rewrite Hbr.
    assert (∃ b1, (if bool_decide (maxMsgNum_ b > 0 ∧ Z.of_nat (size (bufMsgMap_ b)) >= maxMsgNum_ b)
      then drop_oldest b else Ok b) = Ok b1 ∧ wf b1 ∧ lastSerial_ b1 = lastSerial_ b) as (b1 & -> & Hwf1 & Hl1).
    { case_bool_decide as Hfull; [|eauto]. rewrite (wf_size _ Hwf) in Hfull.
      destruct (wf_drop_oldest b Hwf) as (a0 & m0 & l0 & E & b1 & -> & Hwf1 & _ & _ & _ & Hls1 & _ & _);
        [|eauto]. intros E. rewrite E in Hfull. simpl in Hfull. lia. }
    cbn [mbind outcome_bind]. pose proof (wf_range _ Hwf) as Hr. rewrite Hl1, bool_decide_true.
    + eexists false, _. split; [done|]. split_and!; try done. apply wf_cleared; [apply Hwf1|lia].
    + intros E. apply Hn. rewrite E in *. unfold u32 in *.
      destruct (decide (lastSerial_ b + 1 = 2^32)) as [Hw|]; [rewrite Hw, Z.mod_same in Hm; lia|].
      rewrite Z.mod_small in *; lia.
Qed.

(** An acknowledgement. *)
Lemma scrap_spec b s : wf b →
  bufMsglink_ (scrapMessages s b) = filter (λ x, s < serial x.2) (bufMsglink_ b) ∧
  wf (scrapMessages s b) ∧ lastScrapSerial_ (scrapMessages s b) = Z.max (lastScrapSerial_ b) s.
Proof.
  intros [Hs Hl Hi Hsz Hm Hr Hlim]. unfold scrapMessages.
  destruct (scrap_loop_spec s _ _ Hs Hi Hsz) as (l' & map' & -> & -> & Hi' & Hsz' & Hs' & k & Hk). simpl.
  split; [done|]. split; [|case_bool_decide; lia].
  constructor; simpl; try done.
  - rewrite Hk. unfold serials. rewrite fmap_drop. by apply Forall_drop.
  - intros Hpos. specialize (Hm Hpos). rewrite Hk. unfold zlen in *. rewrite length_drop. lia.
Qed.

(** An acknowledgement removes exactly the messages up to
    the acknowledged serial, keeps the later ones in order and keeps the buffer
    well-formed. *)
Theorem message_buffer_scrap b s : wf b →
  bufMsglink_ (scrapMessages s b) = filter (λ x, s < serial x.2) (bufMsglink_ b) ∧
  wf (scrapMessages s b) ∧ lastScrapSerial_ (scrapMessages s b) = Z.max (lastScrapSerial_ b) s.
Proof. apply scrap_spec. Qed.

(** Skipping a serial keeps the buffer well-formed. *)
Lemma jump_wf b s : wf b → 0 < s < 2^32 → wf (jumpToSerial s b).2.
Proof.
  intros Hwf Hs. unfold jumpToSerial. destruct (broken_ b); [done|].
  pose proof (wf_range _ Hwf). pose proof (wf_limit _ Hwf).
  case_bool_decide as E; simpl; [by apply wf_cleared|].
  assert (s = lastSerial_ b + 1) as ->.
  { rewrite E in *. unfold u32 in *.
    destruct (decide (lastSerial_ b + 1 = 2^32)) as [Hw|]; [rewrite Hw, Z.mod_same in Hs; lia|].
    rewrite Z.mod_small in *; lia. }
  destruct Hwf as [Ho Hl Hi Hsz Hm Hr Hlim]. constructor; simpl; try done; [|lia].
  eapply Forall_impl; [exact Hl|]. simpl. intros. lia.
Qed.

Lemma jump_next b s : wf b → broken_ b = false → s = lastSerial_ b + 1 → s < 2^32 →
  let b' := (jumpToSerial s b).2 in
  wf b' ∧ broken_ b' = false ∧ lastSerial_ b' = s ∧ bufMsglink_ b' = bufMsglink_ b.
Proof.
  intros Hwf Hb Hs Hr. pose proof (wf_range _ Hwf) as Hrng.
  pose proof (jump_wf b s Hwf ltac:(lia)) as Hwf'. unfold jumpToSerial in *.
  rewrite Hb, u32_small, bool_decide_false in * by lia. simpl in *. done.
Qed.

Lemma reset_wf b s : wf b → 0 ≤ s < 2^32 → wf (reset s b).
Proof. intros Hwf Hs. apply wf_cleared; [apply Hwf|done]. Qed.
End invariant.

(** A message of type 1 with a serial. *)
Definition numbered (s : Z) : SendMessageInfo unit :=
  {| type := 1; isRaw := true; needCrypt := false; tag := 0; serial := s; msg := None |}.

(** Serials are not compared as cyclic numbers: after the
    serial has wrapped around from 2^32 - 1 to 0, the acknowledgement of the
    newest message removes nothing, because the oldest buffered serial is larger
    than the acknowledged one. *)
Theorem message_buffer_wrap :
  ∃ b, (b ← insertMessage 16 (numbered (2^32 - 1)) (reset (2^32 - 2) (init 0));
        b ← insertMessage 32 (numbered 0) b.2; insertMessage 48 (numbered 1) b.2) = Ok (true, b) ∧
    serials (bufMsglink_ b) = [2^32 - 1; 0; 1] ∧
    bufMsglink_ (scrapMessages 1 b) = bufMsglink_ b.
Proof. eexists. split; [vm_compute; reflexivity|]. split; vm_compute; reflexivity. Qed.

Definition example_buffer : t unit :=
  get (init 2) (b ← insertMessage 16 (numbered 1) (init 2); b ← insertMessage 32 (numbered 2) b.2; Ok b.2).

Lemma example_buffer_wf : wf example_buffer.
Proof.
  assert (∀ a s b, wf b → broken_ b = false → serial (numbered s) = lastSerial_ b + 1 → s < 2^32 →
    a ∉ (bufMsglink_ b).*1 → wf (get (true, b) (insertMessage a (numbered s) b)).2) as Hins.
  { intros a s b Hwf Hb Hs Hr Ha. destruct (insert_next b a (numbered s)) as (b' & -> & Hwf' & _); done. }
  apply (Hins 32 2 (get (true, init 2) (insertMessage 16 (numbered 1) (init 2))).2); try done.
  - apply (Hins 16 1 (init 2)); try done; [by apply wf_init|set_solver].
  - vm_compute. set_solver.
Qed.

Lemma message_buffer_insert_witness :
  ∃ ok b', insertMessage 48 (numbered 3) example_buffer = Ok (ok, b') ∧ wf b' ∧
    (ok = true ↔ serial (numbered 3) = lastSerial_ example_buffer + 1) ∧
    (ok = true → bufMsglink_ b' = [(32, numbered 2); (48, numbered 3)] ∧ lastSerial_ b' = 3 ∧ broken_ b' = false) ∧
    (ok = false → bufMsglink_ b' = [] ∧ broken_ b' = true).
Proof.
  apply (message_buffer_insert example_buffer 48 (numbered 3)); [apply example_buffer_wf|done| |done].
  vm_compute. set_solver.
Defined.

Lemma message_buffer_scrap_witness :
  bufMsglink_ (scrapMessages 1 example_buffer) = [(32, numbered 2)] ∧
  wf (scrapMessages 1 example_buffer) ∧ lastScrapSerial_ (scrapMessages 1 example_buffer) = 1.
Proof. apply (message_buffer_scrap example_buffer 1), example_buffer_wf. Defined.
End MessageBuffer.
