(* ===== verification/Crypter.v ===== *)
(** * corpc_crypter.cpp: body encryption

    [Crypter] is the abstract class, an object with two methods; both work on
    the memory the pointers point into, here one buffer with two offsets.
    [CrypterLaws] is the contract its clients rely on: encrypting and
    decrypting in place transform exactly the addressed range, and decryption
    undoes encryption.  [SimpleXORCrypter] implements the contract when its key
    is not empty. *)
From S2P Require Import Prelude.
Open Scope Z_scope.

(** corpc_crypter.h: the virtual methods. *)
Record Crypter : Type := {
  encrypt : bytes → Z → Z → Z → outcome bytes;
  decrypt : bytes → Z → Z → Z → outcome bytes;
}.

(** What the methods make of a byte string of their own. *)
Definition sealed (c : Crypter) (l : bytes) : bytes := get l (encrypt c l 0 0 (zlen l)).
Definition opened (c : Crypter) (l : bytes) : bytes := get l (decrypt c l 0 0 (zlen l)).

(** The contract of an in-place crypter. *)
Class CrypterLaws (c : Crypter) : Prop := {
  sealed_length l : Forall is_byte l → zlen (sealed c l) = zlen l;
  opened_length l : Forall is_byte l → zlen (opened c l) = zlen l;
  sealed_bytes l : Forall is_byte l → Forall is_byte (sealed c l);
  opened_bytes l : Forall is_byte l → Forall is_byte (opened c l);
  opened_sealed l : Forall is_byte l → opened c (sealed c l) = l;
  encrypt_inplace mem p n : 0 ≤ p → 0 ≤ n → p + n ≤ zlen mem → Forall is_byte (slice p n mem) →
    encrypt c mem p p n = Ok (splice mem p (sealed c (slice p n mem)));
  decrypt_inplace mem p n : 0 ≤ p → 0 ≤ n → p + n ≤ zlen mem → Forall is_byte (slice p n mem) →
    decrypt c mem p p n = Ok (splice mem p (opened c (slice p n mem)));
}.

(** What the contract gives its clients. *)
Lemma crypter_roundtrip c `{CrypterLaws c} mem p n :
  Forall is_byte mem → 0 ≤ p → 0 ≤ n → p + n ≤ zlen mem →
  (encrypt c mem p p n ≫= λ mem', decrypt c mem' p p n) = Ok mem.
Proof.
  intros Hm Hp Hn Hle. pose proof (Forall_slice _ p n _ Hm) as Hs.
  rewrite encrypt_inplace by done. simpl.
  assert (zlen (sealed c (slice p n mem)) = n) as Hl by (rewrite sealed_length by done; by apply zlen_slice).
  pose proof (sealed_bytes _ Hs) as Hb.
  assert (slice p n (splice mem p (sealed c (slice p n mem))) = sealed c (slice p n mem)) as Hsp
    by (rewrite <-Hl at 1; apply splice_slice; lia).
  rewrite decrypt_inplace by (rewrite ?Hsp; auto; rewrite ?zlen_splice; lia).
  rewrite Hsp, opened_sealed by done.
  rewrite splice_splice by (rewrite ?zlen_slice; lia). f_equal. by apply splice_same.
Qed.

Module SimpleXORCrypter.

(** [key_] as the bytes of the string, [keySize_] its size. *)
Record t : Type := Make { key_ : bytes }.
Definition keySize_ (c : t) : Z := zlen (key_ c).

(** The value of a [char] holding the byte [b]. *)
Definition schar (b : Z) : Z := if bool_decide (b < 128) then b else b - 256.

(** [dst[i] = src[i] ^ key_[i%keySize_]] *)
Definition encrypt_byte (c : t) (src dst i : Z) (mem : bytes) : outcome bytes :=
  b ← buf_get mem (src + i);
  if bool_decide (keySize_ c = 0) then Fault DivByZero else
  let k := key_ c !!! Z.to_nat (i `mod` keySize_ c) in
  buf_set mem (dst + i) (u8 (Z.lxor b (schar k))).

(** corpc_crypter.cpp *)
Definition encrypt (c : t) (mem : bytes) (src dst size : Z) : outcome bytes :=
  for_from (Z.to_nat size) 0 (encrypt_byte c src dst) mem.

(** corpc_crypter.cpp *)
Definition decrypt (c : t) (mem : bytes) (src dst size : Z) : outcome bytes :=
  encrypt c mem src dst size.

Definition to_Crypter (c : t) : Crypter :=
  {| Crypter.encrypt := encrypt c; Crypter.decrypt := decrypt c |}.

(** ** The keystream, the specification *)
Definition stream (c : t) (i : nat) (b : Z) : Z :=
  u8 (Z.lxor b (schar (key_ c !!! Z.to_nat (Z.of_nat i `mod` keySize_ c)))).
Definition xor_stream (c : t) (l : bytes) : bytes := imap (stream c) l.

Lemma xor_stream_length c l : zlen (xor_stream c l) = zlen l.
Proof. unfold zlen, xor_stream. by rewrite length_imap. Qed.

Lemma stream_byte c i b : is_byte (stream c i b).
Proof. apply u8_range. Qed.

Lemma stream_stream c i b : is_byte b → stream c i (stream c i b) = b.
Proof.
  intros Hb. unfold stream. generalize (schar (key_ c !!! Z.to_nat (Z.of_nat i `mod` keySize_ c))).
  intros k. unfold u8. rewrite <-!Z.land_ones by lia.
  apply Z.bits_inj_iff'. intros n Hn.
  rewrite Z.land_spec, Z.lxor_spec, Z.land_spec, Z.lxor_spec, Z.ones_spec by lia.
  case_bool_decide.
  - destruct (Z.testbit b n), (Z.testbit k n); done.
  - rewrite !andb_false_r. symmetry. unfold is_byte in Hb.
    apply (proj1 (Z.bounded_iff_bits_nonneg 8 b ltac:(lia) ltac:(lia))); lia.
Qed.

Lemma xor_stream_involutive c l : Forall is_byte l → xor_stream c (xor_stream c l) = l.
Proof.
  intros Hl. apply list_eq. intros i. unfold xor_stream. rewrite !list_lookup_imap.
  destruct (l !! i) as [b|] eqn:E; simpl; [|done].
  by rewrite stream_stream by (eapply Forall_lookup_1 in E; eauto).
Qed.

Lemma xor_stream_bytes c l : Forall is_byte (xor_stream c l).
Proof.
  apply Forall_lookup. intros i b. unfold xor_stream. rewrite list_lookup_imap.
  destruct (l !! i); simpl; [|done]. intros [= <-]. apply stream_byte.
Qed.

(** ** The loop in place *)
Section inplace.
Context (c : t) (Hkey : key_ c ≠ []) (mem : bytes) (p : Z) (Hp : 0 ≤ p).

(** The memory after [i] iterations. *)
Definition partly (i : Z) : bytes :=
  ztake p mem ++ xor_stream c (slice p i mem) ++ zdrop (p + i) mem.

Lemma encrypt_byte_partly i : 0 ≤ i → p + i < zlen mem →
  encrypt_byte c p p i (partly i) = Ok (partly (i + 1)).
Proof.
  intros Hi Hlt.
  destruct (lookup_lt_is_Some_2 mem (Z.to_nat (p + i))) as [b Hb].
  { unfold zlen in Hlt. lia. }
  assert (zlen (slice p i mem) = i) as Hsl by (apply zlen_slice; lia).
  assert (zdrop (p + i) mem = b :: zdrop (p + (i + 1)) mem) as Hdrop.
  { unfold zdrop. rewrite (drop_S mem b) by done. do 2 f_equal. lia. }
  assert (length (ztake p mem ++ xor_stream c (slice p i mem)) = Z.to_nat (p + i)) as Hpre.
  { enough (zlen (ztake p mem ++ xor_stream c (slice p i mem)) = p + i) by (unfold zlen in *; lia).
    rewrite zlen_app, xor_stream_length, zlen_ztake. lia. }
  unfold encrypt_byte, partly. rewrite app_assoc, Hdrop.
  unfold buf_get. rewrite decide_True by lia.
  rewrite lookup_app_r, Hpre, Nat.sub_diag by lia. simpl.
  rewrite bool_decide_false; [|unfold keySize_; intros ?%zlen_0_inv; done].
  unfold buf_set. rewrite bool_decide_true.
  2: { unfold zlen in *. rewrite !length_app in *. simpl. lia. }
  f_equal. rewrite insert_app_r_alt, Hpre, Nat.sub_diag by lia. simpl.
  rewrite (slice_app_ztake p i 1) by lia. unfold xor_stream. rewrite imap_app, <-!app_assoc.
  do 2 f_equal. unfold slice at 2. rewrite Hdrop. simpl. do 2 f_equal.
  unfold stream. rewrite Nat.add_0_r. unfold zlen in Hsl. by rewrite Hsl.
Qed.

Lemma encrypt_partly n : 0 ≤ n → p + n ≤ zlen mem →
  encrypt c mem p p n = Ok (partly n).
Proof.
  intros Hn Hle. unfold encrypt.
  destruct (for_from_inv (λ i m, m = partly i) (Z.to_nat n) 0 (encrypt_byte c p p) mem)
    as (m & -> & ->).
  - unfold partly. rewrite slice_0, Z.add_0_r. simpl. by rewrite ztake_zdrop.
  - intros i m Hi ->. eexists. split; [apply encrypt_byte_partly; lia|done].
  - do 2 f_equal. lia.
Qed.
End inplace.

(** An object with a non-empty key satisfies the contract. *)
Lemma laws (c : t) : key_ c ≠ [] → CrypterLaws (to_Crypter c).
Proof.
  intros Hkey.
  assert (∀ mem p n, 0 ≤ p → 0 ≤ n → p + n ≤ zlen mem →
    encrypt c mem p p n = Ok (splice mem p (xor_stream c (slice p n mem)))) as Hin.
  { intros mem p n ???. rewrite encrypt_partly by done. unfold splice, partly.
    by rewrite xor_stream_length, zlen_slice by lia. }
  assert (∀ l, sealed (to_Crypter c) l = xor_stream c l ∧ opened (to_Crypter c) l = xor_stream c l) as Hs.
  { intros l. unfold sealed, opened. simpl. unfold decrypt. pose proof (zlen_nonneg l).
    rewrite Hin, slice_all by lia. simpl. unfold splice.
    rewrite ztake_0, zdrop_ge, app_nil_r by (rewrite ?xor_stream_length; lia). done. }
  split; intros *; rewrite ?(proj1 (Hs _)), ?(proj2 (Hs _));
    auto using xor_stream_length, xor_stream_bytes, xor_stream_involutive;
    intros; by apply Hin.
Qed.

(** With a non-empty key, encrypting a range of a buffer in
    place and then decrypting it restores the whole buffer. *)
Theorem decrypt_encrypt c mem p n :
  key_ c ≠ [] → Forall is_byte mem → 0 ≤ p → 0 ≤ n → p + n ≤ zlen mem →
  (encrypt c mem p p n ≫= λ mem', decrypt c mem' p p n) = Ok mem.
Proof.
  intros Hk. pose proof (laws c Hk). apply (crypter_roundtrip (to_Crypter c)).
Qed.

(** With an empty key, encrypting any non-empty range
    divides by zero: the constructor accepts a key that no call can use. *)
Theorem encrypt_empty_key mem p n :
  0 ≤ p → 0 < n → p + n ≤ zlen mem → encrypt (Make []) mem p p n = Fault DivByZero.
Proof.
  intros Hp Hn Hle. unfold encrypt.
  destruct (Z.to_nat n) as [|k] eqn:E; [lia|]. simpl. unfold encrypt_byte.
  unfold buf_get. rewrite decide_True by lia.
  destruct (lookup_lt_is_Some_2 mem (Z.to_nat (p + 0))) as [b ->]; [unfold zlen in *; lia|].
  done.
Qed.

Lemma decrypt_encrypt_witness :
  (encrypt (Make [200; 7]) [1; 2; 3; 4; 5] 1 1 3 ≫= λ mem', decrypt (Make [200; 7]) mem' 1 1 3) = Ok [1; 2; 3; 4; 5].
Proof.
  apply (decrypt_encrypt (Make [200; 7]) [1; 2; 3; 4; 5] 1 3);
    [done|by apply (bool_decide_unpack _)|done|done|done].
Defined.

Lemma encrypt_empty_key_witness : encrypt (Make []) [1; 2; 3] 0 0 3 = Fault DivByZero.
Proof. apply (encrypt_empty_key [1; 2; 3] 0 3); done. Defined.
End SimpleXORCrypter.
