(* ===== verification/Pipeline.v ===== *)
(** * corpc_io.cpp: the receiving pipelines

    [TcpPipeline::upflow] cuts the byte stream of a connection into frames, a
    head of [headSize_] bytes that holds the size of the body and the body,
    keeping a partly received frame between calls.  The decoder is a function
    member of the pipeline; [Decoder] is the interface it has to meet, and the
    servers and terminals of the other files are its instances.

    The specification [Frames.run] parses a byte list in one go.  The main
    theorem is that [upflow] refines it: whatever the sizes of the chunks in
    which the stream arrives, the same frames are decoded in the same order,
    no buffer is overrun and the loop terminates.  [UdpPipeline::upflow]
    handles one datagram per call. *)
From S2P Require Import Prelude Define.
Open Scope Z_scope.

(** ** The decoder interface *)

(** [DecodeFunction] (corpc_io.h): a connection, the head buffer, the body
    buffer and the body size; the decoder may change the connection and the
    body buffer (it decrypts in place) and returns a task for the worker or
    null. *)
Abbreviation decode_fun Conn Task :=
  (Conn → bytes → bytes → Z → outcome (Conn * bytes * option Task)).

(** What the pipelines rely on: the outcome depends on the [headSize] bytes of
    the head and the [size] bytes of the body only, the body buffer keeps its
    length, and [is_error] is [isDecodeError()] of the connection. *)
Class Decoder {Conn Task : Type} (headSize : Z) (decodeFun : decode_fun Conn Task) : Type := {
  is_error : Conn → bool;
  decode_frame : Conn → bytes → bytes → outcome (Conn * option Task);
  decode_spec c head body size :
    zlen head = headSize → Forall is_byte head → Forall is_byte body →
    0 ≤ size ≤ zlen body →
    match decode_frame c head (ztake size body) with
    | Ok (c', t) => ∃ body', decodeFun c head body size = Ok (c', body', t) ∧
                     zlen body' = zlen body ∧ Forall is_byte body'
    | Fault f => decodeFun c head body size = Fault f
    end;
}.

(** The usual [decode_frame]: the decoder run on a body of just the right size. *)
Definition frame_of {Conn Task} (decodeFun : decode_fun Conn Task) (c : Conn) (head body : bytes)
    : outcome (Conn * option Task) :=
  match decodeFun c head body (zlen body) with
  | Ok (c', _, t) => Ok (c', t)
  | Fault f => Fault f
  end.

Inductive SIZE_TYPE : Type := TWO_BYTES | FOUR_BYTES.

(** ** The specification: cutting a byte list into frames *)
Module Frames.
Section frames.
Context {Conn Task : Type} (headSize_ maxBodySize_ : Z).
(** The size of the body announced by a head. *)
Context (field : bytes → Z).
Context (decodeFun_ : decode_fun Conn Task) `{!Decoder headSize_ decodeFun_}.

(** The frames so far are handled and the rest of the input is the beginning
    of a frame; or the connection has to be closed; or the decoder failed. *)
Inductive result : Type :=
  | Waiting (c : Conn) (ts : list Task) (rest : bytes)
  | Closed (c : Conn) (ts : list Task)
  | Crashed (f : fault).

Definition push (ts : list Task) (r : result) : result :=
  match r with
  | Waiting c ts' rest => Waiting c (ts ++ ts') rest
  | Closed c ts' => Closed c (ts ++ ts')
  | Crashed f => Crashed f
  end.

Fixpoint run_fuel (n : nat) (c : Conn) (bs : bytes) : result :=
  match n with
  | O => Crashed OutOfFuel
  | S n =>
    if bool_decide (zlen bs < headSize_) then Waiting c [] bs else
    let head := ztake headSize_ bs in
    if bool_decide (field head > maxBodySize_) then Closed c [] else
    if bool_decide (zlen bs < headSize_ + field head) then Waiting c [] bs else
    match decode_frame c head (slice headSize_ (field head) bs) with
    | Fault f => Crashed f
    | Ok (c, t) =>
      if is_error c then Closed c []
      else push (option_list t) (run_fuel n c (zdrop (headSize_ + field head) bs))
    end
  end.

Definition run (c : Conn) (bs : bytes) : result := run_fuel (S (length bs)) c bs.

Context (Hhead : 0 < headSize_) (Hfield : ∀ h, Forall is_byte h → 0 ≤ field h).

Lemma push_nil r : push [] r = r.
Proof. by destruct r. Qed.
Lemma push_push ts ts' r : push ts (push ts' r) = push (ts ++ ts') r.
Proof. destruct r; simpl; by rewrite <-?app_assoc. Qed.

Lemma zdrop_shorter (bs : bytes) k : 0 < k → bs ≠ [] → (length (zdrop k bs) < length bs)%nat.
Proof.
  intros ??. unfold zdrop. rewrite length_drop. destruct bs; [done|]. simpl. lia.
Qed.

Lemma run_fuel_enough n m c bs : Forall is_byte bs →
  (length bs < n)%nat → (length bs < m)%nat → run_fuel n c bs = run_fuel m c bs.
Proof.
  revert m c bs. induction n as [|n IH]; intros [|m] c bs Hb Hn Hm; try lia.
  simpl. case_bool_decide as Hlen; [done|]. do 2 (case_bool_decide; [done|]).
  destruct (decode_frame _ _ _) as [[c' t]|]; [|done]. destruct (is_error c'); [done|].
  f_equal. pose proof (Hfield (ztake headSize_ bs) ltac:(by apply Forall_take)).
  assert (length (zdrop (headSize_ + field (ztake headSize_ bs)) bs) < length bs)%nat.
  { apply zdrop_shorter; [lia|]. intros ->. apply Hlen. unfold zlen. simpl. lia. }
  apply IH; [by apply Forall_drop|lia..].
Qed.

(** The defining equation of [run]. *)
Lemma run_unfold c bs : Forall is_byte bs →
  run c bs =
    if bool_decide (zlen bs < headSize_) then Waiting c [] bs else
    let head := ztake headSize_ bs in
    if bool_decide (field head > maxBodySize_) then Closed c [] else
    if bool_decide (zlen bs < headSize_ + field head) then Waiting c [] bs else
    match decode_frame c head (slice headSize_ (field head) bs) with
    | Fault f => Crashed f
    | Ok (c, t) =>
      if is_error c then Closed c []
      else push (option_list t) (run c (zdrop (headSize_ + field head) bs))
    end.
Proof.
  intros Hb. unfold run at 1. cbn [run_fuel].
  case_bool_decide as Hlen; [done|]. cbv zeta. do 2 (case_bool_decide; [done|]).
  destruct (decode_frame _ _ _) as [[c' t]|]; [|done]. destruct (is_error c'); [done|].
  f_equal. pose proof (Hfield (ztake headSize_ bs) ltac:(by apply Forall_take)).
  apply run_fuel_enough; [by apply Forall_drop| |lia].
  apply zdrop_shorter; [lia|]. intros ->. apply Hlen. unfold zlen. simpl. lia.
Qed.

(** A complete frame at the front is decoded. *)
Lemma run_frame c c' head body rest t :
  zlen head = headSize_ → field head = zlen body → zlen body ≤ maxBodySize_ →
  Forall is_byte (head ++ body ++ rest) →
  decode_frame c head body = Ok (c', t) → is_error c' = false →
  run c (head ++ body ++ rest) = push (option_list t) (run c' rest).
Proof.
  intros Hl Hf Hm Hb Hd He. pose proof (zlen_nonneg body). pose proof (zlen_nonneg rest).
  rewrite run_unfold by done. rewrite bool_decide_false by (rewrite !zlen_app; lia). cbv zeta.
  rewrite ztake_app_l, ztake_ge by lia. rewrite Hf.
  rewrite bool_decide_false by lia. rewrite bool_decide_false by (rewrite !zlen_app; lia).
  rewrite slice_mid by done. rewrite Hd, He. f_equal. f_equal.
  by rewrite <-zdrop_zdrop, <-Hl, !zdrop_app_exact by lia.
Qed.

(** Parsing a longer input continues where parsing the prefix stopped. *)
Lemma run_app c a b : Forall is_byte a → Forall is_byte b →
  run c (a ++ b) =
    match run c a with
    | Waiting c' ts rest => push ts (run c' (rest ++ b))
    | r => r
    end.
Proof.
  intros Ha Hb. remember (length a) as n eqn:Hn. revert a c Ha Hn.
  induction (lt_wf n) as [n _ IH]. intros a c Ha ->.
  assert (Forall is_byte (a ++ b)) as Hab by (by apply Forall_app).
  rewrite (run_unfold c a Ha). case_bool_decide as Hlen; [by rewrite push_nil|]. cbv zeta.
  pose proof (Hfield (ztake headSize_ a) ltac:(by apply Forall_take)).
  pose proof (zlen_nonneg b).
  assert (ztake headSize_ (a ++ b) = ztake headSize_ a) as Htake by (apply ztake_app_l; lia).
  case_bool_decide as Hbig.
  { rewrite (run_unfold c (a ++ b) Hab), bool_decide_false by zlen. cbv zeta.
    by rewrite Htake, bool_decide_true. }
  case_bool_decide as Hshort; [by rewrite push_nil|].
  rewrite (run_unfold c (a ++ b) Hab), bool_decide_false by zlen. cbv zeta.
  rewrite Htake, bool_decide_false by done. rewrite bool_decide_false by zlen.
  set (m := field (ztake headSize_ a)) in *.
  assert (slice headSize_ m (a ++ b) = slice headSize_ m a) as ->.
  { unfold slice. rewrite zdrop_app_l, ztake_app_l by zlen. done. }
  destruct (decode_frame _ _ _) as [[c' t]|]; [|done]. destruct (is_error c'); [done|].
  rewrite zdrop_app_l by lia. rewrite (IH (length (zdrop (headSize_ + m) a))); [| |by apply Forall_drop|done].
  - destruct (run c' _); simpl; try done. by rewrite push_push.
  - apply zdrop_shorter; [lia|]. intros ->. apply Hlen. unfold zlen. simpl. lia.
Qed.
End frames.
Arguments result : clear implicits.
End Frames.

Module TcpPipeline.
Section tcp.
Context {Conn Task : Type} (e : endian).
(** The constant members of the pipeline. *)
Context (headSize_ maxBodySize_ bodySizeOffset_ : Z) (bodySizeType_ : SIZE_TYPE).
Context (decodeFun_ : decode_fun Conn Task) `{!Decoder headSize_ decodeFun_}.

(** The changing members, with the connection the pipeline belongs to and the
    queue of the worker it hands tasks to. *)
Record t : Type := Make {
  headBuf_ : bytes;
  headNum_ : Z;
  bodyBuf_ : bytes;
  bodySize_ : Z;
  bodyNum_ : Z;
  conn : Conn;
  tasks : list Task;
}.

(** corpc_io.cpp: the constructors. *)
Definition init (c : Conn) : t :=
  {| headBuf_ := zeros headSize_; headNum_ := 0;
     bodyBuf_ := zeros maxBodySize_; bodySize_ := 0; bodyNum_ := 0;
     conn := c; tasks := [] |}.

Definition set_head (s : t) (hb : bytes) (n : Z) : t :=
  {| headBuf_ := hb; headNum_ := n; bodyBuf_ := bodyBuf_ s; bodySize_ := bodySize_ s;
     bodyNum_ := bodyNum_ s; conn := conn s; tasks := tasks s |}.
Definition set_size (s : t) (n : Z) : t :=
  {| headBuf_ := headBuf_ s; headNum_ := headNum_ s; bodyBuf_ := bodyBuf_ s; bodySize_ := n;
     bodyNum_ := bodyNum_ s; conn := conn s; tasks := tasks s |}.
Definition set_body (s : t) (bb : bytes) (n : Z) : t :=
  {| headBuf_ := headBuf_ s; headNum_ := headNum_ s; bodyBuf_ := bb; bodySize_ := bodySize_ s;
     bodyNum_ := n; conn := conn s; tasks := tasks s |}.

(** How one round of the loop ends: on to the next round at an offset, out of
    the loop by [break], or out of the function. *)
Inductive next : Type :=
  | Continue (s : t) (offset : Z)
  | Break (s : t)
  | Return (s : t) (r : bool).

(** corpc_io.cpp: parsing the head; [None] for the offset is the
    [break] of the incomplete case. *)
Definition parse_head (buf : bytes) (size : Z) (s : t) (offset : Z) : outcome (t * option Z) :=
  if bool_decide (headNum_ s < headSize_) then
    let needNum := i32 (u32 (headSize_ - headNum_ s)) in
    if bool_decide (size - offset >= needNum) then
      hb ← memcpy (headBuf_ s) (headNum_ s) buf offset needNum;
      Ok (set_head s hb headSize_, Some (offset + needNum))
    else
      hb ← memcpy (headBuf_ s) (headNum_ s) buf offset (size - offset);
      Ok (set_head s hb (u32 (headNum_ s + (size - offset))), None)
  else Ok (s, Some offset).

(** corpc_io.cpp: the body size field of the head. *)
Definition body_size (head : bytes) : outcome Z :=
  match bodySizeType_ with
  | TWO_BYTES => get_be16 e head bodySizeOffset_
  | FOUR_BYTES => get_be32 e head bodySizeOffset_
  end.

(** corpc_io.cpp: reading the size of the body when it is not known
    yet; [false] when the body is too large. *)
Definition parse_size (s : t) : outcome (t * bool) :=
  if bool_decide (bodySize_ s = 0) then
    n ← body_size (headBuf_ s);
    let s := set_size s n in
    Ok (s, negb (bool_decide (bodySize_ s > maxBodySize_)))
  else Ok (s, true).

(** corpc_io.cpp: parsing the body. *)
Definition parse_body (buf : bytes) (size : Z) (s : t) (offset : Z) : outcome (t * option Z) :=
  if bool_decide (bodyNum_ s < bodySize_ s) then
    let needNum := i32 (u32 (bodySize_ s - bodyNum_ s)) in
    if bool_decide (size - offset >= needNum) then
      bb ← memcpy (bodyBuf_ s) (bodyNum_ s) buf offset needNum;
      Ok (set_body s bb (bodySize_ s), Some (offset + needNum))
    else
      bb ← memcpy (bodyBuf_ s) (bodyNum_ s) buf offset (size - offset);
      Ok (set_body s bb (u32 (bodyNum_ s + (size - offset))), None)
  else Ok (s, Some offset).

(** corpc_io.cpp: decoding a complete frame and resetting the state. *)
Definition deliver (s : t) (offset : Z) : outcome next :=
  '(c, bb, task) ← decodeFun_ (conn s) (headBuf_ s) (bodyBuf_ s) (i32 (bodySize_ s));
  let s := {| headBuf_ := headBuf_ s; headNum_ := headNum_ s; bodyBuf_ := bb;
              bodySize_ := bodySize_ s; bodyNum_ := bodyNum_ s; conn := c;
              tasks := tasks s |} in
  if is_error c then Ok (Return s false) else
  Ok (Continue
    {| headBuf_ := headBuf_ s; headNum_ := 0; bodyBuf_ := bb; bodySize_ := 0;
       bodyNum_ := 0; conn := c;
       tasks := match task with Some t => tasks s ++ [t] | None => tasks s end |}
    offset).

(** corpc_io.cpp: one round of [while (size > offset)]. *)
Definition upflow_round (buf : bytes) (size : Z) (s : t) (offset : Z) : outcome next :=
  '(s, r) ← parse_head buf size s offset;
  match r with
  | None => Ok (Break s)
  | Some offset =>
    '(s, fits) ← parse_size s;
    if negb fits then Ok (Return s false) else
    '(s, r) ← parse_body buf size s offset;
    match r with
    | None => Ok (Break s)
    | Some offset => deliver s offset
    end
  end.

Fixpoint upflow_loop (fuel : nat) (buf : bytes) (size : Z) (s : t) (offset : Z)
    : outcome (t * bool) :=
  if bool_decide (size > offset) then
    match fuel with
    | O => Fault OutOfFuel
    | S fuel =>
      r ← upflow_round buf size s offset;
      match r with
      | Continue s offset => upflow_loop fuel buf size s offset
      | Break s => Ok (s, true)
      | Return s b => Ok (s, b)
      end
    end
  else Ok (s, true).

(** corpc_io.cpp *)
Definition upflow (buf : bytes) (size : Z) (s : t) : outcome (t * bool) :=
  upflow_loop (Z.to_nat size) buf size s 0.
End tcp.
Arguments t : clear implicits.
Arguments next : clear implicits.

(** ** [upflow] refines [Frames.run] *)
Section refine.
Context {Conn Task : Type} (e : endian).
Context (headSize_ maxBodySize_ bodySizeOffset_ : Z) (bodySizeType_ : SIZE_TYPE).
Context (decodeFun_ : decode_fun Conn Task) `{!Decoder headSize_ decodeFun_}.

Definition size_width : Z := match bodySizeType_ with TWO_BYTES => 2 | FOUR_BYTES => 4 end.

(** The body size announced by a head. *)
Definition field (head : bytes) : Z := be_val (slice bodySizeOffset_ size_width head).

(** A pipeline is built with sizes that make sense: the size field lies in
    the head, and heads and bodies are far from the limits of [int]. *)
Definition config_ok : Prop :=
  0 < headSize_ < 2^30 ∧ 0 ≤ maxBodySize_ < 2^30 ∧
  0 ≤ bodySizeOffset_ ∧ bodySizeOffset_ + size_width ≤ headSize_.
Context (Hcfg : config_ok).

Abbreviation tcp := (t Conn Task).
Abbreviation upflow_round' := (upflow_round e headSize_ maxBodySize_ bodySizeOffset_ bodySizeType_ decodeFun_).

(** The bytes of the frame being received. *)
Definition pending (s : tcp) : bytes :=
  ztake (headNum_ s) (headBuf_ s) ++ ztake (bodyNum_ s) (bodyBuf_ s).

Record bufs_ok (s : tcp) : Prop := {
  head_len : zlen (headBuf_ s) = headSize_;
  body_len : zlen (bodyBuf_ s) = maxBodySize_;
  head_bytes : Forall is_byte (headBuf_ s);
  body_bytes : Forall is_byte (bodyBuf_ s);
}.

(** The invariant between calls: an incomplete head, or a complete head with
    an incomplete body of the announced size. *)
Definition wf (s : tcp) : Prop :=
  bufs_ok s ∧
  ((0 ≤ headNum_ s < headSize_ ∧ bodySize_ s = 0 ∧ bodyNum_ s = 0) ∨
   (headNum_ s = headSize_ ∧ bodySize_ s = field (headBuf_ s) ∧
    0 ≤ bodyNum_ s < bodySize_ s ∧ bodySize_ s ≤ maxBodySize_)).

(** Within a round: the head is complete. *)
Definition mid (s : tcp) : Prop :=
  bufs_ok s ∧ headNum_ s = headSize_ ∧
  ((bodySize_ s = 0 ∧ bodyNum_ s = 0) ∨
   (bodySize_ s = field (headBuf_ s) ∧ 0 ≤ bodyNum_ s < bodySize_ s ∧ bodySize_ s ≤ maxBodySize_)).

Lemma width_pos : 0 < size_width.
Proof. unfold size_width. destruct bodySizeType_; lia. Qed.

Lemma head_pos : 0 < headSize_.
Proof. unfold config_ok in Hcfg. lia. Qed.

Lemma field_nonneg h : Forall is_byte h → 0 ≤ field h.
Proof. intros. unfold field. apply be_val_range. by apply Forall_slice. Qed.

Lemma body_size_ok h : zlen h = headSize_ → Forall is_byte h →
  body_size e bodySizeOffset_ bodySizeType_ h = Ok (field h).
Proof.
  intros Hl Hb. destruct Hcfg as (?&?&?&Hw). unfold body_size, field, size_width in *.
  destruct bodySizeType_; [apply get_be16_ok|apply get_be32_ok]; lia || done.
Qed.

Abbreviation run := (Frames.run headSize_ maxBodySize_ field decodeFun_).

Lemma wf_bytes s : wf s → Forall is_byte (pending s).
Proof. intros [[] _]. apply Forall_app. split; by apply Forall_take. Qed.

(** With nothing more to read the specification waits. *)
Lemma wf_waiting s : wf s → run (conn s) (pending s) = Frames.Waiting (conn s) [] (pending s).
Proof.
  intros Hwf. pose proof Hwf as [[Hhl Hbl Hhb Hbb] Hc]. destruct Hcfg as (?&?&?&?).
  rewrite (Frames.run_unfold headSize_ maxBodySize_ field decodeFun_ head_pos field_nonneg _ _ (wf_bytes s Hwf)).
  unfold pending. destruct Hc as [(Hn & Hbs & Hbn)|(Hn & Hbs & Hbn & Hbm)].
  - rewrite bool_decide_true; [done|]. rewrite Hbn, (ztake_0 (bodyBuf_ s)) by lia. zlen.
  - rewrite Hn, (ztake_ge headSize_ (headBuf_ s)) by lia.
    rewrite bool_decide_false by zlen. cbv zeta.
    rewrite ztake_app_l, (ztake_ge headSize_ (headBuf_ s)) by lia.
    rewrite bool_decide_false by lia. rewrite bool_decide_true; [done|].
    rewrite zlen_app, zlen_ztake. lia.
Qed.

Context (buf : bytes) (size : Z).
Context (Hbuf : Forall is_byte buf) (Hsize : 0 ≤ size ≤ zlen buf) (Hint : size < 2^31).

(** The part of the input not consumed yet. *)
Definition input (offset : Z) : bytes := slice offset (size - offset) buf.

Lemma input_len offset : 0 ≤ offset ≤ size → zlen (input offset) = size - offset.
Proof. intros. unfold input. apply zlen_slice; lia. Qed.

Lemma input_split offset n : 0 ≤ offset → 0 ≤ n → offset + n ≤ size →
  input offset = slice offset n buf ++ input (offset + n).
Proof.
  intros. unfold input. rewrite <-slice_app_ztake by lia. f_equal. lia.
Qed.

(** Copying the missing [need] bytes of a field, or all that is left. *)
Lemma fill_more dst k need offset :
  0 ≤ k → 0 ≤ need → k + need ≤ zlen dst → Forall is_byte dst →
  0 ≤ offset → offset + need ≤ size →
  ∃ dst', memcpy dst k buf offset need = Ok dst' ∧ zlen dst' = zlen dst ∧
    Forall is_byte dst' ∧ ztake (k + need) dst' = ztake k dst ++ slice offset need buf.
Proof.
  intros. eexists. split; [apply memcpy_ok; lia|].
  match goal with |- zlen ?d = _ ∧ _ =>
    assert (memcpy dst k buf offset need = Ok d) as E by (apply memcpy_ok; lia) end.
  split_and!; [by eapply memcpy_length|by eapply memcpy_Forall|by eapply memcpy_fill].
Qed.

Ltac small := rewrite ?(u32_small), ?(i32_small) by lia.

Lemma parse_head_short s offset : wf s → 0 ≤ offset < size →
  zlen (pending s ++ input offset) < headSize_ →
  ∃ s', parse_head headSize_ buf size s offset = Ok (s', None) ∧
    wf s' ∧ pending s' = pending s ++ input offset ∧ conn s' = conn s ∧ tasks s' = tasks s.
Proof.
  intros [[Hhl Hbl Hhb Hbb] Hc] Ho Hlt. destruct Hcfg as (?&?&?&?).
  unfold pending in Hlt. pose proof (input_len offset ltac:(lia)) as Hil.
  destruct Hc as [(Hn & Hbs & Hbn)|(Hn & _ & Hbn & _)].
  2: { rewrite Hn, (ztake_ge headSize_) in Hlt by lia. zlen. }
  rewrite Hbn, (ztake_0 (bodyBuf_ s)), app_nil_r in Hlt by lia.
  rewrite zlen_app, zlen_ztake in Hlt.
  unfold parse_head. rewrite bool_decide_true by lia. cbv zeta. small.
  rewrite bool_decide_false by lia.
  destruct (fill_more (headBuf_ s) (headNum_ s) (size - offset) offset)
    as (hb & -> & Hl & Hb & Hf); [lia..|done|lia|lia|]. simpl.
  eexists. split; [done|]. unfold wf, pending. simpl.
  split_and!; [constructor; simpl; congruence|left; lia| |done..].
  rewrite Hbn, !(ztake_0 (bodyBuf_ s)), !app_nil_r by lia. apply Hf.
Qed.

Lemma parse_head_full s offset : wf s → 0 ≤ offset < size →
  headSize_ ≤ zlen (pending s ++ input offset) →
  ∃ s' offset', parse_head headSize_ buf size s offset = Ok (s', Some offset') ∧
    mid s' ∧ offset ≤ offset' ≤ size ∧ (offset' = offset → bodyNum_ s' < bodySize_ s') ∧
    headBuf_ s' ++ ztake (bodyNum_ s') (bodyBuf_ s') ++ input offset' = pending s ++ input offset ∧
    conn s' = conn s ∧ tasks s' = tasks s.
Proof.
  intros [[Hhl Hbl Hhb Hbb] Hc] Ho Hle. destruct Hcfg as (?&?&?&?).
  unfold pending in *. pose proof (input_len offset ltac:(lia)) as Hil.
  unfold parse_head. destruct Hc as [(Hn & Hbs & Hbn)|(Hn & Hbs & Hbn & Hbm)].
  - rewrite Hbn, (ztake_0 (bodyBuf_ s)), app_nil_r in * by lia.
    rewrite zlen_app, zlen_ztake in Hle.
    rewrite bool_decide_true by lia. cbv zeta. small. rewrite bool_decide_true by lia.
    destruct (fill_more (headBuf_ s) (headNum_ s) (headSize_ - headNum_ s) offset)
      as (hb & -> & Hl & Hb & Hf); [lia..|done|lia|lia|]. simpl.
    eexists _, _. split; [done|]. unfold mid. simpl. rewrite Hbn, Hbs.
    split_and!; [constructor; simpl; congruence|done|by left|lia|lia|lia| |done..].
    rewrite (ztake_0 (bodyBuf_ s)) by lia. simpl.
    rewrite (input_split offset (headSize_ - headNum_ s)) by lia.
    rewrite app_assoc, <-Hf. f_equal. symmetry. apply ztake_ge. lia.
  - rewrite bool_decide_false by lia. exists s, offset. split; [done|]. unfold mid.
    split_and!; [by constructor|done|right; lia|lia|lia|lia| |done..].
    rewrite Hn, (ztake_ge headSize_ (headBuf_ s)) by lia. by rewrite app_assoc.
Qed.

Lemma parse_size_ok s : mid s →
  parse_size e maxBodySize_ bodySizeOffset_ bodySizeType_ s
  = Ok (set_size s (field (headBuf_ s)), negb (bool_decide (field (headBuf_ s) > maxBodySize_))).
Proof.
  intros ([Hhl Hbl Hhb Hbb] & Hn & Hc). unfold parse_size. case_bool_decide as Hz.
  - rewrite body_size_ok by done. done.
  - destruct Hc as [[? ?]|(Hs & ? & ?)]; [done|].
    rewrite bool_decide_false by lia. rewrite <-Hs. by destruct s.
Qed.

Lemma parse_body_short s offset : mid s → 0 ≤ offset ≤ size →
  field (headBuf_ s) ≤ maxBodySize_ →
  let total := headBuf_ s ++ ztake (bodyNum_ s) (bodyBuf_ s) ++ input offset in
  zlen total < headSize_ + field (headBuf_ s) →
  ∃ s', parse_body buf size (set_size s (field (headBuf_ s))) offset = Ok (s', None) ∧
    wf s' ∧ pending s' = total ∧ conn s' = conn s ∧ tasks s' = tasks s.
Proof.
  intros ([Hhl Hbl Hhb Hbb] & Hn & Hc) Ho Hmax total Hlt. destruct Hcfg as (?&?&?&?).
  pose proof (input_len offset ltac:(lia)) as Hil. subst total.
  rewrite !zlen_app, zlen_ztake in Hlt. unfold parse_body. simpl.
  rewrite bool_decide_true by lia. small. rewrite bool_decide_false by lia.
  destruct (fill_more (bodyBuf_ s) (bodyNum_ s) (size - offset) offset)
    as (bb & -> & Hl & Hb & Hf); [lia..|done|lia|lia|]. simpl.
  eexists. split; [done|]. unfold wf, pending. simpl. rewrite Hf.
  split_and!; [constructor; simpl; congruence|right; lia| |done..].
  f_equal. apply ztake_ge. lia.
Qed.

Lemma parse_body_full s offset : mid s → 0 ≤ offset ≤ size →
  field (headBuf_ s) ≤ maxBodySize_ →
  let total := headBuf_ s ++ ztake (bodyNum_ s) (bodyBuf_ s) ++ input offset in
  headSize_ + field (headBuf_ s) ≤ zlen total →
  ∃ s' offset', parse_body buf size (set_size s (field (headBuf_ s))) offset = Ok (s', Some offset') ∧
    bufs_ok s' ∧ headBuf_ s' = headBuf_ s ∧ bodySize_ s' = field (headBuf_ s) ∧
    ztake (bodySize_ s') (bodyBuf_ s') = slice headSize_ (bodySize_ s') total ∧
    input offset' = zdrop (headSize_ + bodySize_ s') total ∧
    offset ≤ offset' ≤ size ∧ (bodyNum_ s < bodySize_ s → offset < offset') ∧
    conn s' = conn s ∧ tasks s' = tasks s.
Proof.
  intros ([Hhl Hbl Hhb Hbb] & Hn & Hc) Ho Hmax total Hle. destruct Hcfg as (?&?&?&?).
  pose proof (input_len offset ltac:(lia)) as Hil.
  pose proof (field_nonneg _ Hhb) as Hm. subst total.
  rewrite !zlen_app, zlen_ztake in Hle. unfold parse_body. simpl.
  case_bool_decide as Hmore.
  - small. rewrite bool_decide_true by lia. set (m := field (headBuf_ s)) in *.
    destruct (fill_more (bodyBuf_ s) (bodyNum_ s) (m - bodyNum_ s) offset)
      as (bb & -> & Hl & Hb & Hf); [lia..|done|lia|lia|]. simpl.
    replace (bodyNum_ s + (m - bodyNum_ s)) with m in Hf by lia.
    rewrite (input_split offset (m - bodyNum_ s)), (app_assoc (ztake _ _)), <-Hf by lia.
    assert (zlen (ztake m bb) = m) as Hlm by (rewrite zlen_ztake; lia).
    eexists _, _. split; [done|]. simpl.
    split_and!; [constructor; simpl; congruence|done|done| | |lia|lia|lia|done..].
    + unfold slice. rewrite <-Hhl, zdrop_app_exact. rewrite <-Hlm at 2.
      by rewrite ztake_app_exact.
    + rewrite app_assoc, zdrop_app_r, zlen_app, Hhl, Hlm by (rewrite zlen_app; lia).
      by rewrite zdrop_0 by lia.
  - destruct Hc as [[Hz Hz']|(Hs & ? & ?)]; [|lia].
    assert (field (headBuf_ s) = 0) as Hz2 by lia.
    exists (set_size s (field (headBuf_ s))), offset. split; [done|]. simpl.
    rewrite Hz', Hz2, !(ztake_0 (bodyBuf_ s)), slice_0 by lia. simpl.
    split_and!; [by constructor|done|done|done| |lia|lia|lia|done..].
    rewrite Z.add_0_r, <-Hhl. by rewrite zdrop_app_exact.
Qed.

(** One round handles one frame of the specification. *)
Lemma round_refines s offset : wf s → 0 ≤ offset < size →
  let total := pending s ++ input offset in
  (∃ s', upflow_round' buf size s offset = Ok (Break s') ∧ wf s' ∧
     run (conn s) total = Frames.Waiting (conn s') [] (pending s') ∧ tasks s' = tasks s) ∨
  (∃ s', upflow_round' buf size s offset = Ok (Return s' false) ∧
     run (conn s) total = Frames.Closed (conn s') [] ∧ tasks s' = tasks s) ∨
  (∃ f, upflow_round' buf size s offset = Fault f ∧ run (conn s) total = Frames.Crashed f) ∨
  (∃ s' offset' task, upflow_round' buf size s offset = Ok (Continue s' offset') ∧ wf s' ∧
     pending s' = [] ∧ offset < offset' ≤ size ∧ tasks s' = tasks s ++ option_list task ∧
     run (conn s) total = Frames.push (option_list task) (run (conn s') (input offset'))).
Proof.
  intros Hwf Ho total. pose proof Hcfg as (?&?&?&?).
  assert (Forall is_byte total) as Htb.
  { pose proof Hwf as [[] _]. apply Forall_app. split; [|by apply Forall_slice].
    apply Forall_app. split; by apply Forall_take. }
  rewrite (Frames.run_unfold headSize_ maxBodySize_ field decodeFun_ head_pos field_nonneg _ _ Htb).
  unfold upflow_round. case_bool_decide as Hshort.
  { destruct (parse_head_short s offset) as (s' & -> & ? & Hp & Hc & Ht); [done..|].
    left. exists s'. simpl. rewrite Hp, Hc, Ht. done. }
  destruct (parse_head_full s offset) as (s1 & o1 & -> & Hmid & Ho1 & Hprog & Htot & Hc1 & Ht1);
    [done|done|fold total; lia|]. simpl. cbv zeta.
  rewrite (parse_size_ok s1 Hmid). simpl. rewrite negb_involutive.
  pose proof Hmid as ([Hhl Hbl Hhb Hbb] & Hn1 & Hs1).
  assert (ztake headSize_ total = headBuf_ s1) as ->.
  { unfold total. rewrite <-Htot, <-Hhl. apply ztake_app_exact. }
  case_bool_decide as Hbig.
  { right; left. eexists. split; [done|]. simpl. by rewrite Hc1, Ht1. }
  case_bool_decide as Hinc.
  { destruct (parse_body_short s1 o1) as (s' & -> & ? & Hp & Hc & Ht);
      [done|lia|lia|by rewrite Htot|].
    left. exists s'. simpl. rewrite Hp, Hc, Ht, Hc1, Ht1, Htot. done. }
  destruct (parse_body_full s1 o1) as (s2 & o2 & -> & Hok & Hh2 & Hbs & Hbody & Hin & Ho2 & Hp2 & Hc2 & Ht2);
    [done|lia|lia|rewrite Htot; fold total; lia|]. simpl.
  rewrite Htot in *. fold total in Hbody, Hin. destruct Hok as [Hhl2 Hbl2 Hhb2 Hbb2].
  pose proof (field_nonneg _ Hhb) as Hm. unfold deliver.
  pose proof (decode_spec (conn s2) (headBuf_ s2) (bodyBuf_ s2) (bodySize_ s2)
    Hhl2 Hhb2 Hbb2 ltac:(lia)) as Hdec.
  rewrite Hbody, Hh2, Hc2, Hc1, Hbs in Hdec. rewrite Hh2, Hc2, Hc1, Hbs, i32_small by lia.
  destruct (decode_frame _ _ _) as [[c' task]|f].
  2: { right; right; left. exists f. by rewrite Hdec. }
  destruct Hdec as (bb & -> & Hbbl & Hbbb). simpl. destruct (is_error c').
  { right; left. eexists. split; [done|]. simpl. by rewrite Ht2, Ht1. }
  right; right; right. exists (Make (headBuf_ s1) 0 bb 0 0 c' (tasks s ++ option_list task)), o2, task.
  simpl. rewrite Hin, Hbs. split_and!; try done.
  - do 3 f_equal. rewrite Ht2, Ht1. destruct task; by rewrite ?app_nil_r.
  - split; [constructor; simpl; done || congruence|left; simpl; lia].
  - destruct (decide (o1 = offset)); [|lia]. pose proof (Hp2 ltac:(lia)). lia.
  - lia.
Qed.

(** The outcome of a call, as the specification describes it. *)
Definition refines (s : tcp) (o : outcome (tcp * bool)) (r : Frames.result Conn Task) : Prop :=
  match r with
  | Frames.Waiting c ts rest =>
      ∃ s', o = Ok (s', true) ∧ wf s' ∧ conn s' = c ∧ tasks s' = tasks s ++ ts ∧ pending s' = rest
  | Frames.Closed c ts => ∃ s', o = Ok (s', false) ∧ conn s' = c ∧ tasks s' = tasks s ++ ts
  | Frames.Crashed f => o = Fault f
  end.

Lemma loop_refines fuel s offset : wf s → 0 ≤ offset ≤ size →
  (Z.to_nat (size - offset) ≤ fuel)%nat →
  refines s (upflow_loop e headSize_ maxBodySize_ bodySizeOffset_ bodySizeType_ decodeFun_
               fuel buf size s offset)
    (run (conn s) (pending s ++ input offset)).
Proof.
  revert s offset. induction fuel as [|fuel IH]; intros s offset Hwf Ho Hfuel.
  - assert (offset = size) as -> by lia. simpl. rewrite bool_decide_false by lia.
    unfold input. rewrite Z.sub_diag, slice_0, app_nil_r, wf_waiting by done.
    exists s. by rewrite app_nil_r.
  - cbn [upflow_loop]. case_bool_decide as Hlt.
    2: { assert (offset = size) as -> by lia.
         unfold input. rewrite Z.sub_diag, slice_0, app_nil_r, wf_waiting by done.
         exists s. by rewrite app_nil_r. }
    destruct (round_refines s offset Hwf ltac:(lia))
      as [(s' & -> & Hwf' & -> & Ht)|[(s' & -> & -> & Ht)|[(f & -> & ->)|
          (s' & o' & task & -> & Hwf' & Hp & Ho' & Ht & ->)]]]; simpl.
    + exists s'. by rewrite Ht, app_nil_r.
    + exists s'. by rewrite Ht, app_nil_r.
    + done.
    + specialize (IH s' o' Hwf' ltac:(lia) ltac:(lia)). rewrite Hp in IH. simpl in IH.
      destruct (run (conn s') (input o')) as [c ts rest|c ts|f]; simpl in *; [| |done];
        rewrite Ht, <-app_assoc in IH; done.
Qed.

(** A call handles the received bytes as the continuation of the pending
    ones. *)
Lemma upflow_refines s : wf s →
  refines s (upflow e headSize_ maxBodySize_ bodySizeOffset_ bodySizeType_ decodeFun_ buf size s)
    (run (conn s) (pending s ++ ztake size buf)).
Proof.
  intros Hwf. pose proof (loop_refines (Z.to_nat size) s 0 Hwf ltac:(lia) ltac:(lia)) as H.
  unfold input in H. by rewrite Z.sub_0_r in H.
Qed.
End refine.

(** ** A whole stream *)
Section stream.
Context {Conn Task : Type} (e : endian).
Context (headSize_ maxBodySize_ bodySizeOffset_ : Z) (bodySizeType_ : SIZE_TYPE).
Context (decodeFun_ : decode_fun Conn Task) `{!Decoder headSize_ decodeFun_}.

Abbreviation upflow' := (upflow e headSize_ maxBodySize_ bodySizeOffset_ bodySizeType_ decodeFun_).
Abbreviation field' := (field bodySizeOffset_ bodySizeType_).
Abbreviation run' := (Frames.run headSize_ maxBodySize_ field' decodeFun_).

(** The calls made by [Receiver::connectionRoutine] for the chunks it reads,
    until one of them returns [false]. *)
Fixpoint feed (s : t Conn Task) (chunks : list bytes) : outcome (t Conn Task * bool) :=
  match chunks with
  | [] => Ok (s, true)
  | c :: chunks =>
    '(s, r) ← upflow' c (zlen c) s;
    if r : bool then feed s chunks else Ok (s, false)
  end.

Abbreviation wf' := (wf headSize_ maxBodySize_ bodySizeOffset_ bodySizeType_).
Abbreviation refines' := (refines headSize_ maxBodySize_ bodySizeOffset_ bodySizeType_).

Lemma init_wf c : config_ok headSize_ maxBodySize_ bodySizeOffset_ bodySizeType_ →
  wf' (init headSize_ maxBodySize_ c : t Conn Task).
Proof.
  intros (?&?&?&?). split; [|left; simpl; lia].
  constructor; simpl; auto using zlen_zeros with lia.
Qed.

Lemma feed_refines s chunks :
  config_ok headSize_ maxBodySize_ bodySizeOffset_ bodySizeType_ →
  wf' s → Forall (Forall is_byte) chunks → Forall (λ c, zlen c < 2^31) chunks →
  refines' s (feed s chunks) (run' (conn s) (pending s ++ concat chunks)).
Proof.
  intros Hcfg Hwf Hb Hl. revert s Hwf Hb Hl.
  induction chunks as [|c chunks IH]; intros s Hwf Hb Hl.
  { simpl. rewrite app_nil_r. rewrite (wf_waiting headSize_ maxBodySize_ bodySizeOffset_ bodySizeType_ decodeFun_ Hcfg s Hwf). exists s. by rewrite app_nil_r. }
  apply Forall_cons in Hb as [Hc Hb]. apply Forall_cons in Hl as [Hcl Hl].
  pose proof (zlen_nonneg c).
  pose proof (upflow_refines e headSize_ maxBodySize_ bodySizeOffset_ bodySizeType_ decodeFun_
    Hcfg c (zlen c) Hc ltac:(lia) Hcl s Hwf) as Hup.
  rewrite (ztake_ge (zlen c)) in Hup by lia. simpl. rewrite app_assoc.
  rewrite (Frames.run_app headSize_ maxBodySize_ field' decodeFun_
    (head_pos _ _ _ _ Hcfg) (field_nonneg _ _)).
  2: { apply Forall_app. split; [|done]. by eapply wf_bytes. }
  2: { by apply Forall_concat. }
  destruct (run' (conn s) (pending s ++ c)) as [c' ts rest|c' ts|f]; simpl in Hup.
  - destruct Hup as (s' & -> & Hwf' & <- & Ht & <-). simpl.
    specialize (IH s' Hwf' Hb Hl).
    destruct (run' (conn s') (pending s' ++ concat chunks)); simpl in *;
      rewrite ?Ht, <-?app_assoc in IH; done.
  - destruct Hup as (s' & -> & <- & Ht). simpl. exists s'. by rewrite Ht.
  - by rewrite Hup.
Qed.

(** What can be observed of a call: the connection, the tasks handed to the
    worker, whether the stream is still accepted and what is pending. *)
Definition observe (o : outcome (t Conn Task * bool)) : outcome (Conn * list Task * option bytes) :=
  '(s, r) ← o; Ok (conn s, tasks s, if r : bool then Some (pending s) else None).

Lemma refines_observe s o1 o2 r : refines' s o1 r → refines' s o2 r → observe o1 = observe o2.
Proof.
  destruct r; simpl.
  - intros (s1 & -> & _ & Hc1 & Ht1 & Hp1) (s2 & -> & _ & Hc2 & Ht2 & Hp2).
    unfold observe. simpl. congruence.
  - intros (s1 & -> & Hc1 & Ht1) (s2 & -> & Hc2 & Ht2). unfold observe. simpl. congruence.
  - by intros -> ->.
Qed.

(** The specification fails only where the decoder fails. *)
Lemma run_crashed c bs f :
  config_ok headSize_ maxBodySize_ bodySizeOffset_ bodySizeType_ → Forall is_byte bs →
  run' c bs = Frames.Crashed f →
  ∃ c' head body, decode_frame c' head body = Fault f.
Proof.
  intros Hcfg Hb. remember (length bs) as n eqn:Hn. revert c bs Hb Hn.
  induction (lt_wf n) as [n _ IH]. intros c bs Hb ->.
  rewrite (Frames.run_unfold _ _ field' _ (head_pos _ _ _ _ Hcfg) (field_nonneg _ _) _ _ Hb).
  case_bool_decide as Hlen; [done|]. cbv zeta. do 2 (case_bool_decide; [done|]).
  destruct (decode_frame c _ _) as [[c' task]|f'] eqn:E; [|intros [= ->]; eauto].
  destruct (is_error c'); [done|].
  destruct (run' c' _) eqn:Er; simpl; try done. intros [= ->].
  eapply IH; [|by apply Forall_drop|reflexivity|exact Er].
  pose proof (head_pos _ _ _ _ Hcfg).
  pose proof (field_nonneg bodySizeOffset_ bodySizeType_ (ztake headSize_ bs) ltac:(by apply Forall_take)).
  apply Frames.zdrop_shorter; [lia|]. intros ->. apply Hlen. unfold zlen. simpl. lia.
Qed.

(** C2 (upflow_stream). [TcpPipeline::upflow] refines the frame
    specification: after any sequence of reads, the frames of the
    concatenation of the chunks have been decoded in order, the tasks handed
    to the worker are theirs, an incomplete frame is kept for the next read,
    an oversized body or a decode error makes the call return [false], and the
    only failures are the decoder's. *)
Theorem upflow_stream c chunks :
  config_ok headSize_ maxBodySize_ bodySizeOffset_ bodySizeType_ →
  Forall (Forall is_byte) chunks → Forall (λ c, zlen c < 2^31) chunks →
  refines' (init headSize_ maxBodySize_ c)
    (feed (init headSize_ maxBodySize_ c) chunks) (run' c (concat chunks)).
Proof.
  intros Hcfg Hb Hl. exact (feed_refines _ chunks Hcfg (init_wf c Hcfg) Hb Hl).
Qed.

(** The way a stream is cut into reads does not matter:
    two sequences of chunks with the same concatenation leave the same
    connection, tasks, pending bytes and verdict. *)
Theorem upflow_chunking c chunks1 chunks2 :
  config_ok headSize_ maxBodySize_ bodySizeOffset_ bodySizeType_ →
  Forall (Forall is_byte) chunks1 → Forall (λ c, zlen c < 2^31) chunks1 →
  Forall (Forall is_byte) chunks2 → Forall (λ c, zlen c < 2^31) chunks2 →
  concat chunks1 = concat chunks2 →
  observe (feed (init headSize_ maxBodySize_ c) chunks1)
  = observe (feed (init headSize_ maxBodySize_ c) chunks2).
Proof.
  intros Hcfg Hb1 Hl1 Hb2 Hl2 Heq. pose proof (init_wf c Hcfg) as Hwf.
  eapply refines_observe; [by apply feed_refines|]. rewrite Heq. by apply feed_refines.
Qed.

(** No read or write of [TcpPipeline::upflow] leaves its
    buffer and its loop terminates: with a decoder that does not fail, every
    sequence of reads is handled. *)
Theorem upflow_safe c chunks :
  config_ok headSize_ maxBodySize_ bodySizeOffset_ bodySizeType_ →
  (∀ c head body, is_ok (decode_frame c head body)) →
  Forall (Forall is_byte) chunks → Forall (λ c, zlen c < 2^31) chunks →
  is_ok (feed (init headSize_ maxBodySize_ c) chunks).
Proof.
  intros Hcfg Hdec Hb Hl.
  pose proof (feed_refines _ chunks Hcfg (init_wf c Hcfg) Hb Hl) as H.
  destruct (run' _ _) as [c' ts rest|c' ts|f] eqn:E; simpl in H.
  - destruct H as (s' & -> & _). by eexists.
  - destruct H as (s' & -> & _). by eexists.
  - apply run_crashed in E as (c' & head & body & E); [|done|].
    + destruct (Hdec c' head body) as [x Hx]. congruence.
    + apply Forall_app. split; [by eapply wf_bytes, init_wf|by apply Forall_concat].
Qed.
End stream.

(** A decoder that hands every body to the worker and refuses bodies that start
    with the byte 255, for the examples. *)
Module Echo.
Definition decode (c : bool) (head body : bytes) (size : Z) : outcome (bool * bytes * option bytes) :=
  Ok (c || bool_decide (ztake size body !! 0%nat = Some 255), body, Some (ztake size body)).

#[global] Program Instance decoder n : Decoder n decode := {|
  is_error c := c;
  decode_frame c _ body := Ok (c || bool_decide (body !! 0%nat = Some 255), Some body);
|}.
Next Obligation. intros n c h body size _ _ Hb _. simpl. exists body. done. Qed.

Definition stream1 : list bytes := [[0; 3; 7; 8]; [9; 0; 0; 0]; [1]; [5]].
Definition stream2 : list bytes := [[0; 3]; [7; 8; 9; 0; 0; 0; 1; 5]].
End Echo.

Lemma upflow_stream_witness :
  refines 2 100 0 TWO_BYTES (init 2 100 false)
    (feed LittleEndian 2 100 0 TWO_BYTES Echo.decode (init 2 100 false) Echo.stream1)
    (Frames.Waiting false [[7; 8; 9]; []; [5]] []).
Proof.
  assert (Frames.run 2 100 (field 0 TWO_BYTES) Echo.decode false (concat Echo.stream1)
    = Frames.Waiting false [[7; 8; 9]; []; [5]] []) as <- by (vm_compute; reflexivity).
  apply (upflow_stream LittleEndian 2 100 0 TWO_BYTES Echo.decode false Echo.stream1).
  - unfold config_ok. simpl. lia.
  - by apply (bool_decide_unpack _).
  - by apply (bool_decide_unpack _).
Defined.

Lemma upflow_chunking_witness :
  observe (feed LittleEndian 2 100 0 TWO_BYTES Echo.decode (init 2 100 false) Echo.stream1)
  = observe (feed LittleEndian 2 100 0 TWO_BYTES Echo.decode (init 2 100 false) Echo.stream2).
Proof.
  apply (upflow_chunking LittleEndian 2 100 0 TWO_BYTES Echo.decode false Echo.stream1 Echo.stream2);
    by apply (bool_decide_unpack _).
Defined.

Lemma upflow_safe_witness :
  is_ok (feed BigEndian 4 65536 0 FOUR_BYTES Echo.decode (init 4 65536 false) Echo.stream1).
Proof.
  apply (upflow_safe BigEndian 4 65536 0 FOUR_BYTES Echo.decode false Echo.stream1);
    try by apply (bool_decide_unpack _).
  intros. by eexists.
Defined.
End TcpPipeline.

(** ** Datagrams *)
Module UdpPipeline.
Section udp.
Context {Conn Task : Type} (e : endian).
Context (headSize_ maxBodySize_ : Z).
Context (decodeFun_ : decode_fun Conn Task) `{!Decoder headSize_ decodeFun_}.

(** The members of the pipeline, the connection, the worker's queue and the
    datagrams written to the socket of the connection. *)
Record t : Type := Make {
  headBuf_ : bytes;
  bodyBuf_ : bytes;
  bodySize_ : Z;
  conn : Conn;
  tasks : list Task;
  written : list bytes;
}.

Definition init (c : Conn) : t :=
  {| headBuf_ := zeros headSize_; bodyBuf_ := zeros maxBodySize_; bodySize_ := 0;
     conn := c; tasks := []; written := [] |}.

(** The handshake branch of [UdpPipeline::upflow]; [wret] is the value
    returned by [::write]. *)
Definition upflow_handshake (buf : bytes) (wret : Z) (s : t) : outcome (t * bool) :=
  x ← get_be32 e buf 0;
  let msgtype := i32 x in
  if bool_decide (msgtype = CORPC_MSG_TYPE_UDP_HANDSHAKE_3) then
    shakemsg4buf ← put_be32 e (zeros CORPC_UDP_HANDSHAKE_SIZE) 0 CORPC_MSG_TYPE_UDP_HANDSHAKE_4;
    let s := {| headBuf_ := headBuf_ s; bodyBuf_ := bodyBuf_ s; bodySize_ := bodySize_ s;
                conn := conn s; tasks := tasks s;
                written := written s ++ [shakemsg4buf] |} in
    if bool_decide (wret ≠ CORPC_UDP_HANDSHAKE_SIZE) then Ok (s, false) else Ok (s, true)
  else Ok (s, true).

(** [UdpPipeline::upflow] *)
Definition upflow (buf : bytes) (size wret : Z) (s : t) : outcome (t * bool) :=
  if bool_decide (size = CORPC_UDP_HANDSHAKE_SIZE) then upflow_handshake buf wret s else
  if bool_decide (u32 size < headSize_) then Ok (s, false) else
  hb ← memcpy (headBuf_ s) 0 buf 0 headSize_;
  let bodySize := u32 (size - headSize_) in
  bb ← (if bool_decide (bodySize ≠ 0)
        then memcpy (bodyBuf_ s) 0 buf headSize_ bodySize else Ok (bodyBuf_ s));
  '(c, bb, task) ← decodeFun_ (conn s) hb bb (i32 bodySize);
  let s := {| headBuf_ := hb; bodyBuf_ := bb; bodySize_ := bodySize; conn := c;
              tasks := tasks s; written := written s |} in
  if is_error c then Ok (s, false) else
  Ok ({| headBuf_ := hb; bodyBuf_ := bb; bodySize_ := bodySize; conn := c;
         tasks := match task with Some t => tasks s ++ [t] | None => tasks s end;
         written := written s |}, true).

Definition wf (s : t) : Prop :=
  zlen (headBuf_ s) = headSize_ ∧ zlen (bodyBuf_ s) = maxBodySize_ ∧
  Forall is_byte (headBuf_ s) ∧ Forall is_byte (bodyBuf_ s).

Lemma ztake_over (dst bs : bytes) n : zlen bs = n →
  ztake n (bs ++ dst) = bs.
Proof. intros <-. apply ztake_app_exact. Qed.

(** A datagram that is not a handshake message and
    whose size lies between the head size and the head size plus the body
    capacity is decoded exactly once, as its first [headSize_] bytes and the
    rest; the verdict and the task are the decoder's. *)
Theorem udp_upflow_frame s buf size wret :
  wf s → 0 < headSize_ < 2^30 → 0 ≤ maxBodySize_ < 2^30 →
  Forall is_byte buf → size ≤ zlen buf → size ≠ CORPC_UDP_HANDSHAKE_SIZE →
  headSize_ ≤ size ≤ headSize_ + maxBodySize_ →
  match decode_frame (conn s) (ztake headSize_ buf) (slice headSize_ (size - headSize_) buf) with
  | Fault f => upflow buf size wret s = Fault f
  | Ok (c, task) => ∃ s', upflow buf size wret s = Ok (s', negb (is_error c)) ∧ wf s' ∧
      conn s' = c ∧ written s' = written s ∧
      tasks s' = tasks s ++ (if is_error c then [] else option_list task)
  end.
Proof.
  intros (Hhl & Hbl & Hhb & Hbb) Hh Hm Hbuf Hsz Hne Hle. unfold upflow.
  rewrite bool_decide_false by done. rewrite (u32_small size) by lia.
  rewrite bool_decide_false by lia. rewrite (memcpy_front (headBuf_ s)) by lia. simpl.
  assert (slice 0 headSize_ buf = ztake headSize_ buf) as Hs0.
  { unfold slice. by rewrite zdrop_0 by lia. }
  rewrite Hs0, (zdrop_ge headSize_ (headBuf_ s)), app_nil_r by lia. rewrite (u32_small (size - headSize_)), (i32_small (size - headSize_)) by lia.
  set (m := size - headSize_) in *.
  assert (∃ bb, (if bool_decide (m ≠ 0) then memcpy (bodyBuf_ s) 0 buf headSize_ m
      else Ok (bodyBuf_ s)) = Ok bb ∧ zlen bb = maxBodySize_ ∧ Forall is_byte bb ∧
      ztake m bb = slice headSize_ m buf) as (bb & -> & Hl & Hb & Ht).
  { case_bool_decide as Hz.
    - eexists. split; [apply memcpy_front; lia|]. split_and!.
      + rewrite zlen_app, zlen_slice by lia. rewrite zlen_zdrop. lia.
      + apply Forall_app. split; [by apply Forall_slice|by apply Forall_drop].
      + apply ztake_over, zlen_slice; lia.
    - exists (bodyBuf_ s). replace m with 0 by lia. rewrite slice_0. by rewrite ztake_0 by lia. }
  simpl. pose proof (decode_spec (conn s) (ztake headSize_ buf) bb m) as Hdec.
  rewrite Ht in Hdec. specialize (Hdec ltac:(zlen) ltac:(by apply Forall_take) Hb ltac:(lia)).
  destruct (decode_frame _ _ _) as [[c task]|f]; [|by rewrite Hdec].
  destruct Hdec as (bb' & -> & Hbl' & Hbb'). simpl.
  destruct (is_error c); eexists; (split; [done|]); simpl; rewrite ?app_nil_r.
  - split_and!; try done. split_and!; simpl; [zlen|congruence|by apply Forall_take|done].
  - split_and!; try done; [split_and!; simpl; [zlen|congruence|by apply Forall_take|done]|].
    destruct task; simpl; by rewrite ?app_nil_r.
Qed.

(** The body of a datagram is copied without a
    check against the capacity of [bodyBuf_]: a datagram larger than
    [headSize_ + maxBodySize_] writes beyond the end of the buffer. *)
Theorem udp_upflow_overflow s buf size wret :
  wf s → 0 < headSize_ < 2^30 → 0 ≤ maxBodySize_ →
  size ≤ zlen buf → size < 2^31 → size ≠ CORPC_UDP_HANDSHAKE_SIZE →
  headSize_ + maxBodySize_ < size →
  upflow buf size wret s = Fault OutOfBounds.
Proof.
  intros (Hhl & Hbl & _ & _) Hh Hm Hsz Hint Hne Hbig. unfold upflow.
  rewrite bool_decide_false by done. rewrite (u32_small size) by lia.
  rewrite bool_decide_false by lia. rewrite (memcpy_front (headBuf_ s)) by lia. simpl.
  rewrite (u32_small (size - headSize_)) by lia. rewrite bool_decide_true by lia.
  by rewrite memcpy_overflow by lia.
Qed.

(** A four-byte datagram never reaches the
    decoder; the last client handshake message is answered with the four
    big-endian bytes of the server's final handshake message, and everything
    else of that size is dropped. *)
Theorem udp_upflow_handshake_reply s x wret :
  upflow (be_bytes 4 x) 4 wret s =
    if bool_decide (i32 x = CORPC_MSG_TYPE_UDP_HANDSHAKE_3)
    then Ok ({| headBuf_ := headBuf_ s; bodyBuf_ := bodyBuf_ s; bodySize_ := bodySize_ s;
                conn := conn s; tasks := tasks s;
                written := written s ++ [be_bytes 4 CORPC_MSG_TYPE_UDP_HANDSHAKE_4] |},
             bool_decide (wret = 4))
    else Ok (s, true).
Proof.
  unfold upflow. rewrite bool_decide_true by done. unfold upflow_handshake.
  pose proof (be_bytes_length 4 x ltac:(lia)) as Hl.
  rewrite get_be32_ok by (auto using be_bytes_bytes with lia). simpl.
  assert (slice 0 4 (be_bytes 4 x) = be_bytes 4 x) as ->.
  { unfold slice. rewrite zdrop_0 by lia. apply ztake_ge. lia. }
  rewrite be_val_bytes by lia. change (4 * 8) with 32.
  fold (u32 x). rewrite i32_u32. case_bool_decide as Ht; [|done].
  rewrite put_be32_ok by (vm_compute; congruence). simpl.
  by destruct (decide (wret = 4)) as [->|]; [|rewrite bool_decide_true, bool_decide_false by done].
Qed.
End udp.
Arguments t : clear implicits.

(** The pipeline of [UdpMessageServer]: 22-byte heads and a 540-byte body
    buffer, reading into a 65536-byte buffer. *)
Lemma udp_upflow_frame_witness :
  ∃ s', upflow LittleEndian 22 TcpPipeline.Echo.decode (zeros 25) 25 4 (init 22 540 false) = Ok (s', true) ∧
    conn s' = false ∧ written s' = [] ∧ tasks s' = [zeros 3].
Proof.
  assert (wf 22 540 (init 22 540 false : t bool bytes)) as Hwf.
  { split_and!; simpl; auto using zeros_bytes, zlen_zeros with lia. }
  assert (zlen (zeros 25) = 25) as Hl by (by apply zlen_zeros).
  pose proof (udp_upflow_frame LittleEndian 22 540 TcpPipeline.Echo.decode (init 22 540 false)
    (zeros 25) 25 4 Hwf ltac:(lia) ltac:(lia) (zeros_bytes _) ltac:(lia) ltac:(done) ltac:(lia)) as H.
  assert (decode_frame (Decoder := TcpPipeline.Echo.decoder 22) false (ztake 22 (zeros 25))
    (slice 22 (25 - 22) (zeros 25)) = Ok (false, Some (zeros 3))) as E by (vm_compute; reflexivity).
  simpl conn in H. rewrite E in H. destruct H as (s' & H & _ & ? & ? & ?). exists s'. split; [exact H|]. auto.
Defined.

Lemma udp_upflow_overflow_witness :
  upflow LittleEndian 22 TcpPipeline.Echo.decode (zeros 65536) 563 4 (init 22 540 false) = Fault OutOfBounds.
Proof.
  apply (udp_upflow_overflow LittleEndian 22 540 TcpPipeline.Echo.decode (init 22 540 false) (zeros 65536) 563 4);
    rewrite ?zlen_zeros; try done; try lia.
  split_and!; simpl; auto using zeros_bytes, zlen_zeros with lia.
Defined.
End UdpPipeline.
