(* ===== verification/Sending.v ===== *)
(** * corpc_io.cpp: the sending pipelines

    [MessagePipeline::downflow] packs the frames of the data waiting on a
    connection into a buffer of [space] bytes; a frame that does not fit is cut,
    and the rest of its body is kept in [downflowBuf_] for the following calls.
    The encoder is a function member of the pipeline; [Encoder] is the interface
    it has to meet.  The main theorem is that the buffers filled by successive
    calls, put end to end, are the frames in order, with no byte lost,
    duplicated or reordered, and that the sender makes progress as long as
    something is left to send.  [Connection::write] hands a buffer to the
    socket. *)
From S2P Require Import Prelude Define.
Open Scope Z_scope.

(** ** The encoder interface *)

(** [EncodeFunction] (corpc_io.h): the connection, the data, the position in
    the buffer ([buf] and an offset) and the space from there, and the in/out
    parameters [downflowBuf] and [downflowBufSentNum]; [size] starts at 0. *)
Abbreviation encode_result Conn := (bool * (Conn * bytes * Z * bytes * Z))%type.
Abbreviation encode_fun Conn Data :=
  (Conn → Data → bytes → Z → Z → bytes → Z → outcome (encode_result Conn)).

(** What [downflow] relies on: [frame] is the encoding of a data item, [None]
    when it cannot be encoded; a frame that fits is written whole, otherwise
    its first [space] bytes are written and its body is kept; [space] is an
    [int]. *)
Class Encoder {Conn Data : Type} (headSize : Z) (encodeFun : encode_fun Conn Data) : Type := {
  frame : Conn → Data → option bytes;
  frame_head c d f : frame c d = Some f → headSize ≤ zlen f;
  encode_nospace c d buf off space dbuf dsent :
    space < headSize → encodeFun c d buf off space dbuf dsent = Ok (true, (c, buf, 0, dbuf, dsent));
  encode_fail c d buf off space dbuf dsent :
    headSize ≤ space → frame c d = None → 0 ≤ off → off + space ≤ zlen buf →
    ∃ o, encodeFun c d buf off space dbuf dsent = Ok (false, o) ∧ zlen o.1.1.1.2 = zlen buf;
  encode_fits c d f buf off space :
    frame c d = Some f → zlen f ≤ space < 2^31 → 0 ≤ off → off + space ≤ zlen buf →
    ∃ c', encodeFun c d buf off space [] 0 = Ok (true, (c', splice buf off f, zlen f, [], 0)) ∧
      frame c' = frame c;
  encode_split c d f buf off space :
    frame c d = Some f → headSize ≤ space < zlen f ∧ space < 2^31 → 0 ≤ off → off + space ≤ zlen buf →
    ∃ c', encodeFun c d buf off space [] 0
            = Ok (true, (c', splice buf off (ztake space f), space, zdrop headSize f, space - headSize)) ∧
      frame c' = frame c;
}.

(** The frames of a list of data, put end to end. *)
Fixpoint frames {Data} (fr : Data → option bytes) (ds : list Data) : option bytes :=
  match ds with
  | [] => Some []
  | d :: ds => f ← fr d; fs ← frames fr ds; Some (f ++ fs)
  end.

Lemma frames_snoc {Data} (fr : Data → option bytes) ds d fs :
  frames fr (ds ++ [d]) = Some fs →
  ∃ fs1 f, frames fr ds = Some fs1 ∧ fr d = Some f ∧ fs = fs1 ++ f.
Proof.
  revert fs. induction ds as [|d0 ds IH]; intros fs; simpl.
  - destruct (fr d) as [f|]; [|done]. simpl. intros [= <-]. exists [], f. by rewrite app_nil_r.
  - destruct (fr d0) as [f0|]; [|done]. simpl. destruct (frames fr (ds ++ [d])) as [fs0|]; [|done].
    simpl. intros [= <-]. destruct (IH fs0) as (fs1 & f & -> & -> & ->); [done|].
    exists (f0 ++ fs1), f. by rewrite app_assoc.
Qed.

Lemma frames_app {Data} (fr : Data → option bytes) ds d fs f :
  frames fr ds = Some fs → fr d = Some f → frames fr (ds ++ [d]) = Some (fs ++ f).
Proof.
  revert fs. induction ds as [|d0 ds IH]; intros fs; simpl.
  - intros [= <-] ->. simpl. by rewrite app_nil_r.
  - destruct (fr d0) as [f0|]; [|done]. simpl. destruct (frames fr ds) as [fs0|]; [|done].
    intros [= <-] Hd. rewrite (IH fs0) by done. simpl. by rewrite app_assoc.
Qed.

(** ** The interface of a sending pipeline

    What the sender relies on in [Pipeline::downflow]: [left] is what is still
    to be sent ([None] when some waiting data has no encoding), every
    successful call moves a prefix of it into the buffer, and a successful call
    that reports 0 bytes means that nothing is left.  [push_back] adds data to
    [Connection::datas_]. *)
Abbreviation downflow_fun P := (bytes → Z → P → outcome (bool * P * bytes * Z)).
Class Downflow {P Data : Type} (space : Z) (downflow : downflow_fun P) (push_back : P → Data → P) : Type := {
  dinv : P → Prop;
  left : P → option bytes;
  enc : P → Data → option bytes;
  downflow_returns p buf : dinv p → space ≤ zlen buf →
    ∃ ok p' buf' size, downflow buf space p = Ok (ok, p', buf', size) ∧
      zlen buf' = zlen buf ∧ 0 ≤ size ≤ space ∧
      (ok = true → dinv p' ∧ enc p' = enc p) ∧
      (ok = true → size = 0 → left p = Some [] ∧ left p' = Some []);
  downflow_prefix p us buf : dinv p → left p = Some us → space ≤ zlen buf →
    ∃ p' buf' size us', downflow buf space p = Ok (true, p', buf', size) ∧
      left p' = Some us' ∧ us = ztake size buf' ++ us';
  push_dinv p d : dinv p → dinv (push_back p d);
  push_enc p d : enc (push_back p d) = enc p;
  push_left p d us f : left p = Some us → enc p d = Some f → left (push_back p d) = Some (us ++ f);
}.

Module MessagePipeline.
Section downflow.
Context {Conn Data : Type} (headSize : Z).
Context (encodeFun_ : encode_fun Conn Data) `{!Encoder headSize encodeFun_}.

(** The members that [downflow] uses, with the connection and the data
    waiting on it, [Connection::datas_]. *)
Record t : Type := Make {
  conn : Conn;
  datas_ : list Data;
  downflowBuf_ : bytes;
  downflowBufSentNum_ : Z;
}.

(** The loop over the waiting data: encode the front and pop it, until the
    encoder fails, the buffer is full or nothing is waiting. *)
Fixpoint encode_loop (c : Conn) (datas : list Data) (buf : bytes) (space size : Z)
    (dbuf : bytes) (dsent : Z) : outcome (bool * t * bytes * Z) :=
  match datas with
  | [] => Ok (true, Make c [] dbuf dsent, buf, size)
  | d :: rest =>
    '(ok, (c, buf, tmp, dbuf, dsent)) ← encodeFun_ c d buf size (space - size) dbuf dsent;
    if negb ok then Ok (false, Make c datas dbuf dsent, buf, size) else
    if bool_decide (tmp = 0) then Ok (true, Make c datas dbuf dsent, buf, size) else
    encode_loop c rest buf space (size + tmp) dbuf dsent
  end.

(** [MessagePipeline::downflow]: the verdict, the state, the buffer and the
    out parameter [size]. *)
Definition downflow (buf : bytes) (space : Z) (s : t) : outcome (bool * t * bytes * Z) :=
  let dlen := zlen (downflowBuf_ s) in
  let sent := downflowBufSentNum_ s in
  if bool_decide (dlen > 0) then
    _ ← require (dlen > sent);
    '(s, buf, size) ← (if bool_decide (space >= dlen - sent) then
        buf ← memcpy buf 0 (downflowBuf_ s) sent (dlen - sent);
        Ok (Make (conn s) (datas_ s) [] 0, buf, dlen - sent)
      else
        buf ← memcpy buf 0 (downflowBuf_ s) sent space;
        Ok (Make (conn s) (datas_ s) (downflowBuf_ s) (u32 (sent + space)), buf, space));
    if bool_decide (space = size) then Ok (true, s, buf, size) else
    encode_loop (conn s) (datas_ s) buf space size (downflowBuf_ s) (downflowBufSentNum_ s)
  else encode_loop (conn s) (datas_ s) buf space 0 (downflowBuf_ s) (downflowBufSentNum_ s).

(** ** What is left to send *)

(** The bytes still to be sent: the rest of a cut frame and the frames of the
    waiting data; [None] when one of them cannot be encoded. *)
Definition unsent (s : t) : option bytes :=
  fs ← frames (frame (conn s)) (datas_ s);
  Some (zdrop (downflowBufSentNum_ s) (downflowBuf_ s) ++ fs).

(** The invariant: either nothing is kept, or part of a kept body remains. *)
Definition wf (s : t) : Prop :=
  0 ≤ downflowBufSentNum_ s ∧ zlen (downflowBuf_ s) < 2^31 ∧
  (downflowBuf_ s = [] ∧ downflowBufSentNum_ s = 0 ∨ downflowBufSentNum_ s < zlen (downflowBuf_ s)).

Context (Hhead : 0 < headSize).

Lemma loop_spec ds c fs buf space size :
  frames (frame c) ds = Some fs → (∀ d f, frame c d = Some f → zlen f < headSize + 2^31) →
  0 ≤ size ≤ space → space ≤ zlen buf → space < 2^31 →
  ∃ s' buf' size', encode_loop c ds buf space size [] 0 = Ok (true, s', buf', size') ∧
    wf s' ∧ zlen buf' = zlen buf ∧ size ≤ size' ≤ space ∧ frame (conn s') = frame c ∧
    (∃ fs', unsent s' = Some fs' ∧ ztake size buf ++ fs = ztake size' buf' ++ fs') ∧
    (ds ≠ [] → headSize ≤ space - size → size < size').
Proof.
  revert c fs buf size. induction ds as [|d ds IH]; intros c fs buf size Hfs Hmax Hs Hb Hint.
  { injection Hfs as <-. exists (Make c [] [] 0), buf, size. simpl. unfold wf. simpl.
    split_and!; try done; try lia; [by left|]. exists []. done. }
  simpl in Hfs. destruct (frame c d) as [f|] eqn:Ef; [|done]. simpl in Hfs.
  destruct (frames (frame c) ds) as [fs0|] eqn:Efs; [|done]. injection Hfs as <-.
  pose proof (frame_head _ _ _ Ef) as Hfh. pose proof (Hmax _ _ Ef).
  cbn [encode_loop]. destruct (decide (space - size < headSize)) as [Hsmall|Hroom].
  { rewrite encode_nospace by done. simpl.
    eexists _, buf, size. split; [done|]. unfold wf, unsent. simpl. rewrite Ef. simpl. rewrite Efs.
    split_and!; try done; try lia; [by left|]. eexists. split; [done|]. done. }
  destruct (decide (zlen f ≤ space - size)) as [Hfit|Hcut].
  - destruct (encode_fits c d f buf size (space - size)) as (c' & -> & Hc'); [done|lia..|]. simpl.
    rewrite bool_decide_false by lia.
    destruct (IH c' fs0 (splice buf size f) (size + zlen f))
      as (s' & buf' & size' & -> & Hwf & Hl & Hs' & Hfr & (fs' & Hu & Heq) & _).
    { by rewrite Hc'. } { by rewrite Hc'. } { lia. } { rewrite zlen_splice; lia. } { done. }
    exists s', buf', size'. rewrite zlen_splice in Hl by lia.
    split_and!; try done; try lia; [congruence|].
    exists fs'. split; [done|]. rewrite <-Heq, splice_append, <-app_assoc by lia. done.
  - destruct (encode_split c d f buf size (space - size)) as (c' & -> & Hc'); [done|lia..|]. simpl.
    rewrite bool_decide_false by lia.
    assert (zlen (ztake (space - size) f) = space - size) as Hlt by zlen.
    replace (size + (space - size)) with space by lia.
    assert (∃ s', encode_loop c' ds (splice buf size (ztake (space - size) f)) space space
        (zdrop headSize f) (space - size - headSize)
      = Ok (true, s', splice buf size (ztake (space - size) f), space) ∧
      s' = Make c' ds (zdrop headSize f) (space - size - headSize)) as (s' & -> & ->).
    { destruct ds as [|d' ds']; simpl; [eauto|].
      rewrite encode_nospace by lia. simpl. eauto. }
    eexists _, _, space. split; [done|]. unfold wf, unsent. simpl. rewrite Hc', Efs. simpl.
    split_and!; try done; try lia.
    + zlen.
    + right. zlen.
    + rewrite zlen_splice; lia.
    + eexists. split; [done|]. rewrite zdrop_zdrop by lia.
      replace (headSize + (space - size - headSize)) with (space - size) by lia.
      assert (ztake space (splice buf size (ztake (space - size) f))
        = ztake size buf ++ ztake (space - size) f) as ->.
      { rewrite <-splice_append by lia. f_equal. lia. }
      rewrite <-app_assoc. f_equal. by rewrite app_assoc, ztake_zdrop.
Qed.

(** One call moves a prefix of the unsent bytes into the buffer. *)
Lemma downflow_spec s us buf space :
  wf s → unsent s = Some us → (∀ d f, frame (conn s) d = Some f → zlen f < headSize + 2^31) →
  headSize ≤ space → space ≤ zlen buf → space < 2^31 →
  ∃ s' buf' size us', downflow buf space s = Ok (true, s', buf', size) ∧
    wf s' ∧ zlen buf' = zlen buf ∧ 0 ≤ size ≤ space ∧ frame (conn s') = frame (conn s) ∧
    unsent s' = Some us' ∧ us = ztake size buf' ++ us' ∧ (us ≠ [] → 0 < size).
Proof.
  intros (Hd0 & Hdl & Hkeep) Hu Hmax Hsp Hb Hint. unfold unsent in Hu.
  destruct (frames (frame (conn s)) (datas_ s)) as [fs|] eqn:Efs; [|done]. injection Hu as <-.
  unfold downflow. case_bool_decide as Hlen.
  - destruct Hkeep as [[He _]|Hlt]; [rewrite He in Hlen; done|].
    rewrite require_true by lia. simpl. set (left := zlen (downflowBuf_ s) - downflowBufSentNum_ s) in *.
    assert (zlen (zdrop (downflowBufSentNum_ s) (downflowBuf_ s)) = left) as Hleft by zlen.
    case_bool_decide as Hfit.
    + rewrite memcpy_front by lia. simpl.
      assert (slice (downflowBufSentNum_ s) left (downflowBuf_ s)
        = zdrop (downflowBufSentNum_ s) (downflowBuf_ s)) as -> by (apply ztake_ge; lia).
      set (rest := zdrop (downflowBufSentNum_ s) (downflowBuf_ s)) in *.
      set (buf1 := rest ++ zdrop left buf).
      assert (zlen buf1 = zlen buf) as Hb1 by (unfold buf1; zlen).
      assert (ztake left buf1 = rest) as Ht1 by (rewrite <-Hleft; apply ztake_app_exact).
      case_bool_decide as Hfull.
      * eexists _, _, left, fs. split; [done|]. unfold wf, unsent. simpl. rewrite Efs, Ht1.
        split_and!; try done; try lia. by left.
      * destruct (loop_spec (datas_ s) (conn s) fs buf1 space left Efs Hmax ltac:(lia) ltac:(lia) Hint)
          as (s' & buf' & size' & -> & Hwf & Hl & Hs' & Hfr & (fs' & Hu' & Heq) & _).
        exists s', buf', size', fs'. rewrite Ht1 in Heq. split_and!; try done; lia || congruence.
    + rewrite memcpy_front by lia. simpl. rewrite bool_decide_true by done.
      eexists _, _, space, _. split; [done|]. unfold wf, unsent. simpl. rewrite Efs, u32_small by lia.
      assert (zlen (slice (downflowBufSentNum_ s) space (downflowBuf_ s)) = space) as Hsl
        by (apply zlen_slice; lia).
      split_and!; try done; try lia; [rewrite zlen_app, Hsl; zlen|].
      rewrite <-Hsl at 1. rewrite ztake_app_exact, <-zdrop_zdrop by lia.
      rewrite app_assoc. f_equal. unfold slice. by rewrite ztake_zdrop.
  - destruct Hkeep as [[He Hz]|Hlt]; [|lia]. rewrite He, Hz.
    destruct (loop_spec (datas_ s) (conn s) fs buf space 0 Efs Hmax ltac:(lia) ltac:(lia) Hint)
      as (s' & buf' & size' & -> & Hwf & Hl & Hs' & Hfr & (fs' & Hu' & Heq) & Hprog).
    exists s', buf', size', fs'. rewrite ztake_0 in Heq by lia. simpl in Heq.
    split_and!; try done; try lia. intros Hne. apply Hprog; [|lia].
    intros Hnil. rewrite Hnil in Efs. by injection Efs as <-.
Qed.

(** Without assuming that the waiting data can be encoded: the call returns,
    keeps the invariant, and reports 0 bytes only when nothing is left. *)
Lemma loop_total ds c buf space size :
  (∀ d f, frame c d = Some f → zlen f < headSize + 2^31) →
  0 ≤ size ≤ space → space ≤ zlen buf → space < 2^31 →
  ∃ ok s' buf' size', encode_loop c ds buf space size [] 0 = Ok (ok, s', buf', size') ∧
    (ok = true → wf s' ∧ frame (conn s') = frame c) ∧ zlen buf' = zlen buf ∧ size ≤ size' ≤ space ∧
    (ok = true → headSize ≤ space - size → size' = size → downflowBuf_ s' = [] ∧ ds = [] ∧ datas_ s' = []).
Proof.
  revert c buf size. induction ds as [|d ds IH]; intros c buf size Hmax Hs Hb Hint.
  { exists true, (Make c [] [] 0), buf, size. simpl. unfold wf. simpl.
    split_and!; try done; [|lia..]. intros _. split_and!; try done; [lia..|by left]. }
  cbn [encode_loop]. destruct (decide (space - size < headSize)) as [Hsmall|Hroom].
  { rewrite encode_nospace by done. simpl. eexists true, _, buf, size. split; [done|]. unfold wf. simpl.
    split_and!; try done; try lia. intros _. split_and!; try done; [lia..|by left]. }
  destruct (frame c d) as [f|] eqn:Ef; cycle 1.
  { destruct (encode_fail c d buf size (space - size) [] 0) as ([[[[c1 b1] t1] d1] n1] & Hf & Hlb);
      [lia|done|lia|lia|]. simpl in Hlb. rewrite Hf. simpl.
    eexists false, _, b1, size. split; [done|]. split_and!; try done; lia. }
  pose proof (frame_head _ _ _ Ef) as Hfh. pose proof (Hmax _ _ Ef).
  destruct (decide (zlen f ≤ space - size)) as [Hfit|Hcut].
  - destruct (encode_fits c d f buf size (space - size)) as (c' & -> & Hc'); [done|lia..|]. simpl.
    rewrite bool_decide_false by lia.
    destruct (IH c' (splice buf size f) (size + zlen f))
      as (ok & s' & buf' & size' & -> & Hwf & Hl & Hs' & Hz).
    { by rewrite Hc'. } { lia. } { rewrite zlen_splice; lia. } { done. }
    rewrite zlen_splice in Hl by lia. exists ok, s', buf', size'. rewrite Hc' in Hwf.
    split_and!; try done; lia.
  - destruct (encode_split c d f buf size (space - size)) as (c' & -> & Hc'); [done|lia..|]. simpl.
    rewrite bool_decide_false by lia. replace (size + (space - size)) with space by lia.
    set (b1 := splice buf size (ztake (space - size) f)).
    assert (zlen b1 = zlen buf) as Hb1 by (unfold b1; rewrite zlen_splice; zlen).
    exists true, (Make c' ds (zdrop headSize f) (space - size - headSize)), b1, space.
    split; [destruct ds as [|d' ds']; simpl; [done|rewrite encode_nospace by lia; done]|].
    unfold wf. simpl. split_and!; try done; try lia.
    intros _. split_and!; try done; try lia; [zlen|right; zlen].
Qed.

Lemma downflow_total s buf space :
  wf s → (∀ d f, frame (conn s) d = Some f → zlen f < headSize + 2^31) →
  headSize ≤ space → space ≤ zlen buf → space < 2^31 →
  ∃ ok s' buf' size, downflow buf space s = Ok (ok, s', buf', size) ∧
    (ok = true → wf s' ∧ frame (conn s') = frame (conn s)) ∧ zlen buf' = zlen buf ∧ 0 ≤ size ≤ space ∧
    (ok = true → size = 0 → unsent s = Some [] ∧ unsent s' = Some []).
Proof.
  intros Hwf Hmax Hsp Hb Hint. destruct (unsent s) as [us|] eqn:Hu.
  { destruct (downflow_spec s us buf space) as (s' & buf' & size & us' & -> & ? & ? & ? & ? & Hu' & Heq & Hpos);
      [done..|]. exists true, s', buf', size. split_and!; try done; try lia. intros _ ->.
    rewrite ztake_0 in Heq by lia. simpl in Heq. destruct us as [|x us]; [by rewrite Hu', <-Heq|]. exfalso.
    assert (0 < 0) by (apply Hpos; done). lia. }
  destruct Hwf as (Hd0 & Hdl & Hkeep). unfold unsent in Hu.
  destruct (frames (frame (conn s)) (datas_ s)) as [fs|] eqn:Efs; [done|].
  unfold downflow. case_bool_decide as Hlen.
  - destruct Hkeep as [[He _]|Hlt]; [rewrite He in Hlen; done|].
    rewrite require_true by lia. simpl. set (left := zlen (downflowBuf_ s) - downflowBufSentNum_ s) in *.
    assert (zlen (slice (downflowBufSentNum_ s) left (downflowBuf_ s)) = left) as Hleft
      by (apply zlen_slice; lia).
    case_bool_decide as Hfit.
    + rewrite memcpy_front by lia. simpl.
      set (buf1 := slice _ _ _ ++ _). assert (zlen buf1 = zlen buf) as Hb1 by (unfold buf1; zlen).
      case_bool_decide as Hfull.
      * eexists true, _, _, left. split; [done|]. unfold wf. simpl.
        split_and!; try done; try lia. intros _. split_and!; try done; [lia..|by left].
      * destruct (loop_total (datas_ s) (conn s) buf1 space left Hmax ltac:(lia) ltac:(lia) Hint)
          as (ok & s' & buf' & size' & -> & Hwf & Hl & Hs' & _).
        exists ok, s', buf', size'. split_and!; try done; try lia; congruence.
    + rewrite memcpy_front by lia. simpl. rewrite bool_decide_true by done.
      assert (zlen (slice (downflowBufSentNum_ s) space (downflowBuf_ s)) = space) as Hsl
        by (apply zlen_slice; lia).
      eexists true, _, _, space. split; [done|]. unfold wf. simpl. rewrite u32_small by lia.
      split_and!; try done; try lia; [|rewrite zlen_app, Hsl; zlen].
      intros _. split_and!; try done; [lia..|right; lia].
  - destruct Hkeep as [[He Hz]|Hlt]; [|lia]. rewrite He, Hz.
    destruct (loop_total (datas_ s) (conn s) buf space 0 Hmax ltac:(lia) ltac:(lia) Hint)
      as (ok & s' & buf' & size' & -> & Hwf & Hl & Hs' & Hz').
    exists ok, s', buf', size'. split_and!; try done; try lia. intros Hok ->.
    destruct (Hz' Hok) as (_ & Hd & _); [lia..|]. by rewrite Hd in Efs.
Qed.

Definition push_back (s : t) (d : Data) : t :=
  Make (conn s) (datas_ s ++ [d]) (downflowBuf_ s) (downflowBufSentNum_ s).

(** A body is a protobuf message or a string, shorter than 2^31 bytes. *)
Context (Hmax : ∀ c d f, frame c d = Some f → zlen f < headSize + 2^31).
Context (space : Z) (Hspace : headSize ≤ space < 2^31).

#[global] Program Instance downflow_laws : Downflow space downflow push_back := {|
  dinv := wf; left := unsent; enc s := frame (conn s) |}.
Next Obligation.
  intros p buf Hwf Hb. destruct (downflow_total p buf space Hwf (Hmax _)) as (ok & s' & buf' & size & E & ? & ? & ? & ?);
    [lia..|]. exists ok, s', buf', size. split_and!; try done; lia.
Qed.
Next Obligation.
  intros p us buf Hwf Hu Hb.
  destruct (downflow_spec p us buf space Hwf Hu (Hmax _)) as (s' & buf' & size & us' & E & ? & ? & ? & ? & ? & ? & ?);
    [lia..|]. by exists s', buf', size, us'.
Qed.
Next Obligation. done. Qed.
Next Obligation. done. Qed.
Next Obligation.
  intros p d us f Hu Hd. unfold unsent in *. simpl.
  destruct (frames (frame (conn p)) (datas_ p)) as [fs|] eqn:Efs; [|done]. injection Hu as <-.
  rewrite (frames_app _ _ _ fs f) by done. simpl. by rewrite app_assoc.
Qed.
End downflow.
Arguments t : clear implicits.
End MessagePipeline.

(** ** [UdpPipeline::downflow]: one datagram per call, never cut *)
Module UdpDownflow.
Import MessagePipeline.
Section udp.
Context {Conn Data : Type} (headSize : Z).
Context (encodeFun_ : encode_fun Conn Data) `{!Encoder headSize encodeFun_}.

Definition udp_downflow (buf : bytes) (space : Z) (s : t Conn Data)
    : outcome (bool * t Conn Data * bytes * Z) :=
  match datas_ s with
  | [] => Ok (true, s, buf, 0)
  | d :: rest =>
    '(ok, (c, buf, tmp, dbuf, dsent)) ←
      encodeFun_ (conn s) d buf 0 space (downflowBuf_ s) (downflowBufSentNum_ s);
    if negb ok then Ok (false, Make c (datas_ s) dbuf dsent, buf, 0) else
    if bool_decide (zlen dbuf > 0) then Ok (false, Make c (datas_ s) dbuf dsent, buf, 0) else
    Ok (true, Make c rest dbuf dsent, buf, tmp)
  end.

Context (Hhead : 0 < headSize) (space : Z) (Hspace : headSize ≤ space < 2^31).

(** A datagram that does not fit in the buffer has no encoding. *)
Definition datagram (c : Conn) (d : Data) : option bytes :=
  f ← frame c d; if bool_decide (zlen f ≤ space) then Some f else None.

Lemma datagram_Some c d f : datagram c d = Some f ↔ frame c d = Some f ∧ zlen f ≤ space.
Proof.
  unfold datagram. destruct (frame c d) as [f0|]; simpl; [|naive_solver].
  case_bool_decide; naive_solver.
Qed.

#[global] Program Instance udp_downflow_laws : Downflow space udp_downflow push_back := {|
  dinv s := downflowBuf_ s = [] ∧ downflowBufSentNum_ s = 0;
  left s := frames (datagram (conn s)) (datas_ s);
  enc s := datagram (conn s) |}.
Next Obligation.
  intros [c ds db dn] buf [Hd0 Hd1] Hb. simpl in *. subst db dn. unfold udp_downflow. simpl.
  destruct ds as [|d ds].
  { exists true, (Make c [] [] 0), buf, 0. simpl. split_and!; try done; lia. }
  destruct (frame c d) as [f|] eqn:Ef; cycle 1.
  { destruct (encode_fail c d buf 0 space [] 0) as ([[[[c1 b1] t1] d1] n1] & Hf & Hlb); [lia|done|lia|lia|].
    simpl in Hlb. rewrite Hf. simpl. eexists false, _, b1, 0. split; [done|]. split_and!; try done; lia. }
  pose proof (frame_head _ _ _ Ef) as Hfh. destruct (decide (zlen f ≤ space)) as [Hfit|Hcut].
  - destruct (encode_fits c d f buf 0 space) as (c' & -> & Hc'); [done|lia..|]. simpl.
    eexists true, _, _, _. split; [done|]. simpl. rewrite zlen_splice by lia.
    split_and!; try done; try lia. intros _. split; [done|]. unfold datagram. by rewrite Hc'.
  - destruct (encode_split c d f buf 0 space) as (c' & -> & Hc'); [done|lia..|]. simpl.
    rewrite bool_decide_true by zlen. eexists false, _, _, _. split; [done|].
    split_and!; try done; try lia. rewrite zlen_splice; zlen.
Qed.
Next Obligation.
  intros [c ds db dn] us buf [Hd0 Hd1] Hu Hb. simpl in *. subst db dn. unfold udp_downflow. simpl.
  destruct ds as [|d ds]; simpl in Hu.
  { injection Hu as <-. eexists _, buf, 0, []. split; [done|]. by rewrite ztake_0. }
  destruct (datagram c d) as [f|] eqn:Ef; [|done]. simpl in Hu.
  destruct (frames (datagram c) ds) as [fs|] eqn:Efs; [|done]. injection Hu as <-.
  apply datagram_Some in Ef as [Ef Hfit]. pose proof (frame_head _ _ _ Ef) as Hfh.
  destruct (encode_fits c d f buf 0 space) as (c' & -> & Hc'); [done|lia..|]. simpl.
  eexists _, _, _, fs. split; [done|]. simpl. unfold datagram in *. rewrite Hc'. split; [done|].
  rewrite <-(Z.add_0_l (zlen f)) at 1. rewrite splice_append, ztake_0 by lia. done.
Qed.
Next Obligation. done. Qed.
Next Obligation. done. Qed.
Next Obligation. intros p d us f Hu Hd. simpl. by apply frames_app. Qed.
End udp.
End UdpDownflow.
