(* ===== verification/Sender.v ===== *)
(** * corpc_io.cpp: [Connection::write] and the sender

    The sender thread handles a queue of tasks ([Sender::taskQueueRoutine]) and
    runs one coroutine per connection ([Sender::connectionRoutine]) that empties
    the sending pipeline of the connection into its socket.  The two are
    coroutines of one thread, so they interleave only where the connection
    routine gives up the processor: when it waits in [write] and when it hangs
    because nothing is left to send.  [step] is that interleaving.  The theorems
    are that the routine never sleeps on data (no wake-up is lost), that the
    socket gets a prefix of the frames of the accepted data and all of them when
    the connection is closed in order, and that [closeSem_] is posted once. *)
From S2P Require Import Prelude Define Sending.
Open Scope Z_scope.

Module Connection.

Definition EINTR : Z := 4.
Definition EAGAIN : Z := 11.

(** A socket: the results of the coming calls of [::write] (the return value
    and the error number of a failed call), what has been written so far, and
    [errno], which a successful call leaves alone. *)
Record socket : Type := Socket { script : list (Z * Z); wire : bytes; errno : Z }.

(** The loop of [Connection::write], structural in the calls of [::write]. *)
Fixpoint write_loop (script : list (Z * Z)) (errno : Z) (wire buf : bytes) (sentNum leftNum : Z)
    : outcome (Z * socket) :=
  match script with
  | [] => Fault OutOfFuel
  | (ret, err) :: script =>
    let errno := if bool_decide (ret < 0) then err else errno in
    '(wire, sentNum, leftNum) ←
      (if bool_decide (ret > 0) then
         _ ← require (ret ≤ leftNum);
         Ok (wire ++ slice sentNum ret buf, u32 (sentNum + ret), u32 (leftNum - ret))
       else Ok (wire, sentNum, leftNum));
    if bool_decide (leftNum > 0 ∧ (errno = EAGAIN ∨ errno = EINTR))
    then write_loop script errno wire buf sentNum leftNum
    else if bool_decide (leftNum > 0) then Ok (-1, Socket script wire errno)
    else Ok (sentNum, Socket script wire errno)
  end.

(** [Connection::write]; the result is an [ssize_t]. *)
Definition write (sock : socket) (buf : bytes) (nbyte : Z) : outcome (Z * socket) :=
  write_loop (script sock) (errno sock) (wire sock) buf 0 (u32 nbyte).

Lemma write_loop_spec sc en w buf sent left r sock :
  0 ≤ sent → 0 ≤ left → sent + left < 2^32 → sent + left ≤ zlen buf →
  write_loop sc en w buf sent left = Ok (r, sock) →
  (r = sent + left ∧ wire sock = w ++ slice sent left buf) ∨
  (r = -1 ∧ ∃ k, 0 ≤ k < left ∧ wire sock = w ++ slice sent k buf).
Proof.
  revert en w sent left. induction sc as [|[ret err] sc IH]; intros en w sent left H0 H1 H2 H3; [done|].
  cbn [write_loop]. generalize (if bool_decide (ret < 0) then err else en). intros en'.
  intros Hw. apply bind_Ok_inv in Hw as ([[w1 sent1] left1] & E & Hw).
  assert (∃ k, 0 ≤ k ≤ left ∧ w1 = w ++ slice sent k buf ∧ sent1 = sent + k ∧ left1 = left - k)
    as (k & Hk & -> & -> & ->).
  { clear Hw. case_bool_decide.
    - inv_bind. injection E as <- <- <-.
      exists ret. rewrite !u32_small by lia. split_and!; lia || done.
    - injection E as <- <- <-. exists 0. rewrite slice_0, app_nil_r.
      split_and!; lia || done. }
  clear E. case_bool_decide as Hc; [|case_bool_decide as Hl; injection Hw as <- <-; simpl].
  - destruct (IH en' (w ++ slice sent k buf) (sent + k) (left - k)) as [[-> ->]|(-> & k2 & Hk2 & ->)]; [lia..|done| |].
    + left. split; [lia|]. rewrite <-app_assoc, <-slice_app_ztake by lia. do 2 f_equal. lia.
    + right. split; [done|]. exists (k + k2). split; [lia|]. by rewrite <-app_assoc, <-slice_app_ztake by lia.
  - right. split; [done|]. exists k. split; [lia|done].
  - left. replace k with left by lia. split; [lia|done].
Qed.

(** What a caller of [write] gets: everything is written, or -1 and only a
    proper prefix is. *)
Lemma write_spec sock buf n r sock' :
  0 ≤ n < 2^32 → n ≤ zlen buf → write sock buf n = Ok (r, sock') →
  (r = n ∧ wire sock' = wire sock ++ ztake n buf) ∨
  (r = -1 ∧ ∃ k, 0 ≤ k < n ∧ wire sock' = wire sock ++ ztake k buf).
Proof.
  unfold write. intros ?? Hw. rewrite u32_small in Hw by lia.
  apply write_loop_spec in Hw; [|lia..].
  destruct Hw as [[-> ->]|(-> & k & ? & ->)]; unfold slice; rewrite zdrop_0 by lia; eauto.
Qed.
End Connection.

Module Sender.
Import Connection.

(** corpc_io.h: [SenderTask], without the connection, which is the one the
    model is about. *)
Inductive task (Data : Type) : Type := INIT | CLOSE | DATA (data : Data).
Arguments INIT {Data}.
Arguments CLOSE {Data}.
Arguments DATA {Data} data.

(** Why a connection routine left its loop. *)
Inductive reason : Type := Drained | EncodeError | WriteError.

(** Where the connection routine is: not started; about to call [downflow];
    waiting in [write] with [size] bytes of the buffer to send; hanging in
    [co_yield_ct]; or finished. *)
Inductive routine : Type := Absent | Running | Writing (size : Z) | Hanging | Ended (r : reason).

Section sender.
Context {P Data : Type} (downflow : downflow_fun P) (push_back : P → Data → P).
(** The size of the buffer of a routine, [CORPC_MAX_BUFFER_SIZE] in the code. *)
Context (bufsize : Z).

(** What the sender keeps for one connection: the tasks for it, the pipeline
    with [datas_], the members of [Connection] the sender uses, the buffer of
    the routine and the socket.  [accepted] and [cleaned] record the data put
    into [datas_] and handed to [cleanDataOnClosing]. *)
Record t : Type := Make {
  queue : list (task Data);
  added : bool;
  pipe : P;
  isClosing_ : bool;
  routineHang_ : bool;
  closeSem_ : Z;
  co : routine;
  buf : bytes;
  sock : socket;
  accepted : list Data;
  cleaned : list Data;
}.

(** [send], [addConnection] and [removeConnection] of the senders. *)
Definition enqueue (k : task Data) (s : t) : t :=
  {| queue := queue s ++ [k]; added := added s; pipe := pipe s; isClosing_ := isClosing_ s;
     routineHang_ := routineHang_ s; closeSem_ := closeSem_ s; co := co s; buf := buf s;
     sock := sock s; accepted := accepted s; cleaned := cleaned s |}.
Definition send (d : Data) (s : t) : t := enqueue (DATA d) s.
Definition removeConnection (s : t) : t := enqueue CLOSE s.
Definition addConnection (s : t) : t :=
  let s := enqueue INIT s in
  {| queue := queue s; added := true; pipe := pipe s; isClosing_ := isClosing_ s;
     routineHang_ := routineHang_ s; closeSem_ := closeSem_ s; co := co s; buf := buf s;
     sock := sock s; accepted := accepted s; cleaned := cleaned s |}.

(** [co_resume] of the connection routine when it hangs: it goes on after
    [co_yield_ct] and clears [routineHang_]. *)
Definition resume_if_hanging (s : t) : t :=
  if routineHang_ s then
    {| queue := queue s; added := added s; pipe := pipe s; isClosing_ := isClosing_ s;
       routineHang_ := false; closeSem_ := closeSem_ s; co := Running; buf := buf s;
       sock := sock s; accepted := accepted s; cleaned := cleaned s |}
  else s.

(** [Sender::taskQueueRoutine]: one task. *)
Definition handle (k : task Data) (s : t) : t :=
  match k with
  | INIT =>
    {| queue := queue s; added := added s; pipe := pipe s; isClosing_ := isClosing_ s;
       routineHang_ := false; closeSem_ := closeSem_ s; co := Running; buf := buf s;
       sock := sock s; accepted := accepted s; cleaned := cleaned s |}
  | CLOSE =>
    if isClosing_ s then s else
    resume_if_hanging
      {| queue := queue s; added := added s; pipe := pipe s; isClosing_ := true;
         routineHang_ := routineHang_ s; closeSem_ := closeSem_ s; co := co s; buf := buf s;
         sock := sock s; accepted := accepted s; cleaned := cleaned s |}
  | DATA d =>
    if isClosing_ s then
      {| queue := queue s; added := added s; pipe := pipe s; isClosing_ := isClosing_ s;
         routineHang_ := routineHang_ s; closeSem_ := closeSem_ s; co := co s; buf := buf s;
         sock := sock s; accepted := accepted s; cleaned := cleaned s ++ [d] |}
    else
    resume_if_hanging
      {| queue := queue s; added := added s; pipe := push_back (pipe s) d; isClosing_ := isClosing_ s;
         routineHang_ := routineHang_ s; closeSem_ := closeSem_ s; co := co s; buf := buf s;
         sock := sock s; accepted := accepted s ++ [d]; cleaned := cleaned s |}
  end.

Definition pop (s : t) : option (task Data * t) :=
  match queue s with
  | [] => None
  | k :: q => Some (k,
    {| queue := q; added := added s; pipe := pipe s; isClosing_ := isClosing_ s;
       routineHang_ := routineHang_ s; closeSem_ := closeSem_ s; co := co s; buf := buf s;
       sock := sock s; accepted := accepted s; cleaned := cleaned s |})
  end.

(** The end of [Sender::connectionRoutine], after the loop. *)
Definition finish (r : reason) (s : t) : t :=
  {| queue := queue s; added := added s; pipe := pipe s; isClosing_ := true;
     routineHang_ := routineHang_ s; closeSem_ := closeSem_ s + 1; co := Ended r; buf := buf s;
     sock := sock s; accepted := accepted s; cleaned := cleaned s |}.

(** [Sender::connectionRoutine]: a round of the loop up to [write]. *)
Definition fill (s : t) : outcome t :=
  '(ok, p, b, dataSize) ← downflow (buf s) bufsize (pipe s);
  let at_ c h := {| queue := queue s; added := added s; pipe := p; isClosing_ := isClosing_ s;
     routineHang_ := h; closeSem_ := closeSem_ s; co := c; buf := b;
     sock := sock s; accepted := accepted s; cleaned := cleaned s |} in
  if negb ok then Ok (finish EncodeError (at_ Running (routineHang_ s))) else
  if bool_decide (dataSize = 0) then
    if isClosing_ s then Ok (finish Drained (at_ Running (routineHang_ s)))
    else Ok (at_ Hanging true)
  else Ok (at_ (Writing dataSize) (routineHang_ s)).

(** [Sender::connectionRoutine]: the round from [write] on. *)
Definition flush (size : Z) (s : t) : outcome t :=
  '(ret, sk) ← write (sock s) (buf s) size;
  let s := {| queue := queue s; added := added s; pipe := pipe s; isClosing_ := isClosing_ s;
     routineHang_ := routineHang_ s; closeSem_ := closeSem_ s; co := Running; buf := buf s;
     sock := sk; accepted := accepted s; cleaned := cleaned s |} in
  if bool_decide (ret < 0) then Ok (finish WriteError s) else
  _ ← require (ret = size);
  Ok s.

(** The socket answers the coming calls of [::write] as it likes. *)
Definition set_script (sc : list (Z * Z)) (s : t) : t :=
  {| queue := queue s; added := added s; pipe := pipe s; isClosing_ := isClosing_ s;
     routineHang_ := routineHang_ s; closeSem_ := closeSem_ s; co := co s; buf := buf s;
     sock := Socket sc (wire (sock s)) (errno (sock s)); accepted := accepted s; cleaned := cleaned s |}.

Inductive step : t → t → Prop :=
  | step_add s : added s = false → step s (addConnection s)
  | step_send s d : step s (send d s)
  | step_remove s : step s (removeConnection s)
  | step_handle s k s' : pop s = Some (k, s') → step s (handle k s')
  | step_fill s s' : co s = Running → fill s = Ok s' → step s s'
  | step_flush s size sc s' : co s = Writing size → flush size (set_script sc s) = Ok s' → step s s'.

(** [Connection::Connection] and a routine that has not started. *)
Definition init (p : P) : t :=
  {| queue := []; added := false; pipe := p; isClosing_ := false; routineHang_ := false;
     closeSem_ := 0; co := Absent; buf := zeros bufsize; sock := Socket [] [] 0;
     accepted := []; cleaned := [] |}.
End sender.
Arguments t : clear implicits.

(** ** Invariant *)
Section invariant.
Context {P Data : Type} (downflow : downflow_fun P) (push_back : P → Data → P).
Context (bufsize : Z) (Hbufsize : 0 < bufsize < 2^31).
Context `{!Downflow bufsize downflow push_back}.

Definition is_init (k : task Data) : bool := match k with INIT => true | _ => false end.
Definition inits (q : list (task Data)) : nat := length (List.filter is_init q).
Definition started (c : routine) : bool := match c with Absent => false | _ => true end.
Definition ended (c : routine) : bool := match c with Ended _ => true | _ => false end.

(** Where the frames [fs] of the accepted data are: on the wire, in the
    buffer, or left in the pipeline. *)
Definition stream_ok (s : t P Data) (fs : bytes) : Prop :=
  match co s with
  | Ended r => wire (sock s) `prefix_of` fs ∧ (r = Drained → wire (sock s) = fs) ∧ r ≠ EncodeError
  | Writing size => ∃ us, left (pipe s) = Some us ∧ fs = wire (sock s) ++ ztake size (buf s) ++ us
  | _ => ∃ us, left (pipe s) = Some us ∧ fs = wire (sock s) ++ us
  end.

Lemma stream_prefix s fs : stream_ok s fs → wire (sock s) `prefix_of` fs.
Proof.
  unfold stream_ok. intros Hok.
  destruct (co s); try by destruct Hok as (us & _ & ->); apply prefix_app_r.
  by destruct Hok.
Qed.

Record inv (fr : Data → option bytes) (s : t P Data) : Prop := {
  inv_buf : zlen (buf s) = bufsize;
  inv_size size : co s = Writing size → 0 < size ≤ bufsize;
  inv_hang : routineHang_ s = true ↔ co s = Hanging;
  inv_init : (inits (queue s) + (if started (co s) then 1 else 0) ≤ (if added s then 1 else 0))%nat;
  inv_sem : closeSem_ s = if ended (co s) then 1 else 0;
  inv_closing : ended (co s) = true → isClosing_ s = true;
  inv_pipe : ended (co s) = false → dinv (pipe s) ∧ enc (pipe s) = fr;
  inv_idle : co s = Hanging → left (pipe s) = Some [] ∧ isClosing_ s = false;
  inv_stream fs : frames fr (accepted s) = Some fs → stream_ok s fs;
}.

Lemma flag_false (b : bool) (Q : Prop) : (b = true ↔ Q) → ¬ Q → b = false.
Proof. destruct b; naive_solver. Qed.

Lemma inits_app q k : inits (q ++ [k]) = (inits q + if is_init k then 1 else 0)%nat.
Proof. unfold inits. rewrite List.filter_app, length_app. simpl. by destruct (is_init k). Qed.

Lemma inv_enqueue fr k s : is_init k = false → inv fr s → inv fr (enqueue k s).
Proof.
  intros Hk [? ? ? Hi ? ? ? ? ?]. constructor; try done. simpl. rewrite inits_app, Hk. lia.
Qed.

Lemma inv_add fr s : added s = false → inv fr s → inv fr (addConnection s).
Proof.
  intros Ha [? ? ? Hi ? ? ? ? ?]. constructor; try done. simpl. rewrite inits_app. simpl.
  rewrite Ha in Hi. destruct (started _); lia.
Qed.

Lemma inv_pop fr s k s' : pop s = Some (k, s') → inv fr s →
  inv fr s' ∧ (is_init k = true → co s' = Absent ∧ added s' = true ∧ inits (queue s') = 0%nat).
Proof.
  unfold pop. destruct (queue s) as [|k0 q] eqn:Eq; [done|]. intros [= <- <-] [? ? ? Hi ? ? ? ? ?].
  rewrite Eq in Hi. unfold inits in *. simpl in *. split.
  - constructor; try done. simpl. unfold inits. destruct (is_init k0); simpl in *; lia.
  - intros Hk0. rewrite Hk0 in Hi. simpl in Hi. destruct (co s) eqn:Ec, (added s); simpl in *; try lia. split_and!; [done..|lia].
Qed.

Lemma inv_handle fr s k : inv fr s →
  (is_init k = true → co s = Absent ∧ added s = true ∧ inits (queue s) = 0%nat) →
  inv fr (handle push_back k s).
Proof.
  intros [Hb Hsz Hh Hi Hs Hc Hp Hid Hst] Hk. destruct k as [| |d]; simpl.
  - destruct (Hk eq_refl) as (Hco & Ha & Hq). unfold stream_ok in *. rewrite Hco in *. simpl in *.
    constructor; simpl; try done. by rewrite Ha, Hq.
  - destruct (isClosing_ s) eqn:Ecl; [constructor; rewrite ?Ecl; done|].
    unfold resume_if_hanging. simpl. destruct (routineHang_ s) eqn:Ehg.
    + assert (co s = Hanging) as Hco by (by apply Hh). unfold stream_ok in *. rewrite Hco in *. simpl in *.
      constructor; simpl; done.
    + assert (co s ≠ Hanging) by (intros E; apply Hh in E; done).
      constructor; simpl; rewrite ?Ehg; try done.
  - destruct (isClosing_ s) eqn:Ecl; [constructor; simpl; rewrite ?Ecl; done|].
    assert (ended (co s) = false) as Hend
      by (destruct (ended (co s)); [by specialize (Hc eq_refl)|done]).
    destruct (Hp Hend) as [Hd He].
    assert (∀ fs, frames fr (accepted s ++ [d]) = Some fs → ∃ fs1 f us,
        stream_ok s fs1 ∧ fs = fs1 ++ f ∧ left (pipe s) = Some us ∧ left (push_back (pipe s) d) = Some (us ++ f))
      as Hpush.
    { intros fs Hfs. destruct (frames_snoc _ _ _ _ Hfs) as (fs1 & f & H1 & H2 & ->).
      pose proof (Hst fs1 H1) as Hs1.
      assert (∃ us, left (pipe s) = Some us) as [us Hus]
        by (unfold stream_ok in Hs1; destruct (co s); try done; destruct Hs1 as (us & ? & _); eauto).
      exists fs1, f, us. split_and!; try done. apply push_left; [done|]. by rewrite He. }
    unfold resume_if_hanging. simpl. destruct (routineHang_ s) eqn:Ehg.
    + assert (co s = Hanging) as Hco by (by apply Hh). unfold stream_ok in *. rewrite Hco in *. simpl in *.
      constructor; simpl; try done.
      * intros _. split; [by apply push_dinv|by rewrite push_enc].
      * intros fs Hfs. destruct (Hpush fs Hfs) as (fs1 & f & us & (us' & Hus' & ->) & -> & Hus & Hl).
        rewrite Hus in Hus'. injection Hus' as <-. exists (us ++ f). split; [done|]. by rewrite app_assoc.
    + assert (co s ≠ Hanging) by (intros E; apply Hh in E; done).
      constructor; simpl; rewrite ?Ehg; try done.
      * intros _. split; [by apply push_dinv|by rewrite push_enc].
      * intros fs Hfs. destruct (Hpush fs Hfs) as (fs1 & f & us & Hs1 & -> & Hus & Hus').
        unfold stream_ok in *. simpl. destruct (co s); try done;
          destruct Hs1 as (us1 & Hus1 & ->); rewrite Hus in Hus1; injection Hus1 as <-;
          exists (us ++ f); by rewrite ?app_assoc.
Qed.

Lemma inv_fill fr s : co s = Running → inv fr s →
  ∃ s', fill downflow bufsize s = Ok s' ∧ inv fr s'.
Proof.
  intros Hco [Hb Hsz Hh Hi Hs Hc Hp Hid Hst]. unfold stream_ok in Hst. rewrite Hco in *. simpl in *.
  destruct (Hp eq_refl) as [Hd He].
  assert (routineHang_ s = false) as Hhg by (by eapply flag_false).
  destruct (downflow_returns (pipe s) (buf s) Hd) as (ok & p & b & size & Hdf & Hlb & Hsr & Hok & Hz); [lia|].
  unfold fill. rewrite Hdf. simpl.
  assert (∀ fs, frames fr (accepted s) = Some fs → ok = true ∧ ∃ us,
    left p = Some us ∧ fs = wire (sock s) ++ ztake size b ++ us) as Hpre.
  { intros fs Hfs. destruct (Hst fs Hfs) as (us & Hus & ->).
    destruct (downflow_prefix (pipe s) us (buf s) Hd Hus) as (p' & b' & size' & us' & Hdf' & Hl' & ->); [lia|].
    rewrite Hdf in Hdf'. injection Hdf' as -> <- <- <-. eauto. }
  destruct ok; simpl.
  2: { eexists. split; [done|]. constructor; simpl; rewrite ?Hhg; try done; [congruence|lia|].
       intros fs Hfs. by destruct (Hpre fs Hfs). }
  destruct (Hok eq_refl) as [Hd' He']. case_bool_decide as Hs0.
  - destruct (Hz eq_refl Hs0) as [_ Hl]. subst size. destruct (isClosing_ s) eqn:Ecl.
    + eexists. split; [done|]. constructor; simpl; rewrite ?Hhg; try done; [congruence|lia|].
      intros fs Hfs. destruct (Hpre fs Hfs) as (_ & us & Hus & ->). rewrite Hl in Hus. injection Hus as <-.
      unfold stream_ok. cbn [co sock finish]. rewrite ztake_0, app_nil_r by lia. split_and!; done.
    + eexists. split; [done|]. constructor; simpl; rewrite ?Ecl; try done; [congruence| |].
      * intros _. split; [done|congruence].
      * intros fs Hfs. destruct (Hpre fs Hfs) as (_ & us & Hus & ->). unfold stream_ok. cbn [co sock pipe].
        exists us. by rewrite ztake_0 by lia.
  - eexists. split; [done|]. constructor; simpl; rewrite ?Hhg; try done; [congruence|intros ? [= <-]; lia| |].
    + intros _. split; [done|congruence].
    + intros fs Hfs. by destruct (Hpre fs Hfs).
Qed.

Lemma inv_flush fr s size sc s' : co s = Writing size → inv fr s →
  flush size (set_script sc s) = Ok s' → inv fr s'.
Proof.
  intros Hco [Hb Hsz Hh Hi Hs Hc Hp Hid Hst]. unfold stream_ok in Hst. rewrite Hco in *. simpl in *.
  pose proof (Hsz _ eq_refl) as Hr.
  assert (routineHang_ s = false) as Hhg by (by eapply flag_false).
  unfold flush. intros Hf. apply bind_Ok_inv in Hf as ([ret sk] & Hw & Hf). simpl in Hf, Hw.
  apply write_spec in Hw as [[-> Hw]|(-> & k & Hk & Hw)]; simpl in *; [| |lia..].
  - rewrite bool_decide_false, require_true in Hf by lia. injection Hf as <-.
    constructor; simpl; rewrite ?Hhg; try done. intros fs Hfs. destruct (Hst fs Hfs) as (us & Hus & ->).
    unfold stream_ok. simpl. exists us. split; [done|]. by rewrite Hw, app_assoc.
  - injection Hf as <-. constructor; simpl; rewrite ?Hhg; try done; [lia|].
    intros fs Hfs. destruct (Hst fs Hfs) as (us & Hus & ->).
    unfold stream_ok. simpl. split_and!; [|done..]. rewrite Hw.
    apply prefix_app. apply prefix_app_r. rewrite <-(ztake_zdrop k (ztake size (buf s))).
    rewrite ztake_ztake, Z.min_l by lia. by apply prefix_app_r.
Qed.

Lemma inv_step fr s s' : inv fr s → step downflow push_back bufsize s s' → inv fr s'.
Proof.
  intros Hinv Hstep. destruct Hstep as [s Ha|s d|s|s k s' Hpop|s s' Hco Hf|s size sc s' Hco Hf].
  - by apply inv_add.
  - by apply inv_enqueue.
  - by apply inv_enqueue.
  - destruct (inv_pop _ _ _ _ Hpop Hinv). by apply inv_handle.
  - destruct (inv_fill _ _ Hco Hinv) as (s1 & Hf1 & ?). by rewrite Hf in Hf1; injection Hf1 as ->.
  - by eapply inv_flush.
Qed.

Lemma inv_initial p : dinv p → left p = Some [] → inv (enc p) (init bufsize p).
Proof.
  intros Hd Hl. constructor; [apply zlen_zeros; lia|try done..].
  intros fs [= <-]. by exists [].
Qed.

(** C19 (sender_never_sleeps_on_data).  In every reachable state of the sender, for
    any interleaving of task handling with the connection routine and any
    behaviour of the socket: a routine that hangs in [co_yield_ct] has
    nothing left to send and its connection is not being closed, so no
    wake-up is lost. *)
Theorem sender_never_sleeps_on_data p s :
  dinv p → left p = Some [] → reach (step downflow push_back bufsize) (init bufsize p) s →
  co s = Hanging → left (pipe s) = Some [] ∧ isClosing_ s = false ∧ routineHang_ s = true.
Proof.
  intros Hd Hl Hr Hco.
  assert (inv (enc p) s) as [_ _ Hh _ _ _ _ Hid _]
    by (eapply reach_invariant; [by apply inv_initial|eapply inv_step|done]).
  destruct (Hid Hco). split_and!; [done..|by apply Hh].
Qed.

(** C3 (sender_stream).  When every accepted data item has an encoding, the
    bytes on the wire are always a prefix of the frames of the accepted data
    in order, all of them when the routine ended because the connection was
    closed and drained, and otherwise the rest is in the buffer or the
    pipeline. *)
Theorem sender_stream p s fs :
  dinv p → left p = Some [] → reach (step downflow push_back bufsize) (init bufsize p) s →
  frames (enc p) (accepted s) = Some fs →
  wire (sock s) `prefix_of` fs ∧ stream_ok s fs.
Proof.
  intros Hd Hl Hr Hfs.
  assert (inv (enc p) s) as [_ _ _ _ _ _ _ _ Hst]
    by (eapply reach_invariant; [by apply inv_initial|eapply inv_step|done]).
  pose proof (Hst fs Hfs) as Hok. split; [by apply stream_prefix|done].
Qed.

(** [closeSem_] is posted exactly once, when the
    routine ends, and the connection is marked as closing from then on: the
    receiver routine that waits for it is released once. *)
Theorem sender_close_once p s :
  dinv p → left p = Some [] → reach (step downflow push_back bufsize) (init bufsize p) s →
  (closeSem_ s = 0 ∨ closeSem_ s = 1) ∧
  (closeSem_ s = 1 ↔ ∃ r, co s = Ended r) ∧ (closeSem_ s = 1 → isClosing_ s = true).
Proof.
  intros Hd Hl Hr.
  assert (inv (enc p) s) as [_ _ _ _ Hs Hc _ _ _]
    by (eapply reach_invariant; [by apply inv_initial|eapply inv_step|done]).
  destruct (co s); simpl in *; rewrite Hs; split_and!; naive_solver lia.
Qed.

(** The routine never gets stuck: a running routine can
    take its next step (no assertion fails and no buffer is overrun). *)
Theorem sender_progress p s :
  dinv p → left p = Some [] → reach (step downflow push_back bufsize) (init bufsize p) s →
  (co s = Running → ∃ s', fill downflow bufsize s = Ok s') ∧
  (∀ size, co s = Writing size → ∃ s', flush size (set_script [(size, 0)] s) = Ok s' ∧ co s' = Running).
Proof.
  intros Hd Hl Hr.
  assert (inv (enc p) s) as Hinv
    by (eapply reach_invariant; [by apply inv_initial|eapply inv_step|done]).
  split; [intros Hco; destruct (inv_fill _ _ Hco Hinv) as (s' & ? & _); eauto|].
  intros size Hco. pose proof (inv_size _ _ Hinv _ Hco) as Hsz. pose proof (inv_buf _ _ Hinv).
  unfold flush, write. simpl.
  rewrite (bool_decide_false (size < 0)), (bool_decide_true (size > 0)) by lia.
  rewrite (u32_small size) by lia. rewrite (require_true (size ≤ size)) by lia. simpl.
  rewrite !u32_small, Z.sub_diag by lia. rewrite bool_decide_false by lia. simpl.
  rewrite bool_decide_false, require_true by lia. eauto.
Qed.
End invariant.

(** A pipeline that sends byte strings as they are, for the examples. *)
Module Plain.
Section plain.
Context (space : Z) (Hspace : 0 < space).
Definition plain_enc (d : bytes) : option bytes := if bool_decide (0 < zlen d ≤ space) then Some d else None.
Definition plain_downflow (buf : bytes) (space : Z) (p : list bytes) : outcome (bool * list bytes * bytes * Z) :=
  match p with
  | [] => Ok (true, [], buf, 0)
  | d :: p' => if bool_decide (0 < zlen d ≤ space) then Ok (true, p', splice buf 0 d, zlen d) else Ok (false, p, buf, 0)
  end.
Definition plain_push (p : list bytes) (d : bytes) : list bytes := p ++ [d].

#[global] Program Instance plain_laws : Downflow space plain_downflow plain_push := {|
  dinv _ := True; left := frames plain_enc; enc _ := plain_enc |}.
Next Obligation.
  intros [|d p] buf _ Hb; simpl.
  { exists true, [], buf, 0. split_and!; try done; lia. }
  case_bool_decide.
  - exists true, p, (splice buf 0 d), (zlen d). rewrite zlen_splice by lia. split_and!; try done; lia.
  - exists false, (d :: p), buf, 0. split_and!; try done; lia.
Qed.
Next Obligation.
  intros [|d p] us buf _ Hu Hb; simpl in *.
  { injection Hu as <-. eexists [], buf, 0, []. split_and!; [done..|]. by rewrite ztake_0. }
  destruct (plain_enc d) as [f|] eqn:Ed; [|done]. simpl in Hu.
  destruct (frames plain_enc p) as [fs|] eqn:E; [|done]. injection Hu as <-.
  unfold plain_enc in Ed. destruct (decide (0 < zlen d ≤ space)) as [Hd|Hd];
    [rewrite bool_decide_true in Ed by done|by rewrite bool_decide_false in Ed by done]. injection Ed as <-.
  rewrite bool_decide_true by done.
  eexists p, (splice buf 0 d), (zlen d), fs. split_and!; [done|done|].
  rewrite <-(Z.add_0_l (zlen d)) at 1. rewrite splice_append, ztake_0 by lia. done.
Qed.
Next Obligation. done. Qed.
Next Obligation. done. Qed.
Next Obligation. intros p d us f Hu Hd. by apply frames_app. Qed.
End plain.

(** A run: connect, send two byte strings, close; the socket is not ready
    at first and takes the first string in two pieces. *)
Abbreviation state := (t (list bytes) bytes).
Definition popped (s : state) : state :=
  match pop s with Some (k, s') => handle plain_push k s' | None => s end.
Definition s0 : state := init 8 [].
Definition s1 : state := popped (addConnection s0).
Definition s2 : state := get s1 (fill plain_downflow 8 s1).
Definition s3 : state := popped (send [1; 2; 3] s2).
Definition s4 : state := get s3 (fill plain_downflow 8 s3).
Definition s5 : state := get s4 (flush 3 (set_script [(-1, EAGAIN); (2, 0); (1, 0)] (popped (send [4; 5] s4)))).
Definition s6 : state := get s5 (fill plain_downflow 8 s5).
Definition s7 : state := get s6 (flush 2 (set_script [(2, 0)] s6)).
Definition s8 : state := popped (removeConnection s7).
Definition s9 : state := get s8 (fill plain_downflow 8 s8).

Abbreviation reachable := (reach (step plain_downflow plain_push 8) s0).
Lemma step_popped s : isok (match pop s with Some _ => Ok tt | None => Fault OutOfFuel end) = true →
  step plain_downflow plain_push 8 s (popped s).
Proof. unfold popped. destruct (pop s) as [[k s']|] eqn:E; [|done]. intros _. by apply step_handle. Qed.

Lemma reach_s2 : reachable s2.
Proof.
  apply (reach_step _ _ s1); [|apply step_fill; [done|by apply get_ok]].
  apply (reach_step _ _ (addConnection s0)); [|by apply step_popped].
  apply (reach_step _ _ s0); [apply reach_refl|]. by apply step_add.
Qed.
Lemma reach_s4 : reachable s4.
Proof.
  apply (reach_step _ _ s3); [|apply step_fill; [done|by apply get_ok]].
  apply (reach_step _ _ (send [1; 2; 3] s2)); [|by apply step_popped].
  apply (reach_step _ _ s2); [apply reach_s2|]. by apply step_send.
Qed.
Lemma reach_s9 : reachable s9.
Proof.
  apply (reach_step _ _ s8); [|apply step_fill; [done|by apply get_ok]].
  apply (reach_step _ _ (removeConnection s7)); [|by apply step_popped].
  apply (reach_step _ _ s7); [|apply step_remove].
  apply (reach_step _ _ s6); [|by eapply (step_flush _ _ _ _ 2); [|apply get_ok]].
  apply (reach_step _ _ s5); [|apply step_fill; [done|by apply get_ok]].
  apply (reach_step _ _ (popped (send [4; 5] s4))); [|by eapply (step_flush _ _ _ _ 3); [|apply get_ok]].
  apply (reach_step _ _ (send [4; 5] s4)); [|by apply step_popped].
  apply (reach_step _ _ s4); [apply reach_s4|]. by apply step_send.
Qed.
End Plain.

Import Plain.
Lemma sender_never_sleeps_on_data_witness :
  co s2 = Hanging ∧ left (Downflow:=plain_laws 8 ltac:(done)) (pipe s2) = Some [] ∧ isClosing_ s2 = false ∧
  routineHang_ s2 = true.
Proof.
  split; [done|].
  apply (sender_never_sleeps_on_data plain_downflow plain_push 8 ltac:(done) [] s2); [done|done|apply reach_s2|done].
Defined.

Lemma sender_stream_witness :
  [1; 2; 3; 4; 5] `prefix_of` [1; 2; 3; 4; 5] ∧
  stream_ok plain_downflow plain_push 8 (Downflow0:=plain_laws 8 ltac:(done)) s9 [1; 2; 3; 4; 5].
Proof.
  apply (sender_stream plain_downflow plain_push 8 ltac:(done) [] s9); [done|done|apply reach_s9|done].
Defined.

Lemma sender_close_once_witness : closeSem_ s9 = 1 ∧ isClosing_ s9 = true.
Proof.
  split; [done|].
  apply (sender_close_once plain_downflow plain_push 8 ltac:(done) (Downflow0:=plain_laws 8 ltac:(done)) [] s9);
    [done|done|apply reach_s9|done].
Defined.

Lemma sender_progress_witness :
  co s4 = Writing 3 ∧ ∃ s', flush 3 (set_script [(3, 0)] s4) = Ok s' ∧ co s' = Running.
Proof.
  split; [done|].
  apply (sender_progress plain_downflow plain_push 8 ltac:(done) (Downflow0:=plain_laws 8 ltac:(done)) [] s4);
    [done|done|apply reach_s4|done].
Defined.
End Sender.
