(* ===== verification/Lifecycle.v ===== *)
(** * corpc_io.cpp: the life of a connection, receiver and sender together

    [Receiver::connectionRoutine] reads the socket of a connection until it
    fails, asks the sender to close ([Sender::removeConnection]), waits for
    [closeSem_] and closes the descriptor; the sender posts [closeSem_] when its
    own routine has ended.  The two run in different threads and share the
    descriptor, so the order matters: a descriptor closed while the sender
    still writes may already belong to another connection.  The sender is the
    one of Sender.v, with all its steps.  The theorems are that the descriptor
    is closed only after the sender has stopped, that [onClose] runs once, and
    that a receiver that waits can always be released. *)
From S2P Require Import Prelude Define Sending Sender.
Open Scope Z_scope.

Module Receiver.
Import Connection Sender.

(** Where [Receiver::connectionRoutine] is: the connection is not yet with the
    receiver; its task is queued; in [read], with the retries made so far;
    waiting for [closeSem_]; past the wait; after [close(fd)]; finished. *)
Inductive routine : Type :=
  | NotAdded | Queued | Reading (retryTimes : Z) | Waiting | Released | FdClosed | Done.

#[global] Instance routine_eq_dec : EqDecision routine.
Proof. solve_decision. Defined.

Section receiver.
Context {P Data : Type} (downflow : downflow_fun P) (push_back : P → Data → P) (bufsize : Z).

(** The connection as both threads see it.  [taken] counts the units taken
    from [closeSem_], [onCloses] the calls of [onClose]. *)
Record t : Type := Make {
  snd : Sender.t P Data;
  rco : routine;
  taken : Z;
  fd_open : bool;
  closed_ : bool;
  onCloses : nat;
}.

Definition set_snd (x : Sender.t P Data) (s : t) : t :=
  {| snd := x; rco := rco s; taken := taken s; fd_open := fd_open s; closed_ := closed_ s;
     onCloses := onCloses s |}.
Definition set_rco (c : routine) (s : t) : t :=
  {| snd := snd s; rco := c; taken := taken s; fd_open := fd_open s; closed_ := closed_ s;
     onCloses := onCloses s |}.

(** [IO::addConnection] hands the connection to the sender first and then to
    the receiver; this is the second half.  The first is the sender's own
    [addConnection]. *)
Definition addConnection (s : t) : t := set_rco Queued s.

(** [Receiver::connectionDispatchRoutine]: the routine is started. *)
Definition dispatch (s : t) : t := set_rco (Reading 0) s.

(** [Receiver::connectionRoutine] after its loop: [removeConnection] and
    [shutdown], which shows only in the results of the sender's [::write]. *)
Definition leave (s : t) : t := set_rco Waiting (set_snd (Sender.removeConnection (snd s)) s).

(** [Receiver::connectionRoutine]: one round of the loop, given the result of
    [read], [errno] and the result of [upflow]. *)
Definition receive (retryTimes ret errno : Z) (upflow : bool) (s : t) : t :=
  if bool_decide (ret ≤ 0) then
    if bool_decide (ret < 0 ∧ errno = EAGAIN ∧ retryTimes < 5)
    then set_rco (Reading (retryTimes + 1)) s
    else leave s
  else if negb upflow then leave s
  else set_rco (Reading retryTimes) s.

(** [closeSem_.wait()]: a unit is taken when there is one. *)
Definition wait (s : t) : option t :=
  if bool_decide (taken s < closeSem_ (snd s)) then
    Some {| snd := snd s; rco := Released; taken := taken s + 1; fd_open := fd_open s;
            closed_ := closed_ s; onCloses := onCloses s |}
  else None.

Definition close_fd (s : t) : t :=
  {| snd := snd s; rco := FdClosed; taken := taken s; fd_open := false; closed_ := closed_ s;
     onCloses := onCloses s |}.

(** [connection->closed_ = true] and [onClose]. *)
Definition finish (s : t) : t :=
  {| snd := snd s; rco := Done; taken := taken s; fd_open := fd_open s; closed_ := true;
     onCloses := S (onCloses s) |}.

(** [Connection::isOpen] and [Connection::close], from any thread. *)
Definition isOpen (s : t) : bool := negb (isClosing_ (snd s)) && negb (closed_ s).
Definition close (s : t) : t :=
  if isOpen s then set_snd (Sender.removeConnection (snd s)) s else s.

Inductive step : t → t → Prop :=
  | step_sender s x : Sender.step downflow push_back bufsize (snd s) x → step s (set_snd x s)
  | step_close s : step s (close s)
  | step_add s : added (snd s) = true → rco s = NotAdded → step s (addConnection s)
  | step_dispatch s : rco s = Queued → step s (dispatch s)
  | step_receive s n ret errno up : rco s = Reading n → step s (receive n ret errno up s)
  | step_wait s s' : rco s = Waiting → wait s = Some s' → step s s'
  | step_close_fd s : rco s = Released → step s (close_fd s)
  | step_finish s : rco s = FdClosed → step s (finish s).

Definition init (p : P) : t :=
  {| snd := Sender.init bufsize p; rco := NotAdded; taken := 0; fd_open := true; closed_ := false;
     onCloses := 0 |}.
End receiver.
Arguments t : clear implicits.

(** ** Invariant *)
Section invariant.
Context {P Data : Type} (downflow : downflow_fun P) (push_back : P → Data → P).
Context (bufsize : Z) (Hbufsize : 0 < bufsize < 2^31).
Context `{!Downflow bufsize downflow push_back}.

Abbreviation sstep := (Sender.step downflow push_back bufsize).

(** Once the connection is with the sender its routine is started or will
    be. *)
Definition starting (x : Sender.t P Data) : Prop :=
  added x = true → (inits (queue x) + (if started (co x) then 1 else 0) = 1)%nat.

(** The sender has been told to close. *)
Definition closing (x : Sender.t P Data) : Prop :=
  isClosing_ x = true ∨ CLOSE ∈ queue x.

(** The phases of the receiver: the sender has been told to close; the unit
    of the semaphore has been taken. *)
Definition leaving (c : routine) : bool :=
  match c with Waiting | Released | FdClosed | Done => true | _ => false end.
Definition released (c : routine) : bool :=
  match c with Released | FdClosed | Done => true | _ => false end.

Record linv (fr : Data → option bytes) (s : t P Data) : Prop := {
  l_snd : Sender.inv downflow push_back bufsize fr (snd s);
  l_start : starting (snd s);
  l_added : rco s ≠ NotAdded → added (snd s) = true;
  l_retry n : rco s = Reading n → 0 ≤ n ≤ 5;
  l_leave : leaving (rco s) = true → closing (snd s);
  l_taken : taken s = if released (rco s) then 1 else 0;
  l_released : released (rco s) = true → ended (co (snd s)) = true;
  l_fd : fd_open s = negb (bool_decide (rco s = FdClosed ∨ rco s = Done));
  l_closed : closed_ s = bool_decide (rco s = Done);
  l_once : onCloses s = if bool_decide (rco s = Done) then 1%nat else 0%nat;
}.

(** What a step of the sender keeps. *)
Record keeps (x x' : Sender.t P Data) : Prop := {
  k_start : starting x → starting x';
  k_close : closing x → closing x';
  k_added : added x = true → added x' = true;
  k_ended : ended (co x) = true → ended (co x') = true;
}.

Lemma keeps_finish r x : started (co x) = true → keeps x (Sender.finish r x).
Proof. intros Hs. constructor; unfold starting, closing; simpl; rewrite ?Hs; auto. Qed.

Lemma keeps_trans x y z : keeps x y → keeps y z → keeps x z.
Proof. intros [] []. constructor; auto. Qed.

Lemma keeps_enqueue x k : is_init k = false → keeps x (Sender.enqueue k x).
Proof.
  intros Hk. constructor; unfold starting, closing; simpl; try done.
  - rewrite inits_app, Hk. intros Hs Ha. specialize (Hs Ha). lia.
  - set_solver.
Qed.

Lemma keeps_resume x : (routineHang_ x = true → co x = Hanging) → keeps x (resume_if_hanging x).
Proof.
  intros Hh. unfold resume_if_hanging. destruct (routineHang_ x) eqn:E; [|by constructor].
  constructor; unfold starting, closing; simpl; rewrite ?Hh by done; done.
Qed.

Lemma keeps_same x y : added y = added x → co y = co x → inits (queue y) = inits (queue x) →
  (closing x → closing y) → keeps x y.
Proof. intros Ha Hc Hi Hcl. constructor; unfold starting; rewrite ?Ha, ?Hc, ?Hi; auto. Qed.

Lemma keeps_task fr x k x' : Sender.inv downflow push_back bufsize fr x →
  pop x = Some (k, x') → keeps x (handle push_back k x').
Proof.
  intros Hinv Hpop. destruct (inv_pop _ _ _ _ _ _ _ Hpop Hinv) as [Hx' Hk].
  unfold pop in Hpop. destruct (queue x) as [|k0 q] eqn:Eq; [done|]. injection Hpop as <- Ex'.
  assert (added x' = added x ∧ co x' = co x ∧ queue x' = q ∧ isClosing_ x' = isClosing_ x)
    as (Ha & Hc & Hq & Hcl) by (subst; done).
  assert (routineHang_ x' = true → co x' = Hanging) as Hh by (intros; by apply (inv_hang _ _ _ _ _ Hx')).
  assert (inits (queue x) = (inits q + if is_init k0 then 1 else 0)%nat) as Hi
    by (rewrite Eq; unfold inits; simpl; destruct (is_init k0); simpl; lia).
  assert (closing x → k0 ≠ CLOSE → closing x') as Hcx by (unfold closing; rewrite Hcl, Hq, Eq; set_solver).
  destruct k0 as [| |d]; cbn [handle is_init] in *.
  - destruct (Hk eq_refl) as (Hco & Had & Hq0). constructor; simpl.
    + intros _ _. simpl. by rewrite Hq0.
    + intros Hx. by apply Hcx.
    + done.
    + by rewrite <-Hc, Hco.
  - destruct (isClosing_ x') eqn:E; [|eapply keeps_trans; [|by apply keeps_resume]];
      apply keeps_same; simpl; rewrite ?Hq; try done || lia; by left.
  - destruct (isClosing_ x') eqn:E; [|eapply keeps_trans; [|by apply keeps_resume]];
      apply keeps_same; simpl; rewrite ?Hq; try done || lia; intros Hx; specialize (Hcx Hx); unfold closing in *; simpl; rewrite ?E in *; naive_solver.
Qed.

Lemma keeps_fill x x' : co x = Running → fill downflow bufsize x = Ok x' → keeps x x'.
Proof.
  unfold fill. intros Hco Hf. apply bind_Ok_inv in Hf as ([[[ok p] b] n] & _ & Hf).
  destruct ok; simpl in Hf; [|injection Hf as <-]; [case_bool_decide; [destruct (isClosing_ x) eqn:E|]; injection Hf as <-|];
    constructor; unfold starting, closing; simpl; rewrite ?Hco, ?E; simpl; auto; done.
Qed.

Lemma keeps_flush x n sc x' : co x = Writing n → flush n (set_script sc x) = Ok x' → keeps x x'.
Proof.
  unfold flush. intros Hco Hf. apply bind_Ok_inv in Hf as ([ret sk] & _ & Hf). simpl in Hf.
  case_bool_decide; [injection Hf as <-|inv_bind; injection Hf as <-];
    constructor; unfold starting, closing; simpl; rewrite ?Hco; simpl; auto; done.
Qed.

Lemma keeps_step fr x x' : Sender.inv downflow push_back bufsize fr x → sstep x x' → keeps x x'.
Proof.
  intros Hinv Hstep. destruct Hstep as [x Ha|x d|x|x k x' Hpop|x x' Hco Hf|x n sc x' Hco Hf].
  - pose proof (inv_init _ _ _ _ _ Hinv) as Hi. rewrite Ha in Hi.
    constructor; unfold starting, closing; simpl; try done; [|set_solver].
    rewrite inits_app. simpl. destruct (started _); lia.
  - by apply keeps_enqueue.
  - by apply keeps_enqueue.
  - by eapply keeps_task.
  - by eapply keeps_fill.
  - by eapply keeps_flush.
Qed.

(** A step that leaves the receiver where it is. *)
Lemma linv_snd fr s x : linv fr s → Sender.inv downflow push_back bufsize fr x → keeps (snd s) x →
  linv fr (set_snd x s).
Proof. intros [] Hx []. constructor; simpl; auto. Qed.

Lemma linv_remove fr s : linv fr s → linv fr (set_snd (Sender.removeConnection (snd s)) s).
Proof.
  intros Hs. apply linv_snd; [done|..]; [by apply inv_enqueue, l_snd|by apply keeps_enqueue].
Qed.

Lemma linv_leave fr s n : rco s = Reading n → linv fr s → linv fr (leave s).
Proof.
  intros Hc Hs%linv_remove. destruct Hs. simpl in *. rewrite Hc in *.
  constructor; simpl; try done; [auto|]. intros _. unfold closing. simpl. set_solver.
Qed.

Lemma linv_receive fr s n ret err up : rco s = Reading n → linv fr s → linv fr (receive n ret err up s).
Proof.
  intros Hc Hs. unfold receive.
  assert (0 ≤ n ≤ 5) as Hn by (by apply (l_retry _ _ Hs)).
  assert (∀ m, 0 ≤ m ≤ 5 → linv fr (set_rco (Reading m) s)) as Hset.
  { intros m Hm. destruct Hs. rewrite Hc in *. constructor; simpl; try done; [auto|by intros ? [= <-]]. }
  repeat case_bool_decide; [apply Hset; lia|by eapply linv_leave|].
  destruct up; [by apply Hset|by eapply linv_leave].
Qed.

Lemma linv_wait fr s s' : rco s = Waiting → wait s = Some s' → linv fr s → linv fr s'.
Proof.
  unfold wait. intros Hc Hw Hs. case_bool_decide as Hlt; [|done]. injection Hw as <-.
  pose proof (inv_sem _ _ _ _ _ (l_snd _ _ Hs)) as Hsem. destruct Hs. rewrite Hc in *. simpl in *.
  constructor; simpl; try done; [auto|lia|]. intros _. destruct (ended _); [done|lia].
Qed.

Lemma linv_step fr s s' : linv fr s → step downflow push_back bufsize s s' → linv fr s'.
Proof.
  intros Hs Hstep. destruct Hstep as [s x Hx|s|s Ha Hc|s Hc|s n ret err up Hc|s s' Hc Hw|s Hc|s Hc].
  - pose proof (l_snd _ _ Hs) as Hi. apply linv_snd; [done|by eapply inv_step|by eapply keeps_step].
  - unfold close. destruct (isOpen s); [by apply linv_remove|done].
  - destruct Hs. rewrite Hc in *. constructor; simpl; try done.
  - destruct Hs. rewrite Hc in *. constructor; simpl; try done; [auto|by intros ? [= <-]].
  - by apply linv_receive.
  - by eapply linv_wait.
  - destruct Hs. rewrite Hc in *. constructor; simpl; try done; auto.
  - destruct Hs. rewrite Hc in *. constructor; simpl; try done; auto.
Qed.

Lemma linv_init p : dinv p → Sending.left p = Some [] → linv (enc p) (init bufsize p).
Proof. intros Hd Hl. constructor; simpl; try done. by apply inv_initial. Qed.

Abbreviation lreach p := (reach (step downflow push_back bufsize) (init bufsize p)).

Lemma linv_reach p s : dinv p → Sending.left p = Some [] → lreach p s → linv (enc p) s.
Proof. intros Hd Hl. eapply reach_invariant; [by apply linv_init|eapply linv_step]. Qed.

(** C8 (connection_closed_safely).  In every reachable state of a connection,
    whatever the threads and the socket do: the descriptor is open unless the
    sender's routine has ended (so no byte is written to a closed, perhaps
    reused, descriptor); [onClose] has run once if the receiver's routine is
    finished and not at all before, [closed_] is set exactly then; a failing
    [read] is retried at most five times; and the receiver takes at most the
    one unit that the sender posts to [closeSem_]. *)
Theorem connection_closed_safely p s :
  dinv p → Sending.left p = Some [] → lreach p s →
  (fd_open s = true ∨ ∃ r, co (snd s) = Ended r) ∧
  onCloses s = (if bool_decide (rco s = Done) then 1 else 0)%nat ∧
  (closed_ s = true ↔ rco s = Done) ∧
  (∀ n, rco s = Reading n → n ≤ 5) ∧
  0 ≤ taken s ≤ closeSem_ (snd s) ≤ 1.
Proof.
  intros Hd Hl Hr. pose proof (linv_reach _ _ Hd Hl Hr) as [Hs _ _ Hre _ Ht Hrel Hfd Hcl Hon].
  pose proof (inv_sem _ _ _ _ _ Hs) as Hsem. split_and!.
  - destruct (rco s); simpl in *; auto; right; destruct (co (snd s)); try done || naive_solver.
  - done.
  - rewrite Hcl. apply bool_decide_eq_true.
  - intros n Hn. by destruct (Hre n Hn).
  - destruct (released _); lia.
  - rewrite Ht, Hsem. destruct (released _), (ended _); try lia; by specialize (Hrel eq_refl).
  - rewrite Hsem. destruct (ended _); lia.
Qed.

(** ** A waiting receiver is released *)

Abbreviation sreach := (reach sstep).

(** The receiver waits while the sender runs. *)
Lemma sender_run s x : sreach (snd s) x → reach (step downflow push_back bufsize) s (set_snd x s).
Proof.
  induction 1 as [|y z Hy IH Hz]; [by destruct s; apply reach_refl|].
  eapply reach_step; [exact IH|]. by apply (step_sender _ _ _ (set_snd y s)).
Qed.

(** The sender handles every task that is queued. *)
Lemma sender_drains fr q x : Sender.inv downflow push_back bufsize fr x → queue x = q →
  ∃ y, sreach x y ∧ Sender.inv downflow push_back bufsize fr y ∧ queue y = [] ∧ keeps x y.
Proof.
  revert x. induction q as [|k q IH]; intros x Hx Hq.
  { exists x. split_and!; [apply reach_refl|done..|by constructor]. }
  assert (∃ x', pop x = Some (k, x') ∧ queue x' = q) as (x' & Hp & Hq')
    by (unfold pop; rewrite Hq; eexists; split; [done|]; done).
  assert (sstep x (handle push_back k x')) as Hst by (by apply step_handle).
  assert (queue (handle push_back k x') = q) as Hq2.
  { rewrite <-Hq'. destruct k; simpl; unfold resume_if_hanging; simpl; by repeat case_match. }
  destruct (IH _ (inv_step _ _ _ Hbufsize _ _ _ Hx Hst) Hq2) as (y & Hy & Hi & He & Hk).
  exists y. split_and!; [|done..|].
  - by eapply reach_cons.
  - eapply keeps_trans; [by eapply keeps_step|done].
Qed.

(** A routine in [write] ends when the call fails; one that is running fills
    its buffer, and ends if there is nothing to send. *)
Lemma sender_fails fr x n : Sender.inv downflow push_back bufsize fr x → co x = Writing n →
  ∃ y, sstep x y ∧ co y = Ended WriteError.
Proof.
  intros Hx Hc. pose proof (inv_size _ _ _ _ _ Hx _ Hc) as Hn.
  eexists. split; [apply (step_flush _ _ _ _ n [(-1, 32)]); [done|]|].
  - unfold flush, write. simpl. rewrite (u32_small n) by lia.
    rewrite bool_decide_false by (unfold EAGAIN, EINTR; lia). rewrite bool_decide_true by lia. done.
  - done.
Qed.

Lemma sender_stops fr x : Sender.inv downflow push_back bufsize fr x →
  starting x → closing x → added x = true → queue x = [] → ∃ y, sreach x y ∧ ended (co y) = true.
Proof.
  intros Hx Hst Hcl Ha Hq.
  assert (isClosing_ x = true) as Hc by (destruct Hcl as [?|Hin]; [done|rewrite Hq in Hin; set_solver]).
  specialize (Hst Ha). rewrite Hq in Hst.
  destruct (co x) as [| |n| |r] eqn:Eco; simpl in Hst; try done.
  - destruct (inv_fill _ _ _ Hbufsize _ _ Eco Hx) as (y & Hf & Hy).
    assert (sstep x y) as Hxy by (by apply step_fill).
    destruct (co y) as [| |n| |r] eqn:Ey.
    1, 2, 4: exfalso; revert Hf Ey; unfold fill; intros Hf; apply bind_Ok_inv in Hf as ([[[ok p] b] m] & _ & Hf);
      rewrite Hc in Hf; destruct ok; [case_bool_decide|]; by injection Hf as <-.
    + destruct (sender_fails _ _ _ Hy Ey) as (z & Hz & Ez).
      exists z. split; [|by rewrite Ez]. eapply reach_cons; [done|]. by eapply reach_step; [apply reach_refl|].
    + exists y. split; [|by rewrite Ey]. by eapply reach_step; [apply reach_refl|].
  - destruct (sender_fails _ _ _ Hx Eco) as (z & Hz & Ez).
    exists z. split; [|by rewrite Ez]. by eapply reach_step; [apply reach_refl|].
  - exfalso. by destruct (inv_idle _ _ _ _ _ Hx Eco) as [_ ?]; rewrite Hc in *.
  - exists x. split; [apply reach_refl|by rewrite Eco].
Qed.

End invariant.

(** ** A run: the connection of Sender.v is opened, the peer closes it, the
    sender drains and the receiver closes the descriptor. *)
Module LifecycleExample.
Import Sender.Plain.

Abbreviation lstate := (t (list bytes) bytes).
Abbreviation plainstep := (step plain_downflow plain_push 8).
Definition l0 : lstate := init 8 [].
Definition l1 : lstate := dispatch (addConnection (set_snd s2 l0)).
Definition l2 : lstate := receive 0 (-1) EAGAIN false l1.
Definition l3 : lstate := receive 1 0 0 false l2.
Definition l4 : lstate := set_snd (popped (snd l3)) l3.
Definition l5 : lstate := set_snd (get (snd l4) (fill plain_downflow 8 (snd l4))) l4.
Definition l6 : lstate := default l5 (wait l5).
Definition l7 : lstate := finish (close_fd l6).

Lemma reach_l3 : reach plainstep l0 l3.
Proof.
  eapply reach_step; [|by apply (step_receive _ _ _ l2 1)].
  eapply reach_step; [|by apply (step_receive _ _ _ l1 0)].
  eapply reach_step; [|by apply step_dispatch].
  eapply reach_step; [|by apply step_add].
  apply (sender_run plain_downflow plain_push 8 l0), reach_s2.
Qed.

Lemma reach_l7 : reach plainstep l0 l7.
Proof.
  eapply reach_step; [|by apply step_finish].
  eapply reach_step; [|by apply step_close_fd].
  apply (reach_step _ _ l5); [|by apply step_wait].
  apply (reach_step _ _ l4); [|apply step_sender, step_fill; [done|by apply get_ok]].
  apply (reach_step _ _ l3); [apply reach_l3|]. by apply step_sender, step_popped.
Qed.

Lemma connection_closed_safely_witness :
  (fd_open l7 = true ∨ ∃ r, co (snd l7) = Ended r) ∧ onCloses l7 = 1%nat.
Proof.
  destruct (connection_closed_safely plain_downflow plain_push 8 ltac:(done)
    (Downflow0:=plain_laws 8 ltac:(done)) [] l7) as (H1 & H2 & _); [done|done|apply reach_l7|].
  split; [exact H1|exact H2].
Defined.

End LifecycleExample.
End Receiver.
