(* ===== verification/RpcWire.v ===== *)
(** * The parts shared by the RPC client and server

    The protobuf runtime is not part of the repository: [Message] lists the
    operations of [google::protobuf::Message] the code calls, with their
    documented behaviour as laws; [Controller] is corpc_controller.h; the tasks
    are corpc_rpc_common.h; [put_body] is the code by which both encoders place
    a body behind the head they have written, in the buffer or, when it does
    not fit, in [downflowBuf]. *)
From S2P Require Import Prelude Define Sending.
Open Scope Z_scope.

(** ** Protobuf messages

    [ByteSizeLong] computes the size of the serialization and caches it;
    [GetCachedSize] is the cached size, 0 when none was computed.
    [SerializeWithCachedSizesToArray] writes the serialization.  [proto_of] is
    the type of a message, represented by its prototype, and [New] makes a fresh
    message of it.  [ParseFromArray] on a fresh message of the same type reads
    the serialization back; the copy is equivalent to the original ([≡]), since
    caches are not transmitted. *)
Class Message (M Proto : Type) : Type := {
  GetCachedSize : M → Z;
  ByteSizeLong : M → Z;
  Serialize : M → bytes;
  New : Proto → M;
  proto_of : M → Proto;
  ParseFromArray : Proto → bytes → option M;
}.
Class MessageLaws (M Proto : Type) `{Message M Proto, Equiv M} : Type := {
  proto_new p : proto_of (New p) = p;
  cached_size m : GetCachedSize m = 0 ∨ GetCachedSize m = ByteSizeLong m;
  byte_size m : ByteSizeLong m = zlen (Serialize m);
  size_limit m : zlen (Serialize m) < 2^31;
  serialize_bytes m : Forall is_byte (Serialize m);
  parse_serialize m : ∃ m', ParseFromArray (proto_of m) (Serialize m) = Some m' ∧ m' ≡ m ∧ proto_of m' = proto_of m;
}.

(** [int msgSize = m->GetCachedSize(); if (msgSize == 0) msgSize = m->ByteSizeLong();] *)
Definition message_size {M Proto} `{Message M Proto} (m : M) : Z :=
  if bool_decide (GetCachedSize m = 0) then ByteSizeLong m else GetCachedSize m.

Lemma message_size_ok {M Proto} `{MessageLaws M Proto} (m : M) : message_size m = zlen (Serialize m).
Proof.
  unfold message_size. rewrite <-byte_size. case_bool_decide; [done|].
  destruct (cached_size m); congruence.
Qed.

(** ** corpc_controller.h *)
Module Controller.
Record t : Type := Make { error_str_ : bytes; error_code_ : Z }.
Definition Reset : t := Make [] 0.
Definition Failed (c : t) : bool := negb (bool_decide (error_code_ c = 0)).
Definition ErrorText (c : t) : bytes := error_str_ c.
Definition SetFailed (reason : bytes) (c : t) : t :=
  Make reason (if bool_decide (error_code_ c = 0) then -1 else error_code_ c).
Definition SetErrorCode (code : Z) (c : t) : t := Make (error_str_ c) code.
Definition GetErrorCode (c : t) : Z := error_code_ c.

(** [SetFailed] always makes the controller fail, and keeps an error code that
    was set before. *)
Lemma SetFailed_Failed reason c :
  Failed (SetFailed reason c) = true ∧ ErrorText (SetFailed reason c) = reason ∧
  (Failed c = true → GetErrorCode (SetFailed reason c) = GetErrorCode c).
Proof.
  unfold Failed, GetErrorCode. simpl.
  destruct (decide (error_code_ c = 0)) as [E|E];
    rewrite ?(bool_decide_true (error_code_ c = 0)), ?(bool_decide_false (error_code_ c = 0)) by done;
    split_and!; done.
Qed.

(** What [Controller] guarantees about its own fields. *)
Definition wf (c : t) : Prop := is_i32 (error_code_ c) ∧ zlen (error_str_ c) < 2^31 ∧ Forall is_byte (error_str_ c).
End Controller.

(** ** Placing a body behind a head of [hs] bytes written at [off]

    The result is the buffer, the value of [size], [downflowBuf] and
    [downflowBufSentNum]. *)
Definition put_body (payload : bytes) (hs msgSize : Z) (buf : bytes) (off space : Z)
    (dbuf : bytes) (dsent : Z) : outcome (bytes * Z * bytes * Z) :=
  let spaceleft := space - hs in
  if bool_decide (spaceleft >= msgSize) then
    buf ← (if bool_decide (msgSize > 0) then memcpy buf (off + hs) payload 0 (zlen payload) else Ok buf);
    Ok (buf, hs + msgSize, dbuf, dsent)
  else
    dbuf ← memcpy (zeros msgSize) 0 payload 0 (zlen payload);
    if bool_decide (spaceleft > 0) then
      buf ← memcpy buf (off + hs) dbuf 0 spaceleft;
      Ok (buf, space, dbuf, u32 spaceleft)
    else Ok (buf, space, dbuf, dsent).

(** On top of a head the result is the frame, whole or cut. *)
Lemma put_body_fits payload head buf off space :
  0 ≤ off → off + space ≤ zlen buf → zlen head + zlen payload ≤ space →
  put_body payload (zlen head) (zlen payload) (splice buf off head) off space [] 0
  = Ok (splice buf off (head ++ payload), zlen (head ++ payload), [], 0).
Proof.
  intros. unfold put_body. pose proof (zlen_nonneg head). pose proof (zlen_nonneg payload).
  rewrite bool_decide_true by lia. case_bool_decide.
  - rewrite memcpy_next by lia. simpl. unfold slice.
    rewrite zdrop_0, ztake_ge, zlen_app by lia. done.
  - assert (payload = []) as -> by (destruct payload; [done|unfold zlen in *; simpl in *; lia]). simpl. rewrite app_nil_r.
    by replace (zlen head + zlen []) with (zlen head) by (unfold zlen; simpl; lia).
Qed.

Lemma put_body_split payload head buf off space :
  0 ≤ off → off + space ≤ zlen buf → zlen head ≤ space < zlen head + zlen payload →
  zlen payload < 2^31 →
  put_body payload (zlen head) (zlen payload) (splice buf off head) off space [] 0
  = Ok (splice buf off (ztake space (head ++ payload)), space, payload, space - zlen head).
Proof.
  intros. unfold put_body. pose proof (zlen_nonneg head).
  rewrite bool_decide_false by lia.
  assert (memcpy (zeros (zlen payload)) 0 payload 0 (zlen payload) = Ok payload) as ->.
  { rewrite memcpy_front by (rewrite ?zlen_zeros; lia). unfold slice.
    rewrite zdrop_0, ztake_ge, zdrop_ge, app_nil_r by (rewrite ?zlen_zeros; lia). done. }
  simpl. rewrite ztake_app. rewrite (ztake_ge space head) by lia. case_bool_decide.
  - rewrite memcpy_next by lia. simpl. unfold slice. rewrite zdrop_0, u32_small by lia. done.
  - replace (space - zlen head) with 0 by lia. by rewrite (ztake_0 payload), app_nil_r by lia.
Qed.

(** ** Descriptors

    The options of corpc_option.proto and the position of a method in its
    service; a service with its methods, their prototypes and the function its
    generated [CallMethod] dispatches to. *)
Record MethodDescriptor : Type := {
  index : Z;
  not_care_response : bool;
  delete_in_done : bool;
  need_coroutine : bool;
  timeout : Z;
}.

(** corpc_rpc_server.h / corpc_define.h: [MethodData] and [ServiceData]. *)
Record MethodData (Proto : Type) : Type := {
  method_descriptor : MethodDescriptor;
  request_proto : Proto;
  response_proto : Proto;
}.
Arguments method_descriptor {_} _.
Arguments request_proto {_} _.
Arguments response_proto {_} _.

Record Service (M Proto : Type) : Type := {
  global_service_id : Z;
  service_methods : list (MethodData Proto);
  (** [CallMethod] on a request: what it makes of the controller and of the
      response it is given. *)
  call_controller : MethodDescriptor → M → Controller.t → Controller.t;
  call_response : MethodDescriptor → M → M → M;
}.
Arguments global_service_id {_ _} _.
Arguments service_methods {_ _} _.
Arguments call_controller {_ _} _ _ _ _.
Arguments call_response {_ _} _ _ _ _.

(** ** corpc_rpc_common.h *)
Record RpcClientTask (M : Type) : Type := {
  pid : Z;
  co : Z;
  request : M;
  response : option M;
  response_1 : option M;
  controller : option Controller.t;
  controller_1 : option Controller.t;
  done : bool;
  serviceId : Z;
  methodId : Z;
  expireTime : Z;
}.
Arguments pid {_} _.
Arguments co {_} _.
Arguments request {_} _.
Arguments response {_} _.
Arguments response_1 {_} _.
Arguments controller {_} _.
Arguments controller_1 {_} _.
Arguments done {_} _.
Arguments serviceId {_} _.
Arguments methodId {_} _.
Arguments expireTime {_} _.

Module RpcServerTask.
Record t (M Proto : Type) : Type := Make {
  service : option (Service M Proto);
  method : MethodDescriptor;
  request : M;
  response : option M;
  controller : option Controller.t;
  done : option M;
  callId : Z;
  expireTime : Z;
}.
Arguments service {_ _} _.
Arguments method {_ _} _.
Arguments request {_ _} _.
Arguments response {_ _} _.
Arguments controller {_ _} _.
Arguments done {_ _} _.
Arguments callId {_ _} _.
Arguments expireTime {_ _} _.
End RpcServerTask.

(** ** The heads on the wire *)

(** A request: body size, service, method, call identifier, expiry. *)
Definition request_head (size sid mid callId expire : Z) : bytes :=
  be_bytes 4 size ++ be_bytes 4 sid ++ be_bytes 4 mid ++ be_bytes 8 callId ++ be_bytes 8 expire.
(** A response: body size, call identifier, expiry, error code. *)
Definition response_head (size callId expire code : Z) : bytes :=
  be_bytes 4 size ++ be_bytes 8 callId ++ be_bytes 8 expire ++ be_bytes 4 code.

Section heads.
Ltac head_len := rewrite !zlen_app, !be_bytes_length by lia; done.
Lemma zlen_request_head a b c d f : zlen (request_head a b c d f) = CORPC_REQUEST_HEAD_SIZE.
Proof. unfold request_head. head_len. Qed.
Lemma zlen_response_head a b c d : zlen (response_head a b c d) = CORPC_RESPONSE_HEAD_SIZE.
Proof. unfold response_head. head_len. Qed.

Lemma request_head_bytes a b c d f : Forall is_byte (request_head a b c d f).
Proof. unfold request_head. rewrite !Forall_app. split_and!; by apply be_bytes_bytes. Qed.
Lemma response_head_bytes a b c d : Forall is_byte (response_head a b c d).
Proof. unfold response_head. rewrite !Forall_app. split_and!; by apply be_bytes_bytes. Qed.
End heads.

(** ** A concrete message type, for the examples

    The message with one field of type [fixed64], serialized as its eight
    bytes. *)
Module Fixed64.
Record msg : Type := Msg { value : Z }.

Definition parse (_ : unit) (bs : bytes) : option msg :=
  if bool_decide (zlen bs = 8) then Some (Msg (be_val bs)) else None.

#[global] Instance message : Message msg unit := {|
  GetCachedSize _ := 0; ByteSizeLong _ := 8; Serialize m := be_bytes 8 (value m);
  New _ := Msg 0; proto_of _ := tt; ParseFromArray := parse |}.
#[global] Instance msg_equiv : Equiv msg := λ m m', u64 (value m) = u64 (value m').

#[global] Program Instance laws : MessageLaws msg unit.
Next Obligation. by intros []. Qed.
Next Obligation. intros m. by left. Qed.
Next Obligation. intros m. simpl. symmetry. by apply be_bytes_length. Qed.
Next Obligation. intros m. simpl. by rewrite be_bytes_length. Qed.
Next Obligation. intros m. simpl. by apply be_bytes_bytes. Qed.
Next Obligation.
  intros m. exists (Msg (u64 (value m))). simpl. unfold parse.
  rewrite be_bytes_length by lia. simpl. rewrite be_val_bytes by lia. split_and!; [done| |done].
  unfold equiv, msg_equiv. simpl. apply u64_small. apply u64_range.
Qed.
End Fixed64.
