(* ===== verification/RpcServer.v ===== *)
(** * corpc_rpc_server.cpp: the RPC server

    The table of services, [decode], which turns a request frame into a task
    for the worker, [RpcWorkerTask::doTask], which calls the service and sends
    the task back to the connection, and [encode], which writes the response.
    [decode] and [encode] are instances of the interfaces of the pipelines. *)
From stdpp Require Import gmap.
From S2P Require Import Prelude Define Pipeline Sending RpcWire.
Open Scope Z_scope.

Module RpcServer.
Section server.
Context {M Proto : Type} `{Message M Proto} (e : endian).

(** corpc_rpc_server.h: [ServiceData]. *)
Record ServiceData : Type := { rpcService : Service M Proto; methods : list (MethodData Proto) }.

(** [services_] *)
Abbreviation services := (gmap Z ServiceData).

(** [RpcServer::registerService] *)
Definition registerService (svc : Service M Proto) (services_ : services) : bool * services :=
  let serviceId := u32 (global_service_id svc) in
  match services_ !! serviceId with
  | Some _ => (false, services_)
  | None => (true, <[serviceId := {| rpcService := svc; methods := service_methods svc |}]> services_)
  end.

(** [RpcServer::getService] *)
Definition getService (services_ : services) (serviceId : Z) : option (Service M Proto) :=
  match services_ !! serviceId with
  | None => None
  | Some sd => Some (rpcService sd)
  end.

(** [RpcServer::getMethod] *)
Definition getMethod (services_ : services) (serviceId methodId : Z) : option (MethodData Proto) :=
  match services_ !! serviceId with
  | None => None
  | Some sd =>
    if bool_decide (zlen (methods sd) ≤ methodId) then None
    else methods sd !! Z.to_nat methodId
  end.

(** [RpcServer::Connection] *)
Record Connection : Type := { fd_ : Z; server_ : services }.

(** The worker task: the connection is the one the frame came from. *)
Abbreviation RpcWorkerTask := (RpcServerTask.t M Proto).

(** [RpcServer::decode] *)
Definition decode (conn : Connection) (head body : bytes) (size : Z)
    : outcome (Connection * bytes * option RpcWorkerTask) :=
  reqSize ← get_be32 e head 0;
  serviceId ← get_be32 e head 4;
  methodId ← get_be32 e head 8;
  callId ← get_be64 e head 12;
  expireTime ← get_be64 e head 20;
  match getMethod (server_ conn) serviceId methodId with
  | None => Ok (conn, body, None)
  | Some methodData =>
    bs ← memread body 0 size;
    match ParseFromArray (request_proto methodData) bs with
    | None => Ok (conn, body, None)
    | Some request =>
      let md := method_descriptor methodData in
      let response := if not_care_response md then None else Some (New (response_proto methodData)) in
      Ok (conn, body, Some
        {| RpcServerTask.service := getService (server_ conn) serviceId;
           RpcServerTask.method := md;
           RpcServerTask.request := request;
           RpcServerTask.response := response;
           RpcServerTask.controller := match response with Some _ => Some Controller.Reset | None => None end;
           RpcServerTask.done := match response with
             | Some _ => None
             | None => if delete_in_done md then Some request else None
             end;
           RpcServerTask.callId := callId;
           RpcServerTask.expireTime := expireTime |})
    end
  end.

(** [RpcWorkerTask::taskCallRoutine]: the data sent back, if any. *)
Definition taskCallRoutine (task : RpcWorkerTask) : outcome (option (RpcServerTask.t M Proto)) :=
  svc ← deref (RpcServerTask.service task);
  let ctl := call_controller svc (RpcServerTask.method task) (RpcServerTask.request task)
               <$> RpcServerTask.controller task in
  let resp := call_response svc (RpcServerTask.method task) (RpcServerTask.request task)
               <$> RpcServerTask.response task in
  Ok (match resp with
      | Some _ => Some {| RpcServerTask.service := RpcServerTask.service task;
            RpcServerTask.method := RpcServerTask.method task;
            RpcServerTask.request := RpcServerTask.request task;
            RpcServerTask.response := resp; RpcServerTask.controller := ctl;
            RpcServerTask.done := RpcServerTask.done task;
            RpcServerTask.callId := RpcServerTask.callId task;
            RpcServerTask.expireTime := RpcServerTask.expireTime task |}
      | None => None
      end).

(** [RpcWorkerTask::doTask]: in a coroutine of its own ([true]) or at once. *)
Definition doTask (task : RpcWorkerTask) : outcome (bool * option (RpcServerTask.t M Proto)) :=
  r ← taskCallRoutine task;
  Ok (need_coroutine (RpcServerTask.method task), r).

(** [RpcServer::encode] *)
Definition encode (conn : Connection) (rpcTask : RpcServerTask.t M Proto) (buf : bytes) (off space : Z)
    (dbuf : bytes) (dsent : Z) : outcome (encode_result Connection) :=
  if bool_decide (CORPC_RESPONSE_HEAD_SIZE > space) then Ok (true, (conn, buf, 0, dbuf, dsent)) else
  controller ← deref (RpcServerTask.controller rpcTask);
  payload ← (if Controller.Failed controller then Ok (Controller.ErrorText controller)
             else resp ← deref (RpcServerTask.response rpcTask); Ok (Serialize resp));
  msgSize ← (if Controller.Failed controller then Ok (u32 (zlen (Controller.ErrorText controller)))
             else resp ← deref (RpcServerTask.response rpcTask); Ok (u32 (message_size resp)));
  buf ← put_be32 e buf off msgSize;
  buf ← put_be64 e buf (off + 4) (RpcServerTask.callId rpcTask);
  buf ← put_be64 e buf (off + 12) (RpcServerTask.expireTime rpcTask);
  buf ← (if Controller.Failed controller
         then put_be32 e buf (off + 20) (u32 (Controller.GetErrorCode controller))
         else memcpy buf (off + 20) (zeros 4) 0 4);
  '(buf, size, dbuf, dsent) ← put_body payload CORPC_RESPONSE_HEAD_SIZE msgSize buf off space dbuf dsent;
  Ok (true, (conn, buf, size, dbuf, dsent)).
End server.
Arguments ServiceData : clear implicits.
Arguments Connection : clear implicits.

(** ** Laws *)
Section laws.
Context {M Proto : Type} `{MessageLaws M Proto} (e : endian).
Implicit Types (c : Connection M Proto) (task : RpcServerTask.t M Proto).

(** [decode] reads the head and the first [size] bytes of the body only. *)
Lemma server_decode_prefix c head body size : 0 ≤ size ≤ zlen body →
  decode e c head body size
  = ('(c', _, t) ← decode e c head (ztake size body) size; Ok (c', body, t)).
Proof.
  intros. unfold decode.
  destruct (get_be32 e head 0); [|done]. destruct (get_be32 e head 4); [|done].
  destruct (get_be32 e head 8); [|done]. destruct (get_be64 e head 12); [|done].
  destruct (get_be64 e head 20); [|done]. simpl. destruct (getMethod _ _ _); [|done].
  rewrite memread_front, (memread_front (ztake size body)) by zlen. simpl.
  rewrite ztake_ztake, Z.min_id. by destruct (ParseFromArray _ _).
Qed.

Lemma decode_Ok c head body size : zlen head = CORPC_REQUEST_HEAD_SIZE → Forall is_byte head →
  0 ≤ size ≤ zlen body → ∃ t, decode e c head body size = Ok (c, body, t).
Proof.
  intros Hl Hb ?. unfold CORPC_REQUEST_HEAD_SIZE in *. unfold decode.
  rewrite !get_be32_ok, !get_be64_ok by (done || lia). simpl.
  destruct (getMethod _ _ _); [|eauto]. rewrite memread_front by lia. simpl.
  destruct (ParseFromArray _ _); eauto.
Qed.

#[global] Program Instance decoder : Decoder CORPC_REQUEST_HEAD_SIZE (decode (M:=M) (Proto:=Proto) e) := {|
  is_error _ := false;
  decode_frame := frame_of (decode e);
|}.
Next Obligation.
  intros c head body size Hl Hh Hb Hs. unfold frame_of.
  rewrite (server_decode_prefix c head body size) by done.
  assert (zlen (ztake size body) = size) as Hsz by zlen. rewrite Hsz.
  destruct (decode_Ok c head (ztake size body) size Hl Hh ltac:(lia)) as [t ->]. simpl. eauto.
Qed.

(** The response frame of a task. *)
Definition response_payload (ctl : Controller.t) (resp : M) : bytes :=
  if Controller.Failed ctl then Controller.ErrorText ctl else Serialize resp.
Definition response_frame task : option bytes :=
  ctl ← RpcServerTask.controller task; resp ← RpcServerTask.response task;
  let p := response_payload ctl resp in
  Some (response_head (zlen p) (RpcServerTask.callId task) (RpcServerTask.expireTime task)
          (u32 (Controller.GetErrorCode ctl)) ++ p).

(** The tasks [doTask] sends: a response and a controller are there. *)
Definition sendable task : Prop :=
  ∃ ctl resp, RpcServerTask.controller task = Some ctl ∧ RpcServerTask.response task = Some resp ∧
    Controller.wf ctl.

Lemma server_encode_head c task ctl resp buf off space :
  RpcServerTask.controller task = Some ctl → RpcServerTask.response task = Some resp →
  Controller.wf ctl → CORPC_RESPONSE_HEAD_SIZE ≤ space → 0 ≤ off → off + space ≤ zlen buf →
  let p := response_payload ctl resp in
  let h := response_head (zlen p) (RpcServerTask.callId task) (RpcServerTask.expireTime task)
             (u32 (Controller.GetErrorCode ctl)) in
  encode e c task buf off space [] 0
  = ('(buf, size, dbuf, dsent) ← put_body p (zlen h) (zlen p) (splice buf off h) off space [] 0;
     Ok (true, (c, buf, size, dbuf, dsent))).
Proof.
  intros Hc Hr (Hcode & Htl & Htb) Hsp Hoff Hlen p h.
  assert (zlen p < 2^31 ∧ 0 ≤ zlen p) as Hpl.
  { split; [|apply zlen_nonneg]. unfold p, response_payload. destruct (Controller.Failed ctl); [done|].
    apply size_limit. }
  assert (h = ((([] ++ be_bytes 4 (zlen p)) ++ be_bytes 8 (RpcServerTask.callId task))
      ++ be_bytes 8 (RpcServerTask.expireTime task)) ++ be_bytes 4 (u32 (Controller.GetErrorCode ctl))) as Hh
    by (unfold h, response_head; by rewrite <-!app_assoc).
  assert (zlen h = CORPC_RESPONSE_HEAD_SIZE) as -> by apply zlen_response_head.
  unfold CORPC_RESPONSE_HEAD_SIZE in *. unfold encode, CORPC_RESPONSE_HEAD_SIZE.
  rewrite bool_decide_false by lia. rewrite Hc, Hr. simpl.
  assert ((if Controller.Failed ctl then Ok (Controller.ErrorText ctl) else Ok (Serialize resp)) = Ok p) as ->
    by (unfold p, response_payload; by destruct (Controller.Failed ctl)).
  assert ((if Controller.Failed ctl then Ok (u32 (zlen (Controller.ErrorText ctl))) else Ok (u32 (message_size resp)))
    = Ok (zlen p)) as ->.
  { rewrite message_size_ok. unfold p, response_payload in *.
    destruct (Controller.Failed ctl); rewrite u32_small by lia; done. }
  simpl.
  assert (zlen (be_bytes 4 (zlen p)) = 4) as L1 by (by apply be_bytes_length).
  assert (zlen (be_bytes 8 (RpcServerTask.callId task)) = 8) as L2 by (by apply be_bytes_length).
  assert (zlen (be_bytes 8 (RpcServerTask.expireTime task)) = 8) as L3 by (by apply be_bytes_length).
  rewrite put_be32_first by lia. cbn [mbind outcome_bind].
  rewrite put_be64_next by lia. cbn [mbind outcome_bind].
  rewrite put_be64_next by (rewrite ?zlen_app; lia). cbn [mbind outcome_bind].
  assert ((if Controller.Failed ctl then put_be32 e
        (splice buf off ((be_bytes 4 (zlen p) ++ be_bytes 8 (RpcServerTask.callId task)) ++
          be_bytes 8 (RpcServerTask.expireTime task))) (off + 20) (u32 (Controller.GetErrorCode ctl))
      else memcpy (splice buf off ((be_bytes 4 (zlen p) ++ be_bytes 8 (RpcServerTask.callId task)) ++
          be_bytes 8 (RpcServerTask.expireTime task))) (off + 20) (zeros 4) 0 4)
    = Ok (splice buf off h)) as ->; [|done].
  rewrite Hh. unfold Controller.Failed. case_bool_decide as Hz; cbn [negb app].
  - rewrite memcpy_next by (rewrite ?zlen_app; done || lia).
    unfold Controller.GetErrorCode. rewrite Hz. done.
  - rewrite put_be32_next by (rewrite ?zlen_app; lia). done.
Qed.

Lemma response_frame_len task f : response_frame task = Some f → CORPC_RESPONSE_HEAD_SIZE ≤ zlen f.
Proof.
  unfold response_frame. destruct (RpcServerTask.controller task); [|done].
  destruct (RpcServerTask.response task); [|done]. intros <-%(inj Some).
  rewrite zlen_app, zlen_response_head. pose proof (zlen_nonneg (response_payload t m)). lia.
Qed.

(** The data of a server connection. *)
Definition reply : Type := { task | sendable task }.
Definition encode_reply c (d : reply) := encode e c (`d).

#[global] Program Instance encoder : Encoder CORPC_RESPONSE_HEAD_SIZE encode_reply := {|
  frame _ d := response_frame (`d);
|}.
Next Obligation. intros c d f Hf. by apply (response_frame_len (`d)). Qed.
Next Obligation.
  intros c d buf off space dbuf dsent Hs. unfold encode_reply, encode. by rewrite bool_decide_true by lia.
Qed.
Next Obligation.
  intros c [task Hd] buf off space dbuf dsent Hs. unfold response_frame. simpl.
  pose proof Hd as (ctl & resp & Hc & Hr & Hw).
  by rewrite Hc, Hr.
Qed.
Next Obligation.
  intros c [task Hd] f buf off space Hf Hl Hoff Hsp.
  pose proof Hd as (ctl & resp & Hc & Hr & Hw). exists c. split; [|done].
  pose proof (response_frame_len _ _ Hf). unfold encode_reply. simpl in *.
  rewrite (server_encode_head c task ctl resp) by (done || lia).
  unfold response_frame in Hf. rewrite Hc, Hr in Hf. apply (inj Some) in Hf as <-.
  rewrite put_body_fits; [done|done|done|]. rewrite <-zlen_app. lia.
Qed.
Next Obligation.
  intros c [task Hd] f buf off space Hf Hl Hoff Hsp.
  pose proof Hd as (ctl & resp & Hc & Hr & Hw). exists c. split; [|done].
  unfold encode_reply. simpl in *. rewrite (server_encode_head c task ctl resp) by (done || lia).
  unfold response_frame in Hf. rewrite Hc, Hr in Hf. apply (inj Some) in Hf as <-.
  set (h := response_head _ _ _ _) in *. set (p := response_payload ctl resp) in *.
  assert (zlen h = CORPC_RESPONSE_HEAD_SIZE) as Hh by apply zlen_response_head.
  rewrite put_body_split.
  - rewrite <-Hh, zdrop_app_exact. done.
  - done.
  - done.
  - rewrite Hh, <-Hh, <-zlen_app. lia.
  - unfold p, response_payload. destruct (Controller.Failed ctl); [apply Hw|apply size_limit].
Qed.

(** ** The table of services *)

(** [registerService] adds a service once: the
    first registration of an identifier succeeds, makes exactly its methods
    reachable by position and leaves every other service alone; a second
    registration of the identifier is refused and changes nothing. *)
Theorem registerService_table (svc svc' : Service M Proto) (services_ : gmap Z (ServiceData M Proto)) :
  let '(ok, services') := registerService svc services_ in
  let sid := u32 (global_service_id svc) in
  (ok = true ↔ getService services_ sid = None) ∧
  (ok = false → services' = services_) ∧
  (ok = true → getService services' sid = Some svc ∧
     (∀ mid, 0 ≤ mid → getMethod services' sid mid = service_methods svc !! Z.to_nat mid) ∧
     (∀ sid', sid' ≠ sid → getService services' sid' = getService services_ sid' ∧
        ∀ mid, getMethod services' sid' mid = getMethod services_ sid' mid)) ∧
  (u32 (global_service_id svc') = sid → (registerService svc' services').1 = false).
Proof.
  unfold registerService. set (sid := u32 (global_service_id svc)).
  destruct (services_ !! sid) as [sd|] eqn:E; cbv beta iota zeta.
  - split_and!; [|done..|].
    + unfold getService. rewrite E. done.
    + intros Hs. unfold registerService. by rewrite Hs, E.
  - split_and!.
    + unfold getService. by rewrite E.
    + done.
    + intros _. unfold getService, getMethod. rewrite !lookup_insert_eq. simpl. split_and!; [done| |].
      * intros mid Hm. case_bool_decide as Hle; [|done]. symmetry. apply lookup_ge_None_2.
        unfold zlen in Hle. lia.
      * intros sid' Hne. by rewrite !lookup_insert_ne by done.
    + intros Hs. unfold registerService. by rewrite Hs, lookup_insert_eq.
Qed.
End laws.
End RpcServer.
