(* ===== verification/RpcClient.v ===== *)
(** * corpc_rpc_client.cpp: the RPC client

    [encode] writes the request of a call, [decode] finds the call a response
    belongs to and wakes its coroutine; both are instances of the interfaces of
    the pipelines.  The client thread, which connects, hands requests to the
    sender and fails the calls of a broken connection, is in RpcThread.v. *)
From stdpp Require Import gmap.
From S2P Require Import Prelude Define Pipeline Sending RpcWire.
Open Scope Z_scope.

Module RpcClient.

(** corpc_rpc_client.h: [Connection::Status]. *)
Inductive Status : Type := CLOSED | CONNECTING | CONNECTED.

#[global] Instance Status_eq_dec : EqDecision Status.
Proof. solve_decision. Defined.

(** A call of [RoutineEnvironment::resumeCoroutine], with the task as it is
    then. *)
Record resume (M : Type) : Type := Resume { r_task : RpcClientTask M; r_expireTime : Z; r_err : Z }.
Arguments Resume {_} _ _ _.
Arguments r_task {_} _.
Arguments r_expireTime {_} _.
Arguments r_err {_} _.

(** [RpcClient::Connection], with a record of the coroutines it resumed and of
    the tasks whose [done] callback it ran. *)
Record Connection (M : Type) : Type := {
  st_ : Status;
  waitSendTaskCoList_ : list (RpcClientTask M);
  waitResultCoMap_ : gmap Z (RpcClientTask M);
  resumed : list (resume M);
  done_run : list (RpcClientTask M);
}.
Arguments st_ {_} _.
Arguments waitSendTaskCoList_ {_} _.
Arguments waitResultCoMap_ {_} _.
Arguments resumed {_} _.
Arguments done_run {_} _.

Section client.
Context {M Proto : Type} `{Message M Proto} (e : endian).
Implicit Types (conn : Connection M) (task : RpcClientTask M).

Definition set_response_1 (m : M) task : RpcClientTask M :=
  {| pid := pid task; co := co task; request := request task; response := response task;
     response_1 := Some m; controller := controller task; controller_1 := controller_1 task;
     done := done task; serviceId := serviceId task; methodId := methodId task;
     expireTime := expireTime task |}.
Definition set_controller (c : Controller.t) task : RpcClientTask M :=
  {| pid := pid task; co := co task; request := request task; response := response task;
     response_1 := response_1 task; controller := Some c; controller_1 := controller_1 task;
     done := done task; serviceId := serviceId task; methodId := methodId task;
     expireTime := expireTime task |}.
Definition set_controller_1 (c : Controller.t) task : RpcClientTask M :=
  {| pid := pid task; co := co task; request := request task; response := response task;
     response_1 := response_1 task; controller := controller task; controller_1 := Some c;
     done := done task; serviceId := serviceId task; methodId := methodId task;
     expireTime := expireTime task |}.

(** The result of a response on the task: the error of a failed call goes to
    the caller's controller, or to a fresh one when the call can time out; a
    body is parsed into [response_1]. *)
Definition fill_result task (error_code expire : Z) (body : bytes) : outcome (RpcClientTask M) :=
  if bool_decide (error_code ≠ 0) then
    _ ← require (controller_1 task = None);
    if bool_decide (expire = 0) then
      c ← deref (controller task);
      Ok (set_controller (Controller.SetErrorCode (i32 error_code) (Controller.SetFailed body c)) task)
    else
      Ok (set_controller_1
            (Controller.SetErrorCode (i32 error_code) (Controller.SetFailed body Controller.Reset)) task)
  else
    r ← deref (response_1 task);
    match ParseFromArray (proto_of r) body with
    | None => Fault AssertFailed
    | Some m => Ok (set_response_1 m task)
    end.

(** [RpcClient::decode] *)
Definition decode conn (head body : bytes) (size : Z) : outcome (Connection M * bytes * option unit) :=
  respSize ← get_be32 e head 0;
  callId ← get_be64 e head 4;
  expire ← get_be64 e head 12;
  error_code ← get_be32 e head 20;
  _ ← require (respSize = u32 size);
  match waitResultCoMap_ conn !! callId with
  | None => Ok (conn, body, None)
  | Some task =>
    if bool_decide (expireTime task ≠ expire) then Ok (conn, body, None) else
    bs ← memread body 0 respSize;
    task ← fill_result task error_code expire bs;
    Ok ({| st_ := st_ conn; waitSendTaskCoList_ := waitSendTaskCoList_ conn;
           waitResultCoMap_ := delete callId (waitResultCoMap_ conn);
           resumed := resumed conn ++ [Resume task expire 0]; done_run := done_run conn |}, body, None)
  end.

Definition run_done task conn : Connection M :=
  {| st_ := st_ conn; waitSendTaskCoList_ := waitSendTaskCoList_ conn;
     waitResultCoMap_ := waitResultCoMap_ conn; resumed := resumed conn;
     done_run := done_run conn ++ [task] |}.

(** [RpcClient::encode] *)
Definition encode conn task (buf : bytes) (off space : Z) (dbuf : bytes) (dsent : Z)
    : outcome (encode_result (Connection M)) :=
  let msgSize := i32 (message_size (request task)) in
  if bool_decide (CORPC_REQUEST_HEAD_SIZE > space) then Ok (true, (conn, buf, 0, dbuf, dsent)) else
  buf ← put_be32 e buf off (u32 msgSize);
  buf ← put_be32 e buf (off + 4) (serviceId task);
  buf ← put_be32 e buf (off + 8) (methodId task);
  buf ← put_be64 e buf (off + 12) (u64 (co task));
  buf ← put_be64 e buf (off + 20) (expireTime task);
  '(buf, size, dbuf, dsent) ←
    put_body (Serialize (request task)) CORPC_REQUEST_HEAD_SIZE msgSize buf off space dbuf dsent;
  match response task with
  | None => _ ← require (done task = true); Ok (true, (run_done task conn, buf, size, dbuf, dsent))
  | Some _ => Ok (true, (conn, buf, size, dbuf, dsent))
  end.
End client.

(** ** Laws *)
Section laws.
Context {M Proto : Type} `{MessageLaws M Proto} (e : endian).
Implicit Types (conn : Connection M) (task : RpcClientTask M).

Lemma client_decode_prefix conn head body size : 0 ≤ size ≤ zlen body →
  decode e conn head body size
  = match decode e conn head (ztake size body) size with
    | Ok (c', _, t) => Ok (c', body, t)
    | Fault f => Fault f
    end.
Proof.
  intros. unfold decode.
  destruct (get_be32 e head 0) as [n|]; [|done]. destruct (get_be64 e head 4) as [k|]; [|done].
  destruct (get_be64 e head 12) as [x|]; [|done]. destruct (get_be32 e head 20) as [c|]; [|done]. simpl.
  destruct (decide (n = u32 size)) as [->|Hne]; [|by rewrite require_false].
  rewrite require_true by done. simpl.
  destruct (_ !! _) as [task|]; [|done]. case_bool_decide; [done|].
  assert (0 ≤ u32 size ≤ size) by (split; [apply u32_range|apply Z.mod_le; lia]).
  rewrite memread_front, (memread_front (ztake size body)) by zlen. simpl.
  rewrite ztake_ztake, Z.min_l by lia. by destruct (fill_result _ _ _ _).
Qed.

#[global] Program Instance decoder : Decoder CORPC_RESPONSE_HEAD_SIZE (decode (M:=M) (Proto:=Proto) e) := {|
  is_error _ := false;
  decode_frame := frame_of (decode e);
|}.
Next Obligation.
  intros conn head body size Hl Hh Hb Hs. unfold frame_of.
  rewrite (client_decode_prefix conn head body size) by done.
  assert (zlen (ztake size body) = size) as -> by zlen.
  destruct (decode e conn head (ztake size body) size) as [[[c' b'] t]|f]; eauto.
Qed.

(** The request frame of a call. *)
Definition request_frame task : bytes :=
  request_head (zlen (Serialize (request task))) (serviceId task) (methodId task)
    (u64 (co task)) (expireTime task) ++ Serialize (request task).

(** [CallMethod] asserts that a call without response has a [done] callback. *)
Definition sendable task : Prop := response task = None → done task = true.

Lemma client_encode_head conn task buf off space :
  sendable task → CORPC_REQUEST_HEAD_SIZE ≤ space → 0 ≤ off → off + space ≤ zlen buf →
  let p := Serialize (request task) in
  let h := request_head (zlen p) (serviceId task) (methodId task) (u64 (co task)) (expireTime task) in
  encode e conn task buf off space [] 0
  = ('(buf, size, dbuf, dsent) ← put_body p (zlen h) (zlen p) (splice buf off h) off space [] 0;
     Ok (true, (match response task with None => run_done task conn | Some _ => conn end,
                buf, size, dbuf, dsent))).
Proof.
  intros Hd Hsp Hoff Hlen p h. pose proof (size_limit (request task)) as Hlim.
  pose proof (zlen_nonneg (Serialize (request task))) as Hpos.
  assert (h = ((((be_bytes 4 (zlen p)) ++ be_bytes 4 (serviceId task)) ++ be_bytes 4 (methodId task))
      ++ be_bytes 8 (u64 (co task))) ++ be_bytes 8 (expireTime task)) as Hh
    by (unfold h, request_head; by rewrite <-!app_assoc).
  assert (zlen h = CORPC_REQUEST_HEAD_SIZE) as -> by apply zlen_request_head.
  unfold CORPC_REQUEST_HEAD_SIZE in *. unfold encode, CORPC_REQUEST_HEAD_SIZE.
  rewrite message_size_ok, i32_small, u32_small by lia. fold p. rewrite bool_decide_false by lia.
  assert (zlen (be_bytes 4 (zlen p)) = 4) as L1 by (by apply be_bytes_length).
  assert (zlen (be_bytes 4 (serviceId task)) = 4) as L2 by (by apply be_bytes_length).
  assert (zlen (be_bytes 4 (methodId task)) = 4) as L3 by (by apply be_bytes_length).
  assert (zlen (be_bytes 8 (u64 (co task))) = 8) as L4 by (by apply be_bytes_length).
  rewrite put_be32_first by lia. cbn [mbind outcome_bind].
  rewrite put_be32_next by lia. cbn [mbind outcome_bind].
  rewrite put_be32_next by (rewrite ?zlen_app; lia). cbn [mbind outcome_bind].
  rewrite put_be64_next by (rewrite ?zlen_app; lia). cbn [mbind outcome_bind].
  rewrite put_be64_next by (rewrite ?zlen_app; lia). cbn [mbind outcome_bind].
  rewrite <-Hh. destruct (put_body _ _ _ _ _ _ _ _) as [[[[b sz] db] dn]|f]; [|done].
  cbn [mbind outcome_bind]. destruct (response task) eqn:Er; [done|].
  by rewrite require_true by (by apply Hd).
Qed.

(** The data of a client connection. *)
Definition call : Type := { task | sendable task }.
Definition encode_call conn (d : call) := encode e conn (`d).

#[global] Program Instance encoder : Encoder CORPC_REQUEST_HEAD_SIZE encode_call := {|
  frame _ d := Some (request_frame (`d));
|}.
Next Obligation.
  intros c d f <-%(inj Some). unfold request_frame. rewrite zlen_app, zlen_request_head.
  pose proof (zlen_nonneg (Serialize (request (`d)))). lia.
Qed.
Next Obligation.
  intros c d buf off space dbuf dsent Hs. unfold encode_call, encode. by rewrite bool_decide_true by lia.
Qed.
Next Obligation. done. Qed.
Next Obligation.
  intros c [task Hd] f buf off space <-%(inj Some) Hl Hoff Hsp. unfold encode_call. simpl in *.
  assert (CORPC_REQUEST_HEAD_SIZE ≤ space).
  { unfold request_frame in Hl. rewrite zlen_app, zlen_request_head in Hl.
    pose proof (zlen_nonneg (Serialize (request task))). lia. }
  rewrite (client_encode_head c task) by done. eexists. split; [|done].
  rewrite put_body_fits; [done|done|done|]. rewrite <-zlen_app. apply Hl.
Qed.
Next Obligation.
  intros c [task Hd] f buf off space <-%(inj Some) Hl Hoff Hsp. unfold encode_call. simpl in *.
  rewrite (client_encode_head c task) by (done || lia). eexists. split; [|done].
  unfold request_frame in *. set (h := request_head _ _ _ _ _) in *. set (p := Serialize (request task)) in *.
  assert (zlen h = CORPC_REQUEST_HEAD_SIZE) as Hh by apply zlen_request_head.
  rewrite put_body_split.
  - rewrite <-Hh, zdrop_app_exact. done.
  - done.
  - done.
  - rewrite Hh, <-Hh, <-zlen_app. lia.
  - apply size_limit.
Qed.
End laws.
End RpcClient.
