(* ===== verification/RpcEndToEnd.v ===== *)
(** * Calls from client to server and back

    The request frame the client writes is the frame the server reads and the
    response frame the server writes is the frame the client reads, whatever the
    byte orders of the two hosts.  Composed with the sender and the receiving
    pipeline: the calls accepted on a connection that is closed in order reach
    the server's worker, each exactly once, in order and with their content,
    however TCP cuts the stream. *)
From stdpp Require Import gmap.
From S2P Require Import Prelude Define Pipeline Sending Sender RpcWire RpcServer RpcClient.
Open Scope Z_scope.

Section endtoend.
Context {M Proto : Type} `{MessageLaws M Proto}.
Implicit Types (task : RpcClientTask M).

(** The fields of a call have the widths of the code. *)
Definition call_wf task : Prop :=
  is_u32 (serviceId task) ∧ is_u32 (methodId task) ∧ is_u64 (co task) ∧ is_u64 (expireTime task).

(** The server offers the method of the call, with the type of its request. *)
Definition offered (c : RpcServer.Connection M Proto) task : Prop :=
  ∃ md, RpcServer.getMethod (RpcServer.server_ c) (serviceId task) (methodId task) = Some md ∧
    request_proto md = proto_of (request task).

(** What the worker of the server gets for a call. *)
Definition delivers (c : RpcServer.Connection M Proto) task (st : RpcServerTask.t M Proto) : Prop :=
  ∃ md, RpcServer.getMethod (RpcServer.server_ c) (serviceId task) (methodId task) = Some md ∧
    RpcServerTask.method st = method_descriptor md ∧
    RpcServerTask.service st = RpcServer.getService (RpcServer.server_ c) (serviceId task) ∧
    RpcServerTask.request st ≡ request task ∧
    RpcServerTask.callId st = co task ∧
    RpcServerTask.expireTime st = expireTime task ∧
    (is_Some (RpcServerTask.response st) ↔ not_care_response (method_descriptor md) = false).

Lemma request_fields e (size sid mid k x : Z) :
  is_u32 size → is_u32 sid → is_u32 mid → is_u64 k → is_u64 x →
  let h := request_head size sid mid k x in
  get_be32 e h 0 = Ok size ∧ get_be32 e h 4 = Ok sid ∧ get_be32 e h 8 = Ok mid ∧
  get_be64 e h 12 = Ok k ∧ get_be64 e h 20 = Ok x.
Proof.
  intros. unfold h, request_head.
  assert (∀ n v, 0 ≤ n → Forall is_byte (be_bytes n v)) as B by (intros; by apply be_bytes_bytes).
  split_and!.
  - apply (get_be32_field e []); try done. rewrite !Forall_app; auto with lia.
  - apply get_be32_field; [by apply be_bytes_length|done|auto with lia|rewrite !Forall_app; auto with lia].
  - rewrite app_assoc. apply get_be32_field; [|done|rewrite ?Forall_app; auto with lia..].
    by rewrite zlen_app, !be_bytes_length.
  - rewrite 2!app_assoc. apply get_be64_field; [|done|rewrite ?Forall_app; auto with lia..].
    by rewrite !zlen_app, !be_bytes_length.
  - rewrite 3!app_assoc. rewrite <-(app_nil_r (be_bytes 8 x)).
    apply get_be64_field; [|done|rewrite ?Forall_app; auto with lia..].
    by rewrite !zlen_app, !be_bytes_length.
Qed.

Lemma response_fields e (size k x code : Z) :
  is_u32 size → is_u64 k → is_u64 x → is_u32 code →
  let h := response_head size k x code in
  get_be32 e h 0 = Ok size ∧ get_be64 e h 4 = Ok k ∧ get_be64 e h 12 = Ok x ∧ get_be32 e h 20 = Ok code.
Proof.
  intros. unfold h, response_head.
  assert (∀ n v, 0 ≤ n → Forall is_byte (be_bytes n v)) as B by (intros; by apply be_bytes_bytes).
  split_and!.
  - apply (get_be32_field e []); try done. rewrite !Forall_app; auto with lia.
  - apply get_be64_field; [by apply be_bytes_length|done|auto with lia|rewrite !Forall_app; auto with lia].
  - rewrite app_assoc. apply get_be64_field; [|done|rewrite ?Forall_app; auto with lia..].
    by rewrite zlen_app, !be_bytes_length.
  - rewrite 2!app_assoc. rewrite <-(app_nil_r (be_bytes 4 code)).
    apply get_be32_field; [|done|rewrite ?Forall_app; auto with lia..].
    by rewrite !zlen_app, !be_bytes_length.
Qed.

Lemma decode_request e c task : call_wf task → offered c task →
  let p := Serialize (request task) in
  let h := request_head (zlen p) (serviceId task) (methodId task) (u64 (co task)) (expireTime task) in
  ∃ st, RpcServer.decode e c h p (zlen p) = Ok (c, p, Some st) ∧ delivers c task st.
Proof.
  intros (Hs & Hm & Hk & Hx) (md & Hmd & Hp) p h.
  pose proof (size_limit (request task)) as Hlim. pose proof (zlen_nonneg p).
  destruct (request_fields e (zlen p) (serviceId task) (methodId task) (u64 (co task)) (expireTime task))
    as (F1 & F2 & F3 & F4 & F5); try done; [unfold p in *; unfold is_u32; lia|apply u64_range|].
  unfold RpcServer.decode. fold h in F1, F2, F3, F4, F5. rewrite F1, F2, F3, F4, F5. cbn [mbind outcome_bind].
  rewrite Hmd, memread_front, ztake_ge by lia. cbn [mbind outcome_bind].
  destruct (parse_serialize (request task)) as (m' & Hparse & Heq & _). rewrite Hp. fold p in Hparse. rewrite Hparse.
  eexists. split; [done|]. exists md. simpl. split_and!; try done.
  - by apply u64_small.
  - destruct (not_care_response (method_descriptor md)); split; [by intros []|done|done|by eexists].
Qed.

(** ** A stream of requests *)

Abbreviation server_run := (Frames.run CORPC_REQUEST_HEAD_SIZE CORPC_MAX_REQUEST_SIZE
  (TcpPipeline.field 0 FOUR_BYTES)).

Lemma request_head_field (size sid mid k x : Z) : is_u32 size →
  TcpPipeline.field 0 FOUR_BYTES (request_head size sid mid k x) = size.
Proof.
  intros. unfold TcpPipeline.field, TcpPipeline.size_width, request_head.
  rewrite slice_front by (by apply be_bytes_length).
  rewrite be_val_bytes by lia. by apply Z.mod_small.
Qed.

Lemma request_frame_bytes task : Forall is_byte (RpcClient.request_frame task).
Proof. apply Forall_app. split; [apply request_head_bytes|apply serialize_bytes]. Qed.

(** A request that fits in the server's limit. *)
Definition fits task : Prop := zlen (Serialize (request task)) ≤ CORPC_MAX_REQUEST_SIZE.

Lemma run_requests e c tasks :
  Forall (λ t, call_wf t ∧ offered c t ∧ fits t) tasks →
  ∃ sts, server_run (RpcServer.decode e) c (concat (RpcClient.request_frame <$> tasks))
           = Frames.Waiting c sts [] ∧ Forall2 (delivers c) tasks sts.
Proof.
  induction 1 as [|task tasks (Hwf & Hof & Hfit) Hall (sts & IH & Hsts)].
  { exists []. split; [|done]. done. }
  destruct (decode_request e c task Hwf Hof) as (st & Hdec & Hst).
  exists (st :: sts). split; [|by constructor]. cbn [fmap list_fmap concat].
  unfold RpcClient.request_frame at 1. rewrite <-app_assoc.
  pose proof (size_limit (request task)). pose proof (zlen_nonneg (Serialize (request task))).
  rewrite Frames.run_frame with (c' := c) (t := Some st).
  - rewrite IH. done.
  - done.
  - apply TcpPipeline.field_nonneg.
  - apply zlen_request_head.
  - apply request_head_field. unfold is_u32. lia.
  - done.
  - rewrite app_assoc. apply Forall_app. split; [apply request_frame_bytes|].
    apply Forall_concat. apply Forall_fmap. apply Forall_true. intros. apply request_frame_bytes.
  - unfold decode_frame. simpl. unfold frame_of. by rewrite Hdec.
  - done.
Qed.

(** ** Through the sender and the receiving pipeline *)

Abbreviation call := (@RpcClient.call M).
Abbreviation client_downflow e := (MessagePipeline.downflow (RpcClient.encode_call e)).

Section stream.
(** The buffer of the sender holds at least a head. *)
Context (bufsize : Z) (Hbufsize : CORPC_REQUEST_HEAD_SIZE ≤ bufsize < 2^31).

(** The sending pipeline of a client connection meets the sender's interface. *)
#[local] Instance client_sender e : Downflow bufsize (client_downflow e) MessagePipeline.push_back.
Proof.
  refine (MessagePipeline.downflow_laws CORPC_REQUEST_HEAD_SIZE (RpcClient.encode_call e) _ _ _ Hbufsize); [done|].
  intros c d f <-%(inj Some). unfold RpcClient.request_frame. rewrite zlen_app, zlen_request_head.
  pose proof (size_limit (request (`d))). lia.
Defined.

Lemma frames_calls e (p : MessagePipeline.t (RpcClient.Connection M) call) (calls : list call) :
  frames (enc (Downflow:=client_sender e) p) calls = Some (concat ((λ d : call, RpcClient.request_frame (`d)) <$> calls)).
Proof.
  change (frames (λ d : call, Some (RpcClient.request_frame (`d))) calls
    = Some (concat ((λ d : call, RpcClient.request_frame (`d)) <$> calls))).
  induction calls as [|d calls IH]; [done|]. cbn [frames]. by rewrite IH.
Qed.

(** A client connection with nothing sent yet. *)
Definition client_start (conn : RpcClient.Connection M) :=
  Sender.init (Data:=call) bufsize (MessagePipeline.Make conn [] [] 0 : MessagePipeline.t _ call).

Lemma server_config : TcpPipeline.config_ok CORPC_REQUEST_HEAD_SIZE CORPC_MAX_REQUEST_SIZE 0 FOUR_BYTES.
Proof. unfold TcpPipeline.config_ok. simpl. unfold CORPC_REQUEST_HEAD_SIZE, CORPC_MAX_REQUEST_SIZE. lia. Qed.

(** The server's receiving pipeline for a new connection, fed with [chunks]. *)
Definition server_feed e (c : RpcServer.Connection M Proto) (chunks : list bytes) :=
  TcpPipeline.feed e CORPC_REQUEST_HEAD_SIZE CORPC_MAX_REQUEST_SIZE 0 FOUR_BYTES (RpcServer.decode e)
    (TcpPipeline.init CORPC_REQUEST_HEAD_SIZE CORPC_MAX_REQUEST_SIZE c) chunks.

End stream.

(** ** The response *)

(** The caller's task can take the result: a call that fails without a
    timeout has a controller, a call that succeeds has a response object of
    the type the server answers with. *)
Definition can_take task (ctl : Controller.t) (resp : M) : Prop :=
  controller_1 task = None ∧
  (if Controller.Failed ctl then expireTime task = 0 → is_Some (controller task)
   else ∃ r, response_1 task = Some r ∧ proto_of r = proto_of resp).

(** The task carries the result: the error text and code in the controller
    the caller looks at, or the response. *)
Definition has_result task (ctl : Controller.t) (resp : M) : Prop :=
  if Controller.Failed ctl then
    ∃ c, (if bool_decide (expireTime task = 0) then controller task else controller_1 task) = Some c ∧
      Controller.ErrorText c = Controller.ErrorText ctl ∧ Controller.GetErrorCode c = Controller.GetErrorCode ctl
  else ∃ m, response_1 task = Some m ∧ m ≡ resp.

Lemma fill_result_ok task ctl resp : Controller.wf ctl → can_take task ctl resp →
  ∃ task', RpcClient.fill_result task (u32 (Controller.GetErrorCode ctl)) (expireTime task)
             (RpcServer.response_payload ctl resp) = Ok task' ∧
    has_result task' ctl resp ∧ pid task' = pid task ∧ co task' = co task ∧ expireTime task' = expireTime task.
Proof.
  intros (Hcode & _ & _) [Hc1 Hcan]. unfold RpcClient.fill_result, RpcServer.response_payload, has_result.
  unfold Controller.Failed, Controller.GetErrorCode in *.
  assert (u32 (Controller.error_code_ ctl) = 0 ↔ Controller.error_code_ ctl = 0) as Hz.
  { split; [|by intros ->]. intros E.
    rewrite <-(i32_small (Controller.error_code_ ctl)), <-i32_u32, E by done. done. }
  destruct (decide (Controller.error_code_ ctl = 0)) as [E|E].
  - rewrite !(bool_decide_true (Controller.error_code_ ctl = 0)) in * by done.
    rewrite bool_decide_false by (rewrite Hz; naive_solver). simpl.
    destruct Hcan as (r & Hr & Hp). rewrite Hr. simpl.
    destruct (parse_serialize resp) as (m & Hm & Heq & _). rewrite Hp, Hm. simpl.
    eexists. split; [done|]. simpl. split_and!; eauto.
  - rewrite !(bool_decide_false (Controller.error_code_ ctl = 0)) in * by done.
    rewrite (bool_decide_true (u32 _ ≠ 0)) by naive_solver. rewrite require_true by done. simpl in *.
    case_bool_decide as Hx.
    + destruct (Hcan Hx) as [c0 Hc0]. rewrite Hc0. simpl. eexists. split; [done|]. simpl.
      rewrite bool_decide_true by done. split_and!; try done. eexists. split; [done|].
      simpl. by rewrite i32_u32, i32_small.
    + eexists. split; [done|]. simpl. rewrite bool_decide_false by done. split_and!; try done.
      eexists. split; [done|]. simpl. by rewrite i32_u32, i32_small.
Qed.

(** The response the server encodes on one host,
    with room for it in the buffer, is decoded on another host to the waiting
    call with its identifier and expiry: the call leaves the waiting map and
    its coroutine is resumed once with the response, or the error text and
    code, of the server; other calls keep waiting. *)
Theorem rpc_response_roundtrip es ec c st ctl resp conn task buf off space :
  RpcServerTask.controller st = Some ctl → RpcServerTask.response st = Some resp → Controller.wf ctl →
  is_u64 (RpcServerTask.callId st) → is_u64 (RpcServerTask.expireTime st) →
  0 ≤ off → off + space ≤ zlen buf →
  CORPC_RESPONSE_HEAD_SIZE + zlen (RpcServer.response_payload ctl resp) ≤ space →
  RpcClient.waitResultCoMap_ conn !! RpcServerTask.callId st = Some task →
  expireTime task = RpcServerTask.expireTime st → can_take task ctl resp →
  ∃ buf' size conn' task',
    RpcServer.encode es c st buf off space [] 0 = Ok (true, (c, buf', size, [], 0)) ∧
    RpcClient.decode ec conn (slice off CORPC_RESPONSE_HEAD_SIZE buf')
      (slice (off + CORPC_RESPONSE_HEAD_SIZE) (size - CORPC_RESPONSE_HEAD_SIZE) buf')
      (size - CORPC_RESPONSE_HEAD_SIZE)
    = Ok (conn', slice (off + CORPC_RESPONSE_HEAD_SIZE) (size - CORPC_RESPONSE_HEAD_SIZE) buf', None) ∧
    RpcClient.waitResultCoMap_ conn' = delete (RpcServerTask.callId st) (RpcClient.waitResultCoMap_ conn) ∧
    RpcClient.resumed conn' = RpcClient.resumed conn ++ [RpcClient.Resume task' (expireTime task) 0] ∧
    has_result task' ctl resp ∧ pid task' = pid task ∧ co task' = co task.
Proof.
  intros Hc Hr Hw Hk Hx Hoff Hlen Hsp Hwait Hexp Hcan.
  set (p := RpcServer.response_payload ctl resp) in *.
  set (h := response_head (zlen p) (RpcServerTask.callId st) (RpcServerTask.expireTime st)
             (u32 (Controller.GetErrorCode ctl))).
  assert (zlen h = CORPC_RESPONSE_HEAD_SIZE) as Hhl by apply zlen_response_head.
  assert (0 ≤ zlen p < 2^31) as Hpl.
  { split; [apply zlen_nonneg|]. unfold p, RpcServer.response_payload.
    destruct (Controller.Failed ctl); [apply Hw|apply size_limit]. }
  rewrite (RpcServer.server_encode_head es c st ctl resp) by (done || lia). fold p h.
  rewrite put_body_fits by (done || lia). cbn [mbind outcome_bind].
  assert (zlen (h ++ p) - CORPC_RESPONSE_HEAD_SIZE = zlen p) as Hsz by (rewrite zlen_app; lia).
  assert (slice off CORPC_RESPONSE_HEAD_SIZE (splice buf off (h ++ p)) = h) as Hs1.
  { unfold splice. rewrite <-app_assoc. apply slice_mid; [zlen|done]. }
  assert (slice (off + CORPC_RESPONSE_HEAD_SIZE) (zlen p) (splice buf off (h ++ p)) = p) as Hs2.
  { unfold splice. rewrite <-app_assoc, app_assoc. apply slice_mid; [|done]. rewrite zlen_app. zlen. }
  destruct (response_fields ec (zlen p) (RpcServerTask.callId st) (RpcServerTask.expireTime st)
    (u32 (Controller.GetErrorCode ctl))) as (F1 & F2 & F3 & F4); [unfold is_u32; lia|done|done|apply u32_range|].
  fold h in F1, F2, F3, F4.
  destruct (fill_result_ok task ctl resp Hw Hcan) as (task' & Hfill & Hres & Hpid & Hco & _).
  eexists _, (zlen (h ++ p)), _, task'. split; [done|]. rewrite Hsz, Hs1, Hs2.
  unfold RpcClient.decode. rewrite F1, F2, F3, F4. cbn [mbind outcome_bind].
  rewrite require_true by (by rewrite u32_small by lia). cbn [mbind outcome_bind].
  rewrite Hwait, <-Hexp. rewrite bool_decide_false by naive_solver.
  rewrite memread_front, ztake_ge by lia. cbn [mbind outcome_bind]. fold p in Hfill. rewrite Hfill.
  cbn [mbind outcome_bind]. split; [done|]. simpl. split_and!; done.
Qed.

(** A response nobody waits for, because the call
    timed out or its coroutine address was reused by a call with another
    expiry, changes nothing. *)
Theorem rpc_stale_response ec conn head body size callId expire code :
  is_u32 size → is_u64 callId → is_u64 expire → is_u32 code →
  head = response_head size callId expire code →
  (∀ task, RpcClient.waitResultCoMap_ conn !! callId = Some task → expireTime task ≠ expire) →
  RpcClient.decode ec conn head body size = Ok (conn, body, None).
Proof.
  intros Hs Hk Hx Hcd -> Hno.
  destruct (response_fields ec size callId expire code) as (F1 & F2 & F3 & F4); [done..|].
  unfold RpcClient.decode. rewrite F1, F2, F3, F4. cbn [mbind outcome_bind].
  rewrite require_true by (by rewrite u32_small by apply Hs). cbn [mbind outcome_bind].
  destruct (_ !! _) as [task|]; [|done]. by rewrite bool_decide_true by (by apply Hno).
Qed.
End endtoend.

(** ** Examples *)
Module Example.
Import Fixed64.

Definition method : MethodData unit :=
  {| method_descriptor := {| index := 0; not_care_response := false; delete_in_done := false;
       need_coroutine := false; timeout := 0 |};
     request_proto := tt; response_proto := tt |}.
Definition service : Service msg unit :=
  {| global_service_id := 7; service_methods := [method];
     call_controller _ _ c := c; call_response _ req _ := Msg (value req + 1) |}.
Definition server : RpcServer.Connection msg unit :=
  {| RpcServer.fd_ := 3; RpcServer.server_ := (RpcServer.registerService service ∅).2 |}.
Definition task : RpcClientTask msg :=
  {| pid := 1; co := 4096; request := Msg 41; response := Some (Msg 0); response_1 := Some (Msg 0);
     controller := Some Controller.Reset; controller_1 := None; done := false;
     serviceId := 7; methodId := 0; expireTime := 0 |}.
Definition conn : RpcClient.Connection msg :=
  {| RpcClient.st_ := RpcClient.CONNECTED; RpcClient.waitSendTaskCoList_ := [];
     RpcClient.waitResultCoMap_ := {[ 4096 := task ]}; RpcClient.resumed := []; RpcClient.done_run := [] |}.
Definition call : @RpcClient.call msg.
Proof. exists task. discriminate 1. Defined.

(** A run of the sender with a buffer of 32 bytes: the frame of 36 bytes is cut. *)
Definition dn := MessagePipeline.downflow (RpcClient.encode_call (M:=msg) LittleEndian).
Abbreviation state := (Sender.t (MessagePipeline.t (RpcClient.Connection msg) (@RpcClient.call msg)) (@RpcClient.call msg)).
Definition popped (s : state) : state :=
  match Sender.pop s with Some (k, s') => Sender.handle MessagePipeline.push_back k s' | None => s end.
Definition s0 : state := client_start 32 conn.
Definition s1 : state := Sender.send call (Sender.addConnection s0).
Definition s2 : state := Sender.removeConnection (popped (popped s1)).
Definition s3 : state := get s2 (Sender.fill dn 32 s2).
Definition s4 : state := get s3 (Sender.flush 32 (Sender.set_script [(32, 0)] s3)).
Definition s5 : state := get s4 (Sender.fill dn 32 s4).
Definition s6 : state := get s5 (Sender.flush 4 (Sender.set_script [(4, 0)] s5)).
Definition s7 : state := popped s6.
Definition s8 : state := get s7 (Sender.fill dn 32 s7).

Lemma client_step_popped s : isok (match Sender.pop s with Some _ => Ok tt | None => Fault OutOfFuel end) = true →
  Sender.step dn MessagePipeline.push_back 32 s (popped s).
Proof.
  unfold popped. destruct (Sender.pop s) as [[k s']|] eqn:E; [|done]. intros _. by apply Sender.step_handle.
Qed.

Lemma reach_s8 : reach (Sender.step dn MessagePipeline.push_back 32) s0 s8.
Proof.
  apply (reach_step _ _ s7); [|apply Sender.step_fill; [done|by apply get_ok]].
  apply (reach_step _ _ s6); [|by apply client_step_popped].
  apply (reach_step _ _ s5); [|by eapply (Sender.step_flush _ _ _ _ 4); [|apply get_ok]].
  apply (reach_step _ _ s4); [|apply Sender.step_fill; [done|by apply get_ok]].
  apply (reach_step _ _ s3); [|by eapply (Sender.step_flush _ _ _ _ 32); [|apply get_ok]].
  apply (reach_step _ _ s2); [|apply Sender.step_fill; [done|by apply get_ok]].
  apply (reach_step _ _ (popped (popped s1))); [|apply Sender.step_remove].
  apply (reach_step _ _ (popped s1)); [|by apply client_step_popped].
  apply (reach_step _ _ s1); [|by apply client_step_popped].
  apply (reach_step _ _ (Sender.addConnection s0)); [|apply Sender.step_send].
  apply (reach_step _ _ s0); [apply reach_refl|by apply Sender.step_add].
Qed.
End Example.


Definition Example_reply : RpcServerTask.t Fixed64.msg unit :=
  {| RpcServerTask.service := Some Example.service; RpcServerTask.method := method_descriptor Example.method;
     RpcServerTask.request := Fixed64.Msg 41; RpcServerTask.response := Some (Fixed64.Msg 42);
     RpcServerTask.controller := Some Controller.Reset; RpcServerTask.done := None;
     RpcServerTask.callId := 4096; RpcServerTask.expireTime := 0 |}.

Lemma rpc_response_roundtrip_witness :
  ∃ buf' size conn' task',
    RpcServer.encode LittleEndian Example.server Example_reply (zeros 64) 8 40 [] 0
      = Ok (true, (Example.server, buf', size, [], 0)) ∧
    RpcClient.decode BigEndian Example.conn (slice 8 24 buf') (slice (8 + 24) (size - 24) buf') (size - 24)
      = Ok (conn', slice (8 + 24) (size - 24) buf', None) ∧
    RpcClient.waitResultCoMap_ conn' = delete 4096 (RpcClient.waitResultCoMap_ Example.conn) ∧
    RpcClient.resumed conn' = RpcClient.resumed Example.conn ++ [RpcClient.Resume task' 0 0] ∧
    has_result task' Controller.Reset (Fixed64.Msg 42) ∧ pid task' = 1 ∧ co task' = 4096.
Proof.
  apply (rpc_response_roundtrip (M:=Fixed64.msg) LittleEndian BigEndian Example.server Example_reply
    Controller.Reset (Fixed64.Msg 42) Example.conn Example.task (zeros 64) 8 40); try done.
  split; [done|]. simpl. by exists (Fixed64.Msg 0).
Defined.

Lemma rpc_stale_response_witness :
  RpcClient.decode LittleEndian Example.conn (response_head 8 4096 77 0) (zeros 8) 8
  = Ok (Example.conn, zeros 8, None).
Proof.
  apply (rpc_stale_response (M:=Fixed64.msg) LittleEndian Example.conn (response_head 8 4096 77 0) (zeros 8) 8 4096 77 0);
    try done.
  intros task. vm_compute. intros [= <-]. discriminate.
Defined.
