(* ===== verification/Terminal.v ===== *)
(** * corpc_message_terminal.cpp: the two ends of a message connection

    A terminal turns messages into frames with a serial, an optional checksum
    and an optional encryption, and back; it keeps the sent messages in a
    [MessageBuffer] until they are acknowledged, so that they can be sent again
    on a new connection.  The file models the terminal, its connections and its
    worker tasks; [decode] and [encode] are instances of the interfaces of the
    pipelines.  The theorems on them are in Messaging.v (what one end sends is what
    the other end gets), Resend.v (serials and sending again) and Handlers.v (the
    table of handlers). *)
From stdpp Require Import gmap.
From S2P Require Import Prelude Define Crc Crypter MessageBuffer Pipeline Sending RpcWire.
Open Scope Z_scope.

(** What a [shared_ptr<void>] of this file points to. *)
Inductive content (M : Type) : Type :=
  | RawString (s : bytes)
  | Protobuf (m : M).
Arguments RawString {_} _.
Arguments Protobuf {_} _.

(** [std::static_pointer_cast] to a string and to a message. *)
Definition as_string {M} (p : option (content M)) : outcome (option bytes) :=
  match p with
  | None => Ok None
  | Some (RawString s) => Ok (Some s)
  | Some (Protobuf _) => Fault BadCast
  end.
Definition as_message {M} (p : option (content M)) : outcome (option M) :=
  match p with
  | None => Ok None
  | Some (Protobuf m) => Ok (Some m)
  | Some (RawString _) => Fault BadCast
  end.

Module MessageWorkerTask.
(** corpc_message_terminal.h: [MessageWorkerTask]; [create] leaves the fields
    without a value ([None]).  The connection of a task is the one it was made
    for. *)
Record t (M : Type) : Type := Make {
  type : Z;
  tag : option Z;
  reqSerial : option Z;
  banned : option bool;
  msg : option (content M);
}.
Arguments Make {_} _ _ _ _ _.
Arguments type {_} _.
Arguments tag {_} _.
Arguments reqSerial {_} _.
Arguments banned {_} _.
Arguments msg {_} _.
End MessageWorkerTask.

Module MessageTerminal.
Section terminal.
(** [Handle] is the type of the callbacks and [K] that of the objects derived
    from [Crypter]. *)
Context {M Proto Handle K : Type} `{Message M Proto} (object : K → Crypter) (e : endian).

Record RegisterMessageInfo : Type := {
  proto : option Proto;
  handle : Handle;
  needCoroutine : bool;
  banned : bool;
}.

(** The fields of [MessageTerminal]. *)
Record t : Type := Make {
  needHB_ : bool;
  enableSendCRC_ : bool;
  enableRecvCRC_ : bool;
  enableSerial_ : bool;
  registerMessageMap_ : gmap Z RegisterMessageInfo;
  otherMessageHandle_ : option Handle;
}.

(** The fields of [MessageTerminal::Connection], and those of its base class
    [Connection] that it uses. *)
Record Connection : Type := Conn {
  isOpen : bool;
  decodeError_ : bool;
  lastRecvHBTime_ : Z;
  terminal_ : t;
  crypter_ : option K;
  msgBuffer_ : option (MessageBuffer.t (content M));
  recvSerial_ : Z;
  lastSendSerial_ : Z;
}.
Implicit Types (c : Connection).

(** The setters. *)
Definition setDecodeError c : Connection :=
  Conn (isOpen c) true (lastRecvHBTime_ c) (terminal_ c) (crypter_ c) (msgBuffer_ c) (recvSerial_ c) (lastSendSerial_ c).
Definition setLastRecvHBTime (time : Z) c : Connection :=
  Conn (isOpen c) (decodeError_ c) time (terminal_ c) (crypter_ c) (msgBuffer_ c) (recvSerial_ c) (lastSendSerial_ c).
Definition setMsgBuffer (b : option (MessageBuffer.t (content M))) c : Connection :=
  Conn (isOpen c) (decodeError_ c) (lastRecvHBTime_ c) (terminal_ c) (crypter_ c) b (recvSerial_ c) (lastSendSerial_ c).
Definition setRecvSerial (serial : Z) c : Connection :=
  Conn (isOpen c) (decodeError_ c) (lastRecvHBTime_ c) (terminal_ c) (crypter_ c) (msgBuffer_ c) serial (lastSendSerial_ c).
Definition setLastSendSerial (serial : Z) c : Connection :=
  Conn (isOpen c) (decodeError_ c) (lastRecvHBTime_ c) (terminal_ c) (crypter_ c) (msgBuffer_ c) (recvSerial_ c) serial.

(** [MessageTerminal::Connection::Connection] *)
Definition buildConnection (terminal : t) : Connection := Conn true false 0 terminal None None 0 0.

(** [onConnect] and [onClose]: the tasks for the worker. *)
Definition onConnect : MessageWorkerTask.t M :=
  MessageWorkerTask.Make CORPC_MSG_TYPE_CONNECT None None (Some false) None.
Definition onClose : MessageWorkerTask.t M :=
  MessageWorkerTask.Make CORPC_MSG_TYPE_CLOSE None None (Some false) None.

(** [Connection::resetMsgBuffer] and [Connection::scrapMessages] *)
Definition resetMsgBuffer c : Connection :=
  setMsgBuffer (MessageBuffer.reset (lastSendSerial_ c) <$> msgBuffer_ c) c.
Definition scrapMessages (serial : Z) c : Connection :=
  setMsgBuffer (MessageBuffer.scrapMessages serial <$> msgBuffer_ c) c.

(** [Connection::send]: the connection and what is handed to
    [corpc::Connection::send]; [addr] is the address of a new buffer node. *)
Definition send (addr : Z) (type : Z) (isRaw needCrypt needBuffer : bool) (tag : Z) (msg : option (content M)) c
    : outcome (Connection * option (SendMessageInfo (content M))) :=
  if negb (isOpen c) && bool_decide (type < 0) then Ok (c, None) else
  if negb (isOpen c) && bool_decide (msgBuffer_ c = None) then Ok (c, None) else
  _ ← (if isOpen c then Ok tt else require (enableSerial_ (terminal_ c) = true));
  if negb (isOpen c) && negb needBuffer then Ok (c, None) else
  '(c, serial) ←
    (if bool_decide (type > 0) && enableSerial_ (terminal_ c) then
       let serial := u32 (lastSendSerial_ c + 1) in
       let c := setLastSendSerial serial c in
       match msgBuffer_ c with
       | None => Ok (c, serial)
       | Some b =>
         if needBuffer then
           let info := {| MessageBuffer.type := type; MessageBuffer.isRaw := isRaw;
             MessageBuffer.needCrypt := needCrypt; MessageBuffer.tag := tag;
             MessageBuffer.serial := serial; MessageBuffer.msg := msg |} in
           '(_, b) ← MessageBuffer.insertMessage addr info b;
           Ok (setMsgBuffer (Some b) c, serial)
         else Ok (setMsgBuffer (Some (MessageBuffer.jumpToSerial serial b).2) c, serial)
       end
     else Ok (c, 0));
  Ok (c, if isOpen c then
           Some {| MessageBuffer.type := type; MessageBuffer.isRaw := isRaw;
             MessageBuffer.needCrypt := needCrypt; MessageBuffer.tag := tag;
             MessageBuffer.serial := serial; MessageBuffer.msg := msg |}
         else None).

(** [Connection::resend]: the message that announces skipped serials, the
    callback of [traverse] (its state is [lastSerial] and what was sent), and
    the whole. *)
Definition jump_info (serial : Z) : SendMessageInfo (content M) :=
  {| MessageBuffer.type := CORPC_MSG_TYPE_JUMP_SERIAL; MessageBuffer.isRaw := true;
     MessageBuffer.needCrypt := false; MessageBuffer.tag := 0;
     MessageBuffer.serial := serial; MessageBuffer.msg := None |}.
Definition resend_one c (info : SendMessageInfo (content M)) (st : Z * list (SendMessageInfo (content M)))
    : bool * (Z * list (SendMessageInfo (content M))) :=
  let '(lastSerial, out) := st in
  if negb (isOpen c) then (false, st) else
  let out := if bool_decide (lastSerial > 0) && bool_decide (serial info ≠ u32 (lastSerial + 1))
             then out ++ [jump_info (u32 (serial info - 1))] else out in
  (true, (serial info, out ++ [info])).
Definition resend c : list (SendMessageInfo (content M)) :=
  match msgBuffer_ c with
  | None => []
  | Some b => (MessageBuffer.traverse (resend_one c) (MessageBuffer.bufMsglink_ b) (0, [])).2
  end.

(** ** The terminal *)

(** [MessageTerminal::registerMessage] *)
Definition registerMessage (type : Z) (proto : option Proto) (needCoroutine : bool) (handle : Handle) (tm : t)
    : bool * t :=
  match registerMessageMap_ tm !! type with
  | Some _ => (false, tm)
  | None =>
    (true, Make (needHB_ tm) (enableSendCRC_ tm) (enableRecvCRC_ tm) (enableSerial_ tm)
       (<[type := {| proto := proto; handle := handle; needCoroutine := needCoroutine; banned := false |}]>
          (registerMessageMap_ tm)) (otherMessageHandle_ tm))
  end.

(** [MessageTerminal::setBanMessages]: one entry, and the loop over the map. *)
Definition ban_entry (msgTypeM : gmap Z bool) (type : Z) (info : RegisterMessageInfo) : RegisterMessageInfo :=
  let set b := {| proto := proto info; handle := handle info; needCoroutine := needCoroutine info; banned := b |} in
  match msgTypeM !! type with
  | Some _ => if negb (banned info) then set true else info
  | None => if banned info then set false else info
  end.
Definition setBanMessages (msgTypes : list Z) (tm : t) : t :=
  let msgTypeM := foldl (λ m type, <[type := true]> m) ∅ msgTypes in
  Make (needHB_ tm) (enableSendCRC_ tm) (enableRecvCRC_ tm) (enableSerial_ tm)
    (map_imap (λ type info, Some (ban_entry msgTypeM type info)) (registerMessageMap_ tm)) (otherMessageHandle_ tm).

(** What a worker task makes the program do: call a message handler, in a
    coroutine of its own or at once, or the handler of other messages. *)
Inductive action : Type :=
  | CallHandle (coroutine : bool) (h : Handle) (type : Z) (tag : option Z) (msg : option M)
  | CallOther (h : Handle) (type : Z) (tag : option Z) (msg : option bytes)
  | Nothing.

(** [MessageWorkerTask::taskCallRoutine]: it looks the handler up by the type of
    the message. *)
Definition taskCallRoutine (tm : t) (task : MessageWorkerTask.t M) : outcome action :=
  info ← deref (registerMessageMap_ tm !! MessageWorkerTask.type task);
  m ← as_message (MessageWorkerTask.msg task);
  Ok (CallHandle true (handle info) (MessageWorkerTask.type task) (MessageWorkerTask.tag task) m).

(** A field that must have been written. *)
Definition init_field {A} (x : option A) : outcome A :=
  match x with Some a => Ok a | None => Fault Uninitialized end.

(** [MessageWorkerTask::doTask] *)
Definition doTask (task : MessageWorkerTask.t M) c : outcome (Connection * action) :=
  let tm := terminal_ c in
  let type := MessageWorkerTask.type task in
  let system := bool_decide (type = CORPC_MSG_TYPE_CONNECT) || bool_decide (type = CORPC_MSG_TYPE_CLOSE) in
  c ← (if negb system && enableSerial_ tm then
         match msgBuffer_ c with
         | None => Ok c
         | Some _ => reqSerial ← init_field (MessageWorkerTask.reqSerial task); Ok (scrapMessages reqSerial c)
         end
       else Ok c);
  if bool_decide (type = CORPC_MSG_TYPE_HEARTBEAT) then Ok (c, Nothing) else
  banned ← init_field (MessageWorkerTask.banned task);
  match registerMessageMap_ tm !! (if banned : bool then CORPC_MSG_TYPE_BANNED else type) with
  | None =>
    match otherMessageHandle_ tm with
    | Some h => if banned then Ok (c, Nothing) else
      m ← as_string (MessageWorkerTask.msg task); Ok (c, CallOther h type (MessageWorkerTask.tag task) m)
    | None => Ok (c, Nothing)
    end
  | Some info =>
    if needCoroutine info then a ← taskCallRoutine tm task; Ok (c, a)
    else m ← as_message (MessageWorkerTask.msg task);
         Ok (c, CallHandle false (handle info) type (MessageWorkerTask.tag task) m)
  end.

(** ** The wire *)

(** [decode]: messages with a negative type; [now] is the value of [mtime()]. *)
Definition decode_system (now : Z) c (head body : bytes) (msgType : Z)
    : outcome (Connection * bytes * option (MessageWorkerTask.t M)) :=
  if bool_decide (msgType = CORPC_MSG_TYPE_HEARTBEAT) then
    let c := setLastRecvHBTime now c in
    if enableSerial_ (terminal_ c) then
      reqSerial ← get_be32 e head 12;
      Ok (c, body, Some (MessageWorkerTask.Make msgType None (Some reqSerial) None None))
    else Ok (c, body, None)
  else if bool_decide (msgType = CORPC_MSG_TYPE_JUMP_SERIAL) then
    serial ← get_be32 e head 16;
    if bool_decide (serial ≤ recvSerial_ c) then Ok (setDecodeError c, body, None)
    else Ok (setRecvSerial serial c, body, None)
  else Ok (c, body, None).

(** [decode]: the serial check; [None] is a mismatch. *)
Definition decode_serial c (head : bytes) : outcome (Connection * option Z) :=
  if enableSerial_ (terminal_ c) then
    let c := setRecvSerial (u32 (recvSerial_ c + 1)) c in
    serial ← get_be32 e head 16;
    if bool_decide (recvSerial_ c ≠ serial) then Ok (setDecodeError c, None)
    else reqSerial ← get_be32 e head 12; Ok (c, Some reqSerial)
  else Ok (c, Some 0).

(** [decode]: the checksum. *)
Definition decode_crc c (head body : bytes) (size : Z) : outcome bool :=
  if enableRecvCRC_ (terminal_ c) then
    crc ← get_be16 e head 20;
    bs ← memread body 0 size;
    crc1 ← CRC.CheckSum bs 0xFFFF size;
    Ok (bool_decide (crc = crc1))
  else Ok true.

(** [decode]: the task for a message of a registered or another type. *)
Definition decode_message c (body : bytes) (size msgType tag reqSerial : Z)
    : outcome (Connection * option (MessageWorkerTask.t M)) :=
  match registerMessageMap_ (terminal_ c) !! msgType with
  | None =>
    match otherMessageHandle_ (terminal_ c) with
    | Some _ =>
      bs ← memread body 0 size;
      Ok (c, Some (MessageWorkerTask.Make msgType (Some tag) (Some reqSerial) (Some false) (Some (RawString bs))))
    | None => Ok (setDecodeError c, None)
    end
  | Some info =>
    parsed ←
      (if banned info then Ok (Some None) else
       match proto info with
       | Some p => bs ← memread body 0 size; Ok (Some <$> ParseFromArray p bs)
       | None => _ ← require (size = 0); Ok (Some None)
       end);
    Ok (match parsed with
        | None => (setDecodeError c, None)
        | Some msg => (c, Some (MessageWorkerTask.Make msgType (Some tag) (Some reqSerial)
                                 (Some (banned info)) (Protobuf <$> msg)))
        end)
  end.

(** [MessageTerminal::decode] *)
Definition decode (now : Z) c (head body : bytes) (size : Z)
    : outcome (Connection * bytes * option (MessageWorkerTask.t M)) :=
  msgType ← get_be32 e head 4;
  let msgType := i32 msgType in
  tag ← get_be16 e head 8;
  flag ← get_be16 e head 10;
  if bool_decide (msgType < 0) then decode_system now c head body msgType else
  '(c, reqSerial) ← decode_serial c head;
  match reqSerial with
  | None => Ok (c, body, None)
  | Some reqSerial =>
    crc_ok ← decode_crc c head body size;
    if negb crc_ok then Ok (setDecodeError c, body, None) else
    let crypted := negb (bool_decide (Z.land flag CORPC_MESSAGE_FLAG_CRYPT = 0)) in
    if crypted && bool_decide (crypter_ c = None) then Ok (setDecodeError c, body, None) else
    body ← (if crypted then k ← deref (crypter_ c); decrypt (object k) body 0 0 size else Ok body);
    '(c, task) ← decode_message c body size msgType tag reqSerial;
    Ok (c, body, task)
  end.

(** [encode]: encrypting and checking [msgSize] bytes of a memory at [off]. *)
Definition seal_at (needCrypt needCRC : bool) (crypter : option K) (mem : bytes) (off msgSize : Z) (crypt : bool)
    : outcome (bytes * Z) :=
  mem ← (if needCrypt && crypt then k ← deref crypter; encrypt (object k) mem off off msgSize else Ok mem);
  crc ← (if needCRC then bs ← memread mem off msgSize; CRC.CheckSum bs 0xFFFF msgSize else Ok 0);
  Ok (mem, crc).

(** [encode]: placing the body of [msgSize] bytes, directly in the buffer
    ([write]) or, when it does not fit, by way of [downflowBuf] ([whole]).  The
    result is the buffer, [size], [downflowBuf], [downflowBufSentNum] and the
    checksum. *)
Definition put_message (write : bytes → outcome bytes) (whole : outcome bytes) (msgSize : Z)
    (needCrypt needCRC : bool) (crypter : option K) (buf : bytes) (off space : Z) (dbuf : bytes) (dsent : Z)
    : outcome (bytes * Z * bytes * Z * Z) :=
  let spaceleft := space - CORPC_MESSAGE_HEAD_SIZE in
  if bool_decide (u32 spaceleft >= msgSize) then
    buf ← (if bool_decide (msgSize > 0) then write buf else Ok buf);
    '(buf, crc) ← seal_at needCrypt needCRC crypter buf (off + CORPC_MESSAGE_HEAD_SIZE) msgSize
                    (bool_decide (msgSize > 0));
    Ok (buf, i32 (CORPC_MESSAGE_HEAD_SIZE + msgSize), dbuf, dsent, crc)
  else
    dbuf ← whole;
    '(dbuf, crc) ← seal_at needCrypt needCRC crypter dbuf 0 msgSize true;
    if bool_decide (spaceleft > 0) then
      buf ← memcpy buf (off + CORPC_MESSAGE_HEAD_SIZE) dbuf 0 spaceleft;
      Ok (buf, space, dbuf, u32 spaceleft, crc)
    else Ok (buf, space, dbuf, 0, crc).

(** [encode]: the body of a raw or of a protobuf message. *)
Definition put_payload (info : SendMessageInfo (content M)) (needCRC : bool) (crypter : option K)
    (buf : bytes) (off space : Z) (dbuf : bytes) (dsent : Z) : outcome (bytes * Z * bytes * Z * Z * Z) :=
  if isRaw info then
    s ← as_string (msg info);
    let msgSize := match s with Some s => u32 (zlen s) | None => 0 end in
    '(buf, size, dbuf, dsent, crc) ←
      put_message (λ buf, s ← deref s; memcpy buf (off + CORPC_MESSAGE_HEAD_SIZE) s 0 msgSize) (deref s)
        msgSize (needCrypt info) needCRC crypter buf off space dbuf dsent;
    Ok (buf, size, dbuf, dsent, crc, msgSize)
  else
    m ← as_message (msg info);
    m ← deref m;
    let msgSize := u32 (message_size m) in
    '(buf, size, dbuf, dsent, crc) ←
      put_message (λ buf, memcpy buf (off + CORPC_MESSAGE_HEAD_SIZE) (Serialize m) 0 (zlen (Serialize m)))
        (memcpy (zeros msgSize) 0 (Serialize m) 0 (zlen (Serialize m)))
        msgSize (needCrypt info) needCRC crypter buf off space dbuf dsent;
    Ok (buf, size, dbuf, dsent, crc, msgSize).

(** [encode]: the head. *)
Definition put_head c (info : SendMessageInfo (content M)) (msgSize crc : Z) (buf : bytes) (off : Z) : outcome bytes :=
  buf ← put_be32 e buf off msgSize;
  buf ← put_be32 e buf (off + 4) (u32 (type info));
  buf ← put_be16 e buf (off + 8) (tag info);
  buf ← put_be16 e buf (off + 10) (if needCrypt info then CORPC_MESSAGE_FLAG_CRYPT else 0);
  buf ← put_be32 e buf (off + 12) (recvSerial_ c);
  buf ← put_be32 e buf (off + 16) (serial info);
  put_be16 e buf (off + 20) crc.

(** [MessageTerminal::encode] *)
Definition encode c (info : SendMessageInfo (content M)) (buf : bytes) (off space : Z) (dbuf : bytes) (dsent : Z)
    : outcome (encode_result Connection) :=
  if bool_decide (CORPC_MESSAGE_HEAD_SIZE > space) then Ok (true, (c, buf, 0, dbuf, dsent)) else
  if needCrypt info && bool_decide (crypter_ c = None) then Ok (false, (c, buf, 0, dbuf, dsent)) else
  '(buf, size, dbuf, dsent, crc, msgSize) ←
    put_payload info (enableSendCRC_ (terminal_ c)) (crypter_ c) buf off space dbuf dsent;
  buf ← put_head c info msgSize crc buf off;
  Ok (true, (c, buf, size, dbuf, dsent)).
End terminal.
Arguments t : clear implicits.
Arguments Connection : clear implicits.
Arguments RegisterMessageInfo : clear implicits.
Arguments action : clear implicits.

(** ** Frames *)

(** The head on the wire: body size, type, tag, flags, the last serial the
    sender of the frame has received, its own serial, checksum. *)
Definition message_head (size type tag flag req serial crc : Z) : bytes :=
  be_bytes 4 size ++ be_bytes 4 type ++ be_bytes 2 tag ++ be_bytes 2 flag ++
  be_bytes 4 req ++ be_bytes 4 serial ++ be_bytes 2 crc.

Lemma zlen_message_head a b c d f g h : zlen (message_head a b c d f g h) = CORPC_MESSAGE_HEAD_SIZE.
Proof. unfold message_head. rewrite !zlen_app, !be_bytes_length by lia. done. Qed.
Lemma message_head_bytes a b c d f g h : Forall is_byte (message_head a b c d f g h).
Proof. unfold message_head. rewrite !Forall_app. split_and!; by apply be_bytes_bytes. Qed.

Lemma message_fields e (size type tag flag req serial crc : Z) :
  is_u32 size → is_u32 type → is_u16 tag → is_u16 flag → is_u32 req → is_u32 serial → is_u16 crc →
  let h := message_head size type tag flag req serial crc in
  get_be32 e h 4 = Ok type ∧ get_be16 e h 8 = Ok tag ∧ get_be16 e h 10 = Ok flag ∧
  get_be32 e h 12 = Ok req ∧ get_be32 e h 16 = Ok serial ∧ get_be16 e h 20 = Ok crc.
Proof.
  intros. unfold h, message_head.
  assert (∀ n v, 0 ≤ n → Forall is_byte (be_bytes n v)) as B by (intros; by apply be_bytes_bytes).
  split_and!.
  - apply get_be32_field; [by apply be_bytes_length|done|rewrite ?Forall_app; split_and?; by apply B..].
  - rewrite app_assoc. apply get_be16_field; [|done|rewrite ?Forall_app; split_and?; by apply B..].
    by rewrite !zlen_app, !be_bytes_length.
  - rewrite 2!app_assoc. apply get_be16_field; [|done|rewrite ?Forall_app; split_and?; by apply B..].
    by rewrite !zlen_app, !be_bytes_length.
  - rewrite 3!app_assoc. apply get_be32_field; [|done|rewrite ?Forall_app; split_and?; by apply B..].
    by rewrite !zlen_app, !be_bytes_length.
  - rewrite 4!app_assoc. apply get_be32_field; [|done|rewrite ?Forall_app; split_and?; by apply B..].
    by rewrite !zlen_app, !be_bytes_length.
  - rewrite 5!app_assoc. rewrite <-(app_nil_r (be_bytes 2 crc)).
    apply get_be16_field; [|done|rewrite ?Forall_app; split_and?; by apply B|done].
    by rewrite !zlen_app, !be_bytes_length.
Qed.

Section laws.
Context {M Proto Handle K : Type} `{MessageLaws M Proto}.
Context (object : K → Crypter) `{!∀ k, CrypterLaws (object k)} (e : endian).
Implicit Types (c : Connection M Proto Handle K) (info : SendMessageInfo (content M)).

(** The bytes of a message, what they become on the wire, their checksum. *)
Definition plain info : bytes :=
  match msg info with
  | Some (RawString s) => s
  | Some (Protobuf m) => Serialize m
  | None => []
  end.
Definition seal (needCrypt : bool) (crypter : option K) (p : bytes) : option bytes :=
  if needCrypt then (λ k, sealed (object k) p) <$> crypter else Some p.
Definition checksum (needCRC : bool) (b : bytes) : Z :=
  if needCRC then foldl CRC.crc_step 0xFFFF b else 0.
Definition head_of c info (b : bytes) : bytes :=
  message_head (zlen b) (u32 (type info)) (tag info) (if needCrypt info then CORPC_MESSAGE_FLAG_CRYPT else 0)
    (recvSerial_ c) (serial info) (checksum (enableSendCRC_ (terminal_ c)) b).
Definition message_frame c info : option bytes :=
  b ← seal (needCrypt info) (crypter_ c) (plain info); Some (head_of c info b ++ b).

(** What the callers of [send] provide: the content is what [isRaw] says and
    its size fits an [int]. *)
Definition sendable info : Prop :=
  match msg info with
  | None => isRaw info = true
  | Some (RawString s) => isRaw info = true ∧ Forall is_byte s ∧ zlen s < 2^31
  | Some (Protobuf _) => isRaw info = false
  end.

Lemma plain_props info : sendable info → Forall is_byte (plain info) ∧ zlen (plain info) < 2^31.
Proof.
  unfold sendable, plain. destruct (msg info) as [[s|m]|]; [naive_solver| |done].
  intros _. split; [apply serialize_bytes|apply size_limit].
Qed.

Lemma seal_props nc cr p b : seal nc cr p = Some b → Forall is_byte p → zlen b = zlen p ∧ Forall is_byte b.
Proof.
  unfold seal. destruct nc; [|by intros [= <-]]. destruct cr as [k|]; [|done].
  intros <-%(inj Some) Hp. split; [by apply sealed_length|by apply sealed_bytes].
Qed.

Lemma seal_at_ok nc cf cr mem off n crypt b :
  0 ≤ off → 0 ≤ n → off + n ≤ zlen mem → Forall is_byte (slice off n mem) →
  (crypt = false → n = 0) → seal nc cr (slice off n mem) = Some b →
  seal_at object nc cf cr mem off n crypt = Ok (splice mem off b, checksum cf b).
Proof.
  intros Hoff Hn Hle Hb Hc Hs. pose proof (seal_props _ _ _ _ Hs Hb) as [Hl _].
  rewrite zlen_slice in Hl by lia. unfold seal_at.
  assert ((if nc && crypt then k ← deref cr; encrypt (object k) mem off off n else Ok mem)
    = Ok (splice mem off b)) as ->.
  { unfold seal in Hs. destruct nc; simpl.
    - destruct cr as [k|]; [|done]. apply (inj Some) in Hs as <-. destruct crypt; simpl.
      + by apply encrypt_inplace.
      + rewrite Hc in * by done. apply zlen_0_inv in Hl. by rewrite Hl, splice_nil.
    - apply (inj Some) in Hs as <-. by rewrite splice_same. }
  cbn [mbind outcome_bind]. destruct cf; [|done].
  rewrite memread_ok by (rewrite ?zlen_splice; lia).
  cbn [mbind outcome_bind]. rewrite <-Hl, splice_slice, CRC.CheckSum_full by lia. done.
Qed.

Section put.
Context (write : bytes → outcome bytes) (whole : outcome bytes) (p b : bytes) (nc cf : bool) (cr : option K).
Context (buf : bytes) (off space : Z).
Context (Hp : Forall is_byte p) (Hs : seal nc cr p = Some b).
Context (Hoff : 0 ≤ off) (Hlen : off + space ≤ zlen buf) (Hint : space < 2^31).

Lemma put_message_fits : CORPC_MESSAGE_HEAD_SIZE + zlen p ≤ space →
  (p ≠ [] → write buf = Ok (splice buf (off + CORPC_MESSAGE_HEAD_SIZE) p)) →
  put_message object write whole (zlen p) nc cf cr buf off space [] 0
  = Ok (splice buf (off + CORPC_MESSAGE_HEAD_SIZE) b, CORPC_MESSAGE_HEAD_SIZE + zlen b, [], 0, checksum cf b).
Proof using All.
  intros Hfit Hw. unfold CORPC_MESSAGE_HEAD_SIZE in *. unfold put_message, CORPC_MESSAGE_HEAD_SIZE.
  pose proof (seal_props _ _ _ _ Hs Hp) as [Hbl Hbb]. pose proof (zlen_nonneg p).
  rewrite u32_small, bool_decide_true by lia.
  assert ((if bool_decide (zlen p > 0) then write buf else Ok buf) = Ok (splice buf (off + 22) p)) as ->.
  { case_bool_decide as Hz; [apply Hw; intros ->; unfold zlen in Hz; simpl in Hz; lia|].
    assert (zlen p = 0) as ->%zlen_0_inv by lia. by rewrite splice_nil by lia. }
  cbn [mbind outcome_bind].
  assert (slice (off + 22) (zlen p) (splice buf (off + 22) p) = p) as Hsl by (apply splice_slice; lia).
  rewrite (seal_at_ok nc cf cr _ (off + 22) (zlen p) _ b);
    [|lia|lia|rewrite zlen_splice; lia|by rewrite Hsl| |by rewrite Hsl].
  - cbn [mbind outcome_bind]. rewrite splice_splice by lia. rewrite Hbl, i32_small by lia. done.
  - intros Hz%bool_decide_eq_false. lia.
Qed.

Lemma put_message_split : CORPC_MESSAGE_HEAD_SIZE ≤ space < CORPC_MESSAGE_HEAD_SIZE + zlen p →
  zlen p < 2^31 → whole = Ok p →
  put_message object write whole (zlen p) nc cf cr buf off space [] 0
  = Ok (splice buf (off + CORPC_MESSAGE_HEAD_SIZE) (ztake (space - CORPC_MESSAGE_HEAD_SIZE) b), space, b,
        space - CORPC_MESSAGE_HEAD_SIZE, checksum cf b).
Proof using All.
  intros Hcut Hpl ->. unfold CORPC_MESSAGE_HEAD_SIZE in *. unfold put_message, CORPC_MESSAGE_HEAD_SIZE.
  pose proof (seal_props _ _ _ _ Hs Hp) as [Hbl Hbb].
  rewrite u32_small, bool_decide_false by lia. cbn [mbind outcome_bind].
  rewrite (seal_at_ok nc cf cr p 0 (zlen p) true b);
    [|lia|lia|lia|by rewrite slice_all|done|by rewrite slice_all].
  assert (splice p 0 b = b) as ->.
  { unfold splice. by rewrite ztake_0, zdrop_ge, app_nil_r by lia. }
  cbn [mbind outcome_bind]. case_bool_decide.
  - rewrite memcpy_ok by lia. cbn [mbind outcome_bind].
    assert (zlen (slice 0 (space - 22) b) = space - 22) as Hsb by (apply zlen_slice; lia).
    unfold splice. unfold slice in *. rewrite !zdrop_0 in * by lia. rewrite Hsb. done.
  - replace (space - 22) with 0 by lia. rewrite (ztake_0 b), splice_nil by lia. done.
Qed.
End put.

Lemma put_payload_ok info cf cr b buf off space : sendable info →
  seal (needCrypt info) cr (plain info) = Some b →
  0 ≤ off → off + space ≤ zlen buf → CORPC_MESSAGE_HEAD_SIZE ≤ space < 2^31 →
  put_payload object info cf cr buf off space [] 0
  = Ok (if bool_decide (CORPC_MESSAGE_HEAD_SIZE + zlen b ≤ space)
        then (splice buf (off + CORPC_MESSAGE_HEAD_SIZE) b, CORPC_MESSAGE_HEAD_SIZE + zlen b, [], 0, checksum cf b, zlen b)
        else (splice buf (off + CORPC_MESSAGE_HEAD_SIZE) (ztake (space - CORPC_MESSAGE_HEAD_SIZE) b), space, b,
              space - CORPC_MESSAGE_HEAD_SIZE, checksum cf b, zlen b)).
Proof.
  intros Hsend Hs Hoff Hlen Hsp. pose proof (plain_props info Hsend) as [Hp Hpl].
  pose proof (seal_props _ _ _ _ Hs Hp) as [Hbl Hbb]. pose proof (zlen_nonneg (plain info)).
  assert (∀ write whole, (plain info ≠ [] → CORPC_MESSAGE_HEAD_SIZE + zlen (plain info) ≤ space →
      write buf = Ok (splice buf (off + CORPC_MESSAGE_HEAD_SIZE) (plain info))) →
    (plain info ≠ [] → whole = Ok (plain info)) →
    ('(buf, size, dbuf, dsent, crc) ← put_message object write whole (zlen (plain info)) (needCrypt info) cf cr buf off space [] 0;
     Ok (buf, size, dbuf, dsent, crc, zlen (plain info)))
    = Ok (if bool_decide (CORPC_MESSAGE_HEAD_SIZE + zlen b ≤ space)
        then (splice buf (off + CORPC_MESSAGE_HEAD_SIZE) b, CORPC_MESSAGE_HEAD_SIZE + zlen b, [], 0, checksum cf b, zlen b)
        else (splice buf (off + CORPC_MESSAGE_HEAD_SIZE) (ztake (space - CORPC_MESSAGE_HEAD_SIZE) b), space, b,
              space - CORPC_MESSAGE_HEAD_SIZE, checksum cf b, zlen b))) as Hput.
  { intros write whole Hw Hwh. case_bool_decide as Hfit.
    - rewrite (put_message_fits _ _ _ b) by (auto with lia || lia). cbn [mbind outcome_bind]. by rewrite Hbl.
    - rewrite (put_message_split _ _ _ b); [cbn [mbind outcome_bind]; by rewrite Hbl|done|done|lia|lia|lia|lia|lia|].
      apply Hwh. intros E. rewrite E in *. unfold zlen in *. simpl in *. lia. }
  assert (∀ s : bytes, s = plain info → CORPC_MESSAGE_HEAD_SIZE + zlen s ≤ space →
    memcpy buf (off + CORPC_MESSAGE_HEAD_SIZE) s 0 (zlen s) = Ok (splice buf (off + CORPC_MESSAGE_HEAD_SIZE) s)) as Hcpy.
  { intros s _ Hfit. unfold CORPC_MESSAGE_HEAD_SIZE in *. pose proof (zlen_nonneg s). rewrite memcpy_ok by lia.
    by rewrite slice_all. }
  unfold put_payload. unfold sendable in Hsend. unfold plain in Hput, Hcpy, Hpl, Hp.
  destruct (msg info) as [[s|m]|] eqn:Em; cbn [as_string as_message mbind outcome_bind deref].
  - destruct Hsend as (-> & Hb & Hl). pose proof (zlen_nonneg s). rewrite (u32_small (zlen s)) by lia.
    apply Hput; auto.
  - rewrite Hsend. cbn [as_string as_message mbind outcome_bind deref].
    rewrite message_size_ok, u32_small by (pose proof (zlen_nonneg (Serialize m)); lia).
    pose proof (zlen_nonneg (Serialize m)).
    apply Hput; [auto|]. intros _. rewrite memcpy_front by (rewrite ?zlen_zeros; lia).
    by rewrite slice_all, zdrop_ge, app_nil_r by (rewrite zlen_zeros; lia).
  - rewrite Hsend. cbn [as_string as_message mbind outcome_bind deref]. apply Hput; done.
Qed.

Lemma put_head_ok c info b buf off : 0 ≤ off → off + CORPC_MESSAGE_HEAD_SIZE ≤ zlen buf →
  put_head e c info (zlen b) (checksum (enableSendCRC_ (terminal_ c)) b) buf off
  = Ok (splice buf off (head_of c info b)).
Proof.
  intros Hoff Hlen. unfold CORPC_MESSAGE_HEAD_SIZE in *. unfold put_head, head_of, message_head.
  assert (∀ n v, 0 ≤ n → zlen (be_bytes n v) = n) as L by apply be_bytes_length.
  rewrite put_be32_first by lia. cbn [mbind outcome_bind].
  rewrite put_be32_next by (rewrite ?zlen_app, ?L; lia). cbn [mbind outcome_bind].
  rewrite put_be16_next by (rewrite ?zlen_app, ?L; lia). cbn [mbind outcome_bind].
  rewrite put_be16_next by (rewrite ?zlen_app, ?L; lia). cbn [mbind outcome_bind].
  rewrite put_be32_next by (rewrite ?zlen_app, ?L; lia). cbn [mbind outcome_bind].
  rewrite put_be32_next by (rewrite ?zlen_app, ?L; lia). cbn [mbind outcome_bind].
  rewrite put_be16_next by (rewrite ?zlen_app, ?L; lia). by rewrite <-!app_assoc.
Qed.

Lemma message_frame_Some c info f : message_frame c info = Some f →
  ∃ b, seal (needCrypt info) (crypter_ c) (plain info) = Some b ∧ f = head_of c info b ++ b.
Proof.
  unfold message_frame. destruct (seal _ _ _) as [b|]; [|done]. intros <-%(inj Some). by exists b.
Qed.

(** Encoding a message whose frame is [f] into [space] bytes. *)
Lemma terminal_encode_ok c info f buf off space : sendable info → message_frame c info = Some f →
  0 ≤ off → off + space ≤ zlen buf → CORPC_MESSAGE_HEAD_SIZE ≤ space < 2^31 →
  encode object e c info buf off space [] 0
  = Ok (true, if bool_decide (zlen f ≤ space) then (c, splice buf off f, zlen f, [], 0)
        else (c, splice buf off (ztake space f), space, zdrop CORPC_MESSAGE_HEAD_SIZE f, space - CORPC_MESSAGE_HEAD_SIZE)).
Proof.
  intros Hsend Hf Hoff Hlen Hsp. apply message_frame_Some in Hf as (b & Hs & ->).
  pose proof (zlen_message_head (zlen b) (u32 (type info)) (tag info) (if needCrypt info then CORPC_MESSAGE_FLAG_CRYPT else 0)
    (recvSerial_ c) (serial info) (checksum (enableSendCRC_ (terminal_ c)) b)) as Hh.
  fold (head_of c info b) in Hh. pose proof (zlen_nonneg b).
  unfold encode. rewrite bool_decide_false by lia.
  assert (needCrypt info && bool_decide (crypter_ c = None) = false) as ->.
  { unfold seal in Hs. destruct (needCrypt info); [|done]. by destruct (crypter_ c). }
  rewrite (put_payload_ok info _ _ b) by (done || lia). rewrite zlen_app, Hh. cbn [mbind outcome_bind].
  case_bool_decide as Hfit; cbn [mbind outcome_bind];
    rewrite put_head_ok by (rewrite ?zlen_splice by (rewrite ?zlen_ztake; unfold CORPC_MESSAGE_HEAD_SIZE in *; lia); lia);
    cbn [mbind outcome_bind]; do 2 f_equal.
  - by rewrite splice_behind by lia.
  - rewrite splice_behind by (rewrite ?zlen_ztake; unfold CORPC_MESSAGE_HEAD_SIZE in *; lia).
    rewrite ztake_app, (ztake_ge space), Hh by lia.
    assert (zdrop CORPC_MESSAGE_HEAD_SIZE (head_of c info b ++ b) = b) as -> by (rewrite <-Hh; apply zdrop_app_exact).
    done.
Qed.

(** The data of a terminal connection. *)
Definition message : Type := { info : SendMessageInfo (content M) | sendable info }.
Definition encode_message c (d : message) := encode object e c (`d).

#[global] Program Instance encoder : Encoder CORPC_MESSAGE_HEAD_SIZE encode_message := {|
  frame c d := message_frame c (`d);
|}.
Next Obligation.
  intros c d f (b & _ & ->)%message_frame_Some. unfold head_of. rewrite zlen_app, zlen_message_head.
  pose proof (zlen_nonneg b). lia.
Qed.
Next Obligation.
  intros c d buf off space dbuf dsent Hs. unfold encode_message, encode. by rewrite bool_decide_true by lia.
Qed.
Next Obligation.
  intros c [info Hd] buf off space dbuf dsent Hs Hf Hoff Hlen. unfold encode_message, encode. simpl in *.
  rewrite bool_decide_false by lia. unfold message_frame, seal in Hf.
  destruct (needCrypt info); [|done]. destruct (crypter_ c); [done|]. simpl. eauto.
Qed.
Next Obligation.
  intros c [info Hd] f buf off space Hf Hl Hoff Hsp. exists c. split; [|done]. unfold encode_message. simpl in *.
  rewrite (terminal_encode_ok c info f); [by rewrite bool_decide_true by lia|done..|].
  apply message_frame_Some in Hf as (b & _ & ->). unfold head_of in *. rewrite zlen_app, zlen_message_head in *.
  pose proof (zlen_nonneg b). lia.
Qed.
Next Obligation.
  intros c [info Hd] f buf off space Hf Hl Hoff Hsp. exists c. split; [|done]. unfold encode_message. simpl in *.
  rewrite (terminal_encode_ok c info f); [by rewrite bool_decide_false by lia|done..|lia].
Qed.

(** [decode] reads the head and the first [size] bytes of the body only. *)
Lemma decode_crc_prefix c head body size : 0 ≤ size ≤ zlen body →
  decode_crc e c head body size = decode_crc e c head (ztake size body) size.
Proof.
  intros. unfold decode_crc. destruct (enableRecvCRC_ _); [|done].
  rewrite (memread_front body), (memread_front (ztake size body)), ztake_ztake, Z.min_id by zlen. done.
Qed.

Lemma decode_message_prefix c body size msgType tag req : 0 ≤ size ≤ zlen body →
  decode_message c body size msgType tag req = decode_message c (ztake size body) size msgType tag req.
Proof.
  intros. unfold decode_message.
  rewrite (memread_front body), (memread_front (ztake size body)), ztake_ztake, Z.min_id by zlen. done.
Qed.

Lemma decode_system_body now c head body msgType :
  decode_system e now c head body msgType
  = ('(c', t) ← ('(c', _, t) ← decode_system e now c head [] msgType; Ok (c', t)); Ok (c', body, t)).
Proof.
  unfold decode_system. repeat case_bool_decide; simpl; try done.
  - destruct (enableSerial_ _); [|done]. by destruct (get_be32 e head 12).
  - destruct (get_be32 e head 16); [|done]. simpl. by case_bool_decide.
Qed.

Lemma decrypt_prefix k body size : Forall is_byte body → 0 ≤ size ≤ zlen body →
  decrypt (object k) (ztake size body) 0 0 size = Ok (opened (object k) (ztake size body)) ∧
  ∃ body', decrypt (object k) body 0 0 size = Ok body' ∧ zlen body' = zlen body ∧ Forall is_byte body' ∧
    ztake size body' = opened (object k) (ztake size body).
Proof.
  intros Hb Hs. assert (Forall is_byte (ztake size body)) as Ht by (by apply Forall_take).
  assert (zlen (ztake size body) = size) as Hz by zlen.
  assert (slice 0 size (ztake size body) = ztake size body) as Hs1 by (rewrite <-Hz at 1; apply slice_all).
  assert (slice 0 size body = ztake size body) as Hs2 by (unfold slice; by rewrite zdrop_0).
  assert (zlen (opened (object k) (ztake size body)) = size) as Ho by (by rewrite opened_length).
  split.
  - rewrite decrypt_inplace by (rewrite ?Hs1; done || lia). rewrite Hs1. unfold splice.
    by rewrite ztake_0, zdrop_ge, app_nil_r by lia.
  - eexists. split; [apply decrypt_inplace; [lia|lia|lia|by rewrite Hs2]|]. rewrite Hs2.
    split_and!; [by apply zlen_splice; lia|apply splice_Forall; [done|by apply opened_bytes]|].
    unfold splice. rewrite (ztake_0 body 0) by lia. simpl. rewrite <-Ho at 1. apply ztake_app_exact.
Qed.

#[global] Program Instance decoder now : Decoder CORPC_MESSAGE_HEAD_SIZE
    (decode (M:=M) (Proto:=Proto) (Handle:=Handle) object e now) := {|
  is_error c := decodeError_ c;
  decode_frame := frame_of (decode object e now);
|}.
Next Obligation.
  intros now c head body size Hl Hh Hb Hs. unfold frame_of.
  assert (zlen (ztake size body) = size) as -> by zlen.
  unfold CORPC_MESSAGE_HEAD_SIZE in Hl. unfold decode.
  rewrite !get_be32_ok, !get_be16_ok by (done || lia). cbn [mbind outcome_bind].
  case_bool_decide.
  { rewrite (decode_system_body _ _ _ body), (decode_system_body _ _ _ (ztake size body)).
    destruct (decode_system e now c head [] _) as [[[c' b'] t]|f]; simpl; eauto. }
  destruct (decode_serial e c head) as [[c1 [req|]]|f]; cbn [mbind outcome_bind]; [|eauto|done].
  rewrite (decode_crc_prefix c1 head body) by done. destruct (decode_crc e c1 head _ size) as [[|]|f];
    cbn [mbind outcome_bind negb]; [|eauto|done].
  destruct (negb (bool_decide (Z.land _ _ = 0))); cbn [andb]; cycle 1.
  { cbn [mbind outcome_bind]. rewrite (decode_message_prefix c1 body) by done.
    destruct (decode_message c1 (ztake size body) size _ _ _) as [[c' t]|f]; simpl; eauto. }
  destruct (crypter_ c1) as [k|]; simpl; [|eauto].
  destruct (decrypt_prefix k body size Hb Hs) as (-> & body' & -> & Hl' & Hb' & Ht). simpl.
  rewrite (decode_message_prefix c1 body') by lia. rewrite Ht.
  destruct (decode_message c1 _ size _ _ _) as [[c' t]|f]; simpl; eauto.
Qed.
End laws.
End MessageTerminal.
