(* ===== verification/Messaging.v ===== *)
(** * Messages from terminal to terminal

    What [MessageTerminal::encode] writes on one connection is what
    [MessageTerminal::decode] reads on the other, frame by frame and as a
    stream through the receiving pipeline; damaged frames are refused. *)
From stdpp Require Import gmap sorting.
From S2P Require Import Prelude Define Crc Crypter MessageBuffer Pipeline Sending RpcWire Terminal.
Import MessageTerminal.
Open Scope Z_scope.

Section messaging.
Context {M Proto Handle K : Type} `{MessageLaws M Proto}.
Context (object : K → Crypter) `{!∀ k, CrypterLaws (object k)}.
Implicit Types (cs cr c : Connection M Proto Handle K) (info : SendMessageInfo (content M)).

(** ** One frame *)

(** The fields of a message of the application have the widths of the code. *)
Definition info_wf info : Prop :=
  sendable info ∧ 0 ≤ type info < 2^31 ∧ is_u16 (tag info) ∧ is_u32 (serial info).

(** The two ends are set up for each other: what the receiver checks the
    sender provides, and the keys match. *)
Record linked cs cr : Prop := {
  linked_crc : enableRecvCRC_ (terminal_ cr) = true → enableSendCRC_ (terminal_ cs) = true;
  linked_keys k : crypter_ cs = Some k → ∃ k', crypter_ cr = Some k' ∧
    ∀ l, Forall is_byte l → opened (object k') (sealed (object k) l) = l;
  linked_serial : is_u32 (recvSerial_ cs);
  linked_alive : decodeError_ cr = false;
}.

(** The receiver can take the message: a handler is registered for its type,
    and unless the type is banned the content is a message of the registered
    prototype (no content where no prototype was given); or there is a handler
    for other messages. *)
Definition accepts cr info : Prop :=
  match registerMessageMap_ (terminal_ cr) !! type info with
  | None => is_Some (otherMessageHandle_ (terminal_ cr))
  | Some ri =>
    banned ri = true ∨
    match proto ri with
    | None => plain info = []
    | Some p => match msg info with
                | Some (Protobuf m) => proto_of m = p
                | _ => is_Some (ParseFromArray p (plain info))
                end
    end
  end.

(** The task the worker of the receiver gets; [req] is the last serial the
    sender had received. *)
Definition delivers cr info (req : Z) (task : MessageWorkerTask.t M) : Prop :=
  MessageWorkerTask.type task = type info ∧
  MessageWorkerTask.tag task = Some (tag info) ∧
  MessageWorkerTask.reqSerial task = Some (if enableSerial_ (terminal_ cr) then req else 0) ∧
  match registerMessageMap_ (terminal_ cr) !! type info with
  | None => MessageWorkerTask.banned task = Some false ∧
            MessageWorkerTask.msg task = Some (RawString (plain info))
  | Some ri =>
    MessageWorkerTask.banned task = Some (banned ri) ∧
    (if banned ri then MessageWorkerTask.msg task = None else
     match proto ri with
     | None => MessageWorkerTask.msg task = None
     | Some p => ∃ m', MessageWorkerTask.msg task = Some (Protobuf m') ∧
                   ParseFromArray p (plain info) = Some m' ∧
                   ∀ m, msg info = Some (Protobuf m) → m' ≡ m
     end)
  end.

(** The connection after the frame. *)
Definition advanced cr : Connection M Proto Handle K :=
  if enableSerial_ (terminal_ cr) then setRecvSerial (u32 (recvSerial_ cr + 1)) cr else cr.

Lemma advanced_keeps cr : terminal_ (advanced cr) = terminal_ cr ∧ crypter_ (advanced cr) = crypter_ cr ∧
  decodeError_ (advanced cr) = decodeError_ cr.
Proof. unfold advanced. by destruct (enableSerial_ _). Qed.

Lemma decode_message_ok cr info req : accepts cr info →
  ∃ task, decode_message cr (plain info) (zlen (plain info)) (type info) (tag info)
            (if enableSerial_ (terminal_ cr) then req else 0) = Ok (cr, Some task) ∧ delivers cr info req task.
Proof.
  unfold accepts, decode_message, delivers. intros Hacc.
  destruct (registerMessageMap_ (terminal_ cr) !! type info) as [ri|]; cycle 1.
  { destruct Hacc as [h ->]. rewrite memread_front, ztake_ge by (pose proof (zlen_nonneg (plain info)); lia).
    simpl. eauto 10. }
  destruct (banned ri) eqn:Eb; simpl; [eauto 10|]. destruct Hacc as [|Hacc]; [done|].
  destruct (proto ri) as [p|]; cycle 1.
  { rewrite Hacc. rewrite require_true by done. simpl. eauto 10. }
  rewrite memread_front, ztake_ge by (pose proof (zlen_nonneg (plain info)); lia). simpl.
  assert (∃ m', ParseFromArray p (plain info) = Some m' ∧ ∀ m, msg info = Some (Protobuf m) → m' ≡ m)
    as (m' & -> & Hm').
  { unfold plain in *. destruct (msg info) as [[s|m]|].
    - destruct Hacc as [m' ->]. by exists m'.
    - subst p. destruct (parse_serialize m) as (m' & -> & Heq & _). exists m'. split; [done|]. by intros ? [= <-].
    - destruct Hacc as [m' ->]. by exists m'. }
  simpl. eexists. split; [done|]. simpl. eauto 10.
Qed.

(** The head of a frame with the body [b], whatever acknowledges [req] and
    checksum [crc] it carries. *)
Definition head_with info (b : bytes) (req crc : Z) : bytes :=
  message_head (zlen b) (u32 (type info)) (tag info) (if needCrypt info then CORPC_MESSAGE_FLAG_CRYPT else 0)
    req (serial info) crc.

Section head.
Context (er : endian) (info : SendMessageInfo (content M)) (b : bytes) (req crc : Z).
Context (Hinfo : info_wf info) (Hreq : is_u32 req) (Hcrc : is_u16 crc) (Hlen : zlen b < 2^31).

Lemma head_with_fields :
  let h := head_with info b req crc in
  get_be32 er h 4 = Ok (u32 (type info)) ∧ get_be16 er h 8 = Ok (tag info) ∧
  get_be16 er h 10 = Ok (if needCrypt info then CORPC_MESSAGE_FLAG_CRYPT else 0) ∧
  get_be32 er h 12 = Ok req ∧ get_be32 er h 16 = Ok (serial info) ∧ get_be16 er h 20 = Ok crc.
Proof using Hinfo Hreq Hcrc Hlen.
  destruct Hinfo as (_ & Ht & Htag & Hser). unfold head_with. apply message_fields; [|apply u32_range|exact Htag| |exact Hreq|exact Hser|exact Hcrc].
  - pose proof (zlen_nonneg b). unfold is_u32. lia.
  - by destruct (needCrypt info).
Qed.

Lemma decode_by_head now cr body size :
  decode object er now cr (head_with info b req crc) body size =
    ('(c, r) ← decode_serial er cr (head_with info b req crc);
     match r with
     | None => Ok (c, body, None)
     | Some r =>
       crc_ok ← decode_crc er c (head_with info b req crc) body size;
       if negb crc_ok then Ok (setDecodeError c, body, None) else
       if needCrypt info && bool_decide (crypter_ c = None) then Ok (setDecodeError c, body, None) else
       body ← (if needCrypt info then k ← deref (crypter_ c); decrypt (object k) body 0 0 size else Ok body);
       '(c, task) ← decode_message c body size (type info) (tag info) r;
       Ok (c, body, task)
     end).
Proof using Hinfo Hreq Hcrc Hlen.
  destruct head_with_fields as (E1 & E2 & E3 & _). destruct Hinfo as (_ & Ht & _).
  unfold decode. rewrite E1, E2, E3. cbn [mbind outcome_bind].
  rewrite i32_u32, i32_small, bool_decide_false by lia. by destruct (needCrypt info).
Qed.

Lemma decode_serial_ok cr :
  decode_serial er cr (head_with info b req crc) =
    if enableSerial_ (terminal_ cr) then
      if bool_decide (u32 (recvSerial_ cr + 1) ≠ serial info) then Ok (setDecodeError (advanced cr), None)
      else Ok (advanced cr, Some req)
    else Ok (cr, Some 0).
Proof using Hinfo Hreq Hcrc Hlen.
  destruct head_with_fields as (_ & _ & _ & E4 & E5 & _). unfold decode_serial, advanced.
  destruct (enableSerial_ _); [|done]. rewrite E5. cbn [mbind outcome_bind]. simpl.
  case_bool_decide; [done|]. by rewrite E4.
Qed.

Lemma decode_crc_ok cr b' :
  decode_crc er cr (head_with info b req crc) b' (zlen b') =
    Ok (if enableRecvCRC_ (terminal_ cr) then bool_decide (crc = foldl CRC.crc_step 0xFFFF b') else true).
Proof using Hinfo Hreq Hcrc Hlen.
  destruct head_with_fields as (_ & _ & _ & _ & _ & E6). unfold decode_crc.
  destruct (enableRecvCRC_ _); [|done]. rewrite E6. cbn [mbind outcome_bind].
  rewrite memread_front, ztake_ge by (pose proof (zlen_nonneg b'); lia). cbn [mbind outcome_bind].
  by rewrite CRC.CheckSum_full.
Qed.
End head.

(** The key of the sender and that of the receiver belong together. *)
Definition keys_match (ks kr : option K) : Prop :=
  ∀ k, ks = Some k → ∃ k', kr = Some k' ∧ ∀ l, Forall is_byte l → opened (object k') (sealed (object k) l) = l.

(** A frame that arrives as it was sent, from whatever program. *)
Lemma decode_arrived er now cr info ks b req crc : info_wf info → keys_match ks (crypter_ cr) → accepts cr info →
  is_u32 req → is_u16 crc → (enableRecvCRC_ (terminal_ cr) = true → crc = foldl CRC.crc_step 0xFFFF b) →
  (enableSerial_ (terminal_ cr) = true → serial info = u32 (recvSerial_ cr + 1)) →
  seal object (needCrypt info) ks (plain info) = Some b →
  ∃ body' task, decode object er now cr (head_with info b req crc) b (zlen b) = Ok (advanced cr, body', Some task) ∧
    delivers cr info req task.
Proof.
  intros Hinfo Hkeys Hacc Hreq Hu16 Hcrc Hser Hs.
  destruct (plain_props info ltac:(apply Hinfo)) as [Hp Hpl].
  destruct (seal_props object _ _ _ _ Hs Hp) as [Hbl Hbb].
  destruct (advanced_keeps cr) as (Et & Ek & _).
  rewrite decode_by_head by (done || lia).
  assert (decode_serial er cr (head_with info b req crc) = Ok (advanced cr, Some (if enableSerial_ (terminal_ cr) then req else 0))) as ->.
  { rewrite decode_serial_ok by (done || lia). unfold advanced. destruct (enableSerial_ (terminal_ cr)); [|done].
    rewrite bool_decide_false; [done|]. intros E. apply E. by rewrite Hser. }
  cbn [mbind outcome_bind]. rewrite decode_crc_ok by (done || lia). cbn [mbind outcome_bind]. rewrite Et, Ek.
  assert ((if enableRecvCRC_ (terminal_ cr) then bool_decide (crc = foldl CRC.crc_step 0xFFFF b) else true) = true) as ->.
  { destruct (enableRecvCRC_ _); [|done]. rewrite Hcrc by done. by apply bool_decide_true. }
  cbn [negb].
  assert (∃ body', (if needCrypt info then k ← deref (crypter_ cr); decrypt (object k) b 0 0 (zlen b) else Ok b) = Ok body'
    ∧ body' = plain info ∧ needCrypt info && bool_decide (crypter_ cr = None) = false) as (body' & -> & -> & ->).
  { unfold seal in Hs. destruct (needCrypt info); [|apply (inj Some) in Hs as <-; eauto].
    destruct ks as [k|]; [|done]. apply (inj Some) in Hs as <-.
    destruct (Hkeys k eq_refl) as (k' & -> & Hop). simpl.
    destruct (decrypt_prefix object k' (sealed (object k) (plain info)) (zlen (sealed (object k) (plain info))) Hbb)
      as [Hd _]; [pose proof (zlen_nonneg (sealed (object k) (plain info))); lia|].
    rewrite ztake_ge in Hd by lia. rewrite Hd. eexists. split; [done|]. by rewrite Hop. }
  cbn [mbind outcome_bind]. rewrite Hbl.
  destruct (decode_message_ok (advanced cr) info req) as (task & Hd & Hdel).
  { unfold accepts. by rewrite Et. }
  rewrite Et in Hd. rewrite Hd. cbn [mbind outcome_bind]. eexists _, task. split; [done|].
  unfold delivers in *. by rewrite Et in Hdel.
Qed.

Lemma checksum_u16 cf b : Forall is_byte b → is_u16 (checksum cf b).
Proof. intros Hb. unfold checksum. destruct cf; [|done]. by apply CRC.crc_fold_u16. Qed.

Lemma decode_sent er now cs cr info b : info_wf info → linked cs cr → accepts cr info →
  (enableSerial_ (terminal_ cr) = true → serial info = u32 (recvSerial_ cr + 1)) →
  seal object (needCrypt info) (crypter_ cs) (plain info) = Some b →
  ∃ body' task, decode object er now cr (head_of cs info b) b (zlen b) = Ok (advanced cr, body', Some task) ∧
    delivers cr info (recvSerial_ cs) task.
Proof.
  intros Hinfo [Hcrc Hkeys Hreq _] Hacc Hser Hs.
  destruct (plain_props info ltac:(apply Hinfo)) as [Hp Hpl].
  destruct (seal_props object _ _ _ _ Hs Hp) as [Hbl Hbb].
  apply (decode_arrived er now cr info (crypter_ cs) b); try done; [by apply checksum_u16|].
  intros Hc. unfold checksum. by rewrite Hcrc.
Qed.


(** ** A stream of frames *)

Abbreviation terminal_run er now := (Frames.run CORPC_MESSAGE_HEAD_SIZE CORPC_MAX_MESSAGE_SIZE
  (TcpPipeline.field 0 FOUR_BYTES) (decode object er now)).

Definition advance (n : nat) cr : Connection M Proto Handle K := Nat.iter n advanced cr.

Lemma advance_keeps n cr : terminal_ (advance n cr) = terminal_ cr ∧ crypter_ (advance n cr) = crypter_ cr ∧
  decodeError_ (advance n cr) = decodeError_ cr.
Proof.
  induction n as [|n IH]; [done|]. change (advance (S n) cr) with (advanced (advance n cr)).
  destruct (advanced_keeps (advance n cr)) as (-> & -> & ->). done.
Qed.

(** What is on its way: for each frame the state of the sender when it was
    encoded and the message. *)
Abbreviation sending := (Connection M Proto Handle K * SendMessageInfo (content M))%type.
Definition on_the_way cr (x : sending) (f : bytes) : Prop :=
  info_wf x.2 ∧ linked x.1 cr ∧ accepts cr x.2 ∧ zlen (plain x.2) ≤ CORPC_MAX_MESSAGE_SIZE ∧
  message_frame object x.1 x.2 = Some f.
(** The serials continue those the receiver has seen. *)
Definition consecutive cr (xs : list sending) : Prop :=
  enableSerial_ (terminal_ cr) = true →
  ∀ i x, xs !! i = Some x → serial x.2 = u32 (recvSerial_ cr + Z.of_nat i + 1).

(** Nothing of this depends on the serial the receiver has reached. *)
Definition same_checks cr cr' : Prop :=
  terminal_ cr' = terminal_ cr ∧ crypter_ cr' = crypter_ cr ∧ decodeError_ cr' = decodeError_ cr.

Lemma on_the_way_same cr cr' x f : same_checks cr cr' → on_the_way cr x f → on_the_way cr' x f.
Proof.
  intros (Et & Ek & Ed) (? & [? ? ? ?] & Ha & ? & ?).
  split_and!; try done; [constructor; by rewrite ?Et, ?Ek, ?Ed|]. unfold accepts. by rewrite Et.
Qed.
Lemma delivers_same cr cr' info req task : same_checks cr cr' → delivers cr' info req task → delivers cr info req task.
Proof. intros (Et & _ & _). unfold delivers. by rewrite Et. Qed.

Lemma consecutive_tail cr x xs : consecutive cr (x :: xs) → consecutive (advanced cr) xs.
Proof.
  unfold consecutive. intros Hc. unfold advanced. destruct (enableSerial_ (terminal_ cr)) eqn:E; [|congruence].
  simpl. intros _ i y Hy. rewrite (Hc eq_refl (S i) y Hy). unfold u32.
  rewrite <-(Z.add_assoc ((recvSerial_ cr + 1) `mod` 2^32)), Zplus_mod_idemp_l. f_equal. lia.
Qed.

Lemma message_head_field (size type tag flag req serial crc : Z) : is_u32 size →
  TcpPipeline.field 0 FOUR_BYTES (message_head size type tag flag req serial crc) = size.
Proof.
  intros. unfold TcpPipeline.field, TcpPipeline.size_width, message_head.
  rewrite slice_front by (by apply be_bytes_length). rewrite be_val_bytes by lia. by apply Z.mod_small.
Qed.

Lemma message_frame_bytes cs info f : sendable info → message_frame object cs info = Some f → Forall is_byte f.
Proof.
  intros Hs (b & Hb & ->)%message_frame_Some. apply Forall_app. split; [apply message_head_bytes|].
  eapply seal_props; [done|exact Hb|]. by apply plain_props.
Qed.

(** One frame at the front of the stream. *)
Lemma run_one er now cr x f rest : on_the_way cr x f → Forall is_byte rest →
  (enableSerial_ (terminal_ cr) = true → serial x.2 = u32 (recvSerial_ cr + 1)) →
  ∃ task, terminal_run er now cr (f ++ rest) = Frames.push [task] (terminal_run er now (advanced cr) rest) ∧
    delivers cr x.2 (recvSerial_ x.1) task.
Proof.
  intros (Hinfo & Hlink & Hacc & Hmax & Hf) Hrest Hser. pose proof Hf as (b & Hb & ->)%message_frame_Some.
  destruct (plain_props x.2 ltac:(apply Hinfo)) as [Hp Hpl].
  destruct (seal_props object _ _ _ _ Hb Hp) as [Hbl Hbb].
  destruct (decode_sent er now x.1 cr x.2 b) as (body' & task & Hd & Hdel); [done..|].
  destruct (advanced_keeps cr) as (_ & _ & Ed).
  exists task. split; [|done]. rewrite <-app_assoc.
  rewrite Frames.run_frame with (c' := advanced cr) (t := Some task); [done|done|..].
  - apply TcpPipeline.field_nonneg.
  - apply zlen_message_head.
  - apply message_head_field. pose proof (zlen_nonneg b). unfold is_u32. lia.
  - lia.
  - rewrite app_assoc. apply Forall_app. split; [|done]. eapply message_frame_bytes; [apply Hinfo|done].
  - unfold decode_frame. simpl. unfold frame_of. by rewrite Hd.
  - simpl. rewrite Ed. apply Hlink.
Qed.

Lemma on_the_way_bytes cr xs fs : Forall2 (on_the_way cr) xs fs → Forall is_byte (concat fs).
Proof.
  intros Hall. apply Forall_concat. induction Hall as [|y g ys gs (Hy & _ & _ & _ & Hg) _ IH]; constructor; [|done].
  eapply message_frame_bytes; [apply Hy|done].
Qed.

Lemma run_messages er now cr xs fs : Forall2 (on_the_way cr) xs fs → consecutive cr xs →
  ∃ ts, terminal_run er now cr (concat fs) = Frames.Waiting (advance (length xs) cr) ts [] ∧
    Forall2 (λ x t, delivers cr x.2 (recvSerial_ x.1) t) xs ts.
Proof.
  revert fs cr. induction xs as [|x xs IH]; intros fs cr Hall Hcons.
  { apply Forall2_nil_inv_l in Hall as ->. exists []. done. }
  apply Forall2_cons_inv_l in Hall as (f & fs' & Hx & Hxs & ->).
  pose proof (advanced_keeps cr : same_checks cr (advanced cr)) as Hsame.
  destruct (IH fs' (advanced cr)) as (ts & Hrun & Hts).
  { eapply Forall2_impl; [exact Hxs|]. intros. by eapply on_the_way_same. }
  { by eapply consecutive_tail. }
  destruct (run_one er now cr x f (concat fs')) as (task & Hone & Hdel); [done|by eapply on_the_way_bytes| |].
  { intros Hs. rewrite (Hcons Hs 0%nat x) by done. f_equal. lia. }
  exists (task :: ts). cbn [concat]. rewrite Hone, Hrun. split.
  - simpl. f_equal. change (length (x :: xs)) with (S (length xs)). unfold advance. by rewrite <-Nat.iter_succ_r.
  - constructor; [done|]. eapply Forall2_impl; [exact Hts|]. intros. by eapply delivers_same.
Qed.

Lemma terminal_config : TcpPipeline.config_ok CORPC_MESSAGE_HEAD_SIZE CORPC_MAX_MESSAGE_SIZE 0 FOUR_BYTES.
Proof. unfold TcpPipeline.config_ok. simpl. unfold CORPC_MESSAGE_HEAD_SIZE, CORPC_MAX_MESSAGE_SIZE. lia. Qed.

(** The receiving pipeline of a terminal, as corpc_message_server.cpp makes it,
    fed with [chunks]. *)
Definition terminal_feed er now cr (chunks : list bytes) :=
  TcpPipeline.feed er CORPC_MESSAGE_HEAD_SIZE CORPC_MAX_MESSAGE_SIZE 0 FOUR_BYTES (decode object er now)
    (TcpPipeline.init CORPC_MESSAGE_HEAD_SIZE CORPC_MAX_MESSAGE_SIZE cr) chunks.

(** The pipeline delivers what the specification finds in the stream. *)
Lemma feed_run er now cr bs c' ts chunks : Forall is_byte bs →
  terminal_run er now cr bs = Frames.Waiting c' ts [] →
  concat chunks = bs → Forall (λ ch, zlen ch < 2^31) chunks →
  ∃ ps, terminal_feed er now cr chunks = Ok (ps, true) ∧ TcpPipeline.tasks ps = ts ∧ TcpPipeline.conn ps = c'.
Proof.
  intros Hb Hrun <- Hlen.
  assert (Forall (Forall is_byte) chunks) as Hcb by (by apply Forall_concat).
  pose proof (TcpPipeline.feed_refines er CORPC_MESSAGE_HEAD_SIZE CORPC_MAX_MESSAGE_SIZE 0 FOUR_BYTES
    (decode object er now) (TcpPipeline.init CORPC_MESSAGE_HEAD_SIZE CORPC_MAX_MESSAGE_SIZE cr) chunks
    terminal_config (TcpPipeline.init_wf _ _ _ _ cr terminal_config) Hcb Hlen) as Hf.
  change (TcpPipeline.pending _ ++ ?w) with w in Hf.
  change (TcpPipeline.conn (TcpPipeline.init _ _ cr)) with cr in Hf. rewrite Hrun in Hf.
  destruct Hf as (ps & Hps & _ & Hc & Htasks & _). by exists ps.
Qed.

(** Messages with consecutive serials, each encoded by
    whatever state the sender was in, reach the worker of the receiver exactly
    once, in order and with their content, however the stream is cut into
    reads; no serial, checksum or decryption check fails. *)
Theorem terminal_stream er now cr xs fs chunks :
  Forall2 (on_the_way cr) xs fs → consecutive cr xs →
  concat chunks = concat fs → Forall (λ ch, zlen ch < 2^31) chunks →
  ∃ ps, terminal_feed er now cr chunks = Ok (ps, true) ∧
    Forall2 (λ x t, delivers cr x.2 (recvSerial_ x.1) t) xs (TcpPipeline.tasks ps) ∧
    TcpPipeline.conn ps = advance (length xs) cr.
Proof.
  intros Hall Hcons Hch Hlen. destruct (run_messages er now cr xs fs Hall Hcons) as (ts & Hrun & Hts).
  destruct (feed_run er now cr _ _ _ chunks (on_the_way_bytes _ _ _ Hall) Hrun Hch Hlen) as (ps & Hps & <- & Hc).
  by exists ps.
Qed.

(** C30 (terminal_detects_burst).  With checksums on both sides, a frame whose
    body was changed in transit within one or two adjacent bytes is refused:
    [decode] returns no task and marks the connection for closing. *)
Theorem terminal_detects_burst er now cs cr info pre p q post :
  info_wf info → is_u32 (recvSerial_ cs) →
  enableSendCRC_ (terminal_ cs) = true → enableRecvCRC_ (terminal_ cr) = true →
  seal object (needCrypt info) (crypter_ cs) (plain info) = Some (pre ++ p ++ post) →
  Forall is_byte q → length p = length q → (length p ≤ 2)%nat → p ≠ q →
  ∃ cr', decode object er now cr (head_of cs info (pre ++ p ++ post)) (pre ++ q ++ post) (zlen (pre ++ q ++ post))
      = Ok (cr', pre ++ q ++ post, None) ∧ decodeError_ cr' = true.
Proof.
  intros Hinfo Hreq Hcs Hcr Hs Hq Hl H2l Hne.
  destruct (plain_props info ltac:(apply Hinfo)) as [Hp Hpl].
  destruct (seal_props object _ _ _ _ Hs Hp) as [Hbl Hbb].
  change (head_of cs info ?b) with (head_with info b (recvSerial_ cs) (checksum (enableSendCRC_ (terminal_ cs)) b)).
  pose proof (checksum_u16 (enableSendCRC_ (terminal_ cs)) _ Hbb) as Hu16.
  rewrite decode_by_head by (done || lia). rewrite decode_serial_ok by (done || lia).
  assert (∃ c r, (if enableSerial_ (terminal_ cr) then
      if bool_decide (u32 (recvSerial_ cr + 1) ≠ serial info) then Ok (setDecodeError (advanced cr), None)
      else Ok (advanced cr, Some (recvSerial_ cs)) else Ok (cr, Some 0)) = Ok (c, r) ∧
    (r = None → decodeError_ c = true) ∧ terminal_ c = terminal_ cr) as (c & r & -> & Hr & Ht).
  { destruct (advanced_keeps cr) as (Et & _ & _).
    destruct (enableSerial_ _); [case_bool_decide|]; eexists _, _; split_and!; try done; by rewrite ?Et. }
  cbn [mbind outcome_bind]. destruct r as [r|]; [|eauto].
  rewrite decode_crc_ok by (done || lia). rewrite Ht, Hcr. cbn [mbind outcome_bind].
  rewrite bool_decide_false; [simpl; eauto|]. unfold checksum. rewrite Hcs.
  apply CRC.crc_fold_burst; done.
Qed.
End messaging.
