(* ===== verification/Resend.v ===== *)
(** * The serials of a message connection and sending again

    The operations on a [MessageTerminal::Connection] as steps of a state
    machine: sending, receiving, the worker's tasks, acknowledgements,
    resetting the buffer and closing.  In every reachable state the buffer of
    sent messages is in step with the serials of the connection, and the
    messages handed to the sender carry consecutive serials.  After a
    reconnection, [resend] sends what the receiver's serial check accepts when
    the first buffered message is the one the receiver waits for; otherwise the
    first frame is refused. *)
From stdpp Require Import gmap sorting.
From S2P Require Import Prelude Define Crc Crypter MessageBuffer Pipeline Sending RpcWire Terminal Messaging.
Import MessageTerminal.
Open Scope Z_scope.

Section steps.
Context {M Proto Handle K : Type} `{Message M Proto}.
Context (object : K → Crypter) (e : endian).
Implicit Types (c : Connection M Proto Handle K) (info : SendMessageInfo (content M)).

(** A connection, what it has handed to [corpc::Connection::send], and the
    number of serials it has given out. *)
Record state : Type := State {
  conn : Connection M Proto Handle K;
  sent : list (SendMessageInfo (content M));
  given : Z;
}.

Definition close c : Connection M Proto Handle K :=
  Conn false (decodeError_ c) (lastRecvHBTime_ c) (terminal_ c) (crypter_ c) (msgBuffer_ c) (recvSerial_ c) (lastSendSerial_ c).

(** A node the buffer does not hold yet: what [new] returns. *)
Definition fresh_addr (addr : Z) c : Prop :=
  ∀ b, msgBuffer_ c = Some b → addr ∉ (MessageBuffer.bufMsglink_ b).*1.

(** Whether [send] gives the message a serial. *)
Definition gives (type : Z) (needBuffer : bool) c : bool :=
  bool_decide (type > 0) && enableSerial_ (terminal_ c) &&
  (isOpen c || (needBuffer && bool_decide (msgBuffer_ c ≠ None))).

Inductive step : state → state → Prop :=
  | StepSend s addr type raw crypt buffer tag msg c o :
      fresh_addr addr (conn s) →
      send addr type raw crypt buffer tag msg (conn s) = Ok (c, o) →
      step s (State c (sent s ++ option_list o) (if gives type buffer (conn s) then given s + 1 else given s))
  | StepDecode s now head body size c body' task :
      decode object e now (conn s) head body size = Ok (c, body', task) →
      step s (State c (sent s) (given s))
  | StepTask s task c a :
      doTask task (conn s) = Ok (c, a) → step s (State c (sent s) (given s))
  | StepScrap s serial : step s (State (scrapMessages serial (conn s)) (sent s) (given s))
  | StepReset s : step s (State (resetMsgBuffer (conn s)) (sent s) (given s))
  | StepClose s : step s (State (close (conn s)) (sent s) (given s)).
End steps.

(** ** The invariant *)
Section invariant.
Context {M Proto Handle K : Type} `{Message M Proto}.
Context (object : K → Crypter) (e : endian).
Implicit Types (c : Connection M Proto Handle K) (info : SendMessageInfo (content M)) (s : state (M:=M) (Proto:=Proto) (Handle:=Handle) (K:=K)).

Definition buffer_ok (n : Z) c : Prop :=
  ∀ b, msgBuffer_ c = Some b →
    MessageBuffer.wf b ∧ MessageBuffer.broken_ b = false ∧ MessageBuffer.lastSerial_ b = n.

(** What is handed to the sender. *)
Definition outgoing (type : Z) (raw crypt : bool) (tag serial : Z) (msg : option (content M)) : SendMessageInfo (content M) :=
  {| MessageBuffer.type := type; MessageBuffer.isRaw := raw; MessageBuffer.needCrypt := crypt;
     MessageBuffer.tag := tag; MessageBuffer.serial := serial; MessageBuffer.msg := msg |}.

Lemma send_effect addr type raw crypt buffer tag msg c n :
  lastSendSerial_ c = n → 0 ≤ n → n + 1 < 2^32 → buffer_ok n c → fresh_addr addr c →
  isOpen c = true ∨ enableSerial_ (terminal_ c) = true →
  let n' := if gives type buffer c then n + 1 else n in
  ∃ c', send addr type raw crypt buffer tag msg c
          = Ok (c', if isOpen c then Some (outgoing type raw crypt tag
                      (if bool_decide (type > 0) && enableSerial_ (terminal_ c) then n + 1 else 0) msg) else None) ∧
    lastSendSerial_ c' = n' ∧ buffer_ok n' c' ∧ terminal_ c' = terminal_ c ∧ isOpen c' = isOpen c.
Proof.
  intros Hn H0 Hr Hb Hfresh Hmode n'. unfold send.
  destruct (isOpen c) eqn:Eo; cbn [negb andb].
  - assert (n' = if bool_decide (type > 0) && enableSerial_ (terminal_ c) then n + 1 else n) as ->.
    { unfold n', gives. rewrite Eo. simpl. by rewrite andb_true_r. }
    cbn [mbind outcome_bind]. destruct (bool_decide (type > 0) && enableSerial_ (terminal_ c)); cycle 1.
    { simpl. rewrite Eo. eexists. split; [done|]. done. }
    rewrite Hn, u32_small by lia. change (msgBuffer_ (setLastSendSerial _ c)) with (msgBuffer_ c).
    destruct (msgBuffer_ c) as [b|] eqn:Eb.
    + destruct (Hb b Eb) as (Hwf & Hbr & Hls). destruct buffer.
      * destruct (MessageBuffer.insert_next b addr (outgoing type raw crypt tag (n + 1) msg))
          as (b' & Hi & Hwf' & _ & Hls' & Hbr'); [done|done|simpl; lia|simpl; lia|by apply Hfresh|].
        unfold outgoing in Hi. rewrite Hi. cbn [mbind outcome_bind]. simpl. rewrite Eo.
        eexists. split; [done|]. split_and!; try done. by intros ? [= <-].
      * destruct (MessageBuffer.jump_next b (n + 1)) as (Hwf' & Hbr' & Hls' & _); [done|done|lia|lia|].
        cbn [mbind outcome_bind]. simpl. rewrite Eo. eexists. split; [done|]. split_and!; try done. by intros ? [= <-].
    + cbn [mbind outcome_bind]. simpl. rewrite Eo. eexists. split; [done|].
      split_and!; try done. intros b. simpl. congruence.
  - destruct Hmode as [?|Hser]; [done|].
    assert (n' = if bool_decide (type > 0) && buffer && bool_decide (msgBuffer_ c ≠ None) then n + 1 else n) as ->.
    { unfold n', gives. rewrite Eo, Hser. simpl. by rewrite andb_true_r, andb_assoc. }
    case_bool_decide as Hneg.
    { rewrite (bool_decide_false (type > 0)) by lia. by exists c. }
    destruct (msgBuffer_ c) as [b|] eqn:Eb; cycle 1.
    { rewrite bool_decide_true by done. rewrite (bool_decide_false (None ≠ None)) by naive_solver.
      rewrite andb_false_r. by exists c. }
    rewrite bool_decide_false by done. rewrite require_true by done. cbn [mbind outcome_bind].
    destruct buffer; cbn [negb]; [|rewrite andb_false_r; by exists c].
    rewrite (bool_decide_true (Some b ≠ None)), !andb_true_r by done. rewrite Hser, andb_true_r.
    destruct (Hb b Eb) as (Hwf & Hbr & Hls).
    case_bool_decide; [|simpl; rewrite Eo; by exists c].
    rewrite Hn, u32_small by lia. change (msgBuffer_ (setLastSendSerial _ c)) with (msgBuffer_ c). rewrite Eb.
    destruct (MessageBuffer.insert_next b addr (outgoing type raw crypt tag (n + 1) msg))
      as (b' & Hi & Hwf' & _ & Hls' & Hbr'); [done|done|simpl; lia|simpl; lia|by apply Hfresh|].
    unfold outgoing in Hi. rewrite Hi. cbn [mbind outcome_bind]. simpl. rewrite Eo.
    eexists. split; [done|]. split_and!; try done. by intros ? [= <-].
Qed.

(** Receiving does not touch the sending side of the connection. *)
Definition same_sending c c' : Prop :=
  terminal_ c' = terminal_ c ∧ msgBuffer_ c' = msgBuffer_ c ∧ lastSendSerial_ c' = lastSendSerial_ c ∧
  isOpen c' = isOpen c.

Lemma decode_serial_keeps c head c' r : decode_serial e c head = Ok (c', r) → same_sending c c'.
Proof.
  unfold decode_serial. destruct (enableSerial_ _); [|by intros [= <- <-]].
  intros (x & _ & Hx)%bind_Ok_inv. case_bool_decide; [by injection Hx as <- <-|].
  apply bind_Ok_inv in Hx as (y & _ & [= <- <-]). done.
Qed.

Lemma decode_message_keeps c body size ty tag req c' t :
  decode_message c body size ty tag req = Ok (c', t) → same_sending c c'.
Proof.
  unfold decode_message. destruct (_ !! ty) as [ri|].
  - intros (p & _ & [= Hp])%bind_Ok_inv. destruct p; by injection Hp as <- <-.
  - destruct (otherMessageHandle_ _); [|by intros [= <- <-]]. by intros (bs & _ & [= <- <-])%bind_Ok_inv.
Qed.

Lemma decode_keeps now c head body size c' body' t :
  decode object e now c head body size = Ok (c', body', t) → same_sending c c'.
Proof.
  unfold decode. intros (ty & _ & Hx)%bind_Ok_inv.
  apply bind_Ok_inv in Hx as (tag & _ & Hx). apply bind_Ok_inv in Hx as (flag & _ & Hx).
  case_bool_decide.
  - unfold decode_system in Hx. case_bool_decide.
    + change (terminal_ (setLastRecvHBTime now c)) with (terminal_ c) in Hx.
      destruct (enableSerial_ _); [|by injection Hx as <- <- <-].
      by apply bind_Ok_inv in Hx as (? & _ & [= <- <- <-]).
    + case_bool_decide; [|by injection Hx as <- <- <-].
      apply bind_Ok_inv in Hx as (? & _ & Hx). case_bool_decide; by injection Hx as <- <- <-.
  - apply bind_Ok_inv in Hx as ([c1 r] & Hs%decode_serial_keeps & Hx).
    destruct r as [r|]; [|by injection Hx as <- <- <-].
    apply bind_Ok_inv in Hx as (ok & _ & Hx). destruct ok; [|by injection Hx as <- <- <-]. cbn [negb] in Hx.
    destruct (_ && _); [by injection Hx as <- <- <-|].
    apply bind_Ok_inv in Hx as (b1 & _ & Hx).
    apply bind_Ok_inv in Hx as ([c2 t2] & (E1 & E2 & E3 & E4)%decode_message_keeps & [= <- <- <-]).
    destruct Hs as (? & ? & ? & ?). unfold same_sending. by rewrite E1, E2, E3, E4.
Qed.

(** A worker task leaves the connection as it is or scraps messages. *)
Lemma doTask_keeps task c c' a : doTask task c = Ok (c', a) → c' = c ∨ ∃ serial, c' = scrapMessages serial c.
Proof.
  unfold doTask. intros (c1 & Hc1 & Hx)%bind_Ok_inv.
  assert (c1 = c ∨ ∃ serial, c1 = scrapMessages serial c) as Hc.
  { destruct (_ && _); [|injection Hc1 as <-; by left]. destruct (msgBuffer_ c); [|injection Hc1 as <-; by left].
    apply bind_Ok_inv in Hc1 as (req & _ & [= <-]). right. by exists req. }
  clear Hc1. enough (c' = c1) as -> by done.
  case_bool_decide; [by injection Hx|]. apply bind_Ok_inv in Hx as (b & _ & Hx).
  destruct (_ !! _) as [ri|].
  - destruct (needCoroutine ri); by apply bind_Ok_inv in Hx as (? & _ & [= <- <-]).
  - destruct (otherMessageHandle_ _); [|by injection Hx]. destruct b; [by injection Hx|].
    by apply bind_Ok_inv in Hx as (? & _ & [= <- <-]).
Qed.

(** The serials of the messages handed to the sender. *)
Definition sent_serials (out : list (SendMessageInfo (content M))) : list Z :=
  serial <$> filter (λ i, 0 < type i) out.

(** As long as fewer than 2^32 - 1 serials were given out. *)
Record good s : Prop := {
  good_off : enableSerial_ (terminal_ (conn s)) = false → given s = 0;
  good_last : lastSendSerial_ (conn s) = given s;
  good_buffer : buffer_ok (given s) (conn s);
  good_sent : enableSerial_ (terminal_ (conn s)) = true →
    ∃ k, 0 ≤ k ≤ given s ∧ sent_serials (sent s) = seqZ 1 k ∧ (isOpen (conn s) = true → k = given s);
}.
Definition inv s : Prop := 0 ≤ given s ∧ (given s < 2^32 - 1 → good s).

Lemma good_transfer s c : good s → same_sending (conn s) c → good (State c (sent s) (given s)).
Proof.
  intros [Hoff Hl Hb Hs] (E1 & E2 & E3 & E4). constructor; simpl; rewrite ?E1, ?E3, ?E4; try done.
  unfold buffer_ok in *. by rewrite E2.
Qed.

Lemma good_scrap s serial : good s → good (State (scrapMessages serial (conn s)) (sent s) (given s)).
Proof.
  intros [Hoff Hl Hb Hs]. constructor; simpl; try done. intros b. simpl.
  destruct (msgBuffer_ (conn s)) as [b0|] eqn:Eb; [|done]. intros [= <-].
  destruct (Hb b0 Eb) as (Hwf & Hbr & Hls). split; [by apply MessageBuffer.scrap_spec|].
  unfold MessageBuffer.scrapMessages. destruct (MessageBuffer.scrap_loop _ _ _). done.
Qed.

Lemma good_reset s : 0 ≤ given s < 2^32 → good s → good (State (resetMsgBuffer (conn s)) (sent s) (given s)).
Proof.
  intros Hg [Hoff Hl Hb Hs]. constructor; simpl; try done. intros b. simpl.
  destruct (msgBuffer_ (conn s)) as [b0|] eqn:Eb; [|done]. intros [= <-].
  destruct (Hb b0 Eb) as (Hwf & Hbr & Hls). rewrite Hl.
  split; [apply MessageBuffer.reset_wf; [done|lia]|done].
Qed.

Lemma good_close s : good s → good (State (close (conn s)) (sent s) (given s)).
Proof.
  intros [Hoff Hl Hb Hs]. constructor; simpl; try done. intros He. destruct (Hs He) as (k & ? & ? & _). by exists k.
Qed.

Lemma sent_serials_app out o : sent_serials (out ++ o) = sent_serials out ++ sent_serials o.
Proof. unfold sent_serials. by rewrite filter_app, fmap_app. Qed.

(** Without serials [send] on a closed connection does nothing. *)
Lemma send_closed_off addr type raw crypt buffer tag msg c c' o :
  isOpen c = false → enableSerial_ (terminal_ c) = false →
  send addr type raw crypt buffer tag msg c = Ok (c', o) → c' = c ∧ o = None.
Proof.
  intros Eo Es. unfold send. rewrite Eo, Es. simpl.
  case_bool_decide; [by intros [= <- <-]|]. case_bool_decide; [by intros [= <- <-]|]. done.
Qed.

Lemma good_send s addr type raw crypt buffer tag msg c o :
  good s → 0 ≤ given s < 2^32 - 1 → fresh_addr addr (conn s) →
  send addr type raw crypt buffer tag msg (conn s) = Ok (c, o) →
  good (State c (sent s ++ option_list o) (if gives type buffer (conn s) then given s + 1 else given s)).
Proof.
  intros [Hoff Hl Hb Hs] Hg Hfresh Hsend.
  destruct (decide (isOpen (conn s) = true ∨ enableSerial_ (terminal_ (conn s)) = true)) as [Hmode|Hmode]; cycle 1.
  { apply Decidable.not_or in Hmode as [Eo%not_true_is_false Es%not_true_is_false].
    destruct (send_closed_off _ _ _ _ _ _ _ _ _ _ Eo Es Hsend) as [-> ->]. simpl. rewrite app_nil_r.
    unfold gives. rewrite Es, andb_false_r. simpl. by constructor. }
  destruct (send_effect addr type raw crypt buffer tag msg (conn s) (given s))
    as (c' & Hc' & Hl' & Hb' & Et & Eo); [done|lia|lia|done|done|done|].
  rewrite Hsend in Hc'. injection Hc' as -> ->. constructor; simpl; rewrite ?Et, ?Eo; try done.
  - unfold gives. intros He. rewrite He, andb_false_r. simpl. by apply Hoff.
  - intros He. destruct (Hs He) as (k & Hk & Hseq & Hopen). unfold gives. rewrite sent_serials_app, Hseq, He.
    destruct (isOpen (conn s)); cycle 1.
    { exists k. simpl. rewrite app_nil_r. split_and!; [lia|destruct (_ && _); lia|done..]. }
    rewrite Hopen in * by done. simpl. rewrite !andb_true_r. unfold sent_serials. simpl.
    case_bool_decide as Hpos.
    + exists (given s + 1). split_and!; [lia|lia| |done].
      rewrite filter_cons_True by (simpl; lia). simpl.
      rewrite seqZ_app by lia. f_equal. unfold seqZ. simpl. f_equal. lia.
    + exists (given s). rewrite filter_cons_False by (simpl; lia). simpl. by rewrite app_nil_r.
Qed.

Lemma serials_step s s' : inv s → step object e s s' → inv s'.
Proof.
  intros [H0 Hg] Hstep.
  destruct Hstep as [s addr ty raw cr nb tg m c o Hf Hs|s now head body size c b t Hd|s task c a Ht|s sr|s|s];
    (split; [simpl; try lia; destruct (gives _ _ _); lia|]); simpl; intros Hlt.
  - apply good_send with (addr := addr) (raw := raw) (crypt := cr) (tag := tg) (msg := m); [|..|done|done];
      [apply Hg|]; destruct (gives _ _ _); lia.
  - apply good_transfer; [by apply Hg|]. by eapply decode_keeps.
  - destruct (doTask_keeps _ _ _ _ Ht) as [->|[sr ->]]; [by apply good_transfer; [apply Hg|]|by apply good_scrap, Hg].
  - by apply good_scrap, Hg.
  - apply good_reset; [lia|by apply Hg].
  - by apply good_close, Hg.
Qed.

(** A new connection with a buffer, or without one. *)
Definition start (terminal : MessageTerminal.t Proto Handle) (limit : option Z)
    : state (M:=M) (Proto:=Proto) (Handle:=Handle) (K:=K) :=
  State (setMsgBuffer (MessageBuffer.init <$> limit) (buildConnection terminal)) [] 0.

Lemma serials_start terminal limit : (∀ n, limit = Some n → 0 ≤ n) → inv (start terminal limit).
Proof.
  intros Hlim. split; [done|]. intros _. constructor; simpl; try done.
  - intros b. simpl. destruct limit as [n|]; [|done]. intros [= <-].
    split; [by apply MessageBuffer.wf_init, Hlim|done].
  - intros _. by exists 0.
Qed.

End invariant.

(** ** Sending again after a reconnection *)
Section resend.
Context {M Proto Handle K : Type} `{MessageLaws M Proto}.
Context (object : K → Crypter) `{!∀ k, CrypterLaws (object k)}.
Implicit Types (cs cr c : Connection M Proto Handle K) (info : SendMessageInfo (content M)).

Abbreviation terminal_run er now := (Frames.run CORPC_MESSAGE_HEAD_SIZE CORPC_MAX_MESSAGE_SIZE
  (TcpPipeline.field 0 FOUR_BYTES) (decode object er now)).

(** The messages [resend] sends for the buffered ones [l], [last] being the
    serial of the previous one. *)
Fixpoint resent (last : Z) (l : list (SendMessageInfo (content M))) : list (SendMessageInfo (content M)) :=
  match l with
  | [] => []
  | m :: l => (if bool_decide (last > 0 ∧ serial m ≠ last + 1) then [jump_info (serial m - 1)] else []) ++
              m :: resent (serial m) l
  end.

Lemma traverse_resent c (l : list (Z * SendMessageInfo (content M))) last out :
  isOpen c = true → Forall (λ s, 0 < s < 2^32) (MessageBuffer.serials l) → 0 ≤ last →
  (∀ s, s ∈ MessageBuffer.serials l → last < s) → StronglySorted Z.lt (MessageBuffer.serials l) →
  (MessageBuffer.traverse (resend_one c) l (last, out)).2 = out ++ resent last l.*2.
Proof.
  intros Ho. revert last out. induction l as [|[a m] l IH]; intros last out Hall Hl0 Hlt Hsort; simpl.
  { by rewrite app_nil_r. }
  apply Forall_cons in Hall as [Hm Hall]. simpl in Hm. rewrite Ho. simpl.
  pose proof (Hlt (serial m) ltac:(left)) as Hlm. rewrite !u32_small by lia.
  rewrite IH; [|done|lia| |by inversion Hsort].
  - rewrite bool_decide_and. destruct (bool_decide (last > 0) && bool_decide (serial m ≠ last + 1));
      by rewrite <-!app_assoc.
  - apply MessageBuffer.serials_above in Hsort. by apply Forall_forall.
Qed.

Lemma resend_resent c b : isOpen c = true → msgBuffer_ c = Some b → MessageBuffer.wf b →
  resend c = resent 0 (MessageBuffer.bufMsglink_ b).*2.
Proof.
  intros Ho Hb [Hs Hl _ _ _ Hr _]. unfold resend. rewrite Hb. rewrite traverse_resent; [done|done| |done| |done].
  - eapply Forall_impl; [exact Hl|]. simpl. lia.
  - rewrite Forall_forall in Hl. intros s Hin. by apply Hl.
Qed.

(** The frame that announces skipped serials. *)
Lemma run_jump er now cs cr s f rest : is_u32 s → is_u32 (recvSerial_ cs) → recvSerial_ cr < s →
  decodeError_ cr = false → Forall is_byte rest → message_frame object cs (jump_info s) = Some f →
  terminal_run er now cr (f ++ rest) = terminal_run er now (setRecvSerial s cr) rest.
Proof.
  intros Hs Hreq Hlt Hde Hrest (b & [= <-] & ->)%message_frame_Some. unfold plain. simpl. rewrite app_nil_r.
  destruct (message_fields er 0 (u32 CORPC_MSG_TYPE_JUMP_SERIAL) 0 0 (recvSerial_ cs) s
    (checksum (enableSendCRC_ (terminal_ cs)) [])) as (E1 & E2 & E3 & E4 & E5 & E6); try done.
  { unfold checksum. by destruct (enableSendCRC_ _). }
  set (h := message_head _ _ _ _ _ _ _) in *. change (head_of cs (jump_info s) []) with h.
  change (h ++ rest) with (h ++ [] ++ rest).
  rewrite Frames.run_frame with (c' := setRecvSerial s cr) (t := None); [by apply Frames.push_nil|done|..].
  - apply TcpPipeline.field_nonneg.
  - apply zlen_message_head.
  - by apply message_head_field.
  - done.
  - apply Forall_app. split; [apply message_head_bytes|done].
  - unfold decode_frame. simpl. unfold frame_of, decode. rewrite E1, E2, E3. cbn [mbind outcome_bind].
    change (i32 (u32 CORPC_MSG_TYPE_JUMP_SERIAL)) with CORPC_MSG_TYPE_JUMP_SERIAL. simpl.
    unfold decode_system. simpl. rewrite E5. cbn [mbind outcome_bind]. by rewrite bool_decide_false by lia.
  - done.
Qed.

(** What the receiver needs to take a buffered message. *)
Definition resendable cs cr info : Prop := ∃ f, on_the_way object cr (cs, info) f.

Lemma resent_sendable last l : Forall sendable l → Forall sendable (resent last l).
Proof.
  intros Hl. revert last. induction Hl as [|m l Hm Hl IH]; intros last; [done|]. simpl.
  apply Forall_app. split; [|by constructor]. case_bool_decide; by repeat constructor.
Qed.

Lemma frames_bytes cs l fs : mapM (message_frame object cs) l = Some fs → Forall sendable l →
  Forall is_byte (concat fs).
Proof.
  intros Hm Hl. apply Forall_concat. apply mapM_Some in Hm.
  induction Hm as [|m f l fs Hf Hfs IH]; inversion Hl; constructor; [|by apply IH].
  by eapply message_frame_bytes.
Qed.

Lemma resendable_same cs cr cr' info : same_checks cr cr' → resendable cs cr info → resendable cs cr' info.
Proof. intros Hs [f Hf]. exists f. by eapply on_the_way_same. Qed.

(** The optional jump in front of a message brings the receiver to the serial
    before it. *)
Lemma run_gap er now cs cr last m rest fs : is_u32 (recvSerial_ cs) → is_u32 (serial m) →
  decodeError_ cr = false → 0 ≤ recvSerial_ cr < serial m →
  (0 < last ∧ last = recvSerial_ cr ∨ last = 0 ∧ serial m = recvSerial_ cr + 1) → Forall sendable (m :: rest) →
  mapM (message_frame object cs)
    ((if bool_decide (last > 0 ∧ serial m ≠ last + 1) then [jump_info (serial m - 1)] else []) ++ m :: rest) = Some fs →
  ∃ cr1 f fs', message_frame object cs m = Some f ∧ mapM (message_frame object cs) rest = Some fs' ∧
    terminal_run er now cr (concat fs) = terminal_run er now cr1 (f ++ concat fs') ∧
    same_checks cr cr1 ∧ recvSerial_ cr1 = serial m - 1.
Proof.
  intros Hreq Hm Hde Hr Hlast Hsend Hmap.
  apply mapM_Some in Hmap. case_bool_decide as Hj; simpl in Hmap.
  - destruct Hlast as [[Hp ->]|[-> _]]; [|lia].
    apply Forall2_cons_inv_l in Hmap as (fj & gs & Ej & Hmap & ->).
    assert (mapM (message_frame object cs) (m :: rest) = Some gs) as Eg by (by apply mapM_Some).
    pose proof (frames_bytes _ _ _ Eg Hsend) as Hb.
    apply Forall2_cons_inv_l in Hmap as (f & fs' & Hf & Hfs'%mapM_Some & ->).
    exists (setRecvSerial (serial m - 1) cr), f, fs'. split_and!; try done.
    cbn [concat] in *. apply run_jump with (cs := cs); try done; [unfold is_u32 in *; lia|lia].
  - apply Forall2_cons_inv_l in Hmap as (f & fs' & Hf & Hfs'%mapM_Some & ->).
    exists cr, f, fs'. split_and!; try done.
    destruct Hlast as [[Hp ->]|[_ ->]]; [|lia]. destruct (decide (serial m = recvSerial_ cr + 1)); [lia|].
    exfalso. apply Hj. lia.
Qed.

Lemma run_resent er now cs l : is_u32 (recvSerial_ cs) →
  ∀ cr last fs, Forall (resendable cs cr) l → StronglySorted Z.lt (serial <$> l) →
  enableSerial_ (terminal_ cr) = true → decodeError_ cr = false → 0 ≤ recvSerial_ cr →
  Forall (λ m, recvSerial_ cr < serial m) l →
  (0 < last ∧ last = recvSerial_ cr ∨ last = 0 ∧ ∀ m, head l = Some m → serial m = recvSerial_ cr + 1) →
  mapM (message_frame object cs) (resent last l) = Some fs →
  ∃ c' ts, terminal_run er now cr (concat fs) = Frames.Waiting c' ts [] ∧
    Forall2 (λ m t, delivers cr m (recvSerial_ cs) t) l ts ∧ same_checks cr c' ∧
    recvSerial_ c' = default (recvSerial_ cr) (serial <$> list.last l).
Proof.
  intros Hreq. induction l as [|m l IH]; intros cr last fs Hl Hsort Hes Hde Hr Hgt Hlast Hmap.
  { injection Hmap as <-. exists cr, []. done. }
  apply Forall_cons in Hl as [Hm Hl]. apply Forall_cons in Hgt as [Hrm Hgt].
  assert (Forall sendable (m :: resent (serial m) l)) as Hsend.
  { constructor; [destruct Hm as [f (Hi & _)]; apply Hi|]. apply resent_sendable.
    eapply Forall_impl; [exact Hl|]. intros y [f (Hi & _)]. apply Hi. }
  pose proof Hm as [f0 (Hinfo & _)]. destruct Hinfo as (_ & _ & _ & Hu). simpl in Hu.
  destruct (run_gap er now cs cr last m (resent (serial m) l) fs) as (cr1 & f & fs' & Hf & Hfs' & -> & Hsame & Hr1);
    [done..|lia| |done|done|].
  { destruct Hlast as [?|[? Hh]]; [by left|right]. split; [done|by apply Hh]. }
  assert (on_the_way object cr1 (cs, m) f) as Hway.
  { destruct Hm as [f1 Hf1]. pose proof (on_the_way_same _ _ _ _ _ Hsame Hf1) as Hf2.
    destruct Hf2 as (? & ? & ? & ? & Hff). simpl in Hff. assert (f1 = f) as -> by congruence. by split_and!. }
  destruct (run_one object er now cr1 (cs, m) f (concat fs')) as (task & Hone & Hdel); [done| | |].
  { eapply frames_bytes; [exact Hfs'|]. by inversion Hsend. }
  { intros _. simpl. rewrite Hr1, u32_small by (unfold is_u32 in Hu; lia). lia. }
  pose proof (advanced_keeps cr1) as (Et & Ek & Ed). destruct Hsame as (Et1 & Ek1 & Ed1).
  assert (same_checks cr (advanced cr1)) as Hsame2 by (unfold same_checks; by rewrite Et, Ek, Ed).
  assert (recvSerial_ (advanced cr1) = serial m) as Hr2.
  { unfold advanced. rewrite Et1, Hes. simpl. rewrite Hr1, u32_small by (unfold is_u32 in Hu; lia). lia. }
  destruct (IH (advanced cr1) (serial m) fs') as (c' & ts & Hrun & Hts & Hs' & Hlastr).
  - eapply Forall_impl; [exact Hl|]. intros. by eapply resendable_same.
  - by inversion Hsort.
  - by rewrite (proj1 Hsame2).
  - by rewrite (proj2 (proj2 Hsame2)).
  - lia.
  - rewrite Hr2. inversion Hsort as [|? ? _ Hab]; subst. by rewrite Forall_fmap in Hab.
  - left. lia.
  - done.
  - exists c', (task :: ts). rewrite Hone, Hrun. split; [done|]. split_and!.
    + constructor; [eapply delivers_same; [|exact Hdel]; done|].
      eapply Forall2_impl; [exact Hts|]. intros. by eapply delivers_same.
    + unfold same_checks in *. destruct Hs' as (-> & -> & ->). done.
    + rewrite Hlastr, Hr2. rewrite last_cons. by destruct (list.last l).
Qed.

Lemma resent_frames cs cr last l : Forall (resendable cs cr) l →
  ∃ fs, mapM (message_frame object cs) (resent last l) = Some fs.
Proof.
  intros Hl. apply mapM_is_Some. revert last. induction Hl as [|m l [f (_ & _ & _ & _ & Hf)] Hl IH]; intros last; [done|].
  simpl. apply Forall_app. split.
  - case_bool_decide; constructor; [|constructor]. by eexists.
  - constructor; [by exists f|]. apply IH.
Qed.

(** After a reconnection, when the first buffered
    message is the one the receiver waits for, all that [resend] sends is
    accepted: the receiver gets every buffered message once, in order, the
    serials skipped between buffered messages are announced, no check fails,
    and the receiver ends at the serial of the last buffered message, however
    the stream is cut. *)
Theorem resend_accepted er now cs cr b :
  isOpen cs = true → msgBuffer_ cs = Some b → MessageBuffer.wf b → is_u32 (recvSerial_ cs) →
  enableSerial_ (terminal_ cr) = true → decodeError_ cr = false → 0 ≤ recvSerial_ cr →
  let buffered := (MessageBuffer.bufMsglink_ b).*2 in
  Forall (resendable cs cr) buffered → (∀ m, head buffered = Some m → serial m = recvSerial_ cr + 1) →
  ∃ fs, mapM (message_frame object cs) (resend cs) = Some fs ∧
    ∀ chunks, concat chunks = concat fs → Forall (λ ch, zlen ch < 2^31) chunks →
    ∃ ps, terminal_feed object er now cr chunks = Ok (ps, true) ∧
      Forall2 (λ m t, delivers cr m (recvSerial_ cs) t) buffered (TcpPipeline.tasks ps) ∧
      recvSerial_ (TcpPipeline.conn ps) = default (recvSerial_ cr) (serial <$> list.last buffered).
Proof.
  intros Ho Hb Hwf Hreq Hes Hde Hr buffered Hall Hfirst.
  rewrite (resend_resent cs b) by done. destruct (resent_frames cs cr 0 buffered Hall) as [fs Hfs].
  exists fs. split; [done|]. intros chunks Hch Hlen.
  assert (serial <$> buffered = MessageBuffer.serials (MessageBuffer.bufMsglink_ b)) as Hser.
  { unfold buffered, MessageBuffer.serials. by rewrite <-list_fmap_compose. }
  pose proof (MessageBuffer.wf_sorted _ Hwf) as Hsort. rewrite <-Hser in Hsort.
  destruct (run_resent er now cs buffered Hreq cr 0 fs) as (c' & ts & Hrun & Hts & _ & Hlast); try done.
  - destruct buffered as [|m l]; [done|]. pose proof (Hfirst m eq_refl) as Hm.
    inversion Hsort as [|? ? _ Hab]; subst. constructor; [lia|].
    rewrite Forall_fmap in Hab. eapply Forall_impl; [exact Hab|]. simpl. intros. lia.
  - by right.
  - assert (Forall is_byte (concat fs)) as Hbytes.
    { eapply frames_bytes; [exact Hfs|]. apply resent_sendable. eapply Forall_impl; [exact Hall|].
      intros y [f (Hi & _)]. apply Hi. }
    destruct (feed_run object er now cr _ _ _ chunks Hbytes Hrun Hch Hlen) as (ps & Hps & <- & <-).
    by exists ps.
Qed.

(** When the first buffered message is not the one the
    receiver waits for, because the messages in between were sent without being
    buffered, [resend] does not announce the gap: the first thing it sends is
    that message, and the receiver refuses it and closes the connection. *)
Theorem resend_first_gap er now cs cr b a m l :
  isOpen cs = true → msgBuffer_ cs = Some b → MessageBuffer.wf b → is_u32 (recvSerial_ cs) →
  enableSerial_ (terminal_ cr) = true → MessageBuffer.bufMsglink_ b = (a, m) :: l →
  info_wf m → serial m ≠ u32 (recvSerial_ cr + 1) →
  (∃ rest, resend cs = m :: rest) ∧
  ∀ body, seal object (needCrypt m) (crypter_ cs) (plain m) = Some body →
    ∃ cr', decode object er now cr (head_of cs m body) body (zlen body) = Ok (cr', body, None) ∧
      decodeError_ cr' = true.
Proof.
  intros Ho Hb Hwf Hreq Hes Hl Hm Hne. split.
  { rewrite (resend_resent cs b), Hl by done. simpl. eauto. }
  intros body Hs. destruct (plain_props m ltac:(apply Hm)) as [Hp Hpl].
  destruct (seal_props object _ _ _ _ Hs Hp) as [Hbl Hbb].
  change (head_of cs m body) with (head_with m body (recvSerial_ cs) (checksum (enableSendCRC_ (terminal_ cs)) body)).
  pose proof (checksum_u16 (enableSendCRC_ (terminal_ cs)) _ Hbb) as Hu16.
  rewrite decode_by_head, decode_serial_ok by (done || lia). rewrite Hes, bool_decide_true by done.
  cbn [mbind outcome_bind]. eauto.
Qed.
End resend.
