(* ===== verification/Handlers.v ===== *)
(** * The handlers of a terminal

    What [registerMessage], [setBanMessages] and [MessageWorkerTask::doTask]
    do with the table of handlers; and concrete terminals on which the theorems
    of Messaging.v, Resend.v and this file are applied. *)
From stdpp Require Import gmap sorting.
From S2P Require Import Prelude Define Crc Crypter MessageBuffer Pipeline Sending RpcWire Terminal Messaging Resend.
Import MessageTerminal.
Open Scope Z_scope.

Section handlers.
Context {M Proto Handle K : Type} `{Message M Proto}.
Context (object : K → Crypter) (e : endian).
Implicit Types (c : Connection M Proto Handle K) (tm : MessageTerminal.t Proto Handle) (task : MessageWorkerTask.t M).

Lemma ban_set_lookup (msgTypes : list Z) (m0 : gmap Z bool) ty :
  is_Some (foldl (λ m type, <[type := true]> m) m0 msgTypes !! ty) ↔ is_Some (m0 !! ty) ∨ ty ∈ msgTypes.
Proof.
  revert m0. induction msgTypes as [|x l IH]; intros m0; simpl; [set_solver|].
  rewrite IH, lookup_insert_is_Some', elem_of_cons. naive_solver.
Qed.

(** [setBanMessages] takes the complete list: after
    it, exactly the registered types in the list are banned, earlier bans
    included, and nothing else of the table changes; a type registered before
    is not replaced by [registerMessage], which otherwise adds one unbanned
    entry. *)
Theorem ban_messages_exact tm (msgTypes : list Z) ty p co h :
  (registerMessageMap_ (setBanMessages msgTypes tm) !! ty
   = (λ info, {| proto := proto info; handle := handle info; needCoroutine := needCoroutine info;
                 banned := bool_decide (ty ∈ msgTypes) |}) <$> registerMessageMap_ tm !! ty) ∧
  registerMessage ty p co h tm =
    match registerMessageMap_ tm !! ty with
    | Some _ => (false, tm)
    | None => (true, Make (needHB_ tm) (enableSendCRC_ tm) (enableRecvCRC_ tm) (enableSerial_ tm)
        (<[ty := {| proto := p; handle := h; needCoroutine := co; banned := false |}]> (registerMessageMap_ tm))
        (otherMessageHandle_ tm))
    end.
Proof.
  split; [|done]. unfold setBanMessages. simpl. rewrite map_lookup_imap.
  destruct (registerMessageMap_ tm !! ty) as [info|]; simpl; [|done]. f_equal. unfold ban_entry.
  pose proof (ban_set_lookup msgTypes ∅ ty) as Hban.
  destruct (foldl _ ∅ msgTypes !! ty) as [x|].
  - rewrite (bool_decide_true (ty ∈ msgTypes)); [by destruct info as [? ? ? []]|].
    destruct Hban as [[[? ?]|?] _]; [by eexists|done|done].
  - rewrite (bool_decide_false (ty ∈ msgTypes)); [by destruct info as [? ? ? []]|].
    intros Hin. destruct Hban as [_ [? ?]]; [by right|done].
Qed.

(** A message of a banned type goes to the handler
    registered for [CORPC_MSG_TYPE_BANNED] when that handler runs at once; when
    it is registered to run in a coroutine, the coroutine looks the handler up
    again by the type of the message, and the handler of the banned type itself
    is called, with a null message. *)
Theorem banned_dispatch c tg req ty bi ri :
  registerMessageMap_ (terminal_ c) !! CORPC_MSG_TYPE_BANNED = Some bi →
  registerMessageMap_ (terminal_ c) !! ty = Some ri → 0 ≤ ty →
  let task := MessageWorkerTask.Make ty (Some tg) (Some req) (Some true) None in
  ∃ c', doTask task c = Ok (c', CallHandle (needCoroutine bi)
    (if needCoroutine bi then handle ri else handle bi) ty (Some tg) None).
Proof.
  intros Hb Hr Hty task. unfold doTask. simpl.
  assert (∃ c', (if negb (bool_decide (ty = CORPC_MSG_TYPE_CONNECT) || bool_decide (ty = CORPC_MSG_TYPE_CLOSE)) &&
      enableSerial_ (terminal_ c) then match msgBuffer_ c with Some _ => Ok (scrapMessages req c) | None => Ok c end
      else Ok c) = Ok c') as [c' Hc'].
  { destruct (_ && _); [destruct (msgBuffer_ c)|]; eauto. }
  rewrite Hc'. cbn [mbind outcome_bind].
  rewrite bool_decide_false by (unfold CORPC_MSG_TYPE_HEARTBEAT; lia). rewrite Hb.
  exists c'. destruct (needCoroutine bi); [|done]. unfold taskCallRoutine. simpl. by rewrite Hr.
Qed.

(** The tasks that reach the worker of a connection: those of [decode],
    [onConnect] and [onClose]. *)
Inductive issued c : MessageWorkerTask.t M → Prop :=
  | IssuedConnect : issued c onConnect
  | IssuedClose : issued c onClose
  | IssuedDecode c0 now head body size c1 body' task :
      terminal_ c0 = terminal_ c → decode object e now c0 head body size = Ok (c1, body', Some task) →
      issued c task.

(** What [decode] puts into a task. *)
Definition task_wf tm task : Prop :=
  (MessageWorkerTask.type task = CORPC_MSG_TYPE_HEARTBEAT ∧ is_Some (MessageWorkerTask.reqSerial task)) ∨
  (0 ≤ MessageWorkerTask.type task ∧ is_Some (MessageWorkerTask.reqSerial task) ∧
   match registerMessageMap_ tm !! MessageWorkerTask.type task with
   | None => MessageWorkerTask.banned task = Some false ∧ ∃ s, MessageWorkerTask.msg task = Some (RawString s)
   | Some _ => is_Some (MessageWorkerTask.banned task) ∧ ∃ m, MessageWorkerTask.msg task = Protobuf <$> m
   end).

Lemma decode_message_task c body size ty tg req c' task : 0 ≤ ty →
  decode_message c body size ty tg req = Ok (c', Some task) → task_wf (terminal_ c) task.
Proof.
  intros Hty. unfold decode_message, task_wf.
  destruct (registerMessageMap_ (terminal_ c) !! ty) as [ri|] eqn:Er.
  - intros ([msg|] & _ & Hx)%bind_Ok_inv; [|done]. injection Hx as <- <-. right. simpl. rewrite Er. eauto 10.
  - destruct (otherMessageHandle_ (terminal_ c)); [|done]. intros (bs & _ & Hx)%bind_Ok_inv.
    injection Hx as <- <-. right. simpl. rewrite Er. eauto 10.
Qed.

Lemma decode_task now c head body size c' body' task :
  decode object e now c head body size = Ok (c', body', Some task) → task_wf (terminal_ c) task.
Proof.
  unfold decode. intros (ty & _ & Hx)%bind_Ok_inv.
  apply bind_Ok_inv in Hx as (tag & _ & Hx). apply bind_Ok_inv in Hx as (flag & _ & Hx).
  case_bool_decide as Hneg.
  - unfold decode_system in Hx. case_bool_decide as Hhb.
    + change (terminal_ (setLastRecvHBTime now c)) with (terminal_ c) in Hx.
      destruct (enableSerial_ _); [|done]. apply bind_Ok_inv in Hx as (req & _ & [= <- <- <-]). left. simpl. eauto.
    + case_bool_decide; [|done]. apply bind_Ok_inv in Hx as (? & _ & Hx). by case_bool_decide.
  - apply bind_Ok_inv in Hx as ([c1 r] & (Et & _)%decode_serial_keeps & Hx). destruct r as [r|]; [|done].
    apply bind_Ok_inv in Hx as (ok & _ & Hx). destruct ok; [|done]. cbn [negb] in Hx.
    destruct (_ && _); [done|]. apply bind_Ok_inv in Hx as (b1 & _ & Hx).
    apply bind_Ok_inv in Hx as ([c2 t2] & Hm & [= <- <- ->]).
    apply decode_message_task in Hm; [by rewrite <-Et|lia].
Qed.

End handlers.

(** ** Concrete terminals *)
Module TerminalExample.
(** A key, and a terminal with checksums and serials that handles messages of
    type 5 with the prototype of [Fixed64]; type 7 is banned. *)
Definition object (_ : unit) : Crypter := SimpleXORCrypter.to_Crypter (SimpleXORCrypter.Make [3; 200]).
#[global] Instance object_laws k : CrypterLaws (object k).
Proof. by apply SimpleXORCrypter.laws. Qed.

Definition terminal : MessageTerminal.t unit nat :=
  setBanMessages [7]
    (registerMessage 7 (Some tt) false 70%nat
      (registerMessage CORPC_MSG_TYPE_BANNED None true 10%nat
        (registerMessage 5 (Some tt) false 50%nat
          (Make false true true true ∅ (Some 99%nat))).2).2).2.

Abbreviation connection := (Connection Fixed64.msg unit nat unit).
(** A connection with a key and a buffer without limit. *)
Definition fresh : connection :=
  Conn true false 0 terminal (Some tt) (Some (MessageBuffer.init 0)) 0 0.

(** A message of type 5, encrypted, with the serial [s]. *)
Definition hello (s : Z) : SendMessageInfo (content Fixed64.msg) :=
  {| type := 5; isRaw := false; needCrypt := true; tag := 9; serial := s; msg := Some (Protobuf (Fixed64.Msg 77)) |}.

Lemma hello_wf s : is_u32 s → info_wf (hello s).
Proof. intros. unfold info_wf. simpl. split_and!; done. Qed.

Lemma fresh_linked (c c' : connection) : crypter_ c = Some tt → crypter_ c' = Some tt → is_u32 (recvSerial_ c) →
  terminal_ c = terminal → terminal_ c' = terminal → decodeError_ c' = false → linked object c c'.
Proof.
  intros E1 E2 E3 E4 E5 E6. constructor; rewrite ?E4, ?E5; try done.
  intros k _. exists tt. split; [done|]. intros l Hl. by apply opened_sealed.
Qed.

Lemma hello_accepted (c : connection) s : terminal_ c = terminal → accepts c (hello s).
Proof. intros E. unfold accepts. rewrite E. vm_compute. by right. Qed.

Definition sent_body : bytes := sealed (object tt) (be_bytes 8 77).

Lemma hello_way (c : connection) s : is_u32 s → is_u32 (recvSerial_ c) → crypter_ c = Some tt → terminal_ c = terminal →
  on_the_way object fresh (c, hello s) (head_of c (hello s) sent_body ++ sent_body).
Proof.
  intros Hs Hr Hk Ht. split_and!; simpl.
  - by apply hello_wf.
  - by apply fresh_linked.
  - by apply hello_accepted.
  - change (zlen (be_bytes 8 77) ≤ CORPC_MAX_MESSAGE_SIZE). by rewrite be_bytes_length.
  - unfold message_frame. simpl. by rewrite Hk.
Qed.


(** Two frames on one stream, cut after the first byte. *)
Definition two_frames : list bytes :=
  [head_of fresh (hello 1) sent_body ++ sent_body; head_of fresh (hello 2) sent_body ++ sent_body].

Lemma terminal_stream_witness :
  ∃ ps, terminal_feed object LittleEndian 0 fresh [ztake 1 (concat two_frames); zdrop 1 (concat two_frames)] = Ok (ps, true) ∧
    Forall2 (λ x t, delivers fresh x.2 (recvSerial_ x.1) t) [(fresh, hello 1); (fresh, hello 2)] (TcpPipeline.tasks ps) ∧
    TcpPipeline.conn ps = advance 2 fresh.
Proof.
  apply (terminal_stream object LittleEndian 0 fresh [(fresh, hello 1); (fresh, hello 2)] two_frames).
  - constructor; [by apply hello_way|]. constructor; [by apply hello_way|constructor].
  - intros _ [|[|i]] x; simpl; [intros [= <-]; done|intros [= <-]; done|done].
  - cbn [concat]. by rewrite app_nil_r, ztake_zdrop.
  - apply (bool_decide_unpack _). vm_compute. done.
Defined.

Lemma terminal_detects_burst_witness :
  ∃ cr', decode object LittleEndian 0 fresh (head_of fresh (hello 1) (ztake 2 sent_body ++ slice 2 1 sent_body ++ zdrop 3 sent_body))
      (ztake 2 sent_body ++ [7] ++ zdrop 3 sent_body) (zlen (ztake 2 sent_body ++ [7] ++ zdrop 3 sent_body))
    = Ok (cr', ztake 2 sent_body ++ [7] ++ zdrop 3 sent_body, None) ∧ decodeError_ cr' = true.
Proof.
  apply (terminal_detects_burst object LittleEndian 0 fresh fresh (hello 1) (ztake 2 sent_body) (slice 2 1 sent_body) [7]
    (zdrop 3 sent_body)).
  - by apply hello_wf.
  - done.
  - done.
  - done.
  - vm_compute. reflexivity.
  - by apply (bool_decide_unpack _).
  - vm_compute. reflexivity.
  - vm_compute. repeat constructor.
  - vm_compute. done.
Defined.

(** The states after sending messages of type 5, buffered or not, from a new
    connection. *)
Abbreviation st := (state (M:=Fixed64.msg) (Proto:=unit) (Handle:=nat) (K:=unit)).
Definition content1 : content Fixed64.msg := Protobuf (Fixed64.Msg 77).
Definition note (s : Z) : SendMessageInfo (content Fixed64.msg) :=
  {| type := 5; isRaw := false; needCrypt := false; tag := 9; serial := s; msg := Some content1 |}.
Definition send_note (addr : Z) (buffer : bool) (s : st) : st :=
  let r := get (conn s, None) (send addr 5 false false buffer 9 (Some content1) (conn s)) in
  State r.1 (sent s ++ option_list r.2) (if gives 5 buffer (conn s) then given s + 1 else given s).

Lemma send_note_step addr buffer (s : st) : fresh_addr addr (conn s) →
  isok (send addr 5 false false buffer 9 (Some content1) (conn s)) = true →
  step object LittleEndian s (send_note addr buffer s).
Proof.
  intros Hf Hok. apply (StepSend object LittleEndian s addr 5 false false buffer 9 (Some content1)); [done|].
  unfold send_note. destruct (send _ _ _ _ _ _ _ _) as [[c o]|]; done.
Qed.

Definition s0 : st := start terminal (Some 0).
Definition s3 : st := send_note 48 true (send_note 32 false (send_note 16 true s0)).
(** The first message was not buffered. *)
Definition s2 : st := send_note 32 true (send_note 16 false s0).

Ltac fresh_tac := intros b; vm_compute; intros [= <-]; set_solver.
Lemma s3_reach : reach (step object LittleEndian) s0 s3.
Proof.
  eapply reach_step; [|apply send_note_step; [fresh_tac|done]].
  eapply reach_step; [|apply send_note_step; [fresh_tac|done]].
  eapply reach_step; [|apply send_note_step; [fresh_tac|done]]. apply reach_refl.
Qed.
Lemma s2_reach : reach (step object LittleEndian) s0 s2.
Proof.
  eapply reach_step; [|apply send_note_step; [fresh_tac|done]].
  eapply reach_step; [|apply send_note_step; [fresh_tac|done]]. apply reach_refl.
Qed.

Lemma reach_buffer s : reach (step object LittleEndian) s0 s → given s < 2^32 - 1 → buffer_ok (given s) (conn s).
Proof.
  intros Hr Hg. assert (inv s) as [_ Hgood].
  { eapply reach_invariant; [|intros; by eapply serials_step|exact Hr]. apply serials_start. by intros n [= <-]. }
  apply Hgood, Hg.
Qed.

Lemma note_way (cs cr : connection) s : is_u32 s → is_u32 (recvSerial_ cs) → crypter_ cs = None →
  terminal_ cs = terminal → terminal_ cr = terminal → decodeError_ cr = false → resendable object cs cr (note s).
Proof.
  intros Hs Hr Hk Ht Ht' Hd. eexists. split_and!; simpl.
  - unfold info_wf. simpl. split_and!; done.
  - constructor; rewrite ?Ht, ?Ht'; try done. rewrite Hk. done.
  - unfold accepts. rewrite Ht'. vm_compute. by right.
  - change (zlen (be_bytes 8 77) ≤ CORPC_MAX_MESSAGE_SIZE). by rewrite be_bytes_length.
  - reflexivity.
Qed.


Definition buffer_of (s : st) : MessageBuffer.t (content Fixed64.msg) :=
  default (MessageBuffer.init 0) (msgBuffer_ (conn s)).

Lemma resend_accepted_witness :
  (MessageBuffer.bufMsglink_ (buffer_of s3)).*2 = [note 1; note 3] ∧
  ∃ fs, mapM (message_frame object (conn s3)) (resend (conn s3)) = Some fs ∧
    ∀ chunks, concat chunks = concat fs → Forall (λ ch, zlen ch < 2^31) chunks →
    ∃ ps, terminal_feed object BigEndian 0 (conn s0) chunks = Ok (ps, true) ∧
      Forall2 (λ m t, delivers (conn s0) m 0 t) [note 1; note 3] (TcpPipeline.tasks ps) ∧
      recvSerial_ (TcpPipeline.conn ps) = 3.
Proof.
  split; [vm_compute; reflexivity|].
  apply (resend_accepted object BigEndian 0 (conn s3) (conn s0) (buffer_of s3)).
  - vm_compute. reflexivity.
  - vm_compute. reflexivity.
  - destruct (reach_buffer s3 s3_reach) with (b := buffer_of s3) as (Hwf & _);
      [vm_compute; reflexivity|vm_compute; reflexivity|exact Hwf].
  - vm_compute. split; congruence.
  - reflexivity.
  - reflexivity.
  - simpl. lia.
  - change (Forall (resendable object (conn s3) (conn s0)) [note 1; note 3]).
    constructor; [apply note_way; done|]. constructor; [apply note_way; done|constructor].
  - intros m. change (head [note 1; note 3] = Some m → serial m = 0 + 1). by intros [= <-].
Defined.

Lemma resend_first_gap_witness :
  (∃ rest, resend (conn s2) = note 2 :: rest) ∧
  ∀ body, seal object false (crypter_ (conn s2)) (plain (note 2)) = Some body →
    ∃ cr', decode object LittleEndian 0 (conn s0) (head_of (conn s2) (note 2) body) body (zlen body) = Ok (cr', body, None) ∧
      decodeError_ cr' = true.
Proof.
  apply (resend_first_gap object LittleEndian 0 (conn s2) (conn s0) (buffer_of s2) 32 (note 2) []).
  - vm_compute. reflexivity.
  - vm_compute. reflexivity.
  - destruct (reach_buffer s2 s2_reach) with (b := buffer_of s2) as (Hwf & _);
      [vm_compute; reflexivity|vm_compute; reflexivity|exact Hwf].
  - vm_compute. split; congruence.
  - reflexivity.
  - vm_compute. reflexivity.
  - unfold info_wf. simpl. split_and!; done.
  - vm_compute. done.
Defined.

(** A message of the banned type 7: the handler of type 7 is called, because
    the handler 10 of banned messages wants a coroutine. *)
Lemma banned_dispatch_witness :
  ∃ c', doTask (MessageWorkerTask.Make 7 (Some 0) (Some 0) (Some true) None) fresh
    = Ok (c', CallHandle true 70%nat 7 (Some 0) None).
Proof.
  apply (banned_dispatch fresh 0 0 7
    {| proto := None; handle := 10%nat; needCoroutine := true; banned := false |}
    {| proto := Some tt; handle := 70%nat; needCoroutine := false; banned := true |});
    [vm_compute; reflexivity|vm_compute; reflexivity|lia].
Defined.

End TerminalExample.
