(* ===== verification/Reconnect.v ===== *)
(** * corpc_message_client.cpp: the client on top of a terminal

    With [NEW_MESSAGE_CLIENT_IMPLEMENT] a client is a [MessageTerminal] whose
    connections are made by [TcpClient::connect] (and [UdpClient::connect], see
    Handshake.v).  When the connection is lost, [connect] makes a new one that
    goes on at the serial the old one had got to, so that what the server sends
    again ([resend], see Resend.v) is accepted.  The new connection is handed to
    the receiver before its serial is set: a message that is read in between is
    refused. *)
From stdpp Require Import gmap.
From S2P Require Import Prelude Define Crc Crypter MessageBuffer Pipeline Sending RpcWire Terminal Messaging Resend Handlers.
Import MessageTerminal.
Open Scope Z_scope.

Module ReconnectingClient.
(** What the system calls of [TcpClient::connect] return: [socket] fails;
    [connect] succeeds, fails, or is in progress, in which case [getsockopt]
    fails or tells the error, 0 for none. *)
Inductive attempt : Type :=
  | NoSocket
  | Established
  | ConnectFailed
  | InProgress (error : option Z).
#[global] Instance attempt_eq_dec : EqDecision attempt.
Proof. solve_decision. Defined.

Section client.
Context {M Proto Handle K : Type} `{Message M Proto} (object : K → Crypter) (e : endian).
Implicit Types (con : Connection M Proto Handle K).

(** The members of [MessageClient] that matter here. *)
Record client : Type := Client {
  terminal : MessageTerminal.t Proto Handle;
  connection_ : option (Connection M Proto Handle K);
}.
Implicit Types (c : client).

(** [MessageClient::send]: nothing without a connection. *)
Definition send (addr : Z) (type : Z) (isRaw needCrypt needBuffer : bool) (tag : Z) (msg : option (content M)) c
    : outcome (client * option (SendMessageInfo (content M))) :=
  match connection_ c with
  | None => Ok (c, None)
  | Some con =>
    '(con, out) ← MessageTerminal.send addr type isRaw needCrypt needBuffer tag msg con;
    Ok (Client (terminal c) (Some con), out)
  end.

(** [MessageClient::buildAndAddConnection]: the connection, the task for the
    worker, and whether it is added to the [Heartbeater].  From here on the
    connection is with the receiver and the sender. *)
Definition buildAndAddConnection c : Connection M Proto Handle K * MessageWorkerTask.t M * bool :=
  let con := buildConnection (terminal c) in
  (con, onConnect, needHB_ (terminal c)).

(** [TcpClient::connect] up to the return of [buildAndAddConnection]; [NotMade]
    is a return of [false], with the descriptor closed again if there was one. *)
Inductive making : Type :=
  | NotMade (fd_closed : bool)
  | Made con (task : MessageWorkerTask.t M) (heartbeat : bool).
Definition open_socket (x : attempt) c : making :=
  if (match connection_ c with Some con => isOpen con | None => false end) then NotMade false else
  match x with
  | NoSocket => NotMade false
  | ConnectFailed => NotMade true
  | InProgress None => NotMade true
  | InProgress (Some error) =>
    if bool_decide (error ≠ 0) then NotMade true else
    let '(con, task, hb) := buildAndAddConnection c in Made con task hb
  | Established => let '(con, task, hb) := buildAndAddConnection c in Made con task hb
  end.

(** The rest of [TcpClient::connect]: the serial of the old connection, and the
    new connection replaces the old. *)
Definition adopt con c : client :=
  let con := match connection_ c with
             | Some old => setRecvSerial (recvSerial_ old) con
             | None => con
             end in
  Client (terminal c) (Some con).

(** [TcpClient::connect], when nothing is received in between. *)
Definition connect (x : attempt) c : bool * client :=
  match open_socket x c with
  | NotMade _ => (false, c)
  | Made con _ _ => (true, adopt con c)
  end.

(** What the system calls have to do for a connection. *)
Definition succeeds (x : attempt) : bool :=
  match x with Established => true | InProgress (Some error) => bool_decide (error = 0) | _ => false end.

Lemma open_socket_ok x c : (∀ con, connection_ c = Some con → isOpen con = false) →
  if succeeds x then open_socket x c = Made (buildConnection (terminal c)) onConnect (needHB_ (terminal c))
  else ∃ closed, open_socket x c = NotMade closed ∧ closed = bool_decide (x ≠ NoSocket).
Proof.
  intros Hc. unfold open_socket.
  assert ((match connection_ c with Some con => isOpen con | None => false end) = false) as ->.
  { destruct (connection_ c); [by apply Hc|done]. }
  destruct x as [| | |[n|]]; simpl; eauto. case_bool_decide; [by subst|]. rewrite bool_decide_true by done. eauto.
Qed.
End client.
Arguments client : clear implicits.
Arguments making : clear implicits.

Section reconnect.
Context {M Proto Handle K : Type} `{MessageLaws M Proto}.
Context (object : K → Crypter) `{!∀ k, CrypterLaws (object k)}.
Implicit Types (c : client M Proto Handle K) (cs : Connection M Proto Handle K).


(** The receiver may read the new connection before
    [connect] has set its serial: then the first message the server sends again
    is refused, unless the client had received nothing before, and the
    connection is marked broken, also after [connect] has returned. *)
Theorem reconnect_race er now x c old cs b a m l con task hb :
  connection_ c = Some old → open_socket x c = Made con task hb → enableSerial_ (terminal c) = true →
  isOpen cs = true → msgBuffer_ cs = Some b → MessageBuffer.wf b → is_u32 (recvSerial_ cs) →
  MessageBuffer.bufMsglink_ b = (a, m) :: l → info_wf m →
  0 < recvSerial_ old → MessageBuffer.serial m = recvSerial_ old + 1 →
  (∃ rest, resend cs = m :: rest) ∧
  ∀ body, seal object (MessageBuffer.needCrypt m) (crypter_ cs) (plain m) = Some body →
    ∃ con', decode object er now con (head_of cs m body) body (zlen body) = Ok (con', body, None) ∧
      ∃ con2, connection_ (adopt con' c) = Some con2 ∧ decodeError_ con2 = true.
Proof.
  intros Hold Hmade Hser Ho Hb Hwf Hreq Hl Hm Hn Hs.
  assert (con = buildConnection (terminal c)) as ->.
  { unfold open_socket in Hmade. rewrite Hold in Hmade. destruct (isOpen old), x as [| | |[n|]]; simplify_eq/=; try done.
    by case_bool_decide; simplify_eq. }
  destruct (resend_first_gap object er now cs (buildConnection (terminal c)) b a m l) as [Hr Hdec]; try done.
  { change (MessageBuffer.serial m ≠ 1). lia. }
  split; [done|]. intros body Hbody. destruct (Hdec body Hbody) as (con' & Hd & He). exists con'. split; [done|].
  unfold adopt. rewrite Hold. simpl. eexists. split; [done|]. done.
Qed.
End reconnect.

(** The server has sent message 1, which it does not keep, and message 2; the
    client had got message 1 when the connection was lost. *)
Module ReconnectExample.
Import TerminalExample.
Definition old : connection := Resend.close (setRecvSerial 1 (buildConnection terminal)).
Definition lost : client Fixed64.msg unit nat unit := Client terminal (Some old).
Definition server : connection := conn s2.
Definition kept : MessageBuffer.t (content Fixed64.msg) := buffer_of s2.
Definition new : connection := setRecvSerial 1 (buildConnection terminal).

Lemma kept_wf : MessageBuffer.wf kept.
Proof. by destruct (reach_buffer s2 s2_reach) with (b := kept) as (Hwf & _); [vm_compute; reflexivity..|exact Hwf]. Qed.


Lemma reconnect_race_witness : (∃ rest, resend server = note 2 :: rest) ∧
  ∀ body, seal object false (crypter_ server) (plain (note 2)) = Some body →
    ∃ con', decode object LittleEndian 0 (buildConnection terminal) (head_of server (note 2) body) body (zlen body) = Ok (con', body, None) ∧
      ∃ con2, connection_ (adopt con' lost) = Some con2 ∧ decodeError_ con2 = true.
Proof.
  apply (reconnect_race object LittleEndian 0 Established lost old server kept 32 (note 2) [] _ onConnect (needHB_ terminal));
    try reflexivity.
  - apply kept_wf.
  - vm_compute. split; congruence.
  - unfold info_wf. simpl. split_and!; done.
Defined.
End ReconnectExample.
End ReconnectingClient.
