(* ===== verification/MessageClient.v ===== *)
(** * corpc_message_client.cpp: the polling client of a message server

    The variant of the client without [NEW_MESSAGE_CLIENT_IMPLEMENT].
    [TcpClient] polls its socket in one coroutine: it cuts what it reads into
    messages and checks and parses them, watches the heartbeats, and sends what
    the application has queued.  The file models [MessageClient] and the whole
    loop of [TcpClient::workRoutine].  The theorems compare the client with the other end of
    the connection, [MessageTerminal]: the inlined parser does what the
    receiving pipeline of the server does, as long as no message is larger than
    its buffer; the client gets what the terminal sends and the terminal gets
    what the client sends. *)
From stdpp Require Import gmap.
From S2P Require Import Prelude Define Crc Crypter MessageBuffer Pipeline Sending RpcWire Terminal Messaging.
Open Scope Z_scope.

Module MessageClient.
(** [MessageClient::MessageInfo]; [needCrypter] is written by [send] only. *)
Record MessageInfo (M : Type) : Type := Info {
  type : Z;
  tag : Z;
  proto : option M;
  needCrypter : option bool;
}.
Arguments Info {_} _ _ _ _.
Arguments type {_} _.
Arguments tag {_} _.
Arguments proto {_} _.
Arguments needCrypter {_} _.

(** What a call of [::write] does with the bytes it is given: it takes them all,
    or only some, or fails; and whether the call of [poll] that may follow
    fails. *)
Inductive written : Type := Everything | Only (n : Z) | WriteFailed.
Record io : Type := Io { took : written; poll_failed : bool }.

(** The socket: what the coming calls of [::write] and [poll] will do, and what
    was written so far. *)
Record socket : Type := Socket { script : list io; wire : bytes }.

Section client.
Context {M Proto K : Type} `{Message M Proto} (object : K → Crypter) (e : endian).

(** The fields of [MessageClient]; [closed] is set by [close], after which the
    coroutine returns. *)
Record t : Type := Make {
  needHB_ : bool;
  enableSendCRC_ : bool;
  enableRecvCRC_ : bool;
  enableSerial_ : bool;
  lastRecvSerial_ : Z;
  lastSendSerial_ : Z;
  crypter_ : option K;
  sendQueue_ : list (MessageInfo M);
  recvQueue_ : list (MessageInfo M);
  registerMessageMap_ : gmap Z (option Proto);
  lastRecvHBTime_ : Z;
  lastSendHBTime_ : Z;
  running_ : bool;
  closed : bool;
}.
Implicit Types (c : t).

(** The members that change. *)
Definition set_recvSerial (n : Z) c : t :=
  Make (needHB_ c) (enableSendCRC_ c) (enableRecvCRC_ c) (enableSerial_ c) n (lastSendSerial_ c) (crypter_ c)
    (sendQueue_ c) (recvQueue_ c) (registerMessageMap_ c) (lastRecvHBTime_ c) (lastSendHBTime_ c) (running_ c) (closed c).
Definition set_sendSerial (n : Z) c : t :=
  Make (needHB_ c) (enableSendCRC_ c) (enableRecvCRC_ c) (enableSerial_ c) (lastRecvSerial_ c) n (crypter_ c)
    (sendQueue_ c) (recvQueue_ c) (registerMessageMap_ c) (lastRecvHBTime_ c) (lastSendHBTime_ c) (running_ c) (closed c).
Definition set_sendQueue (q : list (MessageInfo M)) c : t :=
  Make (needHB_ c) (enableSendCRC_ c) (enableRecvCRC_ c) (enableSerial_ c) (lastRecvSerial_ c) (lastSendSerial_ c)
    (crypter_ c) q (recvQueue_ c) (registerMessageMap_ c) (lastRecvHBTime_ c) (lastSendHBTime_ c) (running_ c) (closed c).
Definition set_recvQueue (q : list (MessageInfo M)) c : t :=
  Make (needHB_ c) (enableSendCRC_ c) (enableRecvCRC_ c) (enableSerial_ c) (lastRecvSerial_ c) (lastSendSerial_ c)
    (crypter_ c) (sendQueue_ c) q (registerMessageMap_ c) (lastRecvHBTime_ c) (lastSendHBTime_ c) (running_ c) (closed c).
Definition set_recvHBTime (now : Z) c : t :=
  Make (needHB_ c) (enableSendCRC_ c) (enableRecvCRC_ c) (enableSerial_ c) (lastRecvSerial_ c) (lastSendSerial_ c)
    (crypter_ c) (sendQueue_ c) (recvQueue_ c) (registerMessageMap_ c) now (lastSendHBTime_ c) (running_ c) (closed c).
Definition set_sendHBTime (now : Z) c : t :=
  Make (needHB_ c) (enableSendCRC_ c) (enableRecvCRC_ c) (enableSerial_ c) (lastRecvSerial_ c) (lastSendSerial_ c)
    (crypter_ c) (sendQueue_ c) (recvQueue_ c) (registerMessageMap_ c) (lastRecvHBTime_ c) now (running_ c) (closed c).

(** [MessageClient::close] *)
Definition close c : t :=
  Make (needHB_ c) (enableSendCRC_ c) (enableRecvCRC_ c) (enableSerial_ c) (lastRecvSerial_ c) (lastSendSerial_ c)
    (crypter_ c) (sendQueue_ c) (recvQueue_ c) (registerMessageMap_ c) (lastRecvHBTime_ c) (lastSendHBTime_ c)
    (running_ c) true.

(** [MessageClient::stop] *)
Definition stop c : t :=
  Make (needHB_ c) (enableSendCRC_ c) (enableRecvCRC_ c) (enableSerial_ c) (lastRecvSerial_ c) (lastSendSerial_ c)
    (crypter_ c) (sendQueue_ c) (recvQueue_ c) (registerMessageMap_ c) (lastRecvHBTime_ c) (lastSendHBTime_ c)
    false (closed c).

(** The constructor, and [TcpClient::start] once the socket is connected at the
    time [now]. *)
Definition init (needHB enableSendCRC enableRecvCRC enableSerial : bool) (crypter : option K) (lastRecvSerial : Z) : t :=
  Make needHB enableSendCRC enableRecvCRC enableSerial lastRecvSerial 0 crypter [] [] ∅ 0 0 false false.
Definition start (now : Z) c : t :=
  let c := if needHB_ c then set_sendHBTime now (set_recvHBTime now c) else c in
  Make (needHB_ c) (enableSendCRC_ c) (enableRecvCRC_ c) (enableSerial_ c) (lastRecvSerial_ c) (lastSendSerial_ c)
    (crypter_ c) (sendQueue_ c) (recvQueue_ c) (registerMessageMap_ c) (lastRecvHBTime_ c) (lastSendHBTime_ c)
    true (closed c).

(** [MessageClient::send], [recv] and [registerMessage]; the result of [recv] is
    the type, the tag and the message. *)
Definition send (type tag : Z) (needCrypter : bool) (msg : option M) c : t :=
  set_sendQueue (sendQueue_ c ++ [Info type tag msg (Some needCrypter)]) c.
Definition recv c : t * (Z * Z * option M) :=
  match recvQueue_ c with
  | info :: q => (set_recvQueue q c, (type info, tag info, proto info))
  | [] => (c, (0, 0, None))
  end.
Definition registerMessage (type : Z) (p : option Proto) c : bool * t :=
  (false,
   match registerMessageMap_ c !! type with
   | Some _ => c
   | None =>
     Make (needHB_ c) (enableSendCRC_ c) (enableRecvCRC_ c) (enableSerial_ c) (lastRecvSerial_ c) (lastSendSerial_ c)
       (crypter_ c) (sendQueue_ c) (recvQueue_ c) (<[type := p]> (registerMessageMap_ c)) (lastRecvHBTime_ c)
       (lastSendHBTime_ c) (running_ c) (closed c)
   end).

(** ** Receiving *)

(** The serial of a message with a type that is not negative; [false] is a
    mismatch. *)
Definition check_serial c (headBuf : bytes) : outcome (t * bool) :=
  if enableSerial_ c then
    serial ← get_be32 e headBuf 16;
    if bool_decide (serial ≠ 0) then
      if bool_decide (serial ≠ u32 (lastRecvSerial_ c + 1)) then Ok (c, false)
      else Ok (set_recvSerial (u32 (lastRecvSerial_ c + 1)) c, true)
    else Ok (c, true)
  else Ok (c, true).

(** The checksum and the decryption of a body that is not empty; [None] closes
    the connection. *)
Definition check_body c (headBuf bodyBuf : bytes) (bodySize flag : Z) : outcome (option bytes) :=
  if bool_decide (bodySize > 0) then
    crc_ok ←
      (if enableRecvCRC_ c then
         crc ← get_be16 e headBuf 20;
         bs ← memread bodyBuf 0 bodySize;
         crc1 ← CRC.CheckSum bs 0xFFFF bodySize;
         Ok (bool_decide (crc = crc1))
       else Ok true);
    if negb crc_ok then Ok None else
    if negb (bool_decide (Z.land flag CORPC_MESSAGE_FLAG_CRYPT = 0)) then
      match crypter_ c with
      | None => Ok None
      | Some k => bodyBuf ← decrypt (object k) bodyBuf 0 0 bodySize; Ok (Some bodyBuf)
      end
    else Ok (Some bodyBuf)
  else Ok (Some bodyBuf).

(** The message itself; [None] closes the connection. *)
Definition parse_message c (bodyBuf : bytes) (bodySize msgType : Z) : outcome (option (option M)) :=
  match registerMessageMap_ c !! msgType with
  | None => Ok None
  | Some p =>
    if bool_decide (bodySize > 0) then
      p ← deref p;
      bs ← memread bodyBuf 0 bodySize;
      Ok (Some <$> ParseFromArray p bs)
    else Ok (Some None)
  end.

(** A message whose serial is right goes to the queue of the application. *)
Definition accept_message c (headBuf bodyBuf : bytes) (bodySize msgType tag flag : Z) : outcome (t * bytes) :=
  body ← check_body c headBuf bodyBuf bodySize flag;
  match body with
  | None => Ok (close c, bodyBuf)
  | Some bodyBuf =>
    msg ← parse_message c bodyBuf bodySize msgType;
    match msg with
    | None => Ok (close c, bodyBuf)
    | Some msg => Ok (set_recvQueue (recvQueue_ c ++ [Info msgType tag msg None]) c, bodyBuf)
    end
  end.

(** A complete message ([bodyNum == bodySize]); [now] is what [lastRecvHBTime_]
    is set to by a heartbeat. *)
Definition handle (now : Z) c (headBuf bodyBuf : bytes) (bodySize msgType tag flag : Z) : outcome (t * bytes) :=
  if bool_decide (msgType = CORPC_MSG_TYPE_HEARTBEAT) then
    _ ← require (bodySize = 0); Ok (set_recvHBTime now c, bodyBuf)
  else if bool_decide (msgType < 0) then Ok (c, bodyBuf)
  else
    '(c, ok) ← check_serial c headBuf;
    if ok : bool then accept_message c headBuf bodyBuf bodySize msgType tag flag
    else Ok (close c, bodyBuf).

(** The local variables of [TcpClient::workRoutine] that live from one read to
    the next. *)
Record locals : Type := Locals {
  headBuf : bytes;
  headNum : Z;
  bodyBuf : bytes;
  bodyNum : Z;
  bodySize : Z;
  msgType : Z;
  ltag : Z;
  flag : Z;
  self : t;
}.
Definition init_locals c : locals :=
  Locals (zeros CORPC_MESSAGE_HEAD_SIZE) 0 (zeros CORPC_MAX_MESSAGE_SIZE) 0 0 0 0 0 c.

(** The bytes missing in the head, or all that remain, are copied. *)
Definition copy_head (buf : bytes) (s : locals) (readNum remainNum : Z) : outcome (locals * Z * Z) :=
  let need := CORPC_MESSAGE_HEAD_SIZE - headNum s in
  if bool_decide (remainNum <= need) then
    hb ← memcpy (headBuf s) (headNum s) buf readNum remainNum;
    Ok (Locals hb (headNum s + remainNum) (bodyBuf s) (bodyNum s) (bodySize s) (msgType s) (ltag s) (flag s) (self s),
        readNum + remainNum, 0)
  else
    hb ← memcpy (headBuf s) (headNum s) buf readNum need;
    Ok (Locals hb CORPC_MESSAGE_HEAD_SIZE (bodyBuf s) (bodyNum s) (bodySize s) (msgType s) (ltag s) (flag s) (self s),
        readNum + need, remainNum - need).

(** The head; the last component is [false] for the [break] of a head that is
    not complete. *)
Definition parse_head (buf : bytes) (s : locals) (readNum remainNum : Z) : outcome (locals * Z * Z * bool) :=
  if bool_decide (headNum s < CORPC_MESSAGE_HEAD_SIZE) then
    '(s, readNum, remainNum) ← copy_head buf s readNum remainNum;
    if bool_decide (headNum s = CORPC_MESSAGE_HEAD_SIZE) then
      bodySize ← get_be32 e (headBuf s) 0;
      msgType ← get_be32 e (headBuf s) 4;
      tag ← get_be16 e (headBuf s) 8;
      flag ← get_be16 e (headBuf s) 10;
      Ok (Locals (headBuf s) (headNum s) (bodyBuf s) (bodyNum s) bodySize (i32 msgType) tag flag (self s),
          readNum, remainNum, true)
    else _ ← require (remainNum = 0); Ok (s, readNum, remainNum, false)
  else Ok (s, readNum, remainNum, true).

(** The body: no bound on [bodySize] is checked. *)
Definition parse_body (buf : bytes) (s : locals) (readNum remainNum : Z) : outcome (locals * Z * Z) :=
  if bool_decide (remainNum > 0) && bool_decide (u32 (bodyNum s) < bodySize s) then
    let need := u32 (bodySize s - bodyNum s) in
    if bool_decide (remainNum <= need) then
      bb ← memcpy (bodyBuf s) (bodyNum s) buf readNum remainNum;
      Ok (Locals (headBuf s) (headNum s) bb (bodyNum s + remainNum) (bodySize s) (msgType s) (ltag s) (flag s) (self s),
          readNum + remainNum, 0)
    else
      bb ← memcpy (bodyBuf s) (bodyNum s) buf readNum need;
      Ok (Locals (headBuf s) (headNum s) bb (i32 (bodySize s)) (bodySize s) (msgType s) (ltag s) (flag s) (self s),
          readNum + need, remainNum - need)
  else Ok (s, readNum, remainNum).

(** One round of [while (remainNum)]; the last component is [false] when the
    loop is left by [break] or the coroutine has returned. *)
Definition parse_round (now : Z) (buf : bytes) (s : locals) (readNum remainNum : Z) : outcome (locals * Z * Z * bool) :=
  '(s, readNum, remainNum, go) ← parse_head buf s readNum remainNum;
  if negb go then Ok (s, readNum, remainNum, false) else
  '(s, readNum, remainNum) ← parse_body buf s readNum remainNum;
  if bool_decide (u32 (bodyNum s) = bodySize s) then
    '(c, bb) ← handle now (self s) (headBuf s) (bodyBuf s) (bodySize s) (msgType s) (ltag s) (flag s);
    if closed c then Ok (Locals (headBuf s) (headNum s) bb (bodyNum s) (bodySize s) (msgType s) (ltag s) (flag s) c,
                         readNum, remainNum, false)
    else Ok (Locals (headBuf s) 0 bb 0 0 0 (ltag s) (flag s) c, readNum, remainNum, true)
  else Ok (s, readNum, remainNum, true).

Fixpoint parse_loop (fuel : nat) (now : Z) (buf : bytes) (s : locals) (readNum remainNum : Z) : outcome locals :=
  if bool_decide (remainNum ≠ 0) then
    match fuel with
    | O => Fault OutOfFuel
    | S fuel =>
      '(s, readNum, remainNum, go) ← parse_round now buf s readNum remainNum;
      if go : bool then parse_loop fuel now buf s readNum remainNum else Ok s
    end
  else Ok s.

(** What [read] returned is parsed. *)
Definition receive (now : Z) (buf : bytes) (size : Z) (s : locals) : outcome locals :=
  parse_loop (Z.to_nat size) now buf s 0 size.

(** ** Sending *)

(** The head of a message whose body of [msgSize] bytes is in place, at
    [sendNum]: serials and checksum are written only when they are enabled. *)
Definition put_head c (info : MessageInfo M) (msgSize flag : Z) (buf : bytes) (sendNum : Z) : outcome (t * bytes) :=
  buf ← put_be16 e buf (sendNum + 10) flag;
  buf ← put_be32 e buf sendNum msgSize;
  buf ← put_be32 e buf (sendNum + 4) (u32 (type info));
  buf ← put_be16 e buf (sendNum + 8) (tag info);
  '(c, buf) ←
    (if enableSerial_ c then
       buf ← put_be32 e buf (sendNum + 12) (lastRecvSerial_ c);
       let c := set_sendSerial (u32 (lastSendSerial_ c + 1)) c in
       buf ← put_be32 e buf (sendNum + 16) (lastSendSerial_ c);
       Ok (c, buf)
     else Ok (c, buf));
  Ok (c, buf).

(** The body, encrypted in place; the result is the buffer and the flag. *)
Definition put_body c (info : MessageInfo M) (m : M) (msgSize : Z) (buf : bytes) (sendNum : Z) : outcome (bytes * Z) :=
  let at_body := sendNum + CORPC_MESSAGE_HEAD_SIZE in
  buf ← memcpy buf at_body (Serialize m) 0 (zlen (Serialize m));
  crypt ← match needCrypter info with Some b => Ok b | None => Fault Uninitialized end;
  if crypt : bool then
    _ ← require (crypter_ c ≠ None);
    k ← deref (crypter_ c);
    buf ← encrypt (object k) buf at_body at_body msgSize;
    Ok (buf, CORPC_MESSAGE_FLAG_CRYPT)
  else Ok (buf, 0).

(** A message at [sendNum]. *)
Definition put_message c (info : MessageInfo M) (m : M) (msgSize : Z) (buf : bytes) (sendNum : Z) : outcome (t * bytes) :=
  '(buf, flag) ← put_body c info m msgSize buf sendNum;
  '(c, buf) ← put_head c info msgSize flag buf sendNum;
  if enableSendCRC_ c then
    bs ← memread buf (sendNum + CORPC_MESSAGE_HEAD_SIZE) msgSize;
    crc ← CRC.CheckSum bs 0xFFFF msgSize;
    buf ← put_be16 e buf (sendNum + 20) crc;
    Ok (c, buf)
  else Ok (c, buf).

(** [while (writeNum < sendNum)]: every call of [::write] is given [sendNum]
    bytes from [writeNum] on.  The result is [false] when a call failed. *)
Fixpoint flush_loop (script : list io) (wire buf : bytes) (writeNum sendNum : Z) : outcome (bool * socket) :=
  if bool_decide (writeNum < sendNum) then
    match script with
    | [] => Fault OutOfFuel
    | Io r pf :: script =>
      match r with
      | WriteFailed => Ok (false, Socket script wire)
      | _ =>
        let ret := match r with Only n => n | _ => sendNum end in
        bs ← memread buf writeNum ret;
        let wire := wire ++ bs in
        let writeNum := writeNum + ret in
        if bool_decide (writeNum < sendNum) && pf then Ok (false, Socket script wire)
        else flush_loop script wire buf writeNum sendNum
      end
    end
  else Ok (true, Socket script wire).
Definition flush (sock : socket) (buf : bytes) (sendNum : Z) : outcome (bool * socket) :=
  flush_loop (script sock) (wire sock) buf 0 sendNum.

(** [MessageInfo *info = self->sendQueue_.pop()] *)
Definition pop_send c : option (MessageInfo M) * t :=
  match sendQueue_ c with
  | info :: q => (Some info, set_sendQueue q c)
  | [] => (None, c)
  end.

(** [while (info)]: messages are put behind each other until the next one does
    not fit or none is left, and then written.  The fuel is the number of
    rounds. *)
Fixpoint send_loop (fuel : nat) (info : option (MessageInfo M)) c (buf : bytes) (sendNum : Z) (sock : socket)
    : outcome (t * bytes * socket) :=
  match info with
  | None => Ok (c, buf, sock)
  | Some x =>
    match fuel with
    | O => Fault OutOfFuel
    | S fuel =>
      m ← deref (proto x);
      let msgSize := u32 (message_size m) in
      if bool_decide (u32 (msgSize + CORPC_MESSAGE_HEAD_SIZE) > CORPC_MAX_MESSAGE_SIZE) then Ok (close c, buf, sock) else
      '(info, c, buf, sendNum, more) ←
        (if bool_decide (u32 (msgSize + CORPC_MESSAGE_HEAD_SIZE) <= u32 (CORPC_MAX_MESSAGE_SIZE - sendNum)) then
           '(c, buf) ← put_message c x m msgSize buf sendNum;
           let '(info, c) := pop_send c in
           Ok (info, c, buf, sendNum + (msgSize + CORPC_MESSAGE_HEAD_SIZE), bool_decide (info ≠ None))
         else Ok (Some x, c, buf, sendNum, false));
      if more : bool then send_loop fuel info c buf sendNum sock else
      '(ok, sock) ← flush sock buf sendNum;
      if ok : bool then send_loop fuel info c buf 0 sock else Ok (close c, buf, sock)
    end
  end.
Definition send_all c (buf : bytes) (sock : socket) : outcome (t * bytes * socket) :=
  let '(info, c) := pop_send c in
  send_loop (2 * length (sendQueue_ c) + 2) info c buf 0 sock.

(** ** Heartbeats and the whole loop *)

(** The heartbeat message: [heartbeatmsg] with the serial written into it. *)
Definition heartbeatmsg : outcome bytes :=
  put_be32 e (zeros CORPC_MESSAGE_HEAD_SIZE) 4 (u32 CORPC_MSG_TYPE_HEARTBEAT).

(** One call of [::write] that has to take everything. *)
Definition write_once (sock : socket) (bs : bytes) : outcome (bool * socket) :=
  match script sock with
  | [] => Fault OutOfFuel
  | Io r _ :: script =>
    match r with
    | WriteFailed => Ok (false, Socket script (wire sock))
    | Only n => Ok (bool_decide (n = zlen bs), Socket script (wire sock ++ ztake n bs))
    | Everything => Ok (true, Socket script (wire sock ++ bs))
    end
  end.

Definition heartbeat (nowms : Z) c (hb : bytes) (sock : socket) : outcome (t * bytes * socket) :=
  if negb (needHB_ c) then Ok (c, hb, sock) else
  if bool_decide (u64 (nowms - lastRecvHBTime_ c) > CORPC_MAX_NO_HEARTBEAT_TIME) then Ok (close c, hb, sock) else
  if bool_decide (u64 (nowms - lastSendHBTime_ c) > CORPC_HEARTBEAT_PERIOD) then
    hb ← (if enableSerial_ c then put_be32 e hb 12 (lastRecvSerial_ c) else Ok hb);
    '(ok, sock) ← write_once sock hb;
    if ok : bool then Ok (set_sendHBTime nowms c, hb, sock) else Ok (close c, hb, sock)
  else Ok (c, hb, sock).

(** What the system calls of one round return: [poll] finds nothing, fails
    (again later, or for good), or finds data, which [read] then returns, or
    fails to return, or finds the connection closed. *)
Inductive input : Type :=
  | PollNothing
  | PollAgain
  | PollError
  | ReadData (buf : bytes)
  | ReadAgain
  | ReadError.

(** The state of [TcpClient::workRoutine]: its local variables with the client,
    the buffer it reads into and sends from, the heartbeat message, the socket. *)
Record work : Type := Work { vars : locals; iobuf : bytes; hbmsg : bytes; sock : socket }.

Definition set_self (c : t) (s : locals) : locals :=
  Locals (headBuf s) (headNum s) (bodyBuf s) (bodyNum s) (bodySize s) (msgType s) (ltag s) (flag s) c.

(** What [read] puts into the buffer. *)
Definition read_into (buf data : bytes) : bytes := data ++ zdrop (zlen data) buf.

(** The part of a round behind the receiving. *)
Definition send_part (nowms : Z) (w : work) : outcome work :=
  '(c, hb, sk) ← heartbeat nowms (self (vars w)) (hbmsg w) (sock w);
  if closed c then Ok (Work (set_self c (vars w)) (iobuf w) hb sk) else
  '(c, buf, sk) ← send_all c (iobuf w) sk;
  Ok (Work (set_self c (vars w)) buf hb sk).

(** One round of [while (self->running_)] at the time [now]. *)
Definition work_round (now : Z) (i : input) (w : work) : outcome work :=
  let nowms := if needHB_ (self (vars w)) then now else 0 in
  match i with
  | PollAgain | ReadAgain => Ok w
  | PollError | ReadError => Ok (Work (set_self (close (self (vars w))) (vars w)) (iobuf w) (hbmsg w) (sock w))
  | PollNothing => send_part nowms w
  | ReadData data =>
    let buf := read_into (iobuf w) data in
    s ← receive nowms buf (zlen data) (vars w);
    let w := Work s buf (hbmsg w) (sock w) in
    if closed (self s) then Ok w else send_part nowms w
  end.

(** What the application has queued with [send] when a round begins. *)
Definition push_all (xs : list (MessageInfo M)) (w : work) : work :=
  Work (set_self (set_sendQueue (sendQueue_ (self (vars w)) ++ xs) (self (vars w))) (vars w)) (iobuf w) (hbmsg w) (sock w).

(** [TcpClient::workRoutine] on a list of rounds, each with its time, the
    messages queued since the last one, and what the system calls return. *)
Fixpoint workRoutine (rounds : list (Z * list (MessageInfo M) * input)) (w : work) : outcome work :=
  match rounds with
  | [] => Ok w
  | (now, xs, i) :: rounds =>
    if closed (self (vars w)) then Ok w else
    let w := push_all xs w in
    if negb (running_ (self (vars w))) then
      Ok (Work (set_self (close (self (vars w))) (vars w)) (iobuf w) (hbmsg w) (sock w))
    else w ← work_round now i w; workRoutine rounds w
  end.
Definition init_work c (sk : socket) : outcome work :=
  hb ← heartbeatmsg;
  Ok (Work (init_locals c) (zeros (CORPC_MESSAGE_HEAD_SIZE + CORPC_MAX_MESSAGE_SIZE)) hb sk).
End client.
Arguments t : clear implicits.
Arguments work : clear implicits.
Arguments locals : clear implicits.

(** ** The parser is the receiving pipeline *)
Section parser.
Context {M Proto K : Type} `{Message M Proto} (object : K → Crypter) `{!∀ k, CrypterLaws (object k)} (e : endian).
Implicit Types (c : t M Proto K) (s : locals M Proto K).

(** Handling a message, in the form of the decoders of the pipelines. *)
Definition decode (now : Z) c (head body : bytes) (size : Z) : outcome (t M Proto K * bytes * option unit) :=
  msgType ← get_be32 e head 4;
  tag ← get_be16 e head 8;
  flag ← get_be16 e head 10;
  '(c, body) ← handle object e now c head body size (i32 msgType) tag flag;
  Ok (c, body, None).

Lemma check_body_prefix c head body size flag : Forall is_byte body → 0 ≤ size ≤ zlen body →
  match check_body object e c head (ztake size body) size flag with
  | Ok None => check_body object e c head body size flag = Ok None
  | Ok (Some b) => ∃ body', check_body object e c head body size flag = Ok (Some body') ∧ zlen body' = zlen body ∧
      Forall is_byte body' ∧ ztake size body' = b
  | Fault f => check_body object e c head body size flag = Fault f
  end.
Proof.
  intros Hb Hs. unfold check_body. case_bool_decide; [|eauto].
  rewrite (memread_front body), (memread_front (ztake size body)), ztake_ztake, Z.min_id by zlen.
  destruct (if enableRecvCRC_ c then _ else _) as [[|]|f]; cbn [mbind outcome_bind negb]; [|done|done].
  destruct (negb _); [|eauto]. destruct (crypter_ c) as [k|]; [|done].
  destruct (MessageTerminal.decrypt_prefix object k body size Hb Hs) as (-> & body' & -> & ? & ? & ?). simpl. eauto.
Qed.

Lemma parse_message_prefix c body size msgType : 0 ≤ size ≤ zlen body →
  parse_message c body size msgType = parse_message c (ztake size body) size msgType.
Proof.
  intros. unfold parse_message.
  rewrite (memread_front body), (memread_front (ztake size body)), ztake_ztake, Z.min_id by zlen. done.
Qed.

#[global] Program Instance decoder now : Decoder CORPC_MESSAGE_HEAD_SIZE (decode now) := {|
  is_error c := closed c;
  decode_frame := frame_of (decode now);
|}.
Next Obligation.
  intros now c head body size Hl Hh Hb Hs. unfold frame_of.
  assert (zlen (ztake size body) = size) as -> by zlen.
  unfold CORPC_MESSAGE_HEAD_SIZE in Hl. unfold decode.
  rewrite !get_be32_ok, !get_be16_ok by (done || lia). cbn [mbind outcome_bind]. unfold handle.
  case_bool_decide. { destruct (require (size = 0)); simpl; eauto. }
  case_bool_decide; [simpl; eauto|].
  destruct (check_serial e c head) as [[c1 [|]]|f]; cbn [mbind outcome_bind]; [|eauto|done]. unfold accept_message.
  pose proof (check_body_prefix c1 head body size (be_val (slice 10 2 head)) Hb Hs) as Hck.
  destruct (check_body object e c1 head (ztake size body) size _) as [[b|]|f]; cbn [mbind outcome_bind].
  - destruct Hck as (body' & -> & Hl' & Hb' & <-). cbn [mbind outcome_bind].
    rewrite (parse_message_prefix c1 body') by lia.
    destruct (parse_message c1 _ size _) as [[msg|]|f]; simpl; eauto.
  - rewrite Hck. simpl. eauto.
  - by rewrite Hck.
Qed.

(** The members of a pipeline that the local variables stand for, and the
    variables that only the client has. *)
Definition pipe_of s : TcpPipeline.t (t M Proto K) unit :=
  TcpPipeline.Make (headBuf s) (headNum s) (bodyBuf s) (bodySize s) (bodyNum s) (self s) [].
Definition fields_ok s : Prop := headNum s = CORPC_MESSAGE_HEAD_SIZE →
  (i32 <$> get_be32 e (headBuf s) 4) = Ok (msgType s) ∧ get_be16 e (headBuf s) 8 = Ok (ltag s) ∧
  get_be16 e (headBuf s) 10 = Ok (flag s).

Abbreviation wf := (TcpPipeline.wf CORPC_MESSAGE_HEAD_SIZE CORPC_MAX_MESSAGE_SIZE 0 FOUR_BYTES).
Abbreviation upflow_round now :=
  (TcpPipeline.upflow_round e CORPC_MESSAGE_HEAD_SIZE CORPC_MAX_MESSAGE_SIZE 0 FOUR_BYTES (decode now)).
Abbreviation upflow_loop now :=
  (TcpPipeline.upflow_loop e CORPC_MESSAGE_HEAD_SIZE CORPC_MAX_MESSAGE_SIZE 0 FOUR_BYTES (decode now)).

Context (buf : bytes) (size : Z).
Context (Hbuf : Forall is_byte buf) (Hsize : 0 ≤ size ≤ zlen buf) (Hint : size < 2^31).

Lemma memcpy_0 (dst src : bytes) k off : 0 ≤ k ≤ zlen dst → 0 ≤ off ≤ zlen src → memcpy dst k src off 0 = Ok dst.
Proof. intros. rewrite memcpy_ok by lia. by rewrite slice_0, Z.add_0_r, app_nil_l, ztake_zdrop. Qed.

(** A head that is completed. *)
Lemma copy_head_full s off hb : let need := CORPC_MESSAGE_HEAD_SIZE - headNum s in
  need ≤ size - off → memcpy (headBuf s) (headNum s) buf off need = Ok hb →
  copy_head buf s off (size - off) =
    Ok (Locals hb CORPC_MESSAGE_HEAD_SIZE (bodyBuf s) (bodyNum s) (bodySize s) (msgType s) (ltag s) (flag s) (self s),
        off + need, size - (off + need)).
Proof.
  intros need Hn Hcpy. unfold copy_head. fold need. case_bool_decide.
  - replace (size - off) with need by lia. rewrite Hcpy. simpl. do 2 f_equal; [f_equal|]; unfold need; [f_equal|]; lia.
  - rewrite Hcpy. simpl. do 2 f_equal. lia.
Qed.

(** The head of a message. *)
Lemma parse_head_sim s off : wf (pipe_of s) → fields_ok s → 0 ≤ off < size →
  (∃ p s', TcpPipeline.parse_head CORPC_MESSAGE_HEAD_SIZE buf size (pipe_of s) off = Ok (p, None) ∧
     parse_head e buf s off (size - off) = Ok (s', size, 0, false) ∧ pipe_of s' = p ∧ fields_ok s') ∨
  (∃ p s' off', TcpPipeline.parse_head CORPC_MESSAGE_HEAD_SIZE buf size (pipe_of s) off = Ok (p, Some off') ∧
     parse_head e buf s off (size - off) = Ok (s', off', size - off', true) ∧ fields_ok s' ∧
     TcpPipeline.parse_size e CORPC_MAX_MESSAGE_SIZE 0 FOUR_BYTES p =
       Ok (pipe_of s', negb (bool_decide (bodySize s' > CORPC_MAX_MESSAGE_SIZE))) ∧
     headNum s' = CORPC_MESSAGE_HEAD_SIZE ∧ zlen (bodyBuf s') = CORPC_MAX_MESSAGE_SIZE ∧
     Forall is_byte (bodyBuf s') ∧ off ≤ off' ≤ size ∧ 0 ≤ bodyNum s' ≤ bodySize s').
Proof using Hbuf Hsize Hint.
  intros [[Hhl Hbl Hhb Hbb] Hc] Hf Ho. simpl in *. unfold TcpPipeline.parse_head, parse_head. simpl.
  destruct Hc as [(Hn & Hbs & Hbn)|(Hn & Hbs & Hbn & Hmax)].
  - rewrite !bool_decide_true by lia. rewrite (u32_small (_ - _)), i32_small by (unfold CORPC_MESSAGE_HEAD_SIZE in *; lia).
    set (need := CORPC_MESSAGE_HEAD_SIZE - headNum s) in *.
    destruct (TcpPipeline.fill_more buf size Hbuf Hsize (headBuf s) (headNum s) (Z.min need (size - off)) off)
      as (hb & Hcpy & Hl & Hb & _); [lia..|done|lia|lia|].
    destruct (decide (size - off < need)) as [Hshort|Hlong].
    + rewrite Z.min_r in Hcpy by lia. unfold copy_head. fold need. rewrite bool_decide_false, bool_decide_true, Hcpy by lia.
      cbn [mbind outcome_bind]. rewrite bool_decide_false by (simpl; lia).
      rewrite require_true by done. cbn [mbind outcome_bind]. left. eexists _, _. split; [done|]. split; [|split].
      * repeat f_equal. lia.
      * unfold TcpPipeline.set_head, pipe_of. simpl. f_equal. rewrite u32_small; [done|unfold CORPC_MESSAGE_HEAD_SIZE in *; lia].
      * unfold fields_ok. simpl. lia.
    + rewrite Z.min_l in Hcpy by lia. rewrite bool_decide_true, Hcpy by lia. cbn [mbind outcome_bind]. right.
      pose proof (TcpPipeline.field_nonneg 0 FOUR_BYTES hb Hb) as Hfn.
      eexists _, (Locals hb CORPC_MESSAGE_HEAD_SIZE (bodyBuf s) (bodyNum s) (be_val (slice 0 4 hb))
        (i32 (be_val (slice 4 4 hb))) (be_val (slice 8 2 hb)) (be_val (slice 10 2 hb)) (self s)), (off + need).
      split; [done|]. unfold CORPC_MESSAGE_HEAD_SIZE in *. split; [|split; [|split]].
      * rewrite (copy_head_full s off hb) by (done || unfold CORPC_MESSAGE_HEAD_SIZE; lia).
        cbn [mbind outcome_bind]. rewrite bool_decide_true by done.
        rewrite !get_be32_ok, !get_be16_ok by (simpl; done || lia). done.
      * intros _. simpl. rewrite !get_be32_ok, !get_be16_ok by (done || lia). done.
      * unfold TcpPipeline.parse_size. simpl. rewrite Hbs, bool_decide_true by done. rewrite get_be32_ok by (done || lia). done.
      * simpl in *. unfold TcpPipeline.field in Hfn. simpl in Hfn. split_and!; lia || done.
  - rewrite !bool_decide_false by lia. right. exists (pipe_of s), s, off. split_and!; try done; try lia.
    unfold TcpPipeline.parse_size. simpl. rewrite (bool_decide_false (bodySize s = 0)) by lia.
    rewrite (bool_decide_false (bodySize s > _)) by lia. done.
Qed.

(** The body of a message that fits the buffer. *)
Lemma parse_body_sim s off : zlen (bodyBuf s) = CORPC_MAX_MESSAGE_SIZE → Forall is_byte (bodyBuf s) →
  0 ≤ bodyNum s ≤ bodySize s → bodySize s ≤ CORPC_MAX_MESSAGE_SIZE → 0 ≤ off ≤ size →
  ∃ s' off' r, TcpPipeline.parse_body buf size (pipe_of s) off = Ok (pipe_of s', r) ∧
    parse_body buf s off (size - off) = Ok (s', off', size - off') ∧
    r = (if bool_decide (u32 (bodyNum s') = bodySize s') then Some off' else None) ∧
    (r = None → off' = size) ∧ headBuf s' = headBuf s ∧ headNum s' = headNum s ∧ self s' = self s ∧ bodySize s' = bodySize s ∧
    (fields_ok s → fields_ok s').
Proof using Hbuf Hsize Hint.
  intros Hbl Hbb Hbn Hmax Ho. unfold CORPC_MAX_MESSAGE_SIZE in *.
  unfold TcpPipeline.parse_body, parse_body. simpl. rewrite (u32_small (bodyNum s)) by lia.
  destruct (decide (bodyNum s < bodySize s)) as [Hlt|Hge].
  2: { rewrite bool_decide_false by lia. rewrite andb_false_r. exists s, off, (Some off). split_and!; try done.
       rewrite u32_small, bool_decide_true by lia. done. }
  rewrite !bool_decide_true by lia. rewrite andb_true_r. rewrite !(u32_small (bodySize s - bodyNum s)), !i32_small by lia.
  set (need := bodySize s - bodyNum s) in *.
  destruct (TcpPipeline.fill_more buf size Hbuf Hsize (bodyBuf s) (bodyNum s) (Z.min need (size - off)) off)
    as (bb & Hcpy & Hl & Hb & _); [lia..|done|lia|lia|].
  destruct (decide (need ≤ size - off)) as [Hfull|Hpart].
  - rewrite Z.min_l in Hcpy by lia. rewrite (bool_decide_true (size - off >= need)), Hcpy by lia. rewrite bool_decide_true by lia.
    exists (Locals (headBuf s) (headNum s) bb (bodySize s) (bodySize s) (msgType s) (ltag s) (flag s) (self s)),
      (off + need), (Some (off + need)).
    split; [done|]. split; [|split; [|done]].
    + case_bool_decide.
      * replace (size - off) with need by lia. rewrite Hcpy. simpl.
        replace (bodyNum s + need) with (bodySize s) by (unfold need; lia). do 2 f_equal. lia.
      * simpl. do 2 f_equal. lia.
    + simpl. rewrite u32_small, bool_decide_true by lia. done.
  - rewrite Z.min_r in Hcpy by lia. rewrite (bool_decide_false (size - off >= need)), Hcpy by lia.
    exists (Locals (headBuf s) (headNum s) bb (bodyNum s + (size - off)) (bodySize s) (msgType s) (ltag s) (flag s) (self s)), size, None.
    split; [unfold TcpPipeline.set_body, pipe_of; simpl; rewrite u32_small by lia; done|].
    split; [|split; [simpl; rewrite u32_small, bool_decide_false by lia; done|done]].
    case_bool_decide.
    + rewrite (bool_decide_true (size - off ≤ need)) by lia. simpl. do 2 f_equal; [f_equal|]; lia.
    + assert (off = size) as -> by lia. rewrite Z.sub_diag, memcpy_0 in Hcpy by lia. injection Hcpy as <-.
      rewrite Z.sub_diag, Z.add_0_r. by destruct s.
Qed.

(** One round of the client is one round of the pipeline, but for a message
    that is too large. *)
Lemma round_sim now s off : wf (pipe_of s) → fields_ok s → 0 ≤ off < size →
  match upflow_round now buf size (pipe_of s) off with
  | Ok (TcpPipeline.Continue p off') =>
      ∃ s', parse_round object e now buf s off (size - off) = Ok (s', off', size - off', true) ∧ pipe_of s' = p ∧ fields_ok s'
  | Ok (TcpPipeline.Break p) =>
      ∃ s' go, parse_round object e now buf s off (size - off) = Ok (s', size, 0, go) ∧ pipe_of s' = p ∧ fields_ok s'
  | Ok (TcpPipeline.Return p b) =>
      CORPC_MAX_MESSAGE_SIZE < TcpPipeline.bodySize_ p ∨
      ∃ s' o r, parse_round object e now buf s off (size - off) = Ok (s', o, r, false) ∧
        self s' = TcpPipeline.conn p ∧ closed (self s') = true
  | Fault f => parse_round object e now buf s off (size - off) = Fault f
  end.
Proof using Hbuf Hsize Hint.
  intros Hwf Hf Ho. unfold TcpPipeline.upflow_round, parse_round.
  destruct (parse_head_sim s off Hwf Hf Ho)
    as [(p & s1 & -> & -> & <- & Hf1)|(p & s1 & off1 & -> & -> & Hf1 & Hps & Hn1 & Hbl1 & Hbb1 & Ho1 & Hbn1)];
    cbn [mbind outcome_bind negb]; [by exists s1, false|].
  rewrite Hps. cbn [mbind outcome_bind]. rewrite negb_involutive. case_bool_decide as Hbig.
  { left. simpl. lia. }
  destruct (parse_body_sim s1 off1) as (s2 & off2 & r & -> & -> & -> & Hr & Hh2 & Hn2 & Hs2 & Hbs2 & Hf2); [done|done|lia|lia|lia|].
  cbn [mbind outcome_bind]. case_bool_decide as Hfull.
  2: { exists s2, true. rewrite Hr, Z.sub_diag by done. auto. }
  unfold TcpPipeline.deliver, decode. simpl. destruct (Hf2 Hf1 ltac:(congruence)) as (H1 & H2 & H3).
  destruct (get_be32 e (headBuf s2) 4) as [ty|]; [|done]. simpl in H1. injection H1 as H1.
  rewrite H2, H3. cbn [mbind outcome_bind]. rewrite H1, i32_small by (unfold CORPC_MAX_MESSAGE_SIZE in *; lia).
  destruct (handle _ _ _ _ _ _ _ _ _ _) as [[c bb]|f]; cbn [mbind outcome_bind]; [|done].
  change (is_error c) with (closed c). destruct (closed c) eqn:Ec.
  - right. eauto 10.
  - eexists. split; [done|]. split; [done|]. intros E. by simpl in E.
Qed.

Lemma loop_sim fuel now s off : wf (pipe_of s) → fields_ok s → 0 ≤ off ≤ size → (Z.to_nat (size - off) ≤ fuel)%nat →
  match upflow_loop now fuel buf size (pipe_of s) off with
  | Ok (p, true) => ∃ s', parse_loop object e fuel now buf s off (size - off) = Ok s' ∧ pipe_of s' = p ∧ fields_ok s'
  | Ok (p, false) => CORPC_MAX_MESSAGE_SIZE < TcpPipeline.bodySize_ p ∨
      ∃ s', parse_loop object e fuel now buf s off (size - off) = Ok s' ∧ self s' = TcpPipeline.conn p ∧ closed (self s') = true
  | Fault f => parse_loop object e fuel now buf s off (size - off) = Fault f
  end.
Proof using Hbuf Hsize Hint.
  revert s off. induction fuel as [|fuel IH]; intros s off Hwf Hf Ho Hfuel.
  { cbn [TcpPipeline.upflow_loop parse_loop]. rewrite !bool_decide_false by lia. eauto. }
  cbn [TcpPipeline.upflow_loop parse_loop]. case_bool_decide as Hlt.
  2: { rewrite bool_decide_false by lia. eauto. }
  rewrite (bool_decide_true (size - off ≠ 0)) by lia.
  pose proof (round_sim now s off Hwf Hf ltac:(lia)) as Hsim.
  pose proof (TcpPipeline.round_refines e _ _ _ _ (decode now) terminal_config buf size Hbuf Hsize Hint (pipe_of s) off Hwf ltac:(lia)) as Href.
  destruct Href as [(p' & E & _)|[(p' & E & _)|[(f & E & _)|(p' & o' & task & E & Hwf' & _ & Ho' & _)]]];
    rewrite E in *; cbn [mbind outcome_bind].
  - destruct Hsim as (s' & go & -> & <- & Hf'). cbn [mbind outcome_bind]. exists s'. destruct go; [|done].
    destruct fuel; cbn [parse_loop]; by rewrite bool_decide_false by lia.
  - destruct Hsim as [Hbig|(s' & o & r & -> & Hc & Hd)]; [by left|right]. simpl. eauto.
  - by rewrite Hsim.
  - destruct Hsim as (s' & -> & <- & Hf'). cbn [mbind outcome_bind]. apply IH; [done|done|lia|lia].
Qed.

(** What a read delivers. *)
Lemma receive_sim now s : wf (pipe_of s) → fields_ok s →
  match TcpPipeline.upflow e CORPC_MESSAGE_HEAD_SIZE CORPC_MAX_MESSAGE_SIZE 0 FOUR_BYTES (decode now) buf size (pipe_of s) with
  | Ok (p, true) => ∃ s', receive object e now buf size s = Ok s' ∧ pipe_of s' = p ∧ fields_ok s'
  | Ok (p, false) => CORPC_MAX_MESSAGE_SIZE < TcpPipeline.bodySize_ p ∨
      ∃ s', receive object e now buf size s = Ok s' ∧ self s' = TcpPipeline.conn p ∧ closed (self s') = true
  | Fault f => receive object e now buf size s = Fault f
  end.
Proof using Hbuf Hsize Hint.
  intros Hwf Hf. pose proof (loop_sim (Z.to_nat size) now s 0 Hwf Hf ltac:(lia) ltac:(lia)) as Hl.
  rewrite Z.sub_0_r in Hl. exact Hl.
Qed.
End parser.
End MessageClient.
