(* ===== verification/ClientStream.v ===== *)
(** * From the terminal to the client

    What [MessageTerminal::encode] writes on the connections of a server is
    what [TcpClient::workRoutine] puts into the queue of the application: each
    message once, in order and with its content, however the stream is cut into
    reads and whenever they happen; control messages change nothing but the time
    of the last heartbeat.  The last theorem is about a stream no server of
    the repository should send: a message larger than the buffer of the client
    overruns it. *)
From stdpp Require Import gmap.
From S2P Require Import Prelude Define Crc Crypter MessageBuffer Pipeline Sending RpcWire Terminal Messaging MessageClient.
Import MessageClient.
Open Scope Z_scope.

Abbreviation connection := MessageTerminal.Connection.
Abbreviation send_info M := (SendMessageInfo (content M)).

Section receiving.
Context {M Proto Handle K : Type} `{MessageLaws M Proto}.
Context (object : K → Crypter) `{!∀ k, CrypterLaws (object k)} (e : endian).
Implicit Types (c : t M Proto K) (s : locals M Proto K).

(** ** The receiving side of a client *)

(** A client without what it sends and without the times of heartbeats: what is
    left is all that matters for receiving. *)
Definition receiving c : t M Proto K :=
  set_sendHBTime 0 (set_recvHBTime 0 (set_sendSerial 0 (set_sendQueue [] c))).

Lemma receiving_keeps c c' : receiving c = receiving c' → closed c = closed c' ∧ recvQueue_ c = recvQueue_ c' ∧
  lastRecvSerial_ c = lastRecvSerial_ c'.
Proof. unfold receiving, set_sendHBTime. by intros [=]. Qed.

Lemma check_serial_receiving c head :
  check_serial e (receiving c) head = (λ r, (receiving r.1, r.2)) <$> check_serial e c head.
Proof.
  unfold check_serial. simpl. destruct (enableSerial_ c); [|done].
  destruct (get_be32 e head 16) as [serial|]; [|done]. simpl. by repeat case_bool_decide.
Qed.
Lemma accept_receiving c head body size msgType tag flag :
  accept_message object e (receiving c) head body size msgType tag flag
  = (λ r, (receiving r.1, r.2)) <$> accept_message object e c head body size msgType tag flag.
Proof.
  unfold accept_message. change (check_body object e (receiving c)) with (check_body object e c).
  change (parse_message (receiving c)) with (parse_message c).
  destruct (check_body _ _ _ _ _ _ _) as [[bb|]|]; [|done|done]. simpl. by destruct (parse_message _ _ _ _) as [[m|]|].
Qed.
Lemma decode_receiving now c head body size :
  decode object e 0 (receiving c) head body size = (λ r, (receiving r.1.1, r.1.2, r.2)) <$> decode object e now c head body size.
Proof.
  unfold decode. destruct (get_be32 e head 4) as [ty|]; [|done]. destruct (get_be16 e head 8) as [tg|]; [|done].
  destruct (get_be16 e head 10) as [fl|]; [|done]. simpl. unfold handle.
  case_bool_decide. { by destruct (require _). }
  case_bool_decide; [done|]. rewrite check_serial_receiving.
  destruct (check_serial e c head) as [[c1 [|]]|]; [|done|done]. simpl. rewrite accept_receiving.
  by destruct (accept_message _ _ _ _ _ _ _ _ _) as [[c2 bb]|].
Qed.

(** ** The specification of the stream *)
Abbreviation client_run now := (Frames.run CORPC_MESSAGE_HEAD_SIZE CORPC_MAX_MESSAGE_SIZE
  (TcpPipeline.field 0 FOUR_BYTES) (decode object e now)).

Definition receiving_result (r : Frames.result (t M Proto K) unit) : Frames.result (t M Proto K) unit :=
  match r with
  | Frames.Waiting c ts rest => Frames.Waiting (receiving c) ts rest
  | Frames.Closed c ts => Frames.Closed (receiving c) ts
  | Frames.Crashed f => Frames.Crashed f
  end.

Lemma run_receiving now c bs : client_run 0 (receiving c) bs = receiving_result (client_run now c bs).
Proof.
  unfold Frames.run. generalize (S (length bs)). intros n. revert c bs. induction n as [|n IH]; intros c bs; [done|].
  cbn [Frames.run_fuel]. do 3 (case_bool_decide; [done|]). simpl. unfold frame_of. rewrite (decode_receiving now).
  destruct (decode object e now c _ _ _) as [[[c1 b] tk]|f]; [|done]. simpl. destruct (closed c1); [done|].
  rewrite IH. by destruct (Frames.run_fuel _ _ _ _ n c1 _).
Qed.

(** ** What a terminal sends *)
Import MessageTerminal (plain, seal, checksum, head_of, message_frame, sendable).
Abbreviation sending := (connection M Proto Handle K * send_info M)%type.
Implicit Types (x : sending).

(** A frame [f] that a terminal in the state [x.1] has made of [x.2]: the fields
    have the widths of the code, heartbeats are empty. *)
Record sent x (f : bytes) : Prop := {
  sent_info : sendable x.2;
  sent_type : is_i32 (MessageBuffer.type x.2);
  sent_tag : is_u16 (MessageBuffer.tag x.2);
  sent_serial : is_u32 (MessageBuffer.serial x.2);
  sent_req : is_u32 (MessageTerminal.recvSerial_ x.1);
  sent_size : zlen (plain x.2) ≤ CORPC_MAX_MESSAGE_SIZE;
  sent_heartbeat : MessageBuffer.type x.2 = CORPC_MSG_TYPE_HEARTBEAT → plain x.2 = [];
  sent_frame : message_frame object x.1 x.2 = Some f;
}.

(** The client is set up for a message: checksum and key match, the serial is 0
    or the next one, and the type is registered with the prototype of the
    content. *)
Record readable c x : Prop := {
  read_crc : enableRecvCRC_ c = true → MessageTerminal.enableSendCRC_ (MessageTerminal.terminal_ x.1) = true;
  read_keys : keys_match object (MessageTerminal.crypter_ x.1) (crypter_ c);
  read_serial : enableSerial_ c = true →
    MessageBuffer.serial x.2 = 0 ∨ MessageBuffer.serial x.2 = u32 (lastRecvSerial_ c + 1);
  read_proto : ∃ p, registerMessageMap_ c !! MessageBuffer.type x.2 = Some p ∧
    (plain x.2 ≠ [] → ∃ q, p = Some q ∧ is_Some (ParseFromArray q (plain x.2)) ∧
       ∀ m, MessageBuffer.msg x.2 = Some (Protobuf m) → proto_of m = q);
}.

(** What the application gets for it, and the client after it. *)
Definition received c x : MessageInfo M :=
  Info (MessageBuffer.type x.2) (MessageBuffer.tag x.2)
    (if bool_decide (plain x.2 = []) then None
     else mjoin (registerMessageMap_ c !! MessageBuffer.type x.2) ≫= λ p, ParseFromArray p (plain x.2)) None.
Definition after c x : t M Proto K :=
  if bool_decide (MessageBuffer.type x.2 < 0) then c else
  let c' := if enableSerial_ c && bool_decide (MessageBuffer.serial x.2 ≠ 0)
            then set_recvSerial (MessageBuffer.serial x.2) c else c in
  set_recvQueue (recvQueue_ c ++ [received c x]) c'.

Lemma nil_zlen {A} (l : list A) : bool_decide (zlen l > 0) = negb (bool_decide (l = [])).
Proof.
  destruct l; [done|]. rewrite bool_decide_true by (rewrite zlen_cons; pose proof (zlen_nonneg l); lia).
  by rewrite bool_decide_false.
Qed.

(** The body of such a message passes the checks. *)
Lemma check_body_sent c x b : sendable x.2 →
  (enableRecvCRC_ c = true → MessageTerminal.enableSendCRC_ (MessageTerminal.terminal_ x.1) = true) →
  keys_match object (MessageTerminal.crypter_ x.1) (crypter_ c) →
  seal object (MessageBuffer.needCrypt x.2) (MessageTerminal.crypter_ x.1) (plain x.2) = Some b →
  get_be16 e (head_of x.1 x.2 b) 20 = Ok (checksum (MessageTerminal.enableSendCRC_ (MessageTerminal.terminal_ x.1)) b) →
  check_body object e c (head_of x.1 x.2 b) b (zlen b)
    (if MessageBuffer.needCrypt x.2 then CORPC_MESSAGE_FLAG_CRYPT else 0) = Ok (Some (plain x.2)).
Proof.
  intros Hsend Hcrc Hkeys Hs Hget. destruct (MessageTerminal.plain_props x.2 Hsend) as [Hp Hpl].
  destruct (MessageTerminal.seal_props object _ _ _ _ Hs Hp) as [Hbl Hbb]. unfold check_body. case_bool_decide as Hpos.
  2: { assert (zlen (plain x.2) = 0) as E by (pose proof (zlen_nonneg b); lia). rewrite (zlen_0_inv _ E).
       assert (zlen b = 0) as ->%zlen_0_inv by lia. done. }
  assert ((if enableRecvCRC_ c then crc ← get_be16 e (head_of x.1 x.2 b) 20; bs ← memread b 0 (zlen b);
      crc1 ← CRC.CheckSum bs 65535 (zlen b); Ok (bool_decide (crc = crc1)) else Ok true) = Ok true) as ->.
  { destruct (enableRecvCRC_ c); [|done]. rewrite Hget. cbn [mbind outcome_bind].
    rewrite memread_front, ztake_ge by lia. cbn [mbind outcome_bind]. rewrite CRC.CheckSum_full. simpl.
    unfold checksum. rewrite Hcrc by done. by rewrite bool_decide_true. }
  cbn [mbind outcome_bind negb]. unfold seal in Hs. destruct (MessageBuffer.needCrypt x.2).
  2: { injection Hs as <-. done. }
  destruct (MessageTerminal.crypter_ x.1) as [k|]; [|done]. apply (inj Some) in Hs as <-.
  destruct (Hkeys k eq_refl) as (k' & -> & Hop).
  destruct (MessageTerminal.decrypt_prefix object k' _ (zlen (sealed (object k) (plain x.2))) Hbb) as [Hd _];
    [pose proof (zlen_nonneg (sealed (object k) (plain x.2))); lia|].
  rewrite ztake_ge in Hd by lia. simpl. rewrite Hd. simpl. by rewrite Hop.
Qed.
Lemma check_serial_sent c head serial : get_be32 e head 16 = Ok serial →
  (enableSerial_ c = true → serial = 0 ∨ serial = u32 (lastRecvSerial_ c + 1)) →
  check_serial e c head = Ok (if enableSerial_ c && bool_decide (serial ≠ 0) then set_recvSerial serial c else c, true).
Proof.
  intros Hg Hs. unfold check_serial. destruct (enableSerial_ c); [|done]. rewrite Hg. cbn [mbind outcome_bind].
  case_bool_decide as Hz; [|done]. destruct (Hs eq_refl) as [|E]; [done|]. rewrite bool_decide_false by tauto. by rewrite <-E.
Qed.
Lemma decode_sent_frame c x b : receiving c = c → sent x (head_of x.1 x.2 b ++ b) →
  seal object (MessageBuffer.needCrypt x.2) (MessageTerminal.crypter_ x.1) (plain x.2) = Some b →
  (0 ≤ MessageBuffer.type x.2 → readable c x) →
  ∃ body', decode object e 0 c (head_of x.1 x.2 b) b (zlen b) = Ok (after c x, body', None).
Proof.
  intros Hc [Hsend Ht Htag Hser Hreq Hsize Hhb Hf] Hs Hread.
  destruct (MessageTerminal.plain_props x.2 Hsend) as [Hp Hpl].
  destruct (MessageTerminal.seal_props object _ _ _ _ Hs Hp) as [Hbl Hbb]. pose proof (zlen_nonneg b).
  destruct (MessageTerminal.message_fields e (zlen b) (u32 (MessageBuffer.type x.2)) (MessageBuffer.tag x.2)
    (if MessageBuffer.needCrypt x.2 then CORPC_MESSAGE_FLAG_CRYPT else 0) (MessageTerminal.recvSerial_ x.1)
    (MessageBuffer.serial x.2) (checksum (MessageTerminal.enableSendCRC_ (MessageTerminal.terminal_ x.1)) b))
    as (E1 & E2 & E3 & _ & E5 & E6); [unfold is_u32; lia|apply u32_range|exact Htag|by destruct (MessageBuffer.needCrypt x.2)|
    exact Hreq|exact Hser|by apply checksum_u16|].
  fold (head_of x.1 x.2 b) in E1, E2, E3, E5, E6.
  unfold decode. rewrite E1, E2, E3. cbn [mbind outcome_bind]. rewrite i32_u32, i32_small by exact Ht. unfold handle, after.
  destruct (decide (MessageBuffer.type x.2 = CORPC_MSG_TYPE_HEARTBEAT)) as [Ehb|Nhb].
  { rewrite bool_decide_true by done. rewrite require_true by (rewrite Hbl, Hhb; done). cbn [mbind outcome_bind].
    rewrite (bool_decide_true (_ < 0)) by (rewrite Ehb; done). assert (set_recvHBTime 0 c = c) as -> by (by rewrite <-Hc). eauto. }
  rewrite bool_decide_false by done. case_bool_decide as Hneg; [simpl; eauto|].
  destruct (Hread ltac:(lia)) as [Hcrc Hkeys Hrs (p & Hmap & Hproto)].
  rewrite (check_serial_sent c _ _ E5 Hrs). cbn [mbind outcome_bind].
  set (c' := if _ && _ then _ else c).
  assert (enableRecvCRC_ c' = enableRecvCRC_ c ∧ crypter_ c' = crypter_ c ∧ registerMessageMap_ c' = registerMessageMap_ c ∧
    recvQueue_ c' = recvQueue_ c) as (Er & Ek & Em & Eq) by (unfold c'; by destruct (_ && _)).
  unfold accept_message. rewrite check_body_sent by (rewrite ?Er, ?Ek; done). cbn [mbind outcome_bind].
  unfold parse_message. rewrite Em, Hmap, Eq, Hbl, nil_zlen. unfold received. rewrite Hmap.
  destruct (decide (plain x.2 = [])) as [Ep|Np].
  - rewrite bool_decide_true by done. simpl. eauto.
  - rewrite bool_decide_false by done. destruct (Hproto Np) as (q & -> & [m' Hm'] & _). simpl.
    rewrite memread_front, ztake_ge by (pose proof (zlen_nonneg (plain x.2)); lia). simpl. rewrite Hm'. simpl. eauto.
Qed.

(** Messages that come one after the other, each readable by the client the
    ones before it have left. *)
Fixpoint all_readable c (xs : list sending) : Prop :=
  match xs with
  | [] => True
  | x :: xs => (0 ≤ MessageBuffer.type x.2 → readable c x) ∧ all_readable (after c x) xs
  end.

Lemma after_keeps c x : closed (after c x) = closed c ∧
  registerMessageMap_ (after c x) = registerMessageMap_ c.
Proof. unfold after. case_bool_decide; [done|]. by destruct (_ && _). Qed.
Lemma after_receiving c x : receiving (after c x) = after (receiving c) x.
Proof. unfold after. simpl. case_bool_decide; [done|]. by destruct (_ && _). Qed.

Lemma sent_bytes x f : sent x f → Forall is_byte f.
Proof. intros [Hi _ _ _ _ _ _ Hf]. by eapply message_frame_bytes. Qed.

Lemma run_sent c x f rest : receiving c = c → closed c = false → sent x f →
  (0 ≤ MessageBuffer.type x.2 → readable c x) → Forall is_byte rest →
  client_run 0 c (f ++ rest) = client_run 0 (after c x) rest.
Proof.
  intros Hc Hd Hx Hread Hrest. pose proof (sent_bytes x f Hx) as Hfb. pose proof Hx as [Hsend _ _ _ _ Hsize _ Hf].
  pose proof Hf as (b & Hs & ->)%MessageTerminal.message_frame_Some.
  destruct (MessageTerminal.plain_props x.2 Hsend) as [Hp Hpl].
  destruct (MessageTerminal.seal_props object _ _ _ _ Hs Hp) as [Hbl Hbb].
  destruct (decode_sent_frame c x b) as [body' Hdec]; [done..|].
  destruct (after_keeps c x) as (Ecl & _). rewrite <-app_assoc.
  rewrite Frames.run_frame with (c' := after c x) (t := None); [apply Frames.push_nil|done|..].
  - apply TcpPipeline.field_nonneg.
  - apply MessageTerminal.zlen_message_head.
  - apply message_head_field. pose proof (zlen_nonneg b). unfold is_u32. lia.
  - lia.
  - rewrite app_assoc. by apply Forall_app.
  - unfold decode_frame. simpl. unfold frame_of. by rewrite Hdec.
  - simpl. congruence.
Qed.
Lemma all_sent_bytes xs fs : Forall2 sent xs fs → Forall is_byte (concat fs).
Proof. intros Hall. apply Forall_concat. induction Hall; constructor; [by eapply sent_bytes|done]. Qed.
Lemma run_all_sent c xs fs : receiving c = c → closed c = false → Forall2 sent xs fs → all_readable c xs →
  client_run 0 c (concat fs) = Frames.Waiting (foldl after c xs) [] [].
Proof.
  intros Hc Hd Hall. revert c Hc Hd. induction Hall as [|x f xs fs Hx Hxs IH]; intros c Hc Hd Hr; [done|].
  destruct Hr as [Hr1 Hr2]. destruct (after_keeps c x) as (Ecl & _). simpl. rewrite (run_sent c x f); [|done..|].
  - apply IH; [by rewrite after_receiving, Hc|congruence|done].
  - by eapply all_sent_bytes.
Qed.

Lemma run_open now c bs c' ts rest : client_run now c bs = Frames.Waiting c' ts rest → closed c = false → closed c' = false.
Proof.
  unfold Frames.run. generalize (S (length bs)). intros n. revert c bs ts rest c'. induction n as [|n IH]; intros c bs ts rest c'; [done|].
  cbn [Frames.run_fuel]. case_bool_decide; [by intros [= <- _ _]|]. case_bool_decide; [done|].
  case_bool_decide; [by intros [= <- _ _]|]. destruct (decode_frame c _ _) as [[c1 tk]|]; [|done]. simpl.
  destruct (closed c1) eqn:E; [done|]. destruct (Frames.run_fuel _ _ _ _ n c1 _) eqn:Er; [|done|done].
  simpl. intros [= <- _ _] _. by eapply IH.
Qed.

(** ** A read of the client *)
Abbreviation client_wf := (TcpPipeline.wf CORPC_MESSAGE_HEAD_SIZE CORPC_MAX_MESSAGE_SIZE 0 FOUR_BYTES).

(** A read continues the stream the specification describes. *)
Lemma receive_run now s buf size rest c' : client_wf (pipe_of s) → fields_ok e s → Forall is_byte buf → Forall is_byte rest →
  0 ≤ size ≤ zlen buf → size < 2^31 → closed (self s) = false →
  client_run 0 (receiving (self s)) (TcpPipeline.pending (pipe_of s) ++ ztake size buf ++ rest) = Frames.Waiting c' [] [] →
  ∃ s', receive object e now buf size s = Ok s' ∧ client_wf (pipe_of s') ∧ fields_ok e s' ∧ closed (self s') = false ∧
    client_run 0 (receiving (self s')) (TcpPipeline.pending (pipe_of s') ++ rest) = Frames.Waiting c' [] [].
Proof.
  intros Hwf Hf Hb Hrest Hsz Hlen Hopen Hrun.
  assert (Forall is_byte (TcpPipeline.pending (pipe_of s) ++ ztake size buf)) as Hpb.
  { apply Forall_app. split; [by eapply TcpPipeline.wf_bytes|by apply Forall_take]. }
  pose proof (TcpPipeline.upflow_refines e _ _ _ _ (decode object e now) terminal_config buf size Hb Hsz Hlen
    (pipe_of s) Hwf) as Href.
  pose proof (receive_sim object e buf size Hb Hsz Hlen now s Hwf Hf) as Hsim. simpl in Href.
  rewrite app_assoc, Frames.run_app in Hrun; [|done|apply TcpPipeline.field_nonneg|done|done].
  rewrite (run_receiving now) in Hrun.
  destruct (client_run now (self s) (TcpPipeline.pending (pipe_of s) ++ ztake size buf)) as [c1 ts rem|c1 ts|f] eqn:E1; [|done|done].
  simpl in Href, Hrun. destruct Href as (p & Hup & Hwf' & <- & Htasks & <-). rewrite Hup in Hsim.
  destruct Hsim as (s' & -> & <- & Hf'). exists s'. split_and!; try done; [by eapply run_open|].
  destruct ts; [|by destruct (client_run _ _ _)]. by rewrite Frames.push_nil in Hrun.
Qed.

(** Nothing is left of the stream. *)
Lemma receive_end s c' : client_wf (pipe_of s) →
  client_run 0 (receiving (self s)) (TcpPipeline.pending (pipe_of s)) = Frames.Waiting c' [] [] →
  receiving (self s) = c' ∧ TcpPipeline.pending (pipe_of s) = [].
Proof.
  intros Hwf Hrun. rewrite (run_receiving 0) in Hrun.
  pose proof (TcpPipeline.wf_waiting _ _ _ _ (decode object e 0) terminal_config (pipe_of s) Hwf) as Hw.
  simpl in Hw. rewrite Hw in Hrun. by injection Hrun as <- ->.
Qed.

(** What the application gets of a message with a type that is not negative. *)
Definition gets x (info : MessageInfo M) : Prop :=
  type info = MessageBuffer.type x.2 ∧ tag info = MessageBuffer.tag x.2 ∧
  (plain x.2 = [] → proto info = None) ∧
  (plain x.2 ≠ [] → ∃ m', proto info = Some m' ∧ ∀ m, MessageBuffer.msg x.2 = Some (Protobuf m) → m' ≡ m).

Lemma received_gets c x : readable c x → gets x (received c x).
Proof.
  intros [_ _ _ (p & Hmap & Hp)]. unfold gets, received. simpl. rewrite Hmap. split_and!; [done|done| |].
  - intros E. by rewrite bool_decide_true.
  - intros Hn. rewrite bool_decide_false by done. destruct (Hp Hn) as (q & -> & [m' Hm'] & Hq). simpl. rewrite Hm'.
    exists m'. split; [done|]. intros m Hm. unfold MessageTerminal.plain in Hm'. rewrite Hm, <-(Hq m Hm) in Hm'.
    destruct (parse_serialize m) as (m2 & E & Heq & _). congruence.
Qed.
Lemma after_queue c xs : all_readable c xs →
  ∃ infos, recvQueue_ (foldl after c xs) = recvQueue_ c ++ infos ∧
    Forall2 gets (filter (λ x, 0 ≤ MessageBuffer.type x.2) xs) infos.
Proof.
  revert c. induction xs as [|x xs IH]; intros c Hr. { exists []. by rewrite app_nil_r. }
  destruct Hr as [Hr1 Hr2]. destruct (IH _ Hr2) as (infos & Hq & Hall). simpl. rewrite filter_cons. case_decide as Hs.
  - exists (received c x :: infos). split; [|constructor; [by apply received_gets, Hr1|done]].
    rewrite Hq. unfold after. rewrite bool_decide_false by lia. simpl. by rewrite <-app_assoc.
  - exists infos. split; [|done]. rewrite Hq. unfold after. by rewrite bool_decide_true by lia.
Qed.


(** ** A message larger than the buffer *)

(** The client does not check the size a head announces:
    when a head announces more than [CORPC_MAX_MESSAGE_SIZE] bytes, a read of
    the head and as many bytes as the buffer holds is accepted, and whatever the
    next read returns is copied behind the end of the buffer. *)
Theorem client_oversize now1 now2 c head body more :
  zlen head = CORPC_MESSAGE_HEAD_SIZE → Forall is_byte head → CORPC_MAX_MESSAGE_SIZE < be_val (slice 0 4 head) →
  zlen body = CORPC_MAX_MESSAGE_SIZE → more ≠ [] →
  ∃ s, receive object e now1 (head ++ body) (zlen (head ++ body)) (init_locals c) = Ok s ∧ self s = c ∧
    receive object e now2 more (zlen more) s = Fault OutOfBounds.
Proof.
  intros Hh Hb Hbig Hl Hm. unfold CORPC_MESSAGE_HEAD_SIZE, CORPC_MAX_MESSAGE_SIZE in *.
  assert (be_val (slice 0 4 head) < 2^32) as Hu.
  { pose proof (be_val_range (slice 0 4 head) (Forall_slice _ _ _ _ Hb)) as Hr. rewrite zlen_slice in Hr by lia. simpl in *. lia. }
  assert (0 < zlen more) as Hmore. { destruct more; [done|]. rewrite zlen_cons. pose proof (zlen_nonneg more). lia. }
  set (s := Locals head 22 body 65536 (be_val (slice 0 4 head)) (i32 (be_val (slice 4 4 head)))
    (be_val (slice 8 2 head)) (be_val (slice 10 2 head)) c).
  exists s. split; [|split; [done|]].
  - unfold receive. rewrite zlen_app, Hh, Hl.
    destruct (Z.to_nat (22 + 65536)) as [|fuel] eqn:Ef; [lia|]. clear Ef. cbn [parse_loop].
    rewrite bool_decide_true by done. unfold parse_round, parse_head. rewrite bool_decide_true by done.
    rewrite <-(Z.sub_0_r (22 + 65536)), (copy_head_full (head ++ body) (22 + 65536) (init_locals c) 0 head); [|done|].
    2: { simpl. rewrite memcpy_front by (rewrite ?zlen_app, ?zlen_zeros; unfold CORPC_MESSAGE_HEAD_SIZE; lia).
         unfold slice. rewrite zdrop_0, ztake_app_l, ztake_ge by (unfold CORPC_MESSAGE_HEAD_SIZE; lia).
         by rewrite zdrop_ge, app_nil_r by (rewrite zlen_zeros; unfold CORPC_MESSAGE_HEAD_SIZE; lia). }
    cbn [mbind outcome_bind headNum headBuf bodyBuf bodyNum self init_locals]. rewrite bool_decide_true by done.
    rewrite !get_be32_ok, !get_be16_ok by (done || lia). cbn [mbind outcome_bind negb]. unfold parse_body.
    cbn [headNum headBuf bodyBuf bodyNum bodySize msgType ltag flag self].
    rewrite (u32_small 0), (u32_small (_ - 0)), (bool_decide_true (0 < _)), (bool_decide_true (_ > 0)) by (lia || done).
    change (22 + 65536 - (0 + (CORPC_MESSAGE_HEAD_SIZE - 0))) with 65536. change (0 + (CORPC_MESSAGE_HEAD_SIZE - 0)) with 22.
    cbn [andb]. rewrite bool_decide_true by lia.
    rewrite memcpy_front by (rewrite ?zlen_app, ?zlen_zeros; unfold CORPC_MAX_MESSAGE_SIZE; lia). cbn [mbind outcome_bind].
    cbn [headNum headBuf bodyBuf bodyNum bodySize msgType ltag flag self].
    rewrite u32_small, bool_decide_false by lia.
    assert (slice 22 65536 (head ++ body) ++ zdrop 65536 (zeros CORPC_MAX_MESSAGE_SIZE) = body) as ->.
    { unfold slice. rewrite <-Hh, zdrop_app_exact, ztake_ge by lia.
      by rewrite zdrop_ge, app_nil_r by (rewrite zlen_zeros; unfold CORPC_MAX_MESSAGE_SIZE; lia). }
    destruct fuel; done.
  - unfold receive. destruct (Z.to_nat (zlen more)) as [|fuel] eqn:Ef; [lia|]. cbn [parse_loop].
    rewrite bool_decide_true by lia. unfold parse_round, parse_head. simpl (headNum s). rewrite bool_decide_false by done.
    cbn [mbind outcome_bind negb]. unfold parse_body. simpl (bodyNum s). simpl (bodySize s). simpl (bodyBuf s).
    rewrite (u32_small 65536), (bool_decide_true (65536 < _)), (bool_decide_true (_ > 0)) by lia. cbn [andb].
    rewrite (u32_small (_ - _)) by lia. case_bool_decide; by rewrite memcpy_overflow by lia.
Qed.
End receiving.
