(* ===== verification/ClientSend.v ===== *)
(** * From the client to the terminal

    What the application queues with [MessageClient::send] is put into one
    buffer, message behind message, and written.  When every call of [::write]
    takes all it is given, the bytes on the wire are the frames of the queued
    messages, and a terminal that is set up for the client gets each of them
    once, in order and with its content.  A call that takes only a part makes
    the client write bytes that belong to no message. *)
From stdpp Require Import gmap.
From S2P Require Import Prelude Define Crc Crypter MessageBuffer Pipeline Sending RpcWire Terminal Messaging MessageClient.
Import MessageClient.
Open Scope Z_scope.

(** ** Writing the fields of a head in any order *)
Section head.
Context (e : endian).
Implicit Types (pre post old : bytes).

Lemma memcpy_mid pre old post src n : zlen src = n → zlen old = n →
  memcpy (pre ++ old ++ post) (zlen pre) src 0 n = Ok (pre ++ src ++ post).
Proof.
  intros Hs Ho. pose proof (zlen_nonneg pre). pose proof (zlen_nonneg post). pose proof (zlen_nonneg old).
  rewrite memcpy_all by (rewrite ?zlen_app; lia). rewrite ztake_app_exact. do 2 f_equal.
  by rewrite app_assoc, zdrop_app_r, zlen_app, Ho, Z.sub_diag, zdrop_0 by (rewrite ?zlen_app; lia).
Qed.
Lemma put_be16_mid pre old post off v : zlen pre = off → zlen old = 2 →
  put_be16 e (pre ++ old ++ post) off v = Ok (pre ++ be_bytes 2 v ++ post).
Proof. intros <- Ho. unfold put_be16. rewrite htobe16_bytes. by rewrite memcpy_mid by (done || by apply be_bytes_length). Qed.
Lemma put_be32_mid pre old post off v : zlen pre = off → zlen old = 4 →
  put_be32 e (pre ++ old ++ post) off v = Ok (pre ++ be_bytes 4 v ++ post).
Proof. intros <- Ho. unfold put_be32. rewrite htobe32_bytes. by rewrite memcpy_mid by (done || by apply be_bytes_length). Qed.

Abbreviation message_head := MessageTerminal.message_head.

(** Each field of a head that lies at [off] in the memory. *)
Lemma put_fields pre post off a b c d f g h v : zlen pre = off →
  put_be32 e (pre ++ message_head a b c d f g h ++ post) off v = Ok (pre ++ message_head v b c d f g h ++ post) ∧
  put_be32 e (pre ++ message_head a b c d f g h ++ post) (off + 4) v = Ok (pre ++ message_head a v c d f g h ++ post) ∧
  put_be16 e (pre ++ message_head a b c d f g h ++ post) (off + 8) v = Ok (pre ++ message_head a b v d f g h ++ post) ∧
  put_be16 e (pre ++ message_head a b c d f g h ++ post) (off + 10) v = Ok (pre ++ message_head a b c v f g h ++ post) ∧
  put_be32 e (pre ++ message_head a b c d f g h ++ post) (off + 12) v = Ok (pre ++ message_head a b c d v g h ++ post) ∧
  put_be32 e (pre ++ message_head a b c d f g h ++ post) (off + 16) v = Ok (pre ++ message_head a b c d f v h ++ post) ∧
  put_be16 e (pre ++ message_head a b c d f g h ++ post) (off + 20) v = Ok (pre ++ message_head a b c d f g v ++ post).
Proof.
  intros Hoff. unfold MessageTerminal.message_head. rewrite <-!app_assoc.
  assert (∀ n x, 0 ≤ n → zlen (be_bytes n x) = n) as L by apply be_bytes_length.
  set (A := be_bytes 4 a). set (B := be_bytes 4 b). set (C := be_bytes 2 c). set (D := be_bytes 2 d).
  set (F := be_bytes 4 f). set (G := be_bytes 4 g). set (H := be_bytes 2 h).
  pose proof (put_be32_mid pre A (B ++ C ++ D ++ F ++ G ++ H ++ post) off v) as H0.
  pose proof (put_be32_mid (pre ++ A) B (C ++ D ++ F ++ G ++ H ++ post) (off + 4) v) as H1.
  pose proof (put_be16_mid (pre ++ A ++ B) C (D ++ F ++ G ++ H ++ post) (off + 8) v) as H2.
  pose proof (put_be16_mid (pre ++ A ++ B ++ C) D (F ++ G ++ H ++ post) (off + 10) v) as H3.
  pose proof (put_be32_mid (pre ++ A ++ B ++ C ++ D) F (G ++ H ++ post) (off + 12) v) as H4.
  pose proof (put_be32_mid (pre ++ A ++ B ++ C ++ D ++ F) G (H ++ post) (off + 16) v) as H5.
  pose proof (put_be16_mid (pre ++ A ++ B ++ C ++ D ++ F ++ G) H post (off + 20) v) as H6.
  rewrite <-!app_assoc in *. subst A B C D F G H.
  split_and!; auto; match goal with H : _ → _ → ?P |- ?P => apply H; rewrite ?zlen_app, ?L by lia; lia end.
Qed.

(** The same, field by field. *)
Section fields.
Context (pre post : bytes) (off a b c d f g h v : Z) (Hoff : zlen pre = off).
Lemma put_size_at : put_be32 e (pre ++ message_head a b c d f g h ++ post) off v = Ok (pre ++ message_head v b c d f g h ++ post).
Proof using Hoff. by apply (put_fields pre post off). Qed.
Lemma put_type_at : put_be32 e (pre ++ message_head a b c d f g h ++ post) (off + 4) v = Ok (pre ++ message_head a v c d f g h ++ post).
Proof using Hoff. by apply (put_fields pre post off). Qed.
Lemma put_tag_at : put_be16 e (pre ++ message_head a b c d f g h ++ post) (off + 8) v = Ok (pre ++ message_head a b v d f g h ++ post).
Proof using Hoff. by apply (put_fields pre post off). Qed.
Lemma put_flag_at : put_be16 e (pre ++ message_head a b c d f g h ++ post) (off + 10) v = Ok (pre ++ message_head a b c v f g h ++ post).
Proof using Hoff. by apply (put_fields pre post off). Qed.
Lemma put_req_at : put_be32 e (pre ++ message_head a b c d f g h ++ post) (off + 12) v = Ok (pre ++ message_head a b c d v g h ++ post).
Proof using Hoff. by apply (put_fields pre post off). Qed.
Lemma put_serial_at : put_be32 e (pre ++ message_head a b c d f g h ++ post) (off + 16) v = Ok (pre ++ message_head a b c d f v h ++ post).
Proof using Hoff. by apply (put_fields pre post off). Qed.
Lemma put_crc_at : put_be16 e (pre ++ message_head a b c d f g h ++ post) (off + 20) v = Ok (pre ++ message_head a b c d f g v ++ post).
Proof using Hoff. by apply (put_fields pre post off). Qed.
End fields.

(** Any 22 bytes are a head. *)
Lemma message_head_any (l : bytes) : zlen l = CORPC_MESSAGE_HEAD_SIZE → Forall is_byte l →
  ∃ a b c d f g h, l = message_head a b c d f g h ∧ is_u32 f ∧ is_u32 g ∧ is_u16 h.
Proof.
  intros Hl Hb. unfold CORPC_MESSAGE_HEAD_SIZE in Hl.
  assert (∀ o n, 0 ≤ o → 0 ≤ n → o + n ≤ 22 → be_bytes n (be_val (slice o n l)) = slice o n l) as S.
  { intros. apply be_bytes_val; [apply zlen_slice; lia|by apply Forall_slice]. }
  assert (∀ o n, 0 ≤ o → 0 ≤ n → o + n ≤ 22 → 0 ≤ be_val (slice o n l) < 2^(n * 8)) as R.
  { intros o n ???. assert (zlen (slice o n l) = n) as E by (apply zlen_slice; lia).
    rewrite <-E at 3. apply be_val_range. by apply Forall_slice. }
  exists (be_val (slice 0 4 l)), (be_val (slice 4 4 l)), (be_val (slice 8 2 l)), (be_val (slice 10 2 l)),
    (be_val (slice 12 4 l)), (be_val (slice 16 4 l)), (be_val (slice 20 2 l)).
  split; [|split_and!; [apply (R 12 4)|apply (R 16 4)|apply (R 20 2)]; lia].
  unfold MessageTerminal.message_head. rewrite !S by lia. rewrite <-(slice_all l) at 1. rewrite Hl.
  rewrite (slice_app_ztake 0 4 18 l ltac:(lia) ltac:(lia) ltac:(lia) : slice 0 22 l = slice 0 4 l ++ slice 4 18 l). f_equal.
  rewrite (slice_app_ztake 4 4 14 l ltac:(lia) ltac:(lia) ltac:(lia) : slice 4 18 l = slice 4 4 l ++ slice 8 14 l). f_equal.
  rewrite (slice_app_ztake 8 2 12 l ltac:(lia) ltac:(lia) ltac:(lia) : slice 8 14 l = slice 8 2 l ++ slice 10 12 l). f_equal.
  rewrite (slice_app_ztake 10 2 10 l ltac:(lia) ltac:(lia) ltac:(lia) : slice 10 12 l = slice 10 2 l ++ slice 12 10 l). f_equal.
  rewrite (slice_app_ztake 12 4 6 l ltac:(lia) ltac:(lia) ltac:(lia) : slice 12 10 l = slice 12 4 l ++ slice 16 6 l). f_equal.
  exact (slice_app_ztake 16 4 2 l ltac:(lia) ltac:(lia) ltac:(lia)).
Qed.
End head.

Lemma splice_mid (pre old new post : bytes) off : zlen pre = off → zlen new = zlen old →
  splice (pre ++ old ++ post) off new = pre ++ new ++ post.
Proof.
  intros <- Hl. unfold splice. rewrite ztake_app_exact. do 2 f_equal.
  pose proof (zlen_nonneg pre). pose proof (zlen_nonneg old).
  by rewrite app_assoc, Hl, zdrop_app_r, zlen_app, Z.sub_diag, zdrop_0 by (rewrite ?zlen_app; lia).
Qed.
Lemma splice_split (buf new : bytes) off n : 0 ≤ off → 0 ≤ n → off + n ≤ zlen buf → zlen new = n →
  splice buf off new = ztake off buf ++ new ++ zdrop (off + n) buf.
Proof. intros. unfold splice. by subst n. Qed.

Section sending.
Context {M Proto K : Type} `{MessageLaws M Proto}.
Context (object : K → Crypter) `{!∀ k, CrypterLaws (object k)} (e : endian).
Implicit Types (c : t M Proto K) (x : MessageInfo M).
Abbreviation message_head := MessageTerminal.message_head.
Abbreviation seal := (MessageTerminal.seal object).

(** ** The frame of a message *)

(** What the application may queue: a message that fits, and for an encrypted
    one a client with a key. *)
Record queued c x (m : M) (nc : bool) : Prop := {
  queued_proto : proto x = Some m;
  queued_crypt : needCrypter x = Some nc;
  queued_key : nc = true → is_Some (crypter_ c);
  queued_size : zlen (Serialize m) + CORPC_MESSAGE_HEAD_SIZE ≤ CORPC_MAX_MESSAGE_SIZE;
}.

(** The frame: serials and checksum hold what the client has written there, or,
    where they are not enabled, any bytes. *)
Definition is_frame c x (f : bytes) : Prop :=
  ∃ m nc b req serial crc, queued c x m nc ∧ seal nc (crypter_ c) (Serialize m) = Some b ∧
    f = message_head (zlen b) (u32 (type x)) (tag x) (if nc then CORPC_MESSAGE_FLAG_CRYPT else 0) req serial crc ++ b ∧
    is_u32 req ∧ is_u32 serial ∧ is_u16 crc ∧
    (enableSerial_ c = true → req = lastRecvSerial_ c ∧ serial = u32 (lastSendSerial_ c + 1)) ∧
    (enableSendCRC_ c = true → crc = foldl CRC.crc_step 0xFFFF b).

(** The client after it. *)
Definition next c : t M Proto K := if enableSerial_ c then set_sendSerial (u32 (lastSendSerial_ c + 1)) c else c.

Lemma put_body_ok c x m nc b pre h0 old post : queued c x m nc → zlen old = zlen (Serialize m) → zlen h0 = CORPC_MESSAGE_HEAD_SIZE →
  seal nc (crypter_ c) (Serialize m) = Some b →
  put_body object c x m (zlen (Serialize m)) (pre ++ h0 ++ old ++ post) (zlen pre)
  = Ok (pre ++ h0 ++ b ++ post, if nc then CORPC_MESSAGE_FLAG_CRYPT else 0).
Proof.
  intros [Hm Hc Hk Hsz] Hold Hh Hs. pose proof (serialize_bytes m) as Hb.
  destruct (MessageTerminal.seal_props object _ _ _ _ Hs Hb) as [Hbl Hbb].
  unfold put_body. rewrite Hc. assert (zlen (pre ++ h0) = zlen pre + CORPC_MESSAGE_HEAD_SIZE) as Hoff by (rewrite zlen_app; lia).
  rewrite (app_assoc pre h0), <-Hoff, memcpy_mid by done. cbn [mbind outcome_bind].
  unfold MessageTerminal.seal in Hs. destruct nc; cycle 1.
  { injection Hs as <-. by rewrite <-app_assoc. }
  destruct (Hk eq_refl) as [k Ek]. rewrite Ek in *. rewrite require_true by done. cbn [mbind outcome_bind deref].
  apply (inj Some) in Hs as <-. pose proof (zlen_nonneg (pre ++ h0)). pose proof (zlen_nonneg post). pose proof (zlen_nonneg (Serialize m)).
  assert (slice (zlen (pre ++ h0)) (zlen (Serialize m)) ((pre ++ h0) ++ Serialize m ++ post) = Serialize m) as Hsl by by apply slice_mid.
  rewrite encrypt_inplace by (rewrite ?Hsl, ?zlen_app in *; done || lia). cbn [mbind outcome_bind].
  rewrite Hsl, splice_mid by (done || by rewrite sealed_length). by rewrite <-app_assoc.
Qed.

Lemma client_put_head_ok c x size flag pre post a1 a2 a3 a4 req serial crc : is_u32 req → is_u32 serial → is_u32 (lastRecvSerial_ c) →
  ∃ req' serial', put_head e c x size flag (pre ++ message_head a1 a2 a3 a4 req serial crc ++ post) (zlen pre)
    = Ok (next c, pre ++ message_head size (u32 (type x)) (tag x) flag req' serial' crc ++ post) ∧
    is_u32 req' ∧ is_u32 serial' ∧
    (enableSerial_ c = true → req' = lastRecvSerial_ c ∧ serial' = u32 (lastSendSerial_ c + 1)).
Proof.
  intros Hreq Hser Hlr. unfold put_head, next.
  rewrite put_flag_at, bind_Ok, put_size_at, bind_Ok, put_type_at, bind_Ok, put_tag_at, bind_Ok by done.
  destruct (enableSerial_ c); [|exists req, serial; done].
  rewrite put_req_at, bind_Ok, put_serial_at, bind_Ok by done.
  exists (lastRecvSerial_ c), (u32 (lastSendSerial_ c + 1)). split_and!; [done|done|apply u32_range|done].
Qed.

Lemma put_message_ok c x m nc buf sendNum : queued c x m nc → is_u32 (lastRecvSerial_ c) → Forall is_byte buf → 0 ≤ sendNum →
  sendNum + (zlen (Serialize m) + CORPC_MESSAGE_HEAD_SIZE) ≤ zlen buf →
  ∃ f, is_frame c x f ∧ zlen f = zlen (Serialize m) + CORPC_MESSAGE_HEAD_SIZE ∧ Forall is_byte f ∧
    put_message object e c x m (zlen (Serialize m)) buf sendNum = Ok (next c, splice buf sendNum f).
Proof.
  intros Hq Hlr Hb Hn Hle. pose proof (serialize_bytes m) as Hmb. set (n := zlen (Serialize m)) in *.
  assert (0 ≤ n) as Hn0 by apply zlen_nonneg.
  assert (∃ b, seal nc (crypter_ c) (Serialize m) = Some b) as [b Hs].
  { unfold MessageTerminal.seal. destruct nc; [|eauto]. destruct (queued_key _ _ _ _ Hq eq_refl) as [k ->]. simpl. eauto. }
  destruct (MessageTerminal.seal_props object _ _ _ _ Hs Hmb) as [Hbl Hbb]. fold n in Hbl.
  unfold CORPC_MESSAGE_HEAD_SIZE in *. set (pre := ztake sendNum buf). set (post := zdrop (sendNum + (22 + n)) buf).
  assert (zlen pre = sendNum) as Hpre by (unfold pre; zlen).
  assert (buf = pre ++ slice sendNum 22 buf ++ slice (sendNum + 22) n buf ++ post) as Hbuf.
  { rewrite (app_assoc (slice _ _ _)), <-slice_app_ztake by lia. unfold pre, post, slice.
    rewrite <-(zdrop_zdrop (22 + n) sendNum), ztake_zdrop by lia. by rewrite ztake_zdrop. }
  destruct (message_head_any (slice sendNum 22 buf)) as (a1 & a2 & a3 & a4 & r0 & s0 & c0 & Hh & Hr0 & Hs0 & Hc0);
    [apply zlen_slice; unfold CORPC_MESSAGE_HEAD_SIZE; lia|by apply Forall_slice|].
  assert (put_body object c x m n buf sendNum = Ok (pre ++ message_head a1 a2 a3 a4 r0 s0 c0 ++ b ++ post,
    if nc then CORPC_MESSAGE_FLAG_CRYPT else 0)) as Hbody.
  { rewrite Hbuf, Hh, <-Hpre. apply put_body_ok; [done|rewrite zlen_slice; lia|apply MessageTerminal.zlen_message_head|done]. }
  unfold put_message. rewrite Hbody. cbn [mbind outcome_bind].
  destruct (client_put_head_ok c x n (if nc then CORPC_MESSAGE_FLAG_CRYPT else 0) pre (b ++ post) a1 a2 a3 a4 r0 s0 c0 Hr0 Hs0 Hlr)
    as (req & serial & Hput & Hreq & Hser & Hen).
  rewrite Hpre in Hput. rewrite Hput. cbn [mbind outcome_bind].
  set (crc := if enableSendCRC_ c then foldl CRC.crc_step 0xFFFF b else c0).
  assert (is_u16 crc) as Hcrc. { unfold crc. destruct (enableSendCRC_ c); [|done]. by apply CRC.crc_fold_u16. }
  exists (message_head n (u32 (type x)) (tag x) (if nc then CORPC_MESSAGE_FLAG_CRYPT else 0) req serial crc ++ b).
  assert (zlen (message_head n (u32 (type x)) (tag x) (if nc then CORPC_MESSAGE_FLAG_CRYPT else 0) req serial crc) = 22) as Hhl
    by apply MessageTerminal.zlen_message_head.
  split_and!.
  - exists m, nc, b, req, serial, crc. rewrite Hbl. split_and!; try done. intros Hc. unfold crc. by rewrite Hc.
  - rewrite zlen_app, Hhl. lia.
  - apply Forall_app. split; [apply MessageTerminal.message_head_bytes|done].
  - rewrite (splice_split buf _ sendNum (22 + n)) by (rewrite ?zlen_app, ?Hhl; lia). fold pre post.
    assert (enableSendCRC_ (next c) = enableSendCRC_ c) as -> by (unfold next; by destruct (enableSerial_ c)).
    unfold crc. destruct (enableSendCRC_ c); [|by rewrite <-!app_assoc].
    set (h := message_head n (u32 (type x)) (tag x) (if nc then CORPC_MESSAGE_FLAG_CRYPT else 0) req serial c0).
    assert (zlen (pre ++ h) = sendNum + 22) as Hph. { rewrite zlen_app. unfold h. rewrite MessageTerminal.zlen_message_head. unfold CORPC_MESSAGE_HEAD_SIZE. lia. }
    pose proof (zlen_nonneg post).
    assert (zlen ((pre ++ h) ++ b ++ post) = sendNum + 22 + n + zlen post) as Hall by (rewrite zlen_app, (zlen_app b), Hph; lia).
    rewrite (app_assoc pre h), memread_ok by (unfold CORPC_MESSAGE_HEAD_SIZE; lia). cbn [mbind outcome_bind].
    rewrite slice_mid by done. rewrite <-Hbl, CRC.CheckSum_full. cbn [mbind outcome_bind]. rewrite <-app_assoc. unfold h. rewrite <-Hpre.
    rewrite put_crc_at by done.
    cbn [mbind outcome_bind]. by rewrite <-app_assoc, Hbl.
Qed.

(** ** The queue *)

(** The frames of queued messages, one after the other; the serials they
    acknowledge satisfy [R]. *)
Inductive sends (R : Z → Prop) : t M Proto K → list (MessageInfo M) → list bytes → t M Proto K → Prop :=
  | sends_nil c : sends R c [] [] c
  | sends_cons c x xs f fs c' r : R r → is_frame (set_recvSerial r c) x f → sends R (next c) xs fs c' →
      sends R c (x :: xs) (f :: fs) c'.

(** Nothing of this depends on the queue. *)
Lemma next_queue q c : next (set_sendQueue q c) = set_sendQueue q (next c).
Proof. unfold next. simpl. by destruct (enableSerial_ c). Qed.

(** A client without what it receives: all that matters for sending. *)
Definition sending c : t M Proto K :=
  Make (needHB_ c) (enableSendCRC_ c) (enableRecvCRC_ c) (enableSerial_ c) 0 (lastSendSerial_ c) (crypter_ c) [] []
    (registerMessageMap_ c) 0 0 (running_ c) false.
Lemma is_frame_same c c' x f : crypter_ c' = crypter_ c → enableSerial_ c' = enableSerial_ c →
  enableSendCRC_ c' = enableSendCRC_ c → lastSendSerial_ c' = lastSendSerial_ c → lastRecvSerial_ c' = lastRecvSerial_ c →
  is_frame c x f → is_frame c' x f.
Proof.
  intros E1 E2 E3 E4 E5 (m & nc & b & req & serial & crc & [? ? ? ?] & H'). exists m, nc, b, req, serial, crc.
  rewrite E1, E2, E3, E4, E5. split; [|exact H']. constructor; by rewrite ?E1.
Qed.
Lemma sends_sending R c xs fs c' : sends R c xs fs c' → sends R (sending c) xs fs (sending c').
Proof.
  induction 1 as [|c x xs f fs c' r Hr Hf _ IH]; [constructor|]. apply (sends_cons R _ _ _ _ _ _ r); [done| |].
  - by apply (is_frame_same (set_recvSerial r c)).
  - assert (next (sending c) = sending (next c)) as ->; [|done]. unfold next, sending. simpl. destruct (enableSerial_ c) eqn:E; simpl; by rewrite ?E.
Qed.
Lemma sends_app R c xs fs c1 ys gs c2 : sends R c xs fs c1 → sends R c1 ys gs c2 → sends R c (xs ++ ys) (fs ++ gs) c2.
Proof. intros H' H''. induction H' as [|c x xs f fs c' r Hr Hf _ IH]; [done|]. simpl. by apply (sends_cons R _ _ _ _ _ _ r); auto. Qed.
Lemma sends_queue R q c xs fs c' : sends R c xs fs c' → sends R (set_sendQueue q c) xs fs (set_sendQueue q c').
Proof.
  induction 1 as [|c x xs f fs c' r Hr Hf _ IH]; [constructor|]. apply (sends_cons R _ _ _ _ _ _ r); [done| |by rewrite next_queue].
  by apply (is_frame_same (set_recvSerial r c)).
Qed.
Lemma next_keeps c : crypter_ (next c) = crypter_ c ∧ lastRecvSerial_ (next c) = lastRecvSerial_ c ∧
  sendQueue_ (next c) = sendQueue_ c ∧ enableSerial_ (next c) = enableSerial_ c ∧ enableSendCRC_ (next c) = enableSendCRC_ c.
Proof. unfold next. destruct (enableSerial_ c) eqn:E; simpl; by rewrite ?E. Qed.
Definition all_queued c (xs : list (MessageInfo M)) : Prop := Forall (λ x, ∃ m nc, queued c x m nc) xs.
Lemma all_queued_same c c' xs : crypter_ c' = crypter_ c → all_queued c xs → all_queued c' xs.
Proof.
  intros E Hall. eapply Forall_impl; [exact Hall|]. intros x (m & nc & [? ? ? ?]). exists m, nc. constructor; by rewrite ?E.
Qed.

(** ** What receiving leaves alone *)
Record keeps c c' : Prop := {
  keeps_sending : sending c' = sending c;
  keeps_queue : sendQueue_ c' = sendQueue_ c;
  keeps_serial : is_u32 (lastRecvSerial_ c) → is_u32 (lastRecvSerial_ c');
}.
#[local] Instance keeps_preorder : PreOrder keeps.
Proof. split; [by constructor|]. intros c1 c2 c3 [] []. constructor; [congruence|congruence|auto]. Qed.

Lemma handle_keeps now c head body size ty tg fl c' body' :
  handle object e now c head body size ty tg fl = Ok (c', body') → keeps c c'.
Proof.
  unfold handle. case_bool_decide. { intros Hh. inv_bind. simplify_eq. by constructor. }
  case_bool_decide; [by intros [= <- <-]|]. intros Hh. apply bind_Ok_inv in Hh as ([c1 ok] & Hs & Hh).
  assert (keeps c c1) as Hk.
  { unfold check_serial in Hs. destruct (enableSerial_ c); [|by simplify_eq]. inv_bind. repeat case_bool_decide; simplify_eq; try done.
    constructor; [done|done|]. intros _. apply u32_range. }
  rewrite Hk. clear Hs Hk. destruct ok; [|simplify_eq; by constructor].
  unfold accept_message in Hh. apply bind_Ok_inv in Hh as ([b|] & _ & Hh); [|simplify_eq; by constructor].
  apply bind_Ok_inv in Hh as ([m|] & _ & Hh); simplify_eq; by constructor.
Qed.
Lemma parse_round_keeps now buf s o r s' o' r' go :
  parse_round object e now buf s o r = Ok (s', o', r', go) → keeps (self s) (self s').
Proof.
  unfold parse_round. intros Hp. apply bind_Ok_inv in Hp as ([[[s1 o1] r1] g1] & Hhd & Hp).
  assert (self s1 = self s) as <-.
  { clear Hp. unfold parse_head, copy_head in Hhd. case_bool_decide; [|by simplify_eq].
    apply bind_Ok_inv in Hhd as ([[s2 o2] r2] & Hcp & Hhd). assert (self s2 = self s) as <-.
    { clear Hhd. case_bool_decide; inv_bind; by simplify_eq. }
    clear Hcp. case_bool_decide; inv_bind; by simplify_eq. }
  destruct g1; cbn [negb] in Hp; [|by simplify_eq]. apply bind_Ok_inv in Hp as ([[s2 o2] r2] & Hbd & Hp).
  assert (self s2 = self s1) as <-.
  { clear Hp. unfold parse_body in Hbd. destruct (_ && _); [|by simplify_eq]. case_bool_decide; inv_bind; by simplify_eq. }
  case_bool_decide; [|by simplify_eq]. apply bind_Ok_inv in Hp as ([c bb] & Hh%handle_keeps & Hp).
  destruct (closed c); by simplify_eq.
Qed.
Lemma receive_keeps now buf size s s' : receive object e now buf size s = Ok s' → keeps (self s) (self s').
Proof.
  unfold receive. generalize (Z.to_nat size) at 1. intros fuel. generalize 0 at 1. revert s size.
  induction fuel as [|fuel IH]; intros s size o; cbn [parse_loop]; (case_bool_decide; [|by intros [= <-]]); [done|].
  intros Hp. apply bind_Ok_inv in Hp as ([[[s1 o1] r1] go] & Hhd%parse_round_keeps & Hp). rewrite Hhd.
  destruct go; [by eapply IH|by simplify_eq].
Qed.

(** A socket that takes everything, [n] times at least. *)
Definition takes_all (n : nat) (sk : socket) : Prop :=
  Forall (λ i, took i = Everything) (script sk) ∧ (n ≤ length (script sk))%nat.

Lemma flush_all n sk buf sendNum : takes_all (S n) sk → 0 ≤ sendNum ≤ zlen buf →
  ∃ sk', flush sk buf sendNum = Ok (true, sk') ∧ wire sk' = wire sk ++ ztake sendNum buf ∧ takes_all n sk'.
Proof.
  intros [Hall Hlen] Hn. unfold flush. destruct sk as [[|[r pf] sc] w]; simpl in *; [lia|].
  apply Forall_cons in Hall as [Hr Hall]. simpl in Hr. subst r. case_bool_decide as Hpos.
  - rewrite memread_front by lia. cbn [mbind outcome_bind]. rewrite bool_decide_false by lia. simpl.
    exists (Socket sc (w ++ ztake sendNum buf)). split; [|split; [done|split; [done|simpl; lia]]].
    destruct sc; cbn [flush_loop]; by rewrite bool_decide_false by lia.
  - eexists. split; [done|]. simpl. rewrite ztake_0, app_nil_r by lia. split; [done|].
    split; [by constructor|simpl; lia].
Qed.

(** A call of [::write] that takes only [k] of the
    [sendNum] bytes makes the client write wrong bytes: the next call is given
    [sendNum] bytes again, so behind the messages the [k] bytes that follow them
    in the buffer go to the server, or, where the buffer ends, bytes outside of
    it. *)
Theorem client_partial_write k pf sc (wire0 buf : bytes) sendNum : 0 < k < sendNum → sendNum ≤ zlen buf →
  flush (Socket (Io (Only k) false :: Io Everything pf :: sc) wire0) buf sendNum =
    if bool_decide (sendNum + k ≤ zlen buf)
    then Ok (true, Socket sc (wire0 ++ ztake sendNum buf ++ slice sendNum k buf))
    else Fault OutOfBounds.
Proof.
  intros Hk Hn. unfold flush. cbn -[memread]. rewrite (bool_decide_true (0 < sendNum)) by lia.
  rewrite (memread_ok buf 0 k) by lia. cbn -[memread]. rewrite andb_false_r. rewrite (bool_decide_true (0 + k < sendNum)) by lia.
  rewrite (Z.add_0_l k). rewrite (bool_decide_false (k + sendNum < sendNum)) by lia. case_bool_decide as Hfit.
  - rewrite (memread_ok buf k sendNum) by lia. cbn [mbind outcome_bind andb].
    assert (flush_loop sc (((wire0 ++ slice 0 k buf) ++ slice k sendNum buf)) buf (k + sendNum) sendNum =
      Ok (true, Socket sc ((wire0 ++ slice 0 k buf) ++ slice k sendNum buf))) as ->
      by (destruct sc; cbn [flush_loop]; by rewrite bool_decide_false by lia).
    do 3 f_equal. rewrite <-app_assoc. f_equal.
    replace (slice k sendNum buf) with (slice (0 + k) (sendNum - k + k) buf) by (f_equal; lia).
    rewrite (slice_app_ztake (0 + k) (sendNum - k) k) by lia. rewrite app_assoc, <-slice_app_ztake by lia.
    replace (k + (sendNum - k)) with sendNum by lia. replace (0 + k + (sendNum - k)) with sendNum by lia.
    unfold slice at 1. by rewrite zdrop_0 by lia.
  - unfold memread. rewrite bool_decide_false by lia. done.
Qed.

(** The calls of [::write] a list of messages needs behind what is in the buffer. *)
Definition writes (n : nat) (sendNum : Z) : nat := n + (if bool_decide (sendNum > 0) then 1 else 0).

Lemma send_loop_ok (R : Z → Prop) fuel x q c buf sendNum sk extra : R (lastRecvSerial_ c) → sendQueue_ c = q → all_queued c (x :: q) → is_u32 (lastRecvSerial_ c) →
  zlen buf = CORPC_MESSAGE_HEAD_SIZE + CORPC_MAX_MESSAGE_SIZE → Forall is_byte buf → 0 ≤ sendNum ≤ CORPC_MAX_MESSAGE_SIZE →
  (2 * length q + writes 1 sendNum ≤ fuel)%nat → takes_all (writes (S (length q)) sendNum + extra) sk →
  ∃ c' buf' sk' fs, send_loop object e fuel (Some x) c buf sendNum sk = Ok (set_sendQueue [] c', buf', sk') ∧
    sends R c (x :: q) fs c' ∧ wire sk' = wire sk ++ ztake sendNum buf ++ concat fs ∧
    zlen buf' = zlen buf ∧ Forall is_byte buf' ∧ takes_all extra sk'.
Proof.
  revert x q c buf sendNum sk. induction fuel as [|fuel IH]; intros x q c buf sendNum sk HR Hq Hall Hlr Hl Hb Hn Hf Hsk.
  { unfold writes in Hf. destruct (bool_decide _); lia. }
  pose proof Hall as [(m & nc & Hx) Hrest]%Forall_cons. pose proof Hx as [Hm Hc Hk Hsz].
  pose proof (zlen_nonneg (Serialize m)) as Hn0. unfold CORPC_MESSAGE_HEAD_SIZE, CORPC_MAX_MESSAGE_SIZE in *.
  cbn [send_loop]. rewrite Hm. cbn [mbind outcome_bind deref]. rewrite message_size_ok.
  rewrite (u32_small (zlen (Serialize m))), !(u32_small (_ + _)), (u32_small (_ - _)), (bool_decide_false (_ > _)) by (unfold CORPC_MESSAGE_HEAD_SIZE, CORPC_MAX_MESSAGE_SIZE; lia).
  case_bool_decide as Hfit; unfold CORPC_MESSAGE_HEAD_SIZE, CORPC_MAX_MESSAGE_SIZE in Hfit.
  - destruct (put_message_ok c x m nc buf sendNum Hx Hlr Hb) as (f & Hfr & Hfl & Hfb & ->); [lia|unfold CORPC_MESSAGE_HEAD_SIZE; lia|].
    unfold CORPC_MESSAGE_HEAD_SIZE in Hfl. cbn [mbind outcome_bind]. destruct (next_keeps c) as (_ & Elr & Esq & _).
    unfold pop_send. rewrite Esq, Hq.
    assert (zlen (splice buf sendNum f) = zlen buf) as Hl' by (apply zlen_splice; lia).
    assert (ztake (sendNum + (zlen (Serialize m) + 22)) (splice buf sendNum f) = ztake sendNum buf ++ f) as Htk.
    { rewrite <-Hfl. apply splice_append; lia. }
    assert (Forall is_byte (splice buf sendNum f)) as Hb' by (by apply splice_Forall).
    destruct q as [|y q'].
    + cbn [mbind outcome_bind]. rewrite bool_decide_false by auto.
      destruct (flush_all extra sk (splice buf sendNum f) (sendNum + (zlen (Serialize m) + CORPC_MESSAGE_HEAD_SIZE)))
        as (sk' & -> & Hw & Hsk'); [|unfold CORPC_MESSAGE_HEAD_SIZE; lia|].
      { destruct Hsk as [? ?]. split; [done|]. unfold writes in *. simpl in *. destruct (bool_decide _); lia. }
      cbn [mbind outcome_bind]. exists (next c), (splice buf sendNum f), sk', [f].
      split; [destruct fuel; cbn [send_loop]; do 3 f_equal; unfold next in *; destruct (enableSerial_ c); destruct c; simpl in *; by subst|].
      split; [apply (sends_cons R _ _ _ _ _ _ (lastRecvSerial_ c)); [done|by apply (is_frame_same c)|constructor]|].
      split; [|done]. rewrite Hw. unfold CORPC_MESSAGE_HEAD_SIZE. rewrite Htk. simpl. by rewrite app_nil_r.
    + cbn [mbind outcome_bind]. rewrite bool_decide_true by done.
      destruct (IH y q' (set_sendQueue q' (next c)) (splice buf sendNum f) (sendNum + (zlen (Serialize m) + CORPC_MESSAGE_HEAD_SIZE)) sk)
        as (c' & buf' & sk' & fs & -> & Hsends & Hw & Hl2 & Hb2 & Hsk'); try done; unfold CORPC_MESSAGE_HEAD_SIZE.
      * simpl. by rewrite Elr.
      * apply (all_queued_same c); [apply next_keeps|done].
      * simpl. by rewrite Elr.
      * congruence.
      * lia.
      * unfold writes in *. simpl in *. destruct (bool_decide (sendNum > 0)), (bool_decide (_ > 0)); lia.
      * destruct Hsk as [? ?]. split; [done|]. unfold writes in *. simpl in *.
        destruct (bool_decide (sendNum > 0)), (bool_decide (_ > 0)); lia.
      * apply (sends_queue R (sendQueue_ c)) in Hsends. exists (set_sendQueue (sendQueue_ c) c'), buf', sk', (f :: fs).
        split; [done|]. split; [apply (sends_cons R _ _ _ _ _ _ (lastRecvSerial_ c)); [done|by apply (is_frame_same c)|]|
          split; [|split; [congruence|done]]].
        -- assert (set_sendQueue (sendQueue_ c) (set_sendQueue q' (next c)) = next c) as <-; [|done].
           unfold next. by destruct (enableSerial_ c), c.
        -- rewrite Hw. unfold CORPC_MESSAGE_HEAD_SIZE. rewrite Htk. simpl. by rewrite <-app_assoc.
  - assert (sendNum > 0) as Hpos by lia. unfold writes in Hf, Hsk. rewrite bool_decide_true in Hf, Hsk by done.
    cbn [mbind outcome_bind].
    destruct (flush_all (S (length q) + extra) sk buf sendNum) as (sk1 & -> & Hw1 & Hsk1);
      [destruct Hsk as [? ?]; split; [done|lia]|lia|]. cbn [mbind outcome_bind].
    destruct (IH x q c buf 0 sk1) as (c' & buf' & sk' & fs & -> & Hsends & Hw & Hl2 & Hb2 & Hsk'); try done.
    + unfold writes. rewrite bool_decide_false by lia. lia.
    + unfold writes. rewrite bool_decide_false by lia. destruct Hsk1. split; [done|lia].
    + exists c', buf', sk', fs. split_and!; try done. rewrite Hw, Hw1, (ztake_0 buf 0) by lia. by rewrite <-app_assoc.
Qed.

(** All that is queued is written. *)
Lemma send_all_ok (R : Z → Prop) c buf sk extra : R (lastRecvSerial_ c) → all_queued c (sendQueue_ c) → is_u32 (lastRecvSerial_ c) →
  zlen buf = CORPC_MESSAGE_HEAD_SIZE + CORPC_MAX_MESSAGE_SIZE → Forall is_byte buf →
  takes_all (length (sendQueue_ c) + extra) sk →
  ∃ c' buf' sk' fs, send_all object e c buf sk = Ok (set_sendQueue [] c', buf', sk') ∧ sends R c (sendQueue_ c) fs c' ∧
    wire sk' = wire sk ++ concat fs ∧ zlen buf' = zlen buf ∧ Forall is_byte buf' ∧ takes_all extra sk'.
Proof.
  intros HR Hall Hlr Hl Hb Hsk. unfold send_all, pop_send. destruct (sendQueue_ c) as [|x q] eqn:Eq.
  - exists c, buf, sk, []. simpl. rewrite app_nil_r. split_and!; try done; [|constructor]. do 3 f_equal. destruct c. simpl in *. by subst.
  - destruct (send_loop_ok R (2 * length q + 2) x q (set_sendQueue q c) buf 0 sk extra)
      as (c' & buf' & sk' & fs & Hs & Hsends & Hw & ?); try done.
    + by apply (all_queued_same c).
    + unfold writes. rewrite bool_decide_false by lia. lia.
    + unfold writes. rewrite bool_decide_false, Nat.add_0_r by lia. done.
    + apply (sends_queue R (x :: q)) in Hsends. exists (set_sendQueue (x :: q) c'), buf', sk', fs.
      change (sendQueue_ (set_sendQueue q c)) with q. split; [exact Hs|]. split.
      * assert (set_sendQueue (x :: q) (set_sendQueue q c) = c) as <-; [|done]. destruct c. simpl in *. by subst.
      * rewrite Hw, (ztake_0 buf 0) by lia. done.
Qed.

(** ** The terminal gets the messages *)
Section terminal.
Context {Handle : Type} (er : endian) (now : Z).
Implicit Types (cr : MessageTerminal.Connection M Proto Handle K).
Import MessageTerminal (terminal_, recvSerial_, decodeError_).

Abbreviation terminal_run := (Frames.run CORPC_MESSAGE_HEAD_SIZE CORPC_MAX_MESSAGE_SIZE
  (TcpPipeline.field 0 FOUR_BYTES) (MessageTerminal.decode (M:=M) (Proto:=Proto) (Handle:=Handle) object er now)).

(** A queued message as the terminal knows messages. *)
Definition info_of x (serial : Z) : SendMessageInfo (content M) :=
  {| MessageBuffer.type := type x; MessageBuffer.isRaw := false; MessageBuffer.needCrypt := default false (needCrypter x);
     MessageBuffer.tag := tag x; MessageBuffer.serial := serial; MessageBuffer.msg := Protobuf <$> proto x |}.

(** The terminal is set up for the client. *)
Record paired c cr : Prop := {
  paired_crc : MessageTerminal.enableRecvCRC_ (terminal_ cr) = true → enableSendCRC_ c = true;
  paired_keys : keys_match object (crypter_ c) (MessageTerminal.crypter_ cr);
  paired_serial : MessageTerminal.enableSerial_ (terminal_ cr) = true →
    enableSerial_ c = true ∧ u32 (lastSendSerial_ c) = u32 (recvSerial_ cr);
  paired_alive : decodeError_ cr = false;
}.
(** The terminal takes the message. *)
Definition welcome cr x : Prop := 0 ≤ type x < 2^31 ∧ is_u16 (tag x) ∧ accepts cr (info_of x 0).

Lemma paired_next c cr : paired c cr → paired (next c) (advanced cr).
Proof.
  intros [Hc Hk Hs Ha]. destruct (next_keeps c) as (Ek & _ & _ & Es & Ec). destruct (advanced_keeps cr) as (Et & Ekr & Ed).
  constructor; rewrite ?Et, ?Ec, ?Ek, ?Ekr, ?Es, ?Ed; [exact Hc|exact Hk| |exact Ha].
  intros Hes. destruct (Hs Hes) as [Hcs He]. split; [done|].
  unfold next, advanced. rewrite Hcs, Hes. simpl. unfold u32 in *. rewrite !Z.mod_mod by lia.
  rewrite <-(Zplus_mod_idemp_l (lastSendSerial_ c)), He. by rewrite Zplus_mod_idemp_l.
Qed.
Lemma welcome_advanced cr x : welcome cr x → welcome (advanced cr) x.
Proof.
  intros (Ht & Htag & Ha). split; [exact Ht|]. split; [exact Htag|]. unfold accepts. by destruct (advanced_keeps cr) as (-> & _).
Qed.

(** One frame at the front of the stream. *)
Lemma run_frame_of c cr x f rest : is_frame c x f → paired c cr → welcome cr x → Forall is_byte rest →
  is_u32 (lastRecvSerial_ c) →
  ∃ task, terminal_run cr (f ++ rest) = Frames.push [task] (terminal_run (advanced cr) rest) ∧
    delivers cr (info_of x 0) (lastRecvSerial_ c) task.
Proof.
  intros (m & nc & b & req & serial & crc & [Hm Hnc Hk Hsz] & Hs & -> & Hreq & Hser & Hcrc & Hen & Hcc) [Pc Pk Ps Pa] (Ht & Htag & Hacc) Hrest Hlr.
  pose proof (serialize_bytes m) as Hmb. destruct (MessageTerminal.seal_props object _ _ _ _ Hs Hmb) as [Hbl Hbb].
  assert (info_wf (info_of x serial)) as Hinfo.
  { split; [|split; [exact Ht|split; [exact Htag|exact Hser]]]. unfold MessageTerminal.sendable. simpl. by rewrite Hm. }
  assert (MessageTerminal.plain (info_of x serial) = Serialize m) as Hpl by (unfold MessageTerminal.plain; simpl; by rewrite Hm).
  destruct (decode_arrived object er now cr (info_of x serial) (crypter_ c) b req crc) as (body' & task & Hd & Hdel); try done.
  { intros Hr. by apply Hcc, Pc. }
  { intros Hes. destruct (Ps Hes) as [Hcs He]. destruct (Hen Hcs) as [_ ->]. simpl. unfold u32 in *.
    rewrite <-Zplus_mod_idemp_l, He. by rewrite Zplus_mod_idemp_l. }
  { rewrite Hpl. simpl. by rewrite Hnc. }
  exists task. split.
  - rewrite <-app_assoc. unfold head_with in Hd. simpl in Hd. rewrite Hnc in Hd. simpl in Hd.
    destruct (advanced_keeps cr) as (_ & _ & Ed).
    rewrite Frames.run_frame with (c' := advanced cr) (t := Some task); [done|done|..].
    + apply TcpPipeline.field_nonneg.
    + apply MessageTerminal.zlen_message_head.
    + apply message_head_field. pose proof (zlen_nonneg b). unfold CORPC_MAX_MESSAGE_SIZE, CORPC_MESSAGE_HEAD_SIZE, is_u32 in *. lia.
    + unfold CORPC_MESSAGE_HEAD_SIZE in *. lia.
    + rewrite !Forall_app. split_and!; [apply MessageTerminal.message_head_bytes|done|done].
    + unfold decode_frame. simpl. unfold frame_of. by rewrite Hd.
    + simpl. rewrite Ed. apply Pa.
  - unfold delivers in *. simpl in *. destruct Hdel as (? & ? & Hr & Hc). split_and!; try done. rewrite Hr.
    destruct (MessageTerminal.enableSerial_ (terminal_ cr)); [|done]. destruct (Ps eq_refl) as [Hcs _]. by destruct (Hen Hcs) as [-> _].
Qed.
Lemma frame_bytes c x f : is_frame c x f → Forall is_byte f.
Proof.
  intros (m & nc & b & req & serial & crc & _ & Hs & -> & _). apply Forall_app. split; [apply MessageTerminal.message_head_bytes|].
  eapply MessageTerminal.seal_props; [done|exact Hs|]. apply serialize_bytes.
Qed.
Lemma sends_bytes R c xs fs c' : sends R c xs fs c' → Forall is_byte (concat fs).
Proof. induction 1; simpl; [constructor|]. apply Forall_app. split; [by eapply frame_bytes|done]. Qed.

Lemma run_sends (R : Z → Prop) c cr xs fs c' : (∀ r, R r → is_u32 r) → sends R c xs fs c' → paired c cr → Forall (welcome cr) xs →
  ∃ ts, terminal_run cr (concat fs) = Frames.Waiting (advance (length xs) cr) ts [] ∧
    Forall2 (λ x t, ∃ r, R r ∧ delivers cr (info_of x 0) r t) xs ts ∧ paired c' (advance (length xs) cr).
Proof.
  intros HR Hs. revert cr. induction Hs as [c|c x xs f fs c' r Hr Hf Hs IH]; intros cr Hp Hw. { exists []. by split_and!. }
  apply Forall_cons in Hw as [Hx Hw].
  destruct (IH (advanced cr)) as (ts & Hrun & Hts & Hp').
  { by apply paired_next. } { eapply Forall_impl; [exact Hw|]. apply welcome_advanced. }
  destruct (run_frame_of (set_recvSerial r c) cr x f (concat fs) Hf) as (task & Hone & Hdel);
    [by destruct Hp|done|by eapply sends_bytes|by apply HR|].
  exists (task :: ts). cbn [concat]. rewrite Hone, Hrun.
  assert (advance (length (x :: xs)) cr = advance (length xs) (advanced cr)) as -> by apply Nat.iter_succ_r.
  split_and!; try done. constructor; [by exists r|]. eapply Forall2_impl; [exact Hts|]. intros y tk (r' & Hr' & Hd). exists r'.
  split; [done|]. eapply delivers_same; [|exact Hd]. exact (advanced_keeps cr).
Qed.

(** Everything the application has queued is written, and
    the bytes are, for a terminal that is set up for the client, exactly the
    queued messages: however they are cut into reads, the receiving pipeline of
    the terminal delivers each message once, in order, with its type, tag,
    acknowledged serial and content, and client and terminal stay in step for
    what is sent next.  The writes are assumed to take all they are given. *)
Theorem client_sends c cr buf sk extra :
  all_queued c (sendQueue_ c) → is_u32 (lastRecvSerial_ c) →
  zlen buf = CORPC_MESSAGE_HEAD_SIZE + CORPC_MAX_MESSAGE_SIZE → Forall is_byte buf →
  takes_all (length (sendQueue_ c) + extra) sk → paired c cr → Forall (welcome cr) (sendQueue_ c) →
  ∃ c' buf' sk' out, send_all object e c buf sk = Ok (c', buf', sk') ∧ wire sk' = wire sk ++ out ∧ sendQueue_ c' = [] ∧
    takes_all extra sk' ∧
    ∀ chunks, concat chunks = out → Forall (λ ch, zlen ch < 2^31) chunks →
      ∃ ps, terminal_feed object er now cr chunks = Ok (ps, true) ∧
        Forall2 (λ x t, delivers cr (info_of x 0) (lastRecvSerial_ c) t) (sendQueue_ c) (TcpPipeline.tasks ps) ∧
        TcpPipeline.conn ps = advance (length (sendQueue_ c)) cr ∧ paired c' (TcpPipeline.conn ps).
Proof.
  intros Hall Hlr Hl Hb Hsk Hp Hw.
  destruct (send_all_ok (eq (lastRecvSerial_ c)) c buf sk extra) as (c' & buf' & sk' & fs & Hs & Hsends & Hwire & _ & _ & Htk); try done.
  destruct (run_sends (eq (lastRecvSerial_ c)) c cr _ fs c' ltac:(by intros ? <-) Hsends Hp Hw) as (ts & Hrun & Hts & Hp').
  exists (set_sendQueue [] c'), buf', sk', (concat fs). split_and!; try done. intros chunks Hc Hlen.
  destruct (feed_run object er now cr _ _ _ chunks (sends_bytes _ _ _ _ _ Hsends) Hrun Hc Hlen) as (ps & Hps & <- & Hc').
  exists ps. rewrite Hc'. split_and!; try done; [|destruct Hp'; by constructor].
  eapply Forall2_impl; [exact Hts|]. by intros x tk (r & <- & Hd).
Qed.
End terminal.
End sending.
