(* ===== verification/ClientWork.v ===== *)
(** * The loop of the client

    [TcpClient::workRoutine] as a whole: both directions of the connection, for
    every sequence of rounds. *)
From stdpp Require Import gmap.
From S2P Require Import Prelude Define Crc Crypter MessageBuffer Pipeline Sending RpcWire Terminal Messaging Resend Handlers MessageClient ClientStream ClientSend.
Import MessageClient.
Open Scope Z_scope.

Section working.
Context {M Proto Handle K : Type} `{MessageLaws M Proto}.
Context (object : K → Crypter) `{!∀ k, CrypterLaws (object k)} (e : endian).
Implicit Types (c : t M Proto K) (w : work M Proto K).

Abbreviation round := (Z * list (MessageInfo M) * input)%type.
Definition data_of (r : round) : bytes := match r.2 with ReadData d => d | _ => [] end.
Definition pushed_of (r : round) : list (MessageInfo M) := r.1.2.

(** System calls that do not fail; a read returns at most the buffer. *)
Definition round_ok (r : round) : Prop :=
  match r.2 with
  | PollError | ReadError => False
  | ReadData d => Forall is_byte d ∧ zlen d ≤ CORPC_MESSAGE_HEAD_SIZE + CORPC_MAX_MESSAGE_SIZE
  | _ => True
  end.

(** Rounds that reach the sending part. *)
Definition reaches_send (r : round) : Prop := match r.2 with PollNothing | ReadData _ => True | _ => False end.

Abbreviation client_run := (Frames.run CORPC_MESSAGE_HEAD_SIZE CORPC_MAX_MESSAGE_SIZE
  (TcpPipeline.field 0 FOUR_BYTES) (decode object e 0)).

Abbreviation client_wf := (TcpPipeline.wf CORPC_MESSAGE_HEAD_SIZE CORPC_MAX_MESSAGE_SIZE 0 FOUR_BYTES).

(** Between rounds: the parser continues the stream, which will leave the
    client [cfin]; the messages [sent] of the application are on the wire, the
    others in the queue. *)
Record working c0 (out0 : bytes) (cfin : t M Proto K) (rest : bytes) (xs : list (MessageInfo M)) (w : work M Proto K) : Prop := {
  wk_wf : client_wf (pipe_of (vars w));
  wk_fields : fields_ok e (vars w);
  wk_open : closed (self (vars w)) = false;
  wk_running : running_ (self (vars w)) = true;
  wk_hb : needHB_ (self (vars w)) = false;
  wk_serial : is_u32 (lastRecvSerial_ (self (vars w)));
  wk_buf : zlen (iobuf w) = CORPC_MESSAGE_HEAD_SIZE + CORPC_MAX_MESSAGE_SIZE;
  wk_bytes : Forall is_byte (iobuf w);
  wk_run : client_run (receiving (self (vars w))) (TcpPipeline.pending (pipe_of (vars w)) ++ rest) = Frames.Waiting cfin [] [];
  wk_key : crypter_ (self (vars w)) = crypter_ c0;
  wk_queue : all_queued c0 (sendQueue_ (self (vars w)));
  wk_sent : ∃ done_ fs, xs = done_ ++ sendQueue_ (self (vars w)) ∧
    sends object is_u32 (sending c0) done_ fs (sending (self (vars w))) ∧ wire (sock w) = out0 ++ concat fs;
}.

Lemma next_receiving c : receiving (next c) = receiving c.
Proof. unfold next. by destruct (enableSerial_ c). Qed.
Lemma sends_receiving R c xs fs c' : sends object R c xs fs c' → receiving c' = receiving c.
Proof. induction 1 as [|c x xs f fs c' r _ _ _ IH]; [done|]. by rewrite IH, next_receiving. Qed.
Lemma wf_self (s : locals M Proto K) c : client_wf (pipe_of s) → client_wf (pipe_of (set_self c s)).
Proof. intros [[] ?]. split; [by constructor|done]. Qed.

Section round.
Context (c0 cfin : t M Proto K) (out0 : bytes).

Lemma push_working rest xs ys w : all_queued c0 ys → working c0 out0 cfin rest xs w →
  working c0 out0 cfin rest (xs ++ ys) (push_all ys w).
Proof.
  intros Hys [Hwf Hf Ho Hr Hhb Hser Hbl Hbb Hrun Hk Hq (dn & fs & -> & Hs & Hw)]. constructor; try done.
  - by apply wf_self.
  - unfold all_queued in *. simpl. by apply Forall_app.
  - exists dn, fs. by rewrite <-app_assoc.
Qed.

(** The sending part of a round. *)
Lemma send_part_ok now rest xs w extra : working c0 out0 cfin rest xs w →
  takes_all (length (sendQueue_ (self (vars w))) + extra) (sock w) →
  ∃ w', send_part object e now w = Ok w' ∧ working c0 out0 cfin rest xs w' ∧ sendQueue_ (self (vars w')) = [] ∧
    takes_all extra (sock w').
Proof.
  intros [Hwf Hf Ho Hr Hhb Hser Hbl Hbb Hrun Hk Hq (dn & fs & -> & Hs & Hw)] Htk. unfold send_part, heartbeat. rewrite Hhb.
  cbn [negb mbind outcome_bind]. rewrite Ho.
  destruct (send_all_ok object e is_u32 (self (vars w)) (iobuf w) (sock w) extra)
    as (c' & buf' & sk' & gs & -> & Hsends & Hwire & Hl' & Hb' & Htk'); try done; [by apply (all_queued_same c0)|].
  pose proof (sends_receiving _ _ _ _ _ Hsends) as Hrc. cbn [mbind outcome_bind].
  eexists. split; [done|]. split; [|done].
  assert (closed c' = false ∧ running_ c' = true ∧ needHB_ c' = false ∧ lastRecvSerial_ c' = lastRecvSerial_ (self (vars w)) ∧
    crypter_ c' = crypter_ (self (vars w))) as (E1 & E2 & E3 & E4 & E5) by (unfold receiving, set_sendHBTime in Hrc; simpl in Hrc; simplify_eq; split_and!; congruence).
  constructor; simpl; try done.
  - by apply wf_self.
  - by rewrite E4.
  - by rewrite Hl'.
  - change (receiving (set_sendQueue [] c')) with (receiving c'). rewrite Hrc. exact Hrun.
  - congruence.
  - constructor.
  - exists (dn ++ sendQueue_ (self (vars w))), (fs ++ gs). rewrite app_nil_r. split; [done|]. split.
    + eapply sends_app; [exact Hs|]. change (sending (set_sendQueue [] c')) with (sending c'). by apply sends_sending.
    + by rewrite Hwire, Hw, concat_app, app_assoc.
Qed.

Lemma round_working now ys i rest xs w extra :
  working c0 out0 cfin (data_of (now, ys, i) ++ rest) xs w → Forall is_byte rest → round_ok (now, ys, i) → all_queued c0 ys →
  takes_all (length (sendQueue_ (self (vars w))) + length ys + extra) (sock w) →
  ∃ w', work_round object e now i (push_all ys w) = Ok w' ∧ working c0 out0 cfin rest (xs ++ ys) w' ∧
    takes_all (length (sendQueue_ (self (vars w'))) + extra) (sock w') ∧
    (reaches_send (now, ys, i) → sendQueue_ (self (vars w')) = []).
Proof.
  intros Hwk Hrest Hok Hys Htk. apply (push_working _ _ ys) in Hwk; [|done]. revert Hwk Htk.
  assert (length (sendQueue_ (self (vars w))) + length ys = length (sendQueue_ (self (vars (push_all ys w)))))%nat as ->
    by (simpl; by rewrite length_app).
  change (sock w) with (sock (push_all ys w)). generalize (push_all ys w). clear w Hys. intros w Hwk Htk.
  unfold work_round. destruct i as [| | |d| |]; try done; unfold data_of in Hwk; simpl in Hwk.
  - destruct (send_part_ok (if needHB_ (self (vars w)) then now else 0) _ _ w extra Hwk Htk) as (w' & -> & Hw' & Hq & Ht').
    exists w'. by rewrite Hq.
  - exists w. by split_and!.
  - destruct Hok as [Hd Hdl]. pose proof (zlen_nonneg d). pose proof Hwk as [Hwf Hf Ho Hr Hhb Hser Hbl Hbb Hrun Hk Hq Hsent].
    assert (zlen (read_into (iobuf w) d) = zlen (iobuf w)) as Hl' by (unfold read_into; zlen).
    assert (Forall is_byte (read_into (iobuf w) d)) as Hb' by (apply Forall_app; split; [done|by apply Forall_drop]).
    destruct (receive_run object e (if needHB_ (self (vars w)) then now else 0) (vars w) (read_into (iobuf w) d) (zlen d) rest cfin)
      as (s' & Hrecv & Hwf' & Hf' & Ho' & Hrun'); try done.
    { lia. } { unfold CORPC_MESSAGE_HEAD_SIZE, CORPC_MAX_MESSAGE_SIZE in *. lia. }
    { unfold read_into. by rewrite ztake_app_exact. }
    rewrite Hrecv. cbn [mbind outcome_bind]. rewrite Ho'. apply receive_keeps in Hrecv as [Ks Kq Ku].
    assert (running_ (self s') = true ∧ needHB_ (self s') = false ∧ crypter_ (self s') = crypter_ (self (vars w)))
      as (E1 & E2 & E3) by (unfold sending in Ks; simplify_eq; split_and!; congruence).
    destruct (send_part_ok (if needHB_ (self (vars w)) then now else 0) rest (xs ++ ys) (Work s' (read_into (iobuf w) d) (hbmsg w) (sock w)) extra)
      as (w' & -> & Hw' & Hq' & Ht'); [|simpl; by rewrite Kq|exists w'; by rewrite Hq'].
    constructor; simpl; try done.
    + by apply Ku.
    + by rewrite Hl'.
    + congruence.
    + by rewrite Kq.
    + rewrite Kq, Ks. exact Hsent.
  - exists w. by split_and!.
Qed.

Lemma rounds_working rounds rest xs w extra :
  working c0 out0 cfin (concat (data_of <$> rounds) ++ rest) xs w → Forall is_byte rest → Forall round_ok rounds →
  all_queued c0 (concat (pushed_of <$> rounds)) →
  takes_all (length (sendQueue_ (self (vars w))) + length (concat (pushed_of <$> rounds)) + extra) (sock w) →
  ∃ w', workRoutine object e rounds w = Ok w' ∧ working c0 out0 cfin rest (xs ++ concat (pushed_of <$> rounds)) w' ∧
    (∀ r, last rounds = Some r → reaches_send r → sendQueue_ (self (vars w')) = []).
Proof.
  revert xs w. induction rounds as [|[[now ys] i] rounds IH]; intros xs w Hwk Hrest Hok Hys Htk.
  { exists w. simpl in *. by rewrite app_nil_r. }
  apply Forall_cons in Hok as [Hok1 Hok]. rewrite !fmap_cons in *. cbn [concat] in *. change (pushed_of (now, ys, i)) with ys in *.
  apply Forall_app in Hys as [Hys1 Hys]. rewrite <-app_assoc in Hwk. rewrite length_app in Htk.
  destruct (round_working now ys i (concat (data_of <$> rounds) ++ rest) xs w (length (concat (pushed_of <$> rounds)) + extra))
    as (w1 & Hw1 & Hwk1 & Htk1 & Hq1); try done.
  { apply Forall_app. split; [|done]. apply Forall_concat, Forall_fmap. eapply Forall_impl; [exact Hok|].
    intros [[n y] [| | |d| |]]; simpl; try constructor. by intros [? _]. }
  { destruct Htk as [? ?]. split; [done|lia]. }
  destruct (IH (xs ++ ys) w1) as (w' & Hw' & Hwk' & Hq'); try done.
  { by rewrite Nat.add_assoc in Htk1. }
  exists w'. rewrite <-app_assoc in Hwk'. split; [|split; [exact Hwk'|]].
  2: { intros r. rewrite last_cons. destruct (last rounds) as [r'|] eqn:El; [intros [= <-]; by apply Hq'|].
       apply last_None in El. subst. simpl in Hw'. injection Hw' as <-. by intros [= <-]. }
  cbn [workRoutine].
  destruct Hwk as [_ _ Ho Hr _ _ _ _ _ _ _ _]. rewrite Ho. simpl. rewrite Hr. cbn [negb].
  by rewrite Hw1.
Qed.
End round.

End working.

(** ** Concrete clients *)
Module ClientExample.
Import TerminalExample.
Abbreviation client := (MessageClient.t Fixed64.msg unit unit).

(** A client for the terminal of TerminalExample: checksums, serials and the
    same key; it knows messages of type 5. *)
Definition c0 : client :=
  MessageClient.start 0 (MessageClient.registerMessage 5 (Some tt) (MessageClient.init false true true true (Some tt) 0)).2.

(** A message the application sends. *)
Definition hi : MessageInfo Fixed64.msg := Info 5 3 (Some (Fixed64.Msg 8)) (Some true).

(** Three rounds: the first byte of two frames arrives, nothing can be read, the
    rest arrives; the application queues a message before the first and before
    the second round. *)
Definition rounds : list (Z * list (MessageInfo Fixed64.msg) * input) :=
  [(10, [hi], ReadData (ztake 1 (concat two_frames))); (14, [hi], ReadAgain); (18, [], ReadData (zdrop 1 (concat two_frames)))].
Definition sk0 : socket := Socket [Io Everything false; Io Everything false] [].

Lemma hello_sent s : is_u32 s → sent object (fresh, hello s) (MessageTerminal.head_of fresh (hello s) sent_body ++ sent_body).
Proof.
  intros Hs. by constructor.
Qed.
Lemma hello_readable (c : client) s : enableRecvCRC_ c = true → crypter_ c = Some tt → s = u32 (lastRecvSerial_ c + 1) →
  registerMessageMap_ c !! 5 = Some (Some tt) → readable object c (fresh, hello s).
Proof.
  intros Hc Hk Hs Hm. constructor; simpl; [done| |auto|].
  - rewrite Hk. intros k _. exists tt. split; [done|]. intros l Hl. by apply opened_sealed.
  - exists (Some tt). split; [done|]. intros _. exists tt. split; [done|]. split; [vm_compute; by eexists|]. by intros m [= <-].
Qed.
Lemma hi_queued : queued c0 hi (Fixed64.Msg 8) true.
Proof. by constructor. Qed.
Lemma two_frames_bytes : Forall is_byte (concat two_frames).
Proof. apply (bool_decide_unpack _). vm_compute. exact I. Qed.
Lemma two_frames_length : zlen (concat two_frames) = 60.
Proof. vm_compute. reflexivity. Qed.
Lemma rounds_fine : Forall round_ok rounds.
Proof.
  pose proof two_frames_bytes as Hb. pose proof two_frames_length as Hl. unfold CORPC_MESSAGE_HEAD_SIZE, CORPC_MAX_MESSAGE_SIZE.
  unfold rounds. generalize dependent (concat two_frames). intros d Hb Hl.
  constructor; [|constructor; [done|constructor; [|done]]]; unfold round_ok; simpl.
  - split; [by apply Forall_take|]. rewrite zlen_ztake. unfold CORPC_MESSAGE_HEAD_SIZE, CORPC_MAX_MESSAGE_SIZE. lia.
  - split; [by apply Forall_drop|]. rewrite zlen_zdrop. unfold CORPC_MESSAGE_HEAD_SIZE, CORPC_MAX_MESSAGE_SIZE. lia.
Qed.


(** One of the bytes is taken, then all: the message of 30 bytes is followed by
    a byte of what was received before. *)
Lemma client_partial_write_witness :
  flush (Socket [Io (Only 1) false; Io Everything false] []) (zeros 40) 30 = Ok (true, Socket [] (zeros 31)).
Proof. rewrite (client_partial_write 1 false [] [] (zeros 40) 30); [vm_compute; reflexivity|lia|vm_compute; congruence]. Defined.

(** A head that announces 65537 bytes. *)
Definition big_head : bytes := MessageTerminal.message_head 65537 5 0 0 0 1 0.
Lemma client_oversize_witness :
  ∃ s, receive object LittleEndian 0 (big_head ++ zeros 65536) (zlen (big_head ++ zeros 65536)) (init_locals c0) = Ok s ∧ self s = c0 ∧
    receive object LittleEndian 4 [1] (zlen [1]) s = Fault OutOfBounds.
Proof.
  apply (client_oversize object LittleEndian 0 4 c0 big_head (zeros 65536) [1]).
  - apply MessageTerminal.zlen_message_head.
  - apply MessageTerminal.message_head_bytes.
  - vm_compute. reflexivity.
  - by apply zlen_zeros.
  - done.
Defined.

(** The messages 1 and 3 of the terminal were kept, 2 was sent without being
    kept. *)
Definition resent : bytes :=
  default [] (concat (A:=Z) <$> mapM (MessageTerminal.message_frame object (conn s3)) (MessageTerminal.resend (conn s3))).
Definition after_resend : outcome (bool * list Z * Z) :=
  (λ s, (closed (self s), type <$> recvQueue_ (self s), lastRecvSerial_ (self s))) <$>
    receive object LittleEndian 0 resent (zlen resent) (init_locals c0).

(** What [MessageTerminal::Connection::resend]
    sends is accepted by a terminal, which skips the serials of messages that
    were not kept when a [CORPC_MSG_TYPE_JUMP_SERIAL] message says so, but not
    by [TcpClient], which ignores that message: after messages with the serials
    1 (kept), 2 (not kept) and 3 (kept), a new client takes the first message
    that is sent again and closes the connection on the next. *)
Theorem client_refuses_resend :
  (MessageBuffer.serial <$> MessageTerminal.resend (conn s3)) = [1; 2; 3] ∧ after_resend = Ok (true, [5], 1).
Proof. split; vm_compute; reflexivity. Qed.
End ClientExample.
