(* ===== verification/Threads.v ===== *)
(** * Interleavings of coroutines

    The synchronisation primitives of corpc are used by coroutines of several
    threads.  A primitive is modelled as a transition system: the state has the
    shared variables and, for every coroutine, the point of the code it has
    reached with its local variables; a step is one access to the shared
    variables by one coroutine.  The invariants count the coroutines at certain
    points; this file has the counting lemmas and the tactic that uses them. *)
From S2P Require Import Prelude.
Open Scope Z_scope.

Definition b2z (b : bool) : Z := if b then 1 else 0.

Lemma b2z_range b : 0 ≤ b2z b ≤ 1.
Proof. by destruct b. Qed.

Section count.
Context {PC : Type}.
Implicit Types (f : PC → bool) (l : list PC).

(** The number of coroutines at a point that satisfies [f]. *)
Fixpoint count f l : Z :=
  match l with
  | [] => 0
  | x :: l => b2z (f x) + count f l
  end.

Lemma count_nonneg f l : 0 ≤ count f l.
Proof. induction l as [|x l IH]; simpl; [done|]. destruct (f x); simpl; lia. Qed.

Lemma count_le_length f l : count f l ≤ zlen l.
Proof. induction l as [|x l IH]; [done|]. rewrite zlen_cons. simpl. destruct (f x); simpl; lia. Qed.

(** Moving one coroutine from [x] to [y]. *)
Lemma count_insert f l i x y : l !! i = Some x →
  count f (<[i := y]> l) = count f l - b2z (f x) + b2z (f y).
Proof.
  revert i. induction l as [|z l IH]; intros i Hi; [done|]. destruct i as [|i]; simpl in *.
  - injection Hi as ->. lia.
  - rewrite (IH i Hi). lia.
Qed.

Lemma count_pos f l i x : l !! i = Some x → f x = true → 1 ≤ count f l.
Proof.
  revert i. induction l as [|z l IH]; intros i Hi Hf; [done|]. destruct i as [|i]; simpl in *.
  - injection Hi as ->. rewrite Hf. pose proof (count_nonneg f l). simpl. lia.
  - specialize (IH i Hi Hf). destruct (f z); simpl; lia.
Qed.

Lemma count_witness f l : 0 < count f l → ∃ i x, l !! i = Some x ∧ f x = true.
Proof.
  induction l as [|z l IH]; simpl; [lia|]. destruct (f z) eqn:E; simpl.
  - intros _. by exists 0%nat, z.
  - intros (i & x & ? & ?)%IH. by exists (S i), x.
Qed.

Lemma count_zero f l i x : count f l = 0 → l !! i = Some x → f x = false.
Proof. intros Hz Hi. destruct (f x) eqn:E; [|done]. pose proof (count_pos f l i x Hi E). lia. Qed.

(** Two different coroutines at such points make the count at least two. *)
Lemma count_two f l i j x y : i ≠ j → l !! i = Some x → l !! j = Some y → f x = true → f y = true → 2 ≤ count f l.
Proof.
  revert i j. induction l as [|z l IH]; intros [|i] [|j] Hne Hi Hj Hx Hy; simpl in *; try done.
  - injection Hi as ->. rewrite Hx. pose proof (count_pos f l j y Hj Hy). simpl. lia.
  - injection Hj as ->. rewrite Hy. pose proof (count_pos f l i x Hi Hx). simpl. lia.
  - assert (2 ≤ count f l) by (apply (IH i j); [congruence|done..]). destruct (f z); simpl; lia.
Qed.

Lemma count_replicate f n x : f x = false → count f (replicate n x) = 0.
Proof. intros Hf. induction n as [|n IH]; simpl; [done|]. by rewrite Hf, IH. Qed.

Lemma count_none f l : Forall (λ x, f x = false) l → count f l = 0.
Proof. induction 1 as [|x l Hx _ IH]; simpl; [done|]. by rewrite Hx, IH. Qed.

(** Adding the counts of disjoint kinds of points. *)
Lemma count_split f g h l : (∀ x, b2z (f x) = b2z (g x) + b2z (h x)) → count f l = count g l + count h l.
Proof. intros Hs. induction l as [|x l IH]; simpl; [done|]. rewrite IH, Hs. lia. Qed.

Lemma count_app f l k : count f (l ++ k) = count f l + count f k.
Proof. induction l as [|x l IH]; simpl; [done|]. rewrite IH. lia. Qed.
Lemma count_Permutation f l k : l ≡ₚ k → count f l = count f k.
Proof. induction 1; simpl; lia. Qed.

(** The sum of a quantity over all coroutines. *)
Fixpoint total (f : PC → Z) l : Z :=
  match l with
  | [] => 0
  | x :: l => f x + total f l
  end.
Lemma total_insert (f : PC → Z) l i x y : l !! i = Some x →
  total f (<[i := y]> l) = total f l - f x + f y.
Proof.
  revert i. induction l as [|z l IH]; intros i Hi; [done|]. destruct i as [|i]; simpl in *.
  - injection Hi as ->. lia.
  - rewrite (IH i Hi). lia.
Qed.
Lemma total_nonneg (f : PC → Z) l : (∀ x, 0 ≤ f x) → 0 ≤ total f l.
Proof. intros Hf. induction l as [|x l IH]; simpl; [done|]. specialize (Hf x). lia. Qed.
Lemma total_app (f : PC → Z) l k : total f (l ++ k) = total f l + total f k.
Proof. induction l as [|x l IH]; simpl; [done|]. rewrite IH. lia. Qed.
Lemma total_add (f g : PC → Z) l : total (λ x, f x + g x) l = total f l + total g l.
Proof. induction l as [|x l IH]; simpl; [done|]. rewrite IH. lia. Qed.
Lemma total_ge (f : PC → Z) l i x : (∀ y, 0 ≤ f y) → l !! i = Some x → f x ≤ total f l.
Proof.
  intros Hf. revert i. induction l as [|z l IH]; intros i Hi; [done|]. destruct i as [|i]; simpl in *.
  - injection Hi as ->. pose proof (total_nonneg f l Hf). lia.
  - specialize (IH i Hi). specialize (Hf z). lia.
Qed.
Lemma total_none (f : PC → Z) l : Forall (λ x, f x = 0) l → total f l = 0.
Proof. induction 1 as [|x l Hx _ IH]; simpl; [done|]. lia. Qed.
(** At most one coroutine contributes. *)
Lemma total_zero (f : PC → Z) g l : (∀ y, g y = false → f y = 0) → count g l = 0 → total f l = 0.
Proof.
  intros Hf. induction l as [|z l IH]; simpl; [done|]. pose proof (count_nonneg g l).
  destruct (g z) eqn:E; simpl; [lia|]. rewrite (Hf z E). intros. apply IH. lia.
Qed.
Lemma total_single (f : PC → Z) g l i x : (∀ y, g y = false → f y = 0) → count g l ≤ 1 →
  l !! i = Some x → g x = true → total f l = f x.
Proof.
  intros Hf. revert i. induction l as [|z l IH]; intros i Hc Hi Hg; [done|]. destruct i as [|i]; simpl in *.
  - injection Hi as ->. rewrite Hg in Hc. simpl in Hc. pose proof (count_nonneg g l).
    rewrite (total_zero f g l) by (done || lia). lia.
  - pose proof (count_pos g l i x Hi Hg). destruct (g z) eqn:E; simpl in Hc; [lia|].
    rewrite (Hf z E), (IH i) by (done || lia). lia.
Qed.
Lemma total_replicate (f : PC → Z) n x : f x = 0 → total f (replicate n x) = 0.
Proof. intros Hf. induction n as [|n IH]; simpl; [done|]. by rewrite Hf, IH. Qed.
End count.

(** How often a coroutine is in a list. *)
Definition occ (i : nat) (l : list nat) : Z := count (λ j, bool_decide (j = i)) l.

Lemma occ_app i l k : occ i (l ++ k) = occ i l + occ i k.
Proof. apply count_app. Qed.
Lemma occ_one i j : occ i [j] = b2z (bool_decide (j = i)).
Proof. unfold occ. simpl. lia. Qed.
Lemma occ_cons i j l : occ i (j :: l) = b2z (bool_decide (j = i)) + occ i l.
Proof. done. Qed.
Lemma occ_nil i : occ i [] = 0.
Proof. done. Qed.
Lemma occ_elem i l : i ∈ l → 1 ≤ occ i l.
Proof. intros (k & Hk)%list_elem_of_lookup. eapply count_pos; [exact Hk|]. by apply bool_decide_true. Qed.
Lemma occ_in i l : 0 < occ i l → i ∈ l.
Proof. intros (k & x & Hk & Hx%bool_decide_eq_true)%count_witness. subst. by eapply list_elem_of_lookup_2. Qed.
Lemma occ_nonneg i l : 0 ≤ occ i l.
Proof. apply count_nonneg. Qed.
Lemma occ_filter i j l : occ j (filter (λ k, k ≠ i) l) = if bool_decide (j = i) then 0 else occ j l.
Proof.
  unfold occ. induction l as [|x l IH]; [simpl; by case_bool_decide|].
  destruct (decide (x = i)) as [->|Hne].
  - rewrite filter_cons_False by naive_solver. rewrite IH. simpl. repeat case_bool_decide; naive_solver.
  - rewrite filter_cons_True by done. simpl. rewrite IH. repeat case_bool_decide; subst; simpl; lia.
Qed.
Lemma zlen_filter_ne i l : zlen (filter (λ k, k ≠ i) l) = zlen l - occ i l.
Proof.
  unfold occ. induction l as [|x l IH]; [done|]. destruct (decide (x = i)) as [->|Hne].
  - rewrite filter_cons_False by naive_solver. rewrite IH, zlen_cons. simpl. rewrite bool_decide_true by done. simpl. lia.
  - rewrite filter_cons_True by done. rewrite !zlen_cons, IH. simpl. rewrite bool_decide_false by done. simpl. lia.
Qed.

Lemma zlen_insert {A} (l : list A) i x : zlen (<[i := x]> l) = zlen l.
Proof. unfold zlen. by rewrite length_insert. Qed.

(** A property of every coroutine survives a step of one of them. *)
Lemma lookup_insert_case {A} (P : nat → A → Prop) (l : list A) i x y :
  (∀ j z, l !! j = Some z → P j z) → l !! i = Some x → P i y → ∀ j z, <[i := y]> l !! j = Some z → P j z.
Proof.
  intros Hall Hi Hy j z. destruct (decide (i = j)) as [->|Hne].
  - rewrite list_lookup_insert_eq by (by eapply lookup_lt_Some). by intros [= <-].
  - rewrite list_lookup_insert_ne by done. apply Hall.
Qed.

(** Rewrites every count over the changed list of coroutines. *)
Ltac counts H := rewrite ?(count_insert _ _ _ _ _ H), ?(total_insert _ _ _ _ _ H) in *; simpl in *.
