(* ===== verification/Semaphore.v ===== *)
(** * corpc_semaphore.cpp

    [res_] is the number of units, or -1 while one coroutine works on the queue
    of waiting coroutines.  Every access to a shared variable is a step.
    [compare_exchange_weak] may fail without a reason.  The theorem: units are
    conserved under every interleaving, the queue is accessed by one coroutine
    at a time, and nobody stays in the queue while a unit is available. *)
From S2P Require Import Prelude Threads.
Open Scope Z_scope.

Module Semaphore.

(** Where a coroutine is in [wait] or [post]; outside it may call either. *)
Inductive pc : Type :=
  | Out
  (** [wait]: before the load; before each of the exchanges; holding the queue
      before [push_back] and before the store; suspended. *)
  | WLoad | WTake | WTakeN (v : Z) | WPush | WStore | WYield
  (** [post]: before the load; before each of the exchanges; holding the queue;
      before the stores, and before resuming a coroutine. *)
  | PLoad | PTake | PTakeN (v : Z) | PLocked | PStore1 | PStore0 (i : nat) | PResume (i : nat).

(** The shared variables, the coroutines, those that were resumed and have not
    run yet, and how many calls of [wait] returned and of [post] took effect. *)
Record t : Type := Make {
  res_ : Z;
  waitRoutines_ : list nat;
  pcs : list pc;
  resumed : list nat;
  waited : Z;
  posted : Z;
}.

Definition go (s : t) (i : nat) (p : pc) : t :=
  Make (res_ s) (waitRoutines_ s) (<[i := p]> (pcs s)) (resumed s) (waited s) (posted s).
Definition set_res (r : Z) (s : t) : t :=
  Make r (waitRoutines_ s) (pcs s) (resumed s) (waited s) (posted s).
Definition set_wait (q : list nat) (s : t) : t :=
  Make (res_ s) q (pcs s) (resumed s) (waited s) (posted s).
Definition set_resumed (l : list nat) (s : t) : t :=
  Make (res_ s) (waitRoutines_ s) (pcs s) l (waited s) (posted s).
Definition got (s : t) : t :=
  Make (res_ s) (waitRoutines_ s) (pcs s) (resumed s) (waited s + 1) (posted s).
Definition gave (s : t) : t :=
  Make (res_ s) (waitRoutines_ s) (pcs s) (resumed s) (waited s) (posted s + 1).

(** The step of the coroutine [i] at a point of [wait]; [ok] is whether a weak
    exchange of equal values succeeds. *)
Definition wait_step (s : t) (i : nat) (ok : bool) (p : pc) : option t :=
  match p with
  | WLoad =>
    let v := res_ s in
    Some (go s i (if bool_decide (v = 0) then WTake else if bool_decide (v > 0) then WTakeN v else WLoad))
  | WTake => Some (if ok && bool_decide (res_ s = 0) then go (set_res (-1) s) i WPush else go s i WLoad)
  | WTakeN v => Some (if ok && bool_decide (res_ s = v) then got (go (set_res (i32 (v - 1)) s) i Out) else go s i WLoad)
  | WPush => Some (go (set_wait (waitRoutines_ s ++ [i]) s) i WStore)
  | WStore => Some (go (set_res 0 s) i WYield)
  | WYield => if bool_decide (i ∈ resumed s)
              then Some (got (go (set_resumed (filter (λ j, j ≠ i) (resumed s)) s) i Out)) else None
  | _ => None
  end.

(** The step at a point of [post]. *)
Definition post_step (s : t) (i : nat) (ok : bool) (p : pc) : option t :=
  match p with
  | PLoad =>
    let v := res_ s in
    Some (go s i (if bool_decide (v = 0) then PTake else if bool_decide (v > 0) then PTakeN v else PLoad))
  | PTake => Some (if ok && bool_decide (res_ s = 0) then go (set_res (-1) s) i PLocked else go s i PLoad)
  | PTakeN v => Some (if ok && bool_decide (res_ s = v) then gave (go (set_res (i32 (v + 1)) s) i Out) else go s i PLoad)
  | PLocked =>
    Some (match waitRoutines_ s with
          | [] => go s i PStore1
          | j :: q => gave (go (set_wait q s) i (PStore0 j))
          end)
  | PStore1 => Some (gave (go (set_res 1 s) i Out))
  | PStore0 j => Some (go (set_res 0 s) i (PResume j))
  | PResume j => Some (go (set_resumed (resumed s ++ [j]) s) i Out)
  | _ => None
  end.

Inductive step (s : t) : t → Prop :=
  | StepCallWait i : pcs s !! i = Some Out → step s (go s i WLoad)
  | StepCallPost i : pcs s !! i = Some Out → step s (go s i PLoad)
  | StepWait i p ok s' : pcs s !! i = Some p → wait_step s i ok p = Some s' → step s s'
  | StepPost i p ok s' : pcs s !! i = Some p → post_step s i ok p = Some s' → step s s'.

(** [Semaphore(num)], used by [n] coroutines. *)
Definition init (num : Z) (n : nat) : t := Make num [] (replicate n Out) [] 0 0.

(** ** The invariant *)

(** Working on the queue; about to resume someone, or a certain coroutine; in
    the queue or taken out of it to be resumed. *)
Definition in_queue (p : pc) : bool :=
  match p with WPush | WStore | PLocked | PStore1 | PStore0 _ => true | _ => false end.
Definition waking (p : pc) : bool := match p with PStore0 _ | PResume _ => true | _ => false end.
Definition wakes (j : nat) (p : pc) : bool :=
  match p with PStore0 k | PResume k => bool_decide (k = j) | _ => false end.
Definition parked (p : option pc) : bool := match p with Some WStore | Some WYield => true | _ => false end.

(** The units that are not taken. *)
Definition units (s : t) : Z := if bool_decide (res_ s = -1) then 0 else res_ s.

Record inv (num : Z) (s : t) : Prop := {
  inv_queue : count in_queue (pcs s) = b2z (bool_decide (res_ s = -1));
  inv_range : -1 ≤ res_ s;
  inv_units : num + posted s = waited s + units s + count waking (pcs s) + zlen (resumed s);
  inv_empty : 0 < units s → waitRoutines_ s = [];
  inv_store i : pcs s !! i = Some PStore1 → waitRoutines_ s = [];
  inv_id j : occ j (waitRoutines_ s) + count (wakes j) (pcs s) + occ j (resumed s) = b2z (parked (pcs s !! j));
  inv_counts : 0 ≤ waited s ∧ 0 ≤ posted s;
  inv_local i v : pcs s !! i = Some (WTakeN v) ∨ pcs s !! i = Some (PTakeN v) → 0 < v;
}.

(** The coroutine [i] moves: what the others see does not change. *)
Lemma sem_parked_go (l : list pc) i p q j : l !! i = Some p →
  b2z (parked (<[i := q]> l !! j))
  = b2z (parked (l !! j)) + (if bool_decide (j = i) then b2z (parked (Some q)) - b2z (parked (Some p)) else 0).
Proof.
  intros Hi. case_bool_decide as E.
  - subst. rewrite list_lookup_insert_eq by (by eapply lookup_lt_Some). rewrite Hi. lia.
  - rewrite list_lookup_insert_ne by done. lia.
Qed.

Ltac step_counts Hi :=
  rewrite ?(count_insert _ _ _ _ _ Hi), ?(sem_parked_go _ _ _ _ _ Hi) in *.

Lemma no_store1 num s i : inv num s → res_ s ≠ -1 → pcs s !! i ≠ Some PStore1.
Proof.
  intros [Hq _ _ _ _ _ _ _] Hr Hi. rewrite bool_decide_false in Hq by done.
  by pose proof (count_zero in_queue _ i _ Hq Hi).
Qed.

Lemma alone num s i p j q : inv num s → pcs s !! i = Some p → in_queue p = true → pcs s !! j = Some q →
  in_queue q = true → i = j ∧ res_ s = -1.
Proof.
  intros [Hq _ _ _ _ _ _ _] Hi Hp Hj Hjq. pose proof (count_pos _ _ _ _ Hi Hp).
  destruct (decide (i = j)) as [->|Hne]; [split; [done|]; case_bool_decide; [done|simpl in *; lia]|].
  pose proof (count_two in_queue _ i j p q Hne Hi Hj Hp Hjq). case_bool_decide; simpl in *; lia.
Qed.

(** The two fields that speak of the points of single coroutines. *)
Lemma store_go (l : list pc) i q (Q : Prop) :
  (∀ k, l !! k = Some PStore1 → Q) → (q = PStore1 → Q) → ∀ k, <[i := q]> l !! k = Some PStore1 → Q.
Proof.
  intros Hl Hq k. destruct (decide (i = k)) as [->|Hne]; [|rewrite list_lookup_insert_ne by done; apply Hl].
  destruct (decide (k < length l)%nat); [|rewrite list_insert_ge by lia; apply Hl].
  rewrite list_lookup_insert_eq by done. intros [= ->]. by apply Hq.
Qed.
Lemma local_go (l : list pc) i q :
  (∀ k v, l !! k = Some (WTakeN v) ∨ l !! k = Some (PTakeN v) → 0 < v) →
  (∀ v, q = WTakeN v ∨ q = PTakeN v → 0 < v) →
  ∀ k v, <[i := q]> l !! k = Some (WTakeN v) ∨ <[i := q]> l !! k = Some (PTakeN v) → 0 < v.
Proof.
  intros Hl Hq k v. destruct (decide (i = k)) as [->|Hne]; [|rewrite list_lookup_insert_ne by done; apply Hl].
  destruct (decide (k < length l)%nat); [|rewrite list_insert_ge by lia; apply Hl].
  rewrite list_lookup_insert_eq by done. intros [[= ->]|[= ->]]; apply Hq; auto.
Qed.

(** Unfolds the invariant of the new state and computes the changed counts. *)
Ltac reinv Hinv Hi :=
  destruct Hinv as [Hq Hr Hu He Hs Hid Hc Hl];
  constructor; unfold units in *; simpl;
  try (apply store_go; [|by intros]; first [exact Hs|by intros]);
  try (apply local_go; [exact Hl|by intros ? [?|?]]);
  rewrite ?(count_insert _ _ _ _ _ Hi); simpl.
(** The identity equation for the coroutine [j]. *)
Ltac ident Hi Hid :=
  let j := fresh "j" in intros j; specialize (Hid j);
  repeat match goal with H : ?P |- _ => lazymatch P with context [bool_decide] => clear H end end;
  rewrite ?(sem_parked_go _ _ _ _ _ Hi), ?(count_insert _ _ _ _ _ Hi), ?occ_app, ?occ_one, ?occ_filter, ?occ_cons in *; simpl in *;
  repeat case_bool_decide; subst; simpl in *; try lia; try congruence.

(** A step that changes nothing shared. *)
Lemma inv_move num s i p q : inv num s → pcs s !! i = Some p →
  in_queue p = false → in_queue q = false → waking p = false → waking q = false →
  parked (Some p) = false → parked (Some q) = false →
  (∀ v, q = WTakeN v ∨ q = PTakeN v → 0 < v) → inv num (go s i q).
Proof.
  intros Hinv Hi Q1 Q2 W1 W2 P1 P2 Hv. destruct Hinv as [Hq Hr Hu He Hs Hid Hc Hl].
  assert (∀ j, wakes j p = false ∧ wakes j q = false) as Hw.
  { intros j. split; [by destruct p|by destruct q]. }
  constructor; unfold units in *; simpl; rewrite ?(count_insert _ _ _ _ _ Hi), ?Q1, ?Q2, ?W1, ?W2; simpl; try done; try lia.
  - apply store_go; [exact Hs|]. by intros ->.
  - intros j. destruct (Hw j) as [E1 E2]. rewrite (count_insert _ _ _ _ _ Hi), (sem_parked_go _ _ _ _ _ Hi), E1, E2, P1, P2.
    specialize (Hid j). change (b2z false) with 0. destruct (bool_decide (j = i)); lia.
  - by apply local_go.
Qed.

Lemma sem_wait_inv num s i ok p s' : inv num s → num + posted s < 2^31 → pcs s !! i = Some p →
  wait_step s i ok p = Some s' → inv num s'.
Proof.
  intros Hinv Hb Hi Hst. destruct p; simpl in Hst; try done.
  - injection Hst as <-. repeat case_bool_decide; eapply inv_move; try done; intros w [[= <-]|[= <-]]; lia.
  - injection Hst as <-. destruct (ok && _) eqn:E; [|eapply inv_move; try done; by intros w [?|?]].
    apply andb_prop in E as [_ E%bool_decide_eq_true].
    reinv Hinv Hi; rewrite E in *; simpl in *; try done; try lia. ident Hi Hid.
  - injection Hst as <-. destruct (ok && _) eqn:E; [|eapply inv_move; try done; by intros w [?|?]].
    apply andb_prop in E as [_ E%bool_decide_eq_true].
    assert (0 < v) as Hv by (eapply (inv_local _ _ Hinv i); by left).
    assert (i32 (v - 1) = v - 1) as Hw.
    { apply i32_small. pose proof (inv_units _ _ Hinv) as Hu. unfold units in Hu.
      rewrite bool_decide_false, E in Hu by lia. pose proof (count_nonneg waking (pcs s)).
      pose proof (zlen_nonneg (resumed s)). pose proof (inv_counts _ _ Hinv). lia. }
    reinv Hinv Hi; rewrite ?Hw in *; rewrite E in *;
      repeat (rewrite ?(bool_decide_false (v = -1)), ?(bool_decide_false (v - 1 = -1)) in * by lia);
      simpl in *; try lia.
    + intros _. apply He. lia.
    + ident Hi Hid.
  - injection Hst as <-. assert (res_ s = -1) as Hm by (eapply (alone num s i WPush i WPush); done).
    assert (∀ k, pcs s !! k = Some PStore1 → False) as Hno.
    { intros k Hk. destruct (alone num s i WPush k PStore1) as [-> _]; try done. congruence. }
    reinv Hinv Hi; rewrite ?Hm in *; simpl in *; try done; try lia.
    + apply store_go; [|done]. intros k Hk. by destruct (Hno k).
    + ident Hi Hid.
  - injection Hst as <-. assert (res_ s = -1) as Hm by (eapply (alone num s i WStore i WStore); done).
    reinv Hinv Hi; rewrite ?Hm in *; simpl in *; try done; try lia. ident Hi Hid.
  - case_bool_decide as Hin; [|done]. injection Hst as <-. pose proof (occ_elem _ _ Hin) as Ho.
    reinv Hinv Hi; try done; try lia.
    + rewrite zlen_filter_ne. pose proof (Hid i) as Hidi. rewrite Hi in Hidi. simpl in Hidi.
      pose proof (occ_nonneg i (waitRoutines_ s)). pose proof (count_nonneg (wakes i) (pcs s)). lia.
    + ident Hi Hid. rewrite Hi in *. simpl in *.
      pose proof (occ_nonneg i (waitRoutines_ s)). pose proof (count_nonneg (wakes i) (pcs s)). lia.
Qed.

Lemma sem_post_inv num s i ok p s' : inv num s → num + posted s < 2^31 - 1 → pcs s !! i = Some p →
  post_step s i ok p = Some s' → inv num s'.
Proof.
  intros Hinv Hb Hi Hst. destruct p as [| | | | | | | | |v| | |j|j]; simpl in Hst; try done; injection Hst as <-.
  - repeat case_bool_decide; eapply inv_move; try done; intros w [[= <-]|[= <-]]; lia.
  - destruct (ok && _) eqn:E; [|eapply inv_move; try done; by intros w [?|?]].
    apply andb_prop in E as [_ E%bool_decide_eq_true].
    reinv Hinv Hi; rewrite E in *; simpl in *; try done; try lia. ident Hi Hid.
  - destruct (ok && _) eqn:E; [|eapply inv_move; try done; by intros w [?|?]].
    apply andb_prop in E as [_ E%bool_decide_eq_true].
    assert (0 < v) as Hv by (eapply (inv_local _ _ Hinv i); by right).
    assert (i32 (v + 1) = v + 1) as Hw.
    { apply i32_small. pose proof (inv_units _ _ Hinv) as Hu. unfold units in Hu.
      rewrite bool_decide_false, E in Hu by lia. pose proof (count_nonneg waking (pcs s)).
      pose proof (zlen_nonneg (resumed s)). pose proof (inv_counts _ _ Hinv). lia. }
    reinv Hinv Hi; rewrite ?Hw in *; rewrite E in *;
      repeat (rewrite ?(bool_decide_false (v = -1)), ?(bool_decide_false (v + 1 = -1)) in * by lia);
      simpl in *; try lia.
    + intros _. apply He. lia.
    + ident Hi Hid.
  - assert (res_ s = -1) as Hm by (eapply (alone num s i PLocked i PLocked); done).
    destruct (waitRoutines_ s) as [|j q] eqn:Eq.
    + reinv Hinv Hi; rewrite ?Hm in *; simpl in *; try done; try lia. rewrite Eq in *. ident Hi Hid.
    + assert (∀ k, pcs s !! k = Some PStore1 → False) as Hno.
      { intros k Hk. destruct (alone num s i PLocked k PStore1) as [-> _]; try done. congruence. }
      reinv Hinv Hi; rewrite ?Hm in *; simpl in *; try done; try lia.
      * apply store_go; [|done]. intros k Hk. by destruct (Hno k).
      * rewrite Eq in *. ident Hi Hid.
  - assert (res_ s = -1) as Hm by (eapply (alone num s i PStore1 i PStore1); done).
    pose proof (inv_store _ _ Hinv i Hi) as Hempty.
    reinv Hinv Hi; rewrite ?Hm in *; simpl in *; try done; try lia. ident Hi Hid.
  - assert (res_ s = -1) as Hm by (eapply (alone num s i (PStore0 j) i (PStore0 j)); done).
    reinv Hinv Hi; rewrite ?Hm in *; simpl in *; try done; try lia. ident Hi Hid.
  - reinv Hinv Hi; try done; try lia; [rewrite zlen_app; change (zlen [j]) with 1; lia|ident Hi Hid].
Qed.

Lemma sem_inv_init num n : 0 ≤ num → inv num (init num n).
Proof.
  intros Hn. constructor; unfold units; simpl; try done; try lia.
  - rewrite count_replicate, bool_decide_false by (done || lia). done.
  - rewrite count_replicate, bool_decide_false by (done || lia). change (zlen []) with 0. lia.
  - intros j. rewrite count_replicate by done. change (occ j []) with 0. simpl.
    destruct (replicate n Out !! j) as [p|] eqn:E; [|done]. by apply lookup_replicate in E as [-> _].
  - intros i v [(E & _)%lookup_replicate|(E & _)%lookup_replicate]; done.
Qed.

Lemma posted_mono s s' : step s s' → posted s ≤ posted s'.
Proof.
  intros [i _|i _|i p ok s1 _ H1|i p ok s1 _ H1]; simpl; try lia.
  - destruct p; simpl in H1; try done; [injection H1 as <-..|case_bool_decide; [injection H1 as <-|done]];
      repeat case_match; simpl; lia.
  - destruct p; simpl in H1; try done; injection H1 as <-; repeat case_match; simpl; lia.
Qed.

Lemma sem_inv_reach num n s : 0 ≤ num → reach step (init num n) s → num + posted s < 2^31 - 1 → inv num s.
Proof.
  intros Hn. induction 1 as [|s1 s2 Hr IH Hst]; intros Hb; [by apply sem_inv_init|].
  pose proof (posted_mono _ _ Hst). specialize (IH ltac:(lia)).
  destruct Hst as [i Hi|i Hi|i p ok s' Hi Hs|i p ok s' Hi Hs].
  - eapply inv_move; try done. by intros v [?|?].
  - eapply inv_move; try done. by intros v [?|?].
  - eapply sem_wait_inv; try done. lia.
  - eapply sem_post_inv; try done. lia.
Qed.

(** Every coroutine is outside or suspended, and nobody is being resumed. *)
Definition quiet (s : t) : Prop := Forall (λ p, p = Out ∨ p = WYield) (pcs s) ∧ resumed s = [].

(** C23 (semaphore_conserves).  Under every interleaving of calls of [wait] and
    [post] (as long as the units stay below [INT_MAX]): the calls of [wait] that
    returned never exceed the initial units plus the posts; at most one
    coroutine works on the queue; the queue is empty while a unit is available;
    a resumed coroutine is suspended; and when nothing is in progress no unit is
    lost, and somebody is suspended only if all units are taken. *)
Theorem semaphore_conserves num n s : 0 ≤ num → reach step (init num n) s → num + posted s < 2^31 - 1 →
  waited s ≤ num + posted s ∧ count in_queue (pcs s) ≤ 1 ∧ (0 < units s → waitRoutines_ s = []) ∧
  (∀ j, j ∈ resumed s → parked (pcs s !! j) = true) ∧
  (quiet s → num + posted s = waited s + units s ∧ ∀ i, pcs s !! i = Some WYield → units s = 0).
Proof.
  intros Hn Hr Hb. destruct (sem_inv_reach num n s Hn Hr Hb) as [Hq Hrg Hu He Hs Hid Hc Hl].
  pose proof (count_nonneg waking (pcs s)). pose proof (zlen_nonneg (resumed s)).
  assert (0 ≤ units s) as Hun by (unfold units; case_bool_decide; lia).
  split_and!; [lia|rewrite Hq; by case_bool_decide|done|..].
  - intros j Hj%occ_elem. specialize (Hid j). pose proof (occ_nonneg j (waitRoutines_ s)).
    pose proof (count_nonneg (wakes j) (pcs s)). destruct (parked (pcs s !! j)); [done|]. simpl in Hid. lia.
  - intros [Hall Hres].
    assert (∀ f, f Out = false → f WYield = false → count f (pcs s) = 0) as Hz.
    { intros f Hf1 Hf2. apply count_none. eapply Forall_impl; [exact Hall|]. by intros p [->| ->]. }
    rewrite Hres, (Hz waking) in * by done. change (zlen []) with 0 in *. split; [lia|].
    intros i Hi. specialize (Hid i). rewrite Hi, (Hz (wakes i)) in Hid by done.
    change (occ i []) with 0 in Hid. simpl in Hid.
    destruct (decide (0 < units s)) as [Hpos|]; [|lia]. rewrite (He Hpos) in Hid. done.
Qed.

(** Running a schedule: each entry is a coroutine and whether a call it makes
    is one of [wait]. *)
Definition next (s : t) (c : nat * bool) : t :=
  let '(i, w) := c in
  match pcs s !! i with
  | None => s
  | Some Out => go s i (if w then WLoad else PLoad)
  | Some p => default (default s (post_step s i true p)) (wait_step s i true p)
  end.
Definition run (s : t) (cs : list (nat * bool)) : t := foldl next s cs.

Lemma next_reach s0 s c : reach step s0 s → reach step s0 (next s c).
Proof.
  destruct c as [i w]. intros Hr. unfold next. destruct (pcs s !! i) as [p|] eqn:Hi; [|done].
  assert (reach step s0 (default (default s (post_step s i true p)) (wait_step s i true p))) as Hp.
  { destruct (wait_step s i true p) eqn:E1; simpl; [by eapply reach_step; [|eapply StepWait]|].
    destruct (post_step s i true p) eqn:E2; simpl; [by eapply reach_step; [|eapply StepPost]|done]. }
  destruct p; try exact Hp. destruct w; eapply reach_step; try done; by constructor.
Qed.
Lemma sem_run_reach s0 s cs : reach step s0 s → reach step s0 (run s cs).
Proof. revert s. induction cs as [|c cs IH]; intros s Hr; [done|]. by apply IH, next_reach. Qed.

(** Two coroutines and no unit: the first waits, the second posts. *)
Definition example : t :=
  run (init 0 2) (replicate 5 (0%nat, true) ++ replicate 6 (1%nat, false)).

Lemma semaphore_conserves_witness :
  (resumed example = [0%nat] ∧ posted example = 1) ∧
  waited example ≤ 0 + posted example ∧ count in_queue (pcs example) ≤ 1 ∧ (0 < units example → waitRoutines_ example = []) ∧
  (∀ j, j ∈ resumed example → parked (pcs example !! j) = true) ∧
  (quiet example → 0 + posted example = waited example + units example ∧ ∀ i, pcs example !! i = Some WYield → units example = 0).
Proof.
  split; [split; reflexivity|].
  apply (semaphore_conserves 0 2 example); [done|apply sem_run_reach, reach_refl|vm_compute; reflexivity].
Defined.
End Semaphore.
