(* ===== verification/Mutex.v ===== *)
(** * corpc_mutex.cpp: the mutex of coroutines

    A port of Go's mutex: [state_] holds the lock bit, the bits "a waiter was
    woken" and "starving", and the number of waiters; [waitRoutines_] and
    [dontWait_] are a queue of suspended coroutines with one pending permit,
    protected by the spin lock [waitlock_].  Every access to a shared variable
    is a step.  Left open, and thus covered in all their values: whether a weak
    exchange fails, how much time has passed (which decides whether a waiter
    counts as starving) and the choice to pause, which depends on [lastco_],
    [beginTm_] and the clock and touches nothing else.

    The theorem: under every interleaving at most one coroutine holds the mutex,
    none of the three [abort()] calls is reached, no permit is lost, and a mutex
    with waiters always has somebody who will pass it on. *)
From S2P Require Import Prelude Define Threads.
Open Scope Z_scope.

Module Mutex.

Definition MUTEXLOCKED : Z := 1.
Definition MUTEXWOKEN : Z := 2.
Definition MUTEXSTARVING : Z := 4.
Definition MUTEXWAITERSHIFT : Z := 3.

(** The local variables of [lockSlow]; [waited] is [waitStartTime != 0]. *)
Record locals : Type := Locals { starving : bool; awoke : bool; waited : bool; iter : Z }.

(** Where a coroutine is. *)
Inductive pc : Type :=
  | Out
  (** [lock]: the first exchange; [lockSlow]: before loading [state_], at the
      top of the loop; in [wait] outside and inside the spin lock, suspended;
      after [wait]; about to take over the mutex; holding it. *)
  | LFast | LLoad (l : locals) | LTop (l : locals) (oldV : Z)
  | LWait (l : locals) (queueLifo : bool) | LWaitIn (l : locals) (queueLifo : bool) | LParked (l : locals)
  | LAwake (l : locals) | LHand (l : locals) (oldV : Z)
  | Held
  (** [unlockSlow]: the loop, before loading again; [post] outside and inside
      the spin lock, before resuming. *)
  | ULoop (oldV : Z) | ULoad | UPost | UPostIn | UResume (j : nat)
  | Abort.

Record t : Type := Make {
  state_ : Z;
  waitlock_ : bool;
  dontWait_ : bool;
  waitRoutines_ : list nat;
  pcs : list pc;
  resumed : list nat;
}.

Definition go (s : t) (i : nat) (p : pc) : t :=
  Make (state_ s) (waitlock_ s) (dontWait_ s) (waitRoutines_ s) (<[i := p]> (pcs s)) (resumed s).
Definition set_state (v : Z) (s : t) : t :=
  Make v (waitlock_ s) (dontWait_ s) (waitRoutines_ s) (pcs s) (resumed s).
Definition set_waitlock (b : bool) (s : t) : t :=
  Make (state_ s) b (dontWait_ s) (waitRoutines_ s) (pcs s) (resumed s).
Definition set_dontWait (b : bool) (s : t) : t :=
  Make (state_ s) (waitlock_ s) b (waitRoutines_ s) (pcs s) (resumed s).
Definition set_queue (q : list nat) (s : t) : t :=
  Make (state_ s) (waitlock_ s) (dontWait_ s) q (pcs s) (resumed s).
Definition set_resumed (l : list nat) (s : t) : t :=
  Make (state_ s) (waitlock_ s) (dontWait_ s) (waitRoutines_ s) (pcs s) l.

(** [v & mask != 0] *)
Definition has (v mask : Z) : bool := negb (bool_decide (Z.land v mask = 0)).
Definition waiters (v : Z) : Z := v ≫ MUTEXWAITERSHIFT.

(** [lockSlow]: the value to write, before the test of [awoke]. *)
Definition new_value (starving : bool) (oldV : Z) : Z :=
  let newV := oldV in
  let newV := if negb (has oldV MUTEXSTARVING) then Z.lor newV MUTEXLOCKED else newV in
  let newV := if has oldV (Z.lor MUTEXLOCKED MUTEXSTARVING) then i32 (newV + 1 ≪ MUTEXWAITERSHIFT) else newV in
  if starving && has oldV MUTEXLOCKED then Z.lor newV MUTEXSTARVING else newV.

(** What the environment decides in a step: whether a weak exchange of equal
    values succeeds, and the outcome of the tests of the clock. *)
Record choice : Type := Choice { ok : bool; late : bool }.

(** [lockSlow]: one iteration from the top of the loop. *)
Definition loop_step (s : t) (i : nat) (ch : choice) (l : locals) (oldV : Z) : t :=
  let swap := ok ch && bool_decide (state_ s = oldV) in
  if bool_decide (Z.land oldV (Z.lor MUTEXLOCKED MUTEXSTARVING) = MUTEXLOCKED) && bool_decide (iter l < 4) then
    let hit := negb (awoke l) && negb (has oldV MUTEXWOKEN) && negb (bool_decide (waiters oldV = 0)) && swap in
    go (if hit then set_state (Z.lor oldV MUTEXWOKEN) s else s) i
      (LLoad (Locals (starving l) (awoke l || hit) (waited l) (iter l + 1)))
  else if negb (awoke l) && has oldV MUTEXWOKEN && late ch then go s i (LTop l oldV)
  else
    let newV := new_value (starving l) oldV in
    if awoke l && negb (has newV MUTEXWOKEN) then go s i Abort else
    let newV := if awoke l then Z.land newV (Z.lnot MUTEXWOKEN) else newV in
    if swap then
      go (set_state newV s) i
        (if negb (has oldV (Z.lor MUTEXLOCKED MUTEXSTARVING)) then Held
         else LWait (Locals (starving l) (awoke l) true (iter l)) (waited l))
    else go s i (LLoad l).

(** [wait], holding the spin lock. *)
Definition wait_step (s : t) (i : nat) (l : locals) (queueLifo : bool) : t :=
  if dontWait_ s then go (set_waitlock false (set_dontWait false s)) i (LAwake l)
  else go (set_waitlock false
         (set_queue (if queueLifo then i :: waitRoutines_ s else waitRoutines_ s ++ [i]) s)) i (LParked l).

(** [lockSlow]: after [wait]. *)
Definition awake_step (s : t) (i : nat) (ch : choice) (l : locals) : t :=
  let l := Locals (starving l || late ch) (awoke l) (waited l) (iter l) in
  let oldV := state_ s in
  if has oldV MUTEXSTARVING then
    if has oldV (Z.lor MUTEXLOCKED MUTEXWOKEN) || bool_decide (waiters oldV = 0) then go s i Abort
    else go s i (LHand l oldV)
  else go s i (LTop (Locals (starving l) true (waited l) 0) oldV).

(** [lockSlow]: taking over the mutex in starvation mode. *)
Definition hand_step (s : t) (i : nat) (l : locals) (oldV : Z) : t :=
  let delta := MUTEXLOCKED - 1 ≪ MUTEXWAITERSHIFT in
  let delta := if negb (starving l) || bool_decide (waiters oldV = 1) then delta - MUTEXSTARVING else delta in
  go (set_state (i32 (state_ s + delta)) s) i Held.

(** [unlock], and [unlockSlow] up to its loop. *)
Definition unlock_step (s : t) (i : nat) : t :=
  let newV := i32 (state_ s - MUTEXLOCKED) in
  go (set_state newV s) i
    (if bool_decide (newV = 0) then Out
     else if negb (has (i32 (newV + MUTEXLOCKED)) MUTEXLOCKED) then Abort
     else if negb (has newV MUTEXSTARVING) then ULoop newV else UPost).

(** [unlockSlow]: the loop. *)
Definition unlock_loop (s : t) (i : nat) (ch : choice) (oldV : Z) : t :=
  if bool_decide (waiters oldV = 0) || has oldV (Z.lor MUTEXLOCKED (Z.lor MUTEXWOKEN MUTEXSTARVING)) then go s i Out
  else if ok ch && bool_decide (state_ s = oldV)
  then go (set_state (Z.lor (i32 (oldV - 1 ≪ MUTEXWAITERSHIFT)) MUTEXWOKEN) s) i UPost
  else go s i ULoad.

(** [post], holding the spin lock. *)
Definition post_step (s : t) (i : nat) : t :=
  match waitRoutines_ s with
  | [] => go (set_waitlock false (set_dontWait true s)) i Out
  | j :: q => go (set_waitlock false (set_queue q s)) i (UResume j)
  end.

(** The step of the coroutine [i] at [p]; [None] while it is suspended. *)
Definition step_at (s : t) (i : nat) (ch : choice) (p : pc) : option t :=
  match p with
  | Out => Some (go s i LFast)
  | LFast => Some (if ok ch && bool_decide (state_ s = 0) then go (set_state MUTEXLOCKED s) i Held
                   else go s i (LLoad (Locals false false false 0)))
  | LLoad l => Some (go s i (LTop l (state_ s)))
  | LTop l oldV => Some (loop_step s i ch l oldV)
  | LWait l lifo => Some (if ok ch && negb (waitlock_ s) then go (set_waitlock true s) i (LWaitIn l lifo) else s)
  | LWaitIn l lifo => Some (wait_step s i l lifo)
  | LParked l => if bool_decide (i ∈ resumed s)
                 then Some (go (set_resumed (filter (λ j, j ≠ i) (resumed s)) s) i (LAwake l)) else None
  | LAwake l => Some (awake_step s i ch l)
  | LHand l oldV => Some (hand_step s i l oldV)
  | Held => Some (unlock_step s i)
  | ULoop oldV => Some (unlock_loop s i ch oldV)
  | ULoad => Some (go s i (ULoop (state_ s)))
  | UPost => Some (if ok ch && negb (waitlock_ s) then go (set_waitlock true s) i UPostIn else s)
  | UPostIn => Some (post_step s i)
  | UResume j => Some (go (set_resumed (resumed s ++ [j]) s) i Out)
  | Abort => None
  end.

Inductive step (s : t) : t → Prop :=
  | Step i p ch s' : pcs s !! i = Some p → step_at s i ch p = Some s' → step s s'.

(** A mutex used by [n] coroutines. *)
Definition init (n : nat) : t := Make 0 false false [] (replicate n Out) [].

(** ** The word [state_] *)
Definition low (l w st : bool) : Z := b2z l + 2 * b2z w + 4 * b2z st.
Definition word (l w st : bool) (n : Z) : Z := low l w st + n * 2^3.

Lemma low_range l w st : 0 ≤ low l w st < 2^3.
Proof. unfold low. destruct l, w, st; cbn; lia. Qed.

Lemma land_low a n k : 0 ≤ k < 8 → Z.land (a + n * 2^3) k = Z.land a k.
Proof.
  intros Hk. assert (k = Z.land (Z.ones 3) k) as E.
  { rewrite Z.land_comm, Z.land_ones by lia. symmetry. apply Z.mod_small. lia. }
  rewrite E, !Z.land_assoc, !Z.land_ones by lia. by rewrite Z_mod_plus_full.
Qed.

Lemma has_word l w st n k : 0 ≤ k < 8 → has (word l w st n) k = has (low l w st) k.
Proof. intros. unfold has, word. by rewrite land_low. Qed.

Lemma waiters_word l w st n : waiters (word l w st n) = n.
Proof.
  unfold waiters, word, MUTEXWAITERSHIFT. rewrite Z.shiftr_div_pow2 by lia.
  rewrite Z.div_add by lia. rewrite Z.div_small by apply low_range. lia.
Qed.

Lemma lor_word l w st n k : 0 ≤ k < 8 → Z.lor (word l w st n) k = Z.lor (low l w st) k + n * 2^3.
Proof.
  intros Hk. unfold word. pose proof (low_range l w st) as Hl.
  rewrite <-lor_add by lia. rewrite <-Z.lor_assoc, (Z.lor_comm (n * 2^3)), Z.lor_assoc. apply lor_add; [lia|].
  split; [by apply Z.lor_nonneg; lia|].
  assert (k = 0 ∨ k = 1 ∨ k = 2 ∨ k = 3 ∨ k = 4 ∨ k = 5 ∨ k = 6 ∨ k = 7) as Hk' by lia.
  clear Hk Hl. destruct l, w, st; destruct_or!; subst; vm_compute; done.
Qed.

Lemma unwoken_word l w st n : Z.land (word l w st n) (Z.lnot MUTEXWOKEN) = word l false st n.
Proof.
  unfold MUTEXWOKEN. rewrite <-Z.ldiff_land.
  assert (∀ x, Z.ldiff x 2 = x - Z.land x 2) as Hd.
  { intros x. symmetry. apply Z.sub_move_r. rewrite Z.add_nocarry_lxor; apply Z.bits_inj'; intros k Hk;
      rewrite ?Z.land_spec, ?Z.ldiff_spec, ?Z.lxor_spec, ?Z.land_spec, ?Z.ldiff_spec, ?Z.bits_0;
      destruct (Z.testbit x k), (Z.testbit 2 k); done. }
  rewrite Hd. unfold word. rewrite land_low by lia.
  assert (Z.land (low l w st) 2 = 2 * b2z w) as -> by (by destruct l, w, st). unfold low. simpl. lia.
Qed.

Section bits.
Context (l w st : bool) (n : Z).
Ltac bits := intros; rewrite has_word by done; by destruct l, w, st.
Lemma has_locked : has (word l w st n) MUTEXLOCKED = l.
Proof. bits. Qed.
Lemma has_woken : has (word l w st n) MUTEXWOKEN = w.
Proof. bits. Qed.
Lemma has_starving : has (word l w st n) MUTEXSTARVING = st.
Proof. bits. Qed.
Lemma has_locked_starving : has (word l w st n) (Z.lor MUTEXLOCKED MUTEXSTARVING) = l || st.
Proof. bits. Qed.
Lemma has_locked_woken : has (word l w st n) (Z.lor MUTEXLOCKED MUTEXWOKEN) = l || w.
Proof. bits. Qed.
Lemma has_any : has (word l w st n) (Z.lor MUTEXLOCKED (Z.lor MUTEXWOKEN MUTEXSTARVING)) = l || w || st.
Proof. bits. Qed.
Lemma only_locked : bool_decide (Z.land (word l w st n) (Z.lor MUTEXLOCKED MUTEXSTARVING) = MUTEXLOCKED) = l && negb st.
Proof. unfold word. rewrite land_low by done. by destruct l, w, st. Qed.

Lemma lor_locked : Z.lor (word l w st n) MUTEXLOCKED = word true w st n.
Proof. rewrite lor_word by done. unfold word. f_equal. by destruct l, w, st. Qed.
Lemma lor_woken : Z.lor (word l w st n) MUTEXWOKEN = word l true st n.
Proof. rewrite lor_word by done. unfold word. f_equal. by destruct l, w, st. Qed.
Lemma lor_starving : Z.lor (word l w st n) MUTEXSTARVING = word l w true n.
Proof. rewrite lor_word by done. unfold word. f_equal. by destruct l, w, st. Qed.

Lemma word_range : 0 ≤ n ≤ 2^27 → 0 ≤ word l w st n < 2^31.
Proof. intros. unfold word. pose proof (low_range l w st). lia. Qed.
Lemma word_zero : word l w st n = 0 ↔ l = false ∧ w = false ∧ st = false ∧ n = 0.
Proof.
  unfold word, low. split; [|by intros (-> & -> & -> & ->)].
  intros E. destruct l, w, st; simpl in E; repeat split; try lia; exfalso; lia.
Qed.
End bits.

Lemma add_waiter l w st n : 0 ≤ n < 2^27 → i32 (word l w st n + 1 ≪ MUTEXWAITERSHIFT) = word l w st (n + 1).
Proof.
  intros. change (1 ≪ MUTEXWAITERSHIFT) with 8.
  replace (word l w st n + 8) with (word l w st (n + 1)) by (unfold word; lia).
  apply i32_small. pose proof (word_range l w st (n + 1)). lia.
Qed.
Lemma sub_waiter l w st n : 1 ≤ n ≤ 2^27 → i32 (word l w st n - 1 ≪ MUTEXWAITERSHIFT) = word l w st (n - 1).
Proof.
  intros. change (1 ≪ MUTEXWAITERSHIFT) with 8.
  replace (word l w st n - 8) with (word l w st (n - 1)) by (unfold word; lia).
  apply i32_small. pose proof (word_range l w st (n - 1)). lia.
Qed.

Lemma new_value_word sv l w st n : 0 ≤ n < 2^27 →
  new_value sv (word l w st n) = word (l || negb st) w (st || sv && l) (if l || st then n + 1 else n).
Proof.
  intros. unfold new_value. rewrite has_starving, has_locked_starving, has_locked.
  destruct st; simpl; rewrite ?orb_true_r, ?orb_false_r, ?andb_true_r.
  - rewrite add_waiter by done. destruct sv, l; simpl; rewrite ?lor_starving; done.
  - rewrite lor_locked. destruct l; simpl; rewrite ?add_waiter by done; destruct sv; simpl; rewrite ?lor_starving; done.
Qed.

(** ** The invariant *)
Definition held (p : pc) : bool := match p with Held => true | _ => false end.
Definition awakened (p : pc) : bool := match p with LLoad l | LTop l _ => awoke l | _ => false end.
Definition awake (p : pc) : bool := match p with LAwake _ => true | _ => false end.
Definition hand (p : pc) : bool := match p with LHand _ _ => true | _ => false end.
(** Counted as waiting: from the exchange that says so to the return of [wait]. *)
Definition registered (p : pc) : bool := match p with LWait _ _ | LWaitIn _ _ | LParked _ => true | _ => false end.
Definition posting (p : pc) : bool := match p with UPost | UPostIn | UResume _ => true | _ => false end.
Definition inside (p : pc) : bool := match p with LWaitIn _ _ | UPostIn => true | _ => false end.
Definition wakes (j : nat) (p : pc) : bool := match p with UResume k => bool_decide (k = j) | _ => false end.
Definition parked (p : option pc) : bool := match p with Some (LParked _) => true | _ => false end.

(** Will look for a waiter to wake: [unlockSlow] about to load [state_], or with
    a value that makes it try. *)
Definition responsible (p : pc) : bool :=
  match p with
  | ULoad => true
  | ULoop oldV => negb (bool_decide (waiters oldV = 0) || has oldV (Z.lor MUTEXLOCKED (Z.lor MUTEXWOKEN MUTEXSTARVING)))
  | _ => false
  end.

(** The permits on their way from [post] to a coroutine that returns from [wait]. *)
Definition permits (s : t) : Z :=
  b2z (dontWait_ s) + count posting (pcs s) + zlen (resumed s) + count awake (pcs s).

(** In normal mode the bit "woken" stands for one permit or one awakened
    coroutine; in starvation mode the mutex, when not locked, is on its way to
    one waiter.  The number of waiters counts the registered coroutines, less
    the one a permit of normal mode is on its way to. *)
Definition balanced (l w st : bool) (n P aw hd ak rg : Z) : Prop :=
  if st then w = false ∧ aw = 0 ∧ 1 ≤ n ∧ n = rg + ak + hd ∧ (if l then P = 0 ∧ hd = 0 else P + hd = 1)
  else P + aw = b2z w ∧ hd = 0 ∧ n + (P - ak) = rg.

(** An old value of [state_]. *)
Definition old_word (v : Z) : Prop := ∃ l w st n, v = word l w st n ∧ 0 ≤ n < 2^27.

Definition local_ok (n : Z) (p : pc) : Prop :=
  match p with
  | LLoad l => starving l = true → awoke l = true
  | LTop l oldV => (starving l = true → awoke l = true) ∧
      (awoke l = true → has oldV MUTEXWOKEN = true ∧ has oldV MUTEXSTARVING = false) ∧ old_word oldV
  | LHand _ oldV => 1 ≤ waiters oldV ≤ n
  | ULoop oldV => old_word oldV
  | Abort => False
  | _ => True
  end.

Record inv (s : t) (l w st : bool) (n : Z) : Prop := {
  inv_word : state_ s = word l w st n;
  inv_n : 0 ≤ n;
  inv_held : count held (pcs s) = b2z l;
  inv_balanced : balanced l w st n (permits s) (count awakened (pcs s)) (count hand (pcs s))
    (count awake (pcs s)) (count registered (pcs s));
  inv_id j : occ j (waitRoutines_ s) + count (wakes j) (pcs s) + occ j (resumed s) = b2z (parked (pcs s !! j));
  inv_dont : dontWait_ s = true → waitRoutines_ s = [];
  inv_lock : count inside (pcs s) = b2z (waitlock_ s);
  inv_local i p : pcs s !! i = Some p → local_ok n p;
  inv_size : zlen (pcs s) ≤ 2^25;
  inv_resp : l = false → w = false → st = false → 0 < n → 1 ≤ count responsible (pcs s);
}.

Lemma mutex_parked_go (l : list pc) i p q j : l !! i = Some p →
  b2z (parked (<[i := q]> l !! j))
  = b2z (parked (l !! j)) + (if bool_decide (j = i) then b2z (parked (Some q)) - b2z (parked (Some p)) else 0).
Proof.
  intros Hi. case_bool_decide as E.
  - subst. rewrite list_lookup_insert_eq by (by eapply lookup_lt_Some). rewrite Hi. lia.
  - rewrite list_lookup_insert_ne by done. lia.
Qed.

Lemma local_mono n n' p : n ≤ n' ∨ hand p = false → local_ok n p → local_ok n' p.
Proof. destruct p; try done. simpl. intros [?|?]; [lia|done]. Qed.

(** The invariant after a step of the coroutine [i] from [p] to [q]. *)
Lemma inv_build s s' i p q l w st n l' w' st' n' :
  inv s l w st n → pcs s !! i = Some p → pcs s' = <[i := q]> (pcs s) →
  state_ s' = word l' w' st' n' → 0 ≤ n' →
  b2z l' = b2z l - b2z (held p) + b2z (held q) →
  balanced l' w' st' n'
    (b2z (dontWait_ s') + (count posting (pcs s) - b2z (posting p) + b2z (posting q)) + zlen (resumed s') +
     (count awake (pcs s) - b2z (awake p) + b2z (awake q)))
    (count awakened (pcs s) - b2z (awakened p) + b2z (awakened q))
    (count hand (pcs s) - b2z (hand p) + b2z (hand q))
    (count awake (pcs s) - b2z (awake p) + b2z (awake q))
    (count registered (pcs s) - b2z (registered p) + b2z (registered q)) →
  (∀ j, occ j (waitRoutines_ s') + (count (wakes j) (pcs s) - b2z (wakes j p) + b2z (wakes j q)) + occ j (resumed s')
    = b2z (parked (pcs s !! j)) + (if bool_decide (j = i) then b2z (parked (Some q)) - b2z (parked (Some p)) else 0)) →
  (dontWait_ s' = true → waitRoutines_ s' = []) →
  b2z (waitlock_ s') = b2z (waitlock_ s) - b2z (inside p) + b2z (inside q) →
  (n ≤ n' ∨ count hand (pcs s) - b2z (hand p) = 0) → local_ok n' q →
  (l' = false → w' = false → st' = false → 0 < n' →
   1 ≤ count responsible (pcs s) - b2z (responsible p) + b2z (responsible q)) →
  inv s' l' w' st' n'.
Proof.
  intros [Hw Hn Hh Hb Hid Hd Hl Hloc Hsz _] Hi Hp Hw' Hn' Hh' Hb' Hid' Hd' Hl' Hmono Hq Hresp.
  constructor; try done; unfold permits; rewrite ?Hp, ?(count_insert _ _ _ _ _ Hi); try lia; try done.
  - intros j. rewrite ?Hp, (mutex_parked_go _ _ _ _ _ Hi), (count_insert _ _ _ _ _ Hi). apply Hid'.
  - intros j r Hr. rewrite ?Hp in Hr. destruct (decide (i = j)) as [<-|Hne].
    + rewrite list_lookup_insert_eq in Hr by (by eapply lookup_lt_Some). by injection Hr as <-.
    + rewrite list_lookup_insert_ne in Hr by done. eapply local_mono; [|by eapply Hloc].
      destruct Hmono as [?|Hz]; [by left|right]. destruct (hand r) eqn:Er; [|done]. exfalso.
      destruct (hand p) eqn:Ep.
      * pose proof (count_two hand _ i j p r Hne Hi Hr Ep Er). simpl in Hz. lia.
      * pose proof (count_pos hand _ j r Hr Er). simpl in Hz. lia.
  - unfold zlen in *. by rewrite length_insert.
Qed.

Lemma waiters_bound s l w st n : inv s l w st n → 0 ≤ n < 2^27.
Proof.
  intros [_ Hn _ Hb _ _ _ _ Hsz _]. split; [done|]. unfold balanced, permits in Hb.
  pose proof (count_le_length registered (pcs s)). pose proof (count_le_length awake (pcs s)).
  pose proof (count_le_length hand (pcs s)). pose proof (count_nonneg posting (pcs s)).
  pose proof (zlen_nonneg (resumed s)). destruct (dontWait_ s), st; simpl in Hb; lia.
Qed.

(** All counts are non-negative, and a coroutine is counted where it is. *)
Ltac nonneg s Hi :=
  pose proof (count_nonneg posting (pcs s)); pose proof (count_nonneg awake (pcs s));
  pose proof (count_nonneg awakened (pcs s)); pose proof (count_nonneg hand (pcs s));
  pose proof (count_nonneg registered (pcs s)); pose proof (zlen_nonneg (resumed s));
  pose proof (b2z_range (dontWait_ s)); pose proof (count_nonneg held (pcs s)); pose proof (count_nonneg inside (pcs s)).

(** The identity equation. *)
Ltac ident Hinv :=
  let j := fresh "j" in intros j; simpl; pose proof (inv_id _ _ _ _ _ Hinv j);
  rewrite ?occ_app, ?occ_one, ?occ_filter, ?occ_cons; simpl;
  try (destruct (bool_decide (j = _)); simpl); try lia.

(** Steps that only move the coroutine, between points nothing is counted at. *)
Lemma inv_go s i p q l w st n : inv s l w st n → pcs s !! i = Some p →
  held p = false → held q = false → awakened p = awakened q → awake p = false → awake q = false →
  hand p = false → hand q = false → registered p = false → registered q = false → posting p = false →
  posting q = false → inside p = false → inside q = false → parked (Some p) = false → parked (Some q) = false →
  local_ok n q → (responsible p = true → responsible q = true ∨ l || w || st = true ∨ n = 0) → inv (go s i q) l w st n.
Proof.
  intros Hinv Hi H1 H2 H3 H4 H5 H6 H7 H8 H9 H10 H11 H12 H13 H14 H15 Hq Hr.
  pose proof Hinv as [Hw Hn Hh Hb Hid Hd Hl Hloc Hsz Hrs].
  assert (∀ j, wakes j p = false ∧ wakes j q = false) as Hwk by (intros j; split; [by destruct p|by destruct q]).
  apply (inv_build s _ i p q l w st n); try done;
    rewrite ?H1, ?H2, ?H3, ?H4, ?H5, ?H6, ?H7, ?H8, ?H9, ?H10, ?H11, ?H12, ?H13; change (b2z false) with 0; try lia.
  - unfold permits in Hb. simpl. rewrite !Z.sub_0_r, !Z.add_0_r. by rewrite Z.sub_add.
  - intros j. destruct (Hwk j) as [-> ->]. rewrite H14, H15. simpl. specialize (Hid j).
    destruct (bool_decide (j = i)); lia.
  - simpl. lia.
  - intros E1 E2 E3 E4. specialize (Hrs E1 E2 E3 E4). subst. pose proof (b2z_range (responsible q)).
    destruct (responsible p); simpl; [|lia]. destruct (Hr eq_refl) as [-> |[?|?]]; [simpl; lia|done|lia].
Qed.

(** The responsibility of the others, when the word does not change. *)
Ltac resp Hinv :=
  let E1 := fresh in let E2 := fresh in let E3 := fresh in let E4 := fresh in
  intros E1 E2 E3 E4; pose proof (inv_resp _ _ _ _ _ Hinv); try done; subst; simpl in *; intuition lia.

(** Solves the fields of [inv_build] for a concrete step. *)
Ltac build Hinv :=
  simpl; try done; try (by resp Hinv); try lia; try ident Hinv;
  try (pose proof (inv_balanced _ _ _ _ _ Hinv) as Hbal; unfold balanced, permits in *; simpl in *; intuition lia).

Lemma old_word_state s l w st n : inv s l w st n → old_word (state_ s).
Proof. intros Hinv. exists l, w, st, n. split; [apply Hinv|]. by eapply waiters_bound. Qed.

(** [lock]: the fast path. *)
Lemma fast_inv s i l w st n : inv s l w st n → pcs s !! i = Some LFast → state_ s = 0 →
  ∃ l' w' st' n', inv (go (set_state MUTEXLOCKED s) i Held) l' w' st' n'.
Proof.
  intros Hinv Hi Hz. pose proof (inv_word _ _ _ _ _ Hinv) as Hw. rewrite Hz in Hw. symmetry in Hw.
  apply word_zero in Hw as (-> & -> & -> & ->). nonneg s Hi.
  exists true, false, false, 0. apply (inv_build s _ i LFast Held false false false 0); build Hinv.
  by apply (inv_dont _ _ _ _ _ Hinv).
Qed.

(** [lockSlow]: loading. *)
Lemma load_inv s i lc l w st n : inv s l w st n → pcs s !! i = Some (LLoad lc) →
  inv (go s i (LTop lc (state_ s))) l w st n.
Proof.
  intros Hinv Hi. pose proof (inv_local _ _ _ _ _ Hinv _ _ Hi) as Hloc. simpl in Hloc.
  eapply inv_go; try done. simpl. split_and!; [done| |by eapply old_word_state].
  intros Ha. pose proof (count_pos awakened _ _ _ Hi Ha) as Hc.
  pose proof (inv_balanced _ _ _ _ _ Hinv) as Hb. unfold balanced, permits in Hb. nonneg s Hi.
  rewrite (inv_word _ _ _ _ _ Hinv), has_woken, has_starving.
  destruct st, w, (dontWait_ s); simpl in Hb; try done; exfalso; lia.
Qed.

Lemma word_inj l w st n l' w' st' n' : word l w st n = word l' w' st' n' → l = l' ∧ w = w' ∧ st = st' ∧ n = n'.
Proof.
  intros E. split_and!.
  - by rewrite <-(has_locked l w st n), E, has_locked.
  - by rewrite <-(has_woken l w st n), E, has_woken.
  - by rewrite <-(has_starving l w st n), E, has_starving.
  - by rewrite <-(waiters_word l w st n), E, waiters_word.
Qed.

(** The value [lockSlow] writes. *)
Lemma new_word lc l w st n : 0 ≤ n < 2^27 → (awoke lc = true → w = true ∧ st = false) →
  let newV := new_value (starving lc) (word l w st n) in
  awoke lc && negb (has newV MUTEXWOKEN) = false ∧
  (if awoke lc then Z.land newV (Z.lnot MUTEXWOKEN) else newV)
  = word (l || negb st) (w && negb (awoke lc)) (st || starving lc && l) (if l || st then n + 1 else n).
Proof.
  intros Hn Ha. simpl. rewrite new_value_word, has_woken by done. destruct (awoke lc); simpl.
  - destruct Ha as [-> ->]; [done|]. rewrite unwoken_word. done.
  - by rewrite andb_true_r.
Qed.

(** [lockSlow]: the exchange succeeds. *)
Lemma swap_inv s i lc l w st n : inv s l w st n → pcs s !! i = Some (LTop lc (state_ s)) →
  let q := if l || st then LWait (Locals (starving lc) (awoke lc) true (iter lc)) (waited lc) else Held in
  inv (go (set_state (word (l || negb st) (w && negb (awoke lc)) (st || starving lc && l) (if l || st then n + 1 else n)) s) i q)
    (l || negb st) (w && negb (awoke lc)) (st || starving lc && l) (if l || st then n + 1 else n).
Proof.
  intros Hinv Hi q. pose proof (waiters_bound _ _ _ _ _ Hinv) as Hn.
  pose proof (inv_local _ _ _ _ _ Hinv _ _ Hi) as (Hsv & Haw & _).
  rewrite (inv_word _ _ _ _ _ Hinv), has_woken, has_starving in Haw. nonneg s Hi.
  assert (awoke lc = true → 1 ≤ count awakened (pcs s)) as Hc by (intros E; by eapply count_pos).
  pose proof (inv_balanced _ _ _ _ _ Hinv) as Hb. unfold balanced, permits in Hb.
  destruct lc as [sv aw wt it]. simpl in *. unfold q. clear q.
  eapply (inv_build s _ i _ _ l w st n); try done; simpl.
  - destruct (l || st); lia.
  - destruct l, st; simpl; lia.
  - unfold balanced. destruct aw, w, st, l, sv, (dontWait_ s); simpl in *; try lia;
      try (by destruct (Haw eq_refl)); try (by specialize (Hsv eq_refl)); intuition lia.
  - intros j. pose proof (inv_id _ _ _ _ _ Hinv j). destruct (l || st); simpl; destruct (bool_decide (j = i)); lia.
  - by apply (inv_dont _ _ _ _ _ Hinv).
  - destruct (l || st); simpl; lia.
  - left. destruct (l || st); lia.
  - by destruct (l || st).
  - intros. destruct l, st; done.
Qed.

Lemma loop_inv s i ch lc oldV l w st n : inv s l w st n → pcs s !! i = Some (LTop lc oldV) →
  ∃ l' w' st' n', inv (loop_step s i ch lc oldV) l' w' st' n'.
Proof.
  intros Hinv Hi. pose proof (inv_local _ _ _ _ _ Hinv _ _ Hi) as (Hsv & Haw & Hold). unfold loop_step.
  set (swap := ok ch && bool_decide (state_ s = oldV)). case_match eqn:Espin.
  - destruct (_ && swap) eqn:Ehit; cycle 1.
    { exists l, w, st, n. rewrite orb_false_r. by eapply inv_go. }
    apply andb_prop in Ehit as [Ehit [_ Eeq%bool_decide_eq_true]%andb_prop]. subst oldV.
    rewrite (inv_word _ _ _ _ _ Hinv), only_locked in Espin. rewrite (inv_word _ _ _ _ _ Hinv), has_woken in Ehit.
    exists l, true, st, n. rewrite (inv_word _ _ _ _ _ Hinv), lor_woken.
    destruct (awoke lc) eqn:Ea; [done|]. destruct w; [done|]. destruct l, st; try done. nonneg s Hi.
    eapply (inv_build s _ i _ _ true false false n); build Hinv; try (by rewrite ?Ea);
      [|by apply (inv_dont _ _ _ _ _ Hinv)].
    rewrite Ea. pose proof (inv_balanced _ _ _ _ _ Hinv) as Hb. unfold balanced, permits in *. simpl in *. lia.
  - case_match; [exists l, w, st, n; by eapply inv_go|].
    destruct Hold as (l0 & w0 & st0 & n0 & -> & Hn0). rewrite has_woken, has_starving in Haw.
    destruct (new_word lc l0 w0 st0 n0 Hn0 Haw) as [-> Hnew]. rewrite Hnew.
    destruct swap eqn:Eswap; [|exists l, w, st, n; by eapply inv_go].
    apply andb_prop in Eswap as [_ Eeq%bool_decide_eq_true].
    pose proof (inv_word _ _ _ _ _ Hinv) as Hw. rewrite Eeq in Hw.
    apply word_inj in Hw as (-> & -> & -> & ->). rewrite has_locked_starving. rewrite <-Eeq in Hi.
    pose proof (swap_inv s i lc l w st n Hinv Hi) as Hsw. destruct (l || st); eauto.
Qed.

(** [wait] with the spin lock. *)
Lemma mutex_wait_inv s i lc lifo l w st n : inv s l w st n → pcs s !! i = Some (LWaitIn lc lifo) →
  inv (wait_step s i lc lifo) l w st n.
Proof.
  intros Hinv Hi. pose proof (count_pos inside _ _ _ Hi eq_refl) as Hin. rewrite (inv_lock _ _ _ _ _ Hinv) in Hin.
  assert (waitlock_ s = true) as Hlk by (destruct (waitlock_ s); [done|simpl in Hin; lia]).
  nonneg s Hi. pose proof (inv_balanced _ _ _ _ _ Hinv) as Hb. unfold balanced, permits in Hb.
  unfold wait_step. destruct (dontWait_ s) eqn:Ed.
  - eapply (inv_build s _ i _ _ l w st n); try done; try apply Hinv; simpl; try (by resp Hinv).
    + lia.
    + unfold balanced. destruct st; simpl in *; [destruct l; intuition lia|lia].
    + ident Hinv.
    + rewrite Hlk. simpl. lia.
    + by left.
  - eapply (inv_build s _ i _ _ l w st n); try done; try apply Hinv; simpl; try (by resp Hinv).
    + lia.
    + unfold balanced. rewrite Ed. destruct st; simpl in *; [destruct l; intuition lia|lia].
    + intros j. pose proof (inv_id _ _ _ _ _ Hinv j).
      assert (occ j (if lifo then i :: waitRoutines_ s else waitRoutines_ s ++ [i])
        = occ j (waitRoutines_ s) + b2z (bool_decide (j = i))) as ->.
      { destruct lifo; rewrite ?occ_cons, ?occ_app, ?occ_one; repeat case_bool_decide; subst; simpl; congruence || lia. }
      destruct (bool_decide (j = i)); simpl; lia.
    + by rewrite Ed.
    + rewrite Hlk. simpl. lia.
    + by left.
Qed.

(** A resumed coroutine runs. *)
Lemma resumed_inv s i lc l w st n : inv s l w st n → pcs s !! i = Some (LParked lc) → i ∈ resumed s →
  inv (go (set_resumed (filter (λ j, j ≠ i) (resumed s)) s) i (LAwake lc)) l w st n.
Proof.
  intros Hinv Hi Hin%occ_elem. nonneg s Hi. pose proof (inv_balanced _ _ _ _ _ Hinv) as Hb. unfold balanced, permits in Hb.
  pose proof (inv_id _ _ _ _ _ Hinv i) as Hidi. rewrite Hi in Hidi. simpl in Hidi.
  pose proof (occ_nonneg i (waitRoutines_ s)). pose proof (count_nonneg (wakes i) (pcs s)).
  eapply (inv_build s _ i _ _ l w st n); try done; try apply Hinv; simpl; try (by resp Hinv).
  - lia.
  - rewrite zlen_filter_ne. unfold balanced. destruct st; simpl in *; [destruct l; intuition lia|lia].
  - intros j. rewrite occ_filter. pose proof (inv_id _ _ _ _ _ Hinv j). case_bool_decide; subst; simpl; rewrite ?Hi in *; simpl; lia.
  - lia.
  - by left.
Qed.

(** After [wait]. *)
Lemma awake_inv s i ch lc l w st n : inv s l w st n → pcs s !! i = Some (LAwake lc) →
  inv (awake_step s i ch lc) l w st n.
Proof.
  intros Hinv Hi. pose proof (count_pos awake _ _ _ Hi eq_refl) as Hc. nonneg s Hi.
  pose proof (inv_balanced _ _ _ _ _ Hinv) as Hb. unfold balanced, permits in Hb.
  unfold awake_step. rewrite (inv_word _ _ _ _ _ Hinv), has_starving, has_locked_woken, waiters_word.
  destruct st.
  - destruct l; [destruct (dontWait_ s); simpl in Hb; intuition lia|]. destruct Hb as (-> & Hb).
    rewrite bool_decide_false by lia. simpl.
    eapply (inv_build s _ i _ _ false false true n); try done; try apply Hinv; simpl; try (by resp Hinv).
    + unfold balanced. intuition lia.
    + ident Hinv.
    + lia.
    + by left.
    + rewrite waiters_word. lia.
  - eapply (inv_build s _ i _ _ l w false n); try done; try apply Hinv; simpl; try (by resp Hinv).
    + lia.
    + unfold balanced. lia.
    + ident Hinv.
    + lia.
    + by left.
    + split_and!; [done| |exists l, w, false, n; split; [done|by eapply waiters_bound]].
      intros _. rewrite has_woken, has_starving. split; [|done].
      destruct w; [done|]. destruct (dontWait_ s); simpl in Hb; lia.
Qed.

(** Taking over the mutex. *)
Lemma hand_inv s i lc oldV l w st n : inv s l w st n → pcs s !! i = Some (LHand lc oldV) →
  ∃ l' w' st' n', inv (hand_step s i lc oldV) l' w' st' n'.
Proof.
  intros Hinv Hi. pose proof (count_pos hand _ _ _ Hi eq_refl) as Hc. nonneg s Hi.
  pose proof (inv_balanced _ _ _ _ _ Hinv) as Hb. unfold balanced, permits in Hb.
  pose proof (inv_local _ _ _ _ _ Hinv _ _ Hi) as Hold. simpl in Hold. pose proof (waiters_bound _ _ _ _ _ Hinv) as Hn.
  destruct st; [|lia]. destruct l; [lia|]. destruct Hb as (-> & Haw & _ & Hrg & HP).
  set (exit := negb (starving lc) || bool_decide (waiters oldV = 1)).
  exists true, false, (negb exit), (n - 1). unfold hand_step. fold exit.
  assert (i32 (state_ s + (if exit then MUTEXLOCKED - 1 ≪ MUTEXWAITERSHIFT - MUTEXSTARVING
      else MUTEXLOCKED - 1 ≪ MUTEXWAITERSHIFT)) = word true false (negb exit) (n - 1)) as Hst.
  { rewrite (inv_word _ _ _ _ _ Hinv). change (1 ≪ MUTEXWAITERSHIFT) with 8. unfold MUTEXLOCKED, MUTEXSTARVING.
    pose proof (word_range true false (negb exit) (n - 1)) as Hr.
    replace (word false false true n + _) with (word true false (negb exit) (n - 1)); [apply i32_small; lia|].
    unfold word, low. destruct exit; simpl; lia. }
  assert (exit = false → 2 ≤ n) as Hexit.
  { unfold exit. intros [_ E%bool_decide_eq_false]%orb_false_iff. lia. }
  eapply (inv_build s _ i _ _ false false true n); try done; try apply Hinv; simpl; try (by resp Hinv).
  - lia.
  - unfold balanced. destruct exit; simpl; [|specialize (Hexit eq_refl)]; destruct (dontWait_ s); simpl in *; intuition lia.
  - ident Hinv.
  - lia.
  - right. lia.
Qed.

(** [unlock]. *)
Lemma unlock_inv s i l w st n : inv s l w st n → pcs s !! i = Some Held →
  ∃ l' w' st' n', inv (unlock_step s i) l' w' st' n'.
Proof.
  intros Hinv Hi. pose proof (count_pos held _ _ _ Hi eq_refl) as Hc. rewrite (inv_held _ _ _ _ _ Hinv) in Hc.
  destruct l; [|simpl in Hc; lia]. nonneg s Hi. pose proof (waiters_bound _ _ _ _ _ Hinv) as Hn.
  pose proof (inv_balanced _ _ _ _ _ Hinv) as Hb. unfold balanced, permits in Hb.
  assert (i32 (state_ s - MUTEXLOCKED) = word false w st n ∧ i32 (word false w st n + MUTEXLOCKED) = word true w st n)
    as [E1 E2].
  { rewrite (inv_word _ _ _ _ _ Hinv). unfold MUTEXLOCKED.
    replace (word true w st n - 1) with (word false w st n) by (unfold word, low; simpl; lia).
    replace (word false w st n + 1) with (word true w st n) by (unfold word, low; simpl; lia).
    pose proof (word_range false w st n). pose proof (word_range true w st n). rewrite !i32_small by lia. done. }
  unfold unlock_step. rewrite E1, E2, has_locked, has_starving. simpl. exists false, w, st, n.
  eapply (inv_build s _ i Held _ true w st n); try done; try apply Hinv; simpl; try (by resp Hinv).
  - case_bool_decide; [|destruct st]; simpl; lia.
  - case_bool_decide as Ez; [apply word_zero in Ez as (_ & -> & -> & ->); simpl in *; lia|].
    unfold balanced. destruct st; simpl in *; [intuition lia|lia].
  - intros j. pose proof (inv_id _ _ _ _ _ Hinv j).
    destruct (bool_decide (word _ _ _ _ = 0)); [|destruct st]; simpl; destruct (bool_decide (j = i)); lia.
  - case_bool_decide; [|destruct st]; simpl; lia.
  - by left.
  - case_bool_decide; [done|]. destruct st; [done|]. simpl. by exists false, w, false, n.
  - intros _ -> -> Hpos. rewrite bool_decide_false by (rewrite word_zero; lia). simpl.
    rewrite waiters_word, has_any, bool_decide_false by lia. simpl. pose proof (count_nonneg responsible (pcs s)). lia.
Qed.

(** [unlockSlow]: the loop. *)
Lemma unlock_loop_inv s i ch oldV l w st n : inv s l w st n → pcs s !! i = Some (ULoop oldV) →
  ∃ l' w' st' n', inv (unlock_loop s i ch oldV) l' w' st' n'.
Proof.
  intros Hinv Hi. pose proof (waiters_bound _ _ _ _ _ Hinv) as Hn. unfold unlock_loop.
  destruct (_ || _) eqn:Eret; [exists l, w, st, n; eapply inv_go; try done; simpl; by rewrite Eret|].
  destruct (ok ch && _) eqn:Eswap; [|exists l, w, st, n; eapply inv_go; try done; by left].
  apply andb_prop in Eswap as [_ Eeq%bool_decide_eq_true]. subst oldV.
  rewrite (inv_word _ _ _ _ _ Hinv), waiters_word, has_any in Eret. apply orb_false_iff in Eret as [Enz%bool_decide_eq_false Ef].
  destruct l, w, st; try done. nonneg s Hi. pose proof (inv_balanced _ _ _ _ _ Hinv) as Hb. unfold balanced, permits in Hb.
  exists false, true, false, (n - 1).
  eapply (inv_build s _ i _ _ false false false n); try done; try apply Hinv; simpl; try (by resp Hinv).
  - by rewrite (inv_word _ _ _ _ _ Hinv), sub_waiter, lor_woken by lia.
  - lia.
  - unfold balanced. simpl in *. lia.
  - ident Hinv.
  - lia.
  - right. lia.
Qed.

(** [post] with the spin lock. *)
Lemma mutex_post_inv s i l w st n : inv s l w st n → pcs s !! i = Some UPostIn → inv (post_step s i) l w st n.
Proof.
  intros Hinv Hi. pose proof (count_pos inside _ _ _ Hi eq_refl) as Hin. rewrite (inv_lock _ _ _ _ _ Hinv) in Hin.
  assert (waitlock_ s = true) as Hlk by (destruct (waitlock_ s); [done|simpl in Hin; lia]).
  pose proof (count_pos posting _ _ _ Hi eq_refl) as Hps.
  nonneg s Hi. pose proof (inv_balanced _ _ _ _ _ Hinv) as Hb. unfold balanced, permits in Hb.
  assert (dontWait_ s = false) as Hd.
  { destruct (dontWait_ s); [|done]. exfalso. destruct l, w, st; simpl in Hb; intuition lia. }
  unfold post_step. destruct (waitRoutines_ s) as [|j q] eqn:Eq.
  - eapply (inv_build s _ i _ _ l w st n); try done; try apply Hinv; simpl; try (by resp Hinv).
    + lia.
    + unfold balanced. rewrite Hd in Hb. destruct st; simpl in *; [destruct l; intuition lia|lia].
    + ident Hinv.
    + rewrite Hlk. simpl. lia.
    + by left.
  - eapply (inv_build s _ i _ _ l w st n); try done; try apply Hinv; simpl; try (by resp Hinv).
    + lia.
    + unfold balanced. destruct st; simpl in *; [destruct l; intuition lia|lia].
    + intros k. pose proof (inv_id _ _ _ _ _ Hinv k) as Hk. rewrite Eq, occ_cons in Hk. simpl in *.
      destruct (bool_decide (k = i)); lia.
    + by rewrite Hd.
    + rewrite Hlk. simpl. lia.
    + by left.
Qed.

(** Entering the spin lock. *)
Lemma enter_inv s i p q l w st n : inv s l w st n → pcs s !! i = Some p → waitlock_ s = false →
  (p = UPost ∧ q = UPostIn ∨ ∃ lc b, p = LWait lc b ∧ q = LWaitIn lc b) → inv (go (set_waitlock true s) i q) l w st n.
Proof.
  intros Hinv Hi Hlk Hpq. pose proof (inv_balanced _ _ _ _ _ Hinv) as Hb. unfold balanced, permits in Hb.
  destruct Hpq as [[-> ->]|(lc & b & -> & ->)]; eapply (inv_build s _ i _ _ l w st n); try done; try apply Hinv; simpl; try (by resp Hinv);
    try lia; try (by left); try (by ident Hinv); try (by rewrite Hlk);
    unfold balanced; (destruct st; simpl in *; [destruct l; intuition lia|lia]).
Qed.

Lemma mutex_step_inv s s' l w st n : inv s l w st n → step s s' → ∃ l' w' st' n', inv s' l' w' st' n'.
Proof.
  intros Hinv [i p ch s1 Hi Hst]. destruct p; simpl in Hst; try (injection Hst as <-).
  - exists l, w, st, n. by eapply inv_go.
  - destruct (ok ch && _) eqn:E; [|exists l, w, st, n; by eapply inv_go].
    apply andb_prop in E as [_ E%bool_decide_eq_true]. by eapply fast_inv.
  - exists l, w, st, n. by apply load_inv.
  - by eapply loop_inv.
  - exists l, w, st, n. destruct (ok ch && _) eqn:E; [|done]. apply andb_prop in E as [_ E%negb_true_iff].
    eapply enter_inv; [done|done|done|right; eauto].
  - exists l, w, st, n. by apply mutex_wait_inv.
  - case_bool_decide; [|done]. injection Hst as <-. exists l, w, st, n. by apply resumed_inv.
  - exists l, w, st, n. by apply awake_inv.
  - by eapply hand_inv.
  - by eapply unlock_inv.
  - by eapply unlock_loop_inv.
  - exists l, w, st, n. eapply inv_go; try done; [by eapply old_word_state|]. intros _. simpl.
    rewrite (inv_word _ _ _ _ _ Hinv), waiters_word, has_any.
    destruct (l || w || st); [by right; left|]. case_bool_decide; [by right; right|by left].
  - exists l, w, st, n. destruct (ok ch && _) eqn:E; [|done]. apply andb_prop in E as [_ E%negb_true_iff].
    eapply enter_inv; [done|done|done|by left].
  - exists l, w, st, n. by apply mutex_post_inv.
  - exists l, w, st, n. pose proof (count_pos posting _ _ _ Hi eq_refl) as Hps. nonneg s Hi.
    pose proof (inv_balanced _ _ _ _ _ Hinv) as Hb. unfold balanced, permits in Hb.
    eapply (inv_build s _ i _ _ l w st n); try done; try apply Hinv; simpl; try (by resp Hinv).
    + lia.
    + rewrite zlen_app. change (zlen [j]) with 1. unfold balanced. destruct st; simpl in *; [destruct l; intuition lia|lia].
    + intros k. pose proof (inv_id _ _ _ _ _ Hinv k). rewrite occ_app, occ_one. simpl.
      destruct (bool_decide (k = i)); lia.
    + lia.
    + by left.
  - done.
Qed.

Lemma mutex_inv_init n : Z.of_nat n ≤ 2^25 → inv (init n) false false false 0.
Proof.
  intros Hn. assert (∀ f, f Out = false → count f (replicate n Out) = 0) as Hz by (intros; by apply count_replicate).
  constructor; simpl; try done; rewrite ?Hz by done; try done.
  - unfold balanced, permits. simpl. rewrite !Hz by done. done.
  - intros j. rewrite Hz by done. change (occ j []) with 0. destruct (replicate n Out !! j) as [p|] eqn:E; [|done].
    by apply lookup_replicate in E as [-> _].
  - intros i p [-> _]%lookup_replicate. done.
  - unfold zlen. by rewrite length_replicate.
Qed.

Lemma mutex_inv_reach n s : Z.of_nat n ≤ 2^25 → reach step (init n) s → ∃ l w st k, inv s l w st k.
Proof.
  intros Hn. induction 1 as [|s1 s2 _ (l & w & st & k & IH) Hst].
  - exists false, false, false, 0. by apply mutex_inv_init.
  - by eapply mutex_step_inv.
Qed.

(** Every coroutine is outside or suspended in [wait], and nobody is being
    resumed: nothing moves any more. *)
Definition quiet (s : t) : Prop :=
  Forall (λ p, p = Out ∨ parked (Some p) = true) (pcs s) ∧ resumed s = [].

(** Nothing is lost: in a quiet state the mutex is free and nobody waits. *)
Lemma quiet_free s l w st n : inv s l w st n → quiet s → state_ s = 0 ∧ ∀ i p, pcs s !! i = Some p → p = Out.
Proof.
  intros [Hw Hn Hh Hb Hid Hd Hl Hloc Hsz Hrs] [Hall Hres].
  assert (∀ f, f Out = false → (∀ lc, f (LParked lc) = false) → count f (pcs s) = 0) as Hz.
  { intros f Hf1 Hf2. apply count_none. eapply Forall_impl; [exact Hall|]. intros p [->|Hp]; [done|]. by destruct p. }
  rewrite (Hz held) in Hh by done. destruct l; [done|]. unfold balanced, permits in Hb.
  rewrite (Hz posting), (Hz awake), (Hz awakened), (Hz hand), Hres in Hb by done. change (zlen []) with 0 in Hb.
  assert (∀ i lc, pcs s !! i = Some (LParked lc) → waitRoutines_ s ≠ []) as Hpark.
  { intros i lc Hi Hq. specialize (Hid i). rewrite Hi, Hq, (Hz (wakes i)), Hres in Hid by done. done. }
  assert (waitRoutines_ s = [] → count registered (pcs s) = 0) as Hreg.
  { intros Hq. apply count_none. apply Forall_lookup. intros i p Hi.
    destruct (Forall_lookup_1 _ _ _ _ Hall Hi) as [->|Hp]; [done|]. destruct p; try done. by destruct (Hpark i l Hi). }
  assert (dontWait_ s = false ∧ st = false ∧ w = false ∧ n = 0) as (Ed & -> & -> & ->).
  { rewrite (Hz responsible) in Hrs by done. destruct (dontWait_ s) eqn:Ed.
    - specialize (Hreg (Hd eq_refl)). destruct st, w; simpl in Hb; intuition lia.
    - destruct st; [simpl in Hb; intuition lia|]. destruct w; [simpl in Hb; lia|].
      split_and!; try done. destruct (decide (0 < n)); [|lia]. exfalso. specialize (Hrs eq_refl eq_refl eq_refl). lia. }
  split; [done|]. intros i p Hi. destruct (Forall_lookup_1 _ _ _ _ Hall Hi) as [->|Hp]; [done|].
  pose proof (count_pos registered _ _ _ Hi ltac:(by destruct p)). rewrite Ed in Hb. simpl in Hb. lia.
Qed.

(** C20 (mutex_safe).  Under every interleaving of up to 2^25 coroutines, in
    normal and in starvation mode, with spurious failures of the exchanges and
    any behaviour of the clock: at most one coroutine holds the mutex, none of
    the consistency checks aborts the program, only suspended coroutines are
    resumed, the queue of waiters is accessed by one coroutine at a time, and no
    wake-up is lost: when every coroutine is outside or suspended, nobody is
    suspended and the mutex is free. *)
Theorem mutex_safe n s : Z.of_nat n ≤ 2^25 → reach step (init n) s →
  (∀ i j, pcs s !! i = Some Held → pcs s !! j = Some Held → i = j) ∧
  (∀ i, pcs s !! i ≠ Some Abort) ∧
  (∀ j, j ∈ resumed s → parked (pcs s !! j) = true) ∧
  count inside (pcs s) ≤ 1 ∧
  (quiet s → state_ s = 0 ∧ ∀ i p, pcs s !! i = Some p → p = Out).
Proof.
  intros Hn Hr. destruct (mutex_inv_reach n s Hn Hr) as (l & w & st & k & Hinv).
  pose proof Hinv as [Hw Hk Hh Hb Hid Hd Hl Hloc Hsz Hrs]. split_and!.
  - intros i j Hi Hj. destruct (decide (i = j)) as [|Hne]; [done|].
    pose proof (count_two held _ i j Held Held Hne Hi Hj eq_refl eq_refl). destruct l; simpl in Hh; lia.
  - intros i Hi. apply (Hloc i Abort Hi).
  - intros j Hj%occ_elem. specialize (Hid j). pose proof (occ_nonneg j (waitRoutines_ s)).
    pose proof (count_nonneg (wakes j) (pcs s)). destruct (parked (pcs s !! j)); [done|]. simpl in Hid. lia.
  - rewrite Hl. by destruct (waitlock_ s).
  - by eapply quiet_free.
Qed.

(** Running a schedule: the coroutines that step. *)
Definition next (late : bool) (s : t) (i : nat) : t :=
  default s (p ← pcs s !! i; step_at s i (Choice true late) p).
Definition run (late : bool) (s : t) (sched : list nat) : t := foldl (next late) s sched.

Lemma mutex_run_reach late s0 s sched : reach step s0 s → reach step s0 (run late s sched).
Proof.
  revert s. induction sched as [|i sched IH]; intros s Hr; [done|]. apply IH. unfold next.
  destruct (pcs s !! i) as [p|] eqn:Hi; [|done]. simpl.
  destruct (step_at s i (Choice true late) p) as [s'|] eqn:Hs; [|done]. eapply reach_step; [exact Hr|].
  by eapply Step.
Qed.

(** Coroutine 0 takes the mutex, coroutine 1 waits for it, 0 hands it on. *)
Definition example : t :=
  run true (init 2) (replicate 2 0%nat ++ replicate 14 1%nat ++ replicate 5 0%nat ++ replicate 3 1%nat).

Lemma mutex_safe_witness :
  pcs example = [Out; Held] ∧
  (∀ i j, pcs example !! i = Some Held → pcs example !! j = Some Held → i = j) ∧
  (∀ i, pcs example !! i ≠ Some Abort).
Proof.
  split; [vm_compute; reflexivity|].
  destruct (mutex_safe 2 example) as (H1 & H2 & _); [done|apply mutex_run_reach, reach_refl|].
  split; [exact H1|exact H2].
Defined.
End Mutex.
