(* ===== verification/RWMutex.v ===== *)
(** * corpc_rwmutex.cpp

    The reader-writer lock is built from a [Mutex] and two [Semaphore]s.  Its
    model uses what those two promise (see [mutex_safe] and
    [semaphore_conserves]): [Mutex::lock] returns when nobody holds the mutex,
    [Semaphore::wait] returns when a unit is available and takes it.  Every other
    access to a shared variable is a step of its own.  The theorem: writers
    exclude readers and writers, no consistency check aborts, and the lock is
    free of deadlock. *)
From S2P Require Import Prelude Threads.
Open Scope Z_scope.

Module RWMutex.

Definition RWMUTEXMAXREADERS : Z := 1 ≪ 30.

(** Where a coroutine is; [Writing] and [Reading] hold the lock. *)
Inductive pc : Type :=
  | Out
  (** [lock]: before [wlock_.lock], before the change of [readerCount_], before
      that of [readerWait_], in [writerSem_.wait]; [unlock]: in the loop of
      posts with [k] of them left. *)
  | LLock | LSub | LAdd (r : Z) | LWait | Writing | UPost (k : Z)
  (** [rlock]: before the change of [readerCount_], in [readerSem_.wait];
      [runlock]: before the change of [readerWait_], before [writerSem_.post]. *)
  | RAdd | RWait | Reading | QSub | QPost
  | Abort.

Record t : Type := Make {
  wlock_ : bool;
  readerSem_ : Z;
  writerSem_ : Z;
  readerCount_ : Z;
  readerWait_ : Z;
  pcs : list pc;
}.

Definition init (n : nat) : t := Make false 0 0 0 0 (replicate n Out).

Definition go (s : t) (i : nat) (p : pc) : t :=
  Make (wlock_ s) (readerSem_ s) (writerSem_ s) (readerCount_ s) (readerWait_ s) (<[i := p]> (pcs s)).
Definition set_wlock (b : bool) (s : t) : t :=
  Make b (readerSem_ s) (writerSem_ s) (readerCount_ s) (readerWait_ s) (pcs s).
Definition set_readerSem (v : Z) (s : t) : t :=
  Make (wlock_ s) v (writerSem_ s) (readerCount_ s) (readerWait_ s) (pcs s).
Definition set_writerSem (v : Z) (s : t) : t :=
  Make (wlock_ s) (readerSem_ s) v (readerCount_ s) (readerWait_ s) (pcs s).
Definition set_readerCount (v : Z) (s : t) : t :=
  Make (wlock_ s) (readerSem_ s) (writerSem_ s) v (readerWait_ s) (pcs s).
Definition set_readerWait (v : Z) (s : t) : t :=
  Make (wlock_ s) (readerSem_ s) (writerSem_ s) (readerCount_ s) v (pcs s).

(** The steps of [lock]; [None] where the coroutine is suspended. *)
Definition lock_step (s : t) (i : nat) (p : pc) : option t :=
  match p with
  | LLock => if wlock_ s then None else Some (go (set_wlock true s) i LSub)
  | LSub =>
    let r := readerCount_ s in
    let s := set_readerCount (i32 (r - RWMUTEXMAXREADERS)) s in
    Some (go s i (if bool_decide (r ≠ 0) then LAdd r else Writing))
  | LAdd r =>
    let r1 := readerWait_ s in
    let s := set_readerWait (i32 (r1 + r)) s in
    Some (go s i (if bool_decide (i32 (r1 + r) ≠ 0) then LWait else Writing))
  | LWait => if bool_decide (writerSem_ s > 0) then Some (go (set_writerSem (writerSem_ s - 1) s) i Writing) else None
  | _ => None
  end.

Definition unlock_step (s : t) (i : nat) (p : pc) : option t :=
  match p with
  | Writing =>
    let r := readerCount_ s in
    let s := set_readerCount (i32 (r + RWMUTEXMAXREADERS)) s in
    Some (go s i (if bool_decide (r >= 0) then Abort else UPost (i32 (r + RWMUTEXMAXREADERS))))
  | UPost k =>
    Some (if bool_decide (k > 0) then go (set_readerSem (readerSem_ s + 1) s) i (UPost (k - 1))
          else go (set_wlock false s) i Out)
  | _ => None
  end.

Definition rlock_step (s : t) (i : nat) (p : pc) : option t :=
  match p with
  | RAdd =>
    let r := readerCount_ s in
    let s := set_readerCount (i32 (r + 1)) s in
    Some (go s i (if bool_decide (r = -1) || bool_decide (r >= RWMUTEXMAXREADERS - 1) then Abort
                  else if bool_decide (r < 0) then RWait else Reading))
  | RWait => if bool_decide (readerSem_ s > 0) then Some (go (set_readerSem (readerSem_ s - 1) s) i Reading) else None
  | _ => None
  end.

Definition runlock_step (s : t) (i : nat) (p : pc) : option t :=
  match p with
  | Reading =>
    let r := readerCount_ s in
    let s := set_readerCount (i32 (r - 1)) s in
    Some (go s i (if bool_decide (r <= 0)
                  then if bool_decide (r = 0) || bool_decide (r = - RWMUTEXMAXREADERS) then Abort else QSub
                  else Out))
  | QSub =>
    let r1 := readerWait_ s in
    let s := set_readerWait (i32 (r1 - 1)) s in
    Some (go s i (if bool_decide (r1 = 1) then QPost else Out))
  | QPost => Some (go (set_writerSem (writerSem_ s + 1) s) i Out)
  | _ => None
  end.

(** A coroutine outside calls [lock] or [rlock]; the holder of the lock calls
    the matching release. *)
Inductive step (s : t) : t → Prop :=
  | StepCall i (w : bool) : pcs s !! i = Some Out → step s (go s i (if w then LLock else RAdd))
  | StepLock i p s' : pcs s !! i = Some p → lock_step s i p = Some s' → step s s'
  | StepUnlock i p s' : pcs s !! i = Some p → unlock_step s i p = Some s' → step s s'
  | StepRlock i p s' : pcs s !! i = Some p → rlock_step s i p = Some s' → step s s'
  | StepRunlock i p s' : pcs s !! i = Some p → runlock_step s i p = Some s' → step s s'.

(** ** The invariant *)
Definition reading (p : pc) : bool := match p with Reading => true | _ => false end.
Definition rwaiting (p : pc) : bool := match p with RWait => true | _ => false end.
Definition leaving (p : pc) : bool := match p with QSub => true | _ => false end.
Definition posting (p : pc) : bool := match p with QPost => true | _ => false end.
Definition adding (p : pc) : bool := match p with LAdd _ => true | _ => false end.
Definition wwaiting (p : pc) : bool := match p with LWait => true | _ => false end.
Definition writing (p : pc) : bool := match p with Writing => true | _ => false end.
(** Holding [wlock_] without having announced itself to the readers. *)
Definition holding (p : pc) : bool := match p with LSub | UPost _ => true | _ => false end.
Definition added (p : pc) : Z := match p with LAdd r => r | _ => 0 end.
Definition posts (p : pc) : Z := match p with UPost k => Z.max 0 k | _ => 0 end.
Definition aborted (p : pc) : bool := match p with Abort => true | _ => false end.

(** The relation between the shared variables and the numbers of coroutines:
    [rd] read, [rq] wait in [rlock], [lv] and [qp] leave, [la], [lw], [wr] and
    [ho] are the writer by stages, [rr] is what [lock] will add to
    [readerWait_], [po] are the posts [unlock] still makes. *)
Record numbers : Type := Numbers {
  rd : Z; rq : Z; lv : Z; qp : Z; la : Z; lw : Z; wr : Z; ho : Z; rr : Z; po : Z; ab : Z;
}.

(** The readers a waiting writer waits for: those that read, those allowed to (a
    unit of [readerSem_] exists), and those that leave. *)
Definition act (rs : Z) (x : numbers) : Z := rd x + rs + lv x.

(** The stages of the writer: none, one that holds [wlock_] only, one about to
    count the readers, waiting for them, about to be woken, writing. *)
Inductive stage (n : Z) (wl : bool) (rs ws rw : Z) (x : numbers) : Prop :=
  | Free : wl = false ∧ la x = 0 ∧ lw x = 0 ∧ wr x = 0 ∧ ho x = 0 ∧ rr x = 0 ∧ po x = 0 ∧
      rq x = rs ∧ rw = 0 ∧ lv x = 0 ∧ qp x = 0 ∧ ws = 0 → stage n wl rs ws rw x
  | Holding : wl = true ∧ la x = 0 ∧ lw x = 0 ∧ wr x = 0 ∧ ho x = 1 ∧ rr x = 0 ∧ 0 ≤ po x ∧
      rq x = rs + po x ∧ rw = 0 ∧ lv x = 0 ∧ qp x = 0 ∧ ws = 0 → stage n wl rs ws rw x
  | Adding : wl = true ∧ la x = 1 ∧ lw x = 0 ∧ wr x = 0 ∧ ho x = 0 ∧ 0 < rr x ≤ n ∧ po x = 0 ∧
      rs ≤ rq x ∧ rw ≤ 0 ∧ rw + rr x = act rs x ∧ qp x = 0 ∧ ws = 0 → stage n wl rs ws rw x
  | Waiting : wl = true ∧ la x = 0 ∧ lw x = 1 ∧ wr x = 0 ∧ ho x = 0 ∧ rr x = 0 ∧ po x = 0 ∧
      rs ≤ rq x ∧ 0 < rw ∧ rw = act rs x ∧ qp x = 0 ∧ ws = 0 → stage n wl rs ws rw x
  | Waking : wl = true ∧ la x = 0 ∧ lw x = 1 ∧ wr x = 0 ∧ ho x = 0 ∧ rr x = 0 ∧ po x = 0 ∧
      rs ≤ rq x ∧ rw = 0 ∧ act rs x = 0 ∧ qp x + ws = 1 → stage n wl rs ws rw x
  | Exclusive : wl = true ∧ la x = 0 ∧ lw x = 0 ∧ wr x = 1 ∧ ho x = 0 ∧ rr x = 0 ∧ po x = 0 ∧
      rs ≤ rq x ∧ rw = 0 ∧ act rs x = 0 ∧ qp x = 0 ∧ ws = 0 → stage n wl rs ws rw x.

Definition related (n : Z) (wl : bool) (rs ws rc rw : Z) (x : numbers) : Prop :=
  rc = rd x + rq x - RWMUTEXMAXREADERS * (la x + lw x + wr x) ∧ 0 ≤ rs ∧ 0 ≤ ws ∧ ab x = 0 ∧
  stage n wl rs ws rw x.

Definition numbers_of (l : list pc) : numbers :=
  Numbers (count reading l) (count rwaiting l) (count leaving l) (count posting l)
    (count adding l) (count wwaiting l) (count writing l) (count holding l)
    (total added l) (total posts l) (count aborted l).

(** The relation in a state with [n] coroutines. *)
Definition inv (n : Z) (s : t) : Prop :=
  zlen (pcs s) = n ∧
  related n (wlock_ s) (readerSem_ s) (writerSem_ s) (readerCount_ s) (readerWait_ s) (numbers_of (pcs s)).

(** No more coroutines are at the points than there are. *)
Lemma kinds_bound (l : list pc) :
  count reading l + count rwaiting l + count leaving l + count posting l + count adding l +
  count wwaiting l + count writing l + count holding l + count aborted l ≤ zlen l.
Proof.
  induction l as [|p l IH]; [done|]. rewrite zlen_cons. simpl. destruct p; simpl; lia.
Qed.

Lemma kinds_nonneg (l : list pc) :
  0 ≤ count reading l ∧ 0 ≤ count rwaiting l ∧ 0 ≤ count leaving l ∧ 0 ≤ count posting l ∧ 0 ≤ count adding l ∧
  0 ≤ count wwaiting l ∧ 0 ≤ count writing l ∧ 0 ≤ count holding l ∧ 0 ≤ count aborted l.
Proof. split_and!; apply count_nonneg. Qed.

Lemma writer_alone n s : inv n s → count adding (pcs s) ≤ 1 ∧ count holding (pcs s) ≤ 1.
Proof. intros [_ (_ & _ & _ & _ & Hs)]. destruct Hs as [H|H|H|H|H|H]; simpl in H; lia. Qed.

Lemma added_at s n i r : inv n s → pcs s !! i = Some (LAdd r) → total added (pcs s) = r.
Proof.
  intros [Hc _]%writer_alone Hi. apply (total_single added adding _ i (LAdd r)); [by intros []|lia|done..].
Qed.
Lemma posts_at s n i p : inv n s → pcs s !! i = Some p → holding p = true → total posts (pcs s) = posts p.
Proof.
  intros [_ Hc]%writer_alone Hi Hp. apply (total_single posts holding _ i p); [by intros []|lia|done..].
Qed.

Lemma maxreaders : RWMUTEXMAXREADERS = 2^30.
Proof. reflexivity. Qed.

(** Splits on the stage of the writer, with the numbers before and after
    coroutine [i] moves to [q]; stages in which [i] cannot be where it is are
    closed by arithmetic. *)
Ltac rw_move i q Hinv Hi :=
  let Hz := fresh "Hz" in let Hs := fresh "Hs" in let Hs' := fresh "Hs" in
  match type of Hi with pcs ?s !! _ = _ =>
    destruct Hinv as (Hz & Hrc & Hrs & Hws & Hab & Hs); pose proof (kinds_bound (pcs s)) as Hb;
    pose proof (kinds_nonneg (pcs s)) as Hn; pose proof (kinds_nonneg (<[i := q]> (pcs s))) as Hn';
    unfold inv, related, numbers_of, act in *; simpl in *; counts Hi; rewrite zlen_insert, ?maxreaders in *;
    destruct Hs as [Hs'|Hs'|Hs'|Hs'|Hs'|Hs']; unfold act in Hs'; simpl in Hs'; destruct_and?; try lia
  end.
(** The new state is at one of the stages. *)
Ltac rw_at C := solve [apply C; unfold act; simpl; split_and!; first [done|lia]].
Ltac rw_stage :=
  simpl; split_and!; try done; try lia;
  first [rw_at Free | rw_at Holding | rw_at Adding | rw_at Waiting | rw_at Waking | rw_at Exclusive].

Lemma rw_lock_inv n s i p s' : n ≤ 2^29 → inv n s → pcs s !! i = Some p → lock_step s i p = Some s' → inv n s'.
Proof.
  intros Hmax Hinv Hi Hst. destruct p as [| | |r| | | | | | | | |]; simpl in Hst; try done.
  - destruct (wlock_ s) eqn:Ew; [done|]. injection Hst as <-. rw_move i LSub Hinv Hi; try congruence. rw_stage.
  - injection Hst as <-. pose proof (posts_at _ _ _ _ Hinv Hi eq_refl) as Hk. case_bool_decide.
    + rw_move i (LAdd 0) Hinv Hi. rewrite i32_small by lia. rw_stage.
    + rw_move i Writing Hinv Hi. rewrite i32_small by lia. rw_stage.
  - injection Hst as <-. pose proof (added_at _ _ _ _ Hinv Hi) as Hr0.
    rw_move i Writing Hinv Hi. rewrite i32_small by lia. case_bool_decide; counts Hi; rw_stage.
  - case_bool_decide; [|done]. injection Hst as <-. rw_move i Writing Hinv Hi. rw_stage.
Qed.

Lemma rw_unlock_inv n s i p s' : n ≤ 2^29 → inv n s → pcs s !! i = Some p → unlock_step s i p = Some s' → inv n s'.
Proof.
  intros Hmax Hinv Hi Hst. destruct p as [| | | | | |k| | | | | |]; simpl in Hst; try done; injection Hst as <-.
  - rw_move i Out Hinv Hi. rewrite i32_small, bool_decide_false by lia. counts Hi. rw_stage.
  - pose proof (posts_at _ _ _ _ Hinv Hi eq_refl) as Hk. case_bool_decide.
    + rw_move i (UPost 0) Hinv Hi. rw_stage.
    + rw_move i Out Hinv Hi. rw_stage.
Qed.

Lemma rw_rlock_inv n s i p s' : n ≤ 2^29 → inv n s → pcs s !! i = Some p → rlock_step s i p = Some s' → inv n s'.
Proof.
  intros Hmax Hinv Hi Hst. destruct p; simpl in Hst; try done.
  - injection Hst as <-. rw_move i Out Hinv Hi; rewrite i32_small by lia; rewrite ?maxreaders;
      rewrite (bool_decide_false (_ = -1)), (bool_decide_false (_ >= _)) by lia; simpl;
      case_bool_decide; counts Hi; try lia; rw_stage.
  - case_bool_decide; [|done]. injection Hst as <-. rw_move i Reading Hinv Hi; rw_stage.
Qed.

Lemma rw_runlock_inv n s i p s' : n ≤ 2^29 → inv n s → pcs s !! i = Some p → runlock_step s i p = Some s' → inv n s'.
Proof.
  intros Hmax Hinv Hi Hst. destruct p; simpl in Hst; try done; injection Hst as <-.
  - rw_move i Out Hinv Hi; rewrite i32_small by lia; rewrite ?maxreaders;
      (case_bool_decide; [rewrite !bool_decide_false by lia; simpl|]); counts Hi; try lia; rw_stage.
  - rw_move i Out Hinv Hi; rewrite i32_small by lia; case_bool_decide; counts Hi; try lia; rw_stage.
  - rw_move i Out Hinv Hi; rw_stage.
Qed.

Lemma rw_inv_reach n s : Z.of_nat n ≤ 2^29 → reach step (init n) s → inv (Z.of_nat n) s.
Proof.
  intros Hmax. apply reach_invariant.
  - unfold inv, related, numbers_of. simpl. rewrite !count_replicate, !total_replicate by done.
    split; [unfold zlen; by rewrite length_replicate|]. rw_stage.
  - intros s1 s2 Hinv [i w Hi|i p s' Hi Hs|i p s' Hi Hs|i p s' Hi Hs|i p s' Hi Hs];
      [|by eapply rw_lock_inv|by eapply rw_unlock_inv|by eapply rw_rlock_inv|by eapply rw_runlock_inv].
    destruct w; [rw_move i LLock Hinv Hi; rw_stage|rw_move i RAdd Hinv Hi; rw_stage].
Qed.

(** Nobody can take a step except by a new call: every coroutine is outside or
    suspended. *)
Definition stuck (s : t) : Prop :=
  Forall (λ p, p = Out ∨ p = LLock ∧ wlock_ s = true ∨ p = LWait ∧ writerSem_ s = 0 ∨ p = RWait ∧ readerSem_ s = 0) (pcs s).

(** C22 (rwmutex_safe).  Under every interleaving of readers and writers (up to
    2^29 coroutines): at most one coroutine writes, nobody reads while one
    writes, no consistency check aborts the program, and there is no deadlock:
    when no coroutine can go on, none of them is inside the lock. *)
Theorem rwmutex_safe n s : Z.of_nat n ≤ 2^29 → reach step (init n) s →
  (∀ i j, pcs s !! i = Some Writing → pcs s !! j = Some Writing → i = j) ∧
  (∀ i j, pcs s !! i = Some Writing → pcs s !! j ≠ Some Reading) ∧
  (∀ i, pcs s !! i ≠ Some Abort) ∧
  (stuck s → ∀ i p, pcs s !! i = Some p → p = Out).
Proof.
  intros Hn Hr. pose proof (rw_inv_reach n s Hn Hr) as (Hz & Hrc & Hrs & Hws & Hab & Hs).
  pose proof (kinds_nonneg (pcs s)) as Hnn. unfold act in *. simpl in *.
  assert (count writing (pcs s) ≤ 1) as Hw1 by (destruct Hs as [H|H|H|H|H|H]; simpl in H; lia).
  split_and!.
  - intros i j Hi Hj. destruct (decide (i = j)) as [|Hne]; [done|].
    pose proof (count_two writing _ i j Writing Writing Hne Hi Hj eq_refl eq_refl). lia.
  - intros i j Hi Hj. pose proof (count_pos writing _ i _ Hi eq_refl). pose proof (count_pos reading _ j _ Hj eq_refl).
    destruct Hs as [H'|H'|H'|H'|H'|H']; unfold act in H'; simpl in H'; lia.
  - intros i Hi. pose proof (count_pos aborted _ i _ Hi eq_refl). lia.
  - intros Hst.
    assert (∀ f, f Out = false → f LLock = false → f LWait = false → f RWait = false → count f (pcs s) = 0) as Hc.
    { intros f H1 H2 H3 H4. apply count_none. eapply Forall_impl; [exact Hst|]. naive_solver. }
    pose proof (Hc reading eq_refl eq_refl eq_refl eq_refl). pose proof (Hc leaving eq_refl eq_refl eq_refl eq_refl).
    pose proof (Hc posting eq_refl eq_refl eq_refl eq_refl). pose proof (Hc adding eq_refl eq_refl eq_refl eq_refl).
    pose proof (Hc writing eq_refl eq_refl eq_refl eq_refl). pose proof (Hc holding eq_refl eq_refl eq_refl eq_refl).
    assert (∀ i, pcs s !! i = Some LWait → False) as Hlw.
    { intros i Hi. pose proof (count_pos wwaiting _ i _ Hi eq_refl).
      destruct (Forall_lookup_1 _ _ _ _ Hst Hi) as [?|[[? _]|[[_ Hq]|[? _]]]]; try done.
      assert (readerSem_ s = 0) as Hrs0.
      { destruct Hs as [H'|H'|H'|H'|H'|H']; unfold act in H'; simpl in H'; try lia.
        destruct (count_witness rwaiting (pcs s)) as (j & p & Hj & Hp); [lia|]. destruct p; try done.
        destruct (Forall_lookup_1 _ _ _ _ Hst Hj) as [?|[[? _]|[[? _]|[_ ?]]]]; done. }
      destruct Hs as [H'|H'|H'|H'|H'|H']; unfold act in H'; simpl in H'; lia. }
    assert (count wwaiting (pcs s) = 0) as Hw0.
    { apply count_none. apply Forall_lookup. intros i p Hi. destruct p; try done. by destruct (Hlw i). }
    intros i p Hi. destruct (Forall_lookup_1 _ _ _ _ Hst Hi) as [->|[[-> Hl]|[[-> Hl]|[-> Hl]]]]; [done|exfalso..].
    + rewrite Hl in Hs. destruct Hs as [H'|H'|H'|H'|H'|H']; simpl in H'; lia.
    + by apply (Hlw i).
    + pose proof (count_pos rwaiting _ i _ Hi eq_refl). destruct Hs as [H'|H'|H'|H'|H'|H']; simpl in H'; lia.
Qed.

(** Running a schedule: each entry is a coroutine and whether a call it makes
    is one of [lock]. *)
Definition next (s : t) (c : nat * bool) : t :=
  let '(i, w) := c in
  match pcs s !! i with
  | None => s
  | Some Out => go s i (if w then LLock else RAdd)
  | Some p => default (default (default (default s (runlock_step s i p)) (rlock_step s i p)) (unlock_step s i p)) (lock_step s i p)
  end.
Definition run (s : t) (cs : list (nat * bool)) : t := foldl next s cs.

Lemma rw_next_reach s0 s c : reach step s0 s → reach step s0 (next s c).
Proof.
  destruct c as [i w]. intros Hr. unfold next. destruct (pcs s !! i) as [p|] eqn:Hi; [|done].
  assert (reach step s0 (default (default (default (default s (runlock_step s i p)) (rlock_step s i p))
    (unlock_step s i p)) (lock_step s i p))) as Hp.
  { destruct (lock_step s i p) eqn:E1; simpl; [by eapply reach_step; [|eapply StepLock]|].
    destruct (unlock_step s i p) eqn:E2; simpl; [by eapply reach_step; [|eapply StepUnlock]|].
    destruct (rlock_step s i p) eqn:E3; simpl; [by eapply reach_step; [|eapply StepRlock]|].
    destruct (runlock_step s i p) eqn:E4; simpl; [by eapply reach_step; [|eapply StepRunlock]|done]. }
  destruct p; try exact Hp. eapply reach_step; [exact Hr|]. by apply StepCall.
Qed.
Lemma rw_run_reach s0 s cs : reach step s0 s → reach step s0 (run s cs).
Proof. revert s. induction cs as [|c cs IH]; intros s Hr; [done|]. by apply IH, rw_next_reach. Qed.

(** Coroutine 0 reads, 1 wants to write and 2 to read; 0 leaves, 1 writes. *)
Definition example : t :=
  run (init 3) (replicate 2 (0%nat, false) ++ replicate 4 (1%nat, true) ++ replicate 3 (2%nat, false) ++
                replicate 3 (0%nat, false) ++ [(1%nat, true)]).

Lemma rwmutex_safe_witness :
  pcs example = [Out; Writing; RWait] ∧
  (∀ i j, pcs example !! i = Some Writing → pcs example !! j = Some Writing → i = j) ∧
  (∀ i j, pcs example !! i = Some Writing → pcs example !! j ≠ Some Reading) ∧
  (∀ i, pcs example !! i ≠ Some Abort).
Proof.
  split; [vm_compute; reflexivity|].
  destruct (rwmutex_safe 3 example) as (H1 & H2 & H3 & _); [done|apply rw_run_reach, reach_refl|].
  split; [exact H1|split; [exact H2|exact H3]].
Defined.
End RWMutex.
