(* ===== verification/Condition.v ===== *)
(** * corpc_condition.cpp

    The condition variable.  [res_] is 1 while one coroutine works on the queue
    of waiting coroutines.  The mutex passed to [wait] is used by its contract:
    [lock] returns when nobody holds it.  Every access to a shared variable is a
    step. *)
From S2P Require Import Prelude Threads.
Open Scope Z_scope.

Module Condition.

(** Where a coroutine is.  [signal] and [broadcast] may be called with or without
    the mutex: [h] is whether the caller holds it. *)
Inductive pc : Type :=
  | Out | MLock | Held
  (** [wait]: before the load, before the exchange, before [push_back], before
      the store, before [lock.unlock], suspended, and in [lock.lock]. *)
  | WLoad | WTake | WPush | WStore | WUnlock | WYield | WRelock
  (** [signal]: before the load and the exchange, at the test of the queue,
      before the stores, and before resuming a coroutine. *)
  | SLoad (h : bool) | STake (h : bool) | SIn (h : bool) | SStore0 (h : bool)
  | SStore (h : bool) (j : nat) | SResume (h : bool) (j : nat)
  (** [broadcast]: the same, with the coroutines still to be resumed. *)
  | BLoad (h : bool) | BTake (h : bool) | BIn (h : bool) | BStore0 (h : bool)
  | BStore (h : bool) (l : list nat) | BResume (h : bool) (l : list nat).

Record t : Type := Make {
  res_ : Z;
  waitRoutines_ : list nat;
  locked : bool;
  pcs : list pc;
  resumed : list nat;
}.

Definition init (n : nat) : t := Make 0 [] false (replicate n Out) [].

Definition go (s : t) (i : nat) (p : pc) : t :=
  Make (res_ s) (waitRoutines_ s) (locked s) (<[i := p]> (pcs s)) (resumed s).
Definition set_res (r : Z) (s : t) : t := Make r (waitRoutines_ s) (locked s) (pcs s) (resumed s).
Definition set_queue (q : list nat) (s : t) : t := Make (res_ s) q (locked s) (pcs s) (resumed s).
Definition set_locked (b : bool) (s : t) : t := Make (res_ s) (waitRoutines_ s) b (pcs s) (resumed s).
Definition set_resumed (l : list nat) (s : t) : t := Make (res_ s) (waitRoutines_ s) (locked s) (pcs s) l.

(** Where [signal] and [broadcast] return to. *)
Definition back (h : bool) : pc := if h then Held else Out.

(** The spin on [res_], the same in the three operations: load, exchange. *)
Definition load_step (s : t) (i : nat) (load take : pc) : t :=
  go s i (if bool_decide (res_ s = 0) then take else load).
Definition take_step (s : t) (i : nat) (ok : bool) (load inside : pc) : t :=
  if ok && bool_decide (res_ s = 0) then go (set_res 1 s) i inside else go s i load.

Definition wait_step (s : t) (i : nat) (ok : bool) (p : pc) : option t :=
  match p with
  | WLoad => Some (load_step s i WLoad WTake)
  | WTake => Some (take_step s i ok WLoad WPush)
  | WPush => Some (go (set_queue (waitRoutines_ s ++ [i]) s) i WStore)
  | WStore => Some (go (set_res 0 s) i WUnlock)
  | WUnlock => Some (go (set_locked false s) i WYield)
  | WYield => if bool_decide (i ∈ resumed s)
              then Some (go (set_resumed (filter (λ j, j ≠ i) (resumed s)) s) i WRelock) else None
  | WRelock => if locked s then None else Some (go (set_locked true s) i Held)
  | _ => None
  end.

Definition signal_step (s : t) (i : nat) (ok : bool) (p : pc) : option t :=
  match p with
  | SLoad h => Some (load_step s i (SLoad h) (STake h))
  | STake h => Some (take_step s i ok (SLoad h) (SIn h))
  | SIn h =>
    Some (match waitRoutines_ s with
          | [] => go s i (SStore0 h)
          | j :: q => go (set_queue q s) i (SStore h j)
          end)
  | SStore0 h => Some (go (set_res 0 s) i (back h))
  | SStore h j => Some (go (set_res 0 s) i (SResume h j))
  | SResume h j => Some (go (set_resumed (resumed s ++ [j]) s) i (back h))
  | _ => None
  end.

Definition broadcast_step (s : t) (i : nat) (ok : bool) (p : pc) : option t :=
  match p with
  | BLoad h => Some (load_step s i (BLoad h) (BTake h))
  | BTake h => Some (take_step s i ok (BLoad h) (BIn h))
  | BIn h =>
    Some (match waitRoutines_ s with
          | [] => go s i (BStore0 h)
          | q => go (set_queue [] s) i (BStore h q)
          end)
  | BStore0 h => Some (go (set_res 0 s) i (back h))
  | BStore h l => Some (go (set_res 0 s) i (BResume h l))
  | BResume h [] => Some (go s i (back h))
  | BResume h (j :: l) => Some (go (set_resumed (resumed s ++ [j]) s) i (BResume h l))
  | _ => None
  end.

(** The calls: the mutex is locked and unlocked by its holder, [wait] is called
    by the holder, [signal] and [broadcast] by anybody. *)
Definition call_step (s : t) (i : nat) (p q : pc) : option t :=
  match p, q with
  | Out, MLock => Some (go s i MLock)
  | MLock, Held => if locked s then None else Some (go (set_locked true s) i Held)
  | Held, Out => Some (go (set_locked false s) i Out)
  | Held, WLoad => Some (go s i WLoad)
  | Held, SLoad true | Out, SLoad false | Held, BLoad true | Out, BLoad false => Some (go s i q)
  | _, _ => None
  end.

Inductive step (s : t) : t → Prop :=
  | StepCall i p q s' : pcs s !! i = Some p → call_step s i p q = Some s' → step s s'
  | StepWait i p ok s' : pcs s !! i = Some p → wait_step s i ok p = Some s' → step s s'
  | StepSignal i p ok s' : pcs s !! i = Some p → signal_step s i ok p = Some s' → step s s'
  | StepBroadcast i p ok s' : pcs s !! i = Some p → broadcast_step s i ok p = Some s' → step s s'.

(** ** The invariant *)
Definition holds (p : pc) : bool :=
  match p with
  | Held | WLoad | WTake | WPush | WStore | WUnlock => true
  | SLoad h | STake h | SIn h | SStore0 h | SStore h _ | SResume h _ => h
  | BLoad h | BTake h | BIn h | BStore0 h | BStore h _ | BResume h _ => h
  | _ => false
  end.
Definition inside (p : pc) : bool :=
  match p with
  | WPush | WStore | SIn _ | SStore0 _ | SStore _ _ | BIn _ | BStore0 _ | BStore _ _ => true
  | _ => false
  end.
(** The coroutines a coroutine is about to resume. *)
Definition waking (p : pc) : list nat :=
  match p with SStore _ j | SResume _ j => [j] | BStore _ l | BResume _ l => l | _ => [] end.
(** Registered as waiting, and not resumed yet. *)
Definition parked (p : pc) : bool := match p with WStore | WUnlock | WYield => true | _ => false end.

Definition parked_at (l : list pc) (j : nat) : Z := b2z (default false (parked <$> l !! j)).

Record inv (s : t) : Prop := {
  inv_holds : count holds (pcs s) = b2z (locked s);
  inv_inside : count inside (pcs s) = res_ s ∧ (res_ s = 0 ∨ res_ s = 1);
  inv_id j : occ j (waitRoutines_ s) + total (λ p, occ j (waking p)) (pcs s) + occ j (resumed s) = parked_at (pcs s) j;
}.

Lemma parked_insert (l : list pc) i p q j : l !! i = Some p →
  parked_at (<[i := q]> l) j = parked_at l j + (if bool_decide (j = i) then b2z (parked q) - b2z (parked p) else 0).
Proof.
  intros Hi. unfold parked_at. case_bool_decide as E.
  - subst. rewrite list_lookup_insert_eq, Hi by (by eapply lookup_lt_Some). simpl. lia.
  - rewrite list_lookup_insert_ne by done. lia.
Qed.

(** A step of coroutine [i] to [q], from the changes it makes. *)
Lemma cond_build s s' i p q : inv s → pcs s !! i = Some p → pcs s' = <[i := q]> (pcs s) →
  b2z (locked s') - b2z (locked s) = b2z (holds q) - b2z (holds p) →
  res_ s' - res_ s = b2z (inside q) - b2z (inside p) → (res_ s' = 0 ∨ res_ s' = 1) →
  (∀ j, occ j (waitRoutines_ s') + occ j (waking q) + occ j (resumed s') + (if bool_decide (j = i) then b2z (parked p) else 0)
      = occ j (waitRoutines_ s) + occ j (waking p) + occ j (resumed s) + (if bool_decide (j = i) then b2z (parked q) else 0)) →
  inv s'.
Proof.
  intros [Hh [Hi1 Hi2] Hid] Hi Hp H1 H2 H3 H4. constructor; rewrite Hp, ?(count_insert _ _ _ _ _ Hi).
  - lia.
  - split; [lia|done].
  - intros j. specialize (Hid j). specialize (H4 j).
    rewrite (total_insert _ _ _ _ _ Hi), (parked_insert _ _ _ _ _ Hi). destruct (bool_decide (j = i)); lia.
Qed.

Lemma inside_res s i p : inv s → pcs s !! i = Some p → inside p = true → res_ s = 1.
Proof. intros [_ [Hc Hr] _] Hi Hp. pose proof (count_pos inside _ i p Hi Hp). lia. Qed.
Lemma holds_locked s i p : inv s → pcs s !! i = Some p → holds p = true → locked s = true.
Proof.
  intros [Hc _ _] Hi Hp. pose proof (count_pos holds _ i p Hi Hp). destruct (locked s); [done|]. simpl in Hc. lia.
Qed.

(** Closes the premises of [cond_build] for a concrete step. *)
Ltac cond_step Hinv Hi :=
  eapply (cond_build _ _ _ _ _ Hinv Hi);
  [reflexivity|simpl|simpl|simpl|
   let j := fresh "j" in intros j; simpl; rewrite ?occ_app, ?occ_one, ?occ_cons, ?occ_nil].

(** The moves of the spin keep the invariant. *)
Record spin (load take inside_pc : pc) : Prop := {
  spin_holds : holds take = holds load ∧ holds inside_pc = holds load;
  spin_inside : inside load = false ∧ inside take = false ∧ inside inside_pc = true;
  spin_waking : waking load = [] ∧ waking take = [] ∧ waking inside_pc = [];
  spin_parked : parked load = false ∧ parked take = false ∧ parked inside_pc = false;
}.
Lemma cond_load_inv s i load take ins : spin load take ins → inv s → pcs s !! i = Some load → inv (load_step s i load take).
Proof.
  intros [[A1 A2] (B1 & B2 & B3) (C1 & C2 & C3) (D1 & D2 & D3)] Hinv Hi. pose proof (proj2 (inv_inside _ Hinv)).
  unfold load_step. case_bool_decide; cond_step Hinv Hi; rewrite ?A1, ?B1, ?B2, ?C1, ?C2, ?D1, ?D2; simpl; done || lia.
Qed.
Lemma cond_take_inv s i ok load take ins : spin load take ins → inv s → pcs s !! i = Some take →
  inv (take_step s i ok load ins).
Proof.
  intros [[A1 A2] (B1 & B2 & B3) (C1 & C2 & C3) (D1 & D2 & D3)] Hinv Hi. pose proof (proj2 (inv_inside _ Hinv)).
  unfold take_step. destruct (ok && _) eqn:E; cond_step Hinv Hi;
    rewrite ?A1, ?A2, ?B1, ?B2, ?B3, ?C1, ?C2, ?C3, ?D1, ?D2, ?D3; simpl; try done; try lia.
  apply andb_prop in E as [_ E%bool_decide_eq_true]. lia.
Qed.

Lemma cond_wait_inv s i ok p s' : inv s → pcs s !! i = Some p → wait_step s i ok p = Some s' → inv s'.
Proof.
  intros Hinv Hi Hst. pose proof (proj2 (inv_inside _ Hinv)) as Hr01. pose proof (b2z_range (locked s)).
  destruct p; simpl in Hst; try done; try (injection Hst as <-).
  - by apply (cond_load_inv _ _ _ _ WPush).
  - by apply (cond_take_inv _ _ _ _ WTake).
  - cond_step Hinv Hi; simpl; try lia. destruct (decide (j = i)) as [->|]; rewrite ?bool_decide_true, ?bool_decide_false by done; simpl; lia.
  - pose proof (inside_res _ _ _ Hinv Hi eq_refl). cond_step Hinv Hi; simpl; lia.
  - pose proof (holds_locked _ _ _ Hinv Hi eq_refl) as El. cond_step Hinv Hi; simpl; rewrite ?El; simpl; lia.
  - case_bool_decide as Hin; [|done]. injection Hst as <-. pose proof (occ_elem _ _ Hin) as Ho.
    pose proof (inv_id _ Hinv i) as Hid. unfold parked_at in Hid. rewrite Hi in Hid. simpl in Hid.
    assert (occ i (resumed s) = 1) as Ho1.
    { pose proof (occ_nonneg i (waitRoutines_ s)). pose proof (total_nonneg (λ p, occ i (waking p)) (pcs s)) as Ht.
      specialize (Ht ltac:(intros; apply occ_nonneg)). lia. }
    cond_step Hinv Hi; simpl; try lia. rewrite occ_filter. case_bool_decide; subst; simpl; lia.
  - destruct (locked s) eqn:El; [done|]. injection Hst as <-. cond_step Hinv Hi; simpl; rewrite ?El; simpl; lia.
Qed.

Lemma cond_signal_inv s i ok p s' : inv s → pcs s !! i = Some p → signal_step s i ok p = Some s' → inv s'.
Proof.
  intros Hinv Hi Hst. pose proof (proj2 (inv_inside _ Hinv)) as Hr01.
  destruct p; simpl in Hst; try done; injection Hst as <-.
  - by apply (cond_load_inv _ _ _ _ (SIn h)).
  - by apply (cond_take_inv _ _ _ _ (STake h)).
  - destruct (waitRoutines_ s) eqn:Eq; cond_step Hinv Hi; simpl; try lia. rewrite Eq, occ_cons. lia.
  - pose proof (inside_res _ _ _ Hinv Hi eq_refl). cond_step Hinv Hi; destruct h; simpl; rewrite ?occ_nil; try lia.
  - pose proof (inside_res _ _ _ Hinv Hi eq_refl). cond_step Hinv Hi; simpl; lia.
  - cond_step Hinv Hi; destruct h; simpl; rewrite ?occ_one, ?occ_nil; try lia.
Qed.

Lemma cond_broadcast_inv s i ok p s' : inv s → pcs s !! i = Some p → broadcast_step s i ok p = Some s' → inv s'.
Proof.
  intros Hinv Hi Hst. pose proof (proj2 (inv_inside _ Hinv)) as Hr01.
  destruct p as [| | | | | | | | | | | | | | | |h|h|h|h|h l|h l]; simpl in Hst; try done; [injection Hst as <-..|].
  - by apply (cond_load_inv _ _ _ _ (BIn h)).
  - by apply (cond_take_inv _ _ _ _ (BTake h)).
  - destruct (waitRoutines_ s) eqn:Eq; cond_step Hinv Hi; simpl; try lia. rewrite Eq, ?occ_cons. lia.
  - pose proof (inside_res _ _ _ Hinv Hi eq_refl). cond_step Hinv Hi; destruct h; simpl; rewrite ?occ_nil; try lia.
  - pose proof (inside_res _ _ _ Hinv Hi eq_refl). cond_step Hinv Hi; simpl; lia.
  - destruct l as [|k l]; injection Hst as <-; cond_step Hinv Hi; destruct h; simpl; rewrite ?occ_cons, ?occ_one, ?occ_nil; try lia.
Qed.

Lemma cond_call_inv s i p q s' : inv s → pcs s !! i = Some p → call_step s i p q = Some s' → inv s'.
Proof.
  intros Hinv Hi Hst. pose proof (proj2 (inv_inside _ Hinv)) as Hr01.
  destruct p, q; simpl in Hst; try done; try (destruct h; [|done]); try (destruct h; [done|]); try (injection Hst as <-);
    try (cond_step Hinv Hi; simpl; lia).
  - destruct (locked s) eqn:El; [done|]. injection Hst as <-. cond_step Hinv Hi; simpl; rewrite ?El; simpl; lia.
  - pose proof (holds_locked _ _ _ Hinv Hi eq_refl) as El. cond_step Hinv Hi; simpl; rewrite ?El; simpl; lia.
Qed.

Lemma cond_inv_reach n s : reach step (init n) s → inv s.
Proof.
  apply reach_invariant.
  - constructor; simpl; rewrite ?count_replicate by done; [done|auto|].
    intros j. rewrite total_replicate by done. unfold parked_at.
    destruct (replicate n Out !! j) eqn:E; [|done]. by apply lookup_replicate in E as [-> _].
  - intros s1 s2 Hinv [i p q s' Hi Hs|i p ok s' Hi Hs|i p ok s' Hi Hs|i p ok s' Hi Hs];
      [by eapply cond_call_inv|by eapply cond_wait_inv|by eapply cond_signal_inv|by eapply cond_broadcast_inv].
Qed.

(** Every coroutine is outside, holds the mutex or is suspended, and nobody is
    being resumed. *)
Definition quiet (s : t) : Prop := Forall (λ p, p = Out ∨ p = Held ∨ p = WYield) (pcs s) ∧ resumed s = [].

(** C24 (condition_safe).  Under every interleaving of [wait], [signal],
    [broadcast] and of locking the mutex: at most one coroutine holds the mutex
    (in [wait] until it is suspended, and again when [wait] returns); the queue
    is accessed by one coroutine at a time; a coroutine that has registered in
    [wait] and released the mutex is in the queue or about to be resumed, exactly
    once, so no signal sent after that misses it, and nobody else is ever
    resumed; when nothing is in progress the queue holds exactly the suspended
    coroutines. *)
Theorem condition_safe n s : reach step (init n) s →
  count holds (pcs s) ≤ 1 ∧ count inside (pcs s) ≤ 1 ∧
  (∀ j p, pcs s !! j = Some p →
    occ j (waitRoutines_ s) + total (λ p, occ j (waking p)) (pcs s) + occ j (resumed s) = b2z (parked p)) ∧
  (quiet s → ∀ j, pcs s !! j = Some WYield ↔ j ∈ waitRoutines_ s).
Proof.
  intros [Hh [Hi Hr] Hid]%cond_inv_reach. pose proof (b2z_range (locked s)). split_and!; [lia|lia|..].
  - intros j p Hj. specialize (Hid j). unfold parked_at in Hid. by rewrite Hj in Hid.
  - intros [Hq Hres] j. specialize (Hid j).
    rewrite Hres, total_none, occ_nil in Hid; [|eapply Forall_impl; [exact Hq|]; by intros p [->|[->| ->]]].
    unfold parked_at in Hid. split.
    + intros Hj. rewrite Hj in Hid. simpl in Hid. apply occ_in. lia.
    + intros Hj%occ_elem. destruct (pcs s !! j) as [p|] eqn:E; [|simpl in Hid; lia].
      destruct (Forall_lookup_1 _ _ _ _ Hq E) as [->|[->| ->]]; simpl in Hid; [lia..|done].
Qed.

(** Coroutine 0 takes the mutex and waits, coroutine 1 signals. *)
Definition next (s : t) (c : nat * pc) : t :=
  let '(i, q) := c in
  match pcs s !! i with
  | None => s
  | Some p => default (default (default (default s (broadcast_step s i true p)) (signal_step s i true p))
                (wait_step s i true p)) (call_step s i p q)
  end.
Definition run (s : t) (cs : list (nat * pc)) : t := foldl next s cs.

Lemma cond_next_reach s0 s c : reach step s0 s → reach step s0 (next s c).
Proof.
  destruct c as [i q]. intros Hr. unfold next. destruct (pcs s !! i) as [p|] eqn:Hi; [|done].
  destruct (call_step s i p q) eqn:E1; simpl; [by eapply reach_step; [|eapply StepCall]|].
  destruct (wait_step s i true p) eqn:E2; simpl; [by eapply reach_step; [|eapply StepWait]|].
  destruct (signal_step s i true p) eqn:E3; simpl; [by eapply reach_step; [|eapply StepSignal]|].
  destruct (broadcast_step s i true p) eqn:E4; simpl; [by eapply reach_step; [|eapply StepBroadcast]|done].
Qed.
Lemma cond_run_reach s0 s cs : reach step s0 s → reach step s0 (run s cs).
Proof. revert s. induction cs as [|c cs IH]; intros s Hr; [done|]. by apply IH, cond_next_reach. Qed.

Definition example : t :=
  run (init 2) ([(0%nat, MLock); (0%nat, Held); (0%nat, WLoad)] ++ replicate 5 (0%nat, Out) ++
                [(1%nat, SLoad false)] ++ replicate 5 (1%nat, Out)).

Lemma condition_safe_witness :
  (pcs example = [WYield; Out] ∧ resumed example = [0%nat]) ∧
  count holds (pcs example) ≤ 1 ∧ count inside (pcs example) ≤ 1 ∧
  (∀ j p, pcs example !! j = Some p →
    occ j (waitRoutines_ example) + total (λ p, occ j (waking p)) (pcs example) + occ j (resumed example) = b2z (parked p)) ∧
  (quiet example → ∀ j, pcs example !! j = Some WYield ↔ j ∈ waitRoutines_ example).
Proof.
  split; [vm_compute; split; reflexivity|]. apply (condition_safe 2 example). apply cond_run_reach, reach_refl.
Defined.
End Condition.
