(* ===== verification/Queue.v ===== *)
(** * corpc_queue.h

    The queues between threads.  [MPSC_NoLockQueue]: producers push nodes onto
    an atomic stack, the single consumer takes the whole stack and reverses it;
    [Co_MPSC_NoLockQueue] adds a pipe that wakes the consumer.
    [MPMC_NoLockBlockQueue]: a list under a mutex and a semaphore that counts its
    elements.  Every access to a shared variable is a step; the nodes live in a
    heap whose addresses are reused.  [SyncQueue] has a list for each side and
    swaps them under a lock. *)
From stdpp Require Import gmap.
From S2P Require Import Prelude Threads.
Open Scope Z_scope.

Module MPSC_NoLockQueue.
Section queue.
Context {A : Type}.

Record node : Type := Node { value : A; next : option Z }.
Abbreviation heap := (gmap Z node).

(** A producer: before [newNode->next = head_], before the exchange, before
    writing to the pipe.  The consumer: reading from the pipe; at the beginning
    of [pop]; before [outqueue_ = head_], before the exchange, before the
    reversal, before taking the first element of [outqueue_]. *)
Inductive producer : Type := PIdle | PLoad (a : Z) | PCas (a : Z) | PWrite.
Inductive consumer : Type := CRead | CTest | CLoad | CCas | CRev | CTake.

(** The members, the bytes in the pipe, the threads, and the values pushed (in
    the order of the exchanges) and popped. *)
Record t : Type := Make {
  nodes : heap;
  head_ : option Z;
  outqueue_ : option Z;
  pipe_ : Z;
  producers : list producer;
  reader : consumer;
  pushed : list A;
  popped : list A;
}.

Definition init (n : nat) : t := Make ∅ None None 0 (replicate n PIdle) CRead [] [].

Definition go (s : t) (i : nat) (p : producer) : t :=
  Make (nodes s) (head_ s) (outqueue_ s) (pipe_ s) (<[i := p]> (producers s)) (reader s) (pushed s) (popped s).
Definition cgo (s : t) (c : consumer) : t :=
  Make (nodes s) (head_ s) (outqueue_ s) (pipe_ s) (producers s) c (pushed s) (popped s).
Definition set_nodes (h : heap) (s : t) : t :=
  Make h (head_ s) (outqueue_ s) (pipe_ s) (producers s) (reader s) (pushed s) (popped s).
Definition set_head (p : option Z) (s : t) : t :=
  Make (nodes s) p (outqueue_ s) (pipe_ s) (producers s) (reader s) (pushed s) (popped s).
Definition set_outqueue (p : option Z) (s : t) : t :=
  Make (nodes s) (head_ s) p (pipe_ s) (producers s) (reader s) (pushed s) (popped s).
Definition set_pipe (n : Z) (s : t) : t :=
  Make (nodes s) (head_ s) (outqueue_ s) n (producers s) (reader s) (pushed s) (popped s).
Definition log_push (v : A) (s : t) : t :=
  Make (nodes s) (head_ s) (outqueue_ s) (pipe_ s) (producers s) (reader s) (pushed s ++ [v]) (popped s).
Definition log_pop (v : A) (s : t) : t :=
  Make (nodes s) (head_ s) (outqueue_ s) (pipe_ s) (producers s) (reader s) (pushed s) (popped s ++ [v]).

(** [newNode->next = v] *)
Definition store_next (h : heap) (a : Z) (v : option Z) : outcome heap :=
  n ← deref (h !! a); Ok (<[a := Node (value n) v]> h).

(** The steps of [push] after the allocation; [ok] is whether a weak exchange
    of equal values succeeds. *)
Definition push_step (s : t) (i : nat) (ok : bool) (p : producer) : outcome t :=
  match p with
  | PIdle | PWrite => Ok s
  | PLoad a => h ← store_next (nodes s) a (head_ s); Ok (go (set_nodes h s) i (PCas a))
  | PCas a =>
    n ← deref (nodes s !! a);
    if ok && bool_decide (head_ s = next n) then Ok (log_push (value n) (go (set_head (Some a) s) i PWrite))
    else h ← store_next (nodes s) a (head_ s); Ok (set_nodes h s)
  end.

(** The reversal loop of [pop]. *)
Fixpoint reverse_loop (fuel : nat) (h : heap) (n1 out : option Z) : outcome (heap * option Z) :=
  match n1 with
  | None => Ok (h, out)
  | Some a =>
    match fuel with
    | O => Fault OutOfFuel
    | S fuel =>
      n ← deref (h !! a);
      h ← store_next h a out;
      reverse_loop fuel h (next n) (Some a)
    end
  end.

(** The steps of [pop]; a consumer that gets no value goes back to the pipe. *)
Definition pop_step (s : t) (ok : bool) (c : consumer) : outcome t :=
  match c with
  | CRead => Ok s
  | CTest =>
    Ok (match outqueue_ s, head_ s with
        | Some _, _ => cgo s CTake
        | None, None => cgo s CRead
        | None, Some _ => cgo s CLoad
        end)
  | CLoad => Ok (cgo (set_outqueue (head_ s) s) CCas)
  | CCas => Ok (if ok && bool_decide (head_ s = outqueue_ s) then cgo (set_head None s) CRev
                else set_outqueue (head_ s) s)
  | CRev =>
    '(h, out) ← reverse_loop (size (nodes s)) (nodes s) (outqueue_ s) None;
    Ok (cgo (set_outqueue out (set_nodes h s)) CTake)
  | CTake =>
    match outqueue_ s with
    | None => Ok (cgo s CRead)
    | Some a =>
      n ← deref (nodes s !! a);
      Ok (log_pop (value n) (cgo (set_nodes (delete a (nodes s)) (set_outqueue (next n) s)) CTest))
    end
  end.

(** [Co_MPSC_NoLockQueue::push] writes one byte; the pipe is not blocking and
    holds [capacity] bytes.  Its reader takes up to 1024 bytes at a time and
    then pops until nothing is left. *)
Variable capacity : Z.
Definition notify (s : t) : t := set_pipe (Z.min capacity (pipe_ s + 1)) s.

Inductive step (s : t) : t → Prop :=
  | StepPush i a v : producers s !! i = Some PIdle → nodes s !! a = None →
      step s (go (set_nodes (<[a := Node v None]> (nodes s)) s) i (PLoad a))
  | StepPushing i p ok s' : producers s !! i = Some p → push_step s i ok p = Ok s' → step s s'
  | StepNotify i : producers s !! i = Some PWrite → step s (go (notify s) i PIdle)
  | StepRead : reader s = CRead → 0 < pipe_ s → step s (cgo (set_pipe (pipe_ s - Z.min 1024 (pipe_ s)) s) CTest)
  | StepPop ok s' : pop_step s ok (reader s) = Ok s' → step s s'.

(** ** The invariant *)

(** The nodes reached from a pointer, with their values. *)
Fixpoint chain (h : heap) (p : option Z) (l : list (Z * A)) : Prop :=
  match l with
  | [] => p = None
  | (a, v) :: l => p = Some a ∧ ∃ q, h !! a = Some (Node v q) ∧ chain h q l
  end.

Lemma chain_frame h h' p l : (∀ a, a ∈ l.*1 → h' !! a = h !! a) → chain h p l → chain h' p l.
Proof.
  revert p. induction l as [|[a v] l IH]; intros p Hf; [done|]. intros (-> & q & Ha & Hl).
  split; [done|]. exists q. split; [rewrite Hf by (simpl; set_solver); done|]. apply IH; [|done].
  intros b Hb. apply Hf. simpl. set_solver.
Qed.
Lemma chain_insert h p l a n : a ∉ l.*1 → chain h p l → chain (<[a := n]> h) p l.
Proof. intros Ha. apply chain_frame. intros b Hb. apply lookup_insert_ne. by intros ->. Qed.
Lemma chain_delete h p l a : a ∉ l.*1 → chain h p l → chain (delete a h) p l.
Proof. intros Ha. apply chain_frame. intros b Hb. apply lookup_delete_ne. by intros ->. Qed.
Lemma chain_length h p l : NoDup l.*1 → chain h p l → (length l ≤ size h)%nat.
Proof.
  intros Hnd Hc. rewrite <-size_dom, <-(length_fmap fst l), <-(size_list_to_set (C := gset Z)) by done.
  apply subseteq_size. clear Hnd. revert p Hc. induction l as [|[a v] l IH]; intros p Hc; simpl; [set_solver|].
  destruct Hc as (_ & q & Ha & Hl). apply elem_of_dom_2 in Ha. specialize (IH q Hl). set_solver.
Qed.

(** The reversal reverses, and changes only the nodes of the chain. *)
Lemma reverse_chain l1 : ∀ fuel h n1 out l2, (length l1 ≤ fuel)%nat →
  chain h n1 l1 → chain h out l2 → NoDup (l1 ++ l2).*1 →
  ∃ h' p, reverse_loop fuel h n1 out = Ok (h', p) ∧ chain h' p (reverse l1 ++ l2) ∧
    (∀ a, a ∉ l1.*1 → h' !! a = h !! a).
Proof.
  induction l1 as [|[a v] l1 IH]; intros fuel h n1 out l2 Hf H1 H2 Hnd.
  { simpl in H1. subst. exists h, out. by destruct fuel. }
  destruct fuel as [|fuel]; simpl in Hf; [lia|]. destruct H1 as (-> & q & Ha & Hq).
  rewrite fmap_app in Hnd. simpl in Hnd. apply NoDup_cons in Hnd as [Hna Hnd].
  rewrite elem_of_app in Hna. simpl. unfold store_next. rewrite Ha. simpl.
  destruct (IH fuel (<[a := Node v out]> h) q (Some a) ((a, v) :: l2)) as (h' & p & Hr & Hc & Hfr).
  - lia.
  - apply chain_insert; [naive_solver|done].
  - split; [done|]. exists out. split; [by rewrite lookup_insert_eq|]. apply chain_insert; [naive_solver|done].
  - rewrite fmap_app. simpl. rewrite <-Permutation_middle. apply NoDup_cons. rewrite elem_of_app. naive_solver.
  - exists h', p. split; [done|]. split; [by rewrite reverse_cons, <-(assoc_L (++))|].
    intros b Hb. simpl in Hb. rewrite Hfr by set_solver. apply lookup_insert_ne. set_solver.
Qed.

(** The node a producer owns. *)
Definition owned (p : producer) : option Z := match p with PLoad a | PCas a => Some a | _ => None end.
Definition writing (p : producer) : bool := match p with PWrite => true | _ => false end.

(** [l] are the nodes reached from [outqueue_] in the order of the links and
    [out] those still to be popped, in the order of popping. *)
Definition out_view (s : t) (l out : list (Z * A)) : Prop :=
  match reader s with
  | CCas => l = [] ∧ out = []
  | CRev => chain (nodes s) (outqueue_ s) l ∧ out = reverse l
  | _ => chain (nodes s) (outqueue_ s) l ∧ out = l
  end.

Record inv (s : t) (hd l out : list (Z * A)) : Prop := {
  inv_hd : chain (nodes s) (head_ s) hd;
  inv_out : out_view s l out;
  inv_nodup : NoDup (hd ++ l).*1;
  inv_own i p a : producers s !! i = Some p → owned p = Some a → is_Some (nodes s !! a) ∧ a ∉ (hd ++ l).*1;
  inv_distinct i j p q a : i ≠ j → producers s !! i = Some p → producers s !! j = Some q →
    owned p = Some a → owned q ≠ Some a;
  inv_log : pushed s = popped s ++ out.*2 ++ reverse (hd.*2);
  inv_load : reader s = CLoad → outqueue_ s = None;
  inv_some : match reader s with CLoad | CCas => hd ≠ [] | CRev | CTake => l ≠ [] | _ => True end;
  inv_wake : reader s = CRead → out = [] ∧ (hd ≠ [] → 0 < pipe_ s ∨ 0 < count writing (producers s));
  inv_pipe : 0 ≤ pipe_ s;
}.

Lemma chain_none h l : chain h None l → l = [].
Proof. destruct l as [|[a v] l]; [done|]. by intros [? _]. Qed.
Lemma chain_some h a l : chain h (Some a) l → ∃ v q l', l = (a, v) :: l' ∧ h !! a = Some (Node v q) ∧ chain h q l'.
Proof. destruct l as [|[b v] l]; [done|]. intros ([= ->] & q & Ha & Hl). eauto 10. Qed.

(** Writing to a node that is in neither chain. *)
Lemma out_view_insert s l out a n : a ∉ l.*1 → out_view s l out → out_view (set_nodes (<[a := n]> (nodes s)) s) l out.
Proof.
  unfold out_view. simpl. intros Ha. destruct (reader s); try done; intros [Hc ->]; split; try done; by apply chain_insert.
Qed.

(** A producer moves: which nodes are owned by whom. *)
Lemma own_move s i p q (hd l : list (Z * A)) (h : heap) : producers s !! i = Some p →
  (∀ j r a, producers s !! j = Some r → owned r = Some a → is_Some (nodes s !! a) ∧ a ∉ (hd ++ l).*1) →
  (∀ a, is_Some (nodes s !! a) → is_Some (h !! a)) →
  (∀ a, owned q = Some a → is_Some (h !! a) ∧ a ∉ (hd ++ l).*1) →
  ∀ j r a, <[i := q]> (producers s) !! j = Some r → owned r = Some a → is_Some (h !! a) ∧ a ∉ (hd ++ l).*1.
Proof.
  intros Hi Hown Hh Hq j r a Hj. revert j r Hj a.
  apply (lookup_insert_case (λ _ r, ∀ a, owned r = Some a → is_Some (h !! a) ∧ a ∉ (hd ++ l).*1) (producers s) i p q);
    [|done|exact Hq].
  intros k r' Hk b Hb. destruct (Hown k r' b Hk Hb). auto.
Qed.
Lemma distinct_move s i p q : producers s !! i = Some p →
  (∀ j k r r' a, j ≠ k → producers s !! j = Some r → producers s !! k = Some r' → owned r = Some a → owned r' ≠ Some a) →
  (∀ j r a, j ≠ i → producers s !! j = Some r → owned r = Some a → owned q ≠ Some a) →
  ∀ j k r r' a, j ≠ k → <[i := q]> (producers s) !! j = Some r → <[i := q]> (producers s) !! k = Some r' →
    owned r = Some a → owned r' ≠ Some a.
Proof.
  intros Hi Hd Hq j k r r' a Hjk Hj Hk Ha Ha'.
  pose proof (lookup_lt_Some _ _ _ Hi) as Hlt.
  destruct (decide (j = i)) as [->|Hji]; [|destruct (decide (k = i)) as [->|Hki]].
  - rewrite list_lookup_insert_eq in Hj by done. injection Hj as <-.
    rewrite list_lookup_insert_ne in Hk by done. by apply (Hq k r' a).
  - rewrite list_lookup_insert_eq in Hk by done. injection Hk as <-.
    rewrite list_lookup_insert_ne in Hj by done. by apply (Hq j r a).
  - rewrite list_lookup_insert_ne in Hj, Hk by done. by apply (Hd j k r r' a).
Qed.
(** What a producer owns stays its own when it moves on with it or drops it. *)
Lemma distinct_same s i p q hd l out : inv s hd l out → producers s !! i = Some p → (owned q = owned p ∨ owned q = None) →
  ∀ j k r r' a, j ≠ k → <[i := q]> (producers s) !! j = Some r → <[i := q]> (producers s) !! k = Some r' →
    owned r = Some a → owned r' ≠ Some a.
Proof.
  intros Hinv Hi Hq. apply (distinct_move _ _ p); [done|apply (inv_distinct _ _ _ _ Hinv)|].
  intros j r a Hji Hj Ha Hqa. destruct Hq as [Hq|Hq]; [|congruence].
  apply (inv_distinct _ _ _ _ Hinv j i r p a); congruence.
Qed.

Lemma chain_dom h p l a : chain h p l → a ∈ l.*1 → is_Some (h !! a).
Proof.
  revert p. induction l as [|[b v] l IH]; intros p; simpl; [by intros _ ?%not_elem_of_nil|].
  intros (_ & q & Hb & Hl) [->|Ha]%elem_of_cons; [by eexists|by eapply IH].
Qed.
Lemma views_dom s hd l out a : inv s hd l out → nodes s !! a = None → a ∉ (hd ++ l).*1.
Proof.
  intros [Hhd Hout _ _ _ _ _ _ _ _] Ha. rewrite fmap_app. intros [Hin|Hin]%elem_of_app.
  - destruct (chain_dom _ _ _ _ Hhd Hin). congruence.
  - assert (is_Some (nodes s !! a)) as [? ?]; [|congruence]. unfold out_view in Hout.
    destruct (reader s); destruct Hout as [Hc _]; subst; try (by eapply chain_dom); by apply not_elem_of_nil in Hin.
Qed.

Lemma app_fst_notin (a : Z) (hd l : list (Z * A)) : a ∉ (hd ++ l).*1 ↔ a ∉ hd.*1 ∧ a ∉ l.*1.
Proof. rewrite fmap_app, elem_of_app. tauto. Qed.

Lemma push_start_inv s i a v hd l out : inv s hd l out → producers s !! i = Some PIdle → nodes s !! a = None →
  inv (go (set_nodes (<[a := Node v None]> (nodes s)) s) i (PLoad a)) hd l out.
Proof.
  intros Hinv Hi Ha. pose proof (views_dom _ _ _ _ _ Hinv Ha) as Hfresh.
  pose proof Hinv as [Hhd Hout Hnd Hown Hdis Hlog Hload Hsome Hwake Hpipe].
  pose proof (proj1 (app_fst_notin _ _ _) Hfresh) as [F1 F2]. constructor; simpl; try done.
  - by apply chain_insert.
  - by apply (out_view_insert s).
  - apply (own_move _ _ PIdle); [done|exact Hown| |].
    + intros b Hb. by apply lookup_insert_is_Some'; right.
    + intros b [= <-]. split; [by rewrite lookup_insert_eq|done].
  - apply (distinct_move _ _ PIdle); [done|exact Hdis|]. intros j r b _ Hj Hb [= <-].
    destruct (Hown j r a Hj Hb) as [[? ?] _]. congruence.
  - intros Hr. destruct (Hwake Hr) as [-> Hw]. split; [done|]. counts Hi. intros Hne. destruct (Hw Hne); [by left|right; lia].
Qed.

(** A producer writes the link of its node, and moves on with it. *)
Lemma relink_inv s i p a n v q hd l out : inv s hd l out → producers s !! i = Some p → owned p = Some a →
  nodes s !! a = Some n → owned q = Some a →
  inv (go (set_nodes (<[a := Node v (head_ s)]> (nodes s)) s) i q) hd l out.
Proof.
  intros Hinv Hi Hp Ha Hq. pose proof Hinv as [Hhd Hout Hnd Hown Hdis Hlog Hload Hsome Hwake Hpipe].
  destruct (Hown i p a Hi Hp) as [_ Hfr]. pose proof (proj1 (app_fst_notin _ _ _) Hfr) as [F1 F2]. constructor; simpl; try done.
  - by apply chain_insert.
  - by apply (out_view_insert s).
  - apply (own_move _ _ p); [done|exact Hown| |].
    + intros b Hb. by apply lookup_insert_is_Some'; right.
    + intros b Hb. rewrite Hq in Hb. injection Hb as <-. split; [by rewrite lookup_insert_eq|done].
  - eapply distinct_same; [exact Hinv|exact Hi|]. left. congruence.
  - intros Hr. destruct (Hwake Hr) as [-> Hw]. split; [done|]. counts Hi.
    assert (writing p = false ∧ writing q = false) as [-> ->] by (by destruct p, q).
    simpl. intros Hne. destruct (Hw Hne); [by left|right; lia].
Qed.

(** The exchange of [push] succeeds. *)
Lemma push_swap_inv s i a n hd l out : inv s hd l out → producers s !! i = Some (PCas a) →
  nodes s !! a = Some n → next n = head_ s →
  inv (log_push (value n) (go (set_head (Some a) s) i PWrite)) ((a, value n) :: hd) l out.
Proof.
  intros Hinv Hi Ha Hn. pose proof Hinv as [Hhd Hout Hnd Hown Hdis Hlog Hload Hsome Hwake Hpipe].
  destruct (Hown i (PCas a) a Hi eq_refl) as [_ Hfr]. constructor; simpl; try done.
  - split; [done|]. exists (head_ s). split; [by destruct n; simpl in *; subst|done].
  - by apply NoDup_cons.
  - intros j r b Hj Hb. destruct (decide (j = i)) as [->|Hne].
    { rewrite list_lookup_insert_eq in Hj by (by eapply lookup_lt_Some). by injection Hj as <-. }
    rewrite list_lookup_insert_ne in Hj by done. destruct (Hown j r b Hj Hb) as [? Hnb]. split; [done|].
    apply not_elem_of_cons. split; [|done]. intros ->. by apply (Hdis j i r (PCas a) a).
  - eapply distinct_same; [exact Hinv|exact Hi|by right].
  - rewrite Hlog. rewrite reverse_cons, <-!(assoc_L (++)). done.
  - by destruct (reader s).
  - intros Hr. destruct (Hwake Hr) as [-> Hw]. split; [done|]. intros _. right. counts Hi.
    pose proof (count_nonneg writing (producers s)). lia.
Qed.

(** The consumer moves on without touching the lists. *)
Lemma reader_inv s c hd l out : inv s hd l out → out_view (cgo s c) l out →
  (c = CLoad → outqueue_ s = None) →
  match c with CLoad | CCas => hd ≠ [] | CRev | CTake => l ≠ [] | _ => True end →
  (c = CRead → out = [] ∧ hd = []) → inv (cgo s c) hd l out.
Proof.
  intros [Hhd Hout Hnd Hown Hdis Hlog Hload Hsome Hwake Hpipe] Hv Hc Hs Hr. constructor; simpl; try done.
  intros ->. destruct (Hr eq_refl) as [-> ->]. done.
Qed.

(** Every step of [pop] succeeds and keeps the invariant. *)
Lemma pop_inv s ok hd l out : inv s hd l out →
  ∃ s', pop_step s ok (reader s) = Ok s' ∧ ∃ hd' l' out', inv s' hd' l' out'.
Proof.
  intros Hinv. pose proof Hinv as [Hhd Hout Hnd Hown Hdis Hlog Hload Hsome Hwake Hpipe].
  destruct (reader s) eqn:Er; unfold pop_step; unfold out_view in Hout; rewrite Er in Hout.
  - exists s. split; [done|]. by exists hd, l, out.
  - eexists. split; [done|]. exists hd, l, out. destruct Hout as [Hc ->].
    destruct (outqueue_ s) as [a|] eqn:Eo; [|destruct (head_ s) as [a|] eqn:Eh].
    + apply reader_inv; try done; [unfold out_view; simpl; by rewrite Eo|]. by intros ->.
    + apply reader_inv; try done; [unfold out_view; simpl; by rewrite Eo|]. by intros ->.
    + apply reader_inv; try done; [unfold out_view; simpl; by rewrite Eo|].
      intros _. split; by eapply chain_none.
  - eexists. split; [done|]. destruct Hout as [Hc ->]. rewrite Hload in Hc by done.
    apply chain_none in Hc as ->. exists hd, [], []. constructor; simpl; try done.
  - eexists. split; [done|]. destruct Hout as [-> ->]. destruct (ok && _) eqn:E.
    + apply andb_prop in E as [_ E%bool_decide_eq_true]. exists [], hd, (reverse hd).
      rewrite app_nil_r in *. constructor; simpl; try done.
      * unfold out_view. simpl. by rewrite <-E.
      * rewrite Hlog. simpl. by rewrite fmap_reverse, app_nil_r.
    + exists hd, [], []. constructor; simpl; try done; unfold out_view; simpl; by rewrite ?Er.
  - destruct Hout as [Hc ->].
    assert (NoDup hd.*1 ∧ NoDup l.*1 ∧ ∀ a, a ∈ hd.*1 → a ∉ l.*1) as (N1 & N2 & N3).
    { rewrite fmap_app in Hnd. apply NoDup_app in Hnd as (? & ? & ?). auto. }
    destruct (reverse_chain l (size (nodes s)) (nodes s) (outqueue_ s) None []) as (h' & p & Hr & Hc' & Hfr); try done.
    { by eapply chain_length. }
    { by rewrite app_nil_r. }
    rewrite app_nil_r in Hc'. rewrite Hr. eexists. split; [done|]. exists hd, (reverse l), (reverse l).
    assert (∀ a, a ∈ (hd ++ reverse l).*1 ↔ a ∈ (hd ++ l).*1) as Hset.
    { intros a. by rewrite !fmap_app, fmap_reverse, !elem_of_app, elem_of_reverse. }
    constructor; simpl; try done.
    + eapply chain_frame; [|exact Hhd]. intros a Ha. apply Hfr. by apply N3.
    + by rewrite fmap_app, fmap_reverse, (reverse_Permutation (l.*1)), <-fmap_app.
    + intros i q a Hi Ha. destruct (Hown i q a Hi Ha) as [Hs Hn]. rewrite Hset. split; [|done].
      rewrite Hfr; [done|]. by apply app_fst_notin in Hn as [_ ?].
    + intros E. apply (f_equal reverse) in E. rewrite reverse_involutive in E. by apply Hsome.
  - destruct Hout as [Hc ->]. destruct (outqueue_ s) as [a|] eqn:Eo; [|by apply chain_none in Hc].
    destruct (chain_some _ _ _ Hc) as (v & q & l' & -> & Ha & Hq). rewrite Ha. eexists. split; [done|].
    rewrite fmap_app in Hnd. simpl in Hnd. rewrite <-Permutation_middle in Hnd. apply NoDup_cons in Hnd as [Hna Hnd].
    rewrite <-fmap_app in Hna. pose proof (proj1 (app_fst_notin _ _ _) Hna) as [F1 F2].
    exists hd, l', l'. constructor; simpl; try done.
    + by apply chain_delete.
    + split; [by apply chain_delete|done].
    + by rewrite fmap_app.
    + intros i p b Hi Hb. destruct (Hown i p b Hi Hb) as [Hs Hn].
      apply app_fst_notin in Hn as [G1 G2]. simpl in G2. apply not_elem_of_cons in G2 as [G2 G3].
      split; [rewrite lookup_delete_ne by done; done|]. by apply app_fst_notin.
    + rewrite Hlog. simpl. by rewrite <-!(assoc_L (++)).
Qed.

(** Every step of [push] succeeds and keeps the invariant. *)
Lemma push_inv s i ok p hd l out : inv s hd l out → producers s !! i = Some p →
  ∃ s', push_step s i ok p = Ok s' ∧ ∃ hd' l' out', inv s' hd' l' out'.
Proof.
  intros Hinv Hi. destruct p as [|a|a|]; unfold push_step, store_next.
  - exists s. split; [done|]. by exists hd, l, out.
  - destruct (inv_own _ _ _ _ Hinv i (PLoad a) a Hi eq_refl) as [[n Ha] _]. rewrite Ha. eexists. split; [done|].
    exists hd, l, out. by eapply relink_inv.
  - destruct (inv_own _ _ _ _ Hinv i (PCas a) a Hi eq_refl) as [[n Ha] _]. rewrite Ha. simpl.
    destruct (ok && _) eqn:E; eexists; (split; [done|]).
    + apply andb_prop in E as [_ E%bool_decide_eq_true]. exists ((a, value n) :: hd), l, out. by apply push_swap_inv.
    + exists hd, l, out. pose proof (relink_inv s i (PCas a) a n (value n) (PCas a) hd l out Hinv Hi eq_refl Ha eq_refl) as Hr.
      unfold go in Hr. simpl in Hr. rewrite list_insert_id in Hr by done. exact Hr.
  - exists s. split; [done|]. by exists hd, l, out.
Qed.

Hypothesis Hcap : 1 ≤ capacity.

Lemma mpsc_step_inv s s' hd l out : inv s hd l out → step s s' → ∃ hd' l' out', inv s' hd' l' out'.
Proof.
  intros Hinv [i a v Hi Ha|i p ok s1 Hi Hs|i Hi|Hr Hp|ok s1 Hs].
  - exists hd, l, out. by apply push_start_inv.
  - destruct (push_inv s i ok p hd l out Hinv Hi) as (s2 & Hs2 & Hi2). assert (s1 = s2) as -> by congruence. done.
  - exists hd, l, out. pose proof Hinv as [Hhd Hout Hnd Hown Hdis Hlog Hload Hsome Hwake Hpipe].
    constructor; simpl; try done; [|eapply distinct_same; [exact Hinv|exact Hi|by right]| |lia].
    + apply (own_move _ _ PWrite); [done|exact Hown|done|done].
    + intros Hr. split; [by apply Hwake|]. intros _. left. lia.
  - exists hd, l, out. destruct Hinv as [Hhd Hout Hnd Hown Hdis Hlog Hload Hsome Hwake Hpipe].
    unfold out_view in Hout. rewrite Hr in Hout. constructor; simpl; try done. lia.
  - destruct (pop_inv s ok hd l out Hinv) as (s2 & Hs2 & Hi2). assert (s1 = s2) as -> by congruence. done.
Qed.

Lemma mpsc_inv_reach n s : reach step (init n) s → ∃ hd l out, inv s hd l out.
Proof.
  apply (reach_invariant step (λ s, ∃ hd l out, inv s hd l out)).
  - exists [], [], []. constructor; simpl; try done; [apply NoDup_nil_2|..].
    + intros i p a [-> _]%lookup_replicate. done.
    + intros i j p q a _ [-> _]%lookup_replicate. done.
  - intros s1 s2 (hd & l & out & Hinv). by eapply mpsc_step_inv.
Qed.

(** C21 (mpsc_queue_fifo).  For any number of producers and under every
    interleaving, with addresses of freed nodes reused: the values popped are
    the values pushed, each once and in the order of the pushes; no step of
    [push] or [pop] touches a freed node; [pop] finds nothing only when
    everything pushed has been popped; and no wake-up is lost: a consumer that
    waits on the empty pipe while no producer is about to write to it has popped
    everything. *)
Theorem mpsc_queue_fifo n s : reach step (init n) s →
  (∃ rest, pushed s = popped s ++ rest) ∧
  (∀ i p ok, producers s !! i = Some p → ∃ s', push_step s i ok p = Ok s') ∧
  (∀ ok, ∃ s', pop_step s ok (reader s) = Ok s') ∧
  (reader s = CTest → outqueue_ s = None → head_ s = None → popped s = pushed s) ∧
  (reader s = CRead → pipe_ s = 0 → count writing (producers s) = 0 → popped s = pushed s).
Proof.
  intros (hd & l & out & Hinv)%mpsc_inv_reach. pose proof Hinv as [Hhd Hout _ _ _ Hlog _ _ Hwake _]. split_and!.
  - eauto.
  - intros i p ok Hi. destruct (push_inv s i ok p hd l out Hinv Hi) as (s' & ? & _). eauto.
  - intros ok. destruct (pop_inv s ok hd l out Hinv) as (s' & ? & _). eauto.
  - intros Hr Ho Hh. unfold out_view in Hout. rewrite Hr, Ho in Hout. rewrite Hh in Hhd.
    destruct Hout as [Hc ->]. rewrite (chain_none _ _ Hc), (chain_none _ _ Hhd) in Hlog. by rewrite app_nil_r in Hlog.
  - intros Hr Hp Hw. destruct (Hwake Hr) as [-> Hne]. destruct hd as [|x hd]; [by rewrite app_nil_r in Hlog|].
    destruct (Hne ltac:(done)); lia.
Qed.
End queue.
End MPSC_NoLockQueue.

(** Two producers and a consumer of numbers. *)
Module QueueExample.
Import MPSC_NoLockQueue.

(** A schedule: producer [i] takes a step (it pushes [10 + i], in a node at the
    address [a]), or the consumer does. *)
Inductive entry : Type := Produce (i : nat) (a : Z) | Consume.

Definition next_state (s : t) (c : entry) : t :=
  match c with
  | Produce i a =>
    match producers s !! i, nodes s !! a with
    | Some PIdle, None => go (set_nodes (<[a := Node (10 + Z.of_nat i) None]> (nodes s)) s) i (PLoad a)
    | Some PWrite, _ => go (notify 65536 s) i PIdle
    | Some p, _ => match push_step s i true p with Ok s' => s' | Fault _ => s end
    | None, _ => s
    end
  | Consume =>
    match reader s with
    | CRead => if bool_decide (0 < pipe_ s) then cgo (set_pipe (pipe_ s - Z.min 1024 (pipe_ s)) s) CTest else s
    | c => match pop_step s true c with Ok s' => s' | Fault _ => s end
    end
  end.
Definition run (cs : list entry) : t := foldl next_state (init 2) cs.

Lemma mpsc_next_reach s c : reach (step 65536) (init 2) s → reach (step 65536) (init 2) (next_state s c).
Proof.
  intros Hr. destruct c as [i a|]; simpl.
  - destruct (producers s !! i) as [p|] eqn:Hi; [|done].
    assert (reach (step 65536) (init 2) (match push_step s i true p with Ok s' => s' | Fault _ => s end)) as Hp.
    { destruct (push_step s i true p) eqn:E; [|done]. eapply reach_step; [exact Hr|]. by eapply StepPushing. }
    destruct p; try exact Hp.
    + destruct (nodes s !! a) eqn:Ha; [exact Hp|]. eapply reach_step; [exact Hr|]. by apply StepPush.
    + eapply reach_step; [exact Hr|]. by apply StepNotify.
  - assert (reach (step 65536) (init 2) (match pop_step s true (reader s) with Ok s' => s' | Fault _ => s end)) as Hp.
    { destruct (pop_step s true (reader s)) eqn:E; [|done]. eapply reach_step; [exact Hr|]. by eapply StepPop. }
    destruct (reader s) eqn:Er; try exact Hp. case_bool_decide; [|done].
    eapply reach_step; [exact Hr|]. by apply StepRead.
Qed.
Lemma mpsc_run_reach cs s : reach (step 65536) (init 2) s → reach (step 65536) (init 2) (foldl next_state s cs).
Proof. revert s. induction cs as [|c cs IH]; intros s Hr; [done|]. by apply IH, mpsc_next_reach. Qed.

(** Two pushes that race, then the consumer takes both. *)
Definition example : t :=
  run ([Produce 0 100; Produce 1 101; Produce 1 0; Produce 0 0; Produce 1 0; Produce 0 0; Produce 0 0; Produce 1 0; Produce 0 0]
       ++ replicate 8 Consume).

Lemma mpsc_queue_fifo_witness :
  (pushed example = [11; 10] ∧ popped example = [11; 10]) ∧
  (∃ rest, pushed example = popped example ++ rest) ∧
  (∀ ok, ∃ s', pop_step example ok (reader example) = Ok s').
Proof.
  split; [vm_compute; split; reflexivity|].
  destruct (mpsc_queue_fifo 65536 ltac:(lia) 2 example) as (H1 & _ & H2 & _); [apply mpsc_run_reach, reach_refl|].
  split; [exact H1|exact H2].
Defined.
End QueueExample.

(** [SyncQueue]: producers append to [inqueue_] under the lock; the consumer pops
    from [outqueue_] and swaps the lists when it is empty.  The test of
    [inqueue_] is made without the lock, so a push may come between it and the
    swap.  [LockQueue] is the same code with another mutex. *)
Module SyncQueue.
Section queue.
Context {A : Type}.

Record t : Type := Make { inqueue_ : list A; outqueue_ : list A; swapping : bool; pushed : list A; popped : list A }.

Definition init : t := Make [] [] false [] [].

Definition push (s : t) (v : A) : t := Make (inqueue_ s ++ [v]) (outqueue_ s) (swapping s) (pushed s ++ [v]) (popped s).

(** [ret = std::move(outqueue_.front()); outqueue_.pop_front()] *)
Definition take (s : t) : outcome (t * option A) :=
  match outqueue_ s with
  | [] => Fault NullDeref
  | v :: q => Ok (Make (inqueue_ s) q false (pushed s) (popped s ++ [v]), Some v)
  end.

(** [pop]: the part before the lock (which may already return), and the part
    from the swap on. *)
Definition pop (s : t) : outcome (t * option A) :=
  match outqueue_ s with
  | _ :: _ => take s
  | [] => Ok (Make (inqueue_ s) (outqueue_ s) (bool_decide (inqueue_ s ≠ [])) (pushed s) (popped s), None)
  end.
Definition pop_swap (s : t) : outcome (t * option A) :=
  take (Make (outqueue_ s) (inqueue_ s) (swapping s) (pushed s) (popped s)).

Inductive step (s : t) : t → Prop :=
  | StepPush v : step s (push s v)
  | StepPop s' r : swapping s = false → pop s = Ok (s', r) → step s s'
  | StepSwap s' r : swapping s = true → pop_swap s = Ok (s', r) → step s s'.

Definition inv (s : t) : Prop :=
  pushed s = popped s ++ outqueue_ s ++ inqueue_ s ∧ (swapping s = true → outqueue_ s = [] ∧ inqueue_ s ≠ []).

Lemma sync_step_inv s s' : inv s → step s s' → inv s'.
Proof.
  intros [Hlog Hsw] [v|s1 r Hf Hs|s1 r Hf Hs].
  - split; simpl; [rewrite Hlog, <-!(assoc_L (++)); done|]. intros Ht. destruct (Hsw Ht) as [-> Hne].
    split; [done|]. by destruct (inqueue_ s).
  - unfold pop, take in Hs. destruct (outqueue_ s) as [|v q] eqn:Eo; injection Hs as <- <-.
    + split; simpl; [by rewrite Hlog|]. rewrite bool_decide_eq_true. done.
    + split; simpl; [by rewrite Hlog, <-(assoc_L (++))|done].
  - unfold pop_swap, take in Hs. destruct (Hsw Hf) as [Ho Hi]. simpl in Hs.
    destruct (inqueue_ s) as [|v q] eqn:Ei; [done|]. injection Hs as <- <-. split; simpl; [|done].
    by rewrite Hlog, Ho, app_nil_r, <-(assoc_L (++)).
Qed.

(** In every reachable state the popped values are a prefix of the pushed ones,
    [pop] never takes from an empty list, and it returns nothing only if both
    lists were empty. *)
Lemma sync_queue_fifo s : reach step init s →
  (∃ rest, pushed s = popped s ++ rest) ∧
  (swapping s = true → ∃ s' v, pop_swap s = Ok (s', Some v)) ∧
  (∀ s', pop s = Ok (s', None) → swapping s' = false → popped s = pushed s).
Proof.
  intros Hr. assert (inv s) as [Hlog Hsw].
  { revert Hr. apply reach_invariant; [done|]. intros s1 s2. apply sync_step_inv. }
  split_and!; [eauto|..].
  - intros Ht. destruct (Hsw Ht) as [Ho Hi]. unfold pop_swap, take. simpl. destruct (inqueue_ s); [done|eauto].
  - intros s' Hp Hs'. unfold pop, take in Hp. destruct (outqueue_ s) eqn:Eo; [|done]. injection Hp as <-.
    simpl in Hs'. apply bool_decide_eq_false in Hs'. destruct (inqueue_ s); [|naive_solver]. by rewrite !app_nil_r in Hlog.
Qed.
End queue.
End SyncQueue.

(** [MPMC_NoLockBlockQueue]: any number of producers and consumers. *)
Module MPMC_NoLockBlockQueue.
Section queue.
Context {A : Type}.

(** Between the calls; in [push] before [sem_.post]; in [pop] in [sem_.wait],
    and before taking the first element. *)
Inductive pc : Type := Out | PPost | CWait | CPop.

Record t : Type := Make { sem_ : Z; queue_ : list A; pcs : list pc; pushed : list A; popped : list A }.

Definition init (n : nat) : t := Make 0 [] (replicate n Out) [] [].
Definition go (s : t) (i : nat) (p : pc) : t := Make (sem_ s) (queue_ s) (<[i := p]> (pcs s)) (pushed s) (popped s).

(** The list under the lock. *)
Definition push_back (s : t) (v : A) : t := Make (sem_ s) (queue_ s ++ [v]) (pcs s) (pushed s ++ [v]) (popped s).
Definition pop_front (s : t) : outcome t :=
  match queue_ s with
  | [] => Fault NullDeref
  | v :: q => Ok (Make (sem_ s) q (pcs s) (pushed s) (popped s ++ [v]))
  end.
(** The semaphore, by its contract. *)
Definition set_sem (n : Z) (s : t) : t := Make n (queue_ s) (pcs s) (pushed s) (popped s).

(** The steps; the value is the one a call of [push] gets. *)
Inductive step (s : t) : t → Prop :=
  | StepPush i v : pcs s !! i = Some Out → step s (go (push_back s v) i PPost)
  | StepPost i : pcs s !! i = Some PPost → step s (go (set_sem (sem_ s + 1) s) i Out)
  | StepCall i : pcs s !! i = Some Out → step s (go s i CWait)
  | StepWait i : pcs s !! i = Some CWait → 0 < sem_ s → step s (go (set_sem (sem_ s - 1) s) i CPop)
  | StepPop i s' : pcs s !! i = Some CPop → pop_front s = Ok s' → step s (go s' i Out).

Definition posting (p : pc) : bool := match p with PPost => true | _ => false end.
Definition popping (p : pc) : bool := match p with CPop => true | _ => false end.
Definition inv (s : t) : Prop :=
  zlen (queue_ s) = sem_ s + count posting (pcs s) + count popping (pcs s) ∧ 0 ≤ sem_ s ∧
  pushed s = popped s ++ queue_ s.

Lemma mpmc_step_inv s s' : inv s → step s s' → inv s'.
Proof.
  intros (Hl & Hn & Hlog) [i v Hi|i Hi|i Hi|i Hi Hp|i s1 Hi Hp]; unfold inv; simpl; counts Hi.
  - rewrite zlen_app. change (zlen [v]) with 1. split_and!; [lia|done|]. by rewrite Hlog, <-(assoc_L (++)).
  - split_and!; [lia|lia|done].
  - split_and!; [lia|lia|done].
  - split_and!; [lia|lia|done].
  - unfold pop_front in Hp. destruct (queue_ s) as [|v q] eqn:Eq; [done|]. injection Hp as <-. simpl. counts Hi.
    rewrite zlen_cons in Hl. split_and!; [lia|done|]. by rewrite Hlog, <-(assoc_L (++)).
Qed.

(** Under every interleaving of any number of producers
    and consumers: values leave the queue in the order in which they entered it,
    each once; a consumer whose [wait] returned always finds an element; and when
    nothing is in progress and a consumer is suspended, the queue is empty. *)
Theorem mpmc_queue_fifo n s : reach step (init n) s →
  pushed s = popped s ++ queue_ s ∧
  (∀ i, pcs s !! i = Some CPop → ∃ s', pop_front s = Ok s') ∧
  (Forall (λ p, p = Out ∨ p = CWait) (pcs s) → sem_ s = 0 → popped s = pushed s).
Proof.
  intros Hr. assert (inv s) as (Hl & Hn & Hlog).
  { revert Hr. apply reach_invariant; [|intros s1 s2; apply mpmc_step_inv].
    unfold inv. simpl. by rewrite !count_replicate. }
  split_and!; [done|..].
  - intros i Hi. pose proof (count_pos popping _ i _ Hi eq_refl). pose proof (count_nonneg posting (pcs s)).
    unfold pop_front. destruct (queue_ s); [change (zlen []) with 0 in Hl; lia|eauto].
  - intros Hall Hs. assert (∀ f, f Out = false → f CWait = false → count f (pcs s) = 0) as Hz.
    { intros f H1 H2. apply count_none. eapply Forall_impl; [exact Hall|]. by intros p [->| ->]. }
    rewrite (Hz posting), (Hz popping), Hs in Hl by done. rewrite (zlen_0_inv _ Hl), app_nil_r in Hlog. done.
Qed.
End queue.
End MPMC_NoLockBlockQueue.

(** One coroutine pushes 7 and pops it. *)
Module BlockQueueExample.
Import MPMC_NoLockBlockQueue.

Definition after_push : t := go (push_back (init 1) 7) 0 PPost.
Definition after_post : t := go (set_sem 1 after_push) 0 Out.
Definition after_wait : t := go (set_sem 0 (go after_post 0 CWait)) 0 CPop.
Definition example : t := Make 0 [] [Out] [7] [7].

Lemma example_reach : reach step (init 1) example.
Proof.
  apply (reach_step step _ after_wait); [|by apply (StepPop after_wait 0 (Make 0 [] [CPop] [7] [7]))].
  apply (reach_step step _ (go after_post 0 CWait)); [|by apply (StepWait (go after_post 0 CWait) 0)].
  apply (reach_step step _ after_post); [|by apply (StepCall after_post 0)].
  apply (reach_step step _ after_push); [|by apply (StepPost after_push 0)].
  apply (reach_step step _ (init 1)); [apply reach_refl|by apply (StepPush (init 1) 0 7)].
Qed.

Lemma mpmc_queue_fifo_witness :
  popped example = [7] ∧ pushed example = popped example ++ queue_ example ∧
  (Forall (λ p, p = Out ∨ p = CWait) (pcs example) → sem_ example = 0 → popped example = pushed example).
Proof.
  split; [reflexivity|]. destruct (mpmc_queue_fifo 1 example example_reach) as (H1 & _ & H2). split; [exact H1|exact H2].
Defined.
End BlockQueueExample.
