(* ===== verification/TimeoutSpec.v ===== *)
(** * What [TimeoutList] promises

    The abstract list of time-outs: entries in descending order of their
    expiry, an entry behind all those that do not expire earlier.  The class
    [TimeoutOps] has the operations of corpc_timeout_list.h as its clients see
    them, [TimeoutLaws] says that they are those of the abstract list.  The
    clients (RoutineEnv.v, Heartbeat.v) are proved against the laws, TimeoutList.v proves
    them for the skip list. *)
From Stdlib Require Import Sorted.
From S2P Require Import Prelude Define.
Open Scope Z_scope.

Record entry (T : Type) : Type := Entry { e_time : Z; e_id : Z; e_data : T }.
Arguments Entry {_} _ _ _.
Arguments e_time {_} _.
Arguments e_id {_} _.
Arguments e_data {_} _.

Section spec.
Context {T : Type}.
Implicit Types (x : entry T) (l : list (entry T)).

(** The new entry goes behind the entries that do not expire earlier. *)
Fixpoint put x l : list (entry T) :=
  match l with
  | [] => [x]
  | y :: l' => if bool_decide (e_time y >= e_time x) then y :: put x l' else x :: l
  end.

Definition take_out (i : Z) l : list (entry T) := filter (λ y, e_id y ≠ i) l.

Definition lookup_id (i : Z) l : option (entry T) := list_find (λ y, e_id y = i) l ≫= λ '(_, y), Some y.

Lemma put_perm x l : put x l ≡ₚ x :: l.
Proof.
  induction l as [|y l IH]; simpl; [done|]. case_bool_decide; [|done]. rewrite IH. apply Permutation_swap.
Qed.

Lemma put_split x l1 l2 : Forall (λ y, e_time y >= e_time x) l1 → Forall (λ y, e_time y < e_time x) l2 →
  put x (l1 ++ l2) = l1 ++ x :: l2.
Proof.
  intros H1 H2. induction H1 as [|y l1 Hy _ IH]; simpl.
  - destruct H2 as [|y l2 Hy _]; simpl; [done|]. by rewrite bool_decide_false by lia.
  - by rewrite bool_decide_true, IH by done.
Qed.

Lemma Forall_take_out (P : entry T → Prop) i l : Forall P l → Forall P (take_out i l).
Proof. rewrite !Forall_forall. unfold take_out. intros Hl y [_ Hy]%list_elem_of_filter. auto. Qed.

(** Insertion keeps the order. *)
Definition ordered l : Prop := StronglySorted (λ x y, e_time x >= e_time y) l.
Lemma put_ordered x l : ordered l → ordered (put x l).
Proof.
  unfold ordered. induction 1 as [|y l Hs IH Hall]; simpl; [repeat constructor|]. case_bool_decide.
  - constructor; [done|]. rewrite put_perm. constructor; [lia|done].
  - constructor; [by constructor|]. constructor; [lia|]. eapply Forall_impl; [exact Hall|]. simpl. lia.
Qed.

Lemma take_out_mid l1 x l2 : NoDup (e_id <$> (l1 ++ x :: l2)) → take_out (e_id x) (l1 ++ x :: l2) = l1 ++ l2.
Proof.
  rewrite fmap_app. intros Hnd. simpl in Hnd. rewrite <-Permutation_middle in Hnd. apply NoDup_cons in Hnd as [Hx _].
  unfold take_out. rewrite filter_app, filter_cons_False by naive_solver. rewrite <-fmap_app in Hx.
  rewrite <-filter_app. apply list_filter_all. apply Forall_forall. intros y Hy E. apply Hx. rewrite <-E.
  by apply list_elem_of_fmap_2.
Qed.

(** The last entry expires first. *)
Lemma ordered_last l x : ordered (l ++ [x]) → Forall (λ y, e_time y >= e_time x) l.
Proof.
  unfold ordered. induction l as [|y l IH]; simpl; [constructor|]. inversion 1 as [|? ? Hs Hall]; subst.
  apply Forall_app in Hall as [_ Hx]. inversion Hx; subst. constructor; auto.
Qed.

Lemma lookup_id_Some i l y : lookup_id i l = Some y → e_id y = i ∧ y ∈ l.
Proof.
  unfold lookup_id. destruct (list_find _ l) as [[k z]|] eqn:E; simpl; [|done]. intros [= ->].
  apply list_find_Some in E as (Hk & ? & _). split; [done|]. by eapply list_elem_of_lookup_2.
Qed.
Lemma lookup_id_None i l : lookup_id i l = None → Forall (λ y, e_id y ≠ i) l.
Proof.
  unfold lookup_id. destruct (list_find _ l) as [[k z]|] eqn:E; simpl; [done|]. intros _.
  by apply list_find_None in E.
Qed.
Lemma lookup_id_elem l y : NoDup (e_id <$> l) → y ∈ l → lookup_id (e_id y) l = Some y.
Proof.
  intros Hnd Hy. destruct (lookup_id (e_id y) l) as [z|] eqn:E.
  - apply lookup_id_Some in E as [Hz Hin]. f_equal.
    apply list_elem_of_lookup in Hy as [i Hi], Hin as [j Hj].
    assert (i = j) as ->; [|congruence]. eapply NoDup_lookup; [exact Hnd| |]; rewrite list_lookup_fmap; [by rewrite Hi|by rewrite Hj, <-Hz].
  - apply lookup_id_None in E. rewrite Forall_forall in E. by destruct (E y Hy).
Qed.
End spec.

(** The operations.  [tl_insert] gets the level [randomLevel] chose; [tl_read] is
    the access to the members of a node. *)
Class TimeoutOps (T L : Type) : Type := {
  tl_new : L;
  tl_insert : nat → L → Z → Z → T → outcome L;
  tl_remove : L → Z → outcome L;
  tl_getLast : L → outcome (option Z);
  tl_getNode : L → Z → option Z;
  tl_empty : L → outcome bool;
  tl_read : L → Z → outcome (entry T);
}.

(** A time that is neither 0 nor the largest: the list marks its ends with
    these. *)
Definition time_ok (t : Z) : Prop := CORPC_MIN_UINT64 < t < CORPC_MAX_UINT64.

Class TimeoutLaws (T L : Type) `{TimeoutOps T L} : Type := {
  tl_rep : L → list (entry T) → Prop;
  tl_ids s l : tl_rep s l → NoDup (e_id <$> l);
  tl_times s l : tl_rep s l → Forall (λ x, time_ok (e_time x)) l;
  tl_order s l : tl_rep s l → ordered l;
  law_new : tl_rep tl_new [];
  law_insert s l lv i t d : tl_rep s l → (1 ≤ lv ≤ Z.to_nat CORPC_SKIP_LIST_MAX_LEVEL)%nat → time_ok t → i ∉ e_id <$> l →
    ∃ s', tl_insert lv s i t d = Ok s' ∧ tl_rep s' (put (Entry t i d) l);
  law_getLast s l : tl_rep s l →
    match list.last l with
    | None => tl_getLast s = Ok None
    | Some x => ∃ p, tl_getLast s = Ok (Some p) ∧ tl_getNode s (e_id x) = Some p
    end;
  law_getNode s l i : tl_rep s l →
    match lookup_id i l with
    | None => tl_getNode s i = None
    | Some x => ∃ p, tl_getNode s i = Some p ∧ tl_read s p = Ok x
    end;
  law_remove s l i p : tl_rep s l → tl_getNode s i = Some p →
    ∃ s', tl_remove s p = Ok s' ∧ tl_rep s' (take_out i l);
  law_empty s l : tl_rep s l → tl_empty s = Ok (bool_decide (l = []));
}.
