(* ===== verification/TimeoutList.v ===== *)
(** * corpc_timeout_list.h

    [TimeoutList]: a skip list of the different times in descending order,
    between two sentinels; the entries with the same time form a ring whose head
    is the node in the skip list.  The nodes live in a heap.  The file proves
    that the operations are those of the abstract list of TimeoutSpec.v. *)
From Stdlib Require Import Sorted.
From stdpp Require Import gmap.
From S2P Require Import Prelude Define TimeoutSpec.
Open Scope Z_scope.

Module TimeoutList.

(** [Node], with the links (next, prev) of the skip list and of the ring.  The
    sentinels have no id and no data. *)
Record node (T : Type) : Type := Node {
  expireTime : Z;
  id : option Z;
  data : option T;
  links : list (option Z * option Z);
  link : Z * Z;
}.
Arguments Node {_} _ _ _ _ _.
Arguments expireTime {_} _.
Arguments id {_} _.
Arguments data {_} _.
Arguments links {_} _.
Arguments link {_} _.

Record t (T : Type) : Type := Make {
  nodes : gmap Z (node T);
  maxCurLevel_ : Z;
  pHeader_ : Z;
  pTail_ : Z;
  nodeMap_ : gmap Z Z;
}.
Arguments Make {_} _ _ _ _ _.
Arguments nodes {_} _.
Arguments maxCurLevel_ {_} _.
Arguments pHeader_ {_} _.
Arguments pTail_ {_} _.
Arguments nodeMap_ {_} _.

Definition MAX : nat := Z.to_nat CORPC_SKIP_LIST_MAX_LEVEL.

(** ** Doubly linked sequences

    [linked f g l]: [f] gives the next and [g] the previous element along [l]. *)
Section linked.
Implicit Types (f g : Z → option Z) (l : list Z).

Fixpoint linked f g l : Prop :=
  match l with
  | a :: ((b :: _) as l') => f a = Some b ∧ g b = Some a ∧ linked f g l'
  | _ => True
  end.

Lemma linked_app f g l1 a l2 : linked f g (l1 ++ a :: l2) ↔ linked f g (l1 ++ [a]) ∧ linked f g (a :: l2).
Proof.
  induction l1 as [|b l1 IH]; simpl; [tauto|]. destruct l1 as [|c l1]; simpl in *; tauto.
Qed.

(** All but the last elements, and all but the first. *)
Fixpoint front l : list Z :=
  match l with
  | a :: ((_ :: _) as l') => a :: front l'
  | _ => []
  end.
Lemma front_snoc l a : front (l ++ [a]) = l.
Proof. induction l as [|b l IH]; [done|]. destruct l as [|c l]; [done|]. simpl in *. by rewrite IH. Qed.

Lemma front_elem l x : x ∈ front l → x ∈ l.
Proof.
  induction l as [|a l IH]; [done|]. destruct l as [|b l]; [by intros ?%not_elem_of_nil|].
  intros [->|Hx]%elem_of_cons; apply elem_of_cons; [by left|right; by apply IH].
Qed.
Lemma tail_snoc_elem l a x : x ∈ tail (l ++ [a]) → x ∈ l ∨ x = a.
Proof. destruct l as [|b l]; simpl; [by intros ?%not_elem_of_nil|]. rewrite elem_of_app, list_elem_of_singleton. set_solver. Qed.

Lemma linked_frame f g f' g' l : (∀ x, x ∈ front l → f' x = f x) → (∀ x, x ∈ tail l → g' x = g x) →
  linked f g l → linked f' g' l.
Proof.
  induction l as [|a l IH]; [done|]. destruct l as [|b l]; [done|]. intros Hf Hg (H1 & H2 & H3).
  split; [|split].
  - rewrite Hf; [done|]. simpl. set_solver.
  - rewrite Hg; [done|]. simpl. set_solver.
  - apply IH; [|intros x Hx; apply Hg; simpl in *; set_solver|done]. intros x Hx. apply Hf. simpl in *. set_solver.
Qed.

Lemma linked_next f g l1 a b l2 : linked f g (l1 ++ a :: b :: l2) → f a = Some b ∧ g b = Some a.
Proof. rewrite linked_app. simpl. tauto. Qed.

(** [p] comes between [a] and [b]. *)
Lemma linked_splice f g f' g' l1 a p b l2 : linked f g (l1 ++ a :: b :: l2) →
  f' a = Some p → f' p = Some b → g' p = Some a → g' b = Some p →
  (∀ x, x ∈ l1 ∨ x ∈ front (b :: l2) → f' x = f x) → (∀ x, x ∈ tail (l1 ++ [a]) ∨ x ∈ l2 → g' x = g x) →
  linked f' g' (l1 ++ a :: p :: b :: l2).
Proof.
  intros (H1 & H2)%linked_app Ha Hp Hgp Hgb Hf Hg. apply linked_app. split.
  - eapply linked_frame; [| |exact H1]; [|by auto]. rewrite front_snoc. auto.
  - destruct H2 as (_ & _ & H2). do 2 (split; [done|]; split; [done|]).
    eapply linked_frame; [| |exact H2]; [by auto|]. simpl. auto.
Qed.

(** The element between [a] and [b] leaves. *)
Lemma linked_unsplice f g f' g' l1 a p b l2 : linked f g (l1 ++ a :: p :: b :: l2) →
  f' a = Some b → g' b = Some a →
  (∀ x, x ∈ l1 ∨ x ∈ front (b :: l2) → f' x = f x) → (∀ x, x ∈ tail (l1 ++ [a]) ∨ x ∈ l2 → g' x = g x) →
  linked f' g' (l1 ++ a :: b :: l2).
Proof.
  intros (H1 & H2)%linked_app Ha Hgb Hf Hg. apply linked_app. split.
  - eapply linked_frame; [| |exact H1]; [|by auto]. rewrite front_snoc. auto.
  - destruct H2 as (_ & _ & _ & _ & H2). do 2 (split; [done|]).
    eapply linked_frame; [| |exact H2]; [by auto|]. simpl. auto.
Qed.

(** [p] replaces [q] between [a] and [b]. *)
Lemma linked_replace f g f' g' l1 a q p b l2 : linked f g (l1 ++ a :: q :: b :: l2) →
  f' a = Some p → f' p = Some b → g' p = Some a → g' b = Some p →
  (∀ x, x ∈ l1 ∨ x ∈ front (b :: l2) → f' x = f x) → (∀ x, x ∈ tail (l1 ++ [a]) ∨ x ∈ l2 → g' x = g x) →
  linked f' g' (l1 ++ a :: p :: b :: l2).
Proof.
  intros (H1 & H2)%linked_app Ha Hp Hgp Hgb Hf Hg. apply linked_app. split.
  - eapply linked_frame; [| |exact H1]; [|by auto]. rewrite front_snoc. auto.
  - destruct H2 as (_ & _ & _ & _ & H2). do 2 (split; [done|]; split; [done|]).
    eapply linked_frame; [| |exact H2]; [by auto|]. simpl. auto.
Qed.
Lemma linked_sub f g l1 a l2 : linked f g (l1 ++ a :: l2) → linked f g l1 ∧ linked f g l2.
Proof.
  intros [H1 H2]%linked_app. split.
  - destruct l1 as [|x l1 _] using rev_ind; [done|]. rewrite <-(assoc_L (++)) in H1. simpl in H1. by apply linked_app in H1 as [? _].
  - destruct l2 as [|x l2]; [done|]. by destruct H2 as (_ & _ & ?).
Qed.
End linked.

Section ops.
Context {T : Type}.
Abbreviation heap := (gmap Z (node T)).
Implicit Types (h : heap) (s : t T) (a p : Z) (i : nat).

Definition get h a : outcome (node T) := deref (h !! a).
(** [node->links[i]] *)
Definition link_at (n : node T) i : outcome (option Z * option Z) :=
  match links n !! i with Some lk => Ok lk | None => Fault OutOfBounds end.
Definition next_at h a i : outcome Z := n ← get h a; lk ← link_at n i; deref lk.1.
Definition prev_at h a i : outcome Z := n ← get h a; lk ← link_at n i; deref lk.2.
Definition set_links (n : node T) (l : list (option Z * option Z)) : node T :=
  Node (expireTime n) (id n) (data n) l (link n).
Definition set_link (n : node T) (lk : Z * Z) : node T := Node (expireTime n) (id n) (data n) (links n) lk.
(** [node->links[i].next = v] and [node->links[i].prev = v] *)
Definition set_next h a i (v : Z) : outcome heap :=
  n ← get h a; lk ← link_at n i; Ok (<[a := set_links n (<[i := (Some v, lk.2)]> (links n))]> h).
Definition set_prev h a i (v : Z) : outcome heap :=
  n ← get h a; lk ← link_at n i; Ok (<[a := set_links n (<[i := (lk.1, Some v)]> (links n))]> h).
(** [node->link.next = v] and [node->link.prev = v] *)
Definition set_ring_next h a (v : Z) : outcome heap := n ← get h a; Ok (<[a := set_link n (v, (link n).2)]> h).
Definition set_ring_prev h a (v : Z) : outcome heap := n ← get h a; Ok (<[a := set_link n ((link n).1, v)]> h).

(** The constructor: the sentinels at 1 and 2. *)
Definition new : t T :=
  Make {[ 1 := Node CORPC_MAX_UINT64 None None (replicate MAX (Some 2, None)) (1, 1);
          2 := Node CORPC_MIN_UINT64 None None (replicate MAX (None, Some 1)) (2, 2) ]} 1 1 2 ∅.

(** [insert]: the inner loop on level [i]. *)
Fixpoint walk (fuel : nat) h (x e : Z) i (curNode : Z) : outcome Z :=
  nextNode ← next_at h curNode i;
  n ← get h nextNode;
  if bool_decide (expireTime n >= e) then
    y ← match id n with Some y => Ok y | None => Fault Uninitialized end;
    _ ← require (y ≠ x);
    match fuel with
    | O => Fault OutOfFuel
    | S fuel => walk fuel h x e i nextNode
    end
  else Ok curNode.

(** [insert]: the search from level [i - 1] down; the result has the entries of
    [prevNodes] in front of [prevNodes]. *)
Fixpoint descend h (x e : Z) i (curNode : Z) (prevNodes : list Z) : outcome (Z * list Z) :=
  match i with
  | O => Ok (curNode, prevNodes)
  | S i => c ← walk (size h) h x e i curNode; descend h x e i c (c :: prevNodes)
  end.

(** [insert]: linking the new node [p] behind [prevNodes[i]] on [n] levels from
    level [i] on. *)
Fixpoint link_levels h (p : Z) (prevNodes : list Z) i (n : nat) : outcome heap :=
  match n with
  | O => Ok h
  | S n =>
    prevNode ← match prevNodes !! i with Some q => Ok q | None => Fault OutOfBounds end;
    nextNode ← next_at h prevNode i;
    h ← set_next h p i nextNode;
    h ← set_prev h p i prevNode;
    h ← set_next h prevNode i p;
    h ← set_prev h nextNode i p;
    link_levels h p prevNodes (S i) n
  end.

(** [std::map::insert]: an existing entry stays. *)
Definition map_insert (m : gmap Z Z) (k v : Z) : gmap Z Z := if m !! k then m else <[k := v]> m.

Definition insert (newlevel : nat) s (x e : Z) (d : T) : outcome (t T) :=
  '(curNode, prevNodes) ← descend (nodes s) x e (Z.to_nat (maxCurLevel_ s)) (pHeader_ s) [];
  cn ← get (nodes s) curNode;
  let p := fresh (dom (nodes s)) in
  if bool_decide (expireTime cn = e) then
    let prevNode := (link cn).2 in
    let h := <[p := Node e (Some x) (Some d) [] (curNode, prevNode)]> (nodes s) in
    h ← set_ring_prev h curNode p;
    h ← set_ring_next h prevNode p;
    Ok (Make h (maxCurLevel_ s) (pHeader_ s) (pTail_ s) (map_insert (nodeMap_ s) x p))
  else
    let prevNodes := if bool_decide (Z.of_nat newlevel > maxCurLevel_ s)
      then prevNodes ++ replicate (newlevel - Z.to_nat (maxCurLevel_ s)) (pHeader_ s) else prevNodes in
    let maxCurLevel := if bool_decide (Z.of_nat newlevel > maxCurLevel_ s) then Z.of_nat newlevel else maxCurLevel_ s in
    let h := <[p := Node e (Some x) (Some d) (replicate newlevel (None, None)) (p, p)]> (nodes s) in
    h ← link_levels h p prevNodes 0 newlevel;
    Ok (Make h maxCurLevel (pHeader_ s) (pTail_ s) (map_insert (nodeMap_ s) x p)).

(** [remove]: the node [a] leaves [n] levels from level [i] on. *)
Fixpoint unlink_levels s h (m : Z) a i (n : nat) : outcome (heap * Z) :=
  match n with
  | O => Ok (h, m)
  | S n =>
    prevNode ← prev_at h a i;
    nextNode ← next_at h a i;
    h ← set_next h prevNode i nextNode;
    h ← set_prev h nextNode i prevNode;
    let m := if bool_decide (i ≠ 0%nat) && bool_decide (prevNode = pHeader_ s) && bool_decide (nextNode = pTail_ s)
             then u32 (m - 1) else m in
    unlink_levels s h m a (S i) n
  end.

(** [remove]: the neighbours of [b] on [n] levels from level [i] on point to it. *)
Fixpoint relink_levels h (b : Z) i (n : nat) : outcome heap :=
  match n with
  | O => Ok h
  | S n =>
    prevNode ← prev_at h b i;
    h ← set_next h prevNode i b;
    nextNode ← next_at h b i;
    h ← set_prev h nextNode i b;
    relink_levels h b (S i) n
  end.

Definition remove s a : outcome (t T) :=
  nd ← get (nodes s) a;
  '(h, m) ← (if bool_decide (length (links nd) = 0%nat) then
      _ ← require ((link nd).1 ≠ a ∧ (link nd).2 ≠ a);
      h ← set_ring_next (nodes s) (link nd).2 (link nd).1;
      h ← set_ring_prev h (link nd).1 (link nd).2;
      Ok (h, maxCurLevel_ s)
    else if bool_decide ((link nd).1 ≠ a) then
      let prevNode := (link nd).2 in
      let nextNode := (link nd).1 in
      h ← set_ring_next (nodes s) prevNode nextNode;
      h ← set_ring_prev h nextNode prevNode;
      nn ← get h nextNode;
      an ← get h a;
      let h := <[nextNode := set_links nn (links an)]> (<[a := set_links an []]> h) in
      h ← relink_levels h nextNode 0 (length (links an));
      Ok (h, maxCurLevel_ s)
    else unlink_levels s (nodes s) (maxCurLevel_ s) a 0 (length (links nd)));
  nd' ← get h a;
  x ← match id nd' with Some x => Ok x | None => Fault Uninitialized end;
  Ok (Make (delete a h) m (pHeader_ s) (pTail_ s) (delete x (nodeMap_ s))).

Definition getLast s : outcome (option Z) :=
  n ← prev_at (nodes s) (pTail_ s) 0;
  if bool_decide (n = pHeader_ s) then Ok None else nd ← get (nodes s) n; Ok (Some (link nd).2).

Definition getNode s (x : Z) : option Z := nodeMap_ s !! x.

Definition empty s : outcome bool := n ← next_at (nodes s) (pHeader_ s) 0; Ok (bool_decide (n = pTail_ s)).

(** The members a client reads. *)
Definition read s p : outcome (entry T) :=
  n ← get (nodes s) p;
  x ← match id n with Some x => Ok x | None => Fault Uninitialized end;
  d ← match data n with Some d => Ok d | None => Fault Uninitialized end;
  Ok (Entry (expireTime n) x d).

(** ** Views of the heap *)
Definition nx h i a : option Z := n ← h !! a; lk ← links n !! i; lk.1.
Definition pv h i a : option Z := n ← h !! a; lk ← links n !! i; lk.2.
Definition rn h a : option Z := (λ n, (link n).1) <$> h !! a.
Definition rp h a : option Z := (λ n, (link n).2) <$> h !! a.
(** What the links do not change: time, id, data, number of levels. *)
Definition info h a : option (Z * option Z * option T * nat) :=
  (λ n, (expireTime n, id n, data n, length (links n))) <$> h !! a.

Definition slot h a i : Prop := ∃ e x d k, info h a = Some (e, x, d, k) ∧ (i < k)%nat.

Lemma slot_node h a i : slot h a i → ∃ n lk, h !! a = Some n ∧ links n !! i = Some lk.
Proof.
  intros (e & x & d & k & Hi & Hk). unfold info in Hi. destruct (h !! a) as [n|]; simpl in Hi; [|done].
  injection Hi as <- <- <- <-. destruct (lookup_lt_is_Some_2 _ _ Hk). eauto.
Qed.

Lemma next_at_ok h a i b : nx h i a = Some b → next_at h a i = Ok b.
Proof.
  unfold nx, next_at, get, link_at. destruct (h !! a) as [n|]; simpl; [|done].
  destruct (links n !! i) as [lk|]; simpl; [|done]. by intros ->.
Qed.
Lemma prev_at_ok h a i b : pv h i a = Some b → prev_at h a i = Ok b.
Proof.
  unfold pv, prev_at, get, link_at. destruct (h !! a) as [n|]; simpl; [|done].
  destruct (links n !! i) as [lk|]; simpl; [|done]. by intros ->.
Qed.

(** Each setter changes one entry of one view. *)
Lemma set_next_ok h a i v : slot h a i → ∃ h', set_next h a i v = Ok h' ∧
  (∀ j b, nx h' j b = if decide (j = i ∧ b = a) then Some v else nx h j b) ∧ (∀ j b, pv h' j b = pv h j b) ∧
  (∀ b, rn h' b = rn h b) ∧ (∀ b, rp h' b = rp h b) ∧ (∀ b, info h' b = info h b).
Proof.
  intros (n & lk & Ha & Hi)%slot_node. unfold set_next, get, link_at. rewrite Ha. simpl. rewrite Hi. simpl.
  eexists. split; [done|]. pose proof (lookup_lt_Some _ _ _ Hi) as Hlt.
  split; [|split; [|split; [|split]]]; [intros j b|intros j b|intros b..];
    (destruct (decide (b = a)) as [->|Hne];
      [unfold nx, pv, rn, rp, info; rewrite lookup_insert_eq, Ha; simpl
      |unfold nx, pv, rn, rp, info; rewrite lookup_insert_ne by done; rewrite ?decide_False by tauto; done]);
    try done; [| |by rewrite length_insert].
  - destruct (decide (j = i)) as [->|Hj]; [rewrite list_lookup_insert_eq by done; by rewrite decide_True|].
    rewrite list_lookup_insert_ne by done. rewrite decide_False by tauto. done.
  - destruct (decide (j = i)) as [->|Hj]; [by rewrite list_lookup_insert_eq, Hi|by rewrite list_lookup_insert_ne].
Qed.
Lemma set_prev_ok h a i v : slot h a i → ∃ h', set_prev h a i v = Ok h' ∧
  (∀ j b, pv h' j b = if decide (j = i ∧ b = a) then Some v else pv h j b) ∧ (∀ j b, nx h' j b = nx h j b) ∧
  (∀ b, rn h' b = rn h b) ∧ (∀ b, rp h' b = rp h b) ∧ (∀ b, info h' b = info h b).
Proof.
  intros (n & lk & Ha & Hi)%slot_node. unfold set_prev, get, link_at. rewrite Ha. simpl. rewrite Hi. simpl.
  eexists. split; [done|]. pose proof (lookup_lt_Some _ _ _ Hi) as Hlt.
  split; [|split; [|split; [|split]]]; [intros j b|intros j b|intros b..];
    (destruct (decide (b = a)) as [->|Hne];
      [unfold nx, pv, rn, rp, info; rewrite lookup_insert_eq, Ha; simpl
      |unfold nx, pv, rn, rp, info; rewrite lookup_insert_ne by done; rewrite ?decide_False by tauto; done]);
    try done; [| |by rewrite length_insert].
  - destruct (decide (j = i)) as [->|Hj]; [rewrite list_lookup_insert_eq by done; by rewrite decide_True|].
    rewrite list_lookup_insert_ne by done. rewrite decide_False by tauto. done.
  - destruct (decide (j = i)) as [->|Hj]; [by rewrite list_lookup_insert_eq, Hi|by rewrite list_lookup_insert_ne].
Qed.
Lemma set_ring_next_ok h a v : is_Some (h !! a) → ∃ h', set_ring_next h a v = Ok h' ∧
  (∀ b, rn h' b = if decide (b = a) then Some v else rn h b) ∧ (∀ b, rp h' b = rp h b) ∧
  (∀ j b, nx h' j b = nx h j b) ∧ (∀ j b, pv h' j b = pv h j b) ∧ (∀ b, info h' b = info h b).
Proof.
  intros [n Ha]. unfold set_ring_next, get. rewrite Ha. simpl. eexists. split; [done|].
  split; [|split; [|split; [|split]]]; intros;
    (destruct (decide (b = a)) as [->|Hne];
      [unfold nx, pv, rn, rp, info; by rewrite lookup_insert_eq, ?Ha|unfold nx, pv, rn, rp, info; by rewrite lookup_insert_ne]).
Qed.
Lemma set_ring_prev_ok h a v : is_Some (h !! a) → ∃ h', set_ring_prev h a v = Ok h' ∧
  (∀ b, rp h' b = if decide (b = a) then Some v else rp h b) ∧ (∀ b, rn h' b = rn h b) ∧
  (∀ j b, nx h' j b = nx h j b) ∧ (∀ j b, pv h' j b = pv h j b) ∧ (∀ b, info h' b = info h b).
Proof.
  intros [n Ha]. unfold set_ring_prev, get. rewrite Ha. simpl. eexists. split; [done|].
  split; [|split; [|split; [|split]]]; intros;
    (destruct (decide (b = a)) as [->|Hne];
      [unfold nx, pv, rn, rp, info; by rewrite lookup_insert_eq, ?Ha|unfold nx, pv, rn, rp, info; by rewrite lookup_insert_ne]).
Qed.

(** ** The representation

    The entries with one time: the node in the skip list with its level, and the
    other nodes of its ring in order. *)
Record group : Type := Group { g_level : nat; g_addr : Z; g_entry : entry T; g_rest : list (Z * entry T) }.
Implicit Types (g : group) (gs : list group).

Definition g_time g : Z := e_time (g_entry g).
Definition ring g : list (Z * entry T) := (g_addr g, g_entry g) :: g_rest g.
Definition pairs gs : list (Z * entry T) := gs ≫= ring.
Definition entries gs : list (entry T) := (pairs gs).*2.
Definition addrs gs : list Z := (pairs gs).*1.
(** The nodes on level [i]. *)
Definition heads i gs : list Z := g_addr <$> filter (λ g, (i < g_level g)%nat) gs.

Definition node_info (y : entry T) (k : nat) : Z * option Z * option T * nat :=
  (e_time y, Some (e_id y), Some (e_data y), k).

Record group_ok h g : Prop := {
  ok_ring : linked (rn h) (rp h) ((ring g).*1 ++ [g_addr g]);
  ok_head : info h (g_addr g) = Some (node_info (g_entry g) (g_level g));
  ok_level : (1 ≤ g_level g)%nat;
  ok_time : time_ok (g_time g);
  ok_rest : Forall (λ '(b, y), info h b = Some (node_info y 0) ∧ e_time y = g_time g) (g_rest g);
}.

Record rep s gs : Prop := {
  r_levels i : (i < MAX)%nat → linked (nx (nodes s) i) (pv (nodes s) i) (pHeader_ s :: heads i gs ++ [pTail_ s]);
  r_groups : Forall (group_ok (nodes s)) gs;
  r_header : info (nodes s) (pHeader_ s) = Some (CORPC_MAX_UINT64, None, None, MAX);
  r_tail : info (nodes s) (pTail_ s) = Some (CORPC_MIN_UINT64, None, None, MAX);
  r_nodup : NoDup (pHeader_ s :: pTail_ s :: addrs gs);
  r_times : StronglySorted (λ g g', g_time g > g_time g') gs;
  r_ids : NoDup (e_id <$> entries gs);
  r_map x a : nodeMap_ s !! x = Some a ↔ ∃ y, (a, y) ∈ pairs gs ∧ e_id y = x;
  r_max : 1 ≤ maxCurLevel_ s ≤ Z.of_nat MAX ∧ Forall (λ g, Z.of_nat (g_level g) ≤ maxCurLevel_ s) gs;
}.

Lemma pairs_app gs1 gs2 : pairs (gs1 ++ gs2) = pairs gs1 ++ pairs gs2.
Proof. apply bind_app. Qed.
Lemma entries_app gs1 gs2 : entries (gs1 ++ gs2) = entries gs1 ++ entries gs2.
Proof. unfold entries. by rewrite pairs_app, fmap_app. Qed.
Lemma pairs_one g : pairs [g] = ring g.
Proof. unfold pairs. simpl. by rewrite app_nil_r. Qed.
Lemma entries_one g : entries [g] = (ring g).*2.
Proof. unfold entries. by rewrite pairs_one. Qed.
Lemma addrs_one g : addrs [g] = (ring g).*1.
Proof. unfold addrs. by rewrite pairs_one. Qed.
Lemma addrs_app gs1 gs2 : addrs (gs1 ++ gs2) = addrs gs1 ++ addrs gs2.
Proof. unfold addrs. by rewrite pairs_app, fmap_app. Qed.
Lemma heads_app i gs1 gs2 : heads i (gs1 ++ gs2) = heads i gs1 ++ heads i gs2.
Proof. unfold heads. by rewrite filter_app, fmap_app. Qed.
Lemma heads_cons i g gs : (i < g_level g)%nat → heads i (g :: gs) = g_addr g :: heads i gs.
Proof. intros Hi. unfold heads. by rewrite filter_cons_True. Qed.
Lemma heads_skip i g gs : ¬ (i < g_level g)%nat → heads i (g :: gs) = heads i gs.
Proof. intros Hi. unfold heads. by rewrite filter_cons_False. Qed.
Lemma pairs_elem gs x : x ∈ pairs gs ↔ ∃ g, x ∈ ring g ∧ g ∈ gs.
Proof. unfold pairs. apply list_elem_of_bind. Qed.
Lemma heads_elem i gs a : a ∈ heads i gs ↔ ∃ g, g ∈ gs ∧ (i < g_level g)%nat ∧ a = g_addr g.
Proof.
  unfold heads. rewrite list_elem_of_fmap. split.
  - intros (g & -> & [? ?]%list_elem_of_filter). eauto.
  - intros (g & ? & ? & ->). exists g. split; [done|]. by apply list_elem_of_filter.
Qed.
Lemma heads_addrs i gs a : a ∈ heads i gs → a ∈ addrs gs.
Proof.
  intros (g & Hg & _ & ->)%heads_elem. unfold addrs. apply list_elem_of_fmap. exists (g_addr g, g_entry g).
  split; [done|]. apply pairs_elem. exists g. split; [|done]. apply elem_of_cons. by left.
Qed.

(** The entry at an address. *)
Lemma rep_info s gs a y : rep s gs → (a, y) ∈ pairs gs → ∃ k, info (nodes s) a = Some (node_info y k).
Proof.
  intros Hr (g & Hy & Hg)%pairs_elem. pose proof (proj1 (Forall_forall _ _) (r_groups _ _ Hr) g Hg) as [_ Hh _ _ Hrest].
  apply elem_of_cons in Hy as [[= -> ->]|Hy]; [eauto|].
  pose proof (proj1 (Forall_forall _ _) Hrest (a, y) Hy) as [? _]. eauto.
Qed.
Lemma read_ok s a y k : info (nodes s) a = Some (node_info y k) → read s a = Ok y.
Proof.
  unfold info, read, get. destruct (nodes s !! a) as [n|]; simpl; [|done]. unfold node_info.
  intros [= -> Hi Hd _]. rewrite Hi, Hd. simpl. by destruct y.
Qed.

Lemma new_rep : rep new [].
Proof.
  constructor; simpl; try done.
  - intros i Hi. change MAX with 16%nat in Hi. do 16 (destruct i as [|i]; [vm_compute; done|]). lia.
  - repeat (apply NoDup_cons; split; [set_solver|]). apply NoDup_nil_2.
  - constructor.
  - apply NoDup_nil_2.
  - intros x a. rewrite lookup_empty. split; [done|]. intros (y & Hy & _). by apply not_elem_of_nil in Hy.
Qed.

(** ** The entries are ordered *)
Lemma ring_time h g a y : group_ok h g → (a, y) ∈ ring g → e_time y = g_time g.
Proof.
  intros [_ _ _ _ Hr] [[= -> ->]|Hy]%elem_of_cons; [done|]. by apply (proj1 (Forall_forall _ _) Hr (a, y)).
Qed.
Lemma entries_elem gs y : y ∈ entries gs ↔ ∃ a g, (a, y) ∈ ring g ∧ g ∈ gs.
Proof.
  unfold entries. rewrite list_elem_of_fmap. split.
  - intros ([a z] & -> & (g & Hz & Hg)%pairs_elem). eauto.
  - intros (a & g & Hy & Hg). exists (a, y). split; [done|]. apply pairs_elem. eauto.
Qed.
Lemma ordered_app (l1 l2 : list (entry T)) : ordered l1 → ordered l2 →
  (∀ x y, x ∈ l1 → y ∈ l2 → e_time x >= e_time y) → ordered (l1 ++ l2).
Proof.
  unfold ordered. induction l1 as [|x l1 IH]; intros H1 H2 H12; [done|]. inversion H1; subst. simpl. constructor.
  - apply IH; [done|done|]. intros. apply H12; [set_solver|done].
  - apply Forall_app. split; [done|]. apply Forall_forall. intros y Hy. apply H12; set_solver.
Qed.
Lemma equal_ordered (l : list (entry T)) e : Forall (λ y, e_time y = e) l → ordered l.
Proof.
  unfold ordered. induction 1 as [|x l Hx Hl IH]; constructor; [done|]. eapply Forall_impl; [exact Hl|]. simpl. intros. lia.
Qed.
Lemma entries_ordered h gs : Forall (group_ok h) gs → StronglySorted (λ g g', g_time g > g_time g') gs → ordered (entries gs).
Proof.
  induction 1 as [|g gs Hg Hgs IH]; intros Hs; [constructor|]. inversion Hs as [|? ? Hs' Hall]; subst.
  change (entries (g :: gs)) with (entries ([g] ++ gs)). rewrite entries_app. apply ordered_app; [|auto|].
  - apply (equal_ordered _ (g_time g)). apply Forall_forall. intros y (a & g' & Hy & Hg')%entries_elem.
    apply list_elem_of_singleton in Hg' as ->. by eapply ring_time.
  - intros x y (a & g' & Hx & Hg')%entries_elem (b & g2 & Hy & Hg2)%entries_elem.
    apply list_elem_of_singleton in Hg' as ->. rewrite (ring_time h g a x) by done.
    rewrite (ring_time h g2 b y) by (done || by eapply Forall_forall; [exact Hgs|]).
    pose proof (proj1 (Forall_forall _ _) Hall g2 Hg2). simpl in *. lia.
Qed.
Lemma entries_times h gs : Forall (group_ok h) gs → Forall (λ x, time_ok (e_time x)) (entries gs).
Proof.
  intros Hgs. apply Forall_forall. intros y (a & g & Hy & Hg)%entries_elem.
  pose proof (proj1 (Forall_forall _ _) Hgs g Hg) as Hok. rewrite (ring_time h g a y) by done. apply Hok.
Qed.

(** ** [getNode], [getLast], [empty] *)
Lemma getNode_rep s gs x : rep s gs →
  match lookup_id x (entries gs) with
  | None => getNode s x = None
  | Some y => ∃ p, getNode s x = Some p ∧ read s p = Ok y
  end.
Proof.
  intros Hr. unfold getNode. destruct (lookup_id x (entries gs)) as [y|] eqn:E.
  - apply lookup_id_Some in E as [<- Hy]. unfold entries in Hy. apply list_elem_of_fmap in Hy as ([a z] & -> & Hz).
    exists a. split; [apply (r_map _ _ Hr); eauto|]. destruct (rep_info _ _ _ _ Hr Hz) as [k Hk]. by eapply read_ok.
  - apply lookup_id_None in E. destruct (nodeMap_ s !! x) as [a|] eqn:Em; [|done].
    apply (r_map _ _ Hr) in Em as (y & Hy & Hx). exfalso. apply (proj1 (Forall_forall _ _) E y); [|done].
    unfold entries. apply list_elem_of_fmap. by exists (a, y).
Qed.

Lemma heads_0 h gs : Forall (group_ok h) gs → heads 0 gs = g_addr <$> gs.
Proof.
  intros Hgs. unfold heads. rewrite list_filter_all; [done|]. eapply Forall_impl; [exact Hgs|]. intros g Hg. apply Hg.
Qed.
Lemma max_pos : (0 < MAX)%nat.
Proof. vm_compute. lia. Qed.

(** The end of a ring. *)
Lemma ring_last h g l z y : group_ok h g → ring g = l ++ [(z, y)] → rp h (g_addr g) = Some z.
Proof.
  intros [Hr _ _ _ _] Hg. rewrite Hg, fmap_app in Hr. simpl in Hr. rewrite <-(assoc_L (++)) in Hr. simpl in Hr.
  by apply (linked_next _ _ (l.*1) z (g_addr g) []) in Hr as [_ ?].
Qed.
Lemma ring_snoc g : ∃ l z, ring g = l ++ [z].
Proof. destruct (exists_last (l := ring g)) as (l & z & ->); [done|]. eauto. Qed.

Lemma getLast_rep s gs : rep s gs →
  match list.last (entries gs) with
  | None => getLast s = Ok None
  | Some x => ∃ p, getLast s = Ok (Some p) ∧ getNode s (e_id x) = Some p
  end.
Proof.
  intros Hr. pose proof (r_levels _ _ Hr 0%nat max_pos) as Hl. rewrite (heads_0 _ _ (r_groups _ _ Hr)) in Hl.
  unfold getLast. destruct gs as [|g gs _] using rev_ind.
  - simpl in Hl. destruct Hl as (_ & Hl & _). simpl. rewrite (prev_at_ok _ _ _ _ Hl). simpl. by rewrite bool_decide_true.
  - rewrite fmap_app in Hl. simpl in Hl. rewrite <-(assoc_L (++)) in Hl. simpl in Hl.
    apply (linked_next _ _ (pHeader_ s :: (g_addr <$> gs)) (g_addr g) (pTail_ s) []) in Hl as [_ Hl].
    rewrite (prev_at_ok _ _ _ _ Hl). simpl.
    assert (g_addr g ∈ addrs (gs ++ [g])) as Hin.
    { eapply (heads_addrs 0). apply heads_elem. exists g. split_and!; [set_solver| |done].
      pose proof (r_groups _ _ Hr) as Hg. apply Forall_app in Hg as [_ Hg]. inversion Hg as [|? ? Hok]; subst. apply Hok. }
    pose proof (r_nodup _ _ Hr) as Hnd. apply NoDup_cons in Hnd as [Hnd _].
    rewrite bool_decide_false by (intros E; apply Hnd; rewrite <-E; apply elem_of_cons; by right).
    pose proof (r_groups _ _ Hr) as Hg. apply Forall_app in Hg as [_ Hg]. inversion Hg as [|? ? Hok _]; subst.
    destruct (ring_snoc g) as (l & [z y] & Hring). pose proof (ring_last _ _ _ _ _ Hok Hring) as Hrp.
    unfold rp in Hrp. unfold get. destruct (nodes s !! g_addr g) as [nd|]; simpl in *; [|done]. injection Hrp as Hrp.
    rewrite entries_app, entries_one, Hring, fmap_app, (assoc_L (++)). simpl. rewrite last_snoc. exists z. split; [by rewrite Hrp|].
    apply (r_map _ _ Hr). exists y. split; [|done]. apply pairs_elem. exists g. split; [rewrite Hring; set_solver|set_solver].
Qed.

Lemma empty_rep s gs : rep s gs → empty s = Ok (bool_decide (entries gs = [])).
Proof.
  intros Hr. pose proof (r_levels _ _ Hr 0%nat max_pos) as Hl. rewrite (heads_0 _ _ (r_groups _ _ Hr)) in Hl.
  unfold empty. destruct gs as [|g gs]; simpl in Hl; destruct Hl as (Hn & _); rewrite (next_at_ok _ _ _ _ Hn); simpl.
  - by rewrite !bool_decide_true.
  - pose proof (r_nodup _ _ Hr) as Hnd. apply NoDup_cons in Hnd as [_ Hnd]. apply NoDup_cons in Hnd as [Hnd _].
    assert (g_addr g ≠ pTail_ s) as Hne.
    { intros E. apply Hnd. rewrite <-E. change (g :: gs) with ([g] ++ gs). rewrite addrs_app, addrs_one. simpl. set_solver. }
    by rewrite !bool_decide_false.
Qed.

(** ** The search of [insert] *)
Lemma info_get h a e x d k : info h a = Some (e, x, d, k) →
  ∃ n, get h a = Ok n ∧ h !! a = Some n ∧ expireTime n = e ∧ id n = x ∧ data n = d ∧ length (links n) = k.
Proof.
  unfold info, get. destruct (h !! a) as [n|]; simpl; [|done]. intros [= <- <- <- <-]. eauto 10.
Qed.
Lemma nodup_size h (l : list Z) : NoDup l → (∀ a, a ∈ l → is_Some (h !! a)) → (length l ≤ size h)%nat.
Proof.
  intros Hnd Hl. rewrite <-size_dom, <-(size_list_to_set (C := gset Z)) by done.
  apply subseteq_size. intros a Ha%elem_of_list_to_set. by apply elem_of_dom, Hl.
Qed.
Lemma group_head s gs g : rep s gs → g ∈ gs → info (nodes s) (g_addr g) = Some (node_info (g_entry g) (g_level g)).
Proof. intros Hr Hg. by apply (proj1 (Forall_forall _ _) (r_groups _ _ Hr) g Hg). Qed.
Lemma rep_is_Some s gs a : rep s gs → a ∈ addrs gs → is_Some (nodes s !! a).
Proof.
  intros Hr ([b y] & -> & Hb)%list_elem_of_fmap. destruct (rep_info _ _ _ _ Hr Hb) as [k Hk].
  destruct (info_get _ _ _ _ _ _ Hk) as (n & _ & ? & _). eauto.
Qed.

Lemma g_addr_addrs g gs : g ∈ gs → g_addr g ∈ addrs gs.
Proof.
  intros Hg. unfold addrs. apply list_elem_of_fmap. exists (g_addr g, g_entry g). split; [done|].
  apply pairs_elem. exists g. split; [|done]. apply elem_of_cons. by left.
Qed.
Lemma heads_nodup i gs : NoDup (addrs gs) → NoDup (heads i gs).
Proof.
  induction gs as [|g gs IH]; intros Hnd; [apply NoDup_nil_2|].
  change (g :: gs) with ([g] ++ gs) in Hnd. rewrite addrs_app, addrs_one in Hnd. apply NoDup_app in Hnd as (_ & Hd & Hnd).
  unfold heads. destruct (decide (i < g_level g)%nat); [rewrite filter_cons_True by done|rewrite filter_cons_False by done].
  - simpl. apply NoDup_cons. split; [|by apply IH]. intros Hin%heads_addrs. apply (Hd (g_addr g)); [|done].
    simpl. apply elem_of_cons. by left.
  - by apply IH.
Qed.

Section search.
Context (s : t T) (g1 g2 : list group) (x e : Z).
Hypothesis Hr : rep s (g1 ++ g2).
Hypothesis Hge : Forall (λ g, g_time g >= e) g1.
Hypothesis Hlt : Forall (λ g, g_time g < e) g2.
Hypothesis Htime : time_ok e.
Hypothesis Hid : x ∉ e_id <$> entries (g1 ++ g2).

Lemma walk_ok i : (i < MAX)%nat → ∀ U2 U1 cur fuel, pHeader_ s :: heads i g1 = U1 ++ cur :: U2 → (length U2 ≤ fuel)%nat →
  walk fuel (nodes s) x e i cur = Ok (default cur (list.last U2)).
Proof.
  intros Hi. pose proof (r_levels _ _ Hr i Hi) as Hl. rewrite heads_app, <-(assoc_L (++)) in Hl.
  change (pHeader_ s :: heads i g1 ++ ?k) with ((pHeader_ s :: heads i g1) ++ k) in Hl.
  induction U2 as [|b U2 IH]; intros U1 cur fuel HU Hf.
  - rewrite HU in Hl. rewrite <-(assoc_L (++)) in Hl. simpl in Hl.
    assert (∃ b r k y d n', heads i g2 ++ [pTail_ s] = b :: r ∧ info (nodes s) b = Some (k, y, d, n') ∧ k < e)
      as (b & r & k & y & d & n' & Hb & Hinfo & Hk).
    { destruct (heads i g2) as [|b r] eqn:E.
      - eexists _, _, _, _, _, _. split_and!; [done|apply (r_tail _ _ Hr)|apply Htime].
      - simpl. assert (b ∈ heads i g2) as (g & Hg & _ & ->)%heads_elem by (rewrite E; set_solver).
        eexists _, _, _, _, _, _. split_and!; [done|apply (group_head s _ _ Hr); set_solver|].
        by apply (proj1 (Forall_forall _ _) Hlt). }
    rewrite Hb in Hl. apply linked_next in Hl as [Hn _].
    destruct (info_get _ _ _ _ _ _ Hinfo) as (n & Hget & _ & Hexp & _).
    destruct fuel; simpl; rewrite (next_at_ok _ _ _ _ Hn); simpl; rewrite Hget; simpl; by rewrite bool_decide_false by lia.
  - destruct fuel as [|fuel]; simpl in Hf; [lia|].
    pose proof Hl as Hl'. rewrite HU, <-(assoc_L (++)) in Hl'. simpl in Hl'. apply linked_next in Hl' as [Hn _].
    assert (b ∈ heads i g1) as (g & Hg & _ & Hbg)%heads_elem.
    { destruct U1 as [|u U1]; simpl in HU; injection HU as _ HU; rewrite HU; set_solver. }
    assert (g ∈ g1 ++ g2) as Hg' by set_solver.
    pose proof (group_head s _ _ Hr Hg') as Hinfo. rewrite <-Hbg in Hinfo.
    destruct (info_get _ _ _ _ _ _ Hinfo) as (n & Hget & _ & Hexp & Hidn & _).
    simpl. rewrite (next_at_ok _ _ _ _ Hn). simpl. rewrite Hget. simpl.
    rewrite bool_decide_true by (rewrite Hexp; by apply (proj1 (Forall_forall _ _) Hge)). rewrite Hidn. simpl.
    unfold require. rewrite decide_True.
    2:{ intros E. apply Hid. rewrite <-E. apply list_elem_of_fmap. exists (g_entry g). split; [done|].
        apply entries_elem. exists (g_addr g), g. split; [|done]. apply elem_of_cons. by left. }
    simpl. rewrite (IH (U1 ++ [cur]) b fuel); [|by rewrite HU, <-(assoc_L (++))|lia]. f_equal.
    rewrite last_cons. by destruct (list.last U2).
Qed.

(** The last node not behind the new time, on level [i]. *)
Definition before i : Z := default (pHeader_ s) (list.last (heads i g1)).

Lemma before_elem i j : (j ≤ i)%nat → before i ∈ pHeader_ s :: heads j g1.
Proof.
  intros Hj. unfold before. destruct (list.last (heads i g1)) as [a|] eqn:E; simpl; [|apply elem_of_cons; by left].
  apply last_Some_elem_of, heads_elem in E as (g & Hg & Hi & ->). apply elem_of_cons. right. apply heads_elem.
  exists g. split_and!; [done|lia|done].
Qed.

Lemma descend_ok k : (k ≤ MAX)%nat → ∀ cur acc, (∀ j, (j < k)%nat → cur ∈ pHeader_ s :: heads j g1) →
  descend (nodes s) x e k cur acc = Ok (match k with O => cur | S _ => before 0 end, (before <$> seq 0 k) ++ acc).
Proof.
  induction k as [|k IH]; intros Hk cur acc Hc; [done|]. rewrite seq_S, fmap_app, <-(assoc_L (++)). cbn [descend].
  destruct (list_elem_of_split _ _ (Hc k ltac:(lia))) as (U1 & U2 & HU).
  assert (length U2 ≤ size (nodes s))%nat as Hsz.
  { pose proof (r_nodup _ _ Hr) as Hnd. apply NoDup_cons in Hnd as [Hh Hnd]. apply NoDup_cons in Hnd as [_ Hnd].
    assert (U2 ⊆ heads k g1) as Hsub.
    { destruct U1 as [|u U1]; simpl in HU; injection HU as _ HU; rewrite HU; set_solver. }
    rewrite addrs_app in Hnd. apply NoDup_app in Hnd as (Hnd & _ & _). apply (nodup_size (nodes s) U2).
    - pose proof (heads_nodup k g1 Hnd) as Hn. assert (NoDup (U1 ++ cur :: U2)) as Hn2.
      { rewrite <-HU. apply NoDup_cons. split; [|done]. intros Hin%heads_addrs. apply Hh. rewrite addrs_app. set_solver. }
      apply NoDup_app in Hn2 as (_ & _ & Hn2). by apply NoDup_cons in Hn2 as [_ ?].
    - intros a Ha%Hsub%heads_addrs. apply (rep_is_Some _ _ _ Hr). rewrite addrs_app. set_solver. }
  rewrite (walk_ok k ltac:(lia) U2 U1 cur _ HU Hsz).
  assert (default cur (list.last U2) = before k) as ->.
  { unfold before. destruct U1 as [|u U1]; simpl in HU; injection HU as H1 ->; [by rewrite H1|].
    rewrite last_app, last_cons. by destruct (list.last U2). }
  simpl. rewrite IH; [|lia|].
  - f_equal. f_equal. by destruct k.
  - intros j Hj. apply before_elem. lia.
Qed.
End search.

(** ** Linking and unlinking a node on one level *)

(** Only the links of level [i] change. *)
Definition others i h h' : Prop :=
  (∀ j c, j ≠ i → nx h' j c = nx h j c ∧ pv h' j c = pv h j c) ∧
  (∀ c, rn h' c = rn h c ∧ rp h' c = rp h c ∧ info h' c = info h c).

Abbreviation level h i l := (linked (nx h i) (pv h i) l).

Lemma slot_info h h' a i : (∀ b, info h' b = info h b) → slot h a i → slot h' a i.
Proof. intros Hi (e & x & d & k & H1 & H2). exists e, x, d, k. by rewrite Hi. Qed.

(** Elements around a place in a list without duplicates. *)
Lemma nodup_around (l1 : list Z) a b l2 : NoDup (l1 ++ a :: b :: l2) →
  a ∉ l1 ∧ a ≠ b ∧ a ∉ l2 ∧ b ∉ l1 ∧ b ∉ l2.
Proof.
  intros (_ & Hd & Hnd)%NoDup_app. apply NoDup_cons in Hnd as [Ha Hnd]. apply NoDup_cons in Hnd as [Hb _].
  rewrite not_elem_of_cons in Ha. destruct Ha as [? ?]. split_and!; try done; intros Hin; apply (Hd _ Hin); set_solver.
Qed.

Lemma link_level h p i l1 a b l2 : level h i (l1 ++ a :: b :: l2) → NoDup (l1 ++ a :: b :: l2) → p ∉ l1 ++ a :: b :: l2 →
  slot h p i → slot h a i → slot h b i →
  ∃ h1 h2 h3 h4, set_next h p i b = Ok h1 ∧ set_prev h1 p i a = Ok h2 ∧ set_next h2 a i p = Ok h3 ∧ set_prev h3 b i p = Ok h4 ∧
    level h4 i (l1 ++ a :: p :: b :: l2) ∧ others i h h4.
Proof.
  intros Hl Hnd Hp Sp Sa Sb. destruct (nodup_around _ _ _ _ Hnd) as (N1 & N2 & N3 & N4 & N5).
  destruct (set_next_ok h p i b Sp) as (h1 & E1 & A1 & B1 & C1 & D1 & I1).
  destruct (set_prev_ok h1 p i a) as (h2 & E2 & A2 & B2 & C2 & D2 & I2); [by eapply slot_info|].
  destruct (set_next_ok h2 a i p) as (h3 & E3 & A3 & B3 & C3 & D3 & I3); [do 2 (eapply slot_info; [done|]); done|].
  destruct (set_prev_ok h3 b i p) as (h4 & E4 & A4 & B4 & C4 & D4 & I4); [do 3 (eapply slot_info; [done|]); done|].
  assert (p ≠ a ∧ p ≠ b ∧ p ∉ l1 ∧ p ∉ l2) as (P1 & P2 & P3 & P4).
  { rewrite elem_of_app, !elem_of_cons in Hp. tauto. }
  exists h1, h2, h3, h4. split_and!; try done.
  - eapply linked_splice; [exact Hl|..].
    + rewrite B4, A3, decide_True by done. done.
    + rewrite B4, A3, decide_False, B2, A1, decide_True by (done || naive_solver). done.
    + rewrite A4, decide_False, B3, A2, decide_True by (done || naive_solver). done.
    + rewrite A4, decide_True by done. done.
    + intros x Hx. assert (x ≠ a ∧ x ≠ p) as [X1 X2].
      { destruct Hx as [Hx|Hx%front_elem]; [split; congruence|]. apply elem_of_cons in Hx as [->|Hx]; split; congruence. }
      rewrite B4, A3, decide_False, B2, A1, decide_False by naive_solver. done.
    + intros x Hx. assert (x ≠ b ∧ x ≠ p) as [X1 X2].
      { destruct Hx as [[Hx| ->]%tail_snoc_elem|Hx]; split; congruence. }
      rewrite A4, decide_False, B3, A2, decide_False, B1 by naive_solver. done.
  - split; [intros j c Hj; rewrite B4, A3, decide_False, B2, A1, decide_False by naive_solver;
            rewrite A4, decide_False, B3, A2, decide_False, B1 by naive_solver; done|].
    intros c. rewrite C4, C3, C2, C1, D4, D3, D2, D1, I4, I3, I2, I1. done.
Qed.

Lemma unlink_level h p i l1 a b l2 : level h i (l1 ++ a :: p :: b :: l2) → NoDup (l1 ++ a :: p :: b :: l2) →
  slot h a i → slot h b i →
  ∃ h1 h2, set_next h a i b = Ok h1 ∧ set_prev h1 b i a = Ok h2 ∧ level h2 i (l1 ++ a :: b :: l2) ∧ others i h h2 ∧
    nx h2 i p = nx h i p ∧ pv h2 i p = pv h i p.
Proof.
  intros Hl Hnd Sa Sb.
  assert (NoDup (l1 ++ a :: b :: l2) ∧ p ≠ a ∧ p ≠ b) as (Hnd' & P1 & P2).
  { change (a :: p :: b :: l2) with ([a] ++ p :: b :: l2) in Hnd.
    rewrite (assoc_L (++)), <-Permutation_middle, <-(assoc_L (++)) in Hnd. simpl in Hnd.
    apply NoDup_cons in Hnd as [Hp Hnd]. split; [done|]. rewrite elem_of_app, !elem_of_cons in Hp. tauto. }
  destruct (nodup_around _ _ _ _ Hnd') as (N1 & N2 & N3 & N4 & N5).
  destruct (set_next_ok h a i b Sa) as (h1 & E1 & A1 & B1 & C1 & D1 & I1).
  destruct (set_prev_ok h1 b i a) as (h2 & E2 & A2 & B2 & C2 & D2 & I2); [by eapply slot_info|].
  exists h1, h2. split_and!; try done.
  - eapply linked_unsplice; [exact Hl|..].
    + rewrite B2, A1, decide_True by done. done.
    + rewrite A2, decide_True by done. done.
    + intros x Hx. assert (x ≠ a) as X1.
      { destruct Hx as [Hx|Hx%front_elem]; [congruence|]. apply elem_of_cons in Hx as [->|Hx]; congruence. }
      rewrite B2, A1, decide_False by naive_solver. done.
    + intros x Hx. assert (x ≠ b) as X1.
      { destruct Hx as [[Hx| ->]%tail_snoc_elem|Hx]; congruence. }
      rewrite A2, decide_False, B1 by naive_solver. done.
  - split; [intros j c Hj; rewrite B2, A1, decide_False by naive_solver; rewrite A2, decide_False, B1 by naive_solver; done|].
    intros c. rewrite C2, C1, D2, D1, I2, I1. done.
  - rewrite B2, A1, decide_False by naive_solver. done.
  - rewrite A2, decide_False, B1 by naive_solver. done.
Qed.

Lemma others_trans i h h1 h2 : others i h h1 → others i h1 h2 → others i h h2.
Proof.
  intros [A1 B1] [A2 B2]. split.
  - intros j c Hj. destruct (A1 j c Hj), (A2 j c Hj). split; congruence.
  - intros c. destruct (B1 c) as (? & ? & ?), (B2 c) as (? & ? & ?). split_and!; congruence.
Qed.

(** Only the links of the [n] levels from [i] on change. *)
Definition others_in i (n : nat) h h' : Prop :=
  (∀ j c, ¬ (i ≤ j < i + n)%nat → nx h' j c = nx h j c ∧ pv h' j c = pv h j c) ∧
  (∀ c, rn h' c = rn h c ∧ rp h' c = rp h c ∧ info h' c = info h c).

Lemma others_in_cons i n h h1 h2 : others i h h1 → others_in (S i) n h1 h2 → others_in i (S n) h h2.
Proof.
  intros [A1 B1] [A2 B2]. split.
  - intros j c Hj. destruct (A1 j c ltac:(lia)), (A2 j c ltac:(lia)). split; congruence.
  - intros c. destruct (B1 c) as (? & ? & ?), (B2 c) as (? & ? & ?). split_and!; congruence.
Qed.
Lemma others_level i j h h' l : others i h h' → j ≠ i → level h j l → level h' j l.
Proof. intros [Ho _] Hj. apply linked_frame; intros x _; by destruct (Ho j x Hj). Qed.
Lemma others_slot i j h h' a : others i h h' → slot h a j → slot h' a j.
Proof. intros [_ Ho]. apply slot_info. intros b. apply Ho. Qed.

Lemma link_levels_ok p (U V : nat → list Z) prevs : ∀ n i h,
  (∀ j, (i ≤ j < i + n)%nat → level h j (U j ++ V j) ∧ NoDup (U j ++ V j) ∧ p ∉ U j ++ V j ∧ slot h p j ∧
     (∀ a, a ∈ U j ++ V j → slot h a j) ∧ (∃ a, list.last (U j) = Some a ∧ prevs !! j = Some a) ∧ V j ≠ []) →
  ∃ h', link_levels h p prevs i n = Ok h' ∧ (∀ j, (i ≤ j < i + n)%nat → level h' j (U j ++ p :: V j)) ∧ others_in i n h h'.
Proof.
  induction n as [|n IH]; intros i h Hall.
  { exists h. split_and!; [done|lia|]. split; [done|]. by intros c. }
  destruct (Hall i ltac:(lia)) as (Hl & Hnd & Hp & Sp & Ss & (a & Ha & Hprev) & HV).
  apply last_Some in Ha as [U' HU]. destruct (V i) as [|b V'] eqn:HVi; [done|].
  rewrite HU, <-(assoc_L (++)) in Hl, Hnd, Hp, Ss. simpl in Hl, Hnd, Hp, Ss.
  destruct (link_level h p i U' a b V' Hl Hnd Hp Sp) as (h1 & h2 & h3 & h4 & E1 & E2 & E3 & E4 & Hl4 & Ho);
    [apply Ss; set_solver|apply Ss; set_solver|].
  simpl. rewrite Hprev. simpl. rewrite (next_at_ok _ _ _ b) by (by apply (linked_next _ _ _ _ _ _ Hl)). simpl.
  rewrite E1. simpl. rewrite E2. simpl. rewrite E3. simpl. rewrite E4. simpl.
  destruct (IH (S i) h4) as (h' & Hh' & Hlv & Ho').
  { intros j Hj. destruct (Hall j ltac:(lia)) as (Gl & Gnd & Gp & Gsp & Gss & Gprev & GV).
    split_and!; try done; [apply (others_level i j h h4); [done|lia|done]|by eapply others_slot|].
    intros c Hc. eapply others_slot; [done|by apply Gss]. }
  exists h'. split; [done|]. split; [|by eapply others_in_cons].
  intros j Hj. destruct (decide (j = i)) as [->|Hne]; [|apply Hlv; lia].
  rewrite HVi, HU, <-(assoc_L (++)). simpl. destruct Ho' as [Ho' _].
  eapply linked_frame; [| |exact Hl4]; intros x _; by destruct (Ho' i x ltac:(lia)).
Qed.

(** A group is not affected by changes elsewhere. *)
Lemma group_frame h h' g : (∀ a, a ∈ (ring g).*1 → rn h' a = rn h a ∧ rp h' a = rp h a ∧ info h' a = info h a) →
  group_ok h g → group_ok h' g.
Proof.
  intros Hf [H1 H2 H3 H4 H5]. assert (g_addr g ∈ (ring g).*1) as Hg by (simpl; apply elem_of_cons; by left).
  assert (∀ x, x ∈ (ring g).*1 ++ [g_addr g] → x ∈ (ring g).*1) as Hin.
  { intros x [?|[=->]%list_elem_of_singleton]%elem_of_app; done. }
  constructor; try done.
  - eapply linked_frame; [| |exact H1]; intros x Hx; apply Hf, Hin; [by apply front_elem|].
    destruct ((ring g).*1 ++ [g_addr g]); [done|]. simpl in Hx. apply elem_of_cons. by right.
  - destruct (Hf _ Hg) as (_ & _ & ->). done.
  - rewrite Forall_forall in H5 |- *. intros [b y] Hb. destruct (H5 (b, y) Hb) as [Hi Ht]. split; [|done].
    destruct (Hf b) as (_ & _ & ->); [|done]. simpl. apply elem_of_cons. right. apply list_elem_of_fmap. by exists (b, y).
Qed.

Lemma groups_frame h h' gs : (∀ a, a ∈ addrs gs → rn h' a = rn h a ∧ rp h' a = rp h a ∧ info h' a = info h a) →
  Forall (group_ok h) gs → Forall (group_ok h') gs.
Proof.
  rewrite !Forall_forall. intros Hf Hgs g Hg. eapply group_frame; [|by apply Hgs]. intros a Ha. apply Hf.
  unfold addrs. apply list_elem_of_fmap in Ha as ([b y] & -> & Hb). apply list_elem_of_fmap. exists (b, y).
  split; [done|]. apply pairs_elem. eauto.
Qed.

(** The slots of the nodes on a level. *)
Lemma slot_head h g i : group_ok h g → (i < g_level g)%nat → slot h (g_addr g) i.
Proof. intros [_ Hh _ _ _] Hi. unfold node_info in Hh. eexists _, _, _, _. split; [exact Hh|done]. Qed.
Lemma level_slots s gs i a : rep s gs → (i < MAX)%nat → a ∈ pHeader_ s :: heads i gs ++ [pTail_ s] → slot (nodes s) a i.
Proof.
  intros Hr Hi [->|[Ha|[=->]%list_elem_of_singleton]%elem_of_app]%elem_of_cons.
  - eexists _, _, _, _. split; [apply (r_header _ _ Hr)|done].
  - apply heads_elem in Ha as (g & Hg & Hk & ->). apply slot_head; [|done]. by apply (proj1 (Forall_forall _ _) (r_groups _ _ Hr)).
  - eexists _, _, _, _. split; [apply (r_tail _ _ Hr)|done].
Qed.
Lemma level_nodup s gs i : rep s gs → NoDup (pHeader_ s :: heads i gs ++ [pTail_ s]).
Proof.
  intros Hr. pose proof (r_nodup _ _ Hr) as Hnd. apply NoDup_cons in Hnd as [Hh Hnd]. apply NoDup_cons in Hnd as [Ht Hnd].
  apply not_elem_of_cons in Hh as [Hh1 Hh2]. apply NoDup_cons. split.
  - intros [?%heads_addrs|?%list_elem_of_singleton]%elem_of_app; done.
  - apply NoDup_app. split_and!; [by apply heads_nodup| |apply NoDup_singleton].
    intros a Ha%heads_addrs ->%list_elem_of_singleton. done.
Qed.
Lemma level_elem s gs i a : a ∈ pHeader_ s :: heads i gs ++ [pTail_ s] → a ∈ pHeader_ s :: pTail_ s :: addrs gs.
Proof. rewrite !elem_of_cons, elem_of_app, list_elem_of_singleton. intros [?|[?%heads_addrs|?]]; auto. Qed.

(** ** [insert] *)
Lemma split_time gs e : StronglySorted (λ g g', g_time g > g_time g') gs →
  ∃ g1 g2 : list group, gs = g1 ++ g2 ∧ Forall (λ g, g_time g >= e) g1 ∧ Forall (λ g, g_time g < e) g2.
Proof.
  induction 1 as [|g gs Hs IH Hall]; [by exists [], []|]. destruct IH as (g1 & g2 & -> & H1 & H2).
  destruct (decide (g_time g >= e)) as [Hg|Hg].
  - exists (g :: g1), g2. split_and!; [done|by constructor|done].
  - exists [], (g :: g1 ++ g2). split_and!; [done|constructor|]. constructor; [lia|].
    eapply Forall_impl; [exact Hall|]. simpl. lia.
Qed.
Lemma entries_ge h gs e : Forall (group_ok h) gs → Forall (λ g, g_time g >= e) gs → Forall (λ y, e_time y >= e) (entries gs).
Proof.
  intros Hok Hgs. apply Forall_forall. intros y (a & g & Hy & Hg)%entries_elem. rewrite Forall_forall in Hok, Hgs.
  rewrite (ring_time h g a y) by auto. by apply Hgs.
Qed.
Lemma entries_lt h gs e : Forall (group_ok h) gs → Forall (λ g, g_time g < e) gs → Forall (λ y, e_time y < e) (entries gs).
Proof.
  intros Hok Hgs. apply Forall_forall. intros y (a & g & Hy & Hg)%entries_elem. rewrite Forall_forall in Hok, Hgs.
  rewrite (ring_time h g a y) by auto. by apply Hgs.
Qed.

(** The views of a heap with a new node. *)
Lemma new_node_views h p n : ∀ b, b ≠ p →
  (∀ j, nx (<[p := n]> h) j b = nx h j b ∧ pv (<[p := n]> h) j b = pv h j b) ∧
  rn (<[p := n]> h) b = rn h b ∧ rp (<[p := n]> h) b = rp h b ∧ info (<[p := n]> h) b = info h b.
Proof. intros b Hb. unfold nx, pv, rn, rp, info. rewrite lookup_insert_ne by done. done. Qed.

Lemma fresh_node s gs : rep s gs → let p := fresh (dom (nodes s)) in
  nodes s !! p = None ∧ p ∉ pHeader_ s :: pTail_ s :: addrs gs.
Proof.
  intros Hr p. assert (nodes s !! p = None) as Hp by (apply not_elem_of_dom, is_fresh). split; [done|].
  intros Hin. assert (is_Some (nodes s !! p)) as [? ?]; [|congruence].
  rewrite !elem_of_cons in Hin. destruct Hin as [->|[->|Hin]].
  - destruct (info_get _ _ _ _ _ _ (r_header _ _ Hr)) as (n & _ & ? & _). eauto.
  - destruct (info_get _ _ _ _ _ _ (r_tail _ _ Hr)) as (n & _ & ? & _). eauto.
  - by eapply rep_is_Some.
Qed.

(** The map of the nodes by id. *)
Lemma map_insert_ok s gs x p (y : entry T) gs' : rep s gs → x ∉ e_id <$> entries gs → e_id y = x →
  pairs gs' ≡ₚ (p, y) :: pairs gs →
  ∀ z a, map_insert (nodeMap_ s) x p !! z = Some a ↔ ∃ w, (a, w) ∈ pairs gs' ∧ e_id w = z.
Proof.
  intros Hr Hx Hy Hperm z a. unfold map_insert.
  destruct (nodeMap_ s !! x) as [q|] eqn:E.
  { apply (r_map _ _ Hr) in E as (w & Hw & Hwx). destruct Hx. rewrite <-Hwx. apply list_elem_of_fmap. exists w.
    split; [done|]. unfold entries. apply list_elem_of_fmap. by exists (q, w). }
  setoid_rewrite Hperm. setoid_rewrite elem_of_cons. destruct (decide (z = x)) as [->|Hne].
  - rewrite lookup_insert_eq. split.
    + intros [= <-]. exists y. auto.
    + intros (w & [[= -> ->]|Hw] & Hwx); [done|].
      assert (nodeMap_ s !! x = Some a) by (apply (r_map _ _ Hr); eauto). congruence.
  - rewrite lookup_insert_ne by done. rewrite (r_map _ _ Hr). split.
    + intros (w & Hw & Hz). eauto.
    + intros (w & [[= -> ->]|Hw] & Hwz); [congruence|eauto].
Qed.

Lemma sorted_insert (g1 g2 : list group) g : StronglySorted (λ g g', g_time g > g_time g') (g1 ++ g2) →
  Forall (λ g', g_time g' > g_time g) g1 → Forall (λ g', g_time g' < g_time g) g2 →
  StronglySorted (λ g g', g_time g > g_time g') (g1 ++ g :: g2).
Proof.
  induction g1 as [|g' g1 IH]; simpl; intros Hs H1 H2.
  - constructor; [done|]. eapply Forall_impl; [exact H2|]. simpl. intros. lia.
  - inversion Hs as [|? ? Hs' Hall]; subst. inversion H1; subst. constructor; [by apply IH|].
    apply Forall_app in Hall as [Ha Hb]. apply Forall_app. split; [done|]. by constructor.
Qed.
Lemma pairs_insert (g1 g2 : list group) g p y : ring g = [(p, y)] → pairs (g1 ++ g :: g2) ≡ₚ (p, y) :: pairs (g1 ++ g2).
Proof.
  intros Hg. change (g :: g2) with ([g] ++ g2). rewrite !pairs_app, pairs_one, Hg. simpl. by rewrite <-Permutation_middle.
Qed.

(** What the new pair means for addresses and ids. *)
Lemma rep_nodups s gs gs' p (y : entry T) : rep s gs → pairs gs' ≡ₚ (p, y) :: pairs gs →
  p ∉ pHeader_ s :: pTail_ s :: addrs gs → e_id y ∉ e_id <$> entries gs →
  NoDup (pHeader_ s :: pTail_ s :: addrs gs') ∧ NoDup (e_id <$> entries gs').
Proof.
  intros Hr Hperm Hp Hy. unfold addrs, entries in *. rewrite !Hperm. simpl. split.
  - pose proof (r_nodup _ _ Hr) as Hnd. unfold addrs in Hnd.
    assert (pHeader_ s :: pTail_ s :: p :: (pairs gs).*1 ≡ₚ p :: pHeader_ s :: pTail_ s :: (pairs gs).*1) as ->.
    { rewrite (Permutation_swap p (pTail_ s)). apply Permutation_swap. }
    apply NoDup_cons. done.
  - apply NoDup_cons. split; [done|]. apply (r_ids _ _ Hr).
Qed.

(** A node of its own time joins the skip list. *)
Lemma insert_new s (g1 g2 : list group) p x e d lv prevs :
  rep s (g1 ++ g2) → Forall (λ g, g_time g > e) g1 → Forall (λ g, g_time g < e) g2 → time_ok e →
  x ∉ e_id <$> entries (g1 ++ g2) → p ∉ pHeader_ s :: pTail_ s :: addrs (g1 ++ g2) →
  (1 ≤ lv ≤ MAX)%nat → (∀ j, (j < lv)%nat → prevs !! j = Some (before s g1 j)) →
  ∃ h', link_levels (<[p := Node e (Some x) (Some d) (replicate lv (None, None)) (p, p)]> (nodes s)) p prevs 0 lv = Ok h' ∧
    rep (Make h' (Z.max (maxCurLevel_ s) (Z.of_nat lv)) (pHeader_ s) (pTail_ s) (map_insert (nodeMap_ s) x p))
      (g1 ++ Group lv p (Entry e x d) [] :: g2).
Proof.
  intros Hr H1 H2 Ht Hx Hp Hlv Hprev. set (n := Node e (Some x) (Some d) (replicate lv (None, None)) (p, p)).
  set (h0 := <[p := n]> (nodes s)). set (g := Group lv p (Entry e x d) []).
  pose proof (new_node_views (nodes s) p n) as Hv. fold h0 in Hv.
  set (U := λ j, pHeader_ s :: heads j g1). set (V := λ j, heads j g2 ++ [pTail_ s]).
  assert (∀ j, U j ++ V j = pHeader_ s :: heads j (g1 ++ g2) ++ [pTail_ s]) as HUV.
  { intros j. unfold U, V. rewrite heads_app. simpl. by rewrite (assoc_L (++)). }
  assert (∀ j a, a ∈ U j ++ V j → a ≠ p) as Hne.
  { intros j a Ha ->. rewrite HUV in Ha. by apply level_elem, Hp in Ha. }
  destruct (link_levels_ok p U V prevs lv 0%nat h0) as (h' & Hh' & Hin & Hout & Hother).
  { intros j Hj. assert (j < MAX)%nat as HjM by lia. split_and!.
    - eapply linked_frame; [| |rewrite HUV; exact (r_levels _ _ Hr j HjM)].
      + intros a Ha%front_elem. by apply Hv, (Hne j).
      + intros a Ha. apply Hv, (Hne j). destruct (U j ++ V j); [done|]. simpl in Ha. set_solver.
    - rewrite HUV. by apply level_nodup.
    - intros Ha. by apply (Hne j) in Ha.
    - eexists _, _, _, _. split; [unfold info, h0; by rewrite lookup_insert_eq|]. simpl. rewrite length_replicate. lia.
    - intros a Ha. destruct (level_slots s _ j a Hr HjM) as (e' & x' & d' & k & Hi & Hk); [by rewrite <-HUV|].
      exists e', x', d', k. split; [|done]. destruct (Hv a) as (_ & _ & _ & ->); [by apply (Hne j)|done].
    - exists (before s g1 j). split; [|apply Hprev; lia]. unfold U, before. rewrite last_cons. by destruct (list.last _).
    - unfold V. by destruct (heads j g2). }
  exists h'. split; [done|].
  assert (pairs (g1 ++ g :: g2) ≡ₚ (p, Entry e x d) :: pairs (g1 ++ g2)) as Hperm by (by apply pairs_insert).
  pose proof (rep_nodups _ _ _ _ _ Hr Hperm Hp Hx) as Hnds.
  assert (∀ a, a ≠ p → rn h' a = rn (nodes s) a ∧ rp h' a = rp (nodes s) a ∧ info h' a = info (nodes s) a) as Hsame.
  { intros a Ha. destruct (Hother a) as (-> & -> & ->), (Hv a Ha) as (_ & ? & ? & ?). done. }
  pose proof (r_nodup _ _ Hr) as Hnd. rewrite !not_elem_of_cons, addrs_app, not_elem_of_app in Hp. destruct Hp as (Hp1 & Hp2 & Hp3 & Hp4).
  pose proof (r_groups _ _ Hr) as Hgs. apply Forall_app in Hgs as [Hg1 Hg2].
  constructor; cbn [nodes maxCurLevel_ pHeader_ pTail_ nodeMap_].
  - intros i Hi. rewrite heads_app. destruct (decide (i < lv)%nat) as [Hl|Hl].
    + rewrite heads_cons by done. specialize (Hin i ltac:(lia)). unfold U, V in Hin.
      rewrite <-(assoc_L (++)). exact Hin.
    + rewrite heads_skip by done.
      pose proof (r_levels _ _ Hr i Hi) as Hli. pose proof (HUV i) as HUVi. rewrite <-HUVi in Hli.
      rewrite heads_app in HUVi. rewrite <-HUVi.
      assert (∀ a, a ∈ U i ++ V i → nx h' i a = nx (nodes s) i a ∧ pv h' i a = pv (nodes s) i a) as Hlev.
      { intros a Ha. destruct (Hout i a ltac:(lia)) as [-> ->], (Hv a (Hne i a Ha)) as (Hj & _). apply Hj. }
      eapply linked_frame; [| |exact Hli]; intros a Ha; apply Hlev; [by apply front_elem|].
      destruct (U i ++ V i); [done|]. simpl in Ha. set_solver.
  - apply Forall_app. split; [|constructor].
    + eapply groups_frame; [|exact Hg1]. intros a Ha. apply Hsame. by intros ->.
    + destruct (Hother p) as (Hrn & Hrp & Hi). unfold rn, rp, info, h0 in Hrn, Hrp, Hi. rewrite lookup_insert_eq in Hrn, Hrp, Hi.
      constructor; simpl; try done; [|lia]. unfold info. rewrite Hi. simpl. by rewrite length_replicate.
    + eapply groups_frame; [|exact Hg2]. intros a Ha. apply Hsame. by intros ->.
  - destruct (Hsame (pHeader_ s)) as (_ & _ & ->); [done|]. apply (r_header _ _ Hr).
  - destruct (Hsame (pTail_ s)) as (_ & _ & ->); [done|]. apply (r_tail _ _ Hr).
  - apply Hnds.
  - apply sorted_insert; [apply (r_times _ _ Hr)|done|done].
  - apply Hnds.
  - exact (map_insert_ok s (g1 ++ g2) x p (Entry e x d) _ Hr Hx eq_refl Hperm).
  - pose proof (r_max _ _ Hr) as [Hm Hall]. split; [lia|]. apply Forall_app in Hall as [Ha Hb]. apply Forall_app.
    split; [|constructor; [simpl; lia|]]; (eapply Forall_impl; [eassumption|]); simpl; lia.
Qed.

(** Replacing a group by one with the same time. *)
Lemma sorted_replace (g1 g2 : list group) g g' : g_time g' = g_time g →
  StronglySorted (λ g g', g_time g > g_time g') (g1 ++ g :: g2) → StronglySorted (λ g g', g_time g > g_time g') (g1 ++ g' :: g2).
Proof.
  intros Ht. induction g1 as [|k g1 IH]; simpl; intros Hs; inversion Hs as [|? ? Hs' Hall]; subst; constructor; auto.
  - eapply Forall_impl; [exact Hall|]. simpl. intros. lia.
  - apply Forall_app in Hall as [Ha Hb]. apply Forall_app. split; [done|]. inversion Hb; subst. constructor; [lia|done].
Qed.
Lemma pairs_mid (g1 g2 : list group) g : pairs (g1 ++ g :: g2) = pairs g1 ++ ring g ++ pairs g2.
Proof. change (g :: g2) with ([g] ++ g2). by rewrite !pairs_app, pairs_one. Qed.
Lemma addrs_mid (g1 g2 : list group) g : addrs (g1 ++ g :: g2) = addrs g1 ++ (ring g).*1 ++ addrs g2.
Proof. unfold addrs. by rewrite pairs_mid, !fmap_app. Qed.
Lemma ring_addr g : g_addr g ∈ (ring g).*1.
Proof. simpl. apply elem_of_cons. by left. Qed.

(** The addresses of a ring, and of the others. *)
Lemma ring_nodup s (g1 g2 : list group) g : rep s (g1 ++ g :: g2) →
  NoDup (ring g).*1 ∧ pHeader_ s ∉ (ring g).*1 ∧ pTail_ s ∉ (ring g).*1 ∧
  (∀ a, a ∈ addrs g1 → a ∉ (ring g).*1) ∧ (∀ a, a ∈ addrs g2 → a ∉ (ring g).*1).
Proof.
  intros Hr. pose proof (r_nodup _ _ Hr) as Hnd. rewrite addrs_mid in Hnd.
  apply NoDup_cons in Hnd as [Hh Hnd]. apply NoDup_cons in Hnd as [Ht Hnd].
  rewrite not_elem_of_cons, !elem_of_app in Hh. rewrite !elem_of_app in Ht.
  apply NoDup_app in Hnd as (_ & Hd1 & Hnd). apply NoDup_app in Hnd as (Hn & Hd2 & _). split_and!; try done; try tauto.
  - intros a Ha Hin. apply (Hd1 a Ha). apply elem_of_app. by left.
  - intros a Ha Hin. by apply (Hd2 a Hin).
Qed.

(** A node joins the ring of its time. *)
(** A node joins a ring behind its last node [z]; [a] is the head of the ring. *)
Lemma ring_joins (f k f' k' : Z → option Z) (L : list Z) z a p r : L ++ [z] = a :: r → NoDup (L ++ [z]) → p ∉ L ++ [z] → linked f k (L ++ [z; a]) →
  f' z = Some p → f' p = Some a → k' p = Some z → k' a = Some p →
  (∀ c, c ≠ z → c ≠ p → f' c = f c) → (∀ c, c ≠ a → c ≠ p → k' c = k c) → linked f' k' (L ++ [z; p; a]).
Proof.
  intros Hh Hnd Hp Hl H1 H2 H3 H4 Hf Hg. eapply linked_splice; [exact Hl|done..| |].
  - intros c [Hin|Hin]; [|by apply not_elem_of_nil in Hin]. pose proof Hnd as (_ & Hzl & _)%NoDup_app.
    apply Hf; [intros ->; apply (Hzl z Hin); by apply list_elem_of_singleton|intros ->; apply Hp; apply elem_of_app; by left].
  - intros c [Hin|Hin]; [|by apply not_elem_of_nil in Hin]. apply Hg.
    + intros ->. rewrite Hh in Hin, Hnd. by apply NoDup_cons in Hnd as [Hn _].
    + intros ->. apply Hp. rewrite elem_of_app, list_elem_of_singleton. by apply tail_snoc_elem.
Qed.

Lemma insert_ring s (g1 g2 : list group) g p x d z y0 l :
  rep s (g1 ++ g :: g2) → ring g = l ++ [(z, y0)] →
  x ∉ e_id <$> entries (g1 ++ g :: g2) → p ∉ pHeader_ s :: pTail_ s :: addrs (g1 ++ g :: g2) →
  ∃ h1 h2, set_ring_prev (<[p := Node (g_time g) (Some x) (Some d) [] (g_addr g, z)]> (nodes s)) (g_addr g) p = Ok h1 ∧
    set_ring_next h1 z p = Ok h2 ∧
    rep (Make h2 (maxCurLevel_ s) (pHeader_ s) (pTail_ s) (map_insert (nodeMap_ s) x p))
      (g1 ++ Group (g_level g) (g_addr g) (g_entry g) (g_rest g ++ [(p, Entry (g_time g) x d)]) :: g2).
Proof.
  intros Hr Hring Hx Hp. set (n := Node (g_time g) (Some x) (Some d) [] (g_addr g, z)).
  set (h0 := <[p := n]> (nodes s)). set (y := Entry (g_time g) x d). set (g' := Group _ _ _ _).
  pose proof (new_node_views (nodes s) p n) as Hv. fold h0 in Hv.
  destruct (ring_nodup _ _ _ _ Hr) as (Hnr & Hh & Ht & Hd1 & Hd2).
  assert (ring g' = ring g ++ [(p, y)]) as Hring' by done.
  assert (pairs (g1 ++ g' :: g2) ≡ₚ (p, y) :: pairs (g1 ++ g :: g2)) as Hperm.
  { rewrite !pairs_mid, Hring'. replace (pairs g1 ++ (ring g ++ [(p, y)]) ++ pairs g2) with ((pairs g1 ++ ring g) ++ (p, y) :: pairs g2)
      by (by rewrite <-!(assoc_L (++))). by rewrite <-Permutation_middle, <-(assoc_L (++)). }
  pose proof (rep_nodups _ _ _ _ _ Hr Hperm Hp Hx) as Hnds.
  rewrite !not_elem_of_cons, addrs_mid, !not_elem_of_app in Hp. destruct Hp as (Hp1 & Hp2 & Hp3 & Hp4 & Hp5).
  assert (z ∈ (ring g).*1) as Hz by (rewrite Hring, fmap_app; set_solver).
  pose proof (ring_addr g) as Ha.
  assert (∀ a, a ∈ (ring g).*1 → is_Some (h0 !! a)) as Hsome.
  { intros a Hin. unfold h0. rewrite lookup_insert_ne by (intros E; apply Hp4; by rewrite E). apply (rep_is_Some _ _ _ Hr). rewrite addrs_mid. set_solver. }
  destruct (set_ring_prev_ok h0 (g_addr g) p (Hsome _ Ha)) as (h1 & E1 & A1 & B1 & C1 & D1 & I1).
  assert (is_Some (h1 !! z)) as Hz1.
  { specialize (I1 z). unfold info in I1. destruct (Hsome z Hz) as [nz Hnz]. rewrite Hnz in I1. by destruct (h1 !! z). }
  destruct (set_ring_next_ok h1 z p Hz1) as (h2 & E2 & A2 & B2 & C2 & D2 & I2).
  exists h1, h2. split; [done|]. split; [done|].
  assert (∀ a, a ∉ (ring g).*1 → a ≠ p → rn h2 a = rn (nodes s) a ∧ rp h2 a = rp (nodes s) a ∧ info h2 a = info (nodes s) a) as Hsame.
  { intros a Hn Hnp. destruct (Hv a Hnp) as (_ & V1 & V2 & V3).
    rewrite A2, decide_False, B1, B2, A1, decide_False, I2, I1 by (by intros ->). done. }
  assert (∀ a, a ≠ p → info h2 a = info (nodes s) a) as Hinfo.
  { intros a Hnp. rewrite I2, I1. by apply Hv. }
  pose proof (r_groups _ _ Hr) as Hgs. apply Forall_app in Hgs as [Hg1 Hgs]. inversion Hgs as [|? ? Hg Hg2]; subst.
  constructor; cbn [nodes maxCurLevel_ pHeader_ pTail_ nodeMap_].
  - intros i Hi. assert (heads i (g1 ++ g' :: g2) = heads i (g1 ++ g :: g2)) as ->.
    { rewrite !heads_app. f_equal. destruct (decide (i < g_level g)%nat); [by rewrite !heads_cons|by rewrite !heads_skip]. }
    assert (∀ a, a ∈ pHeader_ s :: heads i (g1 ++ g :: g2) ++ [pTail_ s] → a ≠ p) as Hne.
    { intros a Hin ->. apply level_elem in Hin. rewrite !elem_of_cons, addrs_mid, !elem_of_app in Hin. tauto. }
    eapply linked_frame; [| |exact (r_levels _ _ Hr i Hi)].
    + intros a Hin%front_elem. rewrite C2, C1. by apply Hv, Hne.
    + intros a Hin. rewrite D2, D1. apply Hv, Hne. simpl in Hin. apply elem_of_cons. by right.
  - apply Forall_app. split; [|constructor].
    + eapply groups_frame; [|exact Hg1]. intros a Hin. apply Hsame; [by apply Hd1|by intros ->].
    + destruct Hg as [O1 O2 O3 O4 O5]. constructor; cbn [g_addr g_entry g_level g_rest g']; try done.
      * rewrite Hring', fmap_app, Hring, fmap_app, <-!(assoc_L (++)). simpl.
        rewrite Hring, fmap_app, <-(assoc_L (++)) in O1. simpl in O1.
        assert ((ring g).*1 = l.*1 ++ [z]) as Hrl by (by rewrite Hring, fmap_app). rewrite Hrl in Hnr, Hp4.
        eapply (ring_joins _ _ _ _ (l.*1) z (g_addr g) p (g_rest g).*1); [by rewrite <-Hrl|exact Hnr|exact Hp4|exact O1|..].
        -- by rewrite A2, decide_True.
        -- rewrite A2, decide_False, B1 by (intros ->; by rewrite Hrl in Hz). unfold rn, h0. by rewrite lookup_insert_eq.
        -- rewrite B2, A1, decide_False by (intros E; apply Hp4; rewrite <-Hrl, E; exact Ha). unfold rp, h0. by rewrite lookup_insert_eq.
        -- by rewrite B2, A1, decide_True.
        -- intros c Hcz Hcp. rewrite A2, decide_False, B1 by done. by apply Hv.
        -- intros c Hca Hcp. rewrite B2, A1, decide_False by done. by apply Hv.
      * rewrite Hinfo by (by intros <-). exact O2.
      * apply Forall_app. split; [|constructor; [|done]].
        -- rewrite Forall_forall in O5 |- *. intros [b w] Hb. destruct (O5 (b, w) Hb) as [Hi Hw]. split; [|done].
           rewrite Hinfo; [done|]. intros ->. apply Hp4. simpl. apply elem_of_cons. right. apply list_elem_of_fmap. by exists (p, w).
        -- split; [|done]. rewrite I2, I1. unfold info, h0. rewrite lookup_insert_eq. done.
    + eapply groups_frame; [|exact Hg2]. intros a Hin. apply Hsame; [by apply Hd2|by intros ->].
  - rewrite Hinfo by done. apply (r_header _ _ Hr).
  - rewrite Hinfo by done. apply (r_tail _ _ Hr).
  - apply Hnds.
  - eapply sorted_replace; [|exact (r_times _ _ Hr)]. done.
  - apply Hnds.
  - exact (map_insert_ok s _ x p y _ Hr Hx eq_refl Hperm).
  - pose proof (r_max _ _ Hr) as [Hm Hall]. split; [done|]. apply Forall_app in Hall as [Ha1 Hb]. inversion Hb; subst.
    apply Forall_app. split; [done|]. by constructor.
Qed.

Lemma before_high s (g1 g2 : list group) j : rep s (g1 ++ g2) → (Z.to_nat (maxCurLevel_ s) ≤ j)%nat → before s g1 j = pHeader_ s.
Proof.
  intros Hr Hj. unfold before. assert (heads j g1 = []) as ->; [|done]. unfold heads. rewrite list_filter_none; [done|].
  pose proof (r_max _ _ Hr) as [Hm Hall]. apply Forall_app in Hall as [Ha _]. eapply Forall_impl; [exact Ha|]. simpl. lia.
Qed.
Lemma before_0 s (g1 : list group) g h : Forall (group_ok h) (g1 ++ [g]) → before s (g1 ++ [g]) 0 = g_addr g.
Proof. intros Hg. unfold before. rewrite (heads_0 h) by done. rewrite fmap_app. simpl. by rewrite last_snoc. Qed.

(** The [prevNodes] of [insert]. *)
Lemma prev_nodes s (g1 g2 : list group) lv : rep s (g1 ++ g2) → ∀ j, (j < lv)%nat →
  (if bool_decide (Z.of_nat lv > maxCurLevel_ s)
   then (before s g1 <$> seq 0 (Z.to_nat (maxCurLevel_ s))) ++ replicate (lv - Z.to_nat (maxCurLevel_ s)) (pHeader_ s)
   else before s g1 <$> seq 0 (Z.to_nat (maxCurLevel_ s))) !! j = Some (before s g1 j).
Proof.
  intros Hr j Hj. pose proof (r_max _ _ Hr) as [Hm _]. set (k := Z.to_nat (maxCurLevel_ s)).
  assert (∀ i, (i < k)%nat → (before s g1 <$> seq 0 k) !! i = Some (before s g1 i)) as Hlow.
  { intros i Hi. rewrite list_lookup_fmap, lookup_seq_lt by done. done. }
  case_bool_decide; [|apply Hlow; lia]. destruct (decide (j < k)%nat) as [Hk|Hk].
  - rewrite lookup_app_l by (rewrite length_fmap, length_seq; lia). by apply Hlow.
  - rewrite lookup_app_r by (rewrite length_fmap, length_seq; lia). rewrite length_fmap, length_seq.
    rewrite (before_high s g1 g2 j) by (done || lia). apply lookup_replicate_2. lia.
Qed.

Lemma insert_rep s gs lv x e d : rep s gs → (1 ≤ lv ≤ MAX)%nat → time_ok e → x ∉ e_id <$> entries gs →
  ∃ s' gs', insert lv s x e d = Ok s' ∧ rep s' gs' ∧ entries gs' = put (Entry e x d) (entries gs).
Proof.
  intros Hr Hlv Ht Hx. destruct (split_time gs e (r_times _ _ Hr)) as (g1 & g2 & -> & Hge & Hlt).
  pose proof (r_max _ _ Hr) as [Hm _]. pose proof (r_groups _ _ Hr) as Hgs. apply Forall_app in Hgs as [Hok1 Hok2].
  pose proof (fresh_node s _ Hr) as [Hp0 Hp]. unfold insert. set (p := fresh (dom (nodes s))) in *.
  assert (entries (g1 ++ g2) = entries g1 ++ entries g2) as Hent by apply entries_app.
  assert (put (Entry e x d) (entries (g1 ++ g2)) = entries g1 ++ Entry e x d :: entries g2) as Hput.
  { rewrite Hent. apply put_split; [by eapply entries_ge|by eapply entries_lt]. }
  rewrite (descend_ok s g1 g2 x e Hr Hge Hlt Ht Hx (Z.to_nat (maxCurLevel_ s))); [|lia|intros j _; apply elem_of_cons; by left].
  simpl. destruct (Z.to_nat (maxCurLevel_ s)) as [|k] eqn:Ek; [lia|]. rewrite app_nil_r, <-Ek. clear Ek k.
  assert (∀ n, get (nodes s) (before s g1 0) = Ok n → expireTime n ≠ e → Forall (λ g, g_time g > e) g1) as Hstrict.
  { intros n Hn Hne. destruct g1 as [|g g1 _] using rev_ind; [constructor|].
    rewrite (before_0 s g1 g (nodes s)) in Hn by done.
    destruct (info_get _ _ _ _ _ _ (group_head s _ g Hr ltac:(set_solver))) as (n' & Hn' & _ & Hexp & _).
    assert (n' = n) as -> by congruence. fold (g_time g) in Hexp. apply Forall_app in Hge as [Hge1 Hge2]. inversion Hge2; subst.
    pose proof (r_times _ _ Hr) as Hs. rewrite <-(assoc_L (++)) in Hs. apply Forall_app. split; [|constructor; [lia|done]].
    clear -Hs Hge1 H1 Hne. induction g1 as [|k g1 IH]; [constructor|]. simpl in Hs. inversion Hs as [|? ? Hs' Hall]; subst.
    inversion Hge1; subst. constructor; [|by apply IH]. apply Forall_app in Hall as [_ Hall]. inversion Hall; subst. lia. }
  destruct (get (nodes s) (before s g1 0)) as [n|f] eqn:Hget; [|exfalso].
  2:{ pose proof (level_slots s _ 0 (before s g1 0) Hr max_pos) as Hs.
      destruct Hs as (? & ? & ? & ? & Hs & _).
      - rewrite heads_app. pose proof (before_elem s g1 0 0 ltac:(done)). set_solver.
      - destruct (info_get _ _ _ _ _ _ Hs) as (? & ? & _). congruence. }
  simpl. case_bool_decide as Hexp.
  - destruct g1 as [|g g1 _] using rev_ind.
    { exfalso. destruct (info_get _ _ _ _ _ _ (r_header _ _ Hr)) as (n' & Hn' & _ & Hexp' & _).
      unfold before in Hget. simpl in Hget. assert (n' = n) as -> by congruence.
      unfold time_ok, CORPC_MAX_UINT64 in *. lia. }
    rewrite (before_0 s g1 g (nodes s)) in * by done.
    destruct (info_get _ _ _ _ _ _ (group_head s _ g Hr ltac:(set_solver))) as (n' & Hn' & Hnode & Hexp' & _).
    assert (n' = n) as -> by congruence. fold (g_time g) in Hexp'. assert (e = g_time g) as -> by congruence.
    destruct (ring_snoc g) as (l & [z y0] & Hring). apply Forall_app in Hok1 as [_ Hokg]. inversion Hokg as [|? ? Hg _]; subst.
    pose proof (ring_last _ _ _ _ _ Hg Hring) as Hrp. unfold rp in Hrp. rewrite Hnode in Hrp. injection Hrp as Hrp. rewrite Hrp.
    rewrite <-(assoc_L (++)) in Hr, Hx, Hp. simpl in Hr, Hx, Hp.
    destruct (insert_ring s g1 g2 g p x d z y0 l Hr Hring Hx Hp) as (h1 & h2 & E1 & E2 & Hrep).
    rewrite E1. simpl. rewrite E2. simpl. eexists _, _. split; [done|]. split; [exact Hrep|].
    rewrite Hput. unfold entries. rewrite pairs_mid, pairs_app, pairs_one, !fmap_app, <-!(assoc_L (++)).
    f_equal. unfold ring. simpl. by rewrite fmap_app, <-(assoc_L (++)).
  - specialize (Hstrict n eq_refl Hexp).
    destruct (insert_new s g1 g2 p x e d lv _ Hr Hstrict Hlt Ht Hx Hp Hlv (prev_nodes s g1 g2 lv Hr)) as (h' & Hh' & Hrep).
    rewrite Hh'. simpl. eexists _, _. split; [done|].
    replace (if bool_decide (Z.of_nat lv > maxCurLevel_ s) then Z.of_nat lv else maxCurLevel_ s)
      with (Z.max (maxCurLevel_ s) (Z.of_nat lv)) by (case_bool_decide; lia).
    split; [exact Hrep|]. rewrite Hput. unfold entries. rewrite pairs_mid, !fmap_app. done.
Qed.

(** ** [remove] *)
Lemma delete_views h p : ∀ b, b ≠ p →
  (∀ j, nx (delete p h) j b = nx h j b ∧ pv (delete p h) j b = pv h j b) ∧
  rn (delete p h) b = rn h b ∧ rp (delete p h) b = rp h b ∧ info (delete p h) b = info h b.
Proof. intros b Hb. unfold nx, pv, rn, rp, info. rewrite lookup_delete_ne by done. done. Qed.

Lemma map_delete_ok s gs gs' p (y : entry T) : rep s gs → pairs gs ≡ₚ (p, y) :: pairs gs' →
  ∀ z a, delete (e_id y) (nodeMap_ s) !! z = Some a ↔ ∃ w, (a, w) ∈ pairs gs' ∧ e_id w = z.
Proof.
  intros Hr Hperm z a. pose proof (r_ids _ _ Hr) as Hnd. unfold entries in Hnd. rewrite Hperm in Hnd. simpl in Hnd.
  apply NoDup_cons in Hnd as [Hy _]. destruct (decide (z = e_id y)) as [->|Hne].
  - rewrite lookup_delete_eq. split; [done|]. intros (w & Hw & Hwy). destruct Hy. rewrite <-Hwy.
    apply list_elem_of_fmap. exists w. split; [done|]. apply list_elem_of_fmap. by exists (a, w).
  - rewrite lookup_delete_ne by done. rewrite (r_map _ _ Hr). setoid_rewrite Hperm. setoid_rewrite elem_of_cons. split.
    + intros (w & [[= -> ->]|Hw] & Hwz); [congruence|eauto].
    + intros (w & Hw & Hwz). eauto.
Qed.

(** What is left when the node [p] with entry [y] has left all lists. *)
Lemma remove_build s gs h m p (y : entry T) gs' : rep s gs → pairs gs ≡ₚ (p, y) :: pairs gs' →
  (∀ i, (i < MAX)%nat → level h i (pHeader_ s :: heads i gs' ++ [pTail_ s])) → Forall (group_ok h) gs' →
  info h (pHeader_ s) = info (nodes s) (pHeader_ s) → info h (pTail_ s) = info (nodes s) (pTail_ s) →
  StronglySorted (λ g g', g_time g > g_time g') gs' →
  1 ≤ m ≤ Z.of_nat MAX ∧ Forall (λ g, Z.of_nat (g_level g) ≤ m) gs' →
  rep (Make (delete p h) m (pHeader_ s) (pTail_ s) (delete (e_id y) (nodeMap_ s))) gs'.
Proof.
  intros Hr Hperm Hlev Hgs Hh Ht Hs Hm.
  assert (addrs gs ≡ₚ p :: addrs gs') as Haddr by (unfold addrs; by rewrite Hperm).
  assert (NoDup (p :: pHeader_ s :: pTail_ s :: addrs gs')) as Hnd.
  { pose proof (r_nodup _ _ Hr) as Hnd. rewrite Haddr in Hnd.
    by rewrite (Permutation_swap (pHeader_ s) p), (Permutation_swap (pTail_ s) p). }
  apply NoDup_cons in Hnd as [Hp Hnd].
  assert (∀ a, a ∈ pHeader_ s :: pTail_ s :: addrs gs' → a ≠ p) as Hne by (intros a Ha ->; done).
  constructor; cbn [nodes maxCurLevel_ pHeader_ pTail_ nodeMap_]; try done.
  - intros i Hi. eapply linked_frame; [| |exact (Hlev i Hi)]; intros a Ha; apply delete_views, Hne, (level_elem s gs' i);
      [by apply front_elem|]. simpl in Ha. apply elem_of_cons. by right.
  - eapply groups_frame; [|exact Hgs]. intros a Ha. apply delete_views, Hne. rewrite !elem_of_cons. auto.
  - destruct (delete_views h p (pHeader_ s)) as (_ & _ & _ & ->); [apply Hne; rewrite !elem_of_cons; auto|]. rewrite Hh. apply (r_header _ _ Hr).
  - destruct (delete_views h p (pTail_ s)) as (_ & _ & _ & ->); [apply Hne; rewrite !elem_of_cons; auto|]. rewrite Ht. apply (r_tail _ _ Hr).
  - pose proof (r_ids _ _ Hr) as Hi. unfold entries in *. rewrite Hperm in Hi. simpl in Hi. by apply NoDup_cons in Hi as [_ ?].
  - exact (map_delete_ok s gs gs' p y Hr Hperm).
Qed.

(** The end of [remove], once the node has left the lists. *)
Lemma remove_end (h : heap) a (y : entry T) k : info h a = Some (node_info y k) →
  ∃ n, get h a = Ok n ∧ id n = Some (e_id y).
Proof. intros Hi. destruct (info_get _ _ _ _ _ _ Hi) as (n & ? & _ & _ & ? & _). eauto. Qed.

(** The neighbours [u] and [b] of the node [p] in a ring with head [a]. *)
Lemma ring_around (a p : Z) (r1 r2 : list Z) : NoDup (a :: r1 ++ p :: r2) →
  ∃ L u b R, a :: r1 = L ++ [u] ∧ r2 ++ [a] = b :: R ∧ u ∉ L ∧ u ∉ r2 ∧ u ≠ p ∧ b ≠ p ∧ b ∉ r1 ∧ b ∉ R ∧
    u ∈ a :: r1 ++ p :: r2 ∧ b ∈ a :: r1 ++ p :: r2.
Proof.
  intros Hnd. destruct (exists_last (l := a :: r1)) as (L & u & HL); [done|].
  change (a :: r1 ++ p :: r2) with ((a :: r1) ++ p :: r2) in *.
  pose proof Hnd as (N1 & Hd & N2)%NoDup_app. pose proof N1 as [Na _]%NoDup_cons. rewrite HL in N1. apply NoDup_app in N1 as (_ & Hu & _).
  apply NoDup_cons in N2 as [Np N2]. rewrite HL in Hd |- *.
  assert (u ∈ L ++ [u]) as Hul by (apply elem_of_app; right; by apply list_elem_of_singleton).
  assert (a ∈ L ++ [u]) as Hal by (rewrite <-HL; apply elem_of_cons; by left).
  assert (∀ x, x ∈ r1 → x ∈ L ++ [u]) as Hr1 by (intros x Hx; rewrite <-HL; apply elem_of_cons; by right).
  assert (∀ x, x ∈ L ++ [u] → x ≠ p ∧ x ∉ r2) as Hout.
  { intros x Hx. specialize (Hd x Hx). by apply not_elem_of_cons in Hd. }
  exists L, u. destruct r2 as [|b R].
  - exists a, []. split_and!; try done; try (by apply Hout); try (apply elem_of_app; by left); try (by apply not_elem_of_nil).
    intros Hx. by apply (Hu u Hx), list_elem_of_singleton.
  - exists b, (R ++ [a]). apply NoDup_cons in N2 as [Nb _]. split_and!; try done; try (by apply Hout); try (apply elem_of_app; by left).
    + intros Hx. by apply (Hu u Hx), list_elem_of_singleton.
    + intros ->. apply Np, elem_of_cons. by left.
    + intros Hx. apply Hr1 in Hx. destruct (Hout b Hx) as [_ Hb]. apply Hb, elem_of_cons. by left.
    + intros [?| ->%list_elem_of_singleton]%elem_of_app; [done|]. destruct (Hout a Hal) as [_ Hb]. apply Hb, elem_of_cons. by left.
    + apply elem_of_app. right. apply elem_of_cons. right. apply elem_of_cons. by left.
Qed.

(** A node of a ring that is not its head. *)
Lemma remove_rest s (g1 g2 : list group) g r1 p y r2 : rep s (g1 ++ g :: g2) → g_rest g = r1 ++ (p, y) :: r2 →
  ∃ s', remove s p = Ok s' ∧ rep s' (g1 ++ Group (g_level g) (g_addr g) (g_entry g) (r1 ++ r2) :: g2).
Proof.
  intros Hr Hrest. set (g' := Group _ _ _ _).
  destruct (ring_nodup _ _ _ _ Hr) as (Hnr & Hh & Ht & Hd1 & Hd2).
  pose proof (r_groups _ _ Hr) as Hgs. apply Forall_app in Hgs as [Hg1 Hgs]. inversion Hgs as [|? ? Hg Hg2]; subst.
  destruct Hg as [O1 O2 O3 O4 O5].
  assert ((p, y) ∈ g_rest g) as Hpy by (rewrite Hrest; set_solver).
  pose proof (proj1 (Forall_forall _ _) O5 _ Hpy) as [Hpi _].
  assert ((ring g).*1 = g_addr g :: r1.*1 ++ p :: r2.*1) as Hring by (unfold ring; simpl; by rewrite Hrest, fmap_app).
  destruct (ring_around (g_addr g) p (r1.*1) (r2.*1)) as (L & u & b & R & HL & HR & U1 & U2 & U3 & B1 & B2 & B3 & Iu & Ib);
    [by rewrite <-Hring|]. rewrite <-Hring in Iu, Ib.
  assert ((ring g).*1 ++ [g_addr g] = L ++ u :: p :: b :: R) as Hclosed.
  { rewrite Hring, <-HR. change (g_addr g :: ?x ++ ?y) with ((g_addr g :: x) ++ y). rewrite HL, <-!(assoc_L (++)). done. }
  rewrite Hclosed in O1. pose proof (linked_next _ _ _ _ _ _ O1) as [Hnu Hpp].
  assert (rn (nodes s) p = Some b) as Hnp.
  { change (L ++ u :: p :: b :: R) with (L ++ [u] ++ p :: b :: R) in O1. rewrite (assoc_L (++)) in O1. by apply linked_next in O1 as [? _]. }
  assert (∀ a, a ∈ (ring g).*1 → is_Some (nodes s !! a)) as Hsome.
  { intros a Hin. apply (rep_is_Some _ _ _ Hr). rewrite addrs_mid, !elem_of_app. auto. }
  destruct (set_ring_next_ok (nodes s) u b (Hsome u Iu)) as (h1 & E1 & A1 & B1' & C1 & D1 & I1).
  assert (is_Some (h1 !! b)) as Hb1.
  { specialize (I1 b). unfold info in I1. destruct (Hsome b Ib) as [nb Hnb]. rewrite Hnb in I1. by destruct (h1 !! b). }
  destruct (set_ring_prev_ok h1 b u Hb1) as (h2 & E2 & A2 & B2' & C2 & D2 & I2).
  unfold remove. destruct (info_get _ _ _ _ _ _ Hpi) as (nd & -> & Hnd & _ & Hidn & _ & Hlen). simpl.
  rewrite bool_decide_true by done. unfold rn in Hnp. unfold rp in Hpp. rewrite Hnd in Hnp, Hpp. simpl in Hnp, Hpp.
  injection Hnp as ->. injection Hpp as ->. unfold require. rewrite decide_True by done. simpl. rewrite E1. simpl. rewrite E2. simpl.
  destruct (remove_end h2 p y 0) as (nd' & -> & Hid'); [by rewrite I2, I1|]. simpl. rewrite Hid'. simpl.
  eexists. split; [done|].
  assert (pairs (g1 ++ g :: g2) ≡ₚ (p, y) :: pairs (g1 ++ g' :: g2)) as Hperm.
  { rewrite !pairs_mid. unfold ring. rewrite Hrest. cbn [g' g_addr g_entry g_rest].
    replace (pairs g1 ++ ((g_addr g, g_entry g) :: r1 ++ (p, y) :: r2) ++ pairs g2)
      with ((pairs g1 ++ (g_addr g, g_entry g) :: r1) ++ (p, y) :: r2 ++ pairs g2) by (by rewrite <-(assoc_L (++)); simpl; rewrite <-(assoc_L (++))).
    rewrite <-Permutation_middle. f_equiv. rewrite <-(assoc_L (++)). simpl. by rewrite <-(assoc_L (++)). }
  eapply (remove_build s _ h2 _ p y _ Hr Hperm); try (rewrite I2, I1; done).
  - intros i Hi. assert (heads i (g1 ++ g' :: g2) = heads i (g1 ++ g :: g2)) as ->.
    { rewrite !heads_app. f_equal. destruct (decide (i < g_level g)%nat); [by rewrite !heads_cons|by rewrite !heads_skip]. }
    eapply linked_frame; [| |exact (r_levels _ _ Hr i Hi)]; intros a _; [by rewrite C2, C1|by rewrite D2, D1].
  - assert (∀ a, a ≠ u → a ≠ b → rn h2 a = rn (nodes s) a ∧ rp h2 a = rp (nodes s) a ∧ info h2 a = info (nodes s) a) as Hsame.
    { intros a Hau Hab. rewrite B2', A1, decide_False, A2, decide_False, B1', I2, I1 by done. done. }
    apply Forall_app. split; [|constructor].
    + eapply groups_frame; [|exact Hg1]. intros a Hin. apply Hsame; intros ->; by apply (Hd1 _ Hin).
    + constructor; cbn [g' g_addr g_entry g_level g_rest]; try done; [|by rewrite I2, I1|].
      * replace ((ring g').*1 ++ [g_addr g]) with (L ++ u :: b :: R).
        2:{ unfold ring. cbn [g' g_addr g_entry g_rest]. simpl. rewrite fmap_app, <-(assoc_L (++)), HR.
            change (g_addr g :: r1.*1 ++ b :: R) with ((g_addr g :: r1.*1) ++ b :: R). by rewrite HL, <-(assoc_L (++)). }
        eapply linked_unsplice; [exact O1|by rewrite B2', A1, decide_True|by rewrite A2, decide_True|..].
        -- intros a Ha. rewrite B2', A1, decide_False; [done|]. intros ->. destruct Ha as [?|Ha]; [done|].
           apply U2. rewrite <-HR in Ha. by rewrite front_snoc in Ha.
        -- intros a Ha. rewrite A2, decide_False, B1'; [done|]. intros ->. destruct Ha as [Ha|?]; [|done].
           rewrite <-HL in Ha. simpl in Ha. done.
      * rewrite Hrest in O5. apply Forall_app in O5 as [Oa Ob]. inversion Ob; subst.
        apply Forall_app. split; (eapply Forall_impl; [eassumption|]); intros [c w] [? ?]; by rewrite I2, I1.
    + eapply groups_frame; [|exact Hg2]. intros a Hin. apply Hsame; intros ->; by apply (Hd2 _ Hin).
  - eapply sorted_replace; [|exact (r_times _ _ Hr)]. done.
  - pose proof (r_max _ _ Hr) as [Hm Hall]. split; [done|]. apply Forall_app in Hall as [Ha1 Hb]. inversion Hb; subst.
    apply Forall_app. split; [done|]. by constructor.
Qed.

(** The loop of [remove] for a node [a] that leaves the skip list.  [K] is the
    level of the remaining nodes: below it no level becomes empty. *)
Lemma unlink_levels_ok s a (U V : nat → list Z) (K : Z) : ∀ n i h m,
  (∀ j, (i ≤ j < i + n)%nat → level h j (U j ++ a :: V j) ∧ NoDup (U j ++ a :: V j) ∧
     (∀ c, c ∈ U j ++ a :: V j → slot h c j) ∧
     (∃ u, list.last (U j) = Some u ∧ ∃ v, head (V j) = Some v ∧ (j ≠ 0%nat → u = pHeader_ s → v = pTail_ s → K ≤ Z.of_nat j))) →
  1 ≤ K → K + Z.max 0 (Z.of_nat (i + n) - Z.max (Z.of_nat i) K) ≤ m < 2^32 →
  ∃ h' m', unlink_levels s h m a i n = Ok (h', m') ∧ (∀ j, (i ≤ j < i + n)%nat → level h' j (U j ++ V j)) ∧
    others_in i n h h' ∧ K ≤ m' ≤ m.
Proof.
  induction n as [|n IH]; intros i h m Hall HK Hm.
  { exists h, m. split_and!; [done|lia| |lia|lia]. split; [done|]. by intros c. }
  destruct (Hall i ltac:(lia)) as (Hl & Hnd & Ss & u & Hu & v & Hv & Hsole).
  apply last_Some in Hu as [U' HU]. destruct (V i) as [|v' V'] eqn:HVi; [done|]. injection Hv as ->.
  rewrite HU, <-(assoc_L (++)) in Hl, Hnd, Ss. simpl in Hl, Hnd, Ss.
  destruct (unlink_level h a i U' u v V' Hl Hnd) as (h1 & h2 & E1 & E2 & Hl2 & Ho & _); [apply Ss; set_solver|apply Ss; set_solver|].
  pose proof (linked_next _ _ _ _ _ _ Hl) as [_ Hprev].
  assert (nx h i a = Some v) as Hnext.
  { change (U' ++ u :: a :: v :: V') with (U' ++ [u] ++ a :: v :: V') in Hl. rewrite (assoc_L (++)) in Hl. by apply linked_next in Hl as [? _]. }
  cbn [unlink_levels]. rewrite (prev_at_ok _ _ _ _ Hprev). simpl. rewrite (next_at_ok _ _ _ _ Hnext). simpl. rewrite E1. simpl. rewrite E2. simpl.
  set (m1 := if bool_decide (i ≠ 0%nat) && bool_decide (u = pHeader_ s) && bool_decide (v = pTail_ s) then u32 (m - 1) else m).
  assert (K + Z.max 0 (Z.of_nat (S i + n) - Z.max (Z.of_nat (S i)) K) ≤ m1 ≤ m) as Hm1.
  { unfold m1. destruct (bool_decide _ && _ && _) eqn:E; [|lia].
    apply andb_prop in E as [[E1'%bool_decide_eq_true E2'%bool_decide_eq_true]%andb_prop E3'%bool_decide_eq_true].
    specialize (Hsole E1' E2' E3'). rewrite u32_small by lia. lia. }
  destruct (IH (S i) h2 m1) as (h' & m' & Hh' & Hlv & Ho' & Hm'); [|lia|lia|].
  { intros j Hj. destruct (Hall j ltac:(lia)) as (Gl & Gnd & Gss & Grest).
    split_and!; try done; [apply (others_level i j h h2); [done|lia|done]|].
    intros c Hc. eapply others_slot; [done|by apply Gss]. }
  exists h', m'. split; [done|]. split; [|split; [by eapply others_in_cons|lia]].
  intros j Hj. destruct (decide (j = i)) as [->|Hne]; [|apply Hlv; lia].
  rewrite HVi, HU, <-(assoc_L (++)). simpl. destruct Ho' as [Ho' _].
  eapply linked_frame; [| |exact Hl2]; intros x _; by destruct (Ho' i x ltac:(lia)).
Qed.

(** The largest level of some groups, at least 1. *)
Definition top (gs : list group) : Z := foldr (λ g m, Z.max (Z.of_nat (g_level g)) m) 1 gs.
Lemma top_levels gs : Forall (λ g, Z.of_nat (g_level g) ≤ top gs) gs.
Proof.
  induction gs as [|g gs IH]; constructor; simpl; [lia|]. eapply Forall_impl; [exact IH|]. simpl. lia.
Qed.
Lemma top_bound gs (m : Z) : 1 ≤ m → Forall (λ g, Z.of_nat (g_level g) ≤ m) gs → 1 ≤ top gs ≤ m.
Proof. intros Hm. induction 1 as [|g gs Hg _ IH]; simpl; lia. Qed.
Lemma top_heads gs i : (1 ≤ i)%nat → heads i gs = [] → top gs ≤ Z.of_nat i.
Proof.
  intros Hi. induction gs as [|g gs IH]; simpl; [lia|].
  destruct (decide (i < g_level g)%nat); [by rewrite heads_cons|rewrite heads_skip by done]. intros H%IH. lia.
Qed.

Lemma sorted_remove (g1 g2 : list group) g : StronglySorted (λ g g', g_time g > g_time g') (g1 ++ g :: g2) →
  StronglySorted (λ g g', g_time g > g_time g') (g1 ++ g2).
Proof.
  induction g1 as [|k g1 IH]; simpl; intros Hs; inversion Hs as [|? ? Hs' Hall]; subst; [done|]. constructor; [by apply IH|].
  apply Forall_app in Hall as [Ha Hb]. inversion Hb; subst. by apply Forall_app.
Qed.

(** A level with a node on it: what precedes and follows the node. *)
Lemma level_mid s (g1 g2 : list group) g i : (i < g_level g)%nat →
  pHeader_ s :: heads i (g1 ++ g :: g2) ++ [pTail_ s] = (pHeader_ s :: heads i g1) ++ g_addr g :: (heads i g2 ++ [pTail_ s]).
Proof. intros Hi. rewrite heads_app, heads_cons by done. by rewrite <-(assoc_L (++)). Qed.

(** A node with a time of its own leaves the skip list. *)
Lemma remove_alone s (g1 g2 : list group) g : rep s (g1 ++ g :: g2) → g_rest g = [] →
  ∃ s', remove s (g_addr g) = Ok s' ∧ rep s' (g1 ++ g2).
Proof.
  intros Hr Hrest. pose proof (r_groups _ _ Hr) as Hgs. apply Forall_app in Hgs as [Hg1 Hgs]. inversion Hgs as [|? ? Hg Hg2]; subst.
  destruct Hg as [O1 O2 O3 O4 O5]. pose proof (r_max _ _ Hr) as [Hm Hall]. apply Forall_app in Hall as [Hl1 Hall].
  inversion Hall as [|? ? Hlg Hl2]; subst. destruct (ring_nodup _ _ _ _ Hr) as (_ & Hh & Ht & _ & _).
  pose proof (ring_addr g) as Hga.
  assert (MAX = 16%nat) as HMAX by reflexivity.
  destruct (top_bound (g1 ++ g2) (maxCurLevel_ s)) as [HK1 HK2]; [lia|by apply Forall_app|].
  set (U := λ j, pHeader_ s :: heads j g1). set (V := λ j, heads j g2 ++ [pTail_ s]).
  destruct (unlink_levels_ok s (g_addr g) U V (top (g1 ++ g2)) (g_level g) 0%nat (nodes s) (maxCurLevel_ s))
    as (h' & m' & Hh' & Hlev & Hout & Hm'); [|lia|lia|].
  { intros j Hj. unfold U, V. rewrite <-level_mid by lia. split_and!.
    - apply (r_levels _ _ Hr). lia.
    - by apply level_nodup.
    - intros c. apply (level_slots s _ j c Hr). lia.
    - rewrite last_cons. exists (default (pHeader_ s) (list.last (heads j g1))). split; [by destruct (list.last (heads j g1))|].
      destruct (heads j g2 ++ [pTail_ s]) as [|v R] eqn:Ev; [by destruct (heads j g2)|]. exists v. split; [done|].
      intros Hj0 Hu Hvt. apply top_heads; [lia|]. rewrite heads_app.
      pose proof (r_nodup _ _ Hr) as Hnd. rewrite addrs_mid in Hnd. apply NoDup_cons in Hnd as [Nh Nt]. apply NoDup_cons in Nt as [Nt _].
      assert (heads j g1 = []) as ->.
      { destruct (list.last (heads j g1)) as [c|] eqn:Ec; [|by apply last_None in Ec]. exfalso. simpl in Hu. subst c.
        apply last_Some_elem_of, heads_addrs in Ec. apply Nh. rewrite elem_of_cons, !elem_of_app. auto. }
      destruct (heads j g2) as [|c R'] eqn:Ec; [done|]. exfalso. simpl in Ev. injection Ev as -> _. subst v.
      assert (pTail_ s ∈ heads j g2) as Hin%heads_addrs by (rewrite Ec; apply elem_of_cons; by left). apply Nt. rewrite !elem_of_app. auto. }
  destruct Hout as [Hout Hother]. unfold remove.
  destruct (info_get _ _ _ _ _ _ O2) as (nd & -> & Hnd & _ & Hidn & _ & Hlen). simpl.
  rewrite bool_decide_false by lia.
  assert ((link nd).1 = g_addr g) as ->.
  { unfold ring in O1. rewrite Hrest in O1. simpl in O1. destruct O1 as [O1 _]. unfold rn in O1. rewrite Hnd in O1. by injection O1. }
  rewrite bool_decide_false by naive_solver. rewrite Hlen, Hh'. simpl.
  destruct (remove_end h' (g_addr g) (g_entry g) (g_level g)) as (nd' & -> & Hid').
  { destruct (Hother (g_addr g)) as (_ & _ & ->). done. }
  simpl. rewrite Hid'. simpl. eexists. split; [done|].
  assert (pairs (g1 ++ g :: g2) ≡ₚ (g_addr g, g_entry g) :: pairs (g1 ++ g2)) as Hperm.
  { apply pairs_insert. unfold ring. by rewrite Hrest. }
  eapply (remove_build s _ h' m' _ _ _ Hr Hperm).
  - intros i Hi. destruct (decide (i < g_level g)%nat) as [Hil|Hil].
    + rewrite heads_app, <-(assoc_L (++)). apply (Hlev i). lia.
    + pose proof (r_levels _ _ Hr i Hi) as Hl. rewrite heads_app, heads_skip, <-heads_app in Hl by done.
      eapply linked_frame; [| |exact Hl]; intros c _; by destruct (Hout i c ltac:(lia)).
  - apply Forall_app. split; (eapply groups_frame; [|eassumption]); intros c _; apply Hother.
  - by destruct (Hother (pHeader_ s)) as (_ & _ & ->).
  - by destruct (Hother (pTail_ s)) as (_ & _ & ->).
  - eapply sorted_remove, (r_times _ _ Hr).
  - split; [lia|]. eapply Forall_impl; [apply top_levels|]. simpl. lia.
Qed.

(** The neighbours of [b] on a level start to point to it. *)
Lemma relink_level h b i l1 u v l2 : level h i (l1 ++ [u]) → level h i (v :: l2) → nx h i b = Some v → pv h i b = Some u →
  NoDup (l1 ++ u :: v :: l2) → b ∉ l1 ++ u :: v :: l2 → slot h u i → slot h v i →
  ∃ h1 h2, set_next h u i b = Ok h1 ∧ nx h1 i b = Some v ∧ set_prev h1 v i b = Ok h2 ∧
    level h2 i (l1 ++ u :: b :: v :: l2) ∧ others i h h2.
Proof.
  intros H1 H2 Hn Hp Hnd Hb Su Sv. destruct (nodup_around _ _ _ _ Hnd) as (N1 & N2 & N3 & N4 & N5).
  assert (b ≠ u ∧ b ≠ v ∧ b ∉ l1 ∧ b ∉ l2) as (P1 & P2 & P3 & P4).
  { rewrite elem_of_app, !elem_of_cons in Hb. tauto. }
  destruct (set_next_ok h u i b Su) as (h1 & E1 & A1 & B1 & C1 & D1 & I1).
  destruct (set_prev_ok h1 v i b) as (h2 & E2 & A2 & B2 & C2 & D2 & I2); [by eapply slot_info|].
  exists h1, h2. split; [done|]. split; [rewrite A1, decide_False by naive_solver; done|]. split; [done|]. split.
  - apply linked_app. split; [|split; [|split; [|split; [|split]]]].
    + eapply linked_frame; [| |exact H1]; intros x Hx.
      * rewrite front_snoc in Hx. rewrite B2, A1, decide_False; [done|]. intros [_ ->]. done.
      * rewrite A2, decide_False, B1; [done|]. intros [_ ->]. by destruct (tail_snoc_elem _ _ _ Hx).
    + rewrite B2, A1, decide_True by done. done.
    + rewrite A2, decide_False, B1 by naive_solver. done.
    + rewrite B2, A1, decide_False by naive_solver. done.
    + rewrite A2, decide_True by done. done.
    + eapply linked_frame; [| |exact H2]; intros x Hx.
      * rewrite B2, A1, decide_False; [done|]. intros [_ ->]. apply front_elem, elem_of_cons in Hx as [?|?]; done.
      * rewrite A2, decide_False, B1; [done|]. intros [_ ->]. done.
  - split; [intros j c Hj; rewrite B2, A1, decide_False by naive_solver; rewrite A2, decide_False, B1 by naive_solver; done|].
    intros c. rewrite C2, C1, D2, D1, I2, I1. done.
Qed.

Lemma relink_levels_ok b (U V : nat → list Z) : ∀ n i h,
  (∀ j, (i ≤ j < i + n)%nat → level h j (U j) ∧ level h j (V j) ∧ NoDup (U j ++ V j) ∧ b ∉ U j ++ V j ∧
     (∀ c, c ∈ U j ++ V j → slot h c j) ∧
     (∃ u, list.last (U j) = Some u ∧ pv h j b = Some u) ∧ (∃ v, head (V j) = Some v ∧ nx h j b = Some v)) →
  ∃ h', relink_levels h b i n = Ok h' ∧ (∀ j, (i ≤ j < i + n)%nat → level h' j (U j ++ b :: V j)) ∧ others_in i n h h'.
Proof.
  induction n as [|n IH]; intros i h Hall.
  { exists h. split_and!; [done|lia|]. split; [done|]. by intros c. }
  destruct (Hall i ltac:(lia)) as (Hl1 & Hl2 & Hnd & Hb & Ss & (u & Hu & Hpu) & (v & Hv & Hnv)).
  apply last_Some in Hu as [U' HU]. destruct (V i) as [|v' V'] eqn:HVi; [done|]. injection Hv as ->.
  rewrite HU, <-(assoc_L (++)) in Hnd, Hb, Ss. rewrite HU in Hl1. simpl in Hnd, Hb, Ss.
  assert (slot h u i ∧ slot h v i) as [Su Sv].
  { split; apply Ss; rewrite elem_of_app, !elem_of_cons; auto. }
  destruct (relink_level h b i U' u v V' Hl1 Hl2 Hnv Hpu Hnd Hb Su Sv) as (h1 & h2 & E1 & Hn1 & E2 & Hl & Ho).
  cbn [relink_levels]. rewrite (prev_at_ok _ _ _ _ Hpu). simpl. rewrite E1. simpl. rewrite (next_at_ok _ _ _ _ Hn1). simpl. rewrite E2. simpl.
  destruct (IH (S i) h2) as (h' & Hh' & Hlv & Ho').
  { intros j Hj. destruct (Hall j ltac:(lia)) as (G1 & G2 & G3 & G4 & G5 & (u2 & G6 & G7) & (v2 & G8 & G9)).
    destruct (proj1 Ho j b ltac:(lia)) as [Q1 Q2].
    split_and!; try done; [apply (others_level i j h h2); [done|lia|done]|apply (others_level i j h h2); [done|lia|done]|..].
    - intros c Hc. eapply others_slot; [done|by apply G5].
    - exists u2. by rewrite Q2.
    - exists v2. by rewrite Q1. }
  exists h'. split; [done|]. split; [|by eapply others_in_cons].
  intros j Hj. destruct (decide (j = i)) as [->|Hne]; [|apply Hlv; lia].
  rewrite HVi, HU, <-(assoc_L (++)). simpl. destruct Ho' as [Ho' _].
  eapply linked_frame; [| |exact Hl]; intros x _; by destruct (Ho' i x ltac:(lia)).
Qed.

(** [nextNode->links = std::move(node->links)] *)
Lemma move_links_views h a b na nb : h !! a = Some na → h !! b = Some nb → a ≠ b →
  let h' := <[b := set_links nb (links na)]> (<[a := set_links na []]> h) in
  (∀ c, rn h' c = rn h c ∧ rp h' c = rp h c) ∧
  (∀ c, c ≠ a → c ≠ b → info h' c = info h c ∧ ∀ j, nx h' j c = nx h j c ∧ pv h' j c = pv h j c) ∧
  (∀ j, nx h' j b = nx h j a ∧ pv h' j b = pv h j a) ∧
  (∀ e x d k e' x' d' k', info h a = Some (e, x, d, k) → info h b = Some (e', x', d', k') →
     info h' a = Some (e, x, d, 0%nat) ∧ info h' b = Some (e', x', d', k)).
Proof.
  intros Ha Hb Hne h'. unfold nx, pv, rn, rp, info, h'. split_and!.
  - intros c. destruct (decide (c = b)) as [->|]; [by rewrite lookup_insert_eq, Hb|rewrite lookup_insert_ne by done].
    destruct (decide (c = a)) as [->|]; [by rewrite lookup_insert_eq, Ha|by rewrite lookup_insert_ne].
  - intros c Hca Hcb. by rewrite !lookup_insert_ne by done.
  - intros j. by rewrite lookup_insert_eq, Ha.
  - intros e x d k e' x' d' k'. rewrite Ha, Hb. simpl. rewrite lookup_insert_eq, lookup_insert_ne, lookup_insert_eq by done. simpl.
    intros [= <- <- <- <-] [= <- <- <- <-]. done.
Qed.

(** Nodes on a level outside the ring of [g]. *)
Lemma level_outside s (g1 g2 : list group) g i c : rep s (g1 ++ g :: g2) →
  c ∈ pHeader_ s :: heads i g1 ∨ c ∈ heads i g2 ++ [pTail_ s] → c ∉ (ring g).*1.
Proof.
  intros Hr Hc. destruct (ring_nodup _ _ _ _ Hr) as (_ & Hh & Ht & Hd1 & Hd2).
  rewrite elem_of_cons, elem_of_app, list_elem_of_singleton in Hc.
  destruct Hc as [[->|Hc%heads_addrs]|[Hc%heads_addrs| ->]]; auto.
Qed.

(** The rings when the head [a] of one leaves it. *)
Lemma ring_head_leaves h h' a b r2 L z : linked (rn h) (rp h) (a :: b :: r2 ++ [a]) → NoDup (a :: b :: r2) → b :: r2 = L ++ [z] →
  (∀ c, rn h' c = if decide (c = z) then Some b else rn h c) → (∀ c, rp h' c = if decide (c = b) then Some z else rp h c) →
  linked (rn h') (rp h') (b :: r2 ++ [b]).
Proof.
  intros Hl Hnd HL Hn Hp. apply NoDup_cons in Hnd as [_ Hnd]. pose proof Hnd as [Nb _]%NoDup_cons. destruct Hl as (_ & _ & Hl).
  change (b :: r2 ++ ?x) with ((b :: r2) ++ x) in *. rewrite HL in Hnd, Hl |- *.
  apply NoDup_app in Hnd as (_ & Hz & _). rewrite <-(assoc_L (++)) in Hl |- *. simpl in *.
  apply linked_app in Hl as [Hl _]. apply linked_app. split.
  - eapply linked_frame; [| |exact Hl]; intros c Hc.
    + rewrite front_snoc in Hc. rewrite Hn, decide_False; [done|]. intros ->. by apply (Hz z Hc), list_elem_of_singleton.
    + rewrite <-HL in Hc. simpl in Hc. rewrite Hp, decide_False; [done|]. by intros ->.
  - simpl. by rewrite Hn, Hp, !decide_True.
Qed.


(** The head of a ring leaves, the next node takes its place in the skip list. *)
(** What relinking the levels needs, when the links of the head of a ring are
    moved to the next node [b] of the ring and nothing outside the ring changes. *)
Lemma relink_ready s (g1 g2 : list group) g b h j : rep s (g1 ++ g :: g2) → b ∈ (ring g).*1 → (j < g_level g)%nat → (j < MAX)%nat →
  (∀ c, c ∉ (ring g).*1 → info h c = info (nodes s) c ∧ nx h j c = nx (nodes s) j c ∧ pv h j c = pv (nodes s) j c) →
  nx h j b = nx (nodes s) j (g_addr g) → pv h j b = pv (nodes s) j (g_addr g) →
  let U := pHeader_ s :: heads j g1 in let V := heads j g2 ++ [pTail_ s] in
  level h j U ∧ level h j V ∧ NoDup (U ++ V) ∧ b ∉ U ++ V ∧ (∀ c, c ∈ U ++ V → slot h c j) ∧
  (∃ u, list.last U = Some u ∧ pv h j b = Some u) ∧ (∃ v, head V = Some v ∧ nx h j b = Some v).
Proof.
  intros Hr Ib Hj HjM Hsame Mn Mp U V. pose proof (r_levels _ _ Hr j HjM) as Hl. rewrite level_mid in Hl by done. fold U V in Hl.
  assert (∀ c, c ∈ U ++ V → c ∉ (ring g).*1) as Hout by (intros c Hc%elem_of_app; by apply (level_outside s g1 g2 g j)).
  assert (∀ l, (∀ c, c ∈ l → c ∈ U ++ V) → level (nodes s) j l → level h j l) as Hlev.
  { intros l Hin. apply linked_frame; intros c Hc; apply Hsame, Hout, Hin; [by apply front_elem|].
    destruct l; [done|]. simpl in Hc. apply elem_of_cons. by right. }
  pose proof (linked_sub _ _ _ _ _ Hl) as [HlU HlV]. split_and!.
  - apply Hlev; [|done]. intros c Hc. apply elem_of_app. by left.
  - apply Hlev; [|done]. intros c Hc. apply elem_of_app. by right.
  - pose proof (level_nodup s _ j Hr) as Hn. rewrite level_mid in Hn by done. fold U V in Hn.
    rewrite <-Permutation_middle in Hn. by apply NoDup_cons in Hn as [_ ?].
  - intros Hin. by apply (Hout b Hin).
  - intros c Hc. destruct (level_slots s _ j c Hr HjM) as (e1 & x1 & d1 & k1 & Hi1 & Hk1).
    { rewrite level_mid by done. fold U V. rewrite elem_of_app, elem_of_cons. apply elem_of_app in Hc. tauto. }
    exists e1, x1, d1, k1. split; [|done]. destruct (Hsame c (Hout c Hc)) as (-> & _). done.
  - exists (default (pHeader_ s) (list.last (heads j g1))). split; [unfold U; rewrite last_cons; by destruct (list.last _)|].
    rewrite Mp. destruct (exists_last (l := U)) as (U' & u & HU); [done|]. rewrite HU, <-(assoc_L (++)) in Hl.
    apply linked_next in Hl as [_ Hq]. rewrite Hq. unfold U in HU. apply (f_equal list.last) in HU. rewrite last_snoc, last_cons in HU.
    rewrite <-HU. by destruct (list.last (heads j g1)).
  - destruct V as [|v V'] eqn:EV; [unfold V in EV; by destruct (heads j g2)|]. exists v. split; [done|].
    rewrite Mn. apply linked_next in Hl as [Hq _]. by rewrite Hq.
Qed.

Lemma remove_head s (g1 g2 : list group) g b yb r2 : rep s (g1 ++ g :: g2) → g_rest g = (b, yb) :: r2 →
  ∃ s', remove s (g_addr g) = Ok s' ∧ rep s' (g1 ++ Group (g_level g) b yb r2 :: g2).
Proof.
  intros Hr Hrest. set (g' := Group _ _ _ _). set (a := g_addr g).
  destruct (ring_nodup _ _ _ _ Hr) as (Hnr & Hh & Ht & Hd1 & Hd2).
  pose proof (r_groups _ _ Hr) as Hgs. apply Forall_app in Hgs as [Hg1 Hgs]. inversion Hgs as [|? ? Hg Hg2]; subst.
  destruct Hg as [O1 O2 O3 O4 O5]. rewrite Hrest in O5. apply Forall_cons in O5 as [Hb0 O5'].
  simpl in Hb0. destruct Hb0 as [Hbi Hbt].
  assert ((ring g).*1 = a :: b :: r2.*1) as Hring by (unfold ring; by rewrite Hrest).
  rewrite Hring in Hnr, O1.
  change (linked (rn (nodes s)) (rp (nodes s)) (a :: b :: r2.*1 ++ [a])) in O1. destruct (exists_last (l := b :: r2.*1)) as (L & z & HL); [done|].
  assert (z ∈ (ring g).*1 ∧ b ∈ (ring g).*1 ∧ a ∈ (ring g).*1) as (Iz & Ib & Ia).
  { rewrite Hring. split_and!; [|rewrite !elem_of_cons; auto..]. apply elem_of_cons. right. rewrite HL. apply elem_of_app. right. by apply list_elem_of_singleton. }
  assert (a ≠ b) as Hab by (intros E; apply NoDup_cons in Hnr as [Hn _]; apply Hn; rewrite E; apply elem_of_cons; by left).
  assert (∀ c, c ∈ (ring g).*1 → is_Some (nodes s !! c)) as Hsome.
  { intros c Hin. apply (rep_is_Some _ _ _ Hr). rewrite addrs_mid, !elem_of_app. auto. }
  assert (rn (nodes s) a = Some b ∧ rp (nodes s) a = Some z) as [Hna Hpa].
  { split; [by destruct O1|]. change (a :: b :: r2.*1 ++ [a]) with ([a] ++ (b :: r2.*1) ++ [a]) in O1. rewrite HL, <-(assoc_L (++)) in O1.
    by apply (linked_next _ _ (a :: L) z a []) in O1 as [_ ?]. }
  destruct (set_ring_next_ok (nodes s) z b (Hsome z Iz)) as (h1 & E1 & A1 & B1 & C1 & D1 & I1).
  assert (∀ c, c ∈ (ring g).*1 → is_Some (h1 !! c)) as Hsome1.
  { intros c Hc. specialize (I1 c). unfold info in I1. destruct (Hsome c Hc) as [nc Hnc]. rewrite Hnc in I1. by destruct (h1 !! c). }
  destruct (set_ring_prev_ok h1 b z (Hsome1 b Ib)) as (h2 & E2 & A2 & B2 & C2 & D2 & I2).
  assert (∀ c, info h2 c = info (nodes s) c) as Hinfo2 by (intros c; by rewrite I2, I1).
  destruct (info_get h2 a _ _ _ _ ltac:(rewrite Hinfo2; exact O2)) as (na & Hga & Hna2 & _ & _ & _ & Hlen).
  destruct (info_get h2 b _ _ _ _ ltac:(rewrite Hinfo2; exact Hbi)) as (nb & Hgb & Hnb2 & _).
  pose proof (move_links_views h2 a b na nb Hna2 Hnb2 Hab) as Hmv. simpl in Hmv.
  set (h3 := <[b := set_links nb (links na)]> (<[a := set_links na []]> h2)) in *. destruct Hmv as (M1 & M2 & M3 & M4).
  specialize (M4 _ _ _ _ _ _ _ _ ltac:(rewrite Hinfo2; exact O2) ltac:(rewrite Hinfo2; exact Hbi)) as [Ia3 Ib3].
  assert (∀ c, c ∉ (ring g).*1 → rn h3 c = rn (nodes s) c ∧ rp h3 c = rp (nodes s) c ∧ info h3 c = info (nodes s) c ∧
    ∀ j, nx h3 j c = nx (nodes s) j c ∧ pv h3 j c = pv (nodes s) j c) as Hsame.
  { intros c Hc. assert (c ≠ a ∧ c ≠ b ∧ c ≠ z) as (N1 & N2 & N3) by (split_and!; intros ->; done).
    destruct (M1 c) as [-> ->], (M2 c N1 N2) as [-> Hj]. rewrite B2, A1, decide_False, A2, decide_False, B1 by done.
    split_and!; try done. intros j. destruct (Hj j) as [-> ->]. by rewrite C2, C1, D2, D1. }
  set (U := λ j, pHeader_ s :: heads j g1). set (V := λ j, heads j g2 ++ [pTail_ s]).
  assert (∀ j c, c ∈ U j ++ V j → c ∉ (ring g).*1) as Hout.
  { intros j c Hc%elem_of_app. by apply (level_outside s g1 g2 g j). }
  assert (∀ j l, (∀ c, c ∈ l → c ∈ U j ++ V j) → level (nodes s) j l → level h3 j l) as Hlev3.
  { intros j l Hin. apply linked_frame; intros c Hc; apply Hsame, (Hout j), Hin; [by apply front_elem|].
    destruct l; [done|]. simpl in Hc. apply elem_of_cons. by right. }
  pose proof (r_max _ _ Hr) as [Hm Hall]. apply Forall_app in Hall as [Hl1 Hall]. inversion Hall as [|? ? Hlg Hl2]; subst.
  destruct (relink_levels_ok b U V (g_level g) 0%nat h3) as (h4 & Hh4 & Hlv & Ho1 & Ho2).
  { intros j Hj. destruct (M3 j) as [Mn Mp]. apply (relink_ready s g1 g2 g b h3 j Hr Ib); [lia|lia| |by rewrite Mn, C2, C1|by rewrite Mp, D2, D1].
    intros c Hc. destruct (Hsame c Hc) as (_ & _ & ? & Hj'). destruct (Hj' j). done. }
  unfold remove. destruct (info_get (nodes s) a _ _ _ _ O2) as (nd & -> & Hnd & _ & _ & _ & Hlen'). simpl.
  rewrite bool_decide_false by lia. unfold rn in Hna. unfold rp in Hpa. rewrite Hnd in Hna, Hpa. simpl in Hna, Hpa.
  injection Hna as ->. injection Hpa as ->. rewrite bool_decide_true by done. rewrite E1. simpl. rewrite E2. simpl.
  rewrite Hgb. simpl. rewrite Hga. simpl. fold h3. rewrite Hlen, Hh4. simpl.
  destruct (remove_end h4 a (g_entry g) 0) as (nd' & -> & Hid').
  { destruct (Ho2 a) as (_ & _ & ->). exact Ia3. }
  simpl. rewrite Hid'. simpl. eexists. split; [done|].
  assert (pairs (g1 ++ g :: g2) ≡ₚ (a, g_entry g) :: pairs (g1 ++ g' :: g2)) as Hperm.
  { rewrite !pairs_mid. unfold ring. rewrite Hrest. cbn [g' g_addr g_entry g_rest]. simpl.
    symmetry. apply (Permutation_middle (pairs g1)). }
  assert (∀ c, c ∉ (ring g).*1 → rn h4 c = rn (nodes s) c ∧ rp h4 c = rp (nodes s) c ∧ info h4 c = info (nodes s) c) as Hsame4.
  { intros c Hc. destruct (Ho2 c) as (-> & -> & ->), (Hsame c Hc) as (? & ? & ? & _). done. }
  eapply (remove_build s _ h4 _ a (g_entry g) _ Hr Hperm); try (by apply Hsame4).
  - intros i Hi. destruct (decide (i < g_level g)%nat) as [Hil|Hil].
    + rewrite level_mid by done. apply (Hlv i). lia.
    + pose proof (r_levels _ _ Hr i Hi) as Hl. rewrite heads_app, heads_skip in Hl |- * by done.
      rewrite <-(assoc_L (++)) in Hl |- *. change (level h4 i (U i ++ V i)). change (level (nodes s) i (U i ++ V i)) in Hl.
      apply Hlev3 in Hl; [|done]. eapply linked_frame; [| |exact Hl]; intros c _; by destruct (Ho1 i c ltac:(lia)).
  - apply Forall_app. split; [|constructor].
    + eapply groups_frame; [|exact Hg1]. intros c Hc. by apply Hsame4, Hd1.
    + constructor; cbn [g' g_addr g_entry g_level g_rest]; try done.
      * unfold ring. simpl. eapply (ring_head_leaves (nodes s) h4 a b (r2.*1) L z); try done; intros c;
          destruct (Ho2 c) as (Q1 & Q2 & _), (M1 c) as [Q3 Q4]; [by rewrite Q1, Q3, B2, A1|by rewrite Q2, Q4, A2, B1].
      * destruct (Ho2 b) as (_ & _ & ->). exact Ib3.
      * unfold g_time. cbn [g' g_entry]. by rewrite Hbt.
      * rewrite Forall_forall in O5' |- *. intros [c w] Hc. destruct (O5' (c, w) Hc) as [Hi Hw]. unfold g_time at 1. cbn [g' g_entry].
        split; [|congruence]. assert (c ∈ r2.*1) as Hcr by (apply list_elem_of_fmap; by exists (c, w)).
        apply NoDup_cons in Hnr as [Na Hnr]. apply NoDup_cons in Hnr as [Nb _].
        assert (c ≠ a ∧ c ≠ b) as [Nca Ncb] by (split; intros ->; [apply Na, elem_of_cons; by right|done]).
        destruct (Ho2 c) as (_ & _ & ->), (M2 c Nca Ncb) as [-> _]. by rewrite Hinfo2.
    + eapply groups_frame; [|exact Hg2]. intros c Hc. by apply Hsame4, Hd2.
  - eapply sorted_replace; [|exact (r_times _ _ Hr)]. done.
  - split; [done|]. apply Forall_app. split; [done|]. by constructor.
Qed.

Lemma remove_rep s gs x p : rep s gs → getNode s x = Some p →
  ∃ s' gs', remove s p = Ok s' ∧ rep s' gs' ∧ entries gs' = take_out x (entries gs).
Proof.
  intros Hr Hx. apply (r_map _ _ Hr) in Hx as (y & Hy & <-). apply pairs_elem in Hy as (g & Hy & Hg).
  apply list_elem_of_split in Hg as (g1 & g2 & ->).
  assert (∀ l1 l2, entries (g1 ++ g :: g2) = l1 ++ y :: l2 → take_out (e_id y) (entries (g1 ++ g :: g2)) = l1 ++ l2) as Hout.
  { intros l1 l2 E. pose proof (r_ids _ _ Hr) as Hnd. rewrite E in Hnd |- *. by apply take_out_mid. }
  assert (∀ k, entries (g1 ++ k :: g2) = entries g1 ++ (ring k).*2 ++ entries g2) as Hent.
  { intros k. unfold entries. by rewrite pairs_mid, !fmap_app. }
  apply elem_of_cons in Hy as [[= -> ->]|(r1 & r2 & Hrest)%list_elem_of_split].
  - destruct (g_rest g) as [|[b yb] r2] eqn:Hrest.
    + destruct (remove_alone s g1 g2 g Hr Hrest) as (s' & Hs' & Hr'). exists s', (g1 ++ g2). split_and!; [done|done|].
      rewrite (Hout (entries g1) (entries g2)); [by rewrite entries_app|]. rewrite Hent. unfold ring. by rewrite Hrest.
    + destruct (remove_head s g1 g2 g b yb r2 Hr Hrest) as (s' & Hs' & Hr'). eexists s', _. split_and!; [done|exact Hr'|].
      rewrite Hent. rewrite (Hout (entries g1) (((b, yb) :: r2).*2 ++ entries g2)); [done|]. rewrite Hent. unfold ring. by rewrite Hrest.
  - destruct (remove_rest s g1 g2 g r1 p y r2 Hr Hrest) as (s' & Hs' & Hr'). eexists s', _. split_and!; [done|exact Hr'|].
    rewrite Hent. rewrite (Hout (entries g1 ++ g_entry g :: r1.*2) (r2.*2 ++ entries g2)).
    + unfold ring. simpl. by rewrite fmap_app, <-!(assoc_L (++)).
    + rewrite Hent. unfold ring. rewrite Hrest. simpl. by rewrite fmap_app, <-!(assoc_L (++)).
Qed.

(** The abstract list a skip list stands for. *)
Definition represents s (l : list (entry T)) : Prop := ∃ gs, rep s gs ∧ entries gs = l.

#[global] Instance timeout_ops : TimeoutOps T (t T) := {
  tl_new := new;
  tl_insert := insert;
  tl_remove := remove;
  tl_getLast := getLast;
  tl_getNode := getNode;
  tl_empty := empty;
  tl_read := read;
}.
#[global] Instance timeout_laws : TimeoutLaws T (t T).
Proof.
  refine {| tl_rep := represents |}.
  - intros s l (gs & Hr & <-). apply (r_ids _ _ Hr).
  - intros s l (gs & Hr & <-). apply (entries_times (nodes s)), (r_groups _ _ Hr).
  - intros s l (gs & Hr & <-). eapply entries_ordered; [apply (r_groups _ _ Hr)|apply (r_times _ _ Hr)].
  - exists []. split; [apply new_rep|done].
  - intros s l lv i e d (gs & Hr & <-) Hlv Ht Hi. destruct (insert_rep s gs lv i e d Hr Hlv Ht Hi) as (s' & gs' & ? & ? & ?).
    exists s'. split; [done|]. by exists gs'.
  - intros s l (gs & Hr & <-). by apply getLast_rep.
  - intros s l i (gs & Hr & <-). by apply getNode_rep.
  - intros s l i p (gs & Hr & <-) Hi. destruct (remove_rep s gs i p Hr Hi) as (s' & gs' & ? & ? & ?).
    exists s'. split; [done|]. by exists gs'.
  - intros s l (gs & Hr & <-). by apply empty_rep.
Defined.

(** C25 (timeout_list_refines).  The skip list with its rings implements the
    abstract list of time-outs: the constructor gives the empty list; with a time
    other than 0 and the largest and a new id, [insert] succeeds for every level
    [randomLevel] may choose and puts the entry behind all entries that do not
    expire earlier; [remove] of a node [getNode] returned succeeds and removes
    exactly that entry; [getLast] is the entry that expires first, the newest of
    them; [getNode] finds exactly the entry with that id; [empty] says whether
    there is none.  No operation dereferences a null or freed pointer, leaves the
    bounds of the level arrays, or fails to terminate. *)
Theorem timeout_list_refines :
  represents new [] ∧ ∀ s l, represents s l →
  (ordered l ∧ NoDup (e_id <$> l)) ∧
  (∀ lv x e d, (1 ≤ lv ≤ MAX)%nat → time_ok e → x ∉ e_id <$> l →
     ∃ s', insert lv s x e d = Ok s' ∧ represents s' (put (Entry e x d) l)) ∧
  (∀ x p, getNode s x = Some p → ∃ s', remove s p = Ok s' ∧ represents s' (take_out x l)) ∧
  match list.last l with
  | None => getLast s = Ok None
  | Some y => ∃ p, getLast s = Ok (Some p) ∧ read s p = Ok y ∧ getNode s (e_id y) = Some p
  end ∧
  (∀ x, match lookup_id x l with
        | None => getNode s x = None
        | Some y => ∃ p, getNode s x = Some p ∧ read s p = Ok y
        end) ∧
  empty s = Ok (bool_decide (l = [])).
Proof.
  split; [apply (@law_new T (t T) timeout_ops timeout_laws)|]. intros s l Hr. split_and!.
  - by eapply (@tl_order T (t T) timeout_ops timeout_laws).
  - by eapply (@tl_ids T (t T) timeout_ops timeout_laws).
  - intros lv x e d Hlv Ht Hx. by apply (@law_insert T (t T) timeout_ops timeout_laws s l lv x e d).
  - intros x p Hx. by apply (@law_remove T (t T) timeout_ops timeout_laws s l x p).
  - pose proof (@law_getLast T (t T) timeout_ops timeout_laws s l Hr) as Hl. destruct (list.last l) as [y|] eqn:E; [|done]. destruct Hl as (p & Hp & Hn).
    exists p. split_and!; [done| |done]. pose proof (@law_getNode T (t T) timeout_ops timeout_laws s l (e_id y) Hr) as Hg.
    rewrite (lookup_id_elem l y) in Hg; [|by eapply (@tl_ids T (t T) timeout_ops timeout_laws)|by apply last_Some_elem_of].
    destruct Hg as (p' & Hp' & ?). simpl in *. congruence.
  - intros x. by apply (@law_getNode T (t T) timeout_ops timeout_laws).
  - by apply (@law_empty T (t T) timeout_ops timeout_laws).
Qed.
End ops.

(** Two entries, inserted in the order of their expiry. *)
Lemma timeout_list_refines_witness :
  ∃ s1 s2, insert 3 new 7 500 70 = Ok s1 ∧ insert 1 s1 8 900 80 = Ok s2 ∧ represents s2 [Entry 900 8 80; Entry 500 7 70].
Proof.
  destruct (@timeout_list_refines Z) as [H0 H].
  destruct (H new [] H0) as (_ & Hi & _).
  destruct (Hi 3%nat 7 500 70) as (s1 & E1 & R1); [vm_compute; lia|split; vm_compute; reflexivity|apply not_elem_of_nil|].
  destruct (H s1 _ R1) as (_ & Hi1 & _).
  destruct (Hi1 1%nat 8 900 80) as (s2 & E2 & R2);
    [vm_compute; lia|split; vm_compute; reflexivity|simpl; intros E; apply list_elem_of_singleton in E; lia|].
  exists s1, s2. split; [exact E1|]. split; [exact E2|exact R2].
Defined.
End TimeoutList.
