(* ===== verification/RoutineEnv.v ===== *)
(** * corpc_routine_env.cpp

    The coroutine environment of a thread: the queue of coroutines to resume,
    the list of RPC calls that can time out, the coroutines that ended and are
    to be released; and the count of key coroutines that delays the exit of the
    program.  The tasks of RPC calls are shared objects in a store: the client
    thread writes the result into [response_1] or [controller_1], and
    [resumeRoutine] copies it to the caller's objects.  The list of time-outs is
    used by its contract (TimeoutSpec.v). *)
From stdpp Require Import gmap.
From S2P Require Import Prelude Define RpcWire RpcClient TimeoutSpec TimeoutList.
Open Scope Z_scope.

Module RoutineEnvironment.

(** [WaitResumeRPCRoutine] *)
Record WaitResume : Type := { wr_co : Z; wr_expireTime : Z; wr_err : Z }.

(** Why a coroutine was activated: it was resumed without a time-out, its call
    was answered, or its call timed out. *)
Inductive reason : Type := Plain | Answered (t : Z) | TimedOut (t : Z).

(** The coroutines every environment starts. *)
Inductive service : Type := CleanRoutine | ResumeRoutine | TimeoutRoutine.

(** The members of [RoutineEnvironment], and records of what happened: the calls
    of [co_activate] and [co_release], the coroutines and times of the calls
    added to the list, and the coroutines that ended. *)
Record env (L : Type) : Type := Env {
  started : list service;
  waitResumeQueue_ : list WaitResume;
  timeoutList_ : L;
  endedCoroutines_ : list Z;
  activated : list (Z * reason);
  released : list Z;
  added : list (Z * Z);
  ended : list Z;
}.
Arguments Env {_} _ _ _ _ _ _ _ _.
Arguments started {_} _.
Arguments waitResumeQueue_ {_} _.
Arguments timeoutList_ {_} _.
Arguments endedCoroutines_ {_} _.
Arguments activated {_} _.
Arguments released {_} _.
Arguments added {_} _.
Arguments ended {_} _.

(** The environments by thread ([g_routineEnvPerThread]), the tasks by address,
    [keyRoutineNum_], the living coroutines (thread, address, key or not), and
    whether the program has exited. *)
Record world (M L : Type) : Type := World {
  envs : gmap Z (env L);
  tasks : gmap Z (RpcClientTask M);
  keyRoutineNum_ : Z;
  living : list (Z * Z * bool);
  exited : bool;
}.
Arguments World {_ _} _ _ _ _ _.
Arguments living {_ _} _.
Arguments envs {_ _} _.
Arguments tasks {_ _} _.
Arguments keyRoutineNum_ {_ _} _.
Arguments exited {_ _} _.

Definition ETIMEDOUT : Z := 110.

Section ops.
Context {M L : Type} `{TimeoutOps Z L}.
(** [google::protobuf::Message::MergeFrom] and [strerror]. *)
Variable MergeFrom : M → M → M.
Variable strerror : Z → bytes.
Implicit Types (w : world M L) (ev : env L).

Definition set_env w (pid : Z) ev : world M L := World (<[pid := ev]> (envs w)) (tasks w) (keyRoutineNum_ w) (living w) (exited w).
Definition set_task w (p : Z) (task : RpcClientTask M) : world M L :=
  World (envs w) (<[p := task]> (tasks w)) (keyRoutineNum_ w) (living w) (exited w).
Definition set_timeoutList ev (s : L) : env L :=
  Env (started ev) (waitResumeQueue_ ev) s (endedCoroutines_ ev) (activated ev) (released ev) (added ev) (ended ev).
Definition set_waitResumeQueue ev (q : list WaitResume) : env L :=
  Env (started ev) q (timeoutList_ ev) (endedCoroutines_ ev) (activated ev) (released ev) (added ev) (ended ev).
Definition log_added ev (c t : Z) : env L :=
  Env (started ev) (waitResumeQueue_ ev) (timeoutList_ ev) (endedCoroutines_ ev) (activated ev) (released ev)
    (added ev ++ [(c, t)]) (ended ev).
Definition co_activate ev (c : Z) (r : reason) : env L :=
  Env (started ev) (waitResumeQueue_ ev) (timeoutList_ ev) (endedCoroutines_ ev) (activated ev ++ [(c, r)]) (released ev) (added ev) (ended ev).

(** [initialize]: the environment and its service coroutines. *)
Definition initialize w (pid : Z) : outcome (world M L * env L) :=
  _ ← require (envs w !! pid = None);
  let ev := Env [CleanRoutine; ResumeRoutine; TimeoutRoutine] [] tl_new [] [] [] [] [] in
  Ok (set_env w pid ev, ev).

Definition getEnv w (pid : Z) : outcome (world M L * env L) :=
  match envs w !! pid with
  | Some ev => Ok (w, ev)
  | None => initialize w pid
  end.

(** [addTimeoutTask], called by the thread [pid] with the task at [p]; [lv] is
    the level [randomLevel] picks. *)
Definition addTimeoutTask w (pid p : Z) (lv : nat) : outcome (world M L) :=
  '(w, curenv) ← getEnv w pid;
  rpcTask ← deref (tasks w !! p);
  s ← tl_insert lv (timeoutList_ curenv) (co rpcTask) (expireTime rpcTask) p;
  Ok (set_env w pid (log_added (set_timeoutList curenv s) (co rpcTask) (expireTime rpcTask))).

Definition resumeCoroutine w (pid c expire err : Z) : outcome (world M L) :=
  ev ← match envs w !! pid with Some ev => Ok ev | None => Fault AssertFailed end;
  Ok (set_env w pid (set_waitResumeQueue ev
        (waitResumeQueue_ ev ++ [{| wr_co := c; wr_expireTime := expire; wr_err := err |}]))).

(** The coroutine [c] of thread [pid] calls [pause] (before it yields). *)
Definition pause w (pid c : Z) : outcome (world M L) := resumeCoroutine w pid c 0 0.

(** [resumeRoutine]: the result of a call goes to the caller's objects. *)
Definition give_result (wr : WaitResume) (task : RpcClientTask M) : outcome (RpcClientTask M) :=
  if bool_decide (wr_err wr ≠ 0) then
    c ← deref (controller task);
    Ok (RpcClient.set_controller (Controller.SetErrorCode (-1) (Controller.SetFailed (strerror (wr_err wr)) c)) task)
  else
    match controller_1 task with
    | Some c1 =>
      if Controller.Failed c1 then
        c ← deref (controller task);
        Ok (RpcClient.set_controller
              (Controller.SetErrorCode (Controller.GetErrorCode c1) (Controller.SetFailed (Controller.ErrorText c1) c)) task)
      else
        r ← deref (response task); r1 ← deref (response_1 task);
        Ok {| pid := pid task; co := co task; request := request task; response := Some (MergeFrom r r1);
              response_1 := response_1 task; controller := controller task; controller_1 := controller_1 task;
              done := done task; serviceId := serviceId task; methodId := methodId task; expireTime := expireTime task |}
    | None =>
      r ← deref (response task); r1 ← deref (response_1 task);
      Ok {| pid := pid task; co := co task; request := request task; response := Some (MergeFrom r r1);
            response_1 := response_1 task; controller := controller task; controller_1 := controller_1 task;
            done := done task; serviceId := serviceId task; methodId := methodId task; expireTime := expireTime task |}
    end.

(** [resumeRoutine]: one entry of the queue. *)
Definition resume_entry w (pid : Z) (wr : WaitResume) : outcome (world M L) :=
  curenv ← deref (envs w !! pid);
  if bool_decide (wr_expireTime wr = 0) then Ok (set_env w pid (co_activate curenv (wr_co wr) Plain)) else
  match tl_getNode (timeoutList_ curenv) (wr_co wr) with
  | None => Ok w
  | Some p =>
    node ← tl_read (timeoutList_ curenv) p;
    if bool_decide (e_time node = wr_expireTime wr) then
      task ← deref (tasks w !! e_data node);
      task ← give_result wr task;
      s ← tl_remove (timeoutList_ curenv) p;
      Ok (set_env (set_task w (e_data node) task) pid
            (co_activate (set_timeoutList curenv s) (wr_co wr) (Answered (wr_expireTime wr))))
    else Ok w
  end.

Definition resume_one w (pid : Z) : outcome (world M L) :=
  curenv ← deref (envs w !! pid);
  match waitResumeQueue_ curenv with
  | [] => Ok w
  | wr :: q => resume_entry (set_env w pid (set_waitResumeQueue curenv q)) pid wr
  end.

(** [timeoutRoutine]: the node [getLast] returned is removed and its coroutine
    activated. *)
Definition timeout_one w (pid p : Z) : outcome (world M L) :=
  curenv ← deref (envs w !! pid);
  node ← tl_read (timeoutList_ curenv) p;
  task ← deref (tasks w !! e_data node);
  c ← deref (controller task);
  s ← tl_remove (timeoutList_ curenv) p;
  Ok (set_env (set_task w (e_data node) (RpcClient.set_controller (Controller.SetFailed (strerror ETIMEDOUT) c) task)) pid
        (co_activate (set_timeoutList curenv s) (co task) (TimedOut (e_time node)))).

(** The loop, which ends when nothing is left or the next entry expires later;
    the fuel bounds the number of entries. *)
Fixpoint timeout_loop (fuel : nat) w (pid now : Z) : outcome (world M L) :=
  curenv ← deref (envs w !! pid);
  last ← tl_getLast (timeoutList_ curenv);
  match last with
  | None => Ok w
  | Some p =>
    node ← tl_read (timeoutList_ curenv) p;
    if bool_decide (e_time node <= now) then
      match fuel with
      | O => Fault OutOfFuel
      | S fuel => w ← timeout_one w pid p; timeout_loop fuel w pid now
      end
    else Ok w
  end.

(** [startCoroutine] and [startKeyCoroutine]: the new coroutine [c] runs at once,
    a key coroutine under a [Guard]. *)
Definition start w (pid c : Z) (key : bool) : outcome (world M L) :=
  '(w, _) ← getEnv w pid;
  Ok (World (envs w) (tasks w) (if key then u32 (keyRoutineNum_ w + 1) else keyRoutineNum_ w)
        (living w ++ [(pid, c, key)]) (exited w)).

(** [addEndedCoroutine] *)
Definition addEndedCoroutine ev (c : Z) : env L :=
  Env (started ev) (waitResumeQueue_ ev) (timeoutList_ ev) (endedCoroutines_ ev ++ [c]) (activated ev)
    (released ev) (added ev) (ended ev ++ [c]).

(** The end of [routineEntry] and of [keyRoutineEntry] for the living coroutine
    at index [k]. *)
Definition finish w (k : nat) : outcome (world M L) :=
  x ← deref (living w !! k);
  let '(pid, c, key) := (x : Z * Z * bool) in
  '(w, ev) ← getEnv w pid;
  Ok (World (<[pid := addEndedCoroutine ev c]> (envs w)) (tasks w)
        (if key then u32 (keyRoutineNum_ w - 1) else keyRoutineNum_ w) (delete k (living w)) (exited w)).

(** [cleanRoutine]: the loop that releases the coroutines that ended. *)
Fixpoint clean_loop (fuel : nat) ev : outcome (env L) :=
  match endedCoroutines_ ev with
  | [] => Ok ev
  | c :: q =>
    match fuel with
    | O => Fault OutOfFuel
    | S fuel =>
      clean_loop fuel (Env (started ev) (waitResumeQueue_ ev) (timeoutList_ ev) q (activated ev)
                         (released ev ++ [c]) (added ev) (ended ev))
    end
  end.
Definition clean w (pid : Z) : outcome (world M L) :=
  ev ← deref (envs w !! pid);
  ev ← clean_loop (length (endedCoroutines_ ev)) ev;
  Ok (set_env w pid ev).

(** [safeQuitRoutine]: one round. *)
Definition safeQuit w : world M L :=
  if bool_decide (keyRoutineNum_ w = 0) then World (envs w) (tasks w) (keyRoutineNum_ w) (living w) true else w.

(** A task that waits for an answer: its objects exist. *)
Definition ready (task : RpcClientTask M) : Prop :=
  is_Some (controller task) ∧ is_Some (response task) ∧ is_Some (response_1 task).

(** The steps of the threads.  A coroutine adds a call only while it is not
    waiting for another; other threads write results into the tasks and resume
    coroutines. *)
Inductive step w : world M L → Prop :=
  | StepTask p task : tasks w !! p = None → step w (set_task w p task)
  | StepAnswer p task task' : tasks w !! p = Some task →
      (∃ m, task' = RpcClient.set_response_1 m task) ∨ (∃ c, task' = RpcClient.set_controller_1 c task) →
      step w (set_task w p task')
  | StepAdd pid p lv task w' : tasks w !! p = Some task → ready task → time_ok (expireTime task) →
      (1 ≤ lv ≤ Z.to_nat CORPC_SKIP_LIST_MAX_LEVEL)%nat →
      (∀ ev, envs w !! pid = Some ev → tl_getNode (timeoutList_ ev) (co task) = None) →
      addTimeoutTask w pid p lv = Ok w' → step w w'
  | StepResume pid c t err w' : resumeCoroutine w pid c t err = Ok w' → step w w'
  | StepRun pid w' : resume_one w pid = Ok w' → step w w'
  | StepTick fuel pid now w' : timeout_loop fuel w pid now = Ok w' → step w w'
  | StepStart pid c key w' : start w pid c key = Ok w' → step w w'
  | StepFinish k w' : finish w k = Ok w' → step w w'
  | StepClean pid w' : clean w pid = Ok w' → step w w'
  | StepQuit : step w (safeQuit w).

Definition init : world M L := World ∅ ∅ 0 [] false.

(** ** The invariant *)
Context `{!TimeoutLaws Z L}.

(** The calls in the list, and those whose coroutine was activated. *)
Definition pending (l : list (entry Z)) : list (Z * Z) := (λ x, (e_id x, e_time x)) <$> l.
Definition call_of (a : Z * reason) : option (Z * Z) :=
  match a with (c, Answered t) | (c, TimedOut t) => Some (c, t) | (_, Plain) => None end.
Definition ended_calls (acts : list (Z * reason)) : list (Z * Z) := omap call_of acts.

Definition entry_ok (ts : gmap Z (RpcClientTask M)) (x : entry Z) : Prop :=
  ∃ task, ts !! e_data x = Some task ∧ co task = e_id x ∧ expireTime task = e_time x ∧ ready task.

Record env_ok (ts : gmap Z (RpcClientTask M)) ev (l : list (entry Z)) : Prop := {
  ok_rep : tl_rep (timeoutList_ ev) l;
  ok_tasks : Forall (entry_ok ts) l;
  ok_calls : added ev ≡ₚ ended_calls (activated ev) ++ pending l;
  ok_ended : ended ev = released ev ++ endedCoroutines_ ev;
}.

Definition keys (l : list (Z * Z * bool)) : Z := zlen (filter (λ x, x.2 = true) l).

Record inv w : Prop := {
  inv_envs pid ev : envs w !! pid = Some ev → ∃ l, env_ok (tasks w) ev l;
  inv_keys : keyRoutineNum_ w = u32 (keys (living w));
}.

(** Tasks change only in their results. *)
Definition kept (ts ts' : gmap Z (RpcClientTask M)) : Prop :=
  ∀ p task, ts !! p = Some task → ready task →
    ∃ task', ts' !! p = Some task' ∧ co task' = co task ∧ expireTime task' = expireTime task ∧ ready task'.

Lemma kept_insert ts p task task' : ts !! p = Some task → co task' = co task → expireTime task' = expireTime task →
  (ready task → ready task') → kept ts (<[p := task']> ts).
Proof.
  intros Hp Hc He Hr q tq Hq Hready. destruct (decide (p = q)) as [->|Hne].
  - simplify_eq. exists task'. rewrite lookup_insert_eq. auto.
  - exists tq. rewrite lookup_insert_ne by done. auto.
Qed.
Lemma kept_fresh ts p task : ts !! p = None → kept ts (<[p := task]> ts).
Proof.
  intros Hp q tq Hq Hready. exists tq. rewrite lookup_insert_ne by congruence. auto.
Qed.
Lemma env_ok_kept ts ts' ev l : kept ts ts' → env_ok ts ev l → env_ok ts' ev l.
Proof.
  intros Hk [H1 H2 H3 H4]. constructor; try done. eapply Forall_impl; [exact H2|].
  intros x (task & Hx & Hc & He & Hr). destruct (Hk _ _ Hx Hr) as (task' & ? & ? & ? & ?). exists task'.
  split_and!; try done; congruence.
Qed.

(** The state changes in one environment, and in the tasks. *)
Lemma inv_update w pid ev' l' ts' : inv w → kept (tasks w) ts' → env_ok ts' ev' l' →
  inv (World (<[pid := ev']> (envs w)) ts' (keyRoutineNum_ w) (living w) (exited w)).
Proof.
  intros [He Hk] Hts Hok. constructor; simpl; [|done]. intros q ev. destruct (decide (pid = q)) as [->|Hne].
  - rewrite lookup_insert_eq. intros [= <-]. eauto.
  - rewrite lookup_insert_ne by done. intros Hq. destruct (He q ev Hq) as [l Hl]. exists l. by eapply env_ok_kept.
Qed.

Lemma kept_refl ts : kept ts ts.
Proof. intros p task Hp Hr. eauto. Qed.

(** Removing one entry. *)
Lemma pending_take_out (l : list (entry Z)) x : NoDup (e_id <$> l) → x ∈ l →
  pending l ≡ₚ (e_id x, e_time x) :: pending (take_out (e_id x) l).
Proof.
  induction l as [|y l IH]; intros Hnd Hx; [by apply not_elem_of_nil in Hx|].
  simpl in Hnd. apply NoDup_cons in Hnd as [Hy Hnd]. unfold take_out in *. apply elem_of_cons in Hx as [->|Hx].
  - rewrite filter_cons_False by naive_solver. simpl. f_equiv. rewrite list_filter_all; [done|].
    apply Forall_forall. intros z Hz E. apply Hy. rewrite <-E. by apply list_elem_of_fmap_2.
  - rewrite filter_cons_True by (intros E; apply Hy; rewrite E; by apply list_elem_of_fmap_2).
    simpl. rewrite (IH Hnd Hx). apply Permutation_swap.
Qed.
Lemma ended_calls_app a b : ended_calls (a ++ b) = ended_calls a ++ ended_calls b.
Proof. apply omap_app. Qed.

(** The end of a call: its entry leaves the list and its coroutine is activated. *)
Lemma end_call_ok ts ts' ev l x s r : env_ok ts ev l → kept ts ts' → x ∈ l → tl_rep s (take_out (e_id x) l) →
  call_of (e_id x, r) = Some (e_id x, e_time x) →
  env_ok ts' (co_activate (set_timeoutList ev s) (e_id x) r) (take_out (e_id x) l).
Proof.
  intros Hok Hk Hx Hs Hr. pose proof (env_ok_kept _ _ _ _ Hk Hok) as [H1 H2 H3 H4]. constructor; simpl; try done.
  - by apply Forall_take_out.
  - rewrite H3, ended_calls_app, (pending_take_out l x) by (done || by eapply tl_ids).
    change (ended_calls [(e_id x, r)]) with (match call_of (e_id x, r) with Some y => [y] | None => [] end).
    rewrite Hr, <-(assoc_L (++)). done.
Qed.

Lemma give_result_kept ts p wr task : ts !! p = Some task → ready task →
  ∃ task', give_result wr task = Ok task' ∧ kept ts (<[p := task']> ts).
Proof.
  intros Hp ([c Hc] & [r Hr] & [r1 Hr1]). unfold give_result. rewrite Hc, Hr, Hr1. simpl.
  destruct (bool_decide (wr_err wr ≠ 0)); [|destruct (controller_1 task) as [c1|]; [destruct (Controller.Failed c1)|]];
    (eexists; split; [done|]); (eapply kept_insert; [exact Hp|done|done|]); intros _; split_and!; by eexists.
Qed.

(** [resumeRoutine] never faults: an entry of the queue ends the call it names,
    or is ignored when no call with that coroutine and time is pending. *)
Lemma resume_entry_inv w pid wr ev l : inv w → envs w !! pid = Some ev → env_ok (tasks w) ev l →
  ∃ w' ev' l', resume_entry w pid wr = Ok w' ∧ inv w' ∧ envs w' !! pid = Some ev' ∧ env_ok (tasks w') ev' l' ∧
    match lookup_id (wr_co wr) l with
    | Some x => if bool_decide (wr_expireTime wr = e_time x)
                then activated ev' = activated ev ++ [(wr_co wr, Answered (e_time x))] ∧ l' = take_out (wr_co wr) l
                else wr_expireTime wr ≠ 0 → w' = w
    | None => wr_expireTime wr ≠ 0 → w' = w
    end.
Proof.
  intros Hinv Hev Hok. unfold resume_entry. rewrite Hev. simpl.
  pose proof (law_getNode _ l (wr_co wr) (ok_rep _ _ _ Hok)) as Hnode.
  case_bool_decide as Et.
  { exists (set_env w pid (co_activate ev (wr_co wr) Plain)), (co_activate ev (wr_co wr) Plain), l.
    assert (env_ok (tasks w) (co_activate ev (wr_co wr) Plain) l) as Hok'.
    { destruct Hok as [H1 H2 H3 H4]. constructor; simpl; try done. by rewrite ended_calls_app, app_nil_r. }
    split_and!; [done|by eapply inv_update; [| |exact Hok']; [|apply kept_refl]|simpl; by rewrite lookup_insert_eq|done|].
    destruct (lookup_id (wr_co wr) l) as [x|] eqn:Ex; [|done]. case_bool_decide as Ex2; [|done]. exfalso.
    apply lookup_id_Some in Ex as [_ Hx]. pose proof (tl_times _ _ (ok_rep _ _ _ Hok)) as Ht.
    rewrite Forall_forall in Ht. specialize (Ht x Hx). unfold time_ok, CORPC_MIN_UINT64 in Ht. lia. }
  destruct (lookup_id (wr_co wr) l) as [x|] eqn:Ex.
  - destruct Hnode as (p & Hp & Hread). rewrite Hp. simpl. rewrite Hread. simpl.
    apply lookup_id_Some in Ex as [Hid Hx].
    destruct (bool_decide (e_time x = wr_expireTime wr)) eqn:Ee.
    + apply bool_decide_eq_true in Ee. rewrite bool_decide_true by done.
      destruct (proj1 (Forall_forall _ _) (ok_tasks _ _ _ Hok) x Hx) as (task & Htask & Hco & Hexp & Hready).
      rewrite Htask. simpl. destruct (give_result_kept _ _ wr _ Htask Hready) as (task' & -> & Hkept). simpl.
      destruct (law_remove _ l _ p (ok_rep _ _ _ Hok) Hp) as (s & -> & Hs). simpl.
      rewrite <-Hid in Hs |- *. rewrite <-Ee.
      pose proof (end_call_ok _ _ _ _ x s (Answered (e_time x)) Hok Hkept Hx Hs eq_refl) as Hok'.
      eexists _, _, _. split; [done|]. split; [exact (inv_update w pid _ _ _ Hinv Hkept Hok')|].
      split; [simpl; by rewrite lookup_insert_eq|]. done.
    + apply bool_decide_eq_false in Ee. rewrite bool_decide_false by congruence.
      exists w, ev, l. split_and!; try done.
  - rewrite Hnode. exists w, ev, l. split_and!; try done.
Qed.

Lemma resume_one_inv w pid : inv w → is_Some (envs w !! pid) → ∃ w', resume_one w pid = Ok w' ∧ inv w'.
Proof.
  intros Hinv [ev Hev]. unfold resume_one. rewrite Hev. simpl.
  destruct (inv_envs _ Hinv pid ev Hev) as [l Hok]. destruct (waitResumeQueue_ ev) as [|wr q]; [eauto|].
  assert (env_ok (tasks w) (set_waitResumeQueue ev q) l) as Hok' by (destruct Hok; by constructor).
  destruct (resume_entry_inv (set_env w pid (set_waitResumeQueue ev q)) pid wr (set_waitResumeQueue ev q) l)
    as (w' & ? & ? & Hw & Hinv' & _); [|by simpl; rewrite lookup_insert_eq|done|eauto].
  by eapply inv_update; [| |exact Hok']; [|apply kept_refl].
Qed.

(** [timeoutRoutine]: the last entry of the list. *)
Lemma timeout_one_inv w pid ev l x p : inv w → envs w !! pid = Some ev → env_ok (tasks w) ev l →
  list.last l = Some x → tl_getNode (timeoutList_ ev) (e_id x) = Some p →
  ∃ w' ev', timeout_one w pid p = Ok w' ∧ inv w' ∧ envs w' !! pid = Some ev' ∧
    env_ok (tasks w') ev' (take_out (e_id x) l) ∧
    activated ev' = activated ev ++ [(e_id x, TimedOut (e_time x))] ∧
    (∃ task c c', tasks w' !! e_data x = Some task ∧ controller task = Some c ∧
       c = Controller.SetFailed (strerror ETIMEDOUT) c').
Proof.
  intros Hinv Hev Hok Hlast Hp. assert (x ∈ l) as Hx by (by apply last_Some_elem_of).
  pose proof (law_getNode _ l (e_id x) (ok_rep _ _ _ Hok)) as Hn.
  rewrite (lookup_id_elem l x) in Hn by (done || by eapply tl_ids, Hok).
  destruct Hn as (p' & Hp' & Hread). assert (p' = p) as -> by congruence.
  unfold timeout_one. rewrite Hev. simpl. rewrite Hread. simpl.
  destruct (proj1 (Forall_forall _ _) (ok_tasks _ _ _ Hok) x Hx) as (task & Htask & Hco & Hexp & Hready).
  destruct Hready as ([c Hc] & Hr & Hr1). rewrite Htask. simpl. rewrite Hc. simpl.
  destruct (law_remove _ l _ p (ok_rep _ _ _ Hok) Hp) as (s & -> & Hs). simpl. rewrite Hco.
  set (task' := RpcClient.set_controller _ task).
  assert (kept (tasks w) (<[e_data x := task']> (tasks w))) as Hkept.
  { eapply kept_insert; [exact Htask|done|done|]. intros _. split_and!; [by eexists|done|done]. }
  pose proof (end_call_ok _ _ _ _ x s (TimedOut (e_time x)) Hok Hkept Hx Hs eq_refl) as Hok'.
  eexists _, _. split; [done|]. split; [exact (inv_update w pid _ _ _ Hinv Hkept Hok')|].
  split; [simpl; by rewrite lookup_insert_eq|]. split; [done|]. split; [done|].
  exists task'. simpl. rewrite lookup_insert_eq. eauto.
Qed.

(** The entries of an ordered list that have expired are its end. *)
Definition expired (now : Z) (l : list (entry Z)) : list (entry Z) := filter (λ x, e_time x <= now) l.
Definition alive (now : Z) (l : list (entry Z)) : list (entry Z) := filter (λ x, now < e_time x) l.

Lemma take_out_last (l : list (entry Z)) x : NoDup (e_id <$> (l ++ [x])) → take_out (e_id x) (l ++ [x]) = l.
Proof.
  rewrite fmap_app. intros (_ & Hx & _)%NoDup_app. unfold take_out. rewrite filter_app, filter_cons_False by naive_solver.
  rewrite app_nil_r. apply list_filter_all. apply Forall_forall. intros y Hy E.
  apply (Hx (e_id y)); [by apply list_elem_of_fmap_2|]. simpl. rewrite E. by apply list_elem_of_singleton.
Qed.

(** One tick at the time [now]. *)
Lemma timeout_loop_ok now pid : ∀ l fuel w ev, (length l ≤ fuel)%nat → inv w → envs w !! pid = Some ev → env_ok (tasks w) ev l →
  ∃ w' ev', timeout_loop fuel w pid now = Ok w' ∧ inv w' ∧ envs w' !! pid = Some ev' ∧
    env_ok (tasks w') ev' (alive now l) ∧
    activated ev' = activated ev ++ ((λ x, (e_id x, TimedOut (e_time x))) <$> reverse (expired now l)).
Proof.
  induction l as [|x l IH] using rev_ind; intros fuel w ev Hf Hinv Hev Hok.
  - pose proof (law_getLast _ _ (ok_rep _ _ _ Hok)) as Hl. simpl in Hl.
    exists w, ev. split_and!; try done; [|by rewrite app_nil_r]. destruct fuel; simpl; rewrite Hev; simpl; by rewrite Hl.
  - pose proof (law_getLast _ _ (ok_rep _ _ _ Hok)) as Hl. rewrite last_snoc in Hl. destruct Hl as (p & Hl & Hp).
    pose proof (law_getNode _ _ (e_id x) (ok_rep _ _ _ Hok)) as Hn.
    rewrite (lookup_id_elem _ x) in Hn by (by eapply tl_ids, Hok || (apply elem_of_app; right; by apply list_elem_of_singleton)).
    destruct Hn as (p' & Hp' & Hread). assert (p' = p) as -> by congruence.
    destruct (decide (e_time x <= now)) as [Hle|Hgt].
    + destruct fuel as [|fuel]; [rewrite length_app in Hf; simpl in Hf; lia|]. simpl. rewrite Hev. simpl. rewrite Hl. simpl.
      rewrite Hread. simpl. rewrite bool_decide_true by done.
      destruct (timeout_one_inv w pid ev (l ++ [x]) x p Hinv Hev Hok (last_snoc _ _) Hp)
        as (w1 & ev1 & Hw1 & Hinv1 & Hev1 & Hok1 & Hact1 & _).
      rewrite Hw1. simpl. rewrite take_out_last in Hok1 by (by eapply tl_ids, Hok).
      destruct (IH fuel w1 ev1) as (w' & ev' & Hw' & Hinv' & Hev' & Hok' & Hact'); try done.
      { rewrite length_app in Hf. simpl in Hf. lia. }
      exists w', ev'. split_and!; try done.
      * unfold alive. rewrite filter_app, filter_cons_False by lia. by rewrite app_nil_r.
      * rewrite Hact', Hact1. unfold expired. rewrite filter_app, filter_cons_True by done.
        rewrite reverse_app, fmap_app, <-(assoc_L (++)). done.
    + exists w, ev.
      assert (Forall (λ y, now < e_time y) (l ++ [x])) as Hall.
      { pose proof (tl_order _ _ (ok_rep _ _ _ Hok)) as Ho. apply Forall_app. split; [|by repeat constructor; lia].
        eapply Forall_impl; [by eapply ordered_last|]. simpl. lia. }
      split_and!; try done.
      * destruct fuel; simpl; rewrite Hev; simpl; rewrite Hl; simpl; rewrite Hread; simpl; by rewrite bool_decide_false by lia.
      * unfold alive. rewrite list_filter_all by done. done.
      * unfold expired. rewrite list_filter_none; [by rewrite app_nil_r|]. eapply Forall_impl; [exact Hall|]. simpl. lia.
Qed.

Lemma new_env_ok ts : env_ok ts (Env [CleanRoutine; ResumeRoutine; TimeoutRoutine] [] tl_new [] [] [] [] []) [].
Proof. constructor; try done. apply law_new. Qed.

Lemma getEnv_inv w pid : inv w → ∃ w' ev l, getEnv w pid = Ok (w', ev) ∧ inv w' ∧ envs w' !! pid = Some ev ∧
  env_ok (tasks w') ev l ∧ tasks w' = tasks w ∧ living w' = living w ∧ keyRoutineNum_ w' = keyRoutineNum_ w ∧
  (envs w !! pid = None → l = []) ∧ (∀ ev0, envs w !! pid = Some ev0 → ev = ev0).
Proof.
  intros Hinv. unfold getEnv, initialize. destruct (envs w !! pid) as [ev|] eqn:Hev.
  - destruct (inv_envs _ Hinv pid ev Hev) as [l Hok]. exists w, ev, l. split_and!; try done. by intros ? [= ->].
  - unfold require. rewrite decide_True by done. simpl. pose proof (new_env_ok (tasks w)) as Hok.
    eexists _, _, []. split; [done|]. split; [exact (inv_update w pid _ _ _ Hinv (kept_refl _) Hok)|].
    split; [simpl; by rewrite lookup_insert_eq|]. split_and!; done.
Qed.

Lemma add_inv w pid p lv task : inv w → tasks w !! p = Some task → ready task → time_ok (expireTime task) →
  (1 ≤ lv ≤ Z.to_nat CORPC_SKIP_LIST_MAX_LEVEL)%nat →
  (∀ ev, envs w !! pid = Some ev → tl_getNode (timeoutList_ ev) (co task) = None) →
  ∃ w', addTimeoutTask w pid p lv = Ok w' ∧ inv w'.
Proof.
  intros Hinv Hp Hready Ht Hlv Hfree. unfold addTimeoutTask.
  destruct (getEnv_inv w pid Hinv) as (w1 & ev & l & -> & Hinv1 & Hev & Hok & Hts & _ & _ & Hnew & Hold). simpl.
  rewrite Hts, Hp. simpl.
  assert (co task ∉ e_id <$> l) as Hn.
  { destruct (envs w !! pid) as [ev0|] eqn:E; [|rewrite Hnew by done; apply not_elem_of_nil].
    rewrite <-(Hold ev0 eq_refl) in *. specialize (Hfree ev eq_refl).
    pose proof (law_getNode _ l (co task) (ok_rep _ _ _ Hok)) as Hnode.
    destruct (lookup_id (co task) l) as [x|] eqn:Ex; [destruct Hnode as (? & ? & _); congruence|].
    apply lookup_id_None in Ex. rewrite Forall_forall in Ex. intros (y & ? & ?)%list_elem_of_fmap. by apply (Ex y). }
  destruct (law_insert _ l lv (co task) (expireTime task) p (ok_rep _ _ _ Hok) Hlv Ht Hn) as (s & -> & Hs). simpl.
  eexists. split; [done|]. refine (inv_update w1 pid _ _ _ Hinv1 (kept_refl _) _).
  destruct Hok as [H1 H2 H3 H4]. constructor; simpl; [exact Hs| |  |done].
  - rewrite put_perm. constructor; [|done]. exists task. rewrite Hts. split_and!; done.
  - unfold pending. rewrite put_perm, H3. simpl. unfold pending.
    rewrite <-(assoc_L (++)), (comm (++) (_ <$> l) [_]). done.
Qed.

Lemma keys_app l (x : Z * Z * bool) : keys (l ++ [x]) = keys l + (if x.2 then 1 else 0).
Proof.
  unfold keys. rewrite filter_app, zlen_app. destruct x as [y []]; [rewrite filter_cons_True by done|rewrite filter_cons_False by done];
    done.
Qed.
Lemma keys_delete l k (x : Z * Z * bool) : l !! k = Some x → keys (delete k l) = keys l - (if x.2 then 1 else 0).
Proof.
  unfold keys. revert k. induction l as [|y l IH]; intros k Hk; [done|]. destruct k as [|k]; simpl in *.
  - injection Hk as ->. destruct x as [y []]; simpl; [rewrite filter_cons_True by done|rewrite filter_cons_False by done];
      rewrite ?zlen_cons; lia.
  - specialize (IH k Hk). destruct y as [z []]; [rewrite !filter_cons_True by done|rewrite !filter_cons_False by done];
      rewrite ?zlen_cons; lia.
Qed.

Lemma start_inv w pid c key : inv w → ∃ w', start w pid c key = Ok w' ∧ inv w'.
Proof.
  intros Hinv. unfold start. destruct (getEnv_inv w pid Hinv) as (w1 & ev & l & -> & [He Hk] & _ & _ & _ & _ & _ & _ & _).
  simpl. eexists. split; [done|]. constructor; simpl; [done|]. rewrite keys_app, Hk. simpl.
  destruct key; [by rewrite u32_add_l|]. by rewrite Z.add_0_r.
Qed.
Lemma finish_inv w k w' : inv w → finish w k = Ok w' → inv w'.
Proof.
  intros Hinv. unfold finish. destruct (living w !! k) as [[[pid c] key]|] eqn:El; [|done]. simpl.
  destruct (getEnv_inv w pid Hinv) as (w1 & ev & l & -> & Hinv1 & Hev & Hok & _ & Hl & _ & _ & _). simpl. intros [= <-].
  assert (inv (set_env w1 pid (addEndedCoroutine ev c))) as [He _].
  { refine (inv_update w1 pid _ l _ Hinv1 (kept_refl _) _). destruct Hok as [H1 H2 H3 H4]. constructor; simpl; try done.
    by rewrite H4, <-(assoc_L (++)). }
  constructor; simpl; [exact He|]. rewrite (inv_keys _ Hinv1), Hl, (keys_delete _ _ _ El). simpl.
  destruct key; [by rewrite u32_sub_l|]. by rewrite Z.sub_0_r.
Qed.

Lemma clean_loop_ok fuel ev : (length (endedCoroutines_ ev) ≤ fuel)%nat →
  clean_loop fuel ev = Ok (Env (started ev) (waitResumeQueue_ ev) (timeoutList_ ev) [] (activated ev)
    (released ev ++ endedCoroutines_ ev) (added ev) (ended ev)).
Proof.
  revert ev. induction fuel as [|fuel IH]; intros ev Hf; simpl; destruct ev as [st q s ec act rel ad en]; simpl in *;
    (destruct ec as [|c ec]; simpl in *; [by rewrite app_nil_r|]); [lia|].
  rewrite IH by (simpl; lia). simpl. by rewrite <-(assoc_L (++)).
Qed.
Lemma clean_inv w pid ev : inv w → envs w !! pid = Some ev → ∃ w' ev', clean w pid = Ok w' ∧ inv w' ∧
  envs w' !! pid = Some ev' ∧ endedCoroutines_ ev' = [] ∧ released ev' = ended ev.
Proof.
  intros Hinv Hev. unfold clean. rewrite Hev. simpl. rewrite clean_loop_ok by done. simpl.
  destruct (inv_envs _ Hinv pid ev Hev) as [l [H1 H2 H3 H4]]. eexists _, _. split; [done|].
  split; [refine (inv_update w pid _ l _ Hinv (kept_refl _) _); constructor; simpl; try done; by rewrite app_nil_r|].
  split; [simpl; by rewrite lookup_insert_eq|]. done.
Qed.

Lemma timeout_loop_inv pid now w' : ∀ fuel w, inv w → timeout_loop fuel w pid now = Ok w' → inv w'.
Proof.
  induction fuel as [|fuel IH]; intros w Hinv; simpl; (destruct (envs w !! pid) as [ev|] eqn:Hev; [|done]); simpl;
    destruct (inv_envs _ Hinv pid ev Hev) as [l Hok]; pose proof (law_getLast _ _ (ok_rep _ _ _ Hok)) as Hl;
    (destruct (list.last l) as [x|] eqn:Ex; [destruct Hl as (p & -> & Hp)|rewrite Hl; simpl; by intros [= <-]]); simpl;
    assert (x ∈ l) as Hx by (by apply last_Some_elem_of);
    pose proof (law_getNode _ _ (e_id x) (ok_rep _ _ _ Hok)) as Hn;
    rewrite (lookup_id_elem _ x) in Hn by (done || by eapply tl_ids, Hok);
    destruct Hn as (p' & Hp' & Hread); assert (p' = p) as -> by congruence;
    rewrite Hread; simpl; (destruct (bool_decide _); [|by intros [= <-]]); [done|].
  destruct (timeout_one_inv w pid ev l x p Hinv Hev Hok Ex Hp) as (w1 & ev1 & -> & Hinv1 & _). simpl. by apply IH.
Qed.

Lemma env_step_inv w w' : inv w → step w w' → inv w'.
Proof.
  intros Hinv Hst. destruct Hst as [p task Hp|p task task' Hp Ht|pid p lv task w' Hp Hr Ht Hlv Hf Hs|pid c t err w' Hs
    |pid w' Hs|fuel pid now w' Hs|pid c key w' Hs|k w' Hs|pid w' Hs|].
  - destruct Hinv as [He Hk]. constructor; simpl; [|done]. intros pid ev Hev. destruct (He pid ev Hev) as [l Hl].
    exists l. eapply env_ok_kept; [by apply kept_fresh|done].
  - destruct Hinv as [He Hk]. constructor; simpl; [|done]. intros pid ev Hev. destruct (He pid ev Hev) as [l Hl].
    exists l. eapply env_ok_kept; [|done]. eapply kept_insert; [exact Hp|..]; destruct Ht as [[m ->]|[c ->]]; try done.
    intros (H1 & H2 & _). split_and!; [done|done|by eexists].
  - destruct (add_inv w pid p lv task Hinv Hp Hr Ht Hlv Hf) as (w2 & Hs2 & ?). assert (w' = w2) as -> by congruence. done.
  - unfold resumeCoroutine in Hs. destruct (envs w !! pid) as [ev|] eqn:Hev; [|done]. injection Hs as <-.
    destruct (inv_envs _ Hinv pid ev Hev) as [l [H1 H2 H3 H4]].
    refine (inv_update w pid _ l _ Hinv (kept_refl _) _). by constructor.
  - destruct (envs w !! pid) as [ev|] eqn:Hev; [|unfold resume_one in Hs; by rewrite Hev in Hs].
    destruct (resume_one_inv w pid Hinv ltac:(eauto)) as (w2 & Hs2 & ?). assert (w' = w2) as -> by congruence. done.
  - by eapply timeout_loop_inv.
  - destruct (start_inv w pid c key Hinv) as (w2 & Hs2 & ?). assert (w' = w2) as -> by congruence. done.
  - by eapply finish_inv.
  - destruct (envs w !! pid) as [ev|] eqn:Hev; [|unfold clean in Hs; by rewrite Hev in Hs].
    destruct (clean_inv w pid ev Hinv Hev) as (w2 & ev2 & Hs2 & ? & _). assert (w' = w2) as -> by congruence. done.
  - unfold safeQuit. case_bool_decide; [|done]. destruct Hinv. by constructor.
Qed.
Lemma env_inv_reach w : reach step init w → inv w.
Proof.
  apply reach_invariant; [|intros w1 w2; apply env_step_inv]. constructor; [|done]. intros pid ev. simpl. by rewrite lookup_empty.
Qed.

(** C26 (env_calls_once).  Whatever the threads do, in every environment the
    calls added to the list of time-outs are, each exactly once, either still
    pending or ended by one activation of their coroutine (by the answer or by
    the time-out, never both); the routine that resumes coroutines never faults;
    every coroutine that ended is released exactly once and in order; and
    [safeQuitRoutine] ends the program only when no key coroutine lives. *)
Theorem env_calls_once w pid ev : reach step init w → envs w !! pid = Some ev →
  (∃ l, tl_rep (timeoutList_ ev) l ∧ added ev ≡ₚ ended_calls (activated ev) ++ pending l) ∧
  (∃ w', resume_one w pid = Ok w') ∧
  (∃ w' ev', clean w pid = Ok w' ∧ envs w' !! pid = Some ev' ∧ endedCoroutines_ ev' = [] ∧ released ev' = ended ev) ∧
  (exited w = false → exited (safeQuit w) = true → zlen (living w) < 2^32 → keys (living w) = 0).
Proof.
  intros Hinv%env_inv_reach Hev. destruct (inv_envs _ Hinv pid ev Hev) as [l [H1 H2 H3 H4]]. split_and!.
  - eauto.
  - destruct (resume_one_inv w pid Hinv ltac:(eauto)) as (w' & ? & _). eauto.
  - destruct (clean_inv w pid ev Hinv Hev) as (w' & ev' & ? & _ & ? & ? & ?). eauto 10.
  - intros He. unfold safeQuit. case_bool_decide as Hz; [|congruence]. intros _ Hb.
    rewrite (inv_keys _ Hinv) in Hz. rewrite u32_small in Hz; [done|]. unfold keys.
    assert (∀ k : list (Z * Z * bool), zlen (filter (λ x, x.2 = true) k) ≤ zlen k) as Hle.
    { induction k as [|y k IH]; [done|]. rewrite filter_cons, zlen_cons. case_decide; rewrite ?zlen_cons; lia. }
    specialize (Hle (living w)). pose proof (zlen_nonneg (filter (λ x : Z * Z * bool, x.2 = true) (living w))). lia.
Qed.

(** C27 (timeout_tick).  A round of [timeoutRoutine] at the time [now]
    terminates without a fault, removes exactly the calls with
    [expireTime <= now] and activates their coroutines, the earliest expiry
    first; all others stay pending. *)
Theorem timeout_tick w pid ev now : reach step init w → envs w !! pid = Some ev →
  ∃ l w' ev', tl_rep (timeoutList_ ev) l ∧ timeout_loop (length l) w pid now = Ok w' ∧ envs w' !! pid = Some ev' ∧
    tl_rep (timeoutList_ ev') (alive now l) ∧
    activated ev' = activated ev ++ ((λ x, (e_id x, TimedOut (e_time x))) <$> reverse (expired now l)).
Proof.
  intros Hinv%env_inv_reach Hev. destruct (inv_envs _ Hinv pid ev Hev) as [l Hok].
  destruct (timeout_loop_ok now pid l (length l) w ev) as (w' & ev' & ? & _ & ? & Hok' & ?); try done.
  exists l, w', ev'. split_and!; try done; [apply Hok|apply Hok'].
Qed.

(** [resumeRoutine] with an entry for the coroutine [c]
    and a time other than 0: if a call of [c] with that very time is pending, it
    ends and [c] is activated; otherwise (the call timed out, or the address of
    the coroutine was reused) nothing changes. *)
Theorem resume_answers w pid ev wr : reach step init w → envs w !! pid = Some ev → wr_expireTime wr ≠ 0 →
  ∃ l w', tl_rep (timeoutList_ ev) l ∧ resume_entry w pid wr = Ok w' ∧
    match lookup_id (wr_co wr) l with
    | Some x =>
      if bool_decide (wr_expireTime wr = e_time x) then
        ∃ ev', envs w' !! pid = Some ev' ∧ activated ev' = activated ev ++ [(wr_co wr, Answered (e_time x))] ∧
          tl_rep (timeoutList_ ev') (take_out (wr_co wr) l)
      else w' = w
    | None => w' = w
    end.
Proof.
  intros Hinv%env_inv_reach Hev Ht. destruct (inv_envs _ Hinv pid ev Hev) as [l Hok].
  destruct (resume_entry_inv w pid wr ev l Hinv Hev Hok) as (w' & ev' & l' & ? & _ & ? & Hok' & Hm).
  exists l, w'. split_and!; [apply Hok|done|]. destruct (lookup_id (wr_co wr) l) as [x|]; [|auto].
  destruct (bool_decide _); [|auto]. destruct Hm as [? ->]. exists ev'. split_and!; [done|done|apply Hok'].
Qed.
End ops.
End RoutineEnvironment.

(** A coroutine at address 77 of thread 1 makes a call that expires at 500; an
    answer of another call arrives first, then the call times out. *)
Module EnvExample.
Import RoutineEnvironment.

Definition task : RpcClientTask Z :=
  {| pid := 1; co := 77; request := 0; response := Some 0; response_1 := Some 0;
     controller := Some Controller.Reset; controller_1 := None; done := false;
     serviceId := 1; methodId := 0; expireTime := 500 |}.
Definition merge (a b : Z) : Z := a + b.
Definition err_text (e : Z) : bytes := [e].

Definition or_else (o : outcome (world Z (TimeoutList.t Z))) (w : world Z (TimeoutList.t Z)) : world Z (TimeoutList.t Z) :=
  match o with Ok w' => w' | Fault _ => w end.

Definition w1 : world Z (TimeoutList.t Z) := set_task init 10 task.
Definition w2 : world Z (TimeoutList.t Z) := or_else (addTimeoutTask w1 1 10 3) w1.
Definition ev2 : env (TimeoutList.t Z) := default (Env [] [] TimeoutList.new [] [] [] [] []) (envs w2 !! 1).
Definition stale : WaitResume := {| wr_co := 77; wr_expireTime := 400; wr_err := 0 |}.

Lemma w2_reach : reach (step merge err_text) init w2.
Proof.
  apply (reach_step _ _ w1).
  - apply (reach_step _ _ init); [apply reach_refl|]. by apply StepTask.
  - apply (StepAdd merge err_text w1 1 10 3 task).
    + vm_compute. reflexivity.
    + split; [by eexists|]. split; by eexists.
    + split; vm_compute; reflexivity.
    + vm_compute. lia.
    + intros ev Hev. vm_compute in Hev. done.
    + vm_compute. reflexivity.
Qed.

Lemma env_calls_once_witness :
  (envs w2 !! 1 = Some ev2 ∧ added ev2 = [(77, 500)]) ∧
  (∃ l, tl_rep (timeoutList_ ev2) l ∧ added ev2 ≡ₚ ended_calls (activated ev2) ++ pending l) ∧
  (∃ w', resume_one merge err_text w2 1 = Ok w').
Proof.
  split; [split; vm_compute; reflexivity|].
  destruct (env_calls_once merge err_text w2 1 ev2 w2_reach ltac:(vm_compute; reflexivity)) as (H1 & H2 & _).
  split; [exact H1|exact H2].
Defined.

Lemma timeout_tick_witness : ∃ l w' ev', tl_rep (timeoutList_ ev2) l ∧
  timeout_loop err_text (length l) w2 1 600 = Ok w' ∧ envs w' !! 1 = Some ev' ∧ tl_rep (timeoutList_ ev') (alive 600 l) ∧
  activated ev' = activated ev2 ++ ((λ x, (e_id x, TimedOut (e_time x))) <$> reverse (expired 600 l)).
Proof. exact (timeout_tick merge err_text w2 1 ev2 600 w2_reach ltac:(vm_compute; reflexivity)). Defined.

Lemma resume_answers_witness : ∃ l w', tl_rep (timeoutList_ ev2) l ∧ resume_entry merge err_text w2 1 stale = Ok w' ∧
  match lookup_id 77 l with
  | Some x =>
    if bool_decide (400 = e_time x) then
      ∃ ev', envs w' !! 1 = Some ev' ∧ activated ev' = activated ev2 ++ [(77, Answered (e_time x))] ∧
        tl_rep (timeoutList_ ev') (take_out 77 l)
    else w' = w2
  | None => w' = w2
  end.
Proof. exact (resume_answers merge err_text w2 1 ev2 stale w2_reach ltac:(vm_compute; reflexivity) ltac:(done)). Defined.
End EnvExample.
