(* ===== verification/Heartbeat.v ===== *)
(** * corpc_io.cpp: the heartbeats

    [Heartbeater] keeps the connections with heartbeats in a list ordered by the
    time of their next heartbeat (used by its contract, TimeoutSpec.v).
    [dispatchRoutine] adds and removes connections; [heartbeatRoutine] sends the
    heartbeats that are due, closes the connections that were silent too long,
    sleeps until the next one is due, and hangs while there is none.  The two are
    coroutines of one thread: [dispatchRoutine] runs only while the other sleeps
    or hangs.  The receivers of the connections note the time of the heartbeats
    they get, from their own threads. *)
From stdpp Require Import gmap.
From S2P Require Import Prelude Define TimeoutSpec TimeoutList.
Open Scope Z_scope.

Module Heartbeater.

(** The members of [Connection] the heartbeater uses. *)
Record conn : Type := Conn {
  closed_ : bool;
  isClosing_ : bool;
  isHBing_ : bool;
  lastRecvHBTime_ : Z;
}.
Definition isOpen (x : conn) : bool := negb (isClosing_ x || closed_ x).

(** [HeartbeatTask] *)
Inductive HeartbeatTask : Type := START (c : Z) | STOP (c : Z).

(** Where [heartbeatRoutine] is: hanging, at the beginning of its loop, at the
    two readings of the time of the last heartbeat from the connection [c] with
    node [p] and expiry [ex] after it read the clock, or asleep. *)
Inductive pc : Type :=
  | Hanging
  | Running
  | Starting (p c now ex : Z)
  | Checking (p c now ex : Z)
  | Sleeping (until : Z).

(** The state: connections by address, the members of [Heartbeater], the clock
    ([mtime]), and records of the heartbeats sent (connection, time) and of the
    connections closed (connection, reading of the clock, last heartbeat). *)
Record t (L : Type) : Type := Make {
  conns : gmap Z conn;
  queue_ : list HeartbeatTask;
  heartbeatList_ : L;
  heartbeatRoutineHang_ : bool;
  at_ : pc;
  clock : Z;
  sent : list (Z * Z);
  closes : list (Z * Z * Z);
}.
Arguments Make {_} _ _ _ _ _ _ _ _.
Arguments conns {_} _.
Arguments queue_ {_} _.
Arguments heartbeatList_ {_} _.
Arguments heartbeatRoutineHang_ {_} _.
Arguments at_ {_} _.
Arguments clock {_} _.
Arguments sent {_} _.
Arguments closes {_} _.

Section ops.
Context {L : Type} `{TimeoutOps Z L}.
Implicit Types (s : t L).

Definition set_conn s (c : Z) (x : conn) : t L :=
  Make (<[c := x]> (conns s)) (queue_ s) (heartbeatList_ s) (heartbeatRoutineHang_ s) (at_ s) (clock s) (sent s) (closes s).
Definition set_queue s (q : list HeartbeatTask) : t L :=
  Make (conns s) q (heartbeatList_ s) (heartbeatRoutineHang_ s) (at_ s) (clock s) (sent s) (closes s).
Definition set_list s (l : L) : t L :=
  Make (conns s) (queue_ s) l (heartbeatRoutineHang_ s) (at_ s) (clock s) (sent s) (closes s).
Definition set_pc s (p : pc) : t L :=
  Make (conns s) (queue_ s) (heartbeatList_ s) (heartbeatRoutineHang_ s) p (clock s) (sent s) (closes s).
Definition set_hang s (b : bool) : t L :=
  Make (conns s) (queue_ s) (heartbeatList_ s) b (at_ s) (clock s) (sent s) (closes s).
Definition set_clock s (z : Z) : t L :=
  Make (conns s) (queue_ s) (heartbeatList_ s) (heartbeatRoutineHang_ s) (at_ s) z (sent s) (closes s).
Definition log_sent s (c now : Z) : t L :=
  Make (conns s) (queue_ s) (heartbeatList_ s) (heartbeatRoutineHang_ s) (at_ s) (clock s) (sent s ++ [(c, now)]) (closes s).
Definition log_close s (c now last : Z) : t L :=
  Make (conns s) (queue_ s) (heartbeatList_ s) (heartbeatRoutineHang_ s) (at_ s) (clock s) (sent s) (closes s ++ [(c, now, last)]).

Definition set_last (z : Z) (x : conn) : conn := Conn (closed_ x) (isClosing_ x) (isHBing_ x) z.
Definition set_hbing (b : bool) (x : conn) : conn := Conn (closed_ x) (isClosing_ x) b (lastRecvHBTime_ x).
Definition set_closing (x : conn) : conn := Conn (closed_ x) true (isHBing_ x) (lastRecvHBTime_ x).
Definition set_closed (x : conn) : conn := Conn true (isClosing_ x) (isHBing_ x) (lastRecvHBTime_ x).

(** [Heartbeater::addConnection] and [removeConnection]. *)
Definition addConnection s (c : Z) : outcome (t L) :=
  x ← deref (conns s !! c);
  Ok (set_queue (set_conn s c (set_hbing true x)) (queue_ s ++ [START c])).
Definition removeConnection s (c : Z) : outcome (t L) :=
  x ← deref (conns s !! c);
  Ok (set_queue (set_conn s c (set_hbing false x)) (queue_ s ++ [STOP c])).

(** [Connection::close]: the request to the [IO] is not part of this state. *)
Definition close s (c : Z) : outcome (t L) :=
  x ← deref (conns s !! c);
  if isOpen x then if isHBing_ x then removeConnection s c else Ok s else Ok s.

(** [dispatchRoutine]: one task; [lv] is the level [randomLevel] picks. *)
Definition dispatch s (lv : nat) : outcome (t L) :=
  match queue_ s with
  | [] => Ok s
  | START c :: q =>
    l ← tl_insert lv (heartbeatList_ s) c (u64 (clock s + CORPC_HEARTBEAT_PERIOD)) c;
    let s := set_list (set_queue s q) l in
    Ok (if heartbeatRoutineHang_ s then set_pc (set_hang s false) Running else s)
  | STOP c :: q =>
    let s := set_queue s q in
    match tl_getNode (heartbeatList_ s) c with
    | None => Ok s
    | Some p => l ← tl_remove (heartbeatList_ s) p; Ok (set_list s l)
    end
  end.

(** [heartbeatRoutine]: the beginning of a round. *)
Definition round s : outcome (t L) :=
  e ← tl_empty (heartbeatList_ s);
  if (e : bool) then Ok (set_pc (set_hang s true) Hanging) else
  let nowms := clock s in
  last ← tl_getLast (heartbeatList_ s);
  p ← deref last;
  node ← tl_read (heartbeatList_ s) p;
  x ← deref (conns s !! e_data node);
  if closed_ x then l ← tl_remove (heartbeatList_ s) p; Ok (set_list s l)
  else Ok (set_pc s (Starting p (e_data node) nowms (e_time node))).

(** The time of the last heartbeat is set for a new connection. *)
Definition start_check s (p c now ex : Z) : outcome (t L) :=
  x ← deref (conns s !! c);
  Ok (set_pc (if bool_decide (lastRecvHBTime_ x = 0) then set_conn s c (set_last now x) else s) (Checking p c now ex)).

(** The rest of the round. *)
Definition check s (p c now ex : Z) (lv : nat) : outcome (t L) :=
  x ← deref (conns s !! c);
  if bool_decide (u64 (now - lastRecvHBTime_ x) > CORPC_MAX_NO_HEARTBEAT_TIME) then
    l ← tl_remove (heartbeatList_ s) p;
    s ← close (log_close (set_list s l) c now (lastRecvHBTime_ x)) c;
    Ok (set_pc s Running)
  else if bool_decide (ex > now) then Ok (set_pc s (Sleeping ex))
  else
    l ← tl_remove (heartbeatList_ s) p;
    l ← tl_insert lv l c (u64 (now + CORPC_HEARTBEAT_PERIOD)) c;
    Ok (set_pc (log_sent (set_list s l) c now) Running).

(** The routine of the thread that runs. *)
Definition heartbeat s (lv : nat) : outcome (t L) :=
  match at_ s with
  | Running => round s
  | Starting p c now ex => start_check s p c now ex
  | Checking p c now ex => check s p c now ex lv
  | Sleeping until => if bool_decide (until ≤ clock s) then Ok (set_pc s Running) else Ok s
  | Hanging => Ok s
  end.

Definition resting s : Prop := match at_ s with Hanging | Sleeping _ => True | _ => False end.
Definition level_ok (lv : nat) : Prop := (1 ≤ lv ≤ Z.to_nat CORPC_SKIP_LIST_MAX_LEVEL)%nat.

(** [Server::buildAndAddConnection]: a new connection. *)
Definition build s (c : Z) (needHB : bool) : outcome (t L) :=
  let s := set_conn s c (Conn false false false 0) in
  if needHB then addConnection s c else Ok s.

(** The steps of the threads.  The receiver of a connection notes the heartbeats
    it gets and closes it, the sender may
    begin to close it at any time. *)
Inductive step s : t L → Prop :=
  | StepBuild c needHB s' : conns s !! c = None → build s c needHB = Ok s' → step s s'
  | StepRemove c x s' : conns s !! c = Some x → isHBing_ x = true → removeConnection s c = Ok s' → step s s'
  | StepRecv c x : conns s !! c = Some x → step s (set_conn s c (set_last (clock s) x))
  | StepClosing c x : conns s !! c = Some x → step s (set_conn s c (set_closing x))
  | StepClosed c x : conns s !! c = Some x → step s (set_conn s c (set_closed x))
  | StepTick : clock s + 1 + CORPC_HEARTBEAT_PERIOD < CORPC_MAX_UINT64 → step s (set_clock s (clock s + 1))
  | StepDispatch lv s' : level_ok lv → resting s → dispatch s lv = Ok s' → step s s'
  | StepHeartbeat lv s' : level_ok lv → heartbeat s lv = Ok s' → step s s'.

(** The thread has started [heartbeatRoutine]. *)
Definition init (now : Z) : t L := Make ∅ [] tl_new false Running now [] [].

(** ** The invariant *)
Context `{!TimeoutLaws Z L}.

Definition start_of (k : HeartbeatTask) : option Z := match k with START c => Some c | STOP _ => None end.
Definition starts (q : list HeartbeatTask) : list Z := omap start_of q.
Definition task_conn (k : HeartbeatTask) : Z := match k with START c | STOP c => c end.

(** What the routine relies on between two of its steps. *)
Definition pc_ok s (l : list (entry Z)) : Prop :=
  match at_ s with
  | Hanging => l = []
  | Running => True
  | Starting p c now ex | Checking p c now ex => 0 < now ≤ clock s ∧
      ∃ x, list.last l = Some x ∧ e_id x = c ∧ e_time x = ex ∧ tl_getNode (heartbeatList_ s) c = Some p
  | Sleeping until => Forall (λ x, until ≤ e_time x) l ∧ until ≤ clock s + CORPC_HEARTBEAT_PERIOD
  end.

Record inv s (l : list (entry Z)) : Prop := {
  inv_rep : tl_rep (heartbeatList_ s) l;
  inv_ids : NoDup ((e_id <$> l) ++ starts (queue_ s));
  inv_known : Forall (λ c, is_Some (conns s !! c)) ((e_id <$> l) ++ (task_conn <$> queue_ s));
  inv_data : Forall (λ x, e_data x = e_id x) l;
  inv_hang : heartbeatRoutineHang_ s = match at_ s with Hanging => true | _ => false end;
  inv_clock : 0 < clock s ∧ clock s + CORPC_HEARTBEAT_PERIOD < CORPC_MAX_UINT64;
  inv_times : Forall (λ x, e_time x ≤ clock s + CORPC_HEARTBEAT_PERIOD) l;
  inv_pc : pc_ok s l;
  inv_stops c x : STOP c ∈ queue_ s → conns s !! c = Some x → isHBing_ x = false;
  inv_served c x : conns s !! c = Some x → isHBing_ x = true → isOpen x = true → c ∈ (e_id <$> l) ++ starts (queue_ s);
}.

Lemma starts_known (q : list HeartbeatTask) c : c ∈ starts q → c ∈ task_conn <$> q.
Proof.
  intros ([c'|c'] & Hk & Hc)%list_elem_of_omap; simpl in Hc; [|done]. injection Hc as ->.
  by apply (list_elem_of_fmap_2 task_conn _ (START c)).
Qed.
Lemma starts_app (q k : list HeartbeatTask) : starts (q ++ k) = starts q ++ starts k.
Proof. apply omap_app. Qed.

(** A connection changes, but is not opened, and no heartbeats are started. *)
Lemma hb_inv_conn s l c x x' : inv s l → conns s !! c = Some x → (isHBing_ x' = true → isHBing_ x = true) →
  (isOpen x' = true → isOpen x = true) → inv (set_conn s c x') l.
Proof.
  intros [H1 H2 H3 H4 H5 H6 H7 H8 Hstop H9] Hx Hh Ho. constructor; simpl; try done.
  - eapply Forall_impl; [exact H3|]. intros c' [y Hy]. destruct (decide (c = c')) as [<-|Hne].
    + rewrite lookup_insert_eq. by eexists.
    + rewrite lookup_insert_ne by done. by eexists.
  - intros c' y Hs. destruct (decide (c = c')) as [<-|Hne].
    + rewrite lookup_insert_eq. intros [= <-]. specialize (Hstop c x Hs Hx). destruct (isHBing_ x'); [|done]. rewrite Hh in Hstop; done.
    + rewrite lookup_insert_ne by done. by apply Hstop.
  - intros c' y. destruct (decide (c = c')) as [<-|Hne].
    + rewrite lookup_insert_eq. intros [= <-] ? ?. eapply H9; eauto.
    + rewrite lookup_insert_ne by done. apply H9.
Qed.

Lemma build_inv s l c needHB s' : inv s l → conns s !! c = None → build s c needHB = Ok s' → inv s' l.
Proof.
  intros [H1 H2 H3 H4 H5 H6 H7 H8 Hstop H9] Hc. unfold build.
  assert (∀ y, Forall (λ c', is_Some (<[c := y]> (conns s) !! c')) ((e_id <$> l) ++ (task_conn <$> queue_ s))) as Hk.
  { intros y. eapply Forall_impl; [exact H3|]. intros c' [z Hz]. rewrite lookup_insert_ne by congruence. by eexists. }
  assert (c ∉ (e_id <$> l) ++ starts (queue_ s)) as Hnc.
  { intros Hin. rewrite Forall_forall in H3. destruct (H3 c) as [z Hz]; [|congruence].
    rewrite elem_of_app in Hin |- *. destruct Hin as [?|?%starts_known]; auto. }
  assert (∀ c', STOP c' ∈ queue_ s → c' ≠ c) as Hns.
  { intros c' Hin ->. rewrite Forall_forall in H3. destruct (H3 c) as [z Hz]; [|congruence]. apply elem_of_app. right.
    by apply (list_elem_of_fmap_2 task_conn _ (STOP c)). }
  destruct needHB; simpl.
  - unfold addConnection. simpl. rewrite lookup_insert_eq. simpl. intros [= <-]. constructor; simpl; try done.
    + rewrite starts_app, (assoc_L (++)). apply NoDup_app. split_and!; [done| |repeat constructor; set_solver].
      intros c' Hin Hs. simpl in Hs. apply list_elem_of_singleton in Hs as ->. done.
    + rewrite fmap_app, (assoc_L (++)). apply Forall_app. split; [|constructor; [|constructor]].
      * eapply Forall_impl; [exact H3|]. intros c' [z Hz]. rewrite !lookup_insert_ne by congruence. by eexists.
      * simpl. rewrite lookup_insert_eq. by eexists.
    + intros c' y [Hs|Hs]%elem_of_app; [|by apply list_elem_of_singleton in Hs].
      rewrite !lookup_insert_ne by (symmetry; by apply Hns). by apply Hstop.
    + intros c' y. rewrite starts_app, (assoc_L (++)), elem_of_app. destruct (decide (c = c')) as [<-|Hne].
      * intros _ _ _. right. simpl. set_solver.
      * rewrite !lookup_insert_ne by done. intros. left. by eapply H9.
  - intros [= <-]. constructor; simpl; try done.
    { intros c' y Hs. rewrite lookup_insert_ne by (symmetry; by apply Hns). by apply Hstop. }
    intros c' y. destruct (decide (c = c')) as [<-|Hne]; [rewrite lookup_insert_eq; by intros [= <-]|].
    rewrite lookup_insert_ne by done. apply H9.
Qed.

Lemma remove_inv s l c s' : inv s l → removeConnection s c = Ok s' → inv s' l.
Proof.
  intros Hi. unfold removeConnection. destruct (conns s !! c) as [x|] eqn:Hx; [|done]. simpl. intros [= <-].
  assert (inv (set_conn s c (set_hbing false x)) l) as [H1 H2 H3 H4 H5 H6 H7 H8 Hstop H9] by (by eapply hb_inv_conn). simpl in *.
  constructor; simpl; try done.
  - by rewrite starts_app, app_nil_r.
  - rewrite fmap_app, (assoc_L (++)). apply Forall_app. split; [done|]. constructor; [|constructor]. simpl. rewrite lookup_insert_eq. by eexists.
  - intros c' y [Hs|Hs]%elem_of_app; [by apply Hstop|]. apply list_elem_of_singleton in Hs. injection Hs as ->.
    rewrite lookup_insert_eq. by intros [= <-].
  - rewrite starts_app, app_nil_r. done.
Qed.

Lemma put_ids (x : entry Z) l : e_id <$> put x l ≡ₚ e_id x :: (e_id <$> l).
Proof. by rewrite put_perm. Qed.
Lemma take_out_ids c (l : list (entry Z)) c' : c' ∈ e_id <$> take_out c l ↔ c' ≠ c ∧ c' ∈ e_id <$> l.
Proof. unfold take_out. rewrite !list_elem_of_fmap. setoid_rewrite list_elem_of_filter. naive_solver. Qed.
Lemma take_out_sublist c (l : list (entry Z)) : take_out c l `sublist_of` l.
Proof. apply sublist_filter. Qed.

(** A node is removed: of a connection without heartbeats, or one that is
    closed. *)
Lemma inv_take s l c p pc' : inv s l → tl_getNode (heartbeatList_ s) c = Some p →
  (∀ x, conns s !! c = Some x → isHBing_ x = true → isOpen x = false) →
  (∀ k, tl_rep k (take_out c l) → pc_ok (set_pc (set_list s k) pc') (take_out c l)) →
  heartbeatRoutineHang_ s = match pc' with Hanging => true | _ => false end →
  ∃ k, tl_remove (heartbeatList_ s) p = Ok k ∧ inv (set_pc (set_list s k) pc') (take_out c l).
Proof.
  intros [H1 H2 H3 H4 H5 H6 H7 H8 Hstop H9] Hp Hc Hpc Hh. destruct (law_remove _ _ c p H1 Hp) as (k & -> & Hk). exists k. split; [done|].
  pose proof (take_out_sublist c l) as Hsub. constructor; simpl; try done; [..|by apply Hpc|].
  - eapply sublist_NoDup; [exact H2|]. apply sublist_app; [by apply fmap_sublist|reflexivity].
  - rewrite Forall_forall in H3 |- *. intros c' [[_ Hin]%take_out_ids|Hin]%elem_of_app; apply H3, elem_of_app; auto.
  - by apply Forall_take_out.
  - by apply Forall_take_out.
  - intros c' x Hx Hb Ho. destruct (decide (c' = c)) as [->|Hne]; [rewrite Hc in Ho; done|].
    specialize (H9 c' x Hx Hb Ho). rewrite elem_of_app in H9 |- *. rewrite take_out_ids. tauto.
Qed.

Lemma next_time s now : 0 < now ≤ clock s → clock s + CORPC_HEARTBEAT_PERIOD < CORPC_MAX_UINT64 →
  u64 (now + CORPC_HEARTBEAT_PERIOD) = now + CORPC_HEARTBEAT_PERIOD ∧ time_ok (now + CORPC_HEARTBEAT_PERIOD).
Proof.
  unfold time_ok, CORPC_HEARTBEAT_PERIOD, CORPC_MAX_UINT64, CORPC_MIN_UINT64. intros. rewrite u64_small by lia. lia.
Qed.

Lemma dispatch_inv s l lv : inv s l → level_ok lv → resting s → ∃ s' l', dispatch s lv = Ok s' ∧ inv s' l'.
Proof.
  intros Hi Hlv Hrest. unfold dispatch. destruct (queue_ s) as [|[c|c] q] eqn:Eq; [by exists s, l|..].
  - destruct (Hi) as [H1 H2 H3 H4 H5 H6 H7 H8 Hstop H9]. rewrite Eq in *. simpl in *.
    destruct (next_time s (clock s)) as [-> Ht]; [lia|lia|].
    assert (c ∉ e_id <$> l) as Hc by (apply NoDup_app in H2 as (_ & Hd & _); intros Hin; eapply Hd; [exact Hin|set_solver]).
    destruct (law_insert _ _ lv c _ c H1 Hlv Ht Hc) as (k & -> & Hk). simpl. eexists _, _. split; [done|].
    set (x := Entry _ _ _) in *. assert (∀ P : entry Z → Prop, Forall P (put x l) ↔ P x ∧ Forall P l) as HF
      by (intros P; rewrite put_perm; apply Forall_cons).
    assert (∀ c', c' ∈ (e_id <$> put x l) ++ starts q ↔ c' ∈ (e_id <$> l) ++ c :: starts q) as Hin.
    { intros c'. rewrite put_ids, !elem_of_app, !elem_of_cons. simpl. tauto. }
    assert (inv (set_pc (set_hang (set_list (set_queue s q) k) false) Running) (put x l)) as Hrun.
    { constructor; simpl; try done.
      - rewrite put_ids. simpl. by rewrite Permutation_middle.
      - rewrite Forall_forall in H3 |- *. intros c' Hc'. apply H3. rewrite put_ids, !elem_of_app, !elem_of_cons in *. simpl in Hc'. tauto.
      - by apply HF.
      - apply HF. split; [simpl; lia|done].
      - intros c' y Hs. apply Hstop. by apply elem_of_cons; right.
      - intros c' y Hy Hb Ho. apply Hin. by eapply H9. }
    unfold resting in Hrest. destruct (at_ s) as [| |? ? ? ?|? ? ? ?|u] eqn:Ea; try done; rewrite H5; [done|].
    destruct Hrun. constructor; simpl in *; try done; [by rewrite Ea|].
    unfold pc_ok in *. simpl in *. rewrite Ea in *. destruct H8 as [Hu1 Hu2]. split; [apply HF|lia]. split; [simpl; lia|done].
  - assert (inv (set_queue s q) l) as Hq.
    { destruct Hi as [H1 H2 H3 H4 H5 H6 H7 H8 Hstop H9]. rewrite Eq in *. constructor; simpl in *; try done.
      - rewrite Forall_forall in H3 |- *. intros c' Hc'. apply H3. rewrite elem_of_app, ?elem_of_cons in *. tauto.
      - intros c' y Hs. apply Hstop. by apply elem_of_cons; right. }
    simpl. destruct (tl_getNode (heartbeatList_ s) c) as [p|] eqn:Ep; [|by eexists _, _].
    destruct (inv_take (set_queue s q) l c p (at_ s) Hq Ep) as (k & Hk & Hk').
    + intros x Hx Hb. rewrite (inv_stops _ _ Hi c x) in Hb; [done|rewrite Eq; by left|done].
    + intros k _. pose proof (inv_pc _ _ Hi) as Hp. unfold pc_ok, resting in *. simpl. destruct (at_ s); try done.
      * by rewrite Hp.
      * destruct Hp. split; [by apply Forall_take_out|done].
    + apply (inv_hang _ _ Hi).
    + simpl in Hk. rewrite Hk. simpl. eexists _, _. split; [done|exact Hk'].
Qed.

(** The earliest entry of a list that is not empty. *)
Lemma earliest s l : inv s l → l ≠ [] → ∃ x p, list.last l = Some x ∧ tl_getLast (heartbeatList_ s) = Ok (Some p) ∧
  tl_getNode (heartbeatList_ s) (e_id x) = Some p ∧ tl_read (heartbeatList_ s) p = Ok x ∧
  is_Some (conns s !! e_id x) ∧ e_data x = e_id x ∧ Forall (λ y, e_time x ≤ e_time y) l.
Proof.
  intros [H1 H2 H3 H4 H5 H6 H7 H8 Hstop H9] Hne. pose proof (law_getLast _ _ H1) as Hl.
  destruct (list.last l) as [x|] eqn:Ex; [|by apply last_None in Ex]. destruct Hl as (p & Hp & Hn). exists x, p.
  assert (x ∈ l) as Hx by (by apply last_Some_elem_of). rewrite Forall_forall in H4.
  pose proof (law_getNode _ _ (e_id x) H1) as Hg. rewrite (lookup_id_elem _ x) in Hg by (done || by eapply tl_ids).
  destruct Hg as (p' & Hp' & Hread). assert (p' = p) as -> by congruence. split_and!; try done; [|by apply H4|].
  - rewrite Forall_forall in H3. apply H3, elem_of_app. left. by apply list_elem_of_fmap_2.
  - apply last_Some in Ex as [l' ->]. apply Forall_app. split; [|repeat constructor; lia].
    pose proof (ordered_last _ _ (tl_order _ _ H1)) as Ho. eapply Forall_impl; [exact Ho|]. simpl. lia.
Qed.

Lemma round_inv s l : inv s l → at_ s = Running → ∃ s' l', round s = Ok s' ∧ inv s' l'.
Proof.
  intros Hi Ha. unfold round. rewrite (law_empty _ _ (inv_rep _ _ Hi)). simpl. case_bool_decide as Hl.
  - eexists _, l. split; [done|]. destruct Hi. by constructor.
  - destruct (earliest s l Hi Hl) as (x & p & Hlast & -> & Hn & Hread & [y Hy] & Hd & Hmin). simpl. rewrite Hread. simpl. rewrite Hd, Hy. simpl.
    destruct (closed_ y) eqn:Ec.
    + destruct (inv_take s l (e_id x) p Running Hi Hn) as (k & -> & Hk); [|done|by rewrite (inv_hang _ _ Hi), Ha|].
      * intros y' Hy' _. assert (y' = y) as -> by congruence. unfold isOpen. by rewrite Ec, orb_true_r.
      * simpl. eexists _, _. split; [done|]. unfold set_pc, set_list in *. simpl in *. by rewrite <-Ha in Hk.
    + eexists _, l. split; [done|]. pose proof (inv_hang _ _ Hi) as Hh. rewrite Ha in Hh. destruct Hi. constructor; try done.
      unfold pc_ok. simpl. split; [lia|]. by exists x.
Qed.

Lemma start_check_inv s l p c now ex : inv s l → at_ s = Starting p c now ex →
  ∃ s' l', start_check s p c now ex = Ok s' ∧ inv s' l'.
Proof.
  intros Hi Ha. pose proof (inv_pc _ _ Hi) as Hp. unfold pc_ok in Hp. rewrite Ha in Hp. destruct Hp as (Hnow & x & Hx & Hid & Hex & Hn).
  destruct (earliest s l Hi) as (x' & p' & Hx' & _ & _ & _ & [y Hy] & _); [by destruct l|].
  assert (x' = x) as -> by congruence. rewrite Hid in Hy. unfold start_check. rewrite Hy. simpl. eexists _, l. split; [done|].
  assert (inv (if bool_decide (lastRecvHBTime_ y = 0) then set_conn s c (set_last now y) else s) l) as Hi'
    by (case_bool_decide; [by eapply hb_inv_conn|done]).
  assert (pc_ok (set_pc (if bool_decide (lastRecvHBTime_ y = 0) then set_conn s c (set_last now y) else s) (Checking p c now ex)) l) as Hpc.
  { unfold pc_ok. simpl. case_bool_decide; simpl; (split; [done|]; by exists x). }
  assert (at_ (if bool_decide (lastRecvHBTime_ y = 0) then set_conn s c (set_last now y) else s) = Starting p c now ex) as Ha'
    by (by case_bool_decide).
  pose proof (inv_hang _ _ Hi') as Hh. rewrite Ha' in Hh. destruct Hi'. by constructor.
Qed.

(** The connection [c], whose node is removed and put back. *)
Lemma again_inv s l lv p c now ex : inv s l → at_ s = Checking p c now ex → level_ok lv →
  ∃ k k' l', tl_remove (heartbeatList_ s) p = Ok k ∧ tl_insert lv k c (u64 (now + CORPC_HEARTBEAT_PERIOD)) c = Ok k' ∧
    inv (set_pc (log_sent (set_list s k') c now) Running) l'.
Proof.
  intros Hi Ha Hlv. pose proof (inv_pc _ _ Hi) as Hp. unfold pc_ok in Hp. rewrite Ha in Hp. destruct Hp as (Hnow & x & Hx & Hid & Hex & Hn).
  assert (x ∈ l) as Hxl by (by apply last_Some_elem_of).
  pose proof (inv_hang _ _ Hi) as Hh. rewrite Ha in Hh. destruct Hi as [H1 H2 H3 H4 H5 H6 H7 H8 Hstop H9].
  destruct (law_remove _ _ c p H1 Hn) as (k & Hk & Hrep). destruct (next_time s now Hnow) as [-> Ht]; [lia|].
  assert (c ∉ e_id <$> take_out c l) as Hc by (intros [? _]%take_out_ids; done).
  destruct (law_insert _ _ lv c _ c Hrep Hlv Ht Hc) as (k' & Hk' & Hrep'). exists k, k', (put (Entry (now + CORPC_HEARTBEAT_PERIOD) c c) (take_out c l)).
  split_and!; [done|done|]. set (y := Entry _ _ _) in *.
  assert (∀ P : entry Z → Prop, P y → Forall P l → Forall P (put y (take_out c l))) as HF
    by (intros P Hy Hl; rewrite put_perm; constructor; [done|by apply Forall_take_out]).
  assert (∀ c', c' ∈ e_id <$> put y (take_out c l) ↔ c' ∈ e_id <$> l) as Hin.
  { intros c'. rewrite put_ids, elem_of_cons, take_out_ids. simpl. destruct (decide (c' = c)) as [->|]; [|tauto].
    split; [intros _|by left]. rewrite <-Hid. by apply list_elem_of_fmap_2. }
  constructor; simpl; try done.
  - apply NoDup_app in H2 as (Hnd & Hd & Hs). apply NoDup_app. split_and!; [by eapply tl_ids| |done].
    intros c' Hc'%Hin. by apply Hd.
  - rewrite Forall_forall in H3 |- *. intros c' Hc'. apply H3. rewrite !elem_of_app in *. by rewrite Hin in Hc'.
  - by apply HF.
  - apply HF; [simpl; lia|done].
  - intros c' z Hz Hb Ho. rewrite elem_of_app, Hin, <-elem_of_app. by eapply H9.
Qed.

Lemma inv_log_close s l c now z : inv s l → inv (log_close s c now z) l.
Proof. intros []. by constructor. Qed.

Lemma check_inv s l lv p c now ex : inv s l → at_ s = Checking p c now ex → level_ok lv →
  ∃ s' l', check s p c now ex lv = Ok s' ∧ inv s' l'.
Proof.
  intros Hi Ha Hlv. pose proof (inv_pc _ _ Hi) as Hp. unfold pc_ok in Hp. rewrite Ha in Hp. destruct Hp as (Hnow & x & Hx & Hid & Hex & Hn).
  destruct (earliest s l Hi) as (x' & p' & Hx' & _ & _ & _ & [y Hy] & _ & Hmin); [by destruct l|].
  assert (x' = x) as -> by congruence. rewrite Hid in Hy. unfold check. rewrite Hy. simpl.
  pose proof (inv_hang _ _ Hi) as Hh. rewrite Ha in Hh. case_bool_decide; [|case_bool_decide].
  - destruct (isOpen y && isHBing_ y) eqn:E.
    + apply andb_true_iff in E as [Eo Eb]. set (z := lastRecvHBTime_ y).
      assert (∃ s1, removeConnection s c = Ok s1 ∧ s1 = set_queue (set_conn s c (set_hbing false y)) (queue_ s ++ [STOP c])) as (s1 & Hs1 & Es1)
        by (unfold removeConnection; rewrite Hy; by eexists).
      destruct (inv_take s1 l c p Running (remove_inv _ _ _ _ Hi Hs1)) as (k & Hk & Hk'); [by subst s1| |by intros|by subst s1|].
      { subst s1. simpl. rewrite lookup_insert_eq. by intros x' [= <-]. }
      subst s1. simpl in Hk. rewrite Hk. simpl. unfold close. simpl. rewrite Hy. simpl. rewrite Eo, Eb. unfold removeConnection. simpl. rewrite Hy. simpl.
      eexists _, _. split; [done|]. exact (inv_log_close _ _ c now z Hk').
    + destruct (inv_take s l c p Running Hi Hn) as (k & -> & Hk'); [|by intros|done|].
      { intros y' Hy' Hb. assert (y' = y) as -> by congruence. rewrite Hb, andb_true_r in E. done. }
      simpl. unfold close. simpl. rewrite Hy. simpl. eexists _, _.
      assert ((if isOpen y then if isHBing_ y then removeConnection (log_close (set_list s k) c now (lastRecvHBTime_ y)) c
        else Ok (log_close (set_list s k) c now (lastRecvHBTime_ y)) else Ok (log_close (set_list s k) c now (lastRecvHBTime_ y)))
        = Ok (log_close (set_list s k) c now (lastRecvHBTime_ y))) as ->.
      { destruct (isOpen y), (isHBing_ y); done. }
      simpl. split; [done|]. exact (inv_log_close _ _ c now _ Hk').
  - eexists _, l. split; [done|]. destruct Hi. constructor; try done. unfold pc_ok. simpl. subst ex. split; [done|].
    rewrite Forall_forall in inv_times0. apply inv_times0. by apply last_Some_elem_of.
  - destruct (again_inv s l lv p c now ex Hi Ha Hlv) as (k & k' & l' & -> & Hk & Hl'). simpl. rewrite Hk. simpl. eauto.
Qed.

Lemma heartbeat_inv s l lv : inv s l → level_ok lv → ∃ s' l', heartbeat s lv = Ok s' ∧ inv s' l'.
Proof.
  intros Hi Hlv. unfold heartbeat. destruct (at_ s) eqn:Ha; [by eauto|by apply (round_inv s l)|by apply (start_check_inv s l)|by apply (check_inv s l)|].
  case_bool_decide; [|by eauto]. eexists _, l. split; [done|]. pose proof (inv_hang _ _ Hi) as Hh. rewrite Ha in Hh. destruct Hi. by constructor.
Qed.

Lemma heartbeat_step_inv s s' : (∃ l, inv s l) → step s s' → ∃ l, inv s' l.
Proof.
  intros [l Hi] Hst. destruct Hst as [c hb s' Hc Hs|c x s' Hx Hb Hs|c x Hx|c x Hx|c x Hx|Ht|lv s' Hlv Hr Hs|lv s' Hlv Hs].
  - exists l. by eapply build_inv.
  - exists l. by eapply remove_inv.
  - exists l. by eapply hb_inv_conn.
  - exists l. eapply hb_inv_conn; [done|done|done|]. unfold isOpen. simpl. done.
  - exists l. eapply hb_inv_conn; [done|done|done|]. unfold isOpen. simpl. by rewrite orb_true_r.
  - exists l. destruct Hi as [H1 H2 H3 H4 H5 H6 H7 H8 Hstop H9]. constructor; simpl; try done; [lia|eapply Forall_impl; [exact H7|simpl; lia]|].
    unfold pc_ok in *. simpl. destruct (at_ s); try done; destruct H8; (split; [lia || done|try done; lia]).
  - destruct (dispatch_inv s l lv Hi Hlv Hr) as (s2 & l2 & Hs2 & ?). assert (s' = s2) as -> by congruence. eauto.
  - destruct (heartbeat_inv s l lv Hi Hlv) as (s2 & l2 & Hs2 & ?). assert (s' = s2) as -> by congruence. eauto.
Qed.
Lemma heartbeat_reach now s : 0 < now → now + CORPC_HEARTBEAT_PERIOD < CORPC_MAX_UINT64 → reach step (init now) s → ∃ l, inv s l.
Proof.
  intros H1 H2. apply (reach_invariant step (λ s, ∃ l, inv s l)); [|intros s1 s2; apply heartbeat_step_inv].
  exists []. constructor; try done; try constructor; try done. apply law_new.
Qed.

End ops.
End Heartbeater.

(** A connection at address 5 whose first heartbeat arrives while the routine
    looks at it. *)
Module HeartbeatExample.
Import Heartbeater.
Abbreviation state := (t (TimeoutList.t Z)).
Abbreviation or_init := (get (init (L := TimeoutList.t Z) 1000)).

Definition s1 : state := or_init (heartbeat (init 1000) 1).
Definition s2 : state := or_init (build s1 5 true).
Definition s3 : state := or_init (dispatch s2 1).
Definition s4 : state := or_init (heartbeat s3 1).
(** The clock advances, and the receiver notes a heartbeat. *)
Definition s5 : state := set_clock s4 (clock s4 + 1).
Definition x5 : conn := default (Conn false false false 0) (conns s5 !! 5).
Definition s6 : state := set_conn s5 5 (set_last (clock s5) x5).
Definition s7 : state := or_init (heartbeat s6 1).
Definition s8 : state := or_init (heartbeat s7 1).

Ltac ran s := unfold s; apply get_ok; vm_compute; reflexivity.
Ltac level := vm_compute; lia.
Lemma hb_reach_s4 : reach step (init 1000) s4.
Proof.
  apply (reach_step _ _ s3); [|apply (StepHeartbeat _ 1); [level|ran s4]].
  apply (reach_step _ _ s2); [|apply (StepDispatch _ 1); [level|vm_compute; done|ran s3]].
  apply (reach_step _ _ s1); [|apply (StepBuild _ 5 true); [vm_compute; reflexivity|ran s2]].
  apply (reach_step _ _ (init 1000)); [apply reach_refl|apply (StepHeartbeat _ 1); [level|ran s1]].
Qed.

(** A heartbeat that arrives between the reading
    of the clock and the test makes the difference wrap around, and the routine
    closes the connection although it has just heard from it. *)
Theorem heartbeat_spurious_close : ∃ s : state, reach step (init 1000) s ∧
  clock s = 1001 ∧ conns s !! 5 = Some (Conn false false false 1001) ∧ closes s = [(5, 1000, 1001)].
Proof.
  exists s8. split; [|split_and!; vm_compute; reflexivity].
  apply (reach_step _ _ s7); [|apply (StepHeartbeat _ 1); [level|ran s8]].
  apply (reach_step _ _ s6); [|apply (StepHeartbeat _ 1); [level|ran s7]].
  apply (reach_step _ _ s5); [|exact (StepRecv s5 5 x5 ltac:(vm_compute; reflexivity))].
  apply (reach_step _ _ s4); [apply hb_reach_s4|]. exact (StepTick s4 ltac:(vm_compute; done)).
Qed.

End HeartbeatExample.
