(* ===== verification/RpcThread.v ===== *)
(** * corpc_rpc_client.cpp: the thread of the RPC client

    The thread runs three coroutines: [taskHandleRoutine] takes calls from
    [taskQueue_] and gives them to a connection of their channel,
    [connectionRoutine] connects and cleans up connections, and
    [clearChannelRoutine] closes the connections of a channel that was
    destroyed.  Coroutines of callers push calls; the sender and the receiver
    of a connection (Sender.v, Pipeline.v) work on it from their threads.

    Channels and connections are objects with an address, here their position
    in a list.  A coroutine of the client thread gives up the processor where it
    sleeps or connects, and where it waits for [waitResultCoMapMutex_]; the
    points it can wait at are explicit.  Whether the mutex is ever contended is
    a parameter of the interleaving.  The theorems are in RpcCalls.v. *)
From stdpp Require Import gmap sorting.
From S2P Require Import Prelude Define Sending Sender RpcWire RpcClient Threads.
Open Scope Z_scope.

Module RpcThread.
Import RpcClient.

Definition ENETDOWN : Z := 100.
Definition EALREADY : Z := 114.
Definition EINPROGRESS : Z := 115.

(** ** State *)

(** [ClientTask]: the channel of the call and its task. *)
Record ClientTask (M : Type) : Type := { ct_channel : nat; rpcTask : RpcClientTask M }.
Arguments ct_channel {_} _.
Arguments rpcTask {_} _.

(** [ChannelCore]; the vector holds connections by address. *)
Record ChannelCore : Type := Channel {
  connections_ : list (option nat);
  conIndex_ : Z;
  connectDelay_ : bool;
}.

(** [RpcClient::Connection] with the members it has from [corpc::Connection]:
    the tasks the sender has for it, [datas_], whether it was added to the
    [IO] ([sendThreadIndex_] is set), [isClosing_], whether the sender's routine
    ended ([closeSem_] was posted) and [closed_].  [cleaned] records that the
    CLOSE task has run the callbacks of [datas_]. *)
Record conn (M : Type) : Type := Conn {
  base : Connection M;
  channel_ : nat;
  sendq : list (Sender.task (RpcClientTask M));
  datas_ : list (RpcClientTask M);
  added : bool;
  isClosing_ : bool;
  sendEnded : bool;
  closed_ : bool;
  cleaned : bool;
}.
Arguments Conn {_} _ _ _ _ _ _ _ _ _.
Arguments base {_} _.
Arguments channel_ {_} _.
Arguments sendq {_} _.
Arguments datas_ {_} _.
Arguments added {_} _.
Arguments isClosing_ {_} _.
Arguments sendEnded {_} _.
Arguments closed_ {_} _.
Arguments cleaned {_} _.

(** [ConnectionTask] *)
Inductive ConnectionTask : Type := CLOSE (c : nat) | CONNECT (c : nat).
#[global] Instance ConnectionTask_eq_dec : EqDecision ConnectionTask.
Proof. solve_decision. Defined.

(** Where [connectionRoutine] is: waiting for a task; waiting for the mutex
    before it fails the calls of a closed connection; sleeping or connecting;
    sending the calls that waited for the connection, with its reading of the
    clock. *)
Inductive conn_pc : Type := ConnIdle | Draining (c : nat) | Connecting (c : nat) | Flushing (c : nat) (now : Z).

(** Where [taskHandleRoutine] is: between two tasks, or waiting for the mutex
    to put the task into the map. *)
Inductive task_pc (M : Type) : Type := TaskIdle | Locking (c : nat) (task : RpcClientTask M).
Arguments TaskIdle {_}.
Arguments Locking {_} _ _.

(** [RpcClient], with its channels and connections, and records of the calls
    made, of those given to [addTimeoutTask], and of those ended without a
    connection: [expired] were not sent because their time was over, [replaced]
    left a map when their coroutine called again, [failed] and [failed_done]
    found no connection. *)
Record client (M : Type) : Type := Client {
  channels : list ChannelCore;
  conns : list (conn M);
  connectionTaskQueue_ : list ConnectionTask;
  taskQueue_ : list (ClientTask M);
  clearChannelQueue_ : list nat;
  cpc : conn_pc;
  tpc : task_pc M;
  issued : list (RpcClientTask M);
  timeouts : list (RpcClientTask M);
  expired : list (RpcClientTask M);
  replaced : list (RpcClientTask M);
  failed : list (resume M);
  failed_done : list (RpcClientTask M);
}.
Arguments Client {_} _ _ _ _ _ _ _ _ _ _ _ _ _.
Arguments channels {_} _.
Arguments conns {_} _.
Arguments connectionTaskQueue_ {_} _.
Arguments taskQueue_ {_} _.
Arguments clearChannelQueue_ {_} _.
Arguments cpc {_} _.
Arguments tpc {_} _.
Arguments issued {_} _.
Arguments timeouts {_} _.
Arguments expired {_} _.
Arguments replaced {_} _.
Arguments failed {_} _.
Arguments failed_done {_} _.

Section thread.
Context {M Proto : Type} `{Message M Proto} (e : endian).
(** [strerror], the number of threads of the sender (0 for [CoroutineSender])
    and whether the build defines [NDEBUG]. *)
Context (strerror : Z → bytes) (sendThreadNum : Z) (ndebug : bool).
Implicit Types (s : client M) (b : Connection M) (x : conn M) (task : RpcClientTask M).

(** ** Updates *)
Definition set_st (st : Status) b : Connection M :=
  {| st_ := st; waitSendTaskCoList_ := waitSendTaskCoList_ b; waitResultCoMap_ := waitResultCoMap_ b;
     resumed := resumed b; done_run := done_run b |}.
Definition set_waitSend (l : list (RpcClientTask M)) b : Connection M :=
  {| st_ := st_ b; waitSendTaskCoList_ := l; waitResultCoMap_ := waitResultCoMap_ b;
     resumed := resumed b; done_run := done_run b |}.
Definition set_waitResult (m : gmap Z (RpcClientTask M)) b : Connection M :=
  {| st_ := st_ b; waitSendTaskCoList_ := waitSendTaskCoList_ b; waitResultCoMap_ := m;
     resumed := resumed b; done_run := done_run b |}.
Definition add_resumed (r : resume M) b : Connection M :=
  {| st_ := st_ b; waitSendTaskCoList_ := waitSendTaskCoList_ b; waitResultCoMap_ := waitResultCoMap_ b;
     resumed := resumed b ++ [r]; done_run := done_run b |}.

Definition set_base b x : conn M :=
  Conn b (channel_ x) (sendq x) (datas_ x) (added x) (isClosing_ x) (sendEnded x) (closed_ x) (cleaned x).
Definition enqueue (k : Sender.task (RpcClientTask M)) x : conn M :=
  Conn (base x) (channel_ x) (sendq x ++ [k]) (datas_ x) (added x) (isClosing_ x) (sendEnded x) (closed_ x) (cleaned x).
Definition set_added x : conn M :=
  Conn (base x) (channel_ x) (sendq x) (datas_ x) true (isClosing_ x) (sendEnded x) (closed_ x) (cleaned x).
Definition set_closing x : conn M :=
  Conn (base x) (channel_ x) (sendq x) (datas_ x) (added x) true (sendEnded x) (closed_ x) (cleaned x).
Definition set_cleaned x : conn M :=
  Conn (base x) (channel_ x) (sendq x) (datas_ x) (added x) (isClosing_ x) (sendEnded x) (closed_ x) true.

Definition set_channel s (h : nat) (ch : ChannelCore) : client M :=
  Client (<[h := ch]> (channels s)) (conns s) (connectionTaskQueue_ s) (taskQueue_ s) (clearChannelQueue_ s)
    (cpc s) (tpc s) (issued s) (timeouts s) (expired s) (replaced s) (failed s) (failed_done s).
Definition set_conn s (c : nat) x : client M :=
  Client (channels s) (<[c := x]> (conns s)) (connectionTaskQueue_ s) (taskQueue_ s) (clearChannelQueue_ s)
    (cpc s) (tpc s) (issued s) (timeouts s) (expired s) (replaced s) (failed s) (failed_done s).
Definition new_conn s x : client M :=
  Client (channels s) (conns s ++ [x]) (connectionTaskQueue_ s) (taskQueue_ s) (clearChannelQueue_ s)
    (cpc s) (tpc s) (issued s) (timeouts s) (expired s) (replaced s) (failed s) (failed_done s).
Definition set_ctq s (q : list ConnectionTask) : client M :=
  Client (channels s) (conns s) q (taskQueue_ s) (clearChannelQueue_ s)
    (cpc s) (tpc s) (issued s) (timeouts s) (expired s) (replaced s) (failed s) (failed_done s).
Definition set_taskQueue s (q : list (ClientTask M)) : client M :=
  Client (channels s) (conns s) (connectionTaskQueue_ s) q (clearChannelQueue_ s)
    (cpc s) (tpc s) (issued s) (timeouts s) (expired s) (replaced s) (failed s) (failed_done s).
Definition set_clear s (q : list nat) : client M :=
  Client (channels s) (conns s) (connectionTaskQueue_ s) (taskQueue_ s) q
    (cpc s) (tpc s) (issued s) (timeouts s) (expired s) (replaced s) (failed s) (failed_done s).
Definition set_cpc s (p : conn_pc) : client M :=
  Client (channels s) (conns s) (connectionTaskQueue_ s) (taskQueue_ s) (clearChannelQueue_ s)
    p (tpc s) (issued s) (timeouts s) (expired s) (replaced s) (failed s) (failed_done s).
Definition set_tpc s (p : task_pc M) : client M :=
  Client (channels s) (conns s) (connectionTaskQueue_ s) (taskQueue_ s) (clearChannelQueue_ s)
    (cpc s) p (issued s) (timeouts s) (expired s) (replaced s) (failed s) (failed_done s).
Definition log_issued s task : client M :=
  Client (channels s) (conns s) (connectionTaskQueue_ s) (taskQueue_ s) (clearChannelQueue_ s)
    (cpc s) (tpc s) (issued s ++ [task]) (timeouts s) (expired s) (replaced s) (failed s) (failed_done s).
Definition log_timeout s task : client M :=
  Client (channels s) (conns s) (connectionTaskQueue_ s) (taskQueue_ s) (clearChannelQueue_ s)
    (cpc s) (tpc s) (issued s) (timeouts s ++ [task]) (expired s) (replaced s) (failed s) (failed_done s).
Definition log_expired s task : client M :=
  Client (channels s) (conns s) (connectionTaskQueue_ s) (taskQueue_ s) (clearChannelQueue_ s)
    (cpc s) (tpc s) (issued s) (timeouts s) (expired s ++ [task]) (replaced s) (failed s) (failed_done s).
Definition log_replaced s (old : option (RpcClientTask M)) : client M :=
  Client (channels s) (conns s) (connectionTaskQueue_ s) (taskQueue_ s) (clearChannelQueue_ s)
    (cpc s) (tpc s) (issued s) (timeouts s) (expired s) (replaced s ++ option_list old) (failed s) (failed_done s).
Definition log_failed s (r : resume M) : client M :=
  Client (channels s) (conns s) (connectionTaskQueue_ s) (taskQueue_ s) (clearChannelQueue_ s)
    (cpc s) (tpc s) (issued s) (timeouts s) (expired s) (replaced s) (failed s ++ [r]) (failed_done s).
Definition log_failed_done s task : client M :=
  Client (channels s) (conns s) (connectionTaskQueue_ s) (taskQueue_ s) (clearChannelQueue_ s)
    (cpc s) (tpc s) (issued s) (timeouts s) (expired s) (replaced s) (failed s) (failed_done s ++ [task]).

(** ** Channels *)

(** [ChannelCore::ChannelCore]; [connectNum] is a [uint32_t]. *)
Definition newChannelCore (connectNum : Z) : ChannelCore :=
  Channel (replicate (Z.to_nat (if bool_decide (connectNum = 0) then 1 else connectNum)) None) 0 false.
(** The constructor of [Channel]. *)
Definition create_channel s (connectNum : Z) : client M :=
  Client (channels s ++ [newChannelCore connectNum]) (conns s) (connectionTaskQueue_ s) (taskQueue_ s) (clearChannelQueue_ s)
    (cpc s) (tpc s) (issued s) (timeouts s) (expired s) (replaced s) (failed s) (failed_done s).

(** [Connection::Connection] *)
Definition newConnection (h : nat) : conn M :=
  Conn {| st_ := CLOSED; waitSendTaskCoList_ := []; waitResultCoMap_ := ∅; resumed := []; done_run := [] |}
    h [] [] false false false false false.

(** [getNextConnection]: the slot is filled when it is empty or its connection
    is closed. *)
Definition fill_slot s (h : nat) (ch : ChannelCore) (i : nat) : outcome (client M * nat) :=
  slot ← deref (connections_ ch !! i);
  let fresh :=
    let c := length (conns s) in
    (set_channel (new_conn s (newConnection h)) h
       (Channel (<[i := Some c]> (connections_ ch)) (conIndex_ ch) (connectDelay_ ch)), c) in
  match slot with
  | None => Ok fresh
  | Some c =>
    x ← deref (conns s !! c);
    Ok (if bool_decide (st_ (base x) = CLOSED) then fresh else (s, c))
  end.

(** [ChannelCore::getNextConnection]; [None] is the null pointer. *)
Definition getNextConnection s (h : nat) : outcome (client M * option nat) :=
  ch ← deref (channels s !! h);
  if bool_decide (connections_ ch = []) then Ok (s, None) else
  let i := u32 (conIndex_ ch + 1) `mod` zlen (connections_ ch) in
  let ch := Channel (connections_ ch) i (connectDelay_ ch) in
  '(s, c) ← fill_slot (set_channel s h ch) h ch (Z.to_nat i);
  x ← deref (conns s !! c);
  if bool_decide (st_ (base x) = CLOSED) then
    let s := set_conn s c (set_base (set_st CONNECTING (base x)) x) in
    Ok (set_ctq s (connectionTaskQueue_ s ++ [CONNECT c]), Some c)
  else Ok (s, Some c).

(** [ChannelCore::CallMethod] up to [co_yield_ct], called by the coroutine
    [self] of the thread [tid] at the time [now]. *)
Definition CallMethod s (h : nat) (md : MethodDescriptor) (service_id tid self now : Z)
    (ctrl : option Controller.t) (req : M) (resp : option M) (dn : bool) : outcome (client M) :=
  let care_response := negb (not_care_response md) in
  _ ← require (care_response = true ∨ dn = true);
  let mk r r1 expire :=
    {| pid := tid; co := self; request := req; response := r; response_1 := r1; controller := ctrl;
       controller_1 := None; done := dn; serviceId := service_id; methodId := index md; expireTime := expire |} in
  let push s task := Ok (set_taskQueue (log_issued s task) (taskQueue_ s ++ [{| ct_channel := h; rpcTask := task |}])) in
  if care_response then
    match resp with
    | None => Fault AssertFailed
    | Some r =>
      if bool_decide (timeout md > 0) then
        let task := mk (Some r) (Some (New (proto_of r))) (u64 (now + timeout md)) in
        push (log_timeout s task) task
      else push s (mk (Some r) (Some r) 0)
    end
  else
    _ ← require (timeout md = 0);
    push s (mk None None 0).

(** [Guard::~Guard] *)
Definition destroy_channel s (h : nat) : client M := set_clear s (clearChannelQueue_ s ++ [h]).

(** [Connection::onClose] *)
Definition onClose s (c : nat) : client M := set_ctq s (connectionTaskQueue_ s ++ [CLOSE c]).

(** [Connection::cleanDataOnClosing] *)
Definition fail_controller (err : Z) task : RpcClientTask M :=
  match controller task with
  | Some ctl => set_controller (Controller.SetFailed (strerror err) ctl) task
  | None => task
  end.
Definition cleanDataOnClosing task b : outcome (Connection M) :=
  match response task with
  | Some _ => Ok b
  | None => if done task then Ok (run_done (fail_controller ENETDOWN task) b) else Fault NullDeref
  end.
(** ** [connectionRoutine] *)

(** One task of [connectionTaskQueue_], up to the point where the routine may
    wait. *)
Definition take_connection_task s : outcome (client M) :=
  match connectionTaskQueue_ s with
  | [] => Ok s
  | CLOSE c :: q =>
    let s := set_ctq s q in
    x ← deref (conns s !! c);
    let s := set_conn s c (set_base (set_st CLOSED (base x)) x) in
    ch ← deref (channels s !! channel_ x);
    let s := set_channel s (channel_ x) (Channel (connections_ ch) (conIndex_ ch) true) in
    _ ← require (waitSendTaskCoList_ (base x) = []);
    Ok (set_cpc s (Draining c))
  | CONNECT c :: q =>
    let s := set_ctq s q in
    x ← deref (conns s !! c);
    _ ← require (st_ (base x) = CONNECTING);
    Ok (set_cpc s (Connecting c))
  end.

(** A call that fails with the error [err]: without a time-out its controller
    is set at once, otherwise the environment of the caller does it. *)
Definition fail_call (err : Z) task : outcome (resume M) :=
  if bool_decide (expireTime task = 0) then
    ctl ← deref (controller task);
    Ok (Resume (set_controller (Controller.SetFailed (strerror err) ctl) task) (expireTime task) err)
  else Ok (Resume task (expireTime task) err).

(** The calls in the map, in the order of the keys of [std::map]. *)
Definition key_le (p q : Z * RpcClientTask M) : Prop := p.1 ≤ q.1.
#[local] Instance key_le_dec : RelDecision key_le.
Proof. intros p q. unfold key_le. apply _. Defined.
Definition by_key (m : gmap Z (RpcClientTask M)) : list (RpcClientTask M) :=
  snd <$> merge_sort key_le (map_to_list m).
Fixpoint fail_results (l : list (RpcClientTask M)) b : outcome (Connection M) :=
  match l with
  | [] => Ok b
  | task :: l => r ← fail_call ENETDOWN task; fail_results l (add_resumed r b)
  end.
(** The callbacks of the data that was not sent. *)
Fixpoint run_datas (l : list (RpcClientTask M)) b : outcome (Connection M) :=
  match l with
  | [] => Ok b
  | task :: l => b ← cleanDataOnClosing task b; run_datas l b
  end.

(** The rest of the CLOSE task, with the mutex. *)
Definition drain s : outcome (client M) :=
  match cpc s with
  | Draining c =>
    x ← deref (conns s !! c);
    b ← fail_results (by_key (waitResultCoMap_ (base x))) (set_waitResult ∅ (base x));
    b ← run_datas (datas_ x) b;
    Ok (set_cpc (set_conn s c (set_cleaned (set_base b x))) ConnIdle)
  | _ => Ok s
  end.

(** What the system calls of a CONNECT task returned: [connect] with its error,
    [getsockopt] with the error of the socket and its own.  The result is
    whether the connection failed, and [errno], which is zeroed before
    [getsockopt]. *)
Record connect_result : Type := { c_ret : Z; c_errno : Z; g_ret : Z; g_error : Z; g_errno : Z }.
Definition in_progress (r : connect_result) : bool :=
  bool_decide (c_ret r < 0 ∧ (c_errno r = EALREADY ∨ c_errno r = EINPROGRESS)).
Definition connect_failed (r : connect_result) : bool * Z :=
  if bool_decide (c_ret r < 0) then
    if in_progress r then
      if bool_decide (g_ret r = -1) then (true, g_errno r)
      else if bool_decide (g_error r ≠ 0) then (true, 0)
      else (false, 0)
    else (true, c_errno r)
  else (false, c_errno r).

(** The calls that waited for a connection that failed. *)
Fixpoint fail_waiting (err : Z) (l : list (RpcClientTask M)) b : outcome (Connection M) :=
  match l with
  | [] => Ok b
  | task :: l =>
    match response task with
    | Some _ => r ← fail_call err task; fail_waiting err l (add_resumed r b)
    | None => _ ← require (done task = true); fail_waiting err l (run_done (fail_controller err task) b)
    end
  end.

(** The rest of the CONNECT task; on success the connection is added to the
    [IO]. *)
Definition connected s (r : connect_result) (now : Z) : outcome (client M) :=
  match cpc s with
  | Connecting c =>
    x ← deref (conns s !! c);
    _ ← (if in_progress r then require (waitResultCoMap_ (base x) = ∅) else Ok tt);
    let '(fl, err) := connect_failed r in
    if fl then
      b ← fail_waiting err (waitSendTaskCoList_ (base x)) (set_waitSend [] (set_st CLOSED (base x)));
      _ ← require (waitResultCoMap_ b = ∅);
      Ok (set_cpc (set_conn s c (set_base b x)) ConnIdle)
    else
      ch ← deref (channels s !! channel_ x);
      let s := set_channel s (channel_ x) (Channel (connections_ ch) (conIndex_ ch) false) in
      let s := set_conn s c (set_added (enqueue Sender.INIT (set_base (set_st CONNECTED (base x)) x))) in
      Ok (set_cpc s (Flushing c now))
  | _ => Ok s
  end.

(** A call without response, or one whose time is not over, is sent. *)
Definition in_time (now : Z) task : bool := bool_decide (expireTime task = 0 ∨ now < expireTime task).

(** With the mutex: the call waits for its result and goes to the sender. *)
Definition send_waiting s (c : nat) task : outcome (client M) :=
  x ← deref (conns s !! c);
  let m := waitResultCoMap_ (base x) in
  let k := u64 (co task) in
  Ok (log_replaced (set_conn s c (enqueue (Sender.DATA task) (set_base (set_waitResult (<[k := task]> m) (base x)) x))) (m !! k)).
Definition send_data s (c : nat) task : outcome (client M) :=
  x ← deref (conns s !! c);
  Ok (set_conn s c (enqueue (Sender.DATA task) x)).

(** One call that waited for the connection.  Once the connection is established
    only this routine uses the list, so the call may be taken from it together
    with what follows the mutex. *)
Definition flush_one s : outcome (client M) :=
  match cpc s with
  | Flushing c now =>
    x ← deref (conns s !! c);
    match waitSendTaskCoList_ (base x) with
    | [] => Ok (set_cpc s ConnIdle)
    | task :: l =>
      let s := set_conn s c (set_base (set_waitSend l (base x)) x) in
      match response task with
      | Some _ => if in_time now task then send_waiting s c task else Ok (log_expired s task)
      | None => send_data s c task
      end
    end
  | _ => Ok s
  end.

(** ** [taskHandleRoutine] *)

(** One call, up to the mutex; [now] is the last reading of the clock.  The
    [assert] dereferences the connection before it is compared with null. *)
Definition take_task s (now : Z) : outcome (client M) :=
  match taskQueue_ s with
  | [] => Ok s
  | ct :: q =>
    let task := rpcTask ct in
    '(s, o) ← getNextConnection (set_taskQueue s q) (ct_channel ct);
    match o with
    | None =>
      if negb ndebug then Fault NullDeref else
      match response task with
      | Some _ => r ← fail_call ENETDOWN task; Ok (log_failed s r)
      | None => _ ← require (done task = true); Ok (log_failed_done s (fail_controller ENETDOWN task))
      end
    | Some c =>
      x ← deref (conns s !! c);
      _ ← require (st_ (base x) ≠ CLOSED);
      if bool_decide (st_ (base x) = CONNECTING) then
        Ok (set_conn s c (set_base (set_waitSend (waitSendTaskCoList_ (base x) ++ [task]) (base x)) x))
      else
      match response task with
      | Some _ => if in_time now task then Ok (set_tpc s (Locking c task)) else Ok (log_expired s task)
      | None => send_data s c task
      end
    end
  end.
(** With the mutex. *)
Definition insert_task s : outcome (client M) :=
  match tpc s with
  | Locking c task => send_waiting (set_tpc s TaskIdle) c task
  | TaskIdle => Ok s
  end.

(** ** [clearChannelRoutine] *)

(** [Connection::close] for a connection without heartbeats: the CLOSE task goes
    to the queue of the sender's thread the connection was given to. *)
Definition isOpen x : bool := negb (isClosing_ x || closed_ x).
Definition close s (c : nat) : outcome (client M) :=
  x ← deref (conns s !! c);
  if isOpen x then
    if bool_decide (sendThreadNum > 0) && negb (added x) then Fault OutOfBounds
    else Ok (set_conn s c (enqueue Sender.CLOSE x))
  else Ok s.
Fixpoint close_all s (l : list (option nat)) : outcome (client M) :=
  match l with
  | [] => Ok s
  | None :: l => close_all s l
  | Some c :: l => s ← close s c; close_all s l
  end.
Definition clear_channel s : outcome (client M) :=
  match clearChannelQueue_ s with
  | [] => Ok s
  | h :: q =>
    ch ← deref (channels s !! h);
    s ← close_all (set_clear s q) (connections_ ch);
    ch ← deref (channels s !! h);
    Ok (set_channel s h (Channel [] (conIndex_ ch) (connectDelay_ ch)))
  end.

(** ** The sender and the receiver of a connection

    What the other threads do with a connection: the sender handles a task of
    its queue, encodes a datum of [datas_] (which runs the callback of a call
    without response), and ends its routine; the receiver decodes a response,
    asks the sender to close, and after the end of the sender's routine closes
    the connection. *)
Definition sender_handle s (c : nat) : outcome (client M) :=
  x ← deref (conns s !! c);
  match sendq x with
  | [] => Ok s
  | Sender.INIT :: q =>
    Ok (set_conn s c (Conn (base x) (channel_ x) q (datas_ x) (added x) (isClosing_ x) (sendEnded x) (closed_ x) (cleaned x)))
  | Sender.CLOSE :: q =>
    Ok (set_conn s c (Conn (base x) (channel_ x) q (datas_ x) (added x) true (sendEnded x) (closed_ x) (cleaned x)))
  | Sender.DATA d :: q =>
    if isClosing_ x then
      b ← cleanDataOnClosing d (base x);
      Ok (set_conn s c (Conn b (channel_ x) q (datas_ x) (added x) true (sendEnded x) (closed_ x) (cleaned x)))
    else
      Ok (set_conn s c (Conn (base x) (channel_ x) q (datas_ x ++ [d]) (added x) (isClosing_ x) (sendEnded x) (closed_ x) (cleaned x)))
  end.
Definition sender_encode s (c : nat) : outcome (client M) :=
  x ← deref (conns s !! c);
  match datas_ x with
  | [] => Ok s
  | d :: q =>
    b ← match response d with
        | None => _ ← require (done d = true); Ok (run_done d (base x))
        | Some _ => Ok (base x)
        end;
    Ok (set_conn s c (Conn b (channel_ x) (sendq x) q (added x) (isClosing_ x) (sendEnded x) (closed_ x) (cleaned x)))
  end.
Definition sender_end s (c : nat) : outcome (client M) :=
  x ← deref (conns s !! c);
  Ok (set_conn s c (Conn (base x) (channel_ x) (sendq x) (datas_ x) (added x) true true (closed_ x) (cleaned x))).
Definition receiver_decode s (c : nat) (head body : bytes) (size : Z) : outcome (client M) :=
  x ← deref (conns s !! c);
  '(b, _, _) ← decode e (base x) head body size;
  Ok (set_conn s c (set_base b x)).
Definition receiver_remove s (c : nat) : outcome (client M) :=
  x ← deref (conns s !! c);
  Ok (set_conn s c (enqueue Sender.CLOSE x)).
Definition receiver_close s (c : nat) : outcome (client M) :=
  x ← deref (conns s !! c);
  Ok (onClose (set_conn s c (Conn (base x) (channel_ x) (sendq x) (datas_ x) (added x) (isClosing_ x) (sendEnded x) true (cleaned x))) c).
(** ** The interleaving

    With [contended] a coroutine of the client thread may be suspended at the
    mutex, and the others go on; without it a coroutine runs to the end of its
    task except where it connects.  The other threads run at any time. *)
Section interleaving.
Context (contended : bool).

Definition quiet s : Prop :=
  tpc s = TaskIdle ∧ match cpc s with ConnIdle | Connecting _ => True | _ => False end.
Definition may_run s : Prop := contended = true ∨ quiet s.

(** The calls with the same coroutine and time; the third component tells
    whether the call has a response. *)
Definition key task : Z * Z * bool := (co task, expireTime task, bool_decide (is_Some (response task))).
Definition n (k : Z * Z * bool) (l : list (RpcClientTask M)) : Z := count (λ t, bool_decide (key t = k)) l.
Definition in_map (m : gmap Z (RpcClientTask M)) : list (RpcClientTask M) := (map_to_list m).*2.
Definition in_hand s : list (RpcClientTask M) := match tpc s with Locking _ task => [task] | TaskIdle => [] end.

(** The calls that wait: in the queue, in the hands of [taskHandleRoutine], for
    a connection or for a result. *)
Definition waiting (k : Z * Z * bool) s : Z :=
  n k (rpcTask <$> taskQueue_ s) + n k (in_hand s)
  + total (λ x, n k (waitSendTaskCoList_ (base x)) + n k (in_map (waitResultCoMap_ (base x)))) (conns s).
(** The calls whose coroutine was resumed. *)
Definition answered (k : Z * Z * bool) s : Z :=
  n k (r_task <$> failed s) + total (λ x, n k (r_task <$> resumed (base x))) (conns s).

(** The calls without response whose callback has not run yet, and those whose
    callback ran. *)
Definition data_of (k : Sender.task (RpcClientTask M)) : option (RpcClientTask M) :=
  match k with Sender.DATA d => Some d | _ => None end.
Definition unsent (k : Z * Z * bool) s : Z :=
  n k (rpcTask <$> taskQueue_ s)
  + total (λ x, n k (waitSendTaskCoList_ (base x)) + n k (omap data_of (sendq x))
                + (if cleaned x then 0 else n k (datas_ x))) (conns s).
Definition called_back (k : Z * Z * bool) s : Z :=
  n k (failed_done s) + total (λ x, n k (done_run (base x))) (conns s).

(** What a caller provides: a response or a callback, a controller for a call
    with response, a time that fits; and its coroutine does not wait for another
    call without time-out. *)
Record call_ok s (h : nat) (md : MethodDescriptor) (self now : Z) (ctrl : option Controller.t) : Prop := {
  call_channel : (h < length (channels s))%nat;
  call_self : is_u64 self;
  call_time : 0 ≤ timeout md ∧ 0 < now ∧ is_u64 (now + timeout md);
  call_controller : not_care_response md = false → is_Some ctrl;
  call_idle : waiting (self, 0, true) s = 0;
}.

Inductive step s : client M → Prop :=
  | StepChannel num : step s (create_channel s num)
  | StepDestroy h : (h < length (channels s))%nat → step s (destroy_channel s h)
  | StepCall h md sid tid self now ctrl req resp dn s' : call_ok s h md self now ctrl →
      CallMethod s h md sid tid self now ctrl req resp dn = Ok s' → step s s'
  | StepConnTask s' : may_run s → cpc s = ConnIdle → take_connection_task s = Ok s' → step s s'
  | StepDrain s' : drain s = Ok s' → step s s'
  | StepConnected r now s' : may_run s → connected s r now = Ok s' → step s s'
  | StepFlush s' : flush_one s = Ok s' → step s s'
  | StepTask now s' : may_run s → tpc s = TaskIdle → take_task s now = Ok s' → step s s'
  | StepInsert s' : insert_task s = Ok s' → step s s'
  | StepClear s' : may_run s → clear_channel s = Ok s' → step s s'
  | StepHandle c s' : sender_handle s c = Ok s' → step s s'
  | StepEncode c x s' : conns s !! c = Some x → sendEnded x = false → sender_encode s c = Ok s' → step s s'
  | StepEnd c x s' : conns s !! c = Some x → added x = true → sender_end s c = Ok s' → step s s'
  | StepDecode c x head body size s' : conns s !! c = Some x → added x = true → closed_ x = false →
      receiver_decode s c head body size = Ok s' → step s s'
  | StepRemove c s' : receiver_remove s c = Ok s' → step s s'
  | StepClose c x s' : conns s !! c = Some x → sendEnded x = true → closed_ x = false →
      receiver_close s c = Ok s' → step s s'.
End interleaving.

(** A client without channels. *)
Definition init : client M := Client [] [] [] [] [] ConnIdle TaskIdle [] [] [] [] [] [].
End thread.
End RpcThread.
