(* ===== verification/RpcCalls.v ===== *)
(** * What becomes of the calls of the RPC client

    The invariant of the client thread (RpcThread.v) and its theorems: every call
    is in exactly one place until it ends; without contention for the mutex of a
    connection no call without time-out is lost; no step of the thread faults.
    With contention a call can be stranded: the last theorem is a run in which
    that happens. *)
From stdpp Require Import gmap sorting.
From S2P Require Import Prelude Define Sending Sender RpcWire RpcClient Threads RpcThread.
Open Scope Z_scope.

Module RpcCalls.
Import RpcClient RpcThread.

(** ** The invariant *)
Section invariant.
Context {M Proto : Type} `{Message M Proto} (e : endian).
Context (strerror : Z → bytes) (sendThreadNum : Z) (ndebug contended : bool).
Implicit Types (s : client M) (b : Connection M) (x : conn M) (task : RpcClientTask M) (k : Z * Z * bool).

Definition care task : Prop := is_Some (response task).
Record task_ok task : Prop := {
  ok_co : is_u64 (co task);
  ok_done : ¬ care task → done task = true ∧ expireTime task = 0;
  ok_controller : care task → is_Some (controller task);
}.

(** The tasks of [connectionTaskQueue_] for a connection. *)
Definition closes (q : list ConnectionTask) (c : nat) : Z := count (λ j, bool_decide (j = CLOSE c)) q.
Definition connects (q : list ConnectionTask) (c : nat) : Z := count (λ j, bool_decide (j = CONNECT c)) q.

Definition flushing (p : conn_pc) (c : nat) : bool := match p with Flushing c' _ => bool_decide (c' = c) | _ => false end.
Definition connecting (p : conn_pc) (c : nat) : bool := match p with Connecting c' => bool_decide (c' = c) | _ => false end.
Definition draining (p : conn_pc) (c : nat) : bool := match p with Draining c' => bool_decide (c' = c) | _ => false end.

(** What a connection has in each of its states. *)
Definition status_ok (p : conn_pc) (c : nat) x : Prop :=
  match st_ (base x) with
  | CONNECTING => added x = false
  | CONNECTED => added x = true ∧ (waitSendTaskCoList_ (base x) = [] ∨ flushing p c = true)
  | CLOSED => waitSendTaskCoList_ (base x) = [] ∧ (added x = true → closed_ x = true)
  end.

Record tasks_ok x : Prop := {
  ok_send : Forall task_ok (waitSendTaskCoList_ (base x));
  ok_map : map_Forall (λ a t, task_ok t ∧ care t ∧ co t = a) (waitResultCoMap_ (base x));
  ok_sendq : Forall task_ok (omap data_of (sendq x));
  ok_datas : Forall task_ok (datas_ x);
}.

Record conn_ok (p : conn_pc) (q : list ConnectionTask) (nch : nat) (c : nat) x : Prop := {
  ok_tasks : tasks_ok x;
  ok_channel : (channel_ x < nch)%nat;
  ok_status : status_ok p c x;
  ok_unadded : added x = false →
    waitResultCoMap_ (base x) = ∅ ∧ datas_ x = [] ∧ omap data_of (sendq x) = [] ∧ closed_ x = false ∧ sendEnded x = false;
  ok_closed : closed_ x = true → sendEnded x = true;
  ok_ended : sendEnded x = true → isClosing_ x = true;
  ok_cleaned : cleaned x = true → st_ (base x) = CLOSED ∧ closed_ x = true ∧ draining p c = false;
  ok_connects : connects q c + b2z (connecting p c) = b2z (bool_decide (st_ (base x) = CONNECTING));
  ok_closes : closes q c = b2z (closed_ x && bool_decide (st_ (base x) = CONNECTED));
  ok_draining : draining p c = true → st_ (base x) = CLOSED ∧ closed_ x = true;
  ok_flushing : flushing p c = true → st_ (base x) = CONNECTED;
}.

Definition pc_conn (p : conn_pc) : option nat :=
  match p with ConnIdle => None | Draining c | Connecting c | Flushing c _ => Some c end.
Definition conn_of (j : ConnectionTask) : nat := match j with CLOSE c | CONNECT c => c end.

(** The references between the parts are valid. *)
Record refs_ok s : Prop := {
  ok_slots h ch : channels s !! h = Some ch →
    0 ≤ conIndex_ ch ∧ Forall (λ o, ∀ c, o = Some c → (c < length (conns s))%nat) (connections_ ch);
  ok_queue : Forall (λ t, (ct_channel t < length (channels s))%nat ∧ task_ok (rpcTask t)) (taskQueue_ s);
  ok_clear : Forall (λ h, (h < length (channels s))%nat) (clearChannelQueue_ s);
  ok_ctq : Forall (λ j, (conn_of j < length (conns s))%nat) (connectionTaskQueue_ s);
  ok_cpc c : pc_conn (cpc s) = Some c → (c < length (conns s))%nat;
  ok_tpc c task : tpc s = Locking c task → task_ok task ∧ care task ∧
    ∃ x, conns s !! c = Some x ∧ st_ (base x) ≠ CONNECTING ∧ added x = true;
}.

(** Every call is in one place. *)
Definition conserved s : Prop := ∀ k,
  n k (issued s) = if k.2 then waiting k s + answered k s + n k (expired s) + n k (replaced s)
                   else unsent k s + called_back k s.

(** Without contention: a call without time-out is the last one of its
    coroutine. *)
Definition before (t1 t2 : RpcClientTask M) : Prop :=
  care t1 → expireTime t1 = 0 → care t2 → co t1 ≠ co t2.
Definition line s : list (RpcClientTask M) := in_hand s ++ (rpcTask <$> taskQueue_ s).
Record ordered s (c : nat) x : Prop := {
  ord_map a t1 t2 : waitResultCoMap_ (base x) !! a = Some t1 → t2 ∈ waitSendTaskCoList_ (base x) ++ line s → before t1 t2;
  ord_line : ForallOrdPairs before (waitSendTaskCoList_ (base x) ++ line s);
  ord_closed : st_ (base x) = CLOSED → draining (cpc s) c = false → waitResultCoMap_ (base x) = ∅;
}.
Record uncontended s : Prop := {
  unc_pc : tpc s = TaskIdle ∨ quiet (set_tpc s TaskIdle);
  unc_line : ForallOrdPairs before (line s);
  unc_conns c x : conns s !! c = Some x → ordered s c x;
  unc_locked c task x : tpc s = Locking c task → conns s !! c = Some x → st_ (base x) = CONNECTED;
  unc_replaced : Forall (λ t, expireTime t ≠ 0) (replaced s);
}.

Record inv s : Prop := {
  inv_refs : refs_ok s;
  inv_conns c x : conns s !! c = Some x → conn_ok (cpc s) (connectionTaskQueue_ s) (length (channels s)) c x;
  inv_conserved : conserved s;
  inv_expired : Forall (λ t, expireTime t ≠ 0) (expired s);
  inv_uncontended : contended = false → uncontended s;
}.

(** *** Counting *)
Lemma n_app k (l l' : list (RpcClientTask M)) : n k (l ++ l') = n k l + n k l'.
Proof. apply count_app. Qed.
Lemma n_cons k task (l : list (RpcClientTask M)) : n k (task :: l) = b2z (bool_decide (key task = k)) + n k l.
Proof. done. Qed.
Lemma n_nil k : n k ([] : list (RpcClientTask M)) = 0.
Proof. done. Qed.
Lemma n_nonneg k (l : list (RpcClientTask M)) : 0 ≤ n k l.
Proof. apply count_nonneg. Qed.
Lemma n_perm k (l l' : list (RpcClientTask M)) : l ≡ₚ l' → n k l = n k l'.
Proof. apply count_Permutation. Qed.
Lemma n_in k (l : list (RpcClientTask M)) task : task ∈ l → key task = k → 1 ≤ n k l.
Proof. intros (i & Hi)%list_elem_of_lookup Hk. eapply count_pos; [exact Hi|]. by apply bool_decide_true. Qed.
Lemma n_none k (l : list (RpcClientTask M)) : Forall (λ t, key t ≠ k) l → n k l = 0.
Proof. intros Hl. apply count_none. eapply Forall_impl; [exact Hl|]. intros t Ht. by apply bool_decide_false. Qed.

Lemma n_map_insert k (m : gmap Z (RpcClientTask M)) a task :
  n k (in_map (<[a := task]> m)) + n k (option_list (m !! a)) = n k (in_map m) + n k [task].
Proof.
  unfold in_map. destruct (m !! a) as [old|] eqn:E; simpl.
  - rewrite <-(insert_delete_id m a old E) at 2. rewrite <-(insert_delete_eq m a task).
    rewrite !(n_perm _ _ _ (fmap_Permutation snd _ _ (map_to_list_insert _ a _ (lookup_delete_eq m a)))). rewrite !fmap_cons, !n_cons, !n_nil. cbn [snd]. lia.
  - rewrite (n_perm _ _ _ (fmap_Permutation snd _ _ (map_to_list_insert _ a _ E))).
    rewrite fmap_cons, !n_cons, !n_nil. cbn [snd]. lia.
Qed.
Lemma n_map_delete k (m : gmap Z (RpcClientTask M)) a task : m !! a = Some task →
  n k (in_map m) = n k (in_map (delete a m)) + n k [task].
Proof.
  intros E. unfold in_map. rewrite <-(insert_delete_id m a task E) at 1.
  rewrite (n_perm _ _ _ (fmap_Permutation snd _ _ (map_to_list_insert _ a _ (lookup_delete_eq m a)))). rewrite fmap_cons, !n_cons, n_nil. cbn [snd]. lia.
Qed.
Lemma n_by_key k (m : gmap Z (RpcClientTask M)) : n k (by_key m) = n k (in_map m).
Proof. unfold by_key, in_map. by rewrite (n_perm _ _ _ (fmap_Permutation snd _ _ (merge_sort_Permutation key_le _))). Qed.
Lemma Forall_by_key (P : RpcClientTask M → Prop) (m : gmap Z (RpcClientTask M)) :
  map_Forall (λ _ t, P t) m → Forall P (by_key m).
Proof.
  intros Hm. apply Forall_forall. intros t Ht. unfold by_key in Ht.
  rewrite merge_sort_Permutation in Ht. apply list_elem_of_fmap in Ht as ([a t'] & -> & Ht).
  apply elem_of_map_to_list in Ht. exact (Hm a t' Ht).
Qed.
Lemma in_map_elem (m : gmap Z (RpcClientTask M)) a t : m !! a = Some t → t ∈ in_map m.
Proof. intros Ht%elem_of_map_to_list. unfold in_map. apply list_elem_of_fmap. by exists (a, t). Qed.

Lemma key_care k task : care task → k.2 = false → key task ≠ k.
Proof. intros Hc Hk <-. apply bool_decide_eq_false in Hk. done. Qed.
Lemma key_no_care k task : ¬ care task → k.2 = true → key task ≠ k.
Proof. intros Hc Hk <-. apply bool_decide_eq_true in Hk. done. Qed.
Lemma no_response task : response task = None → ¬ care task.
Proof. unfold care. intros ->. apply is_Some_None. Qed.

Lemma n_care k task : care task → n k [task] = if k.2 then n k [task] else 0.
Proof. intros Hc. destruct k.2 eqn:E; [done|]. apply n_none. constructor; [by apply key_care|constructor]. Qed.
Lemma n_no_care k task : ¬ care task → n k [task] = if k.2 then 0 else n k [task].
Proof. intros Hc. destruct k.2 eqn:E; [|done]. apply n_none. constructor; [by apply key_no_care|constructor]. Qed.

(** The calls of a connection, by what becomes of them. *)
Definition care_total k x : Z :=
  n k (waitSendTaskCoList_ (base x)) + n k (in_map (waitResultCoMap_ (base x))) + n k (r_task <$> resumed (base x)).
Definition done_total k x : Z :=
  n k (waitSendTaskCoList_ (base x)) + n k (omap data_of (sendq x)) + (if cleaned x then 0 else n k (datas_ x))
  + n k (done_run (base x)).
Definition tot k x : Z := if k.2 then care_total k x else done_total k x.

Definition rest k s : Z :=
  n k (rpcTask <$> taskQueue_ s) +
  if k.2 then n k (in_hand s) + n k (r_task <$> failed s) + n k (expired s) + n k (replaced s)
  else n k (failed_done s).
Lemma conserved_iff s : conserved s ↔ ∀ k, n k (issued s) = rest k s + total (tot k) (conns s).
Proof.
  unfold conserved, rest, tot, waiting, answered, unsent, called_back. split; intros Hc k; specialize (Hc k);
    (destruct k.2; unfold care_total, done_total in *; rewrite ?total_add in *; lia).
Qed.

(** *** Changes of the coroutines *)
Lemma key_set_controller ctl task : key (set_controller ctl task) = key task.
Proof. done. Qed.
Lemma key_fail_controller err task : key (fail_controller strerror err task) = key task.
Proof. unfold fail_controller. by destruct (controller task). Qed.

Lemma fail_call_ok err task : task_ok task → care task →
  ∃ r, fail_call strerror err task = Ok r ∧ key (r_task r) = key task.
Proof.
  intros [_ _ Hc] [ctl E]%Hc. unfold fail_call. rewrite E. case_bool_decide; simpl; eexists; (split; [reflexivity|done]).
Qed.

(** Connections that differ only in the calls resumed and the callbacks run. *)
Record same_waiting b b' : Prop := {
  same_st : st_ b' = st_ b;
  same_send : waitSendTaskCoList_ b' = waitSendTaskCoList_ b;
  same_map : waitResultCoMap_ b' = waitResultCoMap_ b;
}.
Lemma same_waiting_refl b : same_waiting b b.
Proof. done. Qed.

Lemma fail_results_ok l b : Forall (λ t, task_ok t ∧ care t) l →
  ∃ b', fail_results strerror l b = Ok b' ∧ same_waiting b b' ∧ done_run b' = done_run b ∧
    ∀ k, n k (r_task <$> resumed b') = n k (r_task <$> resumed b) + n k l.
Proof.
  revert b. induction l as [|task l IH]; intros b Hl; simpl.
  - exists b. split_and!; try done. intros k. rewrite n_nil. lia.
  - apply Forall_cons in Hl as [[Hok Hc] Hl]. destruct (fail_call_ok ENETDOWN task Hok Hc) as (r & -> & Hk). simpl.
    destruct (IH (add_resumed r b) Hl) as (b' & -> & [? ? ?] & ? & Hn). exists b'. split_and!; try done.
    intros k. rewrite Hn. simpl. rewrite fmap_app, n_app. simpl. rewrite !n_cons, n_nil, Hk. lia.
Qed.

Lemma clean_data_ok task b : task_ok task →
  ∃ b', cleanDataOnClosing strerror task b = Ok b' ∧ same_waiting b b' ∧ resumed b' = resumed b ∧
    ∀ k, k.2 = false → n k (done_run b') = n k (done_run b) + n k [task].
Proof.
  intros [_ Hd _]. unfold cleanDataOnClosing. destruct (response task) as [r|] eqn:E.
  - exists b. split_and!; try done. intros k Hk. rewrite (n_none k [task]); [lia|]. constructor; [|constructor].
    apply key_care; [by eexists|done].
  - destruct Hd as [-> _]; [by apply no_response|]. eexists. split; [done|]. split_and!; try done.
    intros k _. simpl. rewrite n_app, !n_cons, key_fail_controller. done.
Qed.
Lemma run_datas_ok l b : Forall task_ok l →
  ∃ b', run_datas strerror l b = Ok b' ∧ same_waiting b b' ∧ resumed b' = resumed b ∧
    ∀ k, k.2 = false → n k (done_run b') = n k (done_run b) + n k l.
Proof.
  revert b. induction l as [|task l IH]; intros b Hl; simpl.
  - exists b. split_and!; try done. intros k _. rewrite n_nil. lia.
  - apply Forall_cons in Hl as [Hok Hl]. destruct (clean_data_ok task b Hok) as (b1 & -> & [? ? ?] & ? & Hn1). simpl.
    destruct (IH b1 Hl) as (b' & -> & [? ? ?] & ? & Hn). exists b'. split_and!; [done|split; congruence|congruence|].
    intros k Hk. rewrite Hn, Hn1, !n_cons, n_nil by done. lia.
Qed.

Lemma fail_waiting_ok err l b : Forall task_ok l →
  ∃ b', fail_waiting strerror err l b = Ok b' ∧ same_waiting b b' ∧
    ∀ k, if k.2 then n k (r_task <$> resumed b') = n k (r_task <$> resumed b) + n k l
         else n k (done_run b') = n k (done_run b) + n k l.
Proof.
  revert b. induction l as [|task l IH]; intros b Hl; simpl.
  - exists b. split_and!; try done. intros k. rewrite n_nil. destruct k.2; lia.
  - apply Forall_cons in Hl as [Hok Hl]. destruct (response task) as [resp|] eqn:E.
    + destruct (fail_call_ok err task Hok) as (r & -> & Hk); [by eexists|]. simpl.
      destruct (IH (add_resumed r b) Hl) as (b' & -> & [? ? ?] & Hn). exists b'. split_and!; try done.
      intros k. specialize (Hn k). destruct k.2 eqn:Ek; simpl in Hn.
      * rewrite Hn, fmap_app, n_app. simpl. rewrite !n_cons, n_nil, Hk. lia.
      * rewrite Hn, n_cons, bool_decide_false; [simpl; lia|]. apply key_care; [by eexists|done].
    + destruct (ok_done _ Hok) as [Hd _]; [by apply no_response|]. rewrite require_true by done. simpl.
      destruct (IH (run_done (fail_controller strerror err task) b) Hl) as (b' & -> & [? ? ?] & Hn). exists b'. split_and!; try done.
      intros k. specialize (Hn k). destruct k.2 eqn:Ek; simpl in Hn.
      * rewrite Hn, n_cons, bool_decide_false; [simpl; lia|]. apply key_no_care; [by apply no_response|done].
      * rewrite Hn, n_app, !n_cons, n_nil, key_fail_controller. lia.
Qed.

(** *** Changes of one connection *)
Definition same_tokens s s' (c : nat) : Prop :=
  connects (connectionTaskQueue_ s') c + b2z (connecting (cpc s') c)
  = connects (connectionTaskQueue_ s) c + b2z (connecting (cpc s) c) ∧
  closes (connectionTaskQueue_ s') c = closes (connectionTaskQueue_ s) c ∧
  draining (cpc s') c = draining (cpc s) c ∧ flushing (cpc s') c = flushing (cpc s) c.

Lemma same_tokens_refl s s' c : connectionTaskQueue_ s' = connectionTaskQueue_ s → cpc s' = cpc s → same_tokens s s' c.
Proof. unfold same_tokens. intros -> ->. done. Qed.

Lemma conn_ok_tokens s s' c x : same_tokens s s' c → (length (channels s) ≤ length (channels s'))%nat →
  conn_ok (cpc s) (connectionTaskQueue_ s) (length (channels s)) c x →
  conn_ok (cpc s') (connectionTaskQueue_ s') (length (channels s')) c x.
Proof.
  intros (H1 & H2 & H3 & H4) Hl [? ? Hst ? ? ? ? ? ? ? ?]. constructor; rewrite ?H1, ?H2, ?H3, ?H4; try done; [lia|].
  unfold status_ok in *. by rewrite H4.
Qed.

Lemma client_inv_update s s' c x x' : inv s → conns s !! c = Some x → conns s' = <[c := x']> (conns s) →
  refs_ok s' → (∀ c', c' ≠ c → same_tokens s s' c') → (length (channels s) ≤ length (channels s'))%nat →
  conn_ok (cpc s') (connectionTaskQueue_ s') (length (channels s')) c x' →
  (∀ k, n k (issued s') - rest k s' - tot k x' = n k (issued s) - rest k s - tot k x) →
  Forall (λ t, expireTime t ≠ 0) (expired s') →
  (contended = false → uncontended s → uncontended s') → inv s'.
Proof.
  intros [Hr Hc Hn He Hu] Hx Hcs Hr' Ht Hl Hx' Hk He' Hu'. constructor; try done.
  - intros c' y. rewrite Hcs. destruct (decide (c' = c)) as [->|Hne].
    + rewrite list_lookup_insert_eq by (by eapply lookup_lt_Some). by intros [= <-].
    + rewrite list_lookup_insert_ne by done. intros Hy. eapply conn_ok_tokens; [by apply Ht|done|]. by apply Hc.
  - apply conserved_iff. intros k. rewrite conserved_iff in Hn. specialize (Hn k). specialize (Hk k).
    rewrite Hcs, (total_insert _ _ _ _ _ Hx). lia.
  - auto.
Qed.

Lemma ordered_shrink s s' c x x' : ordered s c x → line s' `sublist_of` line s →
  waitSendTaskCoList_ (base x') `sublist_of` waitSendTaskCoList_ (base x) →
  waitResultCoMap_ (base x') ⊆ waitResultCoMap_ (base x) →
  (st_ (base x') = CLOSED → draining (cpc s') c = false → waitResultCoMap_ (base x') = ∅) → ordered s' c x'.
Proof.
  intros [Hm Hl Hc] Hs Hw Hsub Hcl. assert (waitSendTaskCoList_ (base x') ++ line s' `sublist_of` waitSendTaskCoList_ (base x) ++ line s)
    as Hsl by (by apply sublist_app). constructor; [|by eapply ForallOrdPairs_sublist|done].
  intros a t1 t2 H1 H2. eapply Hm; [by eapply lookup_weaken|]. by eapply elem_of_submseteq, sublist_submseteq.
Qed.
Lemma unc_update s s' c x' : uncontended s → conns s' = <[c := x']> (conns s) → line s' `sublist_of` line s →
  (∀ c', c' ≠ c → draining (cpc s') c' = draining (cpc s) c') → ordered s' c x' →
  (tpc s' = TaskIdle ∨ quiet (set_tpc s' TaskIdle)) →
  (∀ c task x, tpc s' = Locking c task → conns s' !! c = Some x → st_ (base x) = CONNECTED) →
  Forall (λ t, expireTime t ≠ 0) (replaced s') → uncontended s'.
Proof.
  intros [Hp Hl Hc Hlk Hr] Hcs Hs Hd Hx Hp' Hlk' Hr'. constructor; try done; [by eapply ForallOrdPairs_sublist|].
  intros c' y. rewrite Hcs. destruct (decide (c' = c)) as [->|Hne].
  - intros Hy. destruct (decide (c < length (conns s))%nat).
    + rewrite list_lookup_insert_eq in Hy by done. by simplify_eq.
    + apply lookup_lt_Some in Hy. rewrite length_insert in Hy. done.
  - rewrite list_lookup_insert_ne by done. intros Hy. pose proof (Hc c' y Hy) as Ho. eapply ordered_shrink; [exact Ho|done..|].
    rewrite Hd by done. apply Ho.
Qed.

(** The common case: only the calls resumed and the callbacks of one connection
    change, or its queues to the sender. *)
Lemma refs_conn s c x x' : refs_ok s → conns s !! c = Some x → (st_ (base x') = CONNECTING → st_ (base x) = CONNECTING) →
  (added x = true → added x' = true) → refs_ok (set_conn s c x').
Proof.
  intros [H1 H2 H3 H4 H5 H6] Hx Hst Ha. constructor; simpl; rewrite ?length_insert; auto.
  intros c' task Hp. destruct (H6 c' task Hp) as (? & ? & y & Hy & Hn & Had). split_and!; try done.
  destruct (decide (c' = c)) as [->|Hne].
  - rewrite list_lookup_insert_eq by (by eapply lookup_lt_Some). simplify_eq. eexists. split; [done|]. auto.
  - rewrite list_lookup_insert_ne by done. eauto.
Qed.
Lemma inv_conn s c x x' : inv s → conns s !! c = Some x →
  conn_ok (cpc s) (connectionTaskQueue_ s) (length (channels s)) c x' →
  st_ (base x') = st_ (base x) → waitSendTaskCoList_ (base x') = waitSendTaskCoList_ (base x) →
  waitResultCoMap_ (base x') ⊆ waitResultCoMap_ (base x) → (added x = true → added x' = true) →
  (∀ k, tot k x' = tot k x) → inv (set_conn s c x').
Proof.
  intros Hi Hx Hok Hst Hw Hm Ha Hk. eapply (client_inv_update s _ c x x'); try done.
  - eapply refs_conn; [apply Hi|done| |done]. congruence.
  - intros k. rewrite Hk. done.
  - apply Hi.
  - intros _ Hu. eapply (unc_update s _ c x'); try done; [|apply Hu|..|apply Hu]; cycle 1.
    { intros c' task y Ht. simpl in *. destruct (decide (c' = c)) as [->|Hne].
      - rewrite list_lookup_insert_eq by (by eapply lookup_lt_Some). intros [= <-]. rewrite Hst. by eapply unc_locked.
      - rewrite list_lookup_insert_ne by done. by eapply unc_locked. }
    pose proof (unc_conns _ Hu c x Hx) as Ho. eapply ordered_shrink; [exact Ho|done|by rewrite Hw|done|].
    rewrite Hst. intros Hcl Hd. simpl in Hd. apply (anti_symm (⊆)); [by rewrite <-(ord_closed _ _ _ Ho)|apply map_empty_subseteq].
Qed.

(** *** The sender and the receiver *)
Ltac conn_fields Hok := destruct Hok as [[] ]; constructor; [constructor|..]; try done.
Lemma tot_intro k x x' :
  (k.2 = true → care_total k x' = care_total k x) → (k.2 = false → done_total k x' = done_total k x) → tot k x' = tot k x.
Proof. unfold tot. destruct k.2; auto. Qed.

Lemma same_tot_care k x b : same_waiting (base x) b → resumed b = resumed (base x) → care_total k (set_base b x) = care_total k x.
Proof. intros [_ Hw Hm] Hr. unfold care_total. simpl. by rewrite Hw, Hm, Hr. Qed.

Lemma sender_handle_inv s c : inv s → (c < length (conns s))%nat → ∃ s', sender_handle strerror s c = Ok s' ∧ inv s'.
Proof.
  intros Hi [x Hx]%lookup_lt_is_Some. pose proof (inv_conns _ Hi c x Hx) as Hok. unfold sender_handle. rewrite Hx. simpl.
  destruct (sendq x) as [|[| |d] q] eqn:Eq; [by eexists|..].
  - eexists. split; [done|]. apply (inv_conn s c x); try done.
    + conn_fields Hok; simpl in *; rewrite Eq in *; done.
    + intros k. apply tot_intro; intros _; [done|]. unfold done_total. by rewrite Eq.
  - eexists. split; [done|]. apply (inv_conn s c x); try done.
    + conn_fields Hok; simpl in *; rewrite Eq in *; done.
    + intros k. apply tot_intro; intros _; [done|]. unfold done_total. by rewrite Eq.
  - assert (added x = true) as Ha.
    { destruct (added x) eqn:E; [done|]. destruct (ok_unadded _ _ _ _ _ Hok E) as (_ & _ & Hd & _). by rewrite Eq in Hd. }
    assert (task_ok d ∧ Forall task_ok (omap data_of q)) as [Hd Hq].
    { pose proof (ok_sendq _ (ok_tasks _ _ _ _ _ Hok)) as Hf. rewrite Eq in Hf. by apply Forall_cons in Hf. }
    destruct (isClosing_ x) eqn:Ecl.
    + destruct (clean_data_ok d (base x) Hd) as (b & -> & Hs & Hr & Hn). simpl. eexists. split; [done|].
      destruct (Hs) as [Hst Hw Hm]. apply (inv_conn s c x); try done; simpl.
      * conn_fields Hok; unfold status_ok in *; simpl; rewrite ?Hst, ?Hw, ?Hm; solve [done|by rewrite Ha].
      * by rewrite Hm.
      * intros k. apply tot_intro; intros Hk; [unfold care_total; simpl; by rewrite Hw, Hm, Hr|].
        unfold done_total. simpl. rewrite Hw, (Hn k Hk), Eq. cbn [omap list_omap data_of]. rewrite !n_cons, n_nil. lia.
    + eexists. split; [done|]. apply (inv_conn s c x); try done; simpl.
      * conn_fields Hok; simpl; try solve [by rewrite Ha|by rewrite <-Ecl]. apply Forall_app. split; [done|by constructor].
      * intros k. apply tot_intro; intros Hk; [done|].
        unfold done_total. simpl. rewrite Eq. cbn [omap list_omap data_of]. destruct (cleaned x) eqn:Ec.
        -- destruct (ok_cleaned _ _ _ _ _ Hok Ec) as (_ & Hc & _). apply (ok_closed _ _ _ _ _ Hok), (ok_ended _ _ _ _ _ Hok) in Hc. congruence.
        -- rewrite n_app, !n_cons, n_nil. lia.
Qed.

Lemma sender_encode_inv s c x : inv s → conns s !! c = Some x → sendEnded x = false →
  ∃ s', sender_encode s c = Ok s' ∧ inv s'.
Proof.
  intros Hi Hx He. pose proof (inv_conns _ Hi c x Hx) as Hok. unfold sender_encode. rewrite Hx. simpl.
  destruct (datas_ x) as [|d q] eqn:Eq; [by eexists|].
  assert (task_ok d ∧ Forall task_ok q) as [Hd Hq].
  { pose proof (ok_datas _ (ok_tasks _ _ _ _ _ Hok)) as Hf. rewrite Eq in Hf. by apply Forall_cons in Hf. }
  assert (cleaned x = false) as Hcl.
  { destruct (cleaned x) eqn:Ec; [|done]. destruct (ok_cleaned _ _ _ _ _ Hok Ec) as (_ & Hc & _).
    apply (ok_closed _ _ _ _ _ Hok) in Hc. congruence. }
  assert (added x = true) as Ha.
  { destruct (added x) eqn:E; [done|]. destruct (ok_unadded _ _ _ _ _ Hok E) as (_ & Hdd & _). by rewrite Eq in Hdd. }
  assert (∃ b, (match response d with None => _ ← require (done d = true); Ok (run_done d (base x)) | Some _ => Ok (base x) end) = Ok b ∧
      same_waiting (base x) b ∧ resumed b = resumed (base x) ∧ ∀ k, k.2 = false → n k (done_run b) = n k (done_run (base x)) + n k [d])
    as (b & -> & Hs & Hr & Hn).
  { destruct (response d) eqn:E.
    - exists (base x). split_and!; try done. intros k Hk. rewrite (n_none k [d]); [lia|].
      constructor; [|constructor]. apply key_care; [by eexists|done].
    - destruct (ok_done _ Hd) as [-> _]; [by apply no_response|]. eexists. split; [done|]. split_and!; try done.
      intros k _. simpl. by rewrite n_app. }
  simpl. eexists. split; [done|]. destruct (Hs) as [Hst Hw Hm]. apply (inv_conn s c x); try done; simpl.
  - conn_fields Hok; unfold status_ok in *; simpl; rewrite ?Hst, ?Hw, ?Hm; solve [done|by rewrite Ha].
  - by rewrite Hm.
  - intros k. apply tot_intro; intros Hk; [unfold care_total; simpl; by rewrite Hw, Hm, Hr|].
    unfold done_total. simpl. rewrite Hw, (Hn k Hk), Eq, Hcl, !n_cons, n_nil. lia.
Qed.

Lemma sender_end_inv s c x : inv s → conns s !! c = Some x → added x = true → ∃ s', sender_end s c = Ok s' ∧ inv s'.
Proof.
  intros Hi Hx Ha. pose proof (inv_conns _ Hi c x Hx) as Hok. unfold sender_end. rewrite Hx. simpl. eexists. split; [done|].
  apply (inv_conn s c x); try done. conn_fields Hok; simpl; rewrite ?Ha; done.
Qed.

Lemma receiver_remove_inv s c : inv s → (c < length (conns s))%nat → ∃ s', receiver_remove s c = Ok s' ∧ inv s'.
Proof.
  intros Hi [x Hx]%lookup_lt_is_Some. pose proof (inv_conns _ Hi c x Hx) as Hok. unfold receiver_remove. rewrite Hx. simpl.
  eexists. split; [done|]. apply (inv_conn s c x); try done.
  - conn_fields Hok; simpl; rewrite omap_app; simpl; by rewrite app_nil_r.
  - intros k. apply tot_intro; intros _; [done|]. unfold done_total. simpl. rewrite omap_app. simpl. by rewrite app_nil_r.
Qed.

Lemma fill_result_key task code expire body task' : fill_result task code expire body = Ok task' → key task' = key task.
Proof.
  unfold fill_result. case_bool_decide.
  - intros (u & _ & Hb)%bind_Ok_inv. case_bool_decide.
    + apply bind_Ok_inv in Hb as (ctl & _ & [= <-]). done.
    + by injection Hb as <-.
  - intros (r & _ & Hb)%bind_Ok_inv. destruct (ParseFromArray _ _); [|done]. by injection Hb as <-.
Qed.
Lemma decode_shape b head body size b' body' o : decode e b head body size = Ok (b', body', o) →
  b' = b ∨ ∃ a task task', waitResultCoMap_ b !! a = Some task ∧ key task' = key task ∧
    st_ b' = st_ b ∧ waitSendTaskCoList_ b' = waitSendTaskCoList_ b ∧ waitResultCoMap_ b' = delete a (waitResultCoMap_ b) ∧
    (r_task <$> resumed b') = (r_task <$> resumed b) ++ [task'] ∧ done_run b' = done_run b.
Proof.
  unfold decode. intros (? & _ & (a & _ & (? & _ & (? & _ & (u & _ & Hd)%bind_Ok_inv)%bind_Ok_inv)%bind_Ok_inv)%bind_Ok_inv)%bind_Ok_inv.
  destruct (waitResultCoMap_ b !! a) as [task|] eqn:Ea; [|by left; injection Hd].
  case_bool_decide; [by left; injection Hd|]. apply bind_Ok_inv in Hd as (bs & _ & (task' & Hf & Hd)%bind_Ok_inv).
  right. exists a, task, task'. injection Hd as <- _ _. simpl. rewrite fmap_app. split_and!; try done. by eapply fill_result_key.
Qed.

Lemma receiver_decode_inv s c x head body size s' : inv s → conns s !! c = Some x → added x = true →
  receiver_decode e s c head body size = Ok s' → inv s'.
Proof.
  intros Hi Hx Ha. pose proof (inv_conns _ Hi c x Hx) as Hok. unfold receiver_decode. rewrite Hx. simpl.
  intros ([[b body'] o] & Hd & [= <-])%bind_Ok_inv.
  apply decode_shape in Hd as [->|(a & task & task' & Hm & Hk & Hst & Hw & Hm' & Hr & Hdn)]; apply (inv_conn s c x); try done; simpl.
  - conn_fields Hok.
  - conn_fields Hok; unfold status_ok in *; simpl; rewrite ?Hst, ?Hw; try solve [done|by rewrite Ha].
    rewrite Hm'. by apply map_Forall_delete.
  - rewrite Hm'. apply delete_subseteq.
  - intros k. apply tot_intro; intros _; [|unfold done_total; simpl; by rewrite Hw, Hdn].
    unfold care_total. simpl. rewrite Hw, Hm', Hr, n_app, (n_map_delete k _ a task Hm), !n_cons, n_nil, Hk. lia.
Qed.

Lemma receiver_close_inv s c x : inv s → conns s !! c = Some x → sendEnded x = true → closed_ x = false →
  ∃ s', receiver_close s c = Ok s' ∧ inv s'.
Proof.
  intros Hi Hx He Hc. pose proof (inv_conns _ Hi c x Hx) as Hok. unfold receiver_close. rewrite Hx. simpl. eexists. split; [done|].
  assert (added x = true) as Ha.
  { destruct (added x) eqn:E; [done|]. destruct (ok_unadded _ _ _ _ _ Hok E) as (_ & _ & _ & _ & ?). congruence. }
  assert (st_ (base x) = CONNECTED) as Hst.
  { pose proof (ok_status _ _ _ _ _ Hok) as Hs. unfold status_ok in Hs. destruct (st_ (base x)); [|congruence|done].
    destruct Hs as [_ Hs]. rewrite Hs in Hc; done. }
  eapply (client_inv_update s _ c x); try done; simpl.
  - destruct (refs_conn s c x (Conn (base x) (channel_ x) (sendq x) (datas_ x) (added x) (isClosing_ x) (sendEnded x) true (cleaned x))
      (inv_refs _ Hi) Hx ltac:(done) ltac:(done)) as [H1 H2 H3 H4 H5 H6]. constructor; try done. simpl in *. apply Forall_app. split; [done|].
    constructor; [|constructor]. simpl. rewrite length_insert. by eapply lookup_lt_Some.
  - intros c' Hne. unfold same_tokens. simpl. unfold connects, closes. rewrite !count_app. simpl.
    rewrite (bool_decide_false (CLOSE c = CLOSE c')) by congruence. simpl. split_and!; try done; lia.
  - conn_fields Hok; simpl.
    + unfold status_ok in *. simpl. by rewrite Hst in *.
    + by rewrite Ha.
    + intros [? _]%ok_cleaned0. congruence.
    + unfold connects in *. rewrite count_app. simpl. rewrite <-ok_connects0. lia.
    + unfold closes in *. rewrite count_app, ok_closes0, Hc, Hst. simpl. by rewrite !bool_decide_true by done.
    + intros [? _]%ok_draining0. congruence.
  - apply Hi.
  - intros _ Hu. eapply (unc_update s _ c); try done; [|apply Hu|..|apply Hu].
    + pose proof (unc_conns _ Hu c x Hx) as Ho. eapply ordered_shrink; [exact Ho|done..|]. simpl. congruence.
    + intros c' task y Ht. simpl in *. destruct (decide (c' = c)) as [->|Hne].
      * rewrite list_lookup_insert_eq by (by eapply lookup_lt_Some). by intros [= <-].
      * rewrite list_lookup_insert_ne by done. by eapply unc_locked.
Qed.

(** *** [connectionRoutine] *)
Lemma refs_channel s h ch i d : refs_ok s → channels s !! h = Some ch → 0 ≤ i →
  refs_ok (set_channel s h (Channel (connections_ ch) i d)).
Proof.
  intros [H1 H2 H3 H4 H5 H6] Hh Hi. constructor; simpl; rewrite ?length_insert; auto.
  intros h' ch'. destruct (decide (h = h')) as [<-|Hne].
  - rewrite list_lookup_insert_eq by (by eapply lookup_lt_Some). intros [= <-]. simpl. split; [done|]. by eapply H1.
  - rewrite list_lookup_insert_ne by done. apply H1.
Qed.
Lemma refs_cpc s p : refs_ok s → (∀ c, pc_conn p = Some c → (c < length (conns s))%nat) → refs_ok (set_cpc s p).
Proof. intros [H1 H2 H3 H4 H5 H6] Hp. by constructor. Qed.
Lemma refs_ctq s q : refs_ok s → Forall (λ j, (conn_of j < length (conns s))%nat) q → refs_ok (set_ctq s q).
Proof. intros [H1 H2 H3 H4 H5 H6] Hp. by constructor. Qed.

Lemma tokens_head j q c c' : conn_of j = c → c' ≠ c → connects (j :: q) c' = connects q c' ∧ closes (j :: q) c' = closes q c'.
Proof.
  intros <- Hne. unfold connects, closes. simpl. destruct j; simpl in *;
    rewrite ?(bool_decide_false (CLOSE c = CONNECT c')), ?(bool_decide_false (CLOSE c = CLOSE c')),
      ?(bool_decide_false (CONNECT c = CONNECT c')), ?(bool_decide_false (CONNECT c = CLOSE c')) by congruence; simpl; lia.
Qed.
Lemma pc_other p c : (∀ c', pc_conn p = Some c' → c' ≠ c) → draining p c = false ∧ connecting p c = false ∧ flushing p c = false.
Proof.
  intros Hp. destruct p as [|c'|c'|c' now]; simpl in *; [done|..]; (assert (c' ≠ c) by auto);
    rewrite !bool_decide_false by done; done.
Qed.
(** The routine starts or ends the work on a connection; the others do not
    notice. *)
Lemma tokens_other s s' c c' : c' ≠ c →
  (∀ a, pc_conn (cpc s) = Some a → a = c) → (∀ a, pc_conn (cpc s') = Some a → a = c) →
  connectionTaskQueue_ s = connectionTaskQueue_ s' ∨ (∃ j, conn_of j = c ∧ connectionTaskQueue_ s = j :: connectionTaskQueue_ s') →
  same_tokens s s' c'.
Proof.
  intros Hne Hp Hp' Hq. unfold same_tokens.
  destruct (pc_other (cpc s) c') as (-> & -> & ->); [intros a ->%Hp; congruence|].
  destruct (pc_other (cpc s') c') as (-> & -> & ->); [intros a ->%Hp'; congruence|].
  destruct Hq as [<-|(j & Hj & ->)]; [done|]. destruct (tokens_head j (connectionTaskQueue_ s') c c') as [-> ->]; done.
Qed.

Lemma take_connection_task_inv s : inv s → may_run contended s → cpc s = ConnIdle →
  ∃ s', take_connection_task s = Ok s' ∧ inv s'.
Proof.
  intros Hi Hrun Hpc. unfold take_connection_task. destruct (connectionTaskQueue_ s) as [|j q] eqn:Eq; [by eexists|].
  pose proof (inv_refs _ Hi) as Hr. pose proof (ok_ctq _ Hr) as Hctq. rewrite Eq in Hctq. apply Forall_cons in Hctq as [Hc Hctq].
  apply lookup_lt_is_Some in Hc as [x Hx]. pose proof (inv_conns _ Hi _ x Hx) as Hok. rewrite Hpc in Hok.
  assert (contended = false → quiet s) as Hq by (destruct Hrun; [congruence|done]).
  destruct j as [c|c]; simpl in *; rewrite Hx; simpl.
  - pose proof (ok_closes _ _ _ _ _ Hok) as Hcl. rewrite Eq in Hcl. unfold closes in Hcl. simpl in Hcl. rewrite bool_decide_true in Hcl by done.
    pose proof (count_nonneg (λ j, bool_decide (j = CLOSE c)) q) as Hpos.
    destruct (closed_ x) eqn:Ecl; [|simpl in Hcl; lia]. destruct (decide (st_ (base x) = CONNECTED)) as [Hst|Hst];
      [rewrite bool_decide_true in Hcl by done|rewrite bool_decide_false in Hcl by done; simpl in Hcl; lia]. simpl in Hcl.
    assert (waitSendTaskCoList_ (base x) = []) as Hw.
    { pose proof (ok_status _ _ _ _ _ Hok) as Hs. unfold status_ok in Hs. rewrite Hst in Hs. by destruct Hs as [_ [?|?]]. }
    destruct (lookup_lt_is_Some_2 (channels s) (channel_ x)) as [ch Hch]; [apply Hok|]. rewrite Hch. simpl.
    rewrite require_true by done. simpl. eexists. split; [done|].
    eapply (client_inv_update s _ c x); try done; simpl.
    + apply refs_cpc; [|intros c' [= <-]; simpl; rewrite length_insert; by eapply lookup_lt_Some].
      apply (refs_channel (set_conn (set_ctq s q) c _)); [|done|by apply (ok_slots _ Hr _ _ Hch)].
      eapply (refs_conn (set_ctq s q)); [by apply refs_ctq|done|done|done].
    + intros c' Hne. apply (tokens_other s _ c); try done; simpl; [by rewrite Hpc|naive_solver|]. right. by exists (CLOSE c).
    + by rewrite length_insert.
    + conn_fields Hok; simpl.
      * by rewrite length_insert.
      * intros [? _]%ok_cleaned0. congruence.
      * by rewrite Eq, Hst in ok_connects0.
      * rewrite andb_false_r. simpl. unfold closes. lia.
    + apply Hi.
    + intros Hun Hu. destruct (Hq Hun) as [Htp _]. eapply (unc_update s _ c); try done; simpl; [| |by left|congruence|apply Hu].
      * intros c' Hne. rewrite Hpc. simpl. by rewrite bool_decide_false.
      * pose proof (unc_conns _ Hu c x Hx) as Ho. eapply ordered_shrink; [exact Ho|done..|]. simpl. by rewrite bool_decide_true.
  - pose proof (ok_connects _ _ _ _ _ Hok) as Hcl. rewrite Eq in Hcl. unfold connects in Hcl. simpl in Hcl. rewrite bool_decide_true in Hcl by done.
    pose proof (count_nonneg (λ j, bool_decide (j = CONNECT c)) q) as Hpos.
    destruct (decide (st_ (base x) = CONNECTING)) as [Hst|Hst];
      [rewrite bool_decide_true in Hcl by done|rewrite bool_decide_false in Hcl by done; simpl in Hcl; lia]. simpl in Hcl.
    rewrite require_true by done. simpl. eexists. split; [done|].
    eapply (client_inv_update s _ c x x); try done; simpl; [by rewrite list_insert_id|..].
    + apply refs_cpc; [by apply refs_ctq|intros c' [= <-]; by eapply lookup_lt_Some].
    + intros c' Hne. apply (tokens_other s _ c); try done; simpl; [by rewrite Hpc|naive_solver|]. right. by exists (CONNECT c).
    + conn_fields Hok; simpl.
      * rewrite Hst, !bool_decide_true by done. unfold connects. simpl. lia.
      * rewrite Eq in ok_closes0. done.
    + apply Hi.
    + intros Hun Hu. destruct (Hq Hun) as [Htp _]. eapply (unc_update s _ c x); try done; simpl;
        [by rewrite list_insert_id|by rewrite Hpc| |by left|congruence|apply Hu].
      pose proof (unc_conns _ Hu c x Hx) as Ho. eapply ordered_shrink; [exact Ho|done..|]. simpl. congruence.
Qed.

Lemma drain_inv s : inv s → ∃ s', drain strerror s = Ok s' ∧ inv s'.
Proof.
  intros Hi. unfold drain. destruct (cpc s) as [|c|c|c now] eqn:Hpc; try by eexists.
  pose proof (inv_refs _ Hi) as Hr. destruct (lookup_lt_is_Some_2 (conns s) c) as [x Hx]; [by apply (ok_cpc _ Hr); rewrite Hpc|].
  pose proof (inv_conns _ Hi _ x Hx) as Hok. rewrite Hpc in Hok. rewrite Hx. simpl.
  destruct (ok_draining _ _ _ _ _ Hok) as [Hst Hcl]; [simpl; by rewrite bool_decide_true|].
  destruct (fail_results_ok (by_key (waitResultCoMap_ (base x))) (set_waitResult ∅ (base x))) as (b1 & -> & [S1 S2 S3] & D1 & N1).
  { apply Forall_by_key. intros a t Ht. destruct (ok_map _ (ok_tasks _ _ _ _ _ Hok) a t Ht) as (? & ? & _). done. }
  simpl. destruct (run_datas_ok (datas_ x) b1) as (b2 & -> & [S4 S5 S6] & R2 & N2); [apply Hok|]. simpl in *.
  assert (cleaned x = false) as Hcln.
  { destruct (cleaned x) eqn:E; [|done]. apply (ok_cleaned _ _ _ _ _ Hok) in E as (_ & _ & E). simpl in E. by rewrite bool_decide_true in E. }
  eexists. split; [done|]. eapply (client_inv_update s _ c x); try done; simpl.
  - apply refs_cpc; [|done]. eapply refs_conn; [done|done|simpl; congruence|done].
  - intros c' Hne. apply (tokens_other s _ c); try done; simpl; [rewrite Hpc; naive_solver|by left].
  - conn_fields Hok; unfold status_ok in *; simpl; rewrite ?S4, ?S5, ?S6, ?S1, ?S2, ?S3; try done.
    intros (_ & ? & ? & ? & ?)%ok_unadded0. done.
  - intros k. enough (tot k (set_cleaned (set_base b2 x)) = tot k x) as -> by done. apply tot_intro; intros Hk.
    + unfold care_total. simpl. rewrite S5, S2, S6, S3, R2, N1, n_by_key. simpl. unfold in_map at 1. rewrite map_to_list_empty. simpl. rewrite n_nil. lia.
    + unfold done_total. simpl. rewrite S5, S2, Hcln, (N2 k Hk), D1. lia.
  - apply Hi.
  - intros Hun Hu. eapply (unc_update s _ c); try done; simpl; [| |by right| |apply Hu].
    + intros c' Hne. rewrite Hpc. simpl. by rewrite bool_decide_false.
    + pose proof (unc_conns _ Hu c x Hx) as Ho. eapply ordered_shrink; [exact Ho|done|..]; simpl; rewrite ?S5, ?S2, ?S6, ?S3; [done|apply map_empty_subseteq|done].
    + intros c' task y Ht. destruct (unc_pc _ Hu) as [?|[_ Hq]]; [congruence|]. simpl in Hq. by rewrite Hpc in Hq.
Qed.

Lemma connected_inv s r now : inv s → may_run contended s → ∃ s', connected strerror s r now = Ok s' ∧ inv s'.
Proof.
  intros Hi Hrun. unfold connected. destruct (cpc s) as [|c|c|c w] eqn:Hpc; try by eexists.
  pose proof (inv_refs _ Hi) as Hr. destruct (lookup_lt_is_Some_2 (conns s) c) as [x Hx]; [by apply (ok_cpc _ Hr); rewrite Hpc|].
  pose proof (inv_conns _ Hi _ x Hx) as Hok. rewrite Hpc in Hok. rewrite Hx. simpl.
  assert (contended = false → tpc s = TaskIdle) as Hq by (destruct Hrun as [|[? _]]; [congruence|done]).
  assert (st_ (base x) = CONNECTING ∧ connects (connectionTaskQueue_ s) c = 0) as [Hst Hcn].
  { pose proof (ok_connects _ _ _ _ _ Hok) as Hcn. simpl in Hcn. rewrite bool_decide_true in Hcn by done. simpl in Hcn.
    pose proof (count_nonneg (λ j, bool_decide (j = CONNECT c)) (connectionTaskQueue_ s)). unfold connects in *.
    destruct (decide (st_ (base x) = CONNECTING)) as [E|E];
      [rewrite bool_decide_true in Hcn by done|rewrite bool_decide_false in Hcn by done]; simpl in Hcn; [split; [done|lia]|lia]. }
  assert (added x = false) as Ha by (pose proof (ok_status _ _ _ _ _ Hok) as Hs; unfold status_ok in Hs; by rewrite Hst in Hs).
  destruct (ok_unadded _ _ _ _ _ Hok Ha) as (Hm & Hd & Hsq & Hcl & Hse).
  assert (cleaned x = false) as Hcln by (destruct (cleaned x) eqn:E; [|done]; apply (ok_cleaned _ _ _ _ _ Hok) in E as [? _]; congruence).
  assert ((if in_progress r then require (waitResultCoMap_ (base x) = ∅) else Ok tt) = Ok tt) as ->
    by (destruct (in_progress r); [by rewrite require_true|done]). simpl.
  assert (∀ c', c' ≠ c → draining ConnIdle c' = draining (cpc s) c') as Hdr by (by rewrite Hpc).
  destruct (connect_failed r) as [[] err].
  - destruct (fail_waiting_ok err (waitSendTaskCoList_ (base x)) (set_waitSend [] (set_st CLOSED (base x))))
      as (b & -> & [S1 S2 S3] & Hn); [apply Hok|]. simpl in *. rewrite require_true by (by rewrite S3, Hm). simpl. eexists. split; [done|].
    eapply (client_inv_update s _ c x); try done; simpl.
    + apply refs_cpc; [|done]. eapply refs_conn; [done|done|simpl; congruence|done].
    + intros c' Hne. apply (tokens_other s _ c); try done; simpl; [rewrite Hpc; naive_solver|by left].
    + conn_fields Hok; unfold status_ok in *; simpl; rewrite ?S1, ?S2, ?S3, ?Ha, ?Hcn, ?Hcln; try done.
      rewrite Hst in ok_closes0. simpl in *. by rewrite andb_false_r in *.
    + intros k. enough (tot k (set_base b x) = tot k x) as -> by done. specialize (Hn k). unfold tot, care_total, done_total.
      destruct k.2; simpl; rewrite S2, Hn, ?S3, ?n_nil; lia.
    + apply Hi.
    + intros Hun Hu. eapply (unc_update s _ c); try done; simpl; [|by right| |apply Hu].
      * pose proof (unc_conns _ Hu c x Hx) as Ho. eapply ordered_shrink; [exact Ho|done|..]; simpl; rewrite ?S2, ?S3; [apply sublist_nil_l|done|done].
      * rewrite (Hq Hun). done.
  - destruct (lookup_lt_is_Some_2 (channels s) (channel_ x)) as [ch Hch]; [apply Hok|]. rewrite Hch. simpl.
    eexists. split; [done|]. eapply (client_inv_update s _ c x); try done; simpl.
    + apply refs_cpc; [|intros c' [= <-]; simpl; rewrite length_insert; by eapply lookup_lt_Some].
      eapply (refs_conn (set_channel s _ _)); [apply refs_channel; [done|done|by apply (ok_slots _ Hr _ _ Hch)]|done|done|done].
    + intros c' Hne. apply (tokens_other s _ c); try done; simpl; [rewrite Hpc; naive_solver|naive_solver|by left].
    + by rewrite length_insert.
    + conn_fields Hok; unfold status_ok in *; simpl; rewrite ?length_insert, ?Hcln, ?omap_app, ?Hsq, ?Hcl; try done.
      * split; [done|]. right. by rewrite bool_decide_true.
      * by rewrite Hcn.
      * by rewrite Hcl in ok_closes0.
    + intros k. match goal with |- _ - tot k ?y = _ => enough (tot k y = tot k x) as -> by done end.
      apply tot_intro; intros _; [done|]. unfold done_total. simpl. by rewrite omap_app, Hsq.
    + apply Hi.
    + intros Hun Hu. eapply (unc_update s _ c); try done; simpl; [|left; by apply Hq| |apply Hu].
      * pose proof (unc_conns _ Hu c x Hx) as Ho. by eapply ordered_shrink.
      * rewrite (Hq Hun). done.
Qed.

(** A call goes to the map and to the sender: the conditions on the state
    before, and the new connection. *)
Definition sent_waiting task x : conn M :=
  enqueue (Sender.DATA task) (set_base (set_waitResult (<[u64 (co task) := task]> (waitResultCoMap_ (base x))) (base x)) x).

Lemma sent_waiting_ok p q nch c x task : conn_ok p q nch c x → added x = true → task_ok task → care task →
  conn_ok p q nch c (sent_waiting task x).
Proof.
  intros Hok Ha Ht Hc. assert (u64 (co task) = co task) as Eu by (apply u64_small, Ht).
  conn_fields Hok; simpl.
  - rewrite Eu. by apply map_Forall_insert_2.
  - rewrite omap_app. simpl. apply Forall_app. split; [done|by constructor].
  - by rewrite Ha.
Qed.
Lemma sent_waiting_tot k x task : care task →
  tot k (sent_waiting task x) + (if k.2 then n k (option_list (waitResultCoMap_ (base x) !! u64 (co task))) else 0)
  = tot k x + (if k.2 then n k [task] else 0).
Proof.
  intros Hc. unfold tot. destruct k.2 eqn:Ek.
  - unfold care_total. simpl. pose proof (n_map_insert k (waitResultCoMap_ (base x)) (u64 (co task)) task). lia.
  - unfold done_total. simpl. rewrite omap_app. simpl. rewrite n_app, n_cons, bool_decide_false by (by apply key_care).
    rewrite n_nil. simpl. lia.
Qed.
(** Without contention, a call that precedes all others of its coroutine. *)
Lemma sent_waiting_ordered s s' c x task : ordered s c x → st_ (base x) = CONNECTED → task_ok task →
  Forall (before task) (waitSendTaskCoList_ (base x) ++ line s') → line s' `sublist_of` line s → ordered s' c (sent_waiting task x).
Proof.
  intros [Hm Hl Hc] Hst Ht Hf Hs. assert (waitSendTaskCoList_ (base x) ++ line s' `sublist_of` waitSendTaskCoList_ (base x) ++ line s)
    as Hsl by (by apply sublist_app). constructor; simpl; [|by eapply ForallOrdPairs_sublist|congruence].
  intros a t1 t2 [[<- <-]|[_ H1]]%lookup_insert_Some H2.
  - rewrite Forall_forall in Hf. by apply Hf.
  - eapply Hm; [exact H1|]. by eapply elem_of_submseteq, sublist_submseteq.
Qed.
(** ... replaces only calls that can time out. *)
Lemma sent_waiting_replaced p q nch s c x task : conn_ok p q nch c x → ordered s c x → task_ok task → care task →
  task ∈ waitSendTaskCoList_ (base x) ++ line s →
  Forall (λ t, expireTime t ≠ 0) (option_list (waitResultCoMap_ (base x) !! u64 (co task))).
Proof.
  intros Hok Ho Ht Hc Hin. destruct (waitResultCoMap_ (base x) !! u64 (co task)) as [old|] eqn:E; simpl; [|constructor].
  constructor; [|constructor]. intros Hz. destruct (ok_map _ (ok_tasks _ _ _ _ _ Hok) _ _ E) as (_ & Hco & Hk).
  rewrite u64_small in Hk by apply Ht. eapply (ord_map _ _ _ Ho); done.
Qed.

Lemma refs_expired s task : refs_ok s → refs_ok (log_expired s task).
Proof. by intros []. Qed.
Lemma refs_replaced s o : refs_ok s → refs_ok (log_replaced s o).
Proof. by intros []. Qed.

Lemma flush_one_inv s : inv s → ∃ s', flush_one s = Ok s' ∧ inv s'.
Proof.
  intros Hi. unfold flush_one. destruct (cpc s) as [|c|c|c now] eqn:Hpc; try by eexists.
  pose proof (inv_refs _ Hi) as Hr. destruct (lookup_lt_is_Some_2 (conns s) c) as [x Hx]; [by apply (ok_cpc _ Hr); rewrite Hpc|].
  pose proof (inv_conns _ Hi _ x Hx) as Hok. rewrite Hpc in Hok. rewrite Hx. simpl.
  assert (st_ (base x) = CONNECTED) as Hst by (apply (ok_flushing _ _ _ _ _ Hok); simpl; by rewrite bool_decide_true).
  assert (added x = true) as Ha by (pose proof (ok_status _ _ _ _ _ Hok) as Hs; unfold status_ok in Hs; rewrite Hst in Hs; by destruct Hs).
  assert (uncontended s → tpc s = TaskIdle) as Hti.
  { intros Hu. destruct (unc_pc _ Hu) as [?|[_ Hq]]; [done|]. simpl in Hq. by rewrite Hpc in Hq. }
  destruct (waitSendTaskCoList_ (base x)) as [|task l] eqn:Ew.
  { eexists. split; [done|]. eapply (client_inv_update s _ c x x); try done; simpl; [by rewrite list_insert_id|..].
    - by apply refs_cpc.
    - intros c' Hne. apply (tokens_other s _ c); try done; simpl; [rewrite Hpc; naive_solver|by left].
    - conn_fields Hok. unfold status_ok in *. rewrite Hst in *. split; [done|by left].
    - apply Hi.
    - intros Hun Hu. eapply (unc_update s _ c x); try done; simpl; [by rewrite list_insert_id|by rewrite Hpc| |by right| |apply Hu].
      + pose proof (unc_conns _ Hu c x Hx) as Ho. eapply ordered_shrink; [exact Ho|done..|congruence].
      + rewrite (Hti Hu). done. }
  set (x1 := set_base (set_waitSend l (base x)) x).
  assert (Forall task_ok (task :: l)) as [Htask Hl]%Forall_cons by (pose proof (ok_send _ (ok_tasks _ _ _ _ _ Hok)) as Hs; by rewrite Ew in Hs).
  assert (conn_ok (cpc s) (connectionTaskQueue_ s) (length (channels s)) c x1) as Hok1.
  { rewrite Hpc. conn_fields Hok. unfold status_ok in *. simpl in *. rewrite Hst in *. split; [done|]. right. by rewrite bool_decide_true. }
  assert (∀ k, tot k x = tot k x1 + n k [task]) as Htot.
  { intros k. unfold tot, care_total, done_total. simpl. rewrite Ew, n_cons, n_cons, n_nil. destruct k.2; lia. }
  assert (refs_ok (set_conn s c x1)) as Hr1 by (eapply refs_conn; [done|done|simpl; congruence|done]).
  assert (uncontended s → ordered s c x1 ∧ Forall (before task) (l ++ line s)) as Ho1.
  { intros Hu. pose proof (unc_conns _ Hu c x Hx) as Ho. split.
    - eapply ordered_shrink; [exact Ho|done|simpl; rewrite Ew; by apply sublist_cons|done|simpl; congruence].
    - pose proof (ord_line _ _ _ Ho) as Hf. rewrite Ew in Hf. by inversion Hf. }
  destruct (response task) as [resp|] eqn:Er.
  - assert (care task) as Hcare by (by eexists). destruct (in_time now task) eqn:Et.
    + unfold send_waiting. simpl. rewrite list_lookup_insert_eq by (by eapply lookup_lt_Some). simpl. eexists. split; [done|].
      eapply (client_inv_update s _ c x (sent_waiting task x1)); try done; simpl.
      * by rewrite list_insert_insert_eq.
      * apply refs_replaced. eapply refs_conn; [exact Hr1|simpl; by rewrite list_lookup_insert_eq by (by eapply lookup_lt_Some)|done|done].
      * rewrite Hpc. apply sent_waiting_ok; try done. by rewrite Hpc in Hok1.
      * intros k. pose proof (sent_waiting_tot k x1 task Hcare) as Hs. pose proof (n_care k task Hcare). rewrite Htot. unfold rest, in_hand. simpl. destruct k.2; rewrite ?n_app; simpl in *; lia.
      * apply Hi.
      * intros Hun Hu. destruct (Ho1 Hu) as [Ho Hf]. eapply (unc_update s _ c (sent_waiting task x1)); try done; simpl.
        -- by rewrite list_insert_insert_eq.
        -- eapply (sent_waiting_ordered s _ c x1); done.
        -- left. by apply Hti.
        -- rewrite (Hti Hu). done.
        -- apply Forall_app. split; [apply Hu|]. apply (sent_waiting_replaced _ _ _ s c x task Hok (unc_conns _ Hu c x Hx)); try done.
           rewrite Ew. apply elem_of_cons. by left.
    + eexists. split; [done|]. eapply (client_inv_update s _ c x x1); try done; simpl.
      * by apply refs_expired.
      * intros k. pose proof (n_care k task Hcare). rewrite Htot. unfold rest, in_hand. simpl. destruct k.2; rewrite ?n_app; lia.
      * apply Forall_app. split; [apply Hi|]. constructor; [|constructor]. unfold in_time in Et. apply bool_decide_eq_false in Et. tauto.
      * intros Hun Hu. destruct (Ho1 Hu) as [Ho Hf]. eapply (unc_update s _ c); try done; simpl;
          [|left; by apply Hti| |apply Hu]; [|by rewrite (Hti Hu)].
        destruct Ho as [H1 H2 H3]. by constructor.
  - assert (¬ care task) as Hcare by (by apply no_response).
    unfold send_data. simpl. rewrite list_lookup_insert_eq by (by eapply lookup_lt_Some). simpl. eexists. split; [done|].
    eapply (client_inv_update s _ c x (enqueue (Sender.DATA task) x1)); try done; simpl.
    + by rewrite list_insert_insert_eq.
    + eapply refs_conn; [exact Hr1|simpl; by rewrite list_lookup_insert_eq by (by eapply lookup_lt_Some)|done|done].
    + clear Htot. conn_fields Hok1; simpl; [|by rewrite Ha]. rewrite omap_app. apply Forall_app. split; [done|by constructor].
    + intros k. pose proof (n_no_care k task Hcare). rewrite Htot.
      unfold rest, in_hand, tot, care_total, done_total. simpl. rewrite omap_app, n_app. cbn [omap list_omap data_of]. destruct k.2; lia.
    + apply Hi.
    + intros Hun Hu. destruct (Ho1 Hu) as [Ho Hf]. eapply (unc_update s _ c); try done; simpl;
        [by rewrite list_insert_insert_eq| |left; by apply Hti| |apply Hu]; [|by rewrite (Hti Hu)].
      destruct Ho as [H1 H2 H3]. by constructor.
Qed.

(** *** Channels and [taskHandleRoutine] *)
Lemma inv_same s s' : inv s → conns s' = conns s → connectionTaskQueue_ s' = connectionTaskQueue_ s → cpc s' = cpc s →
  refs_ok s' → (length (channels s) ≤ length (channels s'))%nat →
  (∀ k, n k (issued s') - rest k s' = n k (issued s) - rest k s) →
  Forall (λ t, expireTime t ≠ 0) (expired s') →
  (contended = false → uncontended s → uncontended s') → inv s'.
Proof.
  intros [Hr Hc Hn He Hu] Hcs Hq Hp Hr' Hl Hk He' Hu'. constructor; try done.
  - intros c x. rewrite Hcs. intros Hx. eapply conn_ok_tokens; [by apply same_tokens_refl|done|]. by apply Hc.
  - apply conserved_iff. intros k. rewrite conserved_iff in Hn. specialize (Hn k). specialize (Hk k). rewrite Hcs. lia.
  - auto.
Qed.
Lemma unc_same s s' : uncontended s → conns s' = conns s → cpc s' = cpc s → tpc s' = tpc s → line s' `sublist_of` line s →
  replaced s' = replaced s → uncontended s'.
Proof.
  intros [Hp Hl Hc Hlk Hr] Hcs Hpc Htp Hs Hrp. constructor.
  - unfold quiet in *. simpl in *. by rewrite Hpc, Htp.
  - by eapply ForallOrdPairs_sublist.
  - intros c x. rewrite Hcs. intros Hx. pose proof (Hc c x Hx) as Ho. eapply ordered_shrink; [exact Ho|done..|].
    rewrite Hpc. apply Ho.
  - by rewrite Htp, Hcs.
  - by rewrite Hrp.
Qed.

Lemma tokens_fresh q c : Forall (λ j, (conn_of j < c)%nat) q → connects q c = 0 ∧ closes q c = 0.
Proof.
  intros Hq. split; apply count_none; (eapply Forall_impl; [exact Hq|]); intros [c'|c'] Hc; simpl in Hc; apply bool_decide_false; intros [=]; lia.
Qed.

(** A new connection, which is to be connected, in the slot [i] of a channel. *)
Definition fresh_conn (h : nat) : conn M := set_base (set_st CONNECTING (base (newConnection h))) (newConnection h).
Definition alloc s (h : nat) (ch : ChannelCore) (i : nat) : client M :=
  let c := length (conns s) in
  set_ctq (set_channel (new_conn s (fresh_conn h)) h
    (Channel (<[i := Some c]> (connections_ ch)) (Z.of_nat i) (connectDelay_ ch))) (connectionTaskQueue_ s ++ [CONNECT c]).

Lemma alloc_inv s h ch i : inv s → channels s !! h = Some ch → inv (alloc s h ch i).
Proof.
  intros Hi Hh. pose proof (inv_refs _ Hi) as Hr. pose proof Hr as [H1 H2 H3 H4 H5 H6]. set (c := length (conns s)).
  assert (∀ c' : nat, (c' < length (conns s) → c' < length (conns s ++ [fresh_conn h]))%nat) as Hlt by (intros; rewrite length_app; simpl; lia).
  assert (Forall (λ j, (conn_of j < length (conns s ++ [fresh_conn h]))%nat) (connectionTaskQueue_ s ++ [CONNECT c])) as Hq'.
  { apply Forall_app. split; [by eapply Forall_impl; [exact H4|]; intros; apply Hlt|]. constructor; [|constructor]. simpl. rewrite length_app. simpl. lia. }
  assert (∀ c' x, conns s !! c' = Some x → c' ≠ c) as Hne by (intros c' x ?%lookup_lt_Some; lia).
  constructor; simpl; try apply Hi.
  - constructor; simpl; rewrite ?length_insert; auto.
    + intros h' ch'. destruct (decide (h = h')) as [<-|Hh'].
      * rewrite list_lookup_insert_eq by (by eapply lookup_lt_Some). intros [= <-]. simpl. split; [lia|].
        apply Forall_insert; [|intros ? [= <-]; rewrite length_app; simpl; lia].
        eapply Forall_impl; [by eapply H1|]. simpl. auto.
      * rewrite list_lookup_insert_ne by done. intros Hch. destruct (H1 _ _ Hch). split; [done|]. eapply Forall_impl; [done|]. simpl. auto.
    + intros c' task Ht. destruct (H6 c' task Ht) as (? & ? & x & Hx & ? & ?). split_and!; try done. exists x. split; [|done].
      by apply lookup_app_l_Some.
  - intros c' x. rewrite length_insert. intros [Hx|[Hge Hx]]%lookup_app_Some.
    + pose proof (conn_ok_tokens s (alloc s h ch i) c' x) as Htk. simpl in Htk. rewrite length_insert in Htk.
      apply Htk; [|done|by apply Hi]. unfold same_tokens. simpl. unfold connects, closes.
      rewrite !count_app. simpl. rewrite (bool_decide_false (CONNECT c = CONNECT c')) by (specialize (Hne c' x Hx); congruence).
      simpl. split_and!; try done; lia.
    + destruct (c' - length (conns s))%nat as [|d] eqn:Ed; [|by destruct d]. injection Hx as <-. assert (c' = c) as -> by (unfold c; lia).
      destruct (tokens_fresh (connectionTaskQueue_ s) c H4) as [Hcn Hcl].
      destruct (pc_other (cpc s) c) as (Hd & Hcg & Hf); [intros c' Hc'%H5; unfold c; lia|].
      constructor; simpl; rewrite ?Hd, ?Hcg, ?Hf; try done.
      * by eapply lookup_lt_Some.
      * unfold connects in *. rewrite count_app, Hcn. simpl. by rewrite bool_decide_true.
      * unfold closes in *. rewrite count_app, Hcl. done.
  - apply conserved_iff. intros k. pose proof (inv_conserved _ Hi) as Hn. rewrite conserved_iff in Hn. specialize (Hn k).
    simpl. rewrite total_app. simpl. rewrite Hn. unfold rest, in_hand, tot, care_total, done_total. simpl. unfold in_map.
    rewrite map_to_list_empty. simpl. rewrite !n_nil. destruct k.2; lia.
  - intros Hun. pose proof (inv_uncontended _ Hi Hun) as Hu. constructor; simpl; try apply Hu.
    + intros c' x [Hx|[Hge Hx]]%lookup_app_Some.
      * destruct (unc_conns _ Hu c' x Hx). by constructor.
      * destruct (c' - length (conns s))%nat as [|d] eqn:Ed; [|by destruct d]. injection Hx as <-. constructor; simpl; [|apply Hu|done].
        intros a t1 t2. by rewrite lookup_empty.
    + intros c' task x Ht [Hx|[Hge Hx]]%lookup_app_Some; [by eapply unc_locked|].
      destruct (H6 _ _ Ht) as (_ & _ & y & Hy%lookup_lt_Some & _). lia.
Qed.

Record same_calls s s' : Prop := {
  same_tq : taskQueue_ s' = taskQueue_ s;
  same_tpc : tpc s' = tpc s;
  same_cpc : cpc s' = cpc s;
}.
Lemma getNextConnection_inv s h ch : inv s → channels s !! h = Some ch →
  ∃ s1 o, getNextConnection s h = Ok (s1, o) ∧ inv s1 ∧ same_calls s s1 ∧
    match o with
    | None => connections_ ch = []
    | Some c => ∃ x, conns s1 !! c = Some x ∧ st_ (base x) ≠ CLOSED
    end.
Proof.
  intros Hi Hh. unfold getNextConnection. rewrite Hh. simpl. case_bool_decide as Hnil; [by exists s, None|].
  pose proof (inv_refs _ Hi) as Hr.
  set (i := u32 (conIndex_ ch + 1) `mod` zlen (connections_ ch)).
  assert (0 < zlen (connections_ ch)) as Hlen by (destruct (connections_ ch); [done|rewrite zlen_cons; pose proof (zlen_nonneg l); lia]).
  assert (0 ≤ i < zlen (connections_ ch)) as Hir by (apply Z.mod_pos_bound; lia).
  set (ch1 := Channel (connections_ ch) i (connectDelay_ ch)). unfold fill_slot. simpl.
  destruct (lookup_lt_is_Some_2 (connections_ ch) (Z.to_nat i)) as [slot Hslot]; [unfold zlen in *; lia|]. rewrite Hslot. simpl.
  assert (∃ s1, (let c := length (conns s) in let s0 := set_channel (new_conn (set_channel s h ch1) (newConnection h)) h
       (Channel (<[Z.to_nat i := Some c]> (connections_ ch)) i (connectDelay_ ch)) in
       x ← deref (conns s0 !! c);
       if bool_decide (st_ (base x) = CLOSED) then
         Ok (set_ctq (set_conn s0 c (set_base (set_st CONNECTING (base x)) x)) (connectionTaskQueue_ s0 ++ [CONNECT c]), Some c)
       else Ok (s0, Some c)) = Ok (s1, Some (length (conns s))) ∧ inv s1 ∧ same_calls s s1 ∧
       ∃ x, conns s1 !! length (conns s) = Some x ∧ st_ (base x) ≠ CLOSED) as Hfresh.
  { simpl. rewrite lookup_app_r by lia. rewrite Nat.sub_diag. simpl. exists (alloc s h ch (Z.to_nat i)). split_and!.
    - do 2 f_equal. unfold alloc, set_ctq, set_conn, set_channel, new_conn. simpl. rewrite list_insert_insert_eq, Z2Nat.id by lia.
      rewrite <-(Nat.add_0_r (length (conns s))) at 2. by rewrite insert_app_r.
    - by apply alloc_inv.
    - done.
    - exists (fresh_conn h). simpl. rewrite lookup_app_r, Nat.sub_diag by lia. done. }
  destruct Hfresh as (s1 & Hf & Hi1 & Hsc & Hx1).
  destruct slot as [c|]; [|simpl in *; rewrite Hf; eauto 10].
  assert (c < length (conns s))%nat as [x Hx]%lookup_lt_is_Some.
  { destruct (ok_slots _ Hr _ _ Hh) as [_ Hs]. rewrite Forall_forall in Hs. eapply Hs; [by eapply list_elem_of_lookup_2|done]. }
  rewrite Hx. simpl. destruct (decide (st_ (base x) = CLOSED)) as [E|E].
  - rewrite bool_decide_true by done. simpl in *. rewrite Hf. eauto 10.
  - rewrite bool_decide_false by done. simpl. rewrite Hx. simpl. rewrite bool_decide_false by done.
    exists (set_channel s h ch1), (Some c). split_and!; [done| |done|by exists x].
    apply (inv_same s); try done; simpl; [apply refs_channel; [done|done|lia]|by rewrite length_insert|apply Hi|].
    intros _ Hu. by eapply (unc_same s).
Qed.

Lemma getNextConnection_queue s q h : getNextConnection (set_taskQueue s q) h
  = match getNextConnection s h with Ok (s1, o) => Ok (set_taskQueue s1 q, o) | Fault f => Fault f end.
Proof.
  unfold getNextConnection, fill_slot. simpl. destruct (channels s !! h) as [ch|]; [|done]. simpl.
  destruct (bool_decide (connections_ ch = [])); [done|].
  destruct (connections_ ch !! _) as [[c|]|]; [..|done]; simpl.
  - destruct (conns s !! c) as [x|] eqn:Hx; [|done]. simpl. destruct (bool_decide (st_ (base x) = CLOSED)) eqn:E; simpl.
    + destruct ((conns s ++ _) !! _) as [y|]; [|done]. simpl. destruct (bool_decide (st_ (base y) = CLOSED)); reflexivity.
    + rewrite Hx. simpl. by rewrite E.
  - destruct ((conns s ++ _) !! _) as [y|]; [|done]. simpl. destruct (bool_decide (st_ (base y) = CLOSED)); reflexivity.
Qed.

Lemma refs_queue s q : refs_ok s → q `sublist_of` taskQueue_ s → refs_ok (set_taskQueue s q).
Proof.
  intros [H1 H2 H3 H4 H5 H6] Hq. constructor; try done. simpl. rewrite Forall_forall in H2 |- *.
  intros t Ht. apply H2. by eapply elem_of_submseteq, sublist_submseteq.
Qed.
Lemma refs_locking s c task x : refs_ok s → task_ok task → care task → conns s !! c = Some x → st_ (base x) ≠ CONNECTING →
  added x = true → refs_ok (set_tpc s (Locking c task)).
Proof. intros [H1 H2 H3 H4 H5 H6] Ht Hc Hx Hst Ha. constructor; try done. simpl. intros c' task' [= <- <-]. split_and!; [done..|]. by exists x. Qed.
Lemma refs_idle s : refs_ok s → refs_ok (set_tpc s TaskIdle).
Proof. intros [H1 H2 H3 H4 H5 H6]. by constructor. Qed.

(** The front of the queue, when the routine has nothing in its hands. *)
Lemma line_front s ct q : tpc s = TaskIdle → taskQueue_ s = ct :: q → line s = rpcTask ct :: (rpcTask <$> q).
Proof. unfold line, in_hand. intros -> ->. done. Qed.

(** The routine gives the front call to a connection. *)
Lemma give_task_inv s ct q c x now : inv s → may_run contended s → tpc s = TaskIdle → taskQueue_ s = ct :: q →
  conns s !! c = Some x → st_ (base x) ≠ CLOSED → task_ok (rpcTask ct) →
  let task := rpcTask ct in
  let s0 := set_taskQueue s q in
  ∃ s', (if bool_decide (st_ (base x) = CONNECTING) then
           Ok (set_conn s0 c (set_base (set_waitSend (waitSendTaskCoList_ (base x) ++ [task]) (base x)) x))
         else
         match response task with
         | Some _ => if in_time now task then Ok (set_tpc s0 (Locking c task)) else Ok (log_expired s0 task)
         | None => send_data s0 c task
         end) = Ok s' ∧ inv s'.
Proof.
  intros Hi Hrun Htp Hq Hx Hncl Ht task s0. pose proof (inv_refs _ Hi) as Hr. pose proof (inv_conns _ Hi c x Hx) as Hok.
  assert (refs_ok s0) as Hr0 by (apply refs_queue; [done|rewrite Hq; by apply sublist_cons]).
  assert (line s0 `sublist_of` line s) as Hsub
    by (rewrite (line_front s ct q) by done; unfold line, in_hand; simpl; rewrite Htp; by apply sublist_cons).
  assert (∀ k, rest k s = rest k s0 + n k [task]) as Hrest.
  { intros k. unfold rest, in_hand. simpl. rewrite Hq, fmap_cons, !n_cons, n_nil. unfold task. lia. }
  assert (contended = false → quiet s) as Hqt by (destruct Hrun; [congruence|done]).
  case_bool_decide as Hst.
  - eexists. split; [done|]. eapply (client_inv_update s _ c x); try done; simpl.
    + eapply (refs_conn s0); [done|exact Hx|done|done].
    + conn_fields Hok; simpl; [apply Forall_app; split; [done|by constructor]|]. unfold status_ok in *. simpl. by rewrite Hst in *.
    + intros k. rewrite Hrest. unfold tot, care_total, done_total. simpl. rewrite n_app. destruct k.2; unfold rest, in_hand; simpl; lia.
    + apply Hi.
    + intros Hun Hu. eapply (unc_update s _ c); try done; simpl; [|by left|by rewrite Htp|apply Hu].
      pose proof (unc_conns _ Hu c x Hx) as [O1 O2 O3]. unfold line, in_hand in *. simpl in *. rewrite Htp, Hq in *. simpl in *.
      constructor; simpl; unfold line, in_hand; simpl; rewrite ?Htp, <-?app_assoc; simpl; [done|done|congruence].
  - assert (st_ (base x) = CONNECTED ∧ added x = true) as [Hcd Ha].
    { destruct (st_ (base x)) eqn:E; [done|done|]. split; [done|].
      pose proof (ok_status _ _ _ _ _ Hok) as Hs. unfold status_ok in Hs. rewrite E in Hs. apply Hs. }
    destruct (response task) as [resp|] eqn:Er; [destruct (in_time now task) eqn:Et|].
    + assert (care task) as Hcare by (by eexists). eexists. split; [done|]. apply (inv_same s); try done; simpl.
      * eapply refs_locking; try done; try exact Hx.
      * intros k. rewrite Hrest. pose proof (n_care k task Hcare). unfold rest, in_hand. simpl. rewrite Htp, n_nil. destruct k.2; lia.
      * apply Hi.
      * intros Hun Hu. pose proof (line_front s ct q Htp Hq) as Hline. destruct Hu as [U1 U2 U3 U4 U5].
        constructor; simpl; try done.
        -- right. split; [done|]. by apply Hqt.
        -- unfold line, in_hand. simpl. by rewrite Hline in U2.
        -- intros c' y Hy. destruct (U3 c' y Hy) as [O1 O2 O3]. constructor; try done; unfold line, in_hand; simpl; by rewrite Hline in *.
        -- intros c' t' y [= <- _] Hy. by simplify_eq.
    + assert (care task) as Hcare by (by eexists). eexists. split; [done|]. apply (inv_same s); try done; simpl.
      * by apply refs_expired.
      * intros k. rewrite Hrest. pose proof (n_care k task Hcare). unfold rest, in_hand. simpl. rewrite n_app. destruct k.2; lia.
      * apply Forall_app. split; [apply Hi|]. constructor; [|constructor]. unfold in_time in Et. apply bool_decide_eq_false in Et. tauto.
      * intros Hun Hu. by eapply (unc_same s).
    + assert (¬ care task) as Hcare by (by apply no_response). unfold send_data. simpl. rewrite Hx. simpl. eexists. split; [done|].
      eapply (client_inv_update s _ c x); try done; simpl.
      * eapply (refs_conn s0); [done|exact Hx|done|done].
      * conn_fields Hok; simpl; [|by rewrite Ha]. rewrite omap_app. apply Forall_app. split; [done|by constructor].
      * intros k. pose proof (n_no_care k task Hcare). rewrite Hrest. unfold tot, care_total, done_total. simpl.
        rewrite omap_app, n_app. cbn [omap list_omap data_of]. unfold rest, in_hand. simpl. destruct k.2; lia.
      * apply Hi.
      * intros Hun Hu. eapply (unc_update s _ c); try done; simpl; [|by left|by rewrite Htp|apply Hu].
        pose proof (unc_conns _ Hu c x Hx) as Ho. eapply ordered_shrink; [exact Ho|done..|]. simpl. congruence.
Qed.

Lemma take_task_inv s now : inv s → may_run contended s → tpc s = TaskIdle →
  (ndebug = true ∨ ∀ ct q ch, taskQueue_ s = ct :: q → channels s !! ct_channel ct = Some ch → connections_ ch ≠ []) →
  ∃ s', take_task strerror ndebug s now = Ok s' ∧ inv s'.
Proof.
  intros Hi Hrun Htp Hnd. unfold take_task. destruct (taskQueue_ s) as [|ct q] eqn:Hq; [by eexists|].
  pose proof (ok_queue _ (inv_refs _ Hi)) as Hf. rewrite Hq in Hf. apply Forall_cons in Hf as [[[ch Hch]%lookup_lt_is_Some Ht] _].
  rewrite getNextConnection_queue. destruct (getNextConnection_inv s _ ch Hi Hch) as (s1 & o & -> & Hi1 & [F1 F2 F3] & Ho). simpl.
  assert (may_run contended s1) as Hrun1 by (unfold may_run, quiet in *; by rewrite F2, F3).
  destruct o as [c|].
  - destruct Ho as (x & Hx & Hst). rewrite Hx. simpl. rewrite require_true by done. simpl.
    apply give_task_inv; try done; congruence.
  - destruct Hnd as [->|Hnd]; [|by destruct (Hnd ct q ch)]. simpl.
    assert (refs_ok (set_taskQueue s1 q)) as Hr0 by (apply refs_queue; [apply Hi1|rewrite F1, Hq; by apply sublist_cons]).
    assert (line (set_taskQueue s1 q) `sublist_of` line s1) as Hsub
      by (rewrite (line_front s1 ct q) by congruence; unfold line, in_hand; simpl; rewrite F2, Htp; by apply sublist_cons).
    destruct (response (rpcTask ct)) as [resp|] eqn:Er.
    + assert (care (rpcTask ct)) as Hcare by (by eexists). destruct (fail_call_ok ENETDOWN (rpcTask ct) Ht Hcare) as (r & -> & Hk). simpl.
      eexists. split; [done|]. apply (inv_same s1); try done; simpl.
      * by destruct Hr0.
      * intros k. pose proof (n_care k (rpcTask ct) Hcare) as Hc. unfold rest, in_hand. simpl. rewrite F1, Hq, fmap_cons, fmap_app, n_app, !n_cons, n_nil in *. simpl.
        rewrite n_cons, n_nil, Hk. destruct k.2; lia.
      * apply Hi1.
      * intros _ Hu. by eapply (unc_same s1).
    + assert (¬ care (rpcTask ct)) as Hcare by (by apply no_response). destruct (ok_done _ Ht Hcare) as [-> _]. rewrite require_true by done. simpl.
      eexists. split; [done|]. apply (inv_same s1); try done; simpl.
      * by destruct Hr0.
      * intros k. pose proof (n_no_care k (rpcTask ct) Hcare) as Hc. unfold rest, in_hand. simpl. rewrite F1, Hq, fmap_cons, n_app, !n_cons, n_nil, key_fail_controller in *.
        destruct k.2; lia.
      * apply Hi1.
      * intros _ Hu. by eapply (unc_same s1).
Qed.

Lemma insert_task_inv s : inv s → ∃ s', insert_task s = Ok s' ∧ inv s'.
Proof.
  intros Hi. unfold insert_task. destruct (tpc s) as [|c task] eqn:Htp; [by eexists|]. pose proof (inv_refs _ Hi) as Hr.
  destruct (ok_tpc _ Hr c task Htp) as (Ht & Hcare & x & Hx & Hst & Ha). pose proof (inv_conns _ Hi c x Hx) as Hok.
  unfold send_waiting. simpl. rewrite Hx. simpl. eexists. split; [done|].
  assert (line s = task :: (rpcTask <$> taskQueue_ s)) as Hline by (unfold line, in_hand; by rewrite Htp).
  eapply (client_inv_update s _ c x (sent_waiting task x)); try done; simpl.
  - apply refs_replaced. eapply (refs_conn (set_tpc s TaskIdle)); [by apply refs_idle|exact Hx|done|done].
  - by apply sent_waiting_ok.
  - intros k. pose proof (sent_waiting_tot k x task Hcare) as Hs. pose proof (n_care k task Hcare). unfold rest, in_hand. simpl.
    rewrite Htp, n_app. destruct k.2; rewrite ?n_nil; lia.
  - apply Hi.
  - intros Hun Hu. pose proof (unc_locked _ Hu _ _ _ Htp Hx) as Hcd. pose proof (unc_conns _ Hu c x Hx) as Ho.
    assert (waitSendTaskCoList_ (base x) = []) as Hw.
    { pose proof (ok_status _ _ _ _ _ Hok) as Hs. unfold status_ok in Hs. rewrite Hcd in Hs. destruct Hs as [_ [?|Hfl]]; [done|].
      destruct (unc_pc _ Hu) as [?|[_ Hqt]]; [congruence|]. simpl in Hqt. by destruct (cpc s). }
    eapply (unc_update s _ c (sent_waiting task x)); try done; simpl.
    + rewrite Hline. by apply sublist_cons.
    + eapply (sent_waiting_ordered s _ c x); try done.
      * rewrite Hw. unfold line, in_hand. simpl. pose proof (unc_line _ Hu) as Hf. rewrite Hline in Hf. by inversion Hf.
      * rewrite Hline. by apply sublist_cons.
    + by left.
    + apply Forall_app. split; [apply Hu|]. apply (sent_waiting_replaced _ _ _ s c x task Hok Ho); try done.
      rewrite Hw, Hline. apply elem_of_cons. by left.
Qed.

(** *** [clearChannelRoutine], channels and calls *)

(** [close] finds a thread of the sender. *)
Definition closable s (c : nat) : Prop :=
  ∀ x, conns s !! c = Some x → sendThreadNum ≤ 0 ∨ added x = true ∨ isOpen x = false.

Lemma close_inv s c s' : inv s → close sendThreadNum s c = Ok s' →
  inv s' ∧ channels s' = channels s ∧ length (conns s') = length (conns s) ∧ (∀ c', closable s c' → closable s' c').
Proof.
  intros Hi. unfold close. destruct (conns s !! c) as [x|] eqn:Hx; [|done]. simpl. destruct (isOpen x) eqn:Ho; [|by intros [= <-]].
  destruct (_ && _) eqn:E; [done|]. intros [= <-].
  assert (receiver_remove s c = Ok (set_conn s c (enqueue Sender.CLOSE x))) as Hrm by (unfold receiver_remove; by rewrite Hx).
  destruct (receiver_remove_inv s c Hi) as (s2 & Hs2 & Hi2); [by eapply lookup_lt_Some|].
  assert (s2 = set_conn s c (enqueue Sender.CLOSE x)) as -> by congruence. simpl. rewrite length_insert. split_and!; try done.
  intros c' Hcl y. simpl. destruct (decide (c = c')) as [<-|Hne].
  - rewrite list_lookup_insert_eq by (by eapply lookup_lt_Some). intros [= <-]. exact (Hcl x Hx).
  - rewrite list_lookup_insert_ne by done. apply Hcl.
Qed.
Lemma close_ok s c : (c < length (conns s))%nat → closable s c → ∃ s', close sendThreadNum s c = Ok s'.
Proof.
  intros [x Hx]%lookup_lt_is_Some Hcl. unfold close. rewrite Hx. simpl. destruct (isOpen x) eqn:Ho; [|by eexists].
  destruct (Hcl x Hx) as [Hn|[->|?]]; [|rewrite andb_false_r; by eexists|congruence].
  rewrite bool_decide_false by lia. by eexists.
Qed.
Lemma close_all_inv s l s' : inv s → close_all sendThreadNum s l = Ok s' → inv s' ∧ channels s' = channels s.
Proof.
  revert s. induction l as [|[c|] l IH]; intros s Hi; simpl.
  - by intros [= <-].
  - intros (s1 & Hs1 & Hs')%bind_Ok_inv. destruct (close_inv s c s1 Hi Hs1) as (Hi1 & <- & _). by apply IH.
  - by apply IH.
Qed.
Lemma close_all_ok s l : inv s → Forall (λ o, ∀ c, o = Some c → (c < length (conns s))%nat ∧ closable s c) l →
  ∃ s', close_all sendThreadNum s l = Ok s'.
Proof.
  revert s. induction l as [|o l IH]; intros s Hi Hl; simpl; [by eexists|].
  apply Forall_cons in Hl as [Ho Hl]. destruct o as [c|]; [|by apply IH]. destruct (Ho c eq_refl) as [Hc Hcl].
  destruct (close_ok s c Hc Hcl) as (s1 & Hs1). rewrite Hs1. simpl. destruct (close_inv s c s1 Hi Hs1) as (Hi1 & _ & Hlen & Hk).
  apply IH; [done|]. eapply Forall_impl; [exact Hl|]. intros o Hoc c' Hc'. destruct (Hoc c' Hc') as [? ?]. rewrite Hlen. auto.
Qed.

Lemma set_clear_inv s q : inv s → Forall (λ h, (h < length (channels s))%nat) q → inv (set_clear s q).
Proof.
  intros Hi Hq. apply (inv_same s); try done; [|apply Hi|intros _ Hu; by eapply (unc_same s)].
  destruct (inv_refs _ Hi) as [H1 H2 H3 H4 H5 H6]. by constructor.
Qed.
Lemma clear_channel_inv s s' : inv s → clear_channel sendThreadNum s = Ok s' → inv s'.
Proof.
  intros Hi. unfold clear_channel. destruct (clearChannelQueue_ s) as [|h q] eqn:Eq; [by intros [= <-]|].
  intros (ch & Hch & (s1 & Hs1 & (ch1 & Hch1 & [= <-])%bind_Ok_inv)%bind_Ok_inv)%bind_Ok_inv.
  pose proof (ok_clear _ (inv_refs _ Hi)) as Hc. rewrite Eq in Hc. apply Forall_cons in Hc as [Hh Hq].
  destruct (close_all_inv _ _ _ (set_clear_inv s q Hi Hq) Hs1) as [Hi1 Hchs]. simpl in Hchs.
  destruct (channels s1 !! h) as [ch2|] eqn:E; [|done]. injection Hch1 as <-.
  apply (inv_same s1); try done; simpl; [|by rewrite length_insert|apply Hi1|intros _ Hu; by eapply (unc_same s1)].
  destruct (inv_refs _ Hi1) as [H1 H2 H3 H4 H5 H6]. constructor; simpl; rewrite ?length_insert; try done.
  intros h' ch'. destruct (decide (h = h')) as [<-|Hne].
  - rewrite list_lookup_insert_eq by (by eapply lookup_lt_Some). intros [= <-]. simpl. split; [by eapply H1|constructor].
  - rewrite list_lookup_insert_ne by done. apply H1.
Qed.
Lemma clear_channel_ok s : inv s →
  (∀ h q ch c, clearChannelQueue_ s = h :: q → channels s !! h = Some ch → Some c ∈ connections_ ch → closable s c) →
  ∃ s', clear_channel sendThreadNum s = Ok s'.
Proof.
  intros Hi Hcl. unfold clear_channel. destruct (clearChannelQueue_ s) as [|h q] eqn:Eq; [by eexists|].
  pose proof (ok_clear _ (inv_refs _ Hi)) as Hc. rewrite Eq in Hc. apply Forall_cons in Hc as [Hh Hq].
  pose proof (set_clear_inv s q Hi Hq) as Hi0. apply lookup_lt_is_Some in Hh as [ch Hch]. rewrite Hch. simpl.
  destruct (close_all_ok (set_clear s q) (connections_ ch) Hi0) as (s1 & Hs1).
  { destruct (ok_slots _ (inv_refs _ Hi) h ch Hch) as [_ Hs]. rewrite Forall_forall in Hs |- *.
    intros o Ho c ->. split; [by apply (Hs (Some c))|by eapply (Hcl h q ch c)]. }
  rewrite Hs1. simpl. destruct (close_all_inv _ _ _ Hi0 Hs1) as [_ ->]. simpl. rewrite Hch. by eexists.
Qed.

Lemma create_channel_inv s num : inv s → inv (create_channel s num).
Proof.
  intros Hi. apply (inv_same s); try done; simpl; [|rewrite length_app; lia|apply Hi|intros _ Hu; by eapply (unc_same s)].
  destruct (inv_refs _ Hi) as [H1 H2 H3 H4 H5 H6]. constructor; simpl; try done.
  - intros h ch [Hch|[_ Hch]]%lookup_app_Some; [by eapply H1|].
    destruct (h - length (channels s))%nat as [|d]; [|by destruct d]. injection Hch as <-. simpl. split; [done|].
    apply Forall_replicate. by intros c [=].
  - eapply Forall_impl; [exact H2|]. intros ct [? ?]. rewrite length_app. split; [lia|done].
  - eapply Forall_impl; [exact H3|]. intros h ?. simpl in *. rewrite length_app. lia.
Qed.

(** A coroutine that does not wait has no call without time-out. *)
Lemma waiting_none s c t1 : waiting (c, 0, true) s = 0 →
  t1 ∈ line s ∨ (∃ i x, conns s !! i = Some x ∧ (t1 ∈ waitSendTaskCoList_ (base x) ∨ t1 ∈ in_map (waitResultCoMap_ (base x)))) →
  care t1 → expireTime t1 = 0 → co t1 ≠ c.
Proof.
  unfold waiting. intros Hw Hin Hc He <-. set (k := (co t1, 0, true)) in *.
  assert (key t1 = k) as Hk by (unfold key, k; rewrite He, bool_decide_true by done; done).
  set (f := λ x, n k (waitSendTaskCoList_ (base x)) + n k (in_map (waitResultCoMap_ (base x)))) in *.
  assert (∀ y, 0 ≤ f y) as Hf.
  { intros y. unfold f. pose proof (n_nonneg k (waitSendTaskCoList_ (base y))).
    pose proof (n_nonneg k (in_map (waitResultCoMap_ (base y)))). lia. }
  pose proof (n_nonneg k (rpcTask <$> taskQueue_ s)). pose proof (n_nonneg k (in_hand s)). pose proof (total_nonneg f (conns s) Hf).
  destruct Hin as [[Hin|Hin]%elem_of_app|(i & x & Hx & Hin)].
  - pose proof (n_in k _ _ Hin Hk). lia.
  - pose proof (n_in k _ _ Hin Hk). lia.
  - pose proof (total_ge f (conns s) i x Hf Hx) as Hge. unfold f at 1 in Hge.
    pose proof (n_nonneg k (waitSendTaskCoList_ (base x))). pose proof (n_nonneg k (in_map (waitResultCoMap_ (base x)))).
    destruct Hin as [Hin|Hin]; pose proof (n_in k _ _ Hin Hk); lia.
Qed.

Lemma push_call_inv s h task : inv s → (h < length (channels s))%nat → task_ok task → waiting (co task, 0, true) s = 0 →
  inv (set_taskQueue (log_issued s task) (taskQueue_ s ++ [{| ct_channel := h; rpcTask := task |}])).
Proof.
  intros Hi Hh Ht Hw. apply (inv_same s); try done; simpl.
  - destruct (inv_refs _ Hi) as [H1 H2 H3 H4 H5 H6]. constructor; simpl; try done. apply Forall_app. split; [done|]. constructor; [done|constructor].
  - intros k. unfold rest, in_hand. simpl. rewrite fmap_app, !n_app. simpl. lia.
  - apply Hi.
  - intros Hun Hu. destruct Hu as [U1 U2 U3 U4 U5].
    set (s' := set_taskQueue _ _). assert (line s' = line s ++ [task]) as Hline
      by (unfold line, in_hand, s'; simpl; rewrite fmap_app, app_assoc; done).
    constructor; try done.
    + rewrite Hline. apply ForallOrdPairs_snoc; [done|]. apply Forall_forall. intros t1 Hin Hc He _. eapply waiting_none; eauto.
    + intros c x Hx. destruct (U3 c x Hx) as [O1 O2 O3]. constructor; [..|done]; rewrite Hline, app_assoc.
      * intros a t1 t2 Ha [Hin|Hin]%elem_of_app; [by eapply O1|]. apply list_elem_of_singleton in Hin as ->. intros Hc He _.
        eapply waiting_none; [done|right; exists c, x; split; [done|right; by eapply in_map_elem]|done|done].
      * apply ForallOrdPairs_snoc; [done|]. apply Forall_forall. intros t1 [Hin|Hin]%elem_of_app Hc He _; eapply waiting_none; eauto 10.
Qed.

Lemma CallMethod_inv s h md sid tid self now ctrl req resp dn s' : inv s → call_ok s h md self now ctrl →
  CallMethod s h md sid tid self now ctrl req resp dn = Ok s' → inv s'.
Proof.
  intros Hi [H1 H2 H3 H4 H5]. unfold CallMethod. intros Hs. apply bind_Ok_inv in Hs as ([] & Hd%require_inv & Hs).
  destruct (not_care_response md) eqn:En; simpl in *.
  - inv_bind. injection Hs as <-. apply push_call_inv; try done. constructor; simpl; [done| |by intros []].
    intros _. destruct Hd; [done|]. split; [done|done].
  - destruct resp as [r|]; [|done]. case_bool_decide as Ht; injection Hs as <-.
    + refine (push_call_inv (log_timeout s _) _ _ _ _ _ _); try done; [|constructor; simpl; auto; intros []; by eexists].
      apply (inv_same s); try done; [by destruct (inv_refs _ Hi)|apply Hi|intros _ Hu; by eapply (unc_same s)].
    + apply push_call_inv; try done. constructor; simpl; auto. intros []; by eexists.
Qed.
(** *** Reachable states *)
Lemma take_task_found s now s' : take_task strerror ndebug s now = Ok s' →
  ndebug = true ∨ ∀ ct q ch, taskQueue_ s = ct :: q → channels s !! ct_channel ct = Some ch → connections_ ch ≠ [].
Proof.
  intros Ht. destruct (Bool.bool_dec ndebug true) as [?|Hnd%not_true_is_false]; [by left|]. right. intros ct q ch Hq Hch Hnil.
  unfold take_task, getNextConnection in Ht. rewrite Hq in Ht. simpl in Ht. rewrite Hch in Ht. simpl in Ht.
  rewrite bool_decide_true in Ht by done. simpl in Ht. by rewrite Hnd in Ht.
Qed.

Lemma ok_inv {A} (o : outcome A) (P : A → Prop) a : (∃ a', o = Ok a' ∧ P a') → o = Ok a → P a.
Proof. intros (a' & -> & Ha) [= <-]. done. Qed.

Lemma client_step_inv s s' : inv s → step e strerror sendThreadNum ndebug contended s s' → inv s'.
Proof.
  intros Hi Hst. destruct Hst as [num|h Hh|h md sid tid self now ctrl req resp dn s' Hc Hs|s' Hr Hp Hs|s' Hs|r now s' Hr Hs|s' Hs
    |now s' Hr Hp Hs|s' Hs|s' Hr Hs|c s' Hs|c x s' Hx He Hs|c x s' Hx Ha Hs|c x head body size s' Hx Ha Hcl Hs|c s' Hs|c x s' Hx He Hcl Hs].
  - by apply create_channel_inv.
  - apply set_clear_inv; [done|]. apply Forall_app. split; [apply (inv_refs _ Hi)|by repeat constructor].
  - by eapply CallMethod_inv.
  - eapply ok_inv; [by apply take_connection_task_inv|exact Hs].
  - eapply ok_inv; [by apply drain_inv|exact Hs].
  - eapply ok_inv; [by apply connected_inv|exact Hs].
  - eapply ok_inv; [by apply flush_one_inv|exact Hs].
  - eapply ok_inv; [|exact Hs]. apply take_task_inv; try done. by eapply take_task_found.
  - eapply ok_inv; [by apply insert_task_inv|exact Hs].
  - by eapply clear_channel_inv.
  - eapply ok_inv; [apply sender_handle_inv; [done|]|exact Hs]. unfold sender_handle in Hs.
    apply bind_Ok_inv in Hs as (x & Hx & _). destruct (conns s !! c) eqn:E; [by eapply lookup_lt_Some|done].
  - eapply ok_inv; [by eapply sender_encode_inv|exact Hs].
  - eapply ok_inv; [by eapply sender_end_inv|exact Hs].
  - by eapply receiver_decode_inv.
  - eapply ok_inv; [apply receiver_remove_inv; [done|]|exact Hs]. unfold receiver_remove in Hs.
    apply bind_Ok_inv in Hs as (x & Hx & _). destruct (conns s !! c) eqn:E; [by eapply lookup_lt_Some|done].
  - eapply ok_inv; [by eapply receiver_close_inv|exact Hs].
Qed.
Lemma init_inv : inv init.
Proof.
  constructor.
  - constructor; try done; constructor.
  - done.
  - intros k. by destruct k.2.
  - constructor.
  - intros _. constructor; try done; [by left|apply FOP_nil].
Qed.
Lemma client_inv_reach s : reach (step e strerror sendThreadNum ndebug contended) init s → inv s.
Proof. apply reach_invariant; [apply init_inv|intros s1 s2; apply client_step_inv]. Qed.
End invariant.

(** Somebody will end the calls that wait on the connection [c]: a task to
    connect it, the routine that sends them, the receiver or the task that closes
    it. *)
Definition pursued {M} (s : client M) (c : nat) (x : conn M) : Prop :=
  match st_ (base x) with
  | CONNECTING => CONNECT c ∈ connectionTaskQueue_ s ∨ cpc s = Connecting c
  | CONNECTED => added x = true ∧ (closed_ x = true → CLOSE c ∈ connectionTaskQueue_ s) ∧
      (waitSendTaskCoList_ (base x) ≠ [] → ∃ now, cpc s = Flushing c now)
  | CLOSED => cpc s = Draining c
  end.
Definition has_calls {M} (x : conn M) : Prop := waitSendTaskCoList_ (base x) ≠ [] ∨ waitResultCoMap_ (base x) ≠ ∅.

Section theorems.
Context {M Proto : Type} `{Message M Proto} (e : endian).
Context (strerror : Z → bytes) (sendThreadNum : Z) (ndebug contended : bool).
Implicit Types (s : client M) (x : conn M).

Lemma connects_elem q c : 0 < connects q c → CONNECT c ∈ q.
Proof. intros (i & j & Hi & Hj%bool_decide_eq_true)%count_witness. subst. by eapply list_elem_of_lookup_2. Qed.
Lemma closes_elem q c : 0 < closes q c → CLOSE c ∈ q.
Proof. intros (i & j & Hi & Hj%bool_decide_eq_true)%count_witness. subst. by eapply list_elem_of_lookup_2. Qed.

Lemma inv_pursued s c x : inv false s → conns s !! c = Some x → has_calls x → pursued s c x.
Proof.
  intros Hi Hx Hcs. pose proof (inv_conns _ _ Hi c x Hx) as Hok. pose proof (unc_conns _ (inv_uncontended _ _ Hi eq_refl) c x Hx) as Ho.
  pose proof (ok_status _ _ _ _ _ Hok) as Hs. unfold status_ok in Hs. unfold pursued. destruct (st_ (base x)) eqn:Est.
  - destruct Hs as [Hw _]. destruct Hcs as [?|Hm]; [done|]. destruct (draining (cpc s) c) eqn:Ed.
    + destruct (cpc s); simpl in Ed; try done. apply bool_decide_eq_true in Ed. congruence.
    + by rewrite (ord_closed _ _ _ Ho) in Hm.
  - pose proof (ok_connects _ _ _ _ _ Hok) as Hc. rewrite Est, bool_decide_true in Hc by done. simpl in Hc.
    destruct (connecting (cpc s) c) eqn:Ec.
    + right. destruct (cpc s); simpl in Ec; try done. apply bool_decide_eq_true in Ec. congruence.
    + left. apply connects_elem. simpl in Hc. lia.
  - destruct Hs as [Ha Hw]. split_and!; [done|..].
    + intros Hcl. apply closes_elem. rewrite (ok_closes _ _ _ _ _ Hok), Hcl, Est. done.
    + intros Hne. destruct Hw as [?|Hf]; [done|]. destruct (cpc s) as [| | |c' now]; simpl in Hf; try done.
      apply bool_decide_eq_true in Hf as ->. by exists now.
Qed.

(** C6 (rpc_calls_once).  Whatever the threads do, contended or not: every call
    with a response that was made is, exactly once, waiting, resumed, not sent
    because its time was over, or replaced by a later call of its coroutine; the
    calls that were not sent can time out; and every call without response is,
    exactly once, on its way to the socket or called back. *)
Theorem rpc_calls_once s k : reach (step e strerror sendThreadNum ndebug contended) init s →
  n k (issued s) = (if k.2 then waiting k s + answered k s + n k (expired s) + n k (replaced s)
                    else unsent k s + called_back k s) ∧
  Forall (λ t, expireTime t ≠ 0) (expired s).
Proof. intros Hi%client_inv_reach. split; [apply (inv_conserved _ _ Hi)|apply (inv_expired _ _ Hi)]. Qed.

(** C5 (rpc_no_call_lost).  When the client thread never waits for the mutex of
    a connection, a call without time-out is waiting or was resumed, exactly
    once, and every connection with waiting calls is pursued: it is about to be
    connected, its calls are being sent, its receiver runs or its CLOSE task is
    queued, or its calls are about to be failed. *)
Theorem rpc_no_call_lost s self c x : reach (step e strerror sendThreadNum ndebug false) init s →
  n (self, 0, true) (issued s) = waiting (self, 0, true) s + answered (self, 0, true) s ∧
  (conns s !! c = Some x → has_calls x → pursued s c x).
Proof.
  intros Hi%client_inv_reach. split; [|by apply inv_pursued]. rewrite (inv_conserved _ _ Hi (self, 0, true)). simpl.
  assert (∀ l : list (RpcClientTask M), Forall (λ t, expireTime t ≠ 0) l → n (self, 0, true) l = 0) as Hz.
  { intros l Hl. apply n_none. eapply Forall_impl; [exact Hl|]. intros t Ht [=]. done. }
  rewrite (Hz (expired s)), (Hz (replaced s)); [lia|apply (inv_uncontended _ _ Hi eq_refl)|apply Hi].
Qed.

(** No step of the client thread faults: no assertion
    fails and no null or dangling pointer is dereferenced, provided that a call
    is taken only while its channel has connections (or assertions are compiled
    out) and a channel is cleared only when its open connections were given to a
    thread of the sender. *)
Theorem rpc_thread_safe s now : reach (step e strerror sendThreadNum ndebug contended) init s → may_run contended s →
  (cpc s = ConnIdle → is_ok (take_connection_task s)) ∧ is_ok (drain strerror s) ∧
  (∀ r, is_ok (connected strerror s r now)) ∧ is_ok (flush_one s) ∧ is_ok (insert_task s) ∧
  (tpc s = TaskIdle →
   (ndebug = true ∨ ∀ ct q ch, taskQueue_ s = ct :: q → channels s !! ct_channel ct = Some ch → connections_ ch ≠ []) →
   is_ok (take_task strerror ndebug s now)) ∧
  ((∀ h q ch c, clearChannelQueue_ s = h :: q → channels s !! h = Some ch → Some c ∈ connections_ ch → closable sendThreadNum s c) →
   is_ok (clear_channel sendThreadNum s)).
Proof.
  intros Hi%client_inv_reach Hrun. assert (∀ o : outcome (client M), (∃ s', o = Ok s' ∧ inv contended s') → is_ok o) as Hok.
  { intros o (s' & -> & _). by eexists. }
  split_and!.
  - intros Hp. by eapply Hok, take_connection_task_inv.
  - by apply Hok, drain_inv.
  - intros r. by apply Hok, connected_inv.
  - by apply Hok, flush_one_inv.
  - by apply Hok, insert_task_inv.
  - intros Hp Hnd. by apply Hok, take_task_inv.
  - intros Hcl. destruct (clear_channel_ok sendThreadNum contended s Hi Hcl) as (s' & ->). by eexists.
Qed.
End theorems.
End RpcCalls.

(** One channel with one connection, and calls without time-out of the
    coroutines 7 and 8. *)
Module CallsExample.
Import RpcClient RpcThread RpcCalls.

Definition err_text (err : Z) : bytes := [err].
Definition md : MethodDescriptor :=
  {| index := 0; not_care_response := false; delete_in_done := false; need_coroutine := false; timeout := 0 |}.
Definition call (self : Z) (s : client Fixed64.msg) : outcome (client Fixed64.msg) :=
  CallMethod s 0 md 1 1 self 1000 (Some Controller.Reset) (Fixed64.Msg self) (Some (Fixed64.Msg 0)) false.
Definition ok_connect : connect_result := {| c_ret := 0; c_errno := 0; g_ret := 0; g_error := 0; g_errno := 0 |}.
Abbreviation or_init := (get (init (M := Fixed64.msg))).

(** The call of 7 waits for the connection, which is established. *)
Definition s1 : client Fixed64.msg := create_channel init 1.
Definition s2 : client Fixed64.msg := or_init (call 7 s1).
Definition s3 : client Fixed64.msg := or_init (take_task err_text false s2 1000).
Definition s4 : client Fixed64.msg := or_init (take_connection_task s3).
Definition s5 : client Fixed64.msg := or_init (connected err_text s4 ok_connect 1001).
Definition s6 : client Fixed64.msg := or_init (flush_one s5).
Definition s7 : client Fixed64.msg := or_init (flush_one s6).
(** 8 calls, and the routine waits for the mutex; meanwhile the connection
    breaks, and its CLOSE task is handled. *)
Definition s8 : client Fixed64.msg := or_init (call 8 s7).
Definition s9 : client Fixed64.msg := or_init (take_task err_text false s8 1002).
Definition s10 : client Fixed64.msg := or_init (sender_end s9 0).
Definition s11 : client Fixed64.msg := or_init (receiver_close s10 0).
Definition s12 : client Fixed64.msg := or_init (take_connection_task s11).
Definition s13 : client Fixed64.msg := or_init (drain err_text s12).
Definition s14 : client Fixed64.msg := or_init (insert_task s13).

Definition conn0 (s : client Fixed64.msg) : conn Fixed64.msg := default (newConnection 0) (conns s !! 0%nat).

Ltac ran s := unfold s; apply get_ok; vm_compute; reflexivity.
Section runs.
Context (contended : bool).
Abbreviation reachable := (reach (step LittleEndian err_text 1 false contended) init).

Lemma call_7_ok : call_ok s1 0 md 7 1000 (Some Controller.Reset).
Proof.
  constructor.
  - vm_compute. lia.
  - split; vm_compute; done.
  - split_and!; vm_compute; done.
  - by eexists.
  - vm_compute. reflexivity.
Qed.
Lemma call_8_ok : call_ok s7 0 md 8 1000 (Some Controller.Reset).
Proof.
  constructor.
  - vm_compute. lia.
  - split; vm_compute; done.
  - split_and!; vm_compute; done.
  - by eexists.
  - vm_compute. reflexivity.
Qed.

Lemma reach_s3 : reachable s3.
Proof.
  apply (reach_step _ _ s2).
  - apply (reach_step _ _ s1).
    + apply (reach_step _ _ init); [apply reach_refl|apply StepChannel].
    + eapply StepCall; [apply call_7_ok|]. ran s2.
  - apply (StepTask _ _ _ _ _ _ 1000); [right; by split|done|]. ran s3.
Qed.
Lemma reach_s7 : reachable s7.
Proof.
  apply (reach_step _ _ s6); [|apply StepFlush; ran s7]. apply (reach_step _ _ s5); [|apply StepFlush; ran s6].
  apply (reach_step _ _ s4); [|apply (StepConnected _ _ _ _ _ _ ok_connect 1001); [right; by split|ran s5]].
  apply (reach_step _ _ s3); [apply reach_s3|]. apply StepConnTask; [right; by split|done|ran s4].
Qed.
End runs.

Lemma reach_s14 : reach (step LittleEndian err_text 1 false true) init s14.
Proof.
  apply (reach_step _ _ s13); [|apply StepInsert; ran s14]. apply (reach_step _ _ s12); [|apply StepDrain; ran s13].
  apply (reach_step _ _ s11); [|apply StepConnTask; [by left|vm_compute; reflexivity|ran s12]].
  apply (reach_step _ _ s10); [|apply (StepClose _ _ _ _ _ _ 0 (conn0 s10)); [vm_compute; reflexivity..|ran s11]].
  apply (reach_step _ _ s9); [|apply (StepEnd _ _ _ _ _ _ 0 (conn0 s9)); [vm_compute; reflexivity..|ran s10]].
  apply (reach_step _ _ s8); [|apply (StepTask _ _ _ _ _ _ 1002); [by left|vm_compute; reflexivity|ran s9]].
  apply (reach_step _ _ s7); [apply reach_s7|]. eapply StepCall; [apply call_8_ok|]. ran s8.
Qed.


Definition k8 : Z * Z * bool := (8, 0, true).
Lemma rpc_calls_once_witness : n k8 (issued s14) = 1 ∧
  (n k8 (issued s14) = (if k8.2 then waiting k8 s14 + answered k8 s14 + n k8 (expired s14) + n k8 (replaced s14)
                        else unsent k8 s14 + called_back k8 s14) ∧
   Forall (λ t, expireTime t ≠ 0) (expired s14)).
Proof.
  split; [vm_compute; reflexivity|]. exact (rpc_calls_once LittleEndian err_text 1 false true s14 k8 reach_s14).
Defined.
Lemma rpc_no_call_lost_witness :
  has_calls (conn0 s7) ∧ n (7, 0, true) (issued s7) = waiting (7, 0, true) s7 + answered (7, 0, true) s7 ∧ pursued s7 0 (conn0 s7).
Proof.
  assert (has_calls (conn0 s7)) as Hc by (right; vm_compute; intros [=]). split; [exact Hc|].
  destruct (rpc_no_call_lost LittleEndian err_text 1 false s7 7 0 (conn0 s7) (reach_s7 false)) as [H1 H2].
  split; [exact H1|]. exact (H2 ltac:(vm_compute; reflexivity) Hc).
Defined.
Lemma rpc_thread_safe_witness : may_run false s3 ∧ is_ok (take_connection_task s3) ∧ is_ok (clear_channel 1 s3).
Proof.
  assert (may_run false s3) as Hm by (right; split; vm_compute; done).
  destruct (rpc_thread_safe LittleEndian err_text 1 false false s3 1000 (reach_s3 false) Hm) as (H1 & _ & _ & _ & _ & _ & H2).
  split; [exact Hm|]. split; [apply H1; vm_compute; reflexivity|apply H2]. intros h q ch c Hq. vm_compute in Hq. discriminate Hq.
Defined.
End CallsExample.
