(* ===== verification/Pool.v ===== *)
(** * The connection pools: corpc_redis, corpc_mysql, corpc_mongodb, corpc_memcached

    The four pools are services of an inner RPC server that runs in one thread:
    [take] hands out an idle connection, makes a new one, or queues the calling
    coroutine; [put] takes a connection back, hands it to the first waiter, or
    replaces a broken one; [clearIdleRoutine] closes connections that have been
    idle for a minute.  They differ in how a connection is made, which is the
    interface [PoolApi]; the operations are written once against it, and the
    four modules at the end instantiate them.

    The coroutines of the thread interleave where they give up the processor:
    while a connection is made (in [take], and in [put] for a waiter) and while
    they wait.  [step] is that interleaving, together with the clients: a client
    may return any connection it holds, and its call of [take] may time out (the
    method has a time limit of ten seconds), after which nobody receives the
    answer. *)
From S2P Require Import Prelude.
Open Scope Z_scope.

(** What making a connection comes to: no object was made; one was made and
    freed again; or one is ready, in session [s]. *)
Inductive attempt (S : Type) : Type := NoHandle | Broken | Good (s : S).
Arguments NoHandle {S}.
Arguments Broken {S}.
Arguments Good {S} s.

(** How a pool makes connections: in [take] and in [put], from what the client
    library answers. *)
Class PoolApi : Type := {
  session : Type;
  answers : Type;
  take_connect : answers → attempt session;
  put_connect : answers → attempt session;
}.

Module Pool.
Section pool.
Context `{PoolApi}.

(** A connection object; the pools know it by its address. *)
Record handle : Type := Handle { hid : nat; hsession : session }.

(** The members of a pool, the coroutines that are making a connection
    ([reconnecting] lists the waiters that [put] has taken out of the list for
    the connections it makes), and what the pool has done: the answered calls
    of [take], the connections that clients hold, the ones whose answer came
    after the client had given up, and the freed ones. *)
Record t : Type := Make {
  maxConnectNum_ : Z;
  realConnectCount_ : Z;
  idleList_ : list (handle * Z);
  waitingList_ : list nat;
  connecting : list nat;
  reconnecting : list nat;
  answered : list (nat * option handle);
  held : list handle;
  lost : list handle;
  freed : list handle;
  gone : list nat;
  calls : nat;
  made : nat;
  clock : Z;
}.

Definition set_real (n : Z) (s : t) : t :=
  Make (maxConnectNum_ s) (u32 n) (idleList_ s) (waitingList_ s) (connecting s) (reconnecting s)
    (answered s) (held s) (lost s) (freed s) (gone s) (calls s) (made s) (clock s).
Definition set_idle (l : list (handle * Z)) (s : t) : t :=
  Make (maxConnectNum_ s) (realConnectCount_ s) l (waitingList_ s) (connecting s) (reconnecting s)
    (answered s) (held s) (lost s) (freed s) (gone s) (calls s) (made s) (clock s).
Definition set_waiting (l : list nat) (s : t) : t :=
  Make (maxConnectNum_ s) (realConnectCount_ s) (idleList_ s) l (connecting s) (reconnecting s)
    (answered s) (held s) (lost s) (freed s) (gone s) (calls s) (made s) (clock s).
Definition set_making (l r : list nat) (s : t) : t :=
  Make (maxConnectNum_ s) (realConnectCount_ s) (idleList_ s) (waitingList_ s) l r
    (answered s) (held s) (lost s) (freed s) (gone s) (calls s) (made s) (clock s).
Definition set_clients (a : list (nat * option handle)) (h l : list handle) (s : t) : t :=
  Make (maxConnectNum_ s) (realConnectCount_ s) (idleList_ s) (waitingList_ s) (connecting s)
    (reconnecting s) a h l (freed s) (gone s) (calls s) (made s) (clock s).
Definition free (h : handle) (s : t) : t :=
  Make (maxConnectNum_ s) (realConnectCount_ s) (idleList_ s) (waitingList_ s) (connecting s)
    (reconnecting s) (answered s) (held s) (lost s) (h :: freed s) (gone s) (calls s) (made s) (clock s).

(** The constructors of the pools. *)
Definition init (max : Z) : t := Make max 0 [] [] [] [] [] [] [] [] [] 0 0 0.

(** The end of a call: the response with a connection, or [SetFailed].  The
    answer reaches the caller unless it has given up. *)
Definition answer (i : nat) (h : handle) (s : t) : t :=
  if decide (i ∈ gone s)
  then set_clients ((i, Some h) :: answered s) (held s) (h :: lost s) s
  else set_clients ((i, Some h) :: answered s) (h :: held s) (lost s) s.
Definition fail (i : nat) (s : t) : t :=
  set_clients ((i, None) :: answered s) (held s) (lost s) s.

(** [idleList_.back()] and [pop_back()]. *)
Definition pop_back (s : t) : option (handle * t) :=
  match last (idleList_ s) with
  | Some (h, _) => Some (h, set_idle (removelast (idleList_ s)) s)
  | None => None
  end.

(** [take] after [co_yield_ct]: what [co_resume] of a waiter runs. *)
Definition co_resume (i : nat) (s : t) : t :=
  match pop_back s with
  | None => fail i s
  | Some (h, s) => answer i h s
  end.

(** The loop that wakes every waiter; it ends because a resumed waiter does
    not wait again. *)
Fixpoint wake_loop (n : nat) (s : t) : t :=
  match n, waitingList_ s with
  | S n, co :: ws => wake_loop n (co_resume co (set_waiting ws s))
  | _, _ => s
  end.
Definition wake_all (s : t) : t := wake_loop (length (waitingList_ s)) s.

(** [take] up to the point where it returns, connects or waits. *)
Definition take (i : nat) (s : t) : t :=
  match pop_back s with
  | Some (h, s) => answer i h s
  | None =>
    if bool_decide (realConnectCount_ s < maxConnectNum_ s)
    then set_making (i :: connecting s) (reconnecting s) (set_real (realConnectCount_ s + 1) s)
    else set_waiting (waitingList_ s ++ [i]) s
  end.

(** The result of making a connection: the object, if it is usable. *)
Definition make_handle (r : attempt session) (s : t) : option handle * t :=
  let next s := Make (maxConnectNum_ s) (realConnectCount_ s) (idleList_ s) (waitingList_ s)
    (connecting s) (reconnecting s) (answered s) (held s) (lost s) (freed s) (gone s) (calls s)
    (S (made s)) (clock s) in
  match r with
  | NoHandle => (None, s)
  | Broken => (None, s)
  | Good c => (Some (Handle (made s) c), next s)
  end.

(** [take] after the attempt to connect. *)
Definition take_connected (i : nat) (e : answers) (s : t) : t :=
  let '(r, s) := make_handle (take_connect e) s in
  match r with
  | Some h => answer i h s
  | None => wake_all (set_real (realConnectCount_ s - 1) (fail i s))
  end.

(** [put] up to the point where it returns or connects. *)
Definition put (h : handle) (error : bool) (now : Z) (s : t) : outcome t :=
  if bool_decide (zlen (idleList_ s) < maxConnectNum_ s) then
    if error then
      let s := free h (set_real (realConnectCount_ s - 1) s) in
      match waitingList_ s with
      | [] => Ok s
      | co :: ws =>
        _ ← require (zlen (idleList_ s) = 0);
        if bool_decide (realConnectCount_ s < maxConnectNum_ s) then
          let s := set_waiting ws s in
          Ok (set_making (connecting s) (co :: reconnecting s) (set_real (realConnectCount_ s + 1) s))
        else Ok s
      end
    else
      let s := set_idle (idleList_ s ++ [(h, now)]) s in
      match waitingList_ s with
      | [] => Ok s
      | co :: ws =>
        _ ← require (zlen (idleList_ s) = 1);
        Ok (co_resume co (set_waiting ws s))
      end
  else
    _ ← require (zlen (waitingList_ s) = 0);
    Ok (free h (set_real (realConnectCount_ s - 1) s)).

(** [put] after the attempt to connect for the waiter [co]. *)
Definition put_connected (co : nat) (e : answers) (now : Z) (s : t) : t :=
  let '(r, s) := make_handle (put_connect e) s in
  match r with
  | Some h => co_resume co (set_idle (idleList_ s ++ [(h, now)]) s)
  | None => wake_all (co_resume co (set_real (realConnectCount_ s - 1) s))
  end.

(** [clearIdleRoutine]: one round, at [now]. *)
Fixpoint clear_loop (now : Z) (l : list (handle * Z)) (s : t) : t :=
  match l with
  | (h, time) :: l =>
    if bool_decide (time < now - 60)
    then clear_loop now l (free h (set_real (realConnectCount_ s - 1) (set_idle l s)))
    else s
  | [] => s
  end.
Definition clearIdle (now : Z) (s : t) : t := clear_loop now (idleList_ s) s.

(** A client calls [take]; the call is numbered. *)
Definition call (s : t) : t :=
  Make (maxConnectNum_ s) (realConnectCount_ s) (idleList_ s) (waitingList_ s) (connecting s)
    (reconnecting s) (answered s) (held s) (lost s) (freed s) (gone s) (S (calls s)) (made s) (clock s).
(** The time limit of a call passes before it is answered. *)
Definition abandon (i : nat) (s : t) : t :=
  Make (maxConnectNum_ s) (realConnectCount_ s) (idleList_ s) (waitingList_ s) (connecting s)
    (reconnecting s) (answered s) (held s) (lost s) (freed s) (i :: gone s) (calls s) (made s) (clock s).
Definition set_clock (now : Z) (s : t) : t :=
  Make (maxConnectNum_ s) (realConnectCount_ s) (idleList_ s) (waitingList_ s) (connecting s)
    (reconnecting s) (answered s) (held s) (lost s) (freed s) (gone s) (calls s) (made s) now.

Inductive step : t → t → Prop :=
  | step_take s : step s (take (calls s) (call s))
  | step_take_connected s i e l1 l2 : connecting s = l1 ++ i :: l2 →
      step s (take_connected i e (set_making (l1 ++ l2) (reconnecting s) s))
  | step_put s h error l1 l2 s' : held s = l1 ++ h :: l2 →
      put h error (clock s) (set_clients (answered s) (l1 ++ l2) (lost s) s) = Ok s' → step s s'
  | step_put_connected s i e l1 l2 : reconnecting s = l1 ++ i :: l2 →
      step s (put_connected i e (clock s) (set_making (connecting s) (l1 ++ l2) s))
  | step_clear s : step s (clearIdle (clock s) s)
  | step_abandon s i : i ∉ (answered s).*1 → step s (abandon i s)
  | step_clock s now : clock s ≤ now → step s (set_clock now s).

(** ** Invariant *)

(** The accounts of the pool while a routine has the callers [ci] and the
    handles [hi] in its hands, and has counted [k] connections that are in none
    of the lists. *)
Record accounts (ci : list nat) (hi : list handle) (k : Z) (s : t) : Prop := {
  a_max : 0 ≤ maxConnectNum_ s < 2^32;
  a_real : realConnectCount_ s = zlen (idleList_ s) + zlen (held s) + zlen (lost s)
             + zlen (connecting s) + zlen (reconnecting s) + k;
  a_range : 0 ≤ realConnectCount_ s ≤ maxConnectNum_ s;
  a_handles : hid <$> ((idleList_ s).*1 ++ held s ++ lost s ++ freed s ++ hi) ≡ₚ seq 0 (made s);
  a_calls : waitingList_ s ++ connecting s ++ reconnecting s ++ (answered s).*1 ++ ci ≡ₚ seq 0 (calls s);
  a_times : ForallOrdPairs Z.le ((idleList_ s).*2);
  a_clock : Forall (λ x, x ≤ clock s) ((idleList_ s).*2);
}.

(** Someone waits only if no connection is idle and no more may be made. *)
Definition waiting_ok (s : t) : Prop :=
  waitingList_ s ≠ [] → idleList_ s = [] ∧ realConnectCount_ s = maxConnectNum_ s.

Definition inv (s : t) : Prop := accounts [] [] 0 s ∧ waiting_ok s.

(** Rearranges the lists of the accounts. *)
Ltac permute := rewrite ?fmap_app; csimpl; rewrite ?fmap_app; csimpl; solve_Permutation.

Lemma answer_accounts i ci h hi k s :
  accounts (i :: ci) (h :: hi) (k + 1) s → accounts ci hi k (answer i h s).
Proof.
  intros [Hm Hr Hb Hh Hc Ht Hk]. unfold answer.
  case_decide; constructor; simpl; rewrite ?zlen_cons; try done; try lia.
  all: first [rewrite <-Hh|rewrite <-Hc]; permute.
Qed.

Lemma fail_accounts i ci hi k s : accounts (i :: ci) hi k s → accounts ci hi k (fail i s).
Proof.
  intros [Hm Hr Hb Hh Hc Ht Hk]. constructor; simpl; try done. rewrite <-Hc. permute.
Qed.

Lemma pop_back_accounts ci hi k s h s' : pop_back s = Some (h, s') →
  accounts ci hi k s → accounts ci (h :: hi) (k + 1) s' ∧ (∃ x, idleList_ s = idleList_ s' ++ [(h, x)]) ∧
  waitingList_ s' = waitingList_ s ∧ realConnectCount_ s' = realConnectCount_ s ∧
  maxConnectNum_ s' = maxConnectNum_ s.
Proof.
  unfold pop_back. intros Hp [Hm Hr Hb Hh Hc Ht Hk].
  destruct (idleList_ s) as [|[h' x] l _] eqn:E using rev_ind; [done|].
  rewrite last_snoc in Hp. injection Hp as <- <-. rewrite removelast_last. split; [|eauto 6].
  rewrite zlen_app, fmap_app in *. simpl in *. apply Forall_app in Hk as [Hk _].
  constructor; simpl; try done.
  - rewrite Hr. change (zlen [(h', x)]) with 1. lia.
  - rewrite <-Hh. permute.
  - eapply ForallOrdPairs_sublist; [|exact Ht]. by apply sublist_inserts_r.
Qed.

Lemma co_resume_accounts i ci hi k s : accounts (i :: ci) hi k s →
  accounts ci hi k (co_resume i s) ∧ waitingList_ (co_resume i s) = waitingList_ s ∧
  realConnectCount_ (co_resume i s) = realConnectCount_ s ∧
  maxConnectNum_ (co_resume i s) = maxConnectNum_ s ∧
  idleList_ (co_resume i s) = removelast (idleList_ s).
Proof.
  intros Hs. unfold co_resume. destruct (pop_back s) as [[h s']|] eqn:E.
  - destruct (pop_back_accounts _ _ _ _ _ _ E Hs) as (Hs' & [x Hx] & Hw & Hr & Hm).
    split; [by apply answer_accounts|]. unfold answer.
    case_decide; simpl; rewrite Hx, removelast_last; done.
  - split; [by apply fail_accounts|]. split_and!; try done. simpl.
    unfold pop_back in E. destruct (last (idleList_ s)) as [[]|] eqn:E'; [done|].
    by apply last_None in E' as ->.
Qed.

Lemma wake_loop_accounts n ci hi k s : n = length (waitingList_ s) → accounts ci hi k s →
  accounts ci hi k (wake_loop n s) ∧ waitingList_ (wake_loop n s) = [].
Proof.
  revert s. induction n as [|n IH]; intros s Hn Hs; simpl.
  { by destruct (waitingList_ s). }
  destruct (waitingList_ s) as [|co ws] eqn:E; [done|]. injection Hn as Hn.
  destruct (co_resume_accounts co ci hi k (set_waiting ws s)) as (Ha & Hw & _).
  { destruct Hs as [Hm Hr Hb Hh Hc Ht Hk]. constructor; simpl; try done.
    rewrite <-Hc, E. solve_Permutation. }
  apply IH; [by rewrite Hw|done].
Qed.

Lemma wake_all_inv s : accounts [] [] 0 s → inv (wake_all s).
Proof.
  intros Hs. destruct (wake_loop_accounts _ [] [] 0 s eq_refl Hs) as [Ha Hw].
  split; [done|]. intros Hne. unfold wake_all in Hne. by rewrite Hw in Hne.
Qed.

Lemma free_accounts ci h hi k s : accounts ci (h :: hi) k s → accounts ci hi k (free h s).
Proof. intros [Hm Hr Hb Hh Hc Ht Hk]. constructor; simpl; try done. rewrite <-Hh. permute. Qed.

Lemma set_real_accounts ci hi k d s : 0 ≤ realConnectCount_ s + d ≤ maxConnectNum_ s →
  accounts ci hi k s → accounts ci hi (k + d) (set_real (realConnectCount_ s + d) s).
Proof.
  intros Hd [Hm Hr Hb Hh Hc Ht Hk]. constructor; simpl; try done; rewrite u32_small; lia.
Qed.

(** [realConnectCount_--] for a connection that is counted. *)
Lemma discount_accounts ci hi k s : 0 ≤ k → accounts ci hi (k + 1) s →
  accounts ci hi k (set_real (realConnectCount_ s - 1) s) ∧
  realConnectCount_ (set_real (realConnectCount_ s - 1) s) < maxConnectNum_ s.
Proof.
  intros Hk Hs. pose proof (a_real _ _ _ _ Hs) as Hr. pose proof (a_range _ _ _ _ Hs). pose proof (a_max _ _ _ _ Hs).
  pose proof (zlen_nonneg (idleList_ s)). pose proof (zlen_nonneg (held s)). pose proof (zlen_nonneg (lost s)).
  pose proof (zlen_nonneg (connecting s)). pose proof (zlen_nonneg (reconnecting s)).
  split; [|simpl; rewrite u32_small; lia].
  replace k with (k + 1 + -1) by lia. apply set_real_accounts; [lia|done].
Qed.

(** A connection that has just become idle. *)
Lemma push_idle_accounts ci h hi k s : accounts ci (h :: hi) (k + 1) s →
  accounts ci hi k (set_idle (idleList_ s ++ [(h, clock s)]) s).
Proof.
  intros [Hm Hr Hb Hh Hc Ht Hk]. constructor; simpl; try done.
  - rewrite zlen_app. change (zlen [(h, clock s)]) with 1. lia.
  - rewrite <-Hh. permute.
  - rewrite fmap_app. by apply ForallOrdPairs_snoc.
  - rewrite fmap_app. apply Forall_app. split; [done|]. by repeat constructor.
Qed.

(** The first waiter is taken out of the list. *)
Lemma pop_waiting_accounts ci hi k co ws s : waitingList_ s = co :: ws →
  accounts ci hi k s → accounts (co :: ci) hi k (set_waiting ws s).
Proof.
  intros E [Hm Hr Hb Hh Hc Ht Hk]. constructor; simpl; try done. rewrite <-Hc, E. permute.
Qed.

Lemma take_inv s : inv s → inv (take (calls s) (call s)).
Proof.
  intros [Hs Hw].
  assert (accounts [calls s] [] 0 (call s)) as Hc.
  { destruct Hs as [Hm Hr Hb Hh Hc Ht Hk]. constructor; simpl; try done.
    change (0%nat :: seq 1 (calls s)) with (seq 0 (S (calls s))).
    rewrite seq_S, <-Hc. simpl. permute. }
  unfold take. destruct (pop_back (call s)) as [[h s']|] eqn:E.
  - destruct (pop_back_accounts _ _ _ _ _ _ E Hc) as (Ha & [x Hx] & Hws & Hr & Hm).
    split; [by apply answer_accounts|]. intros Hne.
    assert (waitingList_ s ≠ []) as Hne' by (unfold answer in Hne; case_decide; by simpl in Hne; rewrite Hws in Hne).
    simpl in Hx. destruct (Hw Hne') as [Hi _]. rewrite Hi in Hx. by destruct (idleList_ s').
  - assert (idleList_ s = []) as Hi.
    { unfold pop_back in E. simpl in E. destruct (last (idleList_ s)) as [[]|] eqn:E'; [done|]. by apply last_None in E'. }
    pose proof (a_range _ _ _ _ Hs). case_bool_decide as Hlt; simpl in Hlt; split.
    + apply (set_real_accounts _ _ _ 1) in Hc; [|simpl; lia]. destruct Hc as [Hm Hr Hb Hh Hcc Ht Hk].
      constructor; simpl in *; try done; [rewrite zlen_cons; lia|]. rewrite <-Hcc. permute.
    + intros Hne. simpl in Hne. destruct (Hw Hne). lia.
    + destruct Hc as [Hm Hr Hb Hh Hcc Ht Hk]. constructor; simpl in *; try done. rewrite <-Hcc. permute.
    + intros _. split; [done|]. simpl. lia.
Qed.

(** A caller leaves the list of those who are connecting. *)
Lemma take_out_connecting s i l1 l2 : connecting s = l1 ++ i :: l2 → accounts [] [] 0 s →
  accounts [i] [] 1 (set_making (l1 ++ l2) (reconnecting s) s).
Proof.
  intros E [Hm Hr Hb Hh Hc Ht Hk]. rewrite E, zlen_app, zlen_cons in Hr. rewrite E in Hc.
  constructor; simpl; try done; [rewrite zlen_app; lia|]. rewrite <-Hc. permute.
Qed.
Lemma take_out_reconnecting s i l1 l2 : reconnecting s = l1 ++ i :: l2 → accounts [] [] 0 s →
  accounts [i] [] 1 (set_making (connecting s) (l1 ++ l2) s).
Proof.
  intros E [Hm Hr Hb Hh Hc Ht Hk]. rewrite E, zlen_app, zlen_cons in Hr. rewrite E in Hc.
  constructor; simpl; try done; [rewrite zlen_app; lia|]. rewrite <-Hc. permute.
Qed.

(** The attempt to connect, made for a connection that is counted. *)
Lemma make_handle_accounts ci k r s : accounts ci [] k s →
  accounts ci (option_list (fst (make_handle r s))) k (snd (make_handle r s)) ∧
  waitingList_ (snd (make_handle r s)) = waitingList_ s ∧ idleList_ (snd (make_handle r s)) = idleList_ s ∧
  realConnectCount_ (snd (make_handle r s)) = realConnectCount_ s ∧
  maxConnectNum_ (snd (make_handle r s)) = maxConnectNum_ s ∧ clock (snd (make_handle r s)) = clock s.
Proof.
  intros Hs. destruct r as [| |c]; simpl; [done..|]. split_and!; try done.
  destruct Hs as [Hm Hr Hb Hh Hc Ht Hk]. constructor; simpl; try done.
  change (0%nat :: seq 1 (made s)) with (seq 0 (S (made s))). rewrite seq_S, <-Hh. simpl. permute.
Qed.

Lemma take_connected_inv s i e l1 l2 : connecting s = l1 ++ i :: l2 → inv s →
  inv (take_connected i e (set_making (l1 ++ l2) (reconnecting s) s)).
Proof.
  intros E [Hs Hw]. apply (take_out_connecting _ _ _ _ E) in Hs. unfold take_connected.
  destruct (make_handle_accounts _ _ (take_connect e) _ Hs) as (Ha & Hws & Hi & Hr & Hm & _).
  destruct (make_handle (take_connect e) _) as [[h|] s']; simpl in *.
  - split; [by apply answer_accounts|]. intros Hne.
    assert (waitingList_ s ≠ []) as Hne' by (unfold answer in Hne; case_decide; simpl in Hne; congruence).
    unfold answer. case_decide; simpl; rewrite Hi, Hr, Hm; by apply Hw.
  - apply wake_all_inv. apply (discount_accounts _ _ 0 (fail i s') ltac:(lia)), fail_accounts, Ha.
Qed.

Lemma put_connected_inv s i e l1 l2 : reconnecting s = l1 ++ i :: l2 → inv s →
  inv (put_connected i e (clock s) (set_making (connecting s) (l1 ++ l2) s)).
Proof.
  intros E [Hs Hw]. apply (take_out_reconnecting _ _ _ _ E) in Hs. unfold put_connected.
  destruct (make_handle_accounts _ _ (put_connect e) _ Hs) as (Ha & Hws & Hi & Hr & Hm & Hcl).
  destruct (make_handle (put_connect e) _) as [[h|] s']; simpl in *.
  - rewrite <-Hcl. apply (push_idle_accounts _ _ _ 0) in Ha.
    destruct (co_resume_accounts _ _ _ _ _ Ha) as (Hc & Hw2 & Hr2 & Hm2 & Hi2). split; [done|].
    intros Hne. rewrite Hw2 in Hne. simpl in Hne. rewrite Hws in Hne.
    rewrite Hi2, Hr2, Hm2. simpl. rewrite removelast_last, Hi, Hr, Hm. by apply Hw.
  - apply wake_all_inv. apply co_resume_accounts. by apply (discount_accounts _ _ 0 s' ltac:(lia)).
Qed.

(** A client sends back a connection that it holds. *)
Lemma take_out_held s h l1 l2 : held s = l1 ++ h :: l2 → accounts [] [] 0 s →
  accounts [] [h] 1 (set_clients (answered s) (l1 ++ l2) (lost s) s).
Proof.
  intros E [Hm Hr Hb Hh Hc Ht Hk]. rewrite E, zlen_app, zlen_cons in Hr. rewrite E in Hh.
  constructor; simpl; try done; [rewrite zlen_app; lia|]. rewrite <-Hh. permute.
Qed.

Lemma idle_below k s : accounts [] [] k s → zlen (idleList_ s) + k ≤ maxConnectNum_ s.
Proof.
  intros [_ Hr Hb _ _ _ _].
  pose proof (zlen_nonneg (held s)). pose proof (zlen_nonneg (lost s)).
  pose proof (zlen_nonneg (connecting s)). pose proof (zlen_nonneg (reconnecting s)). lia.
Qed.

(** A broken connection comes back: its place is free, or is used to connect
    for the first waiter. *)
Lemma put_error_inv h s : accounts [] [h] 1 s → waiting_ok s →
  ∃ s', put h true (clock s) s = Ok s' ∧ inv s'.
Proof.
  intros Hs Hw. unfold put. 
  destruct (discount_accounts _ _ 0 s ltac:(lia) Hs) as [Hd Hlt]. apply free_accounts in Hd.
  rewrite bool_decide_true.
  2: { pose proof (idle_below _ _ Hd). simpl in *. pose proof (a_real _ _ _ _ Hs). pose proof (a_range _ _ _ _ Hs).
       pose proof (zlen_nonneg (held s)). pose proof (zlen_nonneg (lost s)).
       pose proof (zlen_nonneg (connecting s)). pose proof (zlen_nonneg (reconnecting s)). lia. }
  set (s1 := free h (set_real (realConnectCount_ s - 1) s)) in *.
  change (waitingList_ s1) with (waitingList_ s).
  destruct (waitingList_ s) as [|co ws] eqn:Ew; [eexists; split; [done|]; split; [done|]; intros Hne; by rewrite <-Ew in Hne|].
  destruct Hw as [Hi Hm]; [by rewrite Ew|].
  change (idleList_ s1) with (idleList_ s). rewrite Hi. rewrite (require_true (zlen [] = 0)) by done. simpl.
  rewrite bool_decide_true by exact Hlt. eexists. split; [done|]. split.
  - assert (0 ≤ realConnectCount_ s1) by apply (a_range _ _ _ _ Hd).
    apply (pop_waiting_accounts _ _ _ co ws) in Hd; [|done].
    apply (set_real_accounts _ _ _ 1) in Hd; [|simpl in *; lia].
    destruct Hd as [Hm' Hr Hb Hh Hc Ht Hk]. constructor; simpl in *; try done; [rewrite zlen_cons; lia|].
    rewrite <-Hc. permute.
  - intros _. split; [done|]. simpl. pose proof (a_max _ _ _ _ Hs). pose proof (a_range _ _ _ _ Hs).
    simpl in *. rewrite (u32_small (realConnectCount_ s - 1)) by (pose proof (a_range _ _ _ _ Hd); simpl in *; lia).
    rewrite u32_small; lia.
Qed.

(** A good connection comes back: it is idle, or goes to the first waiter. *)
Lemma put_good_inv h s : accounts [] [h] 1 s → waiting_ok s →
  ∃ s', put h false (clock s) s = Ok s' ∧ inv s' ∧
    s' = match waitingList_ s with
         | [] => set_idle (idleList_ s ++ [(h, clock s)]) s
         | co :: ws => set_idle [] (answer co h (set_waiting ws s))
         end.
Proof.
  intros Hs Hw. unfold put. apply (push_idle_accounts _ _ _ 0) in Hs.
  pose proof (idle_below _ _ Hs) as Hlt. simpl in Hlt. rewrite zlen_app in Hlt.
  change (zlen [(h, clock s)]) with 1 in Hlt. rewrite bool_decide_true by lia.
  set (s1 := set_idle (idleList_ s ++ [(h, clock s)]) s) in *.
  change (waitingList_ s1) with (waitingList_ s).
  destruct (waitingList_ s) as [|co ws] eqn:Ew.
  { eexists; split; [done|]; split; [|done]. split; [done|]. intros Hne. by rewrite <-Ew in Hne. }
  destruct Hw as [Hi Hm]; [by rewrite Ew|]. assert (idleList_ s1 = [(h, clock s)]) as Hi1 by (simpl; by rewrite Hi).
  rewrite Hi1. rewrite (require_true (zlen [(h, clock s)] = 1)) by done. simpl.
  eexists. split; [done|]. apply (pop_waiting_accounts _ _ _ co ws) in Hs; [|done].
  destruct (co_resume_accounts _ _ _ _ _ Hs) as (Hc & Hw2 & Hr2 & Hm2 & Hi2). split.
  - split; [done|]. intros _. rewrite Hi2, Hr2, Hm2. simpl. by rewrite Hi.
  - unfold co_resume, pop_back. simpl. rewrite Hi. simpl. unfold answer. simpl. by case_decide.
Qed.

Lemma drop_idle_accounts h x l s : idleList_ s = (h, x) :: l → accounts [] [] 0 s →
  accounts [] [] 0 (free h (set_real (realConnectCount_ s - 1) (set_idle l s))).
Proof.
  intros E Hs. apply free_accounts. apply (discount_accounts [] [h] 0 (set_idle l s) ltac:(lia)).
  destruct Hs as [Hm Hr Hb Hh Hc Ht Hk]. rewrite E in *. rewrite zlen_cons in Hr. csimpl in *.
  inversion_clear Ht. inversion_clear Hk. constructor; simpl; try done; [lia|]. rewrite <-Hh. permute.
Qed.

Lemma clear_loop_spec now l s : idleList_ s = l → accounts [] [] 0 s →
  accounts [] [] 0 (clear_loop now l s) ∧ waitingList_ (clear_loop now l s) = waitingList_ s ∧
  (l = [] → clear_loop now l s = s) ∧
  idleList_ (clear_loop now l s) = filter (λ e, now - 60 ≤ e.2) l ∧
  freed (clear_loop now l s) = reverse (filter (λ e, e.2 < now - 60) l).*1 ++ freed s.
Proof.
  revert s. induction l as [|[h x] l IH]; intros s E Hs; simpl; [by rewrite E|].
  case_bool_decide as Hx.
  - pose proof (drop_idle_accounts _ _ _ _ E Hs) as Hd.
    destruct (IH (free h (set_real (realConnectCount_ s - 1) (set_idle l s))) eq_refl Hd) as (Ha & Hw & _ & Hi & Hf).
    rewrite filter_cons_False, filter_cons_True by (simpl; lia).
    split_and!; try done. rewrite Hf. csimpl. by rewrite reverse_cons, <-app_assoc.
  - pose proof (a_times _ _ _ _ Hs) as Ht. rewrite E in Ht. csimpl in Ht. inversion_clear Ht as [|? ? Hle _].
    assert (Forall (λ e : handle * Z, now - 60 ≤ e.2) l) as Hall
      by (rewrite Forall_fmap in Hle; eapply Forall_impl; [exact Hle|]; simpl; lia).
    rewrite filter_cons_True, filter_cons_False by (simpl; lia). rewrite list_filter_all, list_filter_none; [|
      eapply Forall_impl; [exact Hall|]; simpl; lia|done]. done.
Qed.

Lemma clearIdle_inv now s : inv s → inv (clearIdle now s).
Proof.
  intros [Hs Hw]. destruct (clear_loop_spec now _ s eq_refl Hs) as (Ha & Hws & Hnil & _).
  split; [done|]. unfold clearIdle. intros Hne. rewrite Hws in Hne. destruct (Hw Hne) as [Hi Hm].
  rewrite Hnil by done. done.
Qed.

Lemma pool_inv_init max : 0 ≤ max < 2^32 → inv (init max).
Proof. intros Hm. split; [|done]. constructor; simpl; try done; try lia; constructor. Qed.

Lemma pool_inv_step s s' : inv s → step s s' → inv s'.
Proof.
  intros Hs Hstep. destruct Hstep as [s|s i e l1 l2 E|s h error l1 l2 s' E Hp|s i e l1 l2 E|s|s i Hi|s now Hn].
  - by apply take_inv.
  - by apply take_connected_inv.
  - destruct Hs as [Hs Hw]. apply (take_out_held _ _ _ _ E) in Hs. destruct error.
    + destruct (put_error_inv _ _ Hs Hw) as (s2 & H2 & ?). simpl in H2. rewrite Hp in H2. by injection H2 as ->.
    + destruct (put_good_inv _ _ Hs Hw) as (s2 & H2 & ? & _). simpl in H2. rewrite Hp in H2. by injection H2 as ->.
  - by apply put_connected_inv.
  - by apply clearIdle_inv.
  - destruct Hs as [[] ?]. split; [by constructor|done].
  - destruct Hs as [[] ?]. split; [constructor; try done|done].
    eapply Forall_impl; [done|]. simpl. lia.
Qed.

Lemma pool_inv_reach max s : 0 ≤ max < 2^32 → reach step (init max) s → inv s.
Proof. intros Hm. apply reach_invariant; [by apply pool_inv_init|apply pool_inv_step]. Qed.

(** C16 (pool_accounts).  In every reachable state of a pool, for any
    interleaving of its coroutines, any answers of the client library and any
    behaviour of the clients: [realConnectCount_] is the number of connections
    that are idle, with clients, lost to callers that gave up, or being made,
    and never exceeds [maxConnectNum_]; a caller waits only if no connection is
    idle and the limit is reached; and [put] of any connection that a client
    holds completes without a failing assertion. *)
Theorem pool_accounts max s :
  0 ≤ max < 2^32 → reach step (init max) s →
  realConnectCount_ s = zlen (idleList_ s) + zlen (held s) + zlen (lost s)
    + zlen (connecting s) + zlen (reconnecting s) ∧
  realConnectCount_ s ≤ maxConnectNum_ s ∧
  (waitingList_ s ≠ [] → idleList_ s = [] ∧ realConnectCount_ s = maxConnectNum_ s) ∧
  (∀ h error l1 l2, held s = l1 ++ h :: l2 →
     ∃ s', put h error (clock s) (set_clients (answered s) (l1 ++ l2) (lost s) s) = Ok s').
Proof.
  intros Hm Hr. destruct (pool_inv_reach _ _ Hm Hr) as [Hs Hw]. split_and!.
  - rewrite (a_real _ _ _ _ Hs). lia.
  - apply (a_range _ _ _ _ Hs).
  - exact Hw.
  - intros h error l1 l2 E. apply (take_out_held _ _ _ _ E) in Hs. destruct error.
    + destruct (put_error_inv _ _ Hs Hw) as (s2 & ? & ?). eauto.
    + destruct (put_good_inv _ _ Hs Hw) as (s2 & ? & ? & _). eauto.
Qed.

(** C17 (pool_handles_once).  Every connection a pool has made is in one
    place, once: idle, with one client, lost, or freed; so no connection is
    handed to two clients, freed twice, or used after it was freed.  And every
    call of [take] is in one place, once: waiting, connecting, waiting for a
    connection that [put] makes, or answered; so no call is forgotten and none
    is answered twice. *)
Theorem pool_handles_once max s :
  0 ≤ max < 2^32 → reach step (init max) s →
  NoDup (hid <$> ((idleList_ s).*1 ++ held s ++ lost s ++ freed s)) ∧
  (∀ i, (i < made s)%nat → ∃ h, hid h = i ∧ h ∈ (idleList_ s).*1 ++ held s ++ lost s ++ freed s) ∧
  waitingList_ s ++ connecting s ++ reconnecting s ++ (answered s).*1 ≡ₚ seq 0 (calls s).
Proof.
  intros Hm Hr. destruct (pool_inv_reach _ _ Hm Hr) as [[_ _ _ Hh Hc _ _] _].
  rewrite app_nil_r in Hh, Hc. split_and!; [|intros i Hi|done].
  - rewrite Hh. apply NoDup_seq.
  - assert (i ∈ seq 0 (made s)) as Hin by (apply elem_of_seq; lia).
    rewrite <-Hh in Hin. apply list_elem_of_fmap in Hin as (h & -> & ?). eauto.
Qed.

(** A connection that comes back in order while
    somebody waits goes to the caller that has waited longest, at once: the
    call is answered with that very connection and the others keep their
    places. *)
Theorem pool_put_serves max s h co ws l1 l2 :
  0 ≤ max < 2^32 → reach step (init max) s → held s = l1 ++ h :: l2 → waitingList_ s = co :: ws →
  ∃ s', put h false (clock s) (set_clients (answered s) (l1 ++ l2) (lost s) s) = Ok s' ∧
    answered s' = (co, Some h) :: answered s ∧ waitingList_ s' = ws ∧ idleList_ s' = [] ∧
    realConnectCount_ s' = realConnectCount_ s ∧ (co ∉ gone s → held s' = h :: l1 ++ l2).
Proof.
  intros Hm Hr E Ew. destruct (pool_inv_reach _ _ Hm Hr) as [Hs Hw].
  apply (take_out_held _ _ _ _ E) in Hs.
  destruct (put_good_inv _ _ Hs Hw) as (s2 & H2 & _ & ->). simpl in *. rewrite Ew in *.
  eexists. split; [exact H2|]. unfold answer. simpl. case_decide; split_and!; done.
Qed.

(** A round of [clearIdleRoutine] closes exactly the
    connections that have been idle for more than sixty seconds, although it
    looks only at the front of the list: the list is in the order in which the
    connections became idle. *)
Theorem pool_clear_exact max s :
  0 ≤ max < 2^32 → reach step (init max) s →
  let s' := clearIdle (clock s) s in
  idleList_ s' = filter (λ e, clock s - 60 ≤ e.2) (idleList_ s) ∧
  freed s' = reverse (filter (λ e, e.2 < clock s - 60) (idleList_ s)).*1 ++ freed s ∧
  held s' = held s ∧ waitingList_ s' = waitingList_ s.
Proof.
  intros Hm Hr. destruct (pool_inv_reach _ _ Hm Hr) as [Hs _].
  destruct (clear_loop_spec (clock s) _ s eq_refl Hs) as (_ & Hw & _ & Hi & Hf). simpl.
  unfold clearIdle. split_and!; try done. generalize (clock s). clear. generalize (idleList_ s).
  intros l now. revert s. induction l as [|[h x] l IH]; intros s; simpl; [done|].
  case_bool_decide; [by rewrite IH|done].
Qed.

(** ** Connections lost to callers that gave up *)

(** The pool when every connection it may make is lost. *)
Record exhausted (L : list handle) (A : list (nat * option handle)) (s : t) : Prop := {
  x_inv : inv s;
  x_lost : lost s = L;
  x_max : maxConnectNum_ s = zlen L;
  x_answered : answered s = A;
}.

Lemma exhausted_empty L A s : exhausted L A s →
  idleList_ s = [] ∧ held s = [] ∧ connecting s = [] ∧ reconnecting s = [] ∧ realConnectCount_ s = maxConnectNum_ s.
Proof.
  intros [[Hs _] Hl Hm _]. pose proof (a_real _ _ _ _ Hs) as Hr. pose proof (a_range _ _ _ _ Hs). rewrite Hl in Hr.
  pose proof (zlen_nonneg (held s)). pose proof (zlen_nonneg (idleList_ s)).
  pose proof (zlen_nonneg (connecting s)). pose proof (zlen_nonneg (reconnecting s)).
  split_and!; [apply zlen_0_inv; lia..|lia].
Qed.

Lemma exhausted_step L A s s' : exhausted L A s → step s s' → exhausted L A s'.
Proof.
  intros Hx Hstep. destruct (exhausted_empty _ _ _ Hx) as (Hi & Hh & Hc & Hr & Hm).
  pose proof (pool_inv_step _ _ (x_inv _ _ _ Hx) Hstep) as Hinv. destruct Hx as [_ Hl HM HA].
  destruct Hstep as [s|s i e l1 l2 E|s h error l1 l2 s' E Hp|s i e l1 l2 E|s|s i ?|s now Hn].
  - revert Hinv. unfold take, pop_back. simpl. rewrite Hi. simpl. rewrite bool_decide_false by lia.
    intros Hinv. by constructor.
  - rewrite Hc in E. by destruct l1.
  - rewrite Hh in E. by destruct l1.
  - rewrite Hr in E. by destruct l1.
  - revert Hinv. unfold clearIdle. rewrite Hi. simpl. intros Hinv. by constructor.
  - by constructor.
  - by constructor.
Qed.

(** A connection handed to a caller that gave up is
    never put back.  When as many are lost as the pool may make, the pool is
    dead: in every later state nothing is idle or being made, no call of
    [take] is answered any more, with a connection or with an error, and every
    new call only joins the waiters. *)
Theorem pool_exhausted max s s' :
  0 ≤ max < 2^32 → reach step (init max) s → zlen (lost s) = maxConnectNum_ s → reach step s s' →
  answered s' = answered s ∧ held s' = [] ∧ idleList_ s' = [] ∧ connecting s' = [] ∧
  take (calls s') (call s') = set_waiting (waitingList_ s' ++ [calls s']) (call s').
Proof.
  intros Hm Hr Hl Hr'. pose proof (pool_inv_reach _ _ Hm Hr) as Hs.
  assert (exhausted (lost s) (answered s) s') as Hx
    by (eapply reach_invariant; [|apply exhausted_step|exact Hr']; by constructor).
  destruct (exhausted_empty _ _ _ Hx) as (Hi & Hh & Hc & Hrc & Hrm). split_and!; try done.
  - by apply x_answered in Hx.
  - unfold take, pop_back. simpl. rewrite Hi. simpl. by rewrite bool_decide_false by lia.
Qed.
End pool.
End Pool.
