(* ===== verification/Pools.v ===== *)
(** * The four connection pools as instances of Pool.v

    Each module gives, from its source file, how a connection is made in [take]
    and in [put] from what the client library answers, and the operations of
    its class.  The examples are runs of these pools. *)
From S2P Require Import Prelude Pool.
Open Scope Z_scope.

(** ** corpc_redis.cpp *)
Module RedisConnectPool.

(** The members of the pool that matter to a connection. *)
Record config : Type := Config { passwd_empty : bool; dbIndex_ : Z }.

(** The state of a connection at the server: whether the client has
    authenticated, and the selected database. *)
Record redis : Type := Redis { authed : bool; selected : Z }.

(** What hiredis answers: the context that [redisConnectWithTimeout] returns
    ([None] for a null pointer, or its [err]), and whether the replies to
    [AUTH] and [SELECT] are not null. *)
Record replies : Type := Replies { context : option bool; auth_reply : bool; select_reply : bool }.

Section redis.
Context (cfg : config).

(** The part of [take] that connects, authenticates and selects. *)
Definition connect_take (e : replies) : attempt redis :=
  match context e with
  | None => NoHandle
  | Some true => Broken
  | Some false =>
    if negb (passwd_empty cfg) && negb (auth_reply e) then Broken
    else if bool_decide (dbIndex_ cfg ≠ 0) then
      if select_reply e then Good (Redis (negb (passwd_empty cfg)) (dbIndex_ cfg)) else Broken
    else Good (Redis (negb (passwd_empty cfg)) 0)
  end.

(** The part of [put] that connects again. *)
Definition connect_put (e : replies) : attempt redis :=
  match context e with
  | None => NoHandle
  | Some true => Broken
  | Some false => Good (Redis false 0)
  end.

#[export] Instance redis_api : PoolApi := {|
  session := redis; answers := replies; take_connect := connect_take; put_connect := connect_put |}.

Definition t : Type := Pool.t.
Definition create (maxConnectNum : Z) : t := Pool.init maxConnectNum.
Definition take : nat → t → t := Pool.take.
Definition take_connected : nat → replies → t → t := Pool.take_connected.
Definition put : Pool.handle → bool → Z → t → outcome t := Pool.put.
Definition put_connected : nat → replies → Z → t → t := Pool.put_connected.
Definition clearIdle : Z → t → t := Pool.clearIdle.

(** A connection on which commands run as the pool was configured. *)
Definition ready (c : redis) : Prop :=
  authed c = negb (passwd_empty cfg) ∧ selected c = dbIndex_ cfg.

Lemma take_ready e c : connect_take e = Good c → ready c.
Proof.
  unfold connect_take, ready. intros Hc. repeat case_match; try done; injection Hc as <-; split; try done.
  simpl. case_bool_decide; [done|]. lia.
Qed.
End redis.
End RedisConnectPool.

(** ** corpc_mysql.cpp *)
Module MysqlConnectPool.

(** What the client library answers: whether [mysql_init] returns an object
    and [mysql_real_connect] succeeds. *)
Record replies : Type := Replies { mysql_init : bool; mysql_real_connect : bool }.

Definition connect (e : replies) : attempt unit :=
  if mysql_init e then if mysql_real_connect e then Good () else Broken else NoHandle.

#[export] Instance mysql_api : PoolApi := {|
  session := unit; answers := replies; take_connect := connect; put_connect := connect |}.

Definition t : Type := Pool.t.
Definition create (maxConnectNum : Z) : t := Pool.init maxConnectNum.
Definition take : nat → t → t := Pool.take.
Definition take_connected : nat → replies → t → t := Pool.take_connected.
Definition put : Pool.handle → bool → Z → t → outcome t := Pool.put.
Definition put_connected : nat → replies → Z → t → t := Pool.put_connected.
Definition clearIdle : Z → t → t := Pool.clearIdle.
End MysqlConnectPool.

(** ** corpc_mongodb.cpp *)
Module MongodbConnectPool.

(** Whether [mongoc_client_new] returns a client. *)
Definition connect (mongoc_client_new : bool) : attempt unit :=
  if mongoc_client_new then Good () else NoHandle.

#[export] Instance mongodb_api : PoolApi := {|
  session := unit; answers := bool; take_connect := connect; put_connect := connect |}.

Definition t : Type := Pool.t.
Definition create (maxConnectNum : Z) : t := Pool.init maxConnectNum.
Definition take : nat → t → t := Pool.take.
Definition take_connected : nat → bool → t → t := Pool.take_connected.
Definition put : Pool.handle → bool → Z → t → outcome t := Pool.put.
Definition put_connected : nat → bool → Z → t → t := Pool.put_connected.
Definition clearIdle : Z → t → t := Pool.clearIdle.
End MongodbConnectPool.

(** ** corpc_memcached.cpp *)
Module MemcachedConnectPool.

(** Whether [memcached_create] returns an object, and whether
    [memcached_server_push] returns [MEMCACHED_SUCCESS]. *)
Record replies : Type := Replies { memcached_create : bool; memcached_server_push : bool }.

Definition connect (e : replies) : attempt unit :=
  if memcached_create e then if memcached_server_push e then Good () else Broken else NoHandle.

#[export] Instance memcached_api : PoolApi := {|
  session := unit; answers := replies; take_connect := connect; put_connect := connect |}.

Definition t : Type := Pool.t.
Definition create (maxConnectNum : Z) : t := Pool.init maxConnectNum.
Definition take : nat → t → t := Pool.take.
Definition take_connected : nat → replies → t → t := Pool.take_connected.
Definition put : Pool.handle → bool → Z → t → outcome t := Pool.put.
Definition put_connected : nat → replies → Z → t → t := Pool.put_connected.
Definition clearIdle : Z → t → t := Pool.clearIdle.
End MemcachedConnectPool.

(** ** Runs *)
Module PoolExample.
Import Pool.

(** A MySQL pool of one connection: the first caller connects, the second
    waits and gives up, the first puts the connection back, a third calls. *)
Import MysqlConnectPool.
Abbreviation mstep := (step (H:=mysql_api)).
Definition good : MysqlConnectPool.replies := MysqlConnectPool.Replies true true.
Definition h0 : handle (H:=mysql_api) := Handle 0 ().
Definition m0 : MysqlConnectPool.t := create 1.
Definition m1 : MysqlConnectPool.t := take 0 (call m0).
Definition m2 : MysqlConnectPool.t := take_connected 0 good (set_making [] [] m1).
Definition m3 : MysqlConnectPool.t := take 1 (call m2).
Definition m4 : MysqlConnectPool.t := abandon 1 m3.
Definition m5 : MysqlConnectPool.t := get m4 (put h0 false 0 (set_clients (answered m4) [] [] m4)).
Definition m6 : MysqlConnectPool.t := take 2 (call m5).

Lemma reach_m2 : reach mstep m0 m2.
Proof.
  apply (reach_step _ _ m1); [|by apply (step_take_connected m1 0 good [] [])].
  apply (reach_step _ _ m0); [apply reach_refl|apply (step_take m0)].
Qed.
Lemma reach_m3 : reach mstep m0 m3.
Proof. apply (reach_step _ _ m2); [apply reach_m2|apply (step_take m2)]. Qed.
Lemma reach_m5 : reach mstep m0 m5.
Proof.
  apply (reach_step _ _ m4); [|by apply (step_put m4 h0 false [] []); [|apply get_ok]].
  apply (reach_step _ _ m3); [apply reach_m3|]. apply step_abandon.
  by apply (bool_decide_unpack _).
Qed.

Lemma pool_accounts_witness : realConnectCount_ m3 = 1 ∧
  ∃ s', Pool.put h0 true (clock m3) (set_clients (answered m3) [] (lost m3) m3) = Ok s'.
Proof.
  destruct (pool_accounts 1 m3 ltac:(done) reach_m3) as (H1 & _ & _ & H4).
  split; [exact H1|]. apply (H4 h0 true [] []). reflexivity.
Defined.

Lemma pool_handles_once_witness :
  NoDup (hid <$> ((idleList_ m5).*1 ++ held m5 ++ lost m5 ++ freed m5)) ∧
  waitingList_ m5 ++ connecting m5 ++ reconnecting m5 ++ (answered m5).*1 ≡ₚ seq 0 (calls m5).
Proof. destruct (pool_handles_once 1 m5 ltac:(done) reach_m5) as (H1 & _ & H3). by split. Defined.

Lemma pool_put_serves_witness :
  ∃ s', Pool.put h0 false (clock m3) (set_clients (answered m3) [] (lost m3) m3) = Ok s' ∧
    answered s' = (1%nat, Some h0) :: answered m3 ∧ waitingList_ s' = [] ∧ idleList_ s' = [] ∧
    realConnectCount_ s' = realConnectCount_ m3 ∧ (1%nat ∉ gone m3 → held s' = [h0]).
Proof. exact (pool_put_serves 1 m3 h0 1%nat [] [] [] ltac:(done) reach_m3 eq_refl eq_refl). Defined.

Lemma pool_exhausted_witness : zlen (lost m5) = maxConnectNum_ m5 ∧ answered m6 = answered m5 ∧ held m6 = [].
Proof.
  split; [reflexivity|].
  destruct (pool_exhausted 1 m5 m6 ltac:(done) reach_m5 eq_refl) as (H1 & H2 & _).
  { apply (reach_step _ _ m5); [apply reach_refl|apply (step_take m5)]. }
  split; [exact H1|exact H2].
Defined.

(** The first caller puts its connection back at time 0; at time 100 it is
    closed. *)
Definition c3 : MysqlConnectPool.t := get m2 (put h0 false 0 (set_clients (answered m2) [] [] m2)).
Definition c4 : MysqlConnectPool.t := set_clock 100 c3.
Lemma reach_c4 : reach mstep m0 c4.
Proof.
  apply (reach_step _ _ c3); [|by apply step_clock].
  apply (reach_step _ _ m2); [apply reach_m2|]. by apply (step_put m2 h0 false [] []); [|apply get_ok].
Qed.
Lemma pool_clear_exact_witness : idleList_ c4 = [(h0, 0)] ∧
  idleList_ (clearIdle 100 c4) = filter (λ e, 40 ≤ e.2) (idleList_ c4) ∧
  freed (clearIdle 100 c4) = [h0].
Proof.
  split; [reflexivity|]. destruct (pool_clear_exact 1 c4 ltac:(done) reach_c4) as (H1 & H2 & _).
  split; [exact H1|exact H2].
Defined.

End PoolExample.

(** A Redis pool with a password and a database: the first caller reports an
    error while the second waits, and [put] connects for the second. *)
Module RedisExample.
Import Pool RedisConnectPool.
Definition cfg : config := Config false 3.
Abbreviation rstep := (step (H:=redis_api cfg)).
Abbreviation rstate := (RedisConnectPool.t cfg).
Definition fine : RedisConnectPool.replies := RedisConnectPool.Replies (Some false) true true.
Definition rh0 : handle (H:=redis_api cfg) := Handle (H:=redis_api cfg) 0 (Redis true 3).
Definition r0 : rstate := create cfg 1.
Definition r1 : rstate := take cfg 0 (call r0).
Definition r2 : rstate := take_connected cfg 0 fine (set_making [] [] r1).
Definition r3 : rstate := take cfg 1 (call r2).
Definition r4 : rstate := get r3 (put cfg rh0 true 0 (set_clients (answered r3) [] [] r3)).
Definition r5 : rstate := put_connected cfg 1 fine 0 (set_making [] [] r4).

Lemma reach_r5 : reach rstep r0 r5.
Proof.
  apply (reach_step _ _ r4); [|by apply (step_put_connected r4 1 fine [] [])].
  apply (reach_step _ _ r3); [|by apply (step_put r3 rh0 true [] []); [|apply get_ok]].
  apply (reach_step _ _ r2); [|by apply (step_take r2)].
  apply (reach_step _ _ r1); [|by apply (step_take_connected r1 0 fine [] [])].
  apply (reach_step _ _ r0); [apply reach_refl|by apply (step_take r0)].
Qed.

(** A connection that [take] makes is
    authenticated and has the configured database selected, but one that [put]
    makes for a waiter is neither: a pool with a password and a database hands
    a client a connection that is not authenticated and uses database 0. *)
Theorem redis_reconnect_not_ready :
  (∀ e c, connect_take cfg e = Good c → ready cfg c) ∧
  ∃ s h, reach rstep (create cfg 1) s ∧ h ∈ held s ∧ ¬ ready cfg (hsession h).
Proof.
  split; [apply take_ready|]. exists r5, (Handle (H:=redis_api cfg) 1 (Redis false 0)).
  split_and!; [apply reach_r5|vm_compute; constructor|by intros [? _]].
Qed.
End RedisExample.
