(* ===== verification/CoSwap.v ===== *)
(** * co_routine.cpp: switching between coroutines that share stacks

    Coroutines of a thread may run on a few shared stacks.  A stack remembers the
    coroutine that has used it last ([occupy_co]); when another one is switched
    to, [co_swap] copies the used part of the stack to a buffer of the old
    coroutine, and, once it runs in the new one, copies the buffer of the new one
    back.  Coroutines resume each other in a stack of calls ([pCallStack]).

    A stack is the list of its cells from [stack_bp] downwards, so that the part
    from [stack_sp] to [stack_bp] is a prefix; [stack_sp] is its length.  What the
    running coroutine does to its stack, and how much of it is in use when it is
    switched away, is arbitrary.  The context itself (registers) is not modelled:
    [coctx_swap] returns in the [co_swap] of the coroutine that is switched to, or
    begins its function.  [kept] is a record, for the theorem, of what the stack
    held when a coroutine was switched away. *)
From stdpp Require Import gmap.
From S2P Require Import Prelude.
Open Scope Z_scope.

Module CoSwap.

Record stackmem (A : Type) : Type := StackMem { occupy_co : option nat; mem : list A }.
Arguments StackMem {_} _ _.
Arguments occupy_co {_} _.
Arguments mem {_} _.

(** [stCoRoutine_t]; [save_size] is the size of [save_buffer]. *)
Record co (A : Type) : Type := Co {
  cStart : bool;
  cEnd : bool;
  cIsMain : bool;
  cIsShareStack : bool;
  stack_mem : nat;
  stack_sp : nat;
  save_buffer : option (list A);
}.
Arguments Co {_} _ _ _ _ _ _ _.
Arguments cStart {_} _.
Arguments cEnd {_} _.
Arguments cIsMain {_} _.
Arguments cIsShareStack {_} _.
Arguments stack_mem {_} _.
Arguments stack_sp {_} _.
Arguments save_buffer {_} _.

(** The coroutines and stacks by address, [stShareStack_t] ([alloc_idx] and
    [stack_array]), the environment of the thread ([pCallStack] with its top
    first, [pending_co], [occupy_co]). *)
Record t (A : Type) : Type := State {
  cos : gmap nat (co A);
  stacks : gmap nat (stackmem A);
  alloc_idx : Z;
  stack_array : list nat;
  pCallStack : list nat;
  env_pending : option nat;
  env_occupy : option nat;
  kept : gmap nat (list A);
}.
Arguments State {_} _ _ _ _ _ _ _ _.
Arguments cos {_} _.
Arguments stacks {_} _.
Arguments alloc_idx {_} _.
Arguments stack_array {_} _.
Arguments pCallStack {_} _.
Arguments env_pending {_} _.
Arguments env_occupy {_} _.
Arguments kept {_} _.

Section swap.
Context {A : Type}.
Implicit Types (s : t A) (c q : nat) (x : co A).

Definition set_co c x s : t A :=
  State (<[c := x]> (cos s)) (stacks s) (alloc_idx s) (stack_array s) (pCallStack s) (env_pending s) (env_occupy s) (kept s).
Definition set_stack (k : nat) (st : stackmem A) s : t A :=
  State (cos s) (<[k := st]> (stacks s)) (alloc_idx s) (stack_array s) (pCallStack s) (env_pending s) (env_occupy s) (kept s).
Definition set_env (p o : option nat) s : t A :=
  State (cos s) (stacks s) (alloc_idx s) (stack_array s) (pCallStack s) p o (kept s).
Definition set_calls (l : list nat) s : t A :=
  State (cos s) (stacks s) (alloc_idx s) (stack_array s) l (env_pending s) (env_occupy s) (kept s).
Definition set_kept c (k : list A) s : t A :=
  State (cos s) (stacks s) (alloc_idx s) (stack_array s) (pCallStack s) (env_pending s) (env_occupy s) (<[c := k]> (kept s)).
Definition set_sp (n : nat) x : co A := Co (cStart x) (cEnd x) (cIsMain x) (cIsShareStack x) (stack_mem x) n (save_buffer x).
Definition set_buffer (b : option (list A)) x : co A := Co (cStart x) (cEnd x) (cIsMain x) (cIsShareStack x) (stack_mem x) (stack_sp x) b.
Definition set_start x : co A := Co true (cEnd x) (cIsMain x) (cIsShareStack x) (stack_mem x) (stack_sp x) (save_buffer x).
Definition set_end x : co A := Co (cStart x) true (cIsMain x) (cIsShareStack x) (stack_mem x) (stack_sp x) (save_buffer x).

(** [save_stack_buffer] *)
Definition save_stack_buffer q s : outcome (t A) :=
  x ← deref (cos s !! q);
  _ ← require (cIsMain x = false);
  st ← deref (stacks s !! stack_mem x);
  if bool_decide (stack_sp x ≤ length (mem st))%nat
  then Ok (set_co q (set_buffer (Some (take (stack_sp x) (mem st))) x) s) else Fault OutOfBounds.

(** [co_swap] up to [coctx_swap]: the current coroutine, which uses [n] cells of
    its stack, is left, and the stack of the pending one is taken. *)
Definition leave (curr n : nat) s : outcome (t A) :=
  x ← deref (cos s !! curr);
  st ← deref (stacks s !! stack_mem x);
  Ok (set_kept curr (take n (mem st)) (set_co curr (set_sp n x) s)).
Definition occupy (pending : nat) s : outcome (t A) :=
  p ← deref (cos s !! pending);
  if negb (cIsShareStack p) then Ok (set_env None None s) else
  st ← deref (stacks s !! stack_mem p);
  let s := set_env (Some pending) (occupy_co st) (set_stack (stack_mem p) (StackMem (Some pending) (mem st)) s) in
  match occupy_co st with
  | None => Ok s
  | Some q =>
    if bool_decide (q = pending) then Ok s else
    x ← deref (cos s !! q);
    if cEnd x then Ok (set_co q (set_buffer None x) s) else save_stack_buffer q s
  end.
(** From [coctx_swap] on, in the coroutine that was switched to. *)
Definition restore s : outcome (t A) :=
  match env_pending s with
  | None => Ok s
  | Some p =>
    if bool_decide (env_occupy s = Some p) then Ok s else
    x ← deref (cos s !! p);
    match save_buffer x with
    | None => Ok s
    | Some b =>
      if bool_decide (0 < length b)%nat then
        st ← deref (stacks s !! stack_mem x);
        if bool_decide (length b = stack_sp x ∧ length b ≤ length (mem st))%nat
        then Ok (set_stack (stack_mem x) (StackMem (occupy_co st) (b ++ drop (length b) (mem st))) s) else Fault OutOfBounds
      else Ok s
    end
  end.
(** [fresh]: the pending coroutine begins its function. *)
Definition co_swap (curr pending n : nat) (fresh : bool) s : outcome (t A) :=
  s ← leave curr n s;
  s ← occupy pending s;
  if fresh then Ok s else restore s.

Definition co_resume c (n : nat) s : outcome (t A) :=
  match pCallStack s with
  | [] => Fault OutOfBounds
  | lpCurrRoutine :: _ =>
    x ← deref (cos s !! c);
    let fresh := negb (cStart x) in
    let s := if fresh then set_co c (set_start x) s else s in
    if bool_decide (length (pCallStack s) < 128)%nat then co_swap lpCurrRoutine c n fresh (set_calls (c :: pCallStack s) s)
    else Fault OutOfBounds
  end.
Definition co_yield_env (n : nat) s : outcome (t A) :=
  match pCallStack s with
  | curr :: last :: l => co_swap curr last n false (set_calls (last :: l) s)
  | _ => Fault OutOfBounds
  end.
(** [CoRoutineFunc] from the end of the coroutine's function on. *)
Definition co_end (n : nat) s : outcome (t A) :=
  match pCallStack s with
  | [] => Fault OutOfBounds
  | c :: _ => x ← deref (cos s !! c); co_yield_env n (set_co c (set_end x) s)
  end.

(** [co_create_env]: the coroutine is allocated at [c]; with a stack of its own,
    this is allocated at [k] with the contents [m]. *)
Definition co_get_stackmem s : outcome (nat * t A) :=
  if bool_decide (stack_array s = []) then Fault DivByZero else
  let idx := Z.to_nat (alloc_idx s `mod` zlen (stack_array s)) in
  k ← deref (stack_array s !! idx);
  Ok (k, State (cos s) (stacks s) (u32 (alloc_idx s + 1)) (stack_array s) (pCallStack s) (env_pending s) (env_occupy s) (kept s)).
Definition co_create_env (share : bool) c (k : nat) (m : list A) s : outcome (t A) :=
  '(k, s) ← (if share then co_get_stackmem s else Ok (k, set_stack k (StackMem None m) s));
  Ok (set_co c (Co false false false share k 0 None) s).

Definition co_free c s : outcome (t A) :=
  x ← deref (cos s !! c);
  st ← deref (stacks s !! stack_mem x);
  let ss := if negb (cIsShareStack x) then delete (stack_mem x) (stacks s)
            else <[stack_mem x := StackMem (if bool_decide (occupy_co st = Some c) then None else occupy_co st) (mem st)]> (stacks s) in
  Ok (State (delete c (cos s)) ss (alloc_idx s) (stack_array s) (pCallStack s) (env_pending s) (env_occupy s) (delete c (kept s))).

(** The running coroutine works on its stack. *)
Definition run (m : list A) s : outcome (t A) :=
  match pCallStack s with
  | [] => Fault OutOfBounds
  | c :: _ =>
    x ← deref (cos s !! c);
    st ← deref (stacks s !! stack_mem x);
    Ok (set_stack (stack_mem x) (StackMem (occupy_co st) m) s)
  end.

(** The steps; [act] runs one. *)
Inductive label : Type :=
  | LCreate (share : bool) (c k : nat) (m : list A)
  | LRun (m : list A)
  | LResume (c n : nat)
  | LYield (n : nat)
  | LEnd (n : nat)
  | LFree (c : nat).
Definition act (l : label) s : outcome (t A) :=
  match l with
  | LCreate share c k m => co_create_env share c k m s
  | LRun m => run m s
  | LResume c n => co_resume c n s
  | LYield n => co_yield_env n s
  | LEnd n => co_end n s
  | LFree c => co_free c s
  end.
(** The running coroutine uses at most its whole stack. *)
Definition fits (n : nat) s : Prop := ∃ c x st, head (pCallStack s) = Some c ∧ cos s !! c = Some x ∧ stacks s !! stack_mem x = Some st ∧
  (n ≤ length (mem st))%nat.
(** How the library uses the coroutines: memory that is allocated is not in use;
    a coroutine is resumed when it has not ended and is not among the callers, of
    which there are at most 128; the first coroutine does not yield; a coroutine
    is freed when it is not among the callers. *)
Definition enabled (l : label) s : Prop :=
  match l with
  | LCreate share c k m => cos s !! c = None ∧ (if share then stack_array s ≠ [] else stacks s !! k = None)
  | LRun m => ∃ c x st, head (pCallStack s) = Some c ∧ cos s !! c = Some x ∧ stacks s !! stack_mem x = Some st ∧ length m = length (mem st)
  | LResume c n => (∃ x, cos s !! c = Some x ∧ cEnd x = false) ∧ (c ∉ pCallStack s) ∧ (length (pCallStack s) < 128)%nat ∧ fits n s
  | LYield n | LEnd n => (2 ≤ length (pCallStack s))%nat ∧ fits n s
  | LFree c => is_Some (cos s !! c) ∧ c ∉ pCallStack s
  end.
Definition step s s' : Prop := ∃ l, enabled l s ∧ act l s = Ok s'.

(** [co_init_curr_thread_env]: the first coroutine, on the stack 0; the shared
    stacks are at [1], [2], ... with the contents [ms]. *)
Definition init (m : list A) (ms : list (list A)) : t A :=
  State {[0%nat := Co true false true false 0 0 None]}
    (<[0%nat := StackMem None m]> (list_to_map (zip (seq 1 (length ms)) (StackMem None <$> ms))))
    0 (seq 1 (length ms)) [0%nat] None None ∅.

(** ** Invariant *)

(** What a coroutine that was switched away will find: on its stack, while it
    occupies it or owns it, and otherwise in its buffer. *)
Definition holds (ks : gmap nat (list A)) (ss : gmap nat (stackmem A)) c x : Prop := ∃ k st,
  ks !! c = Some k ∧ ss !! stack_mem x = Some st ∧ stack_sp x = length k ∧ (length k ≤ length (mem st))%nat ∧
  if cIsShareStack x && negb (bool_decide (occupy_co st = Some c)) then save_buffer x = Some k else take (length k) (mem st) = k.

(** [r] is running, if any; nothing is known of the stack of [ex]. *)
Record inv (r ex : option nat) s : Prop := {
  i_mem c x : cos s !! c = Some x → is_Some (stacks s !! stack_mem x);
  i_occ k st q : stacks s !! k = Some st → occupy_co st = Some q → ∃ x, cos s !! q = Some x ∧ stack_mem x = k ∧ cIsShareStack x = true ∧ cStart x = true;
  i_own c x c' x' : cos s !! c = Some x → cos s !! c' = Some x' → stack_mem x = stack_mem x' → cIsShareStack x = false → c = c';
  i_arr c x : cos s !! c = Some x → cIsShareStack x = true ↔ stack_mem x ∈ stack_array s;
  i_arr_mem k : k ∈ stack_array s → is_Some (stacks s !! k);
  i_main c x : cos s !! c = Some x → cIsMain x = true → cIsShareStack x = false;
  i_idx : 0 ≤ alloc_idx s;
  i_calls : NoDup (pCallStack s);
  i_live c : c ∈ pCallStack s → ∃ x, cos s !! c = Some x ∧ cStart x = true ∧ cEnd x = false;
  i_run c x st : r = Some c → cos s !! c = Some x → cIsShareStack x = true → stacks s !! stack_mem x = Some st → occupy_co st = Some c;
  i_kept c x : cos s !! c = Some x → cStart x = true → cEnd x = false → r ≠ Some c → ex ≠ Some c → holds (kept s) (stacks s) c x;
}.

(** Coroutines that have the same stack in the same way. *)
Definition same x x' : Prop :=
  cIsShareStack x' = cIsShareStack x ∧ stack_mem x' = stack_mem x ∧ cIsMain x' = cIsMain x ∧ (cStart x = true → cStart x' = true).

(** One coroutine changes, and what is kept of it. *)
Lemma inv_set_co r ex r' ex' c x x' ks s : inv r ex s → cos s !! c = Some x → same x x' →
  (∀ d, d ≠ c → ks !! d = kept s !! d) →
  (c ∈ pCallStack s → cStart x' = true ∧ cEnd x' = false) →
  (r' = None ∨ r' = r) → (∀ d, r' ≠ Some d → ex' ≠ Some d → d ≠ c → r ≠ Some d ∧ ex ≠ Some d) →
  (cStart x' = true → cEnd x' = false → r' ≠ Some c → ex' ≠ Some c → holds ks (stacks s) c x') →
  inv r' ex' (State (<[c := x']> (cos s)) (stacks s) (alloc_idx s) (stack_array s) (pCallStack s) (env_pending s) (env_occupy s) ks).
Proof.
  intros Hi Hc (E1 & E2 & E3 & E4) Hks Hl Hr Hr' Hh. destruct Hi. constructor; simpl; try done.
  - intros d y [(<- & <-)|[_ Hd]]%lookup_insert_Some; [rewrite E2; eauto|eauto].
  - intros k st q Hk Hq. destruct (i_occ0 k st q Hk Hq) as (y & Hy & Hm & Hs & Hstart). destruct (decide (c = q)) as [<-|].
    + exists x'. rewrite lookup_insert_eq. simplify_eq. split_and!; [done|congruence|congruence|auto].
    + exists y. by rewrite lookup_insert_ne.
  - intros d y d' y' [(<- & <-)|[_ Hd]]%lookup_insert_Some [(<- & <-)|[_ Hd']]%lookup_insert_Some; rewrite ?E1, ?E2; eauto.
  - intros d y [(<- & <-)|[_ Hd]]%lookup_insert_Some; [rewrite E1, E2; eauto|eauto].
  - intros d y [(<- & <-)|[_ Hd]]%lookup_insert_Some; [rewrite E1, E3; eauto|eauto].
  - intros d Hd. destruct (decide (c = d)) as [<-|]; [exists x'; rewrite lookup_insert_eq; destruct (Hl Hd); done|].
    rewrite lookup_insert_ne by done. eauto.
  - intros d y st Er [(<- & <-)|[_ Hd]]%lookup_insert_Some; destruct Hr as [->| ->]; try done; [rewrite E1, E2; eauto|eauto].
  - intros d y [(<- & <-)|[Hne Hd]]%lookup_insert_Some Hs He Hnr Hne'; [eauto|].
    destruct (Hr' d Hnr Hne') as [? ?]; [done|]. destruct (i_kept0 d y Hd) as (k & st & ? & ? & ? & ?); [done..|].
    exists k, st. by rewrite Hks.
Qed.

Lemma leave_ok ex curr n x st s : inv (Some curr) ex s → ex ≠ Some curr → cos s !! curr = Some x → stacks s !! stack_mem x = Some st →
  (n ≤ length (mem st))%nat → ∃ s', leave curr n s = Ok s' ∧ inv None ex s' ∧ pCallStack s' = pCallStack s ∧
  (∀ c, cos s' !! c = (if bool_decide (c = curr) then Some (set_sp n x) else cos s !! c)) ∧ (∀ c, c ≠ curr → kept s' !! c = kept s !! c) ∧
  stacks s' = stacks s.
Proof.
  intros Hi He Hx Hst Hn. unfold leave. rewrite Hx. simpl. rewrite Hst. simpl. eexists. split; [done|]. split_and!; [|done| | |done].
  - unfold set_kept, set_co. simpl. eapply (inv_set_co (Some curr) ex); [done|exact Hx|done| | |by left| |].
    + intros d Hd. by rewrite lookup_insert_ne.
    + intros Hc. destruct (i_live _ _ _ Hi curr Hc) as (y & ? & ? & ?). simplify_eq. done.
    + intros d _ Hd Hne. split; congruence.
    + intros _ _ _ _. exists (take n (mem st)), st. simpl. rewrite lookup_insert_eq, length_take_le by done. split_and!; [done..|].
      destruct (cIsShareStack x) eqn:Es; simpl; [|done].
      rewrite (i_run _ _ _ Hi curr x st) by done. by rewrite bool_decide_true by done.
  - intros c. simpl. case_bool_decide; [subst c; by rewrite lookup_insert_eq|by rewrite lookup_insert_ne].
  - intros c Hne. simpl. by rewrite lookup_insert_ne.
Qed.

(** The environment is not part of the invariant. *)
Lemma inv_set_env r ex p o s : inv r ex s → inv r ex (set_env p o s).
Proof. intros []. by constructor. Qed.

(** The running coroutine changes its stack. *)
Lemma inv_set_mem ex c x st m s : inv (Some c) ex s → cos s !! c = Some x → stacks s !! stack_mem x = Some st → length m = length (mem st) →
  inv (Some c) ex (set_stack (stack_mem x) (StackMem (occupy_co st) m) s).
Proof.
  intros Hi Hx Hst Hm. pose proof (i_own _ _ _ Hi) as Hown. pose proof (i_arr _ _ _ Hi) as Harr. pose proof (i_run _ _ _ Hi c x st eq_refl Hx) as Hrun.
  destruct Hi. constructor; simpl; try done.
  - intros d y Hd. destruct (decide (stack_mem x = stack_mem y)) as [->|]; [by rewrite lookup_insert_eq|]. rewrite lookup_insert_ne by done. eauto.
  - intros k st' q [(<- & <-)|[_ Hk]]%lookup_insert_Some; simpl; eauto.
  - intros k Hk. destruct (decide (stack_mem x = k)) as [->|]; [by rewrite lookup_insert_eq|]. rewrite lookup_insert_ne by done. eauto.
  - intros d y st' [= <-] Hd Hs. simplify_eq. rewrite lookup_insert_eq. intros [= <-]. simpl. eauto.
  - intros d y Hd Hs He Hr Hex. destruct (i_kept0 d y Hd Hs He Hr Hex) as (k & st' & Hk & Hs' & Hsp & Hlen & Hin).
    destruct (decide (stack_mem x = stack_mem y)) as [E|E]; [|exists k, st'; rewrite lookup_insert_ne; done].
    assert (c ≠ d) as Hcd by congruence. assert (cIsShareStack x = true) as Hsx.
    { destruct (cIsShareStack x) eqn:Esx; [done|]. exfalso. apply Hcd. by eapply Hown. }
    assert (cIsShareStack y = true) as Hsy by (apply (Harr d y Hd); rewrite <-E; by apply (Harr c x Hx)).
    exists k. rewrite <-E in *. rewrite Hst in Hs'. injection Hs' as <-. eexists. rewrite lookup_insert_eq. split_and!; [done..| |].
    + simpl. lia.
    + simpl. rewrite Hsy, (Hrun Hsx Hst), bool_decide_false in * by congruence. done.
Qed.

(** The stack of [p] gets a new occupant; nothing is known of the old one. *)
Lemma inv_claim ex pending p st s : inv None ex s → ex = None ∨ ex = Some pending → cos s !! pending = Some p → cIsShareStack p = true →
  cStart p = true → stacks s !! stack_mem p = Some st →
  inv (Some pending) (occupy_co st) (set_stack (stack_mem p) (StackMem (Some pending) (mem st)) s).
Proof.
  intros Hi Hex Hp Hs Hstart Hst. pose proof (i_arr _ _ _ Hi) as Harr. destruct Hi. constructor; simpl; try done.
  - intros d y Hd. destruct (decide (stack_mem p = stack_mem y)) as [->|]; [by rewrite lookup_insert_eq|]. rewrite lookup_insert_ne by done. eauto.
  - intros k st' q [(<- & <-)|[_ Hk]]%lookup_insert_Some; simpl; [intros [= <-]; eauto|eauto].
  - intros k Hk. destruct (decide (stack_mem p = k)) as [->|]; [by rewrite lookup_insert_eq|]. rewrite lookup_insert_ne by done. eauto.
  - intros d y st' [= <-] Hd _. simplify_eq. rewrite lookup_insert_eq. by intros [= <-].
  - intros d y Hd Hsd He Hr Hne. destruct (i_kept0 d y Hd Hsd He) as (k & st' & Hk & Hs' & Hsp & Hlen & Hin); [done|destruct Hex; congruence|].
    destruct (decide (stack_mem p = stack_mem y)) as [E|E]; [|exists k, st'; rewrite lookup_insert_ne; done].
    exists k. rewrite <-E in *. rewrite Hst in Hs'. injection Hs' as <-. eexists. rewrite lookup_insert_eq. split_and!; [done..|]. simpl.
    assert (cIsShareStack y = true) as Hsy by (apply (Harr d y Hd); rewrite <-E; by apply (Harr pending p Hp)).
    rewrite Hsy, (bool_decide_false (occupy_co st = Some d)) in Hin by done. rewrite Hsy, bool_decide_false by congruence. done.
Qed.

Lemma inv_weaken r ex s : inv r None s → inv r ex s.
Proof. intros []. constructor; try done. intros c x ???? _. by apply i_kept0. Qed.

Lemma occupy_ok ex pending p s : inv None ex s → ex = None ∨ ex = Some pending → cos s !! pending = Some p → cStart p = true →
  ∃ s', occupy pending s = Ok s' ∧ inv (Some pending) None s' ∧ pCallStack s' = pCallStack s ∧ kept s' = kept s ∧ cos s' !! pending = Some p ∧
    (if cIsShareStack p then ∃ st, stacks s !! stack_mem p = Some st ∧ stacks s' !! stack_mem p = Some (StackMem (Some pending) (mem st)) ∧
       env_pending s' = Some pending ∧ env_occupy s' = occupy_co st
     else stacks s' = stacks s ∧ env_pending s' = None).
Proof.
  intros Hi Hex Hp Hstart. unfold occupy. rewrite Hp. simpl. destruct (cIsShareStack p) eqn:Es; simpl.
  2: { eexists. split; [done|]. split_and!; try done. apply inv_set_env. pose proof Hi as []. constructor; try done.
       - intros c x st [= <-] Hx Hsx. congruence.
       - intros c x Hc Hs He Hr _. apply i_kept0; try done. destruct Hex; congruence. }
  destruct (i_mem _ _ _ Hi pending p Hp) as [st Hst]. rewrite Hst. simpl. pose proof (inv_claim ex pending p st s Hi Hex Hp Es Hstart Hst) as Hc.
  destruct (occupy_co st) as [q|] eqn:Eo.
  2: { eexists. split; [done|]. split_and!; try done; [by apply inv_set_env|]. exists st. simpl. rewrite lookup_insert_eq. by split_and!. }
  destruct (decide (q = pending)) as [->|Hq].
  { rewrite bool_decide_true by done. eexists. split; [done|]. split_and!; try done.
    - apply inv_set_env. destruct Hc. constructor; try done. intros c x ??? Hr _. apply i_kept0; try done.
    - exists st. simpl. rewrite lookup_insert_eq. by split_and!. }
  rewrite bool_decide_false by done. destruct (i_occ _ _ _ Hi _ _ _ Hst Eo) as (x & Hx & Hxm & Hxs & Hxst). rewrite Hx. simpl.
  assert (∀ b, (cEnd x = false → b = Some (take (stack_sp x) (mem st))) → ∃ s', Ok (set_co q (set_buffer b x)
      (set_env (Some pending) (Some q) (set_stack (stack_mem p) (StackMem (Some pending) (mem st)) s))) = Ok s' ∧
    inv (Some pending) None s' ∧ pCallStack s' = pCallStack s ∧ kept s' = kept s ∧ cos s' !! pending = Some p ∧
    ∃ st0, Some st = Some st0 ∧ stacks s' !! stack_mem p = Some (StackMem (Some pending) (mem st0)) ∧ env_pending s' = Some pending ∧ env_occupy s' = occupy_co st0) as Hset.
  { intros b Hb. eexists. split; [done|]. split_and!; try done.
    - refine (inv_set_co (Some pending) (Some q) (Some pending) None q x (set_buffer b x) (kept s)
        (set_env (Some pending) (Some q) (set_stack (stack_mem p) (StackMem (Some pending) (mem st)) s)) (inv_set_env _ _ _ _ _ Hc) Hx _ _ _ (or_intror eq_refl) _ _);
        [done|done|..].
      + intros Hl. destruct (i_live _ _ _ Hi q Hl) as (y & ? & ? & ?). simplify_eq. done.
      + intros d ? _ ?. split; congruence.
      + intros Hs' He _ _. simpl in *. destruct (i_kept _ _ _ Hi q x Hx Hs' He) as (k & st' & Hk & Hs & Hsp & Hlen & Hin); [done|destruct Hex; congruence|].
        rewrite Hxm, Hst in Hs. injection Hs as <-. exists k. eexists. simpl. rewrite Hxm, lookup_insert_eq. split_and!; [done..|]. simpl.
        rewrite Hxs, bool_decide_false by congruence. simpl. rewrite Eo, bool_decide_true, andb_false_r in Hin by done.
        rewrite Hb, Hsp by done. congruence.
    - simpl. by rewrite lookup_insert_ne.
    - exists st. simpl. rewrite lookup_insert_eq. by split_and!. }
  destruct (cEnd x) eqn:Ee; [by apply Hset|]. unfold save_stack_buffer. simpl. rewrite Hx. simpl.
  rewrite require_true by (destruct (cIsMain x) eqn:Em; [|done]; pose proof (i_main _ _ _ Hi q x Hx Em); congruence). simpl.
  rewrite Hxm, lookup_insert_eq. simpl. rewrite bool_decide_true; [by apply Hset|].
  destruct (i_kept _ _ _ Hi q x Hx Hxst Ee) as (k & st' & _ & Hs & -> & Hlen & _); [done|destruct Hex; congruence|]. congruence.
Qed.

(** What [co_swap] promises the coroutine it switches to: the invariant holds with
    it running, and its stack is as it was. *)
Definition back s s' (pending : nat) : Prop := ∀ k, kept s !! pending = Some k →
  ∃ p st, cos s' !! pending = Some p ∧ stacks s' !! stack_mem p = Some st ∧ take (length k) (mem st) = k.

Lemma restore_ok pending p s s1 : inv None None s → cos s !! pending = Some p → cStart p = true → cEnd p = false →
  occupy pending s = Ok s1 → ∃ s', restore s1 = Ok s' ∧ inv (Some pending) None s' ∧ pCallStack s' = pCallStack s ∧ back s s' pending.
Proof.
  intros Hi Hp Hs He Ho. destruct (occupy_ok None pending p s Hi (or_introl eq_refl) Hp Hs) as (s2 & E & Hi1 & Hcs & Hk & Hp1 & Hcase).
  assert (s2 = s1) as -> by congruence. clear E. destruct (i_kept _ _ _ Hi pending p Hp Hs He) as (k & st & Hkp & Hst & Hsp & Hlen & Hin); [done|done|].
  unfold restore. destruct (cIsShareStack p) eqn:Esh; simpl in Hin.
  2: { destruct Hcase as [E1 E2]. rewrite E2. exists s1. split_and!; [done..|]. intros k' Hk'. exists p, st. simplify_eq. by rewrite E1. }
  destruct Hcase as (st' & Hst' & Hst1 & Hpe & Hoc). assert (st' = st) as -> by congruence. rewrite Hpe, Hoc. destruct (decide (occupy_co st = Some pending)) as [E|E].
  { rewrite bool_decide_true in * by done. exists s1. split_and!; [done..|]. intros k' Hk'. exists p, (StackMem (Some pending) (mem st)). simplify_eq. done. }
  rewrite bool_decide_false in * by done. simpl in Hin. rewrite Hp1. simpl. rewrite Hin. destruct (decide (0 < length k)%nat) as [Hpos|Hpos].
  - rewrite bool_decide_true by done. rewrite Hst1. simpl. rewrite bool_decide_true by done. eexists. split; [done|].
    split_and!; [|done|].
    + refine (inv_set_mem None pending p _ _ s1 Hi1 Hp1 Hst1 _). simpl. rewrite length_app, length_drop. lia.
    + intros k' Hk'. simplify_eq. exists p. eexists. simpl. rewrite lookup_insert_eq. split_and!; [done..|]. simpl. by rewrite take_app_length.
  - rewrite bool_decide_false by done. exists s1. split_and!; [done..|]. intros k' Hk'. simplify_eq. exists p. eexists. split_and!; [done..|].
    by destruct k; [|simpl in Hpos; lia].
Qed.

Lemma co_swap_ok curr pending n (fresh : bool) x st p s : inv (Some curr) (if fresh then Some pending else None) s → curr ≠ pending →
  cos s !! curr = Some x → stacks s !! stack_mem x = Some st → (n ≤ length (mem st))%nat →
  cos s !! pending = Some p → cStart p = true → cEnd p = false →
  ∃ s', co_swap curr pending n fresh s = Ok s' ∧ inv (Some pending) None s' ∧ pCallStack s' = pCallStack s ∧ (fresh = false → back s s' pending).
Proof.
  intros Hi Hne Hx Hst Hn Hp Hs He.
  destruct (leave_ok (if fresh then Some pending else None) curr n x st s Hi) as (s1 & E1 & Hi1 & Hc1 & Hco & Hk1 & _); [destruct fresh; congruence|done..|].
  unfold co_swap. rewrite E1. simpl. assert (cos s1 !! pending = Some p) as Hp1 by (rewrite Hco, bool_decide_false by done; done).
  destruct fresh.
  - destruct (occupy_ok (Some pending) pending p s1 Hi1 (or_intror eq_refl) Hp1 Hs) as (s2 & E2 & Hi2 & Hc2 & _). rewrite E2. simpl.
    exists s2. split_and!; [done|done|congruence|done].
  - destruct (occupy_ok None pending p s1 Hi1 (or_introl eq_refl) Hp1 Hs) as (s2 & E2 & _). rewrite E2. simpl.
    destruct (restore_ok pending p s1 s2 Hi1 Hp1 Hs He E2) as (s3 & E3 & Hi3 & Hc3 & Hb). exists s3. split_and!; [done|done|congruence|].
    intros _ k Hk. apply Hb. by rewrite Hk1.
Qed.

(** Between steps the top of the stack of calls runs. *)
Definition sinv s : Prop := inv (head (pCallStack s)) None s ∧ pCallStack s ≠ [].

Lemma inv_set_calls r ex l s : inv r ex s → NoDup l → (∀ c, c ∈ l → ∃ x, cos s !! c = Some x ∧ cStart x = true ∧ cEnd x = false) →
  inv r ex (set_calls l s).
Proof. intros [] ??. by constructor. Qed.

Lemma resume_ok c n s : sinv s → enabled (LResume c n) s → ∃ s', co_resume c n s = Ok s' ∧ sinv s' ∧ pCallStack s' = c :: pCallStack s ∧
  (∀ x, cos s !! c = Some x → cStart x = true → back s s' c).
Proof.
  intros [Hi Hne] ((x & Hx & He) & Hni & Hlen & (d & y & st & Hd & Hy & Hst & Hn)). unfold co_resume.
  destruct (pCallStack s) as [|d' l] eqn:Ecs; [done|]. simpl in Hd. injection Hd as ->. rewrite Hx. simpl.
  assert (c ≠ d) as Hcd by (intros ->; apply Hni; by left). destruct (cStart x) eqn:Es; simpl.
  - rewrite Ecs. rewrite bool_decide_true by done.
    destruct (co_swap_ok d c n false y st x (set_calls (c :: d :: l) s)) as (s' & E & Hi' & Hcs & Hb); try done.
    + simpl in Hi. apply inv_set_calls; [done| |].
      * apply NoDup_cons. split; [done|]. rewrite <-Ecs. apply Hi.
      * intros e [->|Hin]%elem_of_cons; [eauto|]. apply (i_live _ _ _ Hi). by rewrite Ecs.
    + exists s'. rewrite E. simpl in Hcs. split_and!; [done|split; rewrite Hcs; done|done|]. intros z Hz _. by apply Hb.
  - rewrite Ecs. rewrite bool_decide_true by done.
    destruct (co_swap_ok d c n true y st (set_start x) (set_calls (c :: d :: l) (set_co c (set_start x) s))) as (s' & E & Hi' & Hcs & _); try done.
    + apply inv_set_calls.
      * refine (inv_set_co (Some d) None (Some d) (Some c) c x (set_start x) (kept s) s Hi Hx _ _ _ (or_intror eq_refl) _ _); try done.
      * apply NoDup_cons. split; [done|]. rewrite <-Ecs. apply Hi.
      * simpl. intros e [->|Hin]%elem_of_cons; [exists (set_start x); by rewrite lookup_insert_eq|].
        rewrite lookup_insert_ne by (intros ->; done). apply (i_live _ _ _ Hi). by rewrite Ecs.
    + simpl. by rewrite lookup_insert_ne.
    + simpl. by rewrite lookup_insert_eq.
    + exists s'. rewrite E. simpl in Hcs. split_and!; [done|split; rewrite Hcs; done|done|]. intros z Hz ?. congruence.
Qed.

(** [co_yield_env] of the running coroutine [d], which may have ended. *)
Lemma yield_ok d e l n y st s : inv (Some d) None (set_calls (e :: l) s) → pCallStack s = d :: e :: l → d ≠ e → cos s !! d = Some y →
  stacks s !! stack_mem y = Some st → (n ≤ length (mem st))%nat → ∃ s', co_yield_env n s = Ok s' ∧ sinv s' ∧ pCallStack s' = e :: l ∧ back s s' e.
Proof.
  intros Hi Ecs Hne Hy Hst Hn. unfold co_yield_env. rewrite Ecs. destruct (i_live _ _ _ Hi e) as (x & Hx & Hs & He); [by left|].
  destruct (co_swap_ok d e n false y st x (set_calls (e :: l) s)) as (s' & E & Hi' & Hcs & Hb); try done.
  exists s'. rewrite E. simpl in Hcs. split_and!; [done|split; rewrite Hcs; done|done|]. by apply Hb.
Qed.
(** The callers of the running coroutine. *)
Lemma calls_below n s : sinv s → (2 ≤ length (pCallStack s))%nat → fits n s → ∃ d e l y st, pCallStack s = d :: e :: l ∧ d ≠ e ∧ (d ∉ e :: l) ∧
  cos s !! d = Some y ∧ stacks s !! stack_mem y = Some st ∧ (n ≤ length (mem st))%nat ∧ inv (Some d) None (set_calls (e :: l) s).
Proof.
  intros [Hi _] Hlen (d & y & st & Hd & Hy & Hst & Hn). destruct (pCallStack s) as [|d' [|e l]] eqn:Ecs; simpl in Hlen; [lia|lia|].
  simpl in Hd. injection Hd as ->. pose proof (i_calls _ _ _ Hi) as Hnd. rewrite Ecs in Hnd. apply NoDup_cons in Hnd as [Hni Hnd].
  exists d, e, l, y, st. split_and!; try done; [intros ->; apply Hni; by left|]. apply inv_set_calls; [done|done|].
  intros c Hc. apply (i_live _ _ _ Hi). rewrite Ecs. by right.
Qed.

Lemma end_ok n s : sinv s → enabled (LEnd n) s → ∃ s' e l, co_end n s = Ok s' ∧ sinv s' ∧ pCallStack s' = e :: l ∧ back s s' e ∧
  ∃ d, pCallStack s = d :: e :: l.
Proof.
  intros Hs [Hlen Hf]. destruct (calls_below n s Hs Hlen Hf) as (d & e & l & y & st & Ecs & Hne & Hni & Hy & Hst & Hn & Hi).
  unfold co_end. rewrite Ecs, Hy. simpl.
  destruct (yield_ok d e l n (set_end y) st (set_co d (set_end y) s)) as (s' & E & Hi' & Hcs & Hb); try done.
  - refine (inv_set_co (Some d) None (Some d) None d y (set_end y) (kept s) (set_calls (e :: l) s) Hi Hy _ _ _ (or_intror eq_refl) _ _); try done.
  - simpl. by rewrite lookup_insert_eq.
  - exists s', e, l. rewrite E. split_and!; [done..|]. by exists d.
Qed.

(** Creating a coroutine. *)
Lemma inv_new_stack r k m s : inv r None s → stacks s !! k = None → inv r None (set_stack k (StackMem None m) s).
Proof.
  intros Hi Hk. assert (∀ c x, cos s !! c = Some x → k ≠ stack_mem x) as Hne.
  { intros c x Hc ->. destruct (i_mem _ _ _ Hi c x Hc). congruence. }
  destruct Hi. constructor; simpl; try done.
  - intros c x Hc. rewrite lookup_insert_ne by eauto. eauto.
  - intros k' st q [(<- & <-)|[_ H]]%lookup_insert_Some; [done|eauto].
  - intros k' Hin. destruct (decide (k = k')) as [->|]; [by rewrite lookup_insert_eq|]. rewrite lookup_insert_ne by done. eauto.
  - intros c x st Hr Hc Hs. rewrite lookup_insert_ne by eauto. eauto.
  - intros c x Hc ????. destruct (i_kept0 c x Hc) as (y & st & ? & ? & ?); [done..|]. exists y, st. rewrite lookup_insert_ne by eauto. done.
Qed.
Lemma inv_new_co r share c k s : inv r None s → cos s !! c = None → is_Some (stacks s !! k) → (share = true ↔ k ∈ stack_array s) →
  (share = false → ∀ d y, cos s !! d = Some y → stack_mem y ≠ k) → r ≠ Some c → inv r None (set_co c (Co false false false share k 0 None) s).
Proof.
  intros Hi Hc Hk Hsh Hown Hrc. destruct Hi. constructor; simpl; try done.
  - intros d x [(<- & <-)|[_ Hd]]%lookup_insert_Some; simpl; eauto.
  - intros k' st q Hk' Hq. destruct (i_occ0 k' st q Hk' Hq) as (x & Hx & ?). exists x. rewrite lookup_insert_ne by congruence. done.
  - intros d x d' x' [(<- & <-)|[_ Hd]]%lookup_insert_Some [(<- & <-)|[_ Hd']]%lookup_insert_Some; simpl; [done| | |eauto].
    + intros E Es. exfalso. by apply (Hown Es d' x').
    + intros E Es. exfalso. destruct share; [|by apply (Hown eq_refl d x)]. assert (cIsShareStack x = true) as E'; [|congruence].
      apply (i_arr0 d x Hd). rewrite E. by apply Hsh.
  - intros d x [(<- & <-)|[_ Hd]]%lookup_insert_Some; simpl; [done|eauto].
  - intros d x [(<- & <-)|[_ Hd]]%lookup_insert_Some; simpl; [done|eauto].
  - intros d Hd. destruct (i_live0 d Hd) as (x & Hx & ?). exists x. rewrite lookup_insert_ne by congruence. done.
  - intros d x st Hr [(<- & <-)|[_ Hd]]%lookup_insert_Some Hs Hst; simpl in *; [done|eauto].
  - intros d x [(<- & <-)|[_ Hd]]%lookup_insert_Some; simpl; [done|eauto].
Qed.

Lemma create_ok share c k m s : sinv s → enabled (LCreate share c k m) s → ∃ s', co_create_env share c k m s = Ok s' ∧ sinv s' ∧ pCallStack s' = pCallStack s.
Proof.
  intros [Hi Hne] [Hc Hk]. assert (head (pCallStack s) ≠ Some c) as Hrc.
  { intros E. destruct (i_live _ _ _ Hi c) as (x & ? & _); [|congruence]. destruct (pCallStack s); [done|]. injection E as ->. by left. }
  unfold co_create_env. destruct share; simpl in *.
  - unfold co_get_stackmem. rewrite bool_decide_false by done. assert (0 < zlen (stack_array s)) as Hl.
    { destruct (stack_array s); [done|]. rewrite zlen_cons. pose proof (zlen_nonneg l). lia. }
    destruct (lookup_lt_is_Some_2 (stack_array s) (Z.to_nat (alloc_idx s `mod` zlen (stack_array s)))) as [k' Hk'].
    { pose proof (Z.mod_pos_bound (alloc_idx s) _ Hl). unfold zlen in *. lia. }
    rewrite Hk'. simpl. eexists. split; [done|]. split; [|done]. split; [|done]. apply list_elem_of_lookup_2 in Hk'.
    set (s1 := State _ _ _ _ _ _ _ _). assert (inv (head (pCallStack s)) None s1) as Hi1.
    { destruct Hi. constructor; try done. simpl. pose proof (u32_range (alloc_idx s + 1)). lia. }
    apply inv_new_co; try done. by apply (i_arr_mem _ _ _ Hi).
  - eexists. split; [done|]. split; [|done]. split; [|done]. apply inv_new_co; [by apply inv_new_stack|done|simpl; by rewrite lookup_insert_eq| | |done].
    + split; [done|]. intros Hin. destruct (i_arr_mem _ _ _ Hi k Hin). congruence.
    + intros _ d y Hd E. destruct (i_mem _ _ _ Hi d y Hd). congruence.
Qed.

(** Freeing a coroutine that is not among the callers. *)
Lemma free_ok c s : sinv s → enabled (LFree c) s → ∃ s', co_free c s = Ok s' ∧ sinv s' ∧ pCallStack s' = pCallStack s.
Proof.
  intros [Hi Hne] [[x Hx] Hni]. unfold co_free. rewrite Hx. simpl. destruct (i_mem _ _ _ Hi c x Hx) as [st Hst]. rewrite Hst. simpl.
  eexists. split; [done|]. split; [|done]. split; [|done]. simpl. destruct (cIsShareStack x) eqn:Es; simpl.
  - pose proof (i_arr _ _ _ Hi) as Harr. destruct Hi. constructor; simpl; try done.
    + intros d y [Hd Hy]%lookup_delete_Some. destruct (decide (stack_mem x = stack_mem y)) as [->|]; [by rewrite lookup_insert_eq|].
      rewrite lookup_insert_ne by done. eauto.
    + intros k st' q [(<- & <-)|[Hk1 Hk]]%lookup_insert_Some; simpl; [case_bool_decide as E; [done|]|]; intros Hq.
      * destruct (i_occ0 _ _ _ Hst Hq) as (y & Hy & ?). exists y. rewrite lookup_delete_ne by congruence. done.
      * destruct (i_occ0 _ _ _ Hk Hq) as (y & Hy & Hm & Hs & ?). exists y. rewrite lookup_delete_ne; [done|]. intros ->. congruence.
    + intros d y d' y' [_ Hd]%lookup_delete_Some [_ Hd']%lookup_delete_Some. eauto.
    + intros d y [_ Hd]%lookup_delete_Some. eauto.
    + intros k Hk. destruct (decide (stack_mem x = k)) as [->|]; [by rewrite lookup_insert_eq|]. rewrite lookup_insert_ne by done. eauto.
    + intros d y [_ Hd]%lookup_delete_Some. eauto.
    + intros d Hd. rewrite lookup_delete_ne by (intros ->; done). eauto.
    + intros d y st' Hr [Hd Hy]%lookup_delete_Some Hs. intros [(E & <-)|[_ Hk]]%lookup_insert_Some; [|eauto]. simpl.
      rewrite E in Hst. pose proof (i_run0 d y st Hr Hy Hs Hst) as Ho. rewrite Ho. by rewrite bool_decide_false by congruence.
    + intros d y [Hd Hy]%lookup_delete_Some Hs He Hr _. destruct (i_kept0 d y Hy Hs He Hr) as (k & st' & Hk & Hs' & Hsp & Hlen & Hin); [done|].
      destruct (decide (stack_mem x = stack_mem y)) as [E|E]; [|exists k, st'; rewrite ?lookup_delete_ne, ?lookup_insert_ne by done; done].
      exists k. rewrite <-E in *. assert (st' = st) as -> by congruence. eexists. rewrite lookup_delete_ne, lookup_insert_eq by done. split_and!; [done..|]. simpl.
      destruct (decide (occupy_co st = Some c)) as [Eo|Eo].
      * rewrite (bool_decide_true (_ = Some c)) by done. rewrite Eo, bool_decide_false in Hin by congruence. rewrite bool_decide_false by done. done.
      * by rewrite (bool_decide_false (_ = Some c)) by done.
  - pose proof (i_own _ _ _ Hi) as Hown. assert (∀ d y, d ≠ c → cos s !! d = Some y → stack_mem x ≠ stack_mem y) as Hst'.
    { intros d y Hd Hy E. apply Hd. symmetry. by eapply (Hown c x d y). }
    assert (stack_mem x ∉ stack_array s) as Harr by (intros Hin; apply (i_arr _ _ _ Hi c x Hx) in Hin; congruence).
    destruct Hi. constructor; simpl; try done.
    + intros d y [Hd Hy]%lookup_delete_Some. rewrite lookup_delete_ne by eauto. eauto.
    + intros k st' q [Hk1 Hk]%lookup_delete_Some Hq. destruct (i_occ0 _ _ _ Hk Hq) as (y & Hy & Hm & Hs & ?). exists y.
      rewrite lookup_delete_ne; [done|]. intros ->. congruence.
    + intros d y d' y' [_ Hd]%lookup_delete_Some [_ Hd']%lookup_delete_Some. eauto.
    + intros d y [_ Hd]%lookup_delete_Some. eauto.
    + intros k Hk. rewrite lookup_delete_ne by congruence. eauto.
    + intros d y [_ Hd]%lookup_delete_Some. eauto.
    + intros d Hd. rewrite lookup_delete_ne by (intros ->; done). eauto.
    + intros d y st' Hr [Hd Hy]%lookup_delete_Some Hs. rewrite lookup_delete_ne by eauto. eauto.
    + intros d y [Hd Hy]%lookup_delete_Some Hs He Hr _. destruct (i_kept0 d y Hy Hs He Hr) as (k & st' & Hk & Hs' & ?); [done|].
      exists k, st'. rewrite !lookup_delete_ne by eauto. done.
Qed.

(** Every step succeeds, and a coroutine that was switched away before finds its
    stack as it was when it runs again. *)
Lemma switch_ok l s : sinv s → enabled l s → ∃ s', act l s = Ok s' ∧ sinv s' ∧
  ∀ c x, head (pCallStack s') = Some c → head (pCallStack s) ≠ Some c → cos s !! c = Some x → cStart x = true →
    cEnd x = false ∧ back s s' c.
Proof.
  intros Hs He. destruct l as [share c k m|m|c n|n|n|c]; simpl act.
  - destruct (create_ok share c k m s Hs He) as (s' & ? & ? & E). exists s'. split_and!; [done..|]. intros d x. by rewrite E.
  - destruct He as (c & x & st & Hc & Hx & Hst & Hm). destruct Hs as [Hi Hne]. unfold run. destruct (pCallStack s) as [|c' l] eqn:Ecs; [done|].
    injection Hc as ->. rewrite Hx. simpl. rewrite Hst. simpl. eexists. split; [done|]. split.
    + split; simpl; rewrite Ecs; [|done]. by apply inv_set_mem.
    + intros d y. simpl. by rewrite Ecs.
  - destruct (resume_ok c n s Hs He) as (s' & ? & ? & E & Hb). exists s'. split_and!; [done..|]. intros d x. rewrite E.
    intros [= <-] _ Hx Hst. destruct He as ((y & Hy & He) & _). split; [congruence|eauto].
  - destruct He as [Hlen Hf]. destruct (calls_below n s Hs Hlen Hf) as (d & e & l & y & st & Ecs & Hne & Hni & Hy & Hst & Hn & Hi).
    destruct (yield_ok d e l n y st s Hi Ecs Hne Hy Hst Hn) as (s' & ? & ? & E & Hb). exists s'. split_and!; [done..|]. intros c x. rewrite E.
    intros [= <-] _ Hx _. split; [|done]. destruct (i_live _ _ _ Hi e) as (z & ? & _ & ?); [by left|]. simpl in *. congruence.
  - destruct (end_ok n s Hs He) as (s' & e & l & ? & ? & E & Hb & d & Ecs). exists s'. split_and!; [done..|]. intros c x. rewrite E.
    intros [= <-] _ Hx _. split; [|done]. destruct Hs as [Hi _]. destruct (i_live _ _ _ Hi e) as (z & ? & _ & ?); [rewrite Ecs; right; by left|]. congruence.
  - destruct (free_ok c s Hs He) as (s' & ? & ? & E). exists s'. split_and!; [done..|]. intros d x. by rewrite E.
Qed.

Lemma init_sinv m ms : sinv (init m ms).
Proof.
  assert (∀ k st, list_to_map (M := gmap nat (stackmem A)) (zip (seq 1 (length ms)) (StackMem None <$> ms)) !! k = Some st → occupy_co st = None) as Hocc.
  { intros k st Hk%elem_of_list_to_map_2. apply elem_of_zip_r in Hk. apply list_elem_of_fmap in Hk as (b & -> & _). done. }
  split; [|done]. constructor; simpl.
  - intros c x [<- <-]%lookup_singleton_Some. simpl. by rewrite lookup_insert_eq.
  - intros k st q [(<- & <-)|[_ Hk]]%lookup_insert_Some; [done|]. rewrite (Hocc k st Hk). done.
  - intros c x c' x' [<- <-]%lookup_singleton_Some [<- <-]%lookup_singleton_Some. done.
  - intros c x [<- <-]%lookup_singleton_Some. simpl. rewrite elem_of_seq. split; [done|lia].
  - intros k Hk%elem_of_seq. rewrite lookup_insert_ne by lia. apply elem_of_dom. rewrite dom_list_to_map, elem_of_list_to_set, fst_zip.
    + apply elem_of_seq. lia.
    + by rewrite length_fmap, length_seq.
  - intros c x [<- <-]%lookup_singleton_Some. done.
  - done.
  - apply NoDup_singleton.
  - intros c ->%list_elem_of_singleton. eexists. by rewrite lookup_singleton_eq.
  - intros c x st [= <-] [_ <-]%lookup_singleton_Some. done.
  - intros c x [<- <-]%lookup_singleton_Some. done.
Qed.
Lemma switch_reach m ms s : reach step (init m ms) s → sinv s.
Proof.
  apply reach_invariant; [apply init_sinv|]. intros s1 s2 Hs (l & He & Ha). destruct (switch_ok l s1 Hs He) as (s' & E & Hs' & _).
  assert (s2 = s') as -> by congruence. done.
Qed.

(** C4 (stacks_kept).  Coroutines are created on shared stacks and on stacks of
    their own, work on their stacks, resume each other, yield, end and are freed,
    in any order.  No step faults (no assertion fails, no buffer is overrun, no
    freed coroutine is used); and whenever a coroutine that was switched away runs
    again, the part of its stack that was in use is what it was, whatever the
    coroutines that have used the same stack in between have done to it. *)
Theorem stacks_kept m ms l s : reach step (init m ms) s → enabled l s → ∃ s', act l s = Ok s' ∧
  ∀ c x, head (pCallStack s') = Some c → head (pCallStack s) ≠ Some c → cos s !! c = Some x → cStart x = true →
  ∃ k x' st, kept s !! c = Some k ∧ stack_sp x = length k ∧ cos s' !! c = Some x' ∧ stacks s' !! stack_mem x' = Some st ∧ take (length k) (mem st) = k.
Proof.
  intros Hs%switch_reach He. destruct (switch_ok l s Hs He) as (s' & Ha & Hs' & Hb). exists s'. split; [done|]. intros c x Hc Hne Hx Hst.
  destruct (Hb c x Hc Hne Hx Hst) as [Hend Hback]. destruct Hs as [Hi _]. destruct (i_kept _ _ _ Hi c x Hx Hst Hend) as (k & st & Hk & _ & Hsp & _); [done|done|].
  destruct (Hback k Hk) as (x' & st' & ? & ? & ?). exists k, x', st'. done.
Qed.

(** [co_resume] does not look whether [pCallStack] is full. *)
Theorem resume_overflow c n x s : cos s !! c = Some x → length (pCallStack s) = 128%nat → co_resume c n s = Fault OutOfBounds.
Proof.
  intros Hx Hl. unfold co_resume. destruct (pCallStack s) as [|d l] eqn:E; [done|]. rewrite Hx. simpl.
  assert (pCallStack (if negb (cStart x) then set_co c (set_start x) s else s) = d :: l) as -> by (by destruct (cStart x)).
  rewrite bool_decide_false by lia. done.
Qed.

(** The size of the stack of a new coroutine ([co_create_env]). *)
Definition stack_size_of (stack_size : Z) : Z :=
  let n := if bool_decide (stack_size <= 0) then 128 * 1024
           else if bool_decide (stack_size > 1024 * 1024 * 8) then 1024 * 1024 * 8 else stack_size in
  if bool_decide (Z.land n 4095 ≠ 0) then Z.land n (Z.lnot 4095) + 4096 else n.
(** It is a positive number of pages, at most 8 megabytes, and no less than asked
    for within that limit. *)
Theorem stack_size_ok n : let m := stack_size_of n in m `mod` 4096 = 0 ∧ 0 < m ≤ 1024 * 1024 * 8 ∧ (n ≤ 1024 * 1024 * 8 → n ≤ m).
Proof.
  unfold stack_size_of. set (k := if bool_decide (n <= 0) then _ else _). assert (0 < k ≤ 1024 * 1024 * 8 ∧ (n ≤ 1024 * 1024 * 8 → n ≤ k)) as (H1 & H2).
  { unfold k. repeat case_bool_decide; lia. }
  clearbody k. simpl. change 4095 with (Z.ones 12). rewrite Z.land_ones by lia. rewrite <-Z.ldiff_land, Z.ldiff_ones_r, Z.shiftl_mul_pow2, Z.shiftr_div_pow2 by lia.
  change (2 ^ 12) with 4096. case_bool_decide; Z.to_euclidean_division_equations; lia.
Qed.
End swap.
End CoSwap.

(** The coroutines 1 and 2 share the only stack; 1 is resumed after 2 has used it. *)
Module SwapExample.
Import CoSwap.

Definition go (l : label (A := Z)) (s : t Z) : t Z := match act l s with Ok s' => s' | Fault _ => s end.
Definition s0 : t Z := init [0; 0] [[0; 0; 0]].
Definition s1 : t Z := go (LCreate true 1 0 []) s0.
Definition s2 : t Z := go (LCreate true 2 0 []) s1.
Definition s3 : t Z := go (LResume 1 1) s2.
Definition s4 : t Z := go (LRun [7; 8; 9]) s3.
Definition s5 : t Z := go (LYield 2) s4.
Definition s6 : t Z := go (LResume 2 1) s5.
Definition s7 : t Z := go (LRun [4; 5; 6]) s6.
Definition s8 : t Z := go (LYield 3) s7.

Ltac swap_step l := exists l; split; [|by vm_compute].
Lemma swap_reach_s8 : reach step s0 s8.
Proof.
  apply (reach_step _ _ s7); [apply (reach_step _ _ s6); [apply (reach_step _ _ s5); [apply (reach_step _ _ s4); [apply (reach_step _ _ s3);
    [apply (reach_step _ _ s2); [apply (reach_step _ _ s1); [apply (reach_step _ _ s0); [apply reach_refl|]|]|]|]|]|]|]|].
  - swap_step (LCreate (A := Z) true 1 0 []). split; [by vm_compute|done].
  - swap_step (LCreate (A := Z) true 2 0 []). split; [by vm_compute|done].
  - swap_step (LResume (A := Z) 1 1). split; [eexists; by vm_compute|]. split; [apply (bool_decide_unpack _); by vm_compute|].
    split; [vm_compute; lia|]. eexists _, _, _. split_and!; [by vm_compute..|vm_compute; lia].
  - swap_step (LRun [7; 8; 9]). eexists _, _, _. split_and!; by vm_compute.
  - swap_step (LYield (A := Z) 2). split; [vm_compute; lia|]. eexists _, _, _. split_and!; [by vm_compute..|vm_compute; lia].
  - swap_step (LResume (A := Z) 2 1). split; [eexists; by vm_compute|]. split; [apply (bool_decide_unpack _); by vm_compute|].
    split; [vm_compute; lia|]. eexists _, _, _. split_and!; [by vm_compute..|vm_compute; lia].
  - swap_step (LRun [4; 5; 6]). eexists _, _, _. split_and!; by vm_compute.
  - swap_step (LYield (A := Z) 3). split; [vm_compute; lia|]. eexists _, _, _. split_and!; [by vm_compute..|vm_compute; lia].
Qed.

Lemma stacks_kept_witness : (mem <$> stacks s8 !! 1%nat) = Some [4; 5; 6] ∧ ∃ s', act (LResume (A := Z) 1 1) s8 = Ok s' ∧
  ∃ k x' st, kept s8 !! 1%nat = Some k ∧ 2%nat = length k ∧ cos s' !! 1%nat = Some x' ∧ stacks s' !! stack_mem x' = Some st ∧ take (length k) (mem st) = k.
Proof.
  split; [by vm_compute|].
  destruct (stacks_kept [0; 0] [[0; 0; 0]] (LResume 1 1) s8 swap_reach_s8) as (s' & Ha & H).
  - split; [eexists; by vm_compute|]. split; [apply (bool_decide_unpack _); by vm_compute|].
    split; [vm_compute; lia|]. eexists _, _, _. split_and!; [by vm_compute..|vm_compute; lia].
  - exists s'. split; [exact Ha|]. assert (head (pCallStack s') = Some 1%nat) as Hc by (vm_compute in Ha; injection Ha as <-; reflexivity).
    refine (H 1%nat _ Hc _ eq_refl eq_refl). by vm_compute.
Defined.
End SwapExample.
