(* ===== verification/CoLink.v ===== *)
(** * co_routine.cpp: the lists of the coroutine runtime

    The templates [AddTail], [RemoveFromLink], [PopHead] and [Join] keep items
    in doubly linked lists in which every item also points to the list it is
    in.  Items and lists live in a heap.  [rep] relates the heap to the sequences
    the lists stand for, and every operation refines the operation of sequences
    that TimeWheel.v and EventLoop.v use. *)
From stdpp Require Import gmap.
From S2P Require Import Prelude.
Open Scope Z_scope.

Module CoLink.

(** The pointers of [stTimeoutItem_t] and [stCoCondItem_t], and
    [stTimeoutItemLink_t] and [stCoCond_t]. *)
Record node : Type := Node { pPrev : option Z; pNext : option Z; pLink : option Z }.
Record link : Type := Link { head : option Z; tail : option Z }.
Record heap : Type := Heap { nodes : gmap Z node; links : gmap Z link }.

Definition node_at (p : Z) (h : heap) : outcome node := deref (nodes h !! p).
Definition link_at (l : Z) (h : heap) : outcome link := deref (links h !! l).
Definition put_node (p : Z) (n : node) (h : heap) : heap := Heap (<[p := n]> (nodes h)) (links h).
Definition put_link (l : Z) (k : link) (h : heap) : heap := Heap (nodes h) (<[l := k]> (links h)).
Definition set_prev (p : Z) (v : option Z) (h : heap) : outcome heap :=
  n ← node_at p h; Ok (put_node p (Node v (pNext n) (pLink n)) h).
Definition set_next (p : Z) (v : option Z) (h : heap) : outcome heap :=
  n ← node_at p h; Ok (put_node p (Node (pPrev n) v (pLink n)) h).
Definition set_pLink (p : Z) (v : option Z) (h : heap) : outcome heap :=
  n ← node_at p h; Ok (put_node p (Node (pPrev n) (pNext n) v) h).
(** [if (q) q->pPrev = v] and [if (q) q->pNext = v]. *)
Definition set_prev_if (q v : option Z) (h : heap) : outcome heap :=
  match q with Some q => set_prev q v h | None => Ok h end.
Definition set_next_if (q v : option Z) (h : heap) : outcome heap :=
  match q with Some q => set_next q v h | None => Ok h end.

Definition RemoveFromLink (ap : Z) (h : heap) : outcome heap :=
  n ← node_at ap h;
  match pLink n with
  | None => Ok h
  | Some l =>
    lst ← link_at l h;
    _ ← require (head lst ≠ None ∧ tail lst ≠ None);
    h ← (if decide (head lst = Some ap) then
           set_prev_if (pNext n) None (put_link l (Link (pNext n) (tail lst)) h)
         else set_next_if (pPrev n) (pNext n) h);
    lst ← link_at l h;
    n ← node_at ap h;
    h ← (if decide (tail lst = Some ap) then
           set_next_if (pPrev n) None (put_link l (Link (head lst) (pPrev n)) h)
         else next ← deref (pNext n); set_prev next (pPrev n) h);
    h ← set_prev ap None h;
    h ← set_next ap None h;
    set_pLink ap None h
  end.

Definition AddTail (apLink ap : Z) (h : heap) : outcome heap :=
  n ← node_at ap h;
  match pLink n with
  | Some _ => Ok h
  | None =>
    lst ← link_at apLink h;
    h ← (match tail lst with
      | Some t =>
        h ← set_next t (Some ap) h;
        h ← set_next ap None h;
        h ← set_prev ap (Some t) h;
        Ok (put_link apLink (Link (head lst) (Some ap)) h)
      | None =>
        h ← set_next ap None (put_link apLink (Link (Some ap) (Some ap)) h);
        set_prev ap None h
      end);
    set_pLink ap (Some apLink) h
  end.

Definition PopHead (apLink : Z) (h : heap) : outcome heap :=
  lst ← link_at apLink h;
  match head lst with
  | None => Ok h
  | Some lp =>
    h ← (if decide (head lst = tail lst) then Ok (put_link apLink (Link None None) h)
         else n ← node_at lp h; Ok (put_link apLink (Link (pNext n) (tail lst)) h));
    h ← set_prev lp None h;
    h ← set_next lp None h;
    h ← set_pLink lp None h;
    lst ← link_at apLink h;
    set_prev_if (head lst) None h
  end.

(** The loop of [Join]; the fuel bounds the number of items. *)
Fixpoint join_loop (fuel : nat) (apLink : Z) (lp : option Z) (h : heap) : outcome heap :=
  match lp with
  | None => Ok h
  | Some p =>
    match fuel with
    | O => Fault OutOfFuel
    | S fuel =>
      h ← set_pLink p (Some apLink) h;
      n ← node_at p h;
      join_loop fuel apLink (pNext n) h
    end
  end.

Definition Join (apLink apOther : Z) (h : heap) : outcome heap :=
  other ← link_at apOther h;
  h ← join_loop (size (nodes h)) apLink (head other) h;
  lst ← link_at apLink h;
  h ← (match tail lst with
    | Some t =>
      h ← set_next t (head other) h;
      lp ← deref (head other);
      h ← set_prev lp (Some t) h;
      Ok (put_link apLink (Link (head lst) (tail other)) h)
    | None => Ok (put_link apLink (Link (head other) (tail other)) h)
    end);
  Ok (put_link apOther (Link None None) h).

(** ** The sequences *)
Definition first (xs : list Z) (nx : option Z) : option Z := match xs with [] => nx | x :: _ => Some x end.
Fixpoint lastp (xs : list Z) (pv : option Z) : option Z := match xs with [] => pv | x :: xs => lastp xs (Some x) end.

(** The items [xs] of the list [l], between [pv] and [nx]. *)
Fixpoint seg (m : gmap Z node) (l : Z) (pv : option Z) (xs : list Z) (nx : option Z) : Prop :=
  match xs with
  | [] => True
  | x :: xs => m !! x = Some (Node pv (first xs nx) (Some l)) ∧ seg m l (Some x) xs nx
  end.

(** The heap holds the lists [ls]; every item that points to a list is in
    it. *)
Record rep (h : heap) (ls : gmap Z (list Z)) : Prop := {
  r_dom l : is_Some (ls !! l) ↔ is_Some (links h !! l);
  r_list l xs : ls !! l = Some xs →
    links h !! l = Some (Link (first xs None) (lastp xs None)) ∧ NoDup xs ∧ seg (nodes h) l None xs None;
  r_link x n l : nodes h !! x = Some n → pLink n = Some l → ∃ xs, ls !! l = Some xs ∧ x ∈ xs;
}.

Lemma co_first_app xs ys nx : first (xs ++ ys) nx = first xs (first ys nx).
Proof. by destruct xs. Qed.
Lemma co_lastp_app xs ys pv : lastp (xs ++ ys) pv = lastp ys (lastp xs pv).
Proof. revert pv. induction xs as [|x xs IH]; intros pv; [done|]. apply IH. Qed.

Lemma co_seg_app m l pv xs ys nx :
  seg m l pv (xs ++ ys) nx ↔ seg m l pv xs (first ys nx) ∧ seg m l (lastp xs pv) ys nx.
Proof.
  revert pv. induction xs as [|x xs IH]; intros pv; simpl; [tauto|]. rewrite IH, co_first_app. tauto.
Qed.

(** A segment only depends on its own items. *)
Lemma co_seg_frame m m' l pv xs nx : (∀ x, x ∈ xs → m' !! x = m !! x) → seg m l pv xs nx → seg m' l pv xs nx.
Proof.
  revert pv. induction xs as [|x xs IH]; intros pv Heq; simpl; [done|].
  intros [Hx Hs]. split; [rewrite Heq; [done|left]|]. apply IH; [|done]. intros y Hy. apply Heq. by right.
Qed.
Lemma co_seg_insert m l pv xs nx p n : p ∉ xs → seg m l pv xs nx → seg (<[p := n]> m) l pv xs nx.
Proof. intros Hp. apply co_seg_frame. intros x Hx. apply lookup_insert_ne. set_solver. Qed.

Lemma seg_link m l pv xs nx x : seg m l pv xs nx → x ∈ xs → ∃ n, m !! x = Some n ∧ pLink n = Some l.
Proof.
  revert pv. induction xs as [|y xs IH]; intros pv; [set_solver|]. simpl. intros [Hy Hs] [->|Hin]%elem_of_cons; eauto.
Qed.

(** One list changes: items that leave it point to no list, items that join it
    pointed to none. *)
Lemma rep_update h ls l xs xs' m' k : k = Link (first xs' None) (lastp xs' None) →
  rep h ls → ls !! l = Some xs → NoDup xs' → seg m' l None xs' None →
  (∀ y, y ∉ xs → y ∉ xs' → m' !! y = nodes h !! y) →
  (∀ y, y ∈ xs → y ∉ xs' → ∃ n, m' !! y = Some n ∧ pLink n = None) →
  (∀ y, y ∈ xs' → y ∉ xs → ∃ n, nodes h !! y = Some n ∧ pLink n = None) →
  rep (Heap m' (<[l := k]> (links h))) (<[l := xs']> ls).
Proof.
  intros -> [Hdom Hlist Hlink] Hl Hnd Hseg Hsame Hleft Hnew. destruct (Hlist l xs Hl) as (_ & _ & Hsegx).
  constructor; simpl.
  - intros k. destruct (decide (k = l)) as [->|Hne]; [by rewrite !lookup_insert_eq|].
    rewrite !lookup_insert_ne by done. apply Hdom.
  - intros k ys. destruct (decide (k = l)) as [->|Hne].
    { rewrite !lookup_insert_eq. by intros [= <-]. }
    rewrite !lookup_insert_ne by done. intros Hk. destruct (Hlist k ys Hk) as (H1 & H2 & H3). split_and!; try done.
    eapply co_seg_frame; [|exact H3]. intros y Hy. destruct (seg_link _ _ _ _ _ _ H3 Hy) as (n & Hn & Hnk).
    assert (y ∉ xs) as Hyx.
    { intros Hin. destruct (seg_link _ _ _ _ _ _ Hsegx Hin) as (n' & Hn' & Hnl). congruence. }
    apply Hsame; [done|]. intros Hin. destruct (Hnew y Hin Hyx) as (n' & Hn' & ?). congruence.
  - intros x n k Hx Hk. destruct (decide (x ∈ xs')) as [Hin|Hni].
    { destruct (seg_link _ _ _ _ _ _ Hseg Hin) as (n' & Hn' & Hnl). assert (k = l) as -> by congruence.
      exists xs'. by rewrite lookup_insert_eq. }
    destruct (decide (x ∈ xs)) as [Hx1|Hx1]; [destruct (Hleft x Hx1 Hni) as (n' & Hn' & ?); congruence|].
    rewrite Hsame in Hx by done. destruct (Hlink x n k Hx Hk) as (ys & Hys & Hxy).
    destruct (decide (k = l)) as [->|Hne]; [congruence|]. exists ys. by rewrite lookup_insert_ne.
Qed.

(** Evaluation of the pointer operations on known items. *)
Ltac heap_step := repeat first
  [ progress simpl
  | progress unfold set_prev, set_next, set_pLink, node_at, link_at, put_node, put_link
  | match goal with H : nodes ?h !! ?p = Some _ |- context [nodes ?h !! ?p] => rewrite H end
  | rewrite lookup_insert_eq
  | rewrite lookup_insert_ne by (done || congruence)
  | rewrite insert_insert_eq
  | rewrite decide_True by reflexivity
  | rewrite decide_False by congruence ].

Lemma node_at_eq p n h : nodes h !! p = Some n → node_at p h = Ok n.
Proof. intros Hp. unfold node_at. by rewrite Hp. Qed.
Lemma link_at_eq l k h : links h !! l = Some k → link_at l h = Ok k.
Proof. intros Hl. unfold link_at. by rewrite Hl. Qed.

Lemma AddTail_linked h ls l x n : rep h ls → nodes h !! x = Some n → pLink n ≠ None → AddTail l x h = Ok h.
Proof. intros _ Hx Hn. unfold AddTail, node_at. rewrite Hx. simpl. by destruct (pLink n). Qed.

Lemma AddTail_rep h ls l xs x n : rep h ls → ls !! l = Some xs → nodes h !! x = Some n → pLink n = None →
  ∃ h', AddTail l x h = Ok h' ∧ rep h' (<[l := xs ++ [x]]> ls).
Proof.
  intros Hrep Hl Hx Hn. destruct (r_list _ _ Hrep l xs Hl) as (Hlk & Hnd & Hseg).
  assert (x ∉ xs) as Hni by (intros Hin; destruct (seg_link _ _ _ _ _ _ Hseg Hin) as (n' & ? & ?); congruence).
  assert (NoDup (xs ++ [x])) as Hnd' by (apply NoDup_app; split_and!; [done|set_solver|apply NoDup_singleton]).
  unfold AddTail, node_at at 1. rewrite Hx. simpl. rewrite Hn. unfold link_at. rewrite Hlk. simpl.
  destruct xs as [|t ys _] using rev_ind.
  - simpl. heap_step.
    eexists. split; [done|].
    apply (rep_update h ls l [] [x]); try done.
    + split; [apply lookup_insert_eq|done].
    + intros y _ Hy. apply lookup_insert_ne. set_solver.
    + set_solver.
    + intros y ->%list_elem_of_singleton _. eauto.
  - rewrite co_lastp_app in *. cbn [lastp] in *. rewrite co_seg_app in Hseg. destruct Hseg as [Hys [Ht _]].
    assert (t ≠ x ∧ x ∉ ys ∧ t ∉ ys) as (Htx & Hxy & Hty).
    { apply NoDup_app in Hnd as (_ & Hd & _). split_and!; [set_solver..|]. intros Hin. apply (Hd t Hin). left. }
    unfold set_next, set_prev, set_pLink, node_at, put_node, put_link. simpl. rewrite Ht. simpl.
    rewrite lookup_insert_ne, Hx by done. heap_step. eexists. split; [done|].
    apply (rep_update h ls l (ys ++ [t])); try done.
    + by rewrite !co_lastp_app, !co_first_app.
    + rewrite <-app_assoc, co_seg_app. simpl. split_and!; [|by rewrite lookup_insert_ne, lookup_insert_eq|apply lookup_insert_eq|done].
      apply co_seg_insert; [done|]. by apply co_seg_insert.
    + intros y Hy Hy'. rewrite !lookup_insert_ne; [done|set_solver..].
    + set_solver.
    + intros y [Hy| ->%list_elem_of_singleton]%elem_of_app; [done|eauto].
Qed.

Lemma co_lastp_snoc xs x pv : lastp (xs ++ [x]) pv = Some x.
Proof. by rewrite co_lastp_app. Qed.

Lemma lastp_elem xs pv x : lastp xs pv = Some x → x ∈ xs ∨ xs = [] ∧ pv = Some x.
Proof.
  destruct xs as [|y xs _] using rev_ind; [by right|]. rewrite co_lastp_snoc. intros [= ->]. left. set_solver.
Qed.

Lemma PopHead_nil h ls l : rep h ls → ls !! l = Some [] → PopHead l h = Ok h.
Proof. intros Hrep Hl. destruct (r_list _ _ Hrep l [] Hl) as (Hlk & _). unfold PopHead, link_at. by rewrite Hlk. Qed.

Lemma PopHead_rep h ls l x ys : rep h ls → ls !! l = Some (x :: ys) →
  ∃ h', PopHead l h = Ok h' ∧ rep h' (<[l := ys]> ls) ∧ nodes h' !! x = Some (Node None None None).
Proof.
  intros Hrep Hl. destruct (r_list _ _ Hrep l _ Hl) as (Hlk & Hnd & [Hx Hseg]).
  apply NoDup_cons in Hnd as [Hni Hnd]. unfold PopHead. rewrite (link_at_eq _ _ _ Hlk). simpl.
  destruct ys as [|z zs]; simpl in *.
  - rewrite decide_True by done. simpl. unfold set_prev, set_next, set_pLink, node_at, link_at, put_node, put_link. simpl.
    heap_step. eexists. split; [done|]. split; [|apply lookup_insert_eq].
    apply (rep_update h ls l [x] []); try done.
    + intros y Hy _. apply lookup_insert_ne. set_solver.
    + intros y ->%list_elem_of_singleton _. rewrite lookup_insert_eq. eauto.
    + set_solver.
  - destruct Hseg as [Hz Hseg]. apply NoDup_cons in Hnd as [Hzi Hnd].
    assert (x ≠ z ∧ x ∉ zs) as [Hxz Hxs] by set_solver.
    rewrite decide_False.
    2: { intros E. symmetry in E. apply lastp_elem in E as [?|[_ [= ->]]]; [done|done]. }
    heap_step.
    eexists. split; [done|]. split; [|heap_step; done].
    apply (rep_update h ls l (x :: z :: zs) (z :: zs)); try done; [by apply NoDup_cons| | | |].
    + split; [apply lookup_insert_eq|]. apply co_seg_insert; [done|]. by apply co_seg_insert.
    + intros y Hy Hy'. rewrite !lookup_insert_ne; [done|set_solver..].
    + intros y [->|Hy]%elem_of_cons Hy'; [|done]. heap_step. eauto.
    + set_solver.
Qed.

Lemma RemoveFromLink_free h x n : nodes h !! x = Some n → pLink n = None → RemoveFromLink x h = Ok h.
Proof. intros Hx Hn. unfold RemoveFromLink, node_at. rewrite Hx. simpl. by rewrite Hn. Qed.

(** What removing [x] from between [ys] and [zs] does to the items. *)
Definition joined m (l : Z) (ys : list Z) (x : Z) (zs : list Z) : Prop :=
  ∃ m', (∀ y, y ∉ ys ++ x :: zs → m' !! y = m !! y) ∧ m' !! x = Some (Node None None None) ∧
    seg m' l None (ys ++ zs) None ∧ NoDup (ys ++ zs) ∧ x ∉ ys ++ zs ∧
    ∀ lk h, lk = Link (first (ys ++ x :: zs) None) (lastp (ys ++ x :: zs) None) →
      nodes h = m → links h !! l = Some lk →
      RemoveFromLink x h = Ok (Heap m' (<[l := Link (first (ys ++ zs) None) (lastp (ys ++ zs) None)]> (links h))).
(** What is known of [x] and its neighbours. *)
Lemma seg_around m l ys x zs : NoDup (ys ++ x :: zs) → seg m l None (ys ++ x :: zs) None →
  seg m l None ys (Some x) ∧ m !! x = Some (Node (lastp ys None) (first zs None) (Some l)) ∧ seg m l (Some x) zs None ∧
  NoDup ys ∧ (∀ y, y ∈ ys → y ∉ x :: zs) ∧ x ∉ zs ∧ NoDup zs ∧ x ∉ ys ∧ NoDup (ys ++ zs) ∧ x ∉ ys ++ zs.
Proof.
  intros Hnd Hseg. rewrite co_seg_app in Hseg. destruct Hseg as [Hys [Hx Hzs]].
  apply NoDup_app in Hnd as (Hn1 & Hd & [Hxz Hn2]%NoDup_cons).
  assert (x ∉ ys) as Hxy by (intros Hin; apply (Hd x Hin); left).
  split_and!; try done; [|set_solver]. apply NoDup_app. split_and!; [done| |done]. intros w Hw Hz. apply (Hd w Hw). by right.
Qed.
Lemma joined_only m l x : NoDup ([] ++ x :: []) → seg m l None ([] ++ x :: []) None → joined m l [] x [].
Proof.
  intros Hnd Hseg. destruct (seg_around _ _ _ _ _ Hnd Hseg) as (Hys & Hx & Hzs & Hn1 & Hd & Hxz & Hn2 & Hxy & Hn3 & Hx3).
  clear Hnd Hseg. unfold joined. simpl in *.
  exists (<[x := Node None None None]> m). split_and!; try done.
  - intros w Hw. apply lookup_insert_ne. set_solver.
  - apply lookup_insert_eq.
  - intros lk h -> <- Hlk. unfold RemoveFromLink. rewrite (node_at_eq _ _ _ Hx). simpl. rewrite (link_at_eq _ _ _ Hlk). simpl.
    heap_step. done.
Qed.
Lemma joined_first m l x z zs : NoDup ([] ++ x :: (z :: zs)) → seg m l None ([] ++ x :: (z :: zs)) None → joined m l [] x (z :: zs).
Proof.
  intros Hnd Hseg. destruct (seg_around _ _ _ _ _ Hnd Hseg) as (Hys & Hx & Hzs & Hn1 & Hd & Hxz & Hn2 & Hxy & Hn3 & Hx3).
  clear Hnd Hseg. unfold joined. simpl in *.
  destruct Hzs as [Hz Hzs]. apply NoDup_cons in Hn2 as [Hzi Hn2].
  assert (x ≠ z ∧ x ∉ zs) as [Hxz' Hxs] by set_solver.
  exists (<[x := Node None None None]> (<[z := Node None (first zs None) (Some l)]> m)). split_and!; try done.
  - intros w Hw. rewrite !lookup_insert_ne; [done|set_solver..].
  - apply lookup_insert_eq.
  - heap_step. done.
  - apply co_seg_insert; [done|]. by apply co_seg_insert.
  - intros lk h -> <- Hlk. unfold RemoveFromLink. rewrite (node_at_eq _ _ _ Hx). simpl. rewrite (link_at_eq _ _ _ Hlk). simpl.
    rewrite require_true.
    2: { split; [done|]. destruct zs as [|u zs _] using rev_ind; [done|]. by rewrite co_lastp_snoc. }
    rewrite decide_True by done. simpl. heap_step.
    rewrite decide_False.
    2: { intros E. apply lastp_elem in E as [?|[_ [= ->]]]; done. }
    heap_step. done.
Qed.
Lemma joined_last m l ys y x : NoDup ((ys ++ [y]) ++ x :: []) → seg m l None ((ys ++ [y]) ++ x :: []) None → joined m l (ys ++ [y]) x [].
Proof.
  intros Hnd Hseg. destruct (seg_around _ _ _ _ _ Hnd Hseg) as (Hys & Hx & Hzs & Hn1 & Hd & Hxz & Hn2 & Hxy & Hn3 & Hx3).
  clear Hnd Hseg. unfold joined. simpl in *.
  apply NoDup_app in Hn1 as (Hn1 & Hd1 & _). rewrite co_lastp_snoc in *. rewrite app_nil_r in *.
  rewrite co_seg_app in Hys. destruct Hys as [Hys [Hy _]]. simpl in Hy.
  assert (y ≠ x ∧ x ∉ ys ∧ y ∉ ys) as (Hyx & Hxs & Hyy)
    by (split_and!; [set_solver..|]; intros Hin; apply (Hd1 y Hin); left).
  exists (<[x := Node None None None]> (<[y := Node (lastp ys None) None (Some l)]> m)). split_and!; try done.
  - intros w Hw. rewrite !lookup_insert_ne; [done|set_solver..].
  - apply lookup_insert_eq.
  - rewrite co_seg_app. simpl. split_and!; [|by rewrite lookup_insert_ne, lookup_insert_eq|done].
    apply co_seg_insert; [done|]. by apply co_seg_insert.
  - intros lk h -> <- Hlk. unfold RemoveFromLink. rewrite (node_at_eq _ _ _ Hx). simpl. rewrite (link_at_eq _ _ _ Hlk). simpl.
    rewrite co_lastp_app. simpl. rewrite co_first_app, (co_first_app ys [y]). simpl.
    assert (∃ u, first ys (Some y) = Some u ∧ u ≠ x) as (u & Hu & Hux).
    { destruct ys as [|u ys]; simpl; [by exists y|exists u]. split; [done|]. set_solver. }
    rewrite co_first_app in Hlk. rewrite Hu. heap_step. rewrite (co_first_app ys [y]). simpl. rewrite Hu. rewrite Hlk. heap_step.
    by rewrite co_first_app; simpl; rewrite Hu.
Qed.
Lemma joined_middle m l ys y x z zs : NoDup ((ys ++ [y]) ++ x :: (z :: zs)) → seg m l None ((ys ++ [y]) ++ x :: (z :: zs)) None → joined m l (ys ++ [y]) x (z :: zs).
Proof.
  intros Hnd Hseg. destruct (seg_around _ _ _ _ _ Hnd Hseg) as (Hys & Hx & Hzs & Hn1 & Hd & Hxz & Hn2 & Hxy & Hn3 & Hx3).
  clear Hnd Hseg. unfold joined. simpl in *.
  apply NoDup_app in Hn1 as (Hn1 & Hd1 & _). rewrite co_lastp_snoc in *.
  rewrite co_seg_app in Hys. destruct Hys as [Hys [Hy _]]. simpl in Hy. destruct Hzs as [Hz Hzs].
  apply NoDup_cons in Hn2 as [Hzi Hn2].
  assert (y ≠ x ∧ y ∉ ys ∧ x ≠ z ∧ x ∉ zs ∧ x ∉ ys) as (Hyx & Hyy & Hxz' & Hxs & Hxys)
    by (split_and!; [set_solver| |set_solver..]; intros Hin; apply (Hd1 y Hin); left).
  assert (y ≠ z ∧ y ∉ zs ∧ z ∉ ys) as (Hyz & Hyzs & Hzys).
  { apply NoDup_app in Hn3 as (_ & Hd3 & _). split_and!; [intros ->; apply (Hd3 z)|intros Hin; apply (Hd3 y)|intros Hin; apply (Hd3 z)]; set_solver. }
  exists (<[x := Node None None None]> (<[z := Node (Some y) (first zs None) (Some l)]>
           (<[y := Node (lastp ys None) (Some z) (Some l)]> m))). split_and!; try done.
  - intros w Hw. rewrite !lookup_insert_ne; [done|set_solver..].
  - apply lookup_insert_eq.
  - rewrite <-app_assoc, co_seg_app. simpl. split_and!.
    + apply co_seg_insert; [done|]. apply co_seg_insert; [done|]. by apply co_seg_insert.
    + heap_step. done.
    + heap_step. done.
    + apply co_seg_insert; [done|]. apply co_seg_insert; [done|]. by apply co_seg_insert.
  - intros lk h -> <- Hlk. unfold RemoveFromLink. rewrite (node_at_eq _ _ _ Hx). simpl. rewrite (link_at_eq _ _ _ Hlk). simpl.
    assert (lastp zs (Some z) ≠ Some x ∧ lastp zs (Some z) ≠ None) as [Htx Htn].
    { split; [intros E; apply lastp_elem in E as [?|[_ [= ->]]]; done|].
      destruct zs as [|v zs _] using rev_ind; [done|]. by rewrite co_lastp_snoc. }
    rewrite !co_lastp_app, !co_first_app. simpl. 
    assert (∃ u, first ys (Some y) = Some u ∧ u ≠ x) as (u & Hu & Hux).
    { destruct ys as [|u ys]; simpl; [by exists y|exists u]. split; [done|]. set_solver. }
    rewrite Hu. rewrite require_true by done.
    rewrite !co_lastp_app, !co_first_app in Hlk. simpl in Hlk. rewrite Hu in Hlk. heap_step. rewrite Hlk. heap_step. by rewrite (insert_id (links h) l).
Qed.

(** The neighbours of a removed item are joined. *)
Lemma seg_joined m l ys x zs : NoDup (ys ++ x :: zs) → seg m l None (ys ++ x :: zs) None → joined m l ys x zs.
Proof.
  destruct ys as [|y ys _] using rev_ind; destruct zs as [|z zs]; eauto using joined_only, joined_first, joined_last, joined_middle.
Qed.

Lemma RemoveFromLink_rep h ls l ys x zs : rep h ls → ls !! l = Some (ys ++ x :: zs) →
  ∃ h', RemoveFromLink x h = Ok h' ∧ rep h' (<[l := ys ++ zs]> ls) ∧ nodes h' !! x = Some (Node None None None).
Proof.
  intros Hrep Hl. destruct (r_list _ _ Hrep l _ Hl) as (Hlk & Hnd & Hseg).
  destruct (seg_joined _ _ _ _ _ Hnd Hseg) as (m' & Hsame & Hx & Hseg' & Hnd' & Hni & Hrun).
  eexists. split; [by apply (Hrun _ _ eq_refl)|]. split; [|done].
  apply (rep_update h ls l (ys ++ x :: zs)); try done.
  - intros y Hy Hy'. by apply Hsame.
  - intros y Hy Hy'. assert (y = x) as -> by set_solver. eauto.
  - intros y Hy Hy'. exfalso. set_solver.
Qed.

(** [Join] makes every item of the other list point to this one. *)
Lemma join_loop_rep fuel l o m lk pv ys : NoDup ys → seg m o pv ys None → (length ys ≤ fuel)%nat →
  ∃ m', join_loop fuel l (first ys None) (Heap m lk) = Ok (Heap m' lk) ∧ seg m' l pv ys None ∧
    ∀ y, y ∉ ys → m' !! y = m !! y.
Proof.
  revert m pv ys. induction fuel as [|fuel IH]; intros m pv [|y ys] Hnd Hseg Hf; simpl in *; try lia; try by exists m.
  destruct Hseg as [Hy Hseg]. apply NoDup_cons in Hnd as [Hni Hnd].
  unfold set_pLink, node_at, put_node. simpl. rewrite Hy. simpl. rewrite lookup_insert_eq. simpl.
  destruct (IH (<[y := Node pv (first ys None) (Some l)]> m) (Some y) ys Hnd) as (m' & -> & Hs & Hfr);
    [by apply co_seg_insert|lia|].
  exists m'. split_and!; try done.
  - rewrite Hfr by done. apply lookup_insert_eq.
  - intros w Hw. apply not_elem_of_cons in Hw as [Hwy Hws]. rewrite Hfr by done. by apply lookup_insert_ne.
Qed.

Lemma items_bound (m : gmap Z node) l pv ys : NoDup ys → seg m l pv ys None → (length ys ≤ size m)%nat.
Proof.
  intros Hnd Hs. rewrite <-(size_list_to_set (C:=gset Z) ys Hnd), <-size_dom. apply subseteq_size.
  intros y. rewrite elem_of_list_to_set, elem_of_dom. intros Hy.
  destruct (seg_link _ _ _ _ _ _ Hs Hy) as (n & Hn & _). by eexists.
Qed.

(** Items that point to no list. *)
Definition freed (ys : list Z) (m : gmap Z node) : gmap Z node := foldr (λ y, insert y (Node None None None)) m ys.
Lemma lookup_freed ys m y : freed ys m !! y = if decide (y ∈ ys) then Some (Node None None None) else m !! y.
Proof.
  induction ys as [|z ys IH]; cbn [freed foldr]; [by rewrite decide_False by apply not_elem_of_nil|]. fold (freed ys m).
  destruct (decide (z = y)) as [->|Hne]; [by rewrite lookup_insert_eq, decide_True by left|].
  rewrite lookup_insert_ne, IH by done. repeat case_decide; set_solver.
Qed.

(** The list is at the end of another. *)
Lemma join_tail m l t xs z ys : NoDup ((xs ++ [t]) ++ z :: ys) →
  seg m l None (xs ++ [t]) None → seg m l None (z :: ys) None →
  ∃ m', m' = <[z := Node (Some t) (first ys None) (Some l)]> (<[t := Node (lastp xs None) (Some z) (Some l)]> m) ∧
    m !! t = Some (Node (lastp xs None) None (Some l)) ∧ m !! z = Some (Node None (first ys None) (Some l)) ∧ t ≠ z ∧
    seg m' l None ((xs ++ [t]) ++ z :: ys) None ∧ (∀ y, y ∉ (xs ++ [t]) ++ z :: ys → m' !! y = m !! y).
Proof.
  intros Hnd Hs1 [Hz Hs2]. rewrite co_seg_app in Hs1. destruct Hs1 as [Hs1 [Ht _]]. simpl in Ht.
  apply NoDup_app in Hnd as (Hn1 & Hd & [Hzi Hn2]%NoDup_cons). apply NoDup_app in Hn1 as (Hn1 & Hd1 & _).
  assert (t ≠ z ∧ t ∉ ys ∧ z ∉ xs ∧ t ∉ xs) as (Htz & Hty & Hzx & Htx).
  { split_and!; [intros ->; apply (Hd z)|intros Hin; apply (Hd t)|intros Hin; apply (Hd z)|intros Hin; apply (Hd1 t)]; set_solver. }
  eexists. split_and!; try done.
  - rewrite co_seg_app, co_lastp_snoc, co_seg_app. simpl. split_and!; try done.
    + apply co_seg_insert; [done|]. by apply co_seg_insert.
    + heap_step. done.
    + apply lookup_insert_eq.
    + apply co_seg_insert; [done|]. by apply co_seg_insert.
  - intros y Hy. rewrite !lookup_insert_ne; [done|set_solver..].
Qed.

Lemma Join_rep h ls l o xs ys : rep h ls → l ≠ o → ls !! l = Some xs → ls !! o = Some ys → xs = [] ∨ ys ≠ [] →
  ∃ h', Join l o h = Ok h' ∧ rep h' (<[o := []]> (<[l := xs ++ ys]> ls)).
Proof.
  intros Hrep Hlo Hl Ho Hcase. destruct (r_list _ _ Hrep l _ Hl) as (Hlk & Hndx & Hsegx).
  destruct (r_list _ _ Hrep o _ Ho) as (Hok & Hndy & Hsegy).
  assert (∀ y, y ∈ xs → y ∉ ys) as Hdisj.
  { intros y Hx Hy. destruct (seg_link _ _ _ _ _ _ Hsegx Hx) as (n & Hn & ?).
    destruct (seg_link _ _ _ _ _ _ Hsegy Hy) as (n' & Hn' & ?). congruence. }
  assert (NoDup (xs ++ ys)) as Hnd by (by apply NoDup_app).
  destruct (join_loop_rep (size (nodes h)) l o (nodes h) (links h) None ys Hndy Hsegy) as (m1 & Hloop & Hs1 & Hfr1);
    [by eapply items_bound|].
  assert (seg m1 l None xs None) as Hsx1 by (eapply co_seg_frame; [|exact Hsegx]; intros y Hy; by apply Hfr1, Hdisj).
  assert (rep (Heap (freed ys (nodes h)) (<[o := Link None None]> (links h))) (<[o := []]> ls)) as Hrep1.
  { apply (rep_update h ls o ys []); try done; [constructor|..].
    - intros y Hy _. by rewrite lookup_freed, decide_False.
    - intros y Hy _. rewrite lookup_freed, decide_True by done. eauto.
    - set_solver. }
  assert (∀ m' k, k = Link (first (xs ++ ys) None) (lastp (xs ++ ys) None) → seg m' l None (xs ++ ys) None →
    (∀ y, y ∉ xs ++ ys → m' !! y = nodes h !! y) →
    rep (Heap m' (<[o := Link None None]> (<[l := k]> (links h)))) (<[o := []]> (<[l := xs ++ ys]> ls))) as Hfin.
  { intros m' k Hk Hseg Hsame. rewrite (insert_insert_ne (links h)), (insert_insert_ne ls) by done.
    pose proof (rep_update _ _ l xs (xs ++ ys) m' k Hk Hrep1) as HU. simpl in HU. apply HU; clear HU; try done.
    - by rewrite lookup_insert_ne.
    - intros y Hy Hy'. simpl. rewrite lookup_freed, decide_False by set_solver. by apply Hsame.
    - set_solver.
    - intros y Hy Hy'. simpl. rewrite lookup_freed, decide_True by set_solver. eauto. }
  assert (∀ y, y ∉ xs ++ ys → m1 !! y = nodes h !! y) as Hfr2 by (intros y Hy; apply Hfr1; set_solver).
  unfold Join. rewrite (link_at_eq _ _ _ Hok). simpl. destruct h as [mh lh]. simpl in *. rewrite Hloop. simpl.
  unfold link_at. simpl. rewrite Hlk. simpl. destruct xs as [|t xs _] using rev_ind.
  - eexists. split; [done|]. by apply Hfin.
  - destruct Hcase as [Hc|Hc]; [by destruct xs|]. destruct ys as [|z ys]; [done|].
    destruct (join_tail m1 l t xs z ys Hnd Hsx1 Hs1) as (m' & -> & Ht & Hz & Htz & Hseg & Hfr).
    rewrite co_lastp_snoc. heap_step. rewrite Ht. heap_step. rewrite Hz. heap_step. eexists. split; [done|].
    apply Hfin; [|done|].
    + rewrite (co_first_app (xs ++ [t])), (co_lastp_app (xs ++ [t])). simpl. f_equal. by destruct xs.
    + intros y Hy. rewrite <-Hfr2 by done. by apply Hfr.
Qed.

(** On a heap that holds lists, [AddTail] appends an
    item that is in no list and leaves any other alone; [RemoveFromLink] takes
    an item out of its list, wherever it is in it, and does nothing to an item
    in no list; [PopHead] takes the first item out; [Join] appends the items of
    another list, which must not be empty unless this one is, and leaves the
    other empty.  Every result is again a heap that holds its lists, and no null
    pointer is followed. *)
Theorem co_link_refines h ls : rep h ls →
  (∀ l xs x n, ls !! l = Some xs → nodes h !! x = Some n →
     (pLink n = None → ∃ h', AddTail l x h = Ok h' ∧ rep h' (<[l := xs ++ [x]]> ls)) ∧
     (pLink n ≠ None → AddTail l x h = Ok h)) ∧
  (∀ l ys x zs, ls !! l = Some (ys ++ x :: zs) →
     ∃ h', RemoveFromLink x h = Ok h' ∧ rep h' (<[l := ys ++ zs]> ls)) ∧
  (∀ x n, nodes h !! x = Some n → pLink n = None → RemoveFromLink x h = Ok h) ∧
  (∀ l x ys, ls !! l = Some (x :: ys) → ∃ h', PopHead l h = Ok h' ∧ rep h' (<[l := ys]> ls)) ∧
  (∀ l, ls !! l = Some [] → PopHead l h = Ok h) ∧
  (∀ l o xs ys, l ≠ o → ls !! l = Some xs → ls !! o = Some ys → xs = [] ∨ ys ≠ [] →
     ∃ h', Join l o h = Ok h' ∧ rep h' (<[o := []]> (<[l := xs ++ ys]> ls))).
Proof.
  intros Hrep. split_and!.
  - intros l xs x n Hl Hx. split; [by eapply AddTail_rep|by eapply AddTail_linked].
  - intros l ys x zs Hl. destruct (RemoveFromLink_rep _ _ _ _ _ _ Hrep Hl) as (h' & ? & ? & _). eauto.
  - intros x n. apply RemoveFromLink_free.
  - intros l x ys Hl. destruct (PopHead_rep _ _ _ _ _ Hrep Hl) as (h' & ? & ? & _). eauto.
  - intros l. by apply PopHead_nil.
  - intros l o xs ys. by apply Join_rep.
Qed.

(** Two lists, one empty, one with three items, and an item in no list. *)
Definition ex_heap : heap := Heap
  (<[1 := Node None (Some 2) (Some 10)]> (<[2 := Node (Some 1) (Some 3) (Some 10)]>
    (<[3 := Node (Some 2) None (Some 10)]> (<[4 := Node None None None]> ∅))))
  (<[10 := Link (Some 1) (Some 3)]> (<[20 := Link None None]> ∅)).
Definition ex_lists : gmap Z (list Z) := <[10 := [1; 2; 3]]> (<[20 := []]> ∅).

Lemma ex_rep : rep ex_heap ex_lists.
Proof.
  constructor.
  - intros l. unfold ex_lists, ex_heap. simpl. rewrite !lookup_insert_is_Some, !lookup_empty.
    split; intros H; naive_solver.
  - intros l xs Hl. unfold ex_lists in Hl. apply lookup_insert_Some in Hl as [[<- <-]|[_ Hl]].
    { split; [reflexivity|]. split; [apply (bool_decide_unpack _); reflexivity|]. by repeat split. }
    apply lookup_insert_Some in Hl as [[<- <-]|[_ Hl]]; [|done]. split; [reflexivity|]. split; [constructor|done].
  - intros x n l Hx Hn. exists [1; 2; 3]. unfold ex_heap in Hx. simpl in Hx.
    repeat (apply lookup_insert_Some in Hx as [[<- <-]|[_ Hx]];
      [simpl in Hn; injection Hn as <-; split; [done|set_solver]|]).
    by apply lookup_insert_Some in Hx as [[<- <-]|[_ Hx]].
Qed.

Lemma co_link_refines_witness :
  (∃ h', RemoveFromLink 2 ex_heap = Ok h' ∧ rep h' (<[10 := [1; 3]]> ex_lists)) ∧
  (∃ h', Join 20 10 ex_heap = Ok h' ∧ rep h' (<[10 := []]> (<[20 := [1; 2; 3]]> ex_lists))).
Proof.
  destruct (co_link_refines ex_heap ex_lists ex_rep) as (_ & Hrem & _ & _ & _ & Hjoin). split.
  - apply (Hrem 10 [1] 2 [3]). reflexivity.
  - apply (Hjoin 20 10 [] [1; 2; 3]); [done|reflexivity|reflexivity|by left].
Defined.
End CoLink.
