(* ===== verification/TimeWheel.v ===== *)
(** * co_routine.cpp: the time wheel of the event loop

    [stTimeout_t] is a ring of lists, one per millisecond, from the time
    [ullStart] at the index [llStartIdx] on, with one flag bit per list that
    [GetNextTimeoutInASecond] scans.  An item that expires later than the ring
    reaches is put into its last list.  The lists are sequences here; CoLink.v
    has the pointers.  The theorems are that the items taken at a time are those
    whose list is due, that no item that has expired stays behind, that the
    flags cover every list that is not empty, and how long the event loop may
    sleep. *)
From S2P Require Import Prelude.
Open Scope Z_scope.

Module TimeWheel.

(** What the wheel reads of an [stTimeoutItem_t]: its address and
    [ullExpireTime]. *)
Record item : Type := Item { addr : Z; ullExpireTime : Z }.

#[global] Instance item_eq_dec : EqDecision item.
Proof. solve_decision. Defined.

(** [stTimeout_t] *)
Record t : Type := Make {
  pItems : list (list item);
  iItemSize : Z;
  pFlags : list Z;
  iFlagSize : Z;
  ullStart : Z;
  llStartIdx : Z;
}.

Definition set_items (l : list (list item)) (w : t) : t :=
  Make l (iItemSize w) (pFlags w) (iFlagSize w) (ullStart w) (llStartIdx w).
Definition set_flags (l : list Z) (w : t) : t :=
  Make (pItems w) (iItemSize w) l (iFlagSize w) (ullStart w) (llStartIdx w).
Definition set_start (start idx : Z) (w : t) : t :=
  Make (pItems w) (iItemSize w) (pFlags w) (iFlagSize w) start idx.

(** [AllocTimeout] at the time [now]. *)
Definition AllocTimeout (iSize now : Z) : outcome (option t) :=
  _ ← require (Z.land iSize (iSize - 1) = 0);
  if bool_decide (iSize < 1024) then Ok None else
  Ok (Some (Make (replicate (Z.to_nat iSize) []) iSize
              (replicate (Z.to_nat (Z.shiftr iSize 6)) 0) (Z.shiftr iSize 6) now 0)).

(** A wheel that has never been used starts now. *)
Definition start_if_new (allNow : Z) (w : t) : t :=
  if bool_decide (ullStart w = 0) then set_start allNow 0 w else w.

Definition at_index (w : t) (x : Z) : Z := Z.land x (iItemSize w - 1).
Definition flag_bit (idx : Z) : Z := Z.shiftl 1 (Z.land idx 63).

Definition link_at (idx : Z) (w : t) : list item := pItems w !!! Z.to_nat idx.
Definition set_link (idx : Z) (l : list item) (w : t) : t :=
  set_items (<[Z.to_nat idx := l]> (pItems w)) w.
Definition flags_at (i : Z) (w : t) : Z := pFlags w !!! Z.to_nat i.
Definition set_flags_at (i f : Z) (w : t) : t :=
  set_flags (<[Z.to_nat i := f]> (pFlags w)) w.

(** [AddTimeout] of an item that is in no list; the result is false where the
    code returns [__LINE__]. *)
Definition AddTimeout (apItem : item) (allNow : Z) (w : t) : bool * t :=
  let w := start_if_new allNow w in
  if bool_decide (allNow < ullStart w) then (false, w) else
  if bool_decide (ullExpireTime apItem < allNow) then (false, w) else
  let diff := u64 (ullExpireTime apItem - ullStart w) in
  let diff := if bool_decide (diff >= iItemSize w) then iItemSize w - 1 else diff in
  let idx := at_index w (llStartIdx w + diff) in
  let w := set_link idx (link_at idx w ++ [apItem]) w in
  (true, set_flags_at (Z.shiftr idx 6) (Z.lor (flags_at (Z.shiftr idx 6) w) (flag_bit idx)) w).

(** [TakeAllTimeout]: one list. *)
Definition take_slot (idx : Z) (w : t) (apResult : list item) : t * list item :=
  match link_at idx w with
  | [] => (w, apResult)
  | l =>
    let w := set_flags_at (Z.shiftr idx 6)
               (Z.land (flags_at (Z.shiftr idx 6) w) (Z.lxor (flag_bit idx) (2^64 - 1))) w in
    (set_link idx [] w, apResult ++ l)
  end.

Fixpoint take_loop (n : nat) (i : Z) (w : t) (apResult : list item) : t * list item :=
  match n with
  | O => (w, apResult)
  | S n =>
    let '(w, apResult) := take_slot (at_index w (llStartIdx w + i)) w apResult in
    take_loop n (i + 1) w apResult
  end.

Definition TakeAllTimeout (allNow : Z) (w : t) (apResult : list item) : t * list item :=
  let w := start_if_new allNow w in
  if bool_decide (allNow < ullStart w) then (w, apResult) else
  let cnt := i32 (u64 (allNow - ullStart w + 1)) in
  let cnt := if bool_decide (cnt > iItemSize w) then iItemSize w else cnt in
  if bool_decide (cnt < 0) then (w, apResult) else
  let '(w, apResult) := take_loop (Z.to_nat cnt) 0 w apResult in
  (set_start allNow (at_index w (llStartIdx w + cnt - 1)) w, apResult).

(** [GetNextTimeoutInASecond]: the first byte of a word of flags with a bit
    that is set, as the milliseconds up to its end. *)
Definition first_byte (flag : Z) : Z :=
  if bool_decide (Z.land flag 0x00000000000000FF ≠ 0) then 8
  else if bool_decide (Z.land flag 0x000000000000FF00 ≠ 0) then 16
  else if bool_decide (Z.land flag 0x0000000000FF0000 ≠ 0) then 24
  else if bool_decide (Z.land flag 0x00000000FF000000 ≠ 0) then 32
  else if bool_decide (Z.land flag 0x000000FF00000000 ≠ 0) then 40
  else if bool_decide (Z.land flag 0x0000FF0000000000 ≠ 0) then 48
  else if bool_decide (Z.land flag 0x00FF000000000000 ≠ 0) then 56
  else 64.

(** The loop over whole words, up to the word [endIdx]: [inl] when a flag is
    found, [inr] with the milliseconds passed over. *)
Fixpoint scan_words (fuel : nat) (i endIdx ret : Z) (w : t) : outcome (Z + Z) :=
  if bool_decide (i = endIdx) then Ok (inr ret) else
  match fuel with
  | O => Fault OutOfFuel
  | S fuel =>
    let flag := flags_at i w in
    if bool_decide (flag ≠ 0) then Ok (inl (ret + first_byte flag))
    else scan_words fuel (Z.land (i + 1) (iFlagSize w - 1)) endIdx (ret + 64) w
  end.

(** [uint64_t(0x1) << n] *)
Definition shl64 (n : Z) : outcome Z :=
  if bool_decide (0 ≤ n < 64) then Ok (u64 (Z.shiftl 1 n)) else Fault BadShift.

(** The word in which the second ends: only the flags up to its end count. *)
Definition scan_end (llendIdx ret : Z) (w : t) : outcome Z :=
  let endFlagIdx := Z.land llendIdx 63 in
  one ← shl64 (endFlagIdx + 1);
  let endMask := u64 (one - 1) in
  let endFlag := Z.land (flags_at (Z.shiftr llendIdx 6) w) endMask in
  Ok (if bool_decide (endFlag ≠ 0) then ret + first_byte endFlag else ret).

Definition GetNextTimeoutInASecond (allNow : Z) (w : t) : outcome (Z * t) :=
  let w := start_if_new allNow w in
  if bool_decide (allNow < ullStart w) then Ok (1024, w) else
  let startIdx := Z.shiftr (llStartIdx w) 6 in
  let startFlagIdx := Z.land (llStartIdx w) 63 in
  let shiftRightCnt := Z.land startFlagIdx 0xFFFFFFF8 in
  let startMask := u64 (Z.shiftr (- 2^63) (63 - startFlagIdx)) in
  let startFlag := Z.shiftr (Z.land (flags_at startIdx w) startMask) shiftRightCnt in
  if bool_decide (startFlag ≠ 0) then Ok (first_byte startFlag, w) else
  let ret := 64 - shiftRightCnt in
  let llendIdx := at_index w (llStartIdx w + 1000) in
  r ← scan_words (Z.to_nat (iFlagSize w)) (Z.land (startIdx + 1) (iFlagSize w - 1)) (Z.shiftr llendIdx 6) ret w;
  match r with
  | inl ret => Ok (ret, w)
  | inr ret => ret ← scan_end llendIdx ret w; Ok (ret, w)
  end.

(** [RemoveFromLink] of an item of the wheel: its flag stays. *)
Definition remove (x : Z) (w : t) : t :=
  set_items (filter (λ e, addr e ≠ x) <$> pItems w) w.

(** ** The ring *)

(** The index of the list that is due [d] milliseconds after [ullStart]. *)
Definition pos (w : t) (d : Z) : Z := (llStartIdx w + d) `mod` iItemSize w.
(** The list that is due then, and whether its flag is set. *)
Definition slot (w : t) (d : Z) : list item := link_at (pos w d) w.
Definition flagged (w : t) (idx : Z) : bool := Z.testbit (flags_at (idx / 64) w) (idx `mod` 64).
(** The items of the wheel. *)
Definition items (w : t) : list item := concat (pItems w).

(** The shape of a wheel. *)
Record shape (w : t) : Prop := {
  sh_size : ∃ k, 10 ≤ k ≤ 30 ∧ iItemSize w = 2^k;
  sh_items : zlen (pItems w) = iItemSize w;
  sh_words : iItemSize w = 64 * iFlagSize w;
  sh_flags : zlen (pFlags w) = iFlagSize w;
  sh_word : Forall is_u64 (pFlags w);
  sh_idx : 0 ≤ llStartIdx w < iItemSize w;
  sh_start : 0 < ullStart w < 2^63;
}.

(** The invariant: no item is in a list that is due after the item expires,
    and the flag of every list that is not empty is set. *)
Record inv (w : t) : Prop := {
  w_shape : shape w;
  w_due d e : 0 ≤ d < iItemSize w → e ∈ slot w d → ullStart w + d ≤ ullExpireTime e;
  w_flags idx : 0 ≤ idx < iItemSize w → link_at idx w ≠ [] → flagged w idx = true;
}.

Lemma land_pow2_mod n x : 0 ≤ n → Z.land x (2^n - 1) = x `mod` 2^n.
Proof. intros Hn. rewrite <-Z.land_ones by lia. f_equal. rewrite Z.ones_equiv. lia. Qed.
Lemma land_63 x : Z.land x 63 = x `mod` 64.
Proof. apply (land_pow2_mod 6). lia. Qed.
Lemma shiftr_6 x : Z.shiftr x 6 = x / 64.
Proof. by rewrite Z.shiftr_div_pow2 by lia. Qed.

Section ring.
Context (w : t) (Hsh : shape w).

Lemma size_bounds : 1024 ≤ iItemSize w ≤ 2^30.
Proof.
  destruct (sh_size _ Hsh) as (k & Hk & ->). change 1024 with (2^10).
  split; apply Z.pow_le_mono_r; lia.
Qed.

Lemma at_index_mod x : at_index w x = x `mod` iItemSize w.
Proof. unfold at_index. destruct (sh_size _ Hsh) as (k & Hk & ->). apply land_pow2_mod. lia. Qed.

Lemma flag_index_mod x : Z.land x (iFlagSize w - 1) = x `mod` iFlagSize w.
Proof.
  destruct (sh_size _ Hsh) as (k & Hk & E). pose proof (sh_words _ Hsh) as Hw.
  assert (iFlagSize w = 2^(k - 6)) as ->; [|apply land_pow2_mod; lia].
  rewrite E in Hw. replace k with (6 + (k - 6)) in Hw by lia. rewrite Z.pow_add_r in Hw by lia. lia.
Qed.

Lemma pos_range d : 0 ≤ pos w d < iItemSize w.
Proof. unfold pos. pose proof size_bounds. apply Z.mod_pos_bound. lia. Qed.

(** Every index is the place of one offset. *)
Lemma pos_onto idx : 0 ≤ idx < iItemSize w → ∃ d, 0 ≤ d < iItemSize w ∧ pos w d = idx.
Proof.
  intros Hi. pose proof size_bounds. exists ((idx - llStartIdx w) `mod` iItemSize w).
  split; [apply Z.mod_pos_bound; lia|]. unfold pos.
  rewrite Zplus_mod_idemp_r. replace (llStartIdx w + (idx - llStartIdx w)) with idx by lia.
  by apply Z.mod_small.
Qed.

Lemma pos_inj d d' : 0 ≤ d < iItemSize w → 0 ≤ d' < iItemSize w → pos w d = pos w d' → d = d'.
Proof.
  intros Hd Hd' E. pose proof size_bounds. unfold pos in E.
  apply (f_equal (λ z, (z - llStartIdx w) `mod` iItemSize w)) in E.
  rewrite !Zminus_mod_idemp_l in E.
  replace (llStartIdx w + d - llStartIdx w) with d in E by lia.
  replace (llStartIdx w + d' - llStartIdx w) with d' in E by lia.
  by rewrite !Z.mod_small in E by lia.
Qed.

Lemma link_lookup idx : 0 ≤ idx < iItemSize w → pItems w !! Z.to_nat idx = Some (link_at idx w).
Proof.
  intros Hi. unfold link_at. apply list_lookup_lookup_total_lt.
  pose proof (sh_items _ Hsh) as Hl. unfold zlen in Hl. lia.
Qed.

Lemma word_lookup i : 0 ≤ i < iFlagSize w → pFlags w !! Z.to_nat i = Some (flags_at i w).
Proof.
  intros Hi. unfold flags_at. apply list_lookup_lookup_total_lt.
  pose proof (sh_flags _ Hsh) as Hl. unfold zlen in Hl. lia.
Qed.

Lemma flags_range i : 0 ≤ i < iFlagSize w → is_u64 (flags_at i w).
Proof. intros Hi. eapply Forall_lookup_1; [exact (sh_word _ Hsh)|by apply word_lookup]. Qed.

Lemma elem_items e : e ∈ items w ↔ ∃ d, 0 ≤ d < iItemSize w ∧ e ∈ slot w d.
Proof.
  unfold items. rewrite list_elem_of_In, in_concat. split.
  - intros (l & Hl%list_elem_of_In & He%list_elem_of_In).
    apply list_elem_of_lookup in Hl as [i Hi]. pose proof (lookup_lt_Some _ _ _ Hi) as Hlt.
    pose proof (sh_items _ Hsh) as Hlen. unfold zlen in Hlen.
    destruct (pos_onto (Z.of_nat i)) as (d & Hd & Hp); [lia|]. exists d. split; [done|].
    unfold slot. rewrite Hp. unfold link_at. rewrite Nat2Z.id. by rewrite (list_lookup_total_correct _ _ _ Hi).
  - intros (d & Hd & He). exists (slot w d). rewrite <-!list_elem_of_In. split; [|done].
    eapply list_elem_of_lookup_2, link_lookup, pos_range.
Qed.
End ring.

(** Replacing one list or one word of flags. *)
Lemma link_set idx l j w : shape w → 0 ≤ idx < iItemSize w → 0 ≤ j →
  link_at j (set_link idx l w) = if decide (j = idx) then l else link_at j w.
Proof.
  intros Hsh Hi Hj. unfold link_at, set_link. simpl. case_decide as E.
  - subst. apply list_lookup_total_insert_eq. pose proof (sh_items _ Hsh) as Hl. unfold zlen in Hl. lia.
  - apply list_lookup_total_insert_ne. lia.
Qed.
Lemma flags_set i f j w : shape w → 0 ≤ i < iFlagSize w → 0 ≤ j →
  flags_at j (set_flags_at i f w) = if decide (j = i) then f else flags_at j w.
Proof.
  intros Hsh Hi Hj. unfold flags_at, set_flags_at. simpl. case_decide as E.
  - subst. apply list_lookup_total_insert_eq. pose proof (sh_flags _ Hsh) as Hl. unfold zlen in Hl. lia.
  - apply list_lookup_total_insert_ne. lia.
Qed.

Lemma shape_set_link idx l w : shape w → shape (set_link idx l w).
Proof. intros []. constructor; try done. simpl. unfold zlen in *. by rewrite length_insert. Qed.
Lemma shape_set_flags i f w : shape w → is_u64 f → shape (set_flags_at i f w).
Proof.
  intros [] Hf. constructor; try done; simpl; [unfold zlen in *; by rewrite length_insert|].
  by apply Forall_insert.
Qed.

(** Emptying one list takes its items out. *)
Lemma concat_insert_nil {A} (l : list (list A)) i x : l !! i = Some x →
  concat l ≡ₚ x ++ concat (<[i := []]> l).
Proof.
  intros Hi. rewrite <-(take_drop_middle l i x Hi) at 1.
  rewrite insert_take_drop by (by eapply lookup_lt_Some).
  rewrite !concat_app. simpl. solve_Permutation.
Qed.
Lemma concat_insert_app {A} (l : list (list A)) i x y : l !! i = Some x →
  concat (<[i := x ++ y]> l) ≡ₚ y ++ concat l.
Proof.
  intros Hi. rewrite <-(take_drop_middle l i x Hi) at 2.
  rewrite insert_take_drop by (by eapply lookup_lt_Some).
  rewrite !concat_app. simpl. rewrite <-!app_assoc. solve_Permutation.
Qed.

(** ** Setting and clearing flags *)
Lemma word_of w idx : shape w → 0 ≤ idx < iItemSize w → 0 ≤ idx / 64 < iFlagSize w.
Proof.
  intros Hsh Hi. pose proof (sh_words _ Hsh). split; [apply Z.div_pos; lia|apply Z.div_lt_upper_bound; lia].
Qed.

Lemma flag_bit_spec idx b : 0 ≤ b → Z.testbit (flag_bit idx) b = bool_decide (b = idx `mod` 64).
Proof.
  intros Hb. unfold flag_bit. rewrite land_63. rewrite Z.shiftl_1_l, Z.pow2_bits_eqb by (apply Z.mod_pos_bound; lia).
  case_bool_decide; [apply Z.eqb_eq; lia|apply Z.eqb_neq; lia].
Qed.

Lemma same_flag j idx : j / 64 = idx / 64 → j `mod` 64 = idx `mod` 64 → j = idx.
Proof. intros E1 E2. rewrite (Z.div_mod j 64), (Z.div_mod idx 64) by lia. by rewrite E1, E2. Qed.

Lemma is_u64_bits x : is_u64 x ↔ 0 ≤ x ∧ ∀ b, 64 ≤ b → Z.testbit x b = false.
Proof.
  unfold is_u64. split.
  - intros Hx. split; [lia|]. intros b Hb. destruct (decide (x = 0)) as [->|]; [apply Z.testbit_0_l|].
    apply Z.bits_above_log2; [lia|]. apply Z.log2_lt_pow2; [lia|].
    assert (2^64 ≤ 2^b) by (apply Z.pow_le_mono_r; lia). lia.
  - intros [H0 Hb]. split; [done|]. destruct (decide (x = 0)) as [->|]; [lia|].
    apply Z.log2_lt_pow2; [lia|]. destruct (decide (Z.log2 x < 64)); [done|].
    exfalso. assert (Z.testbit x (Z.log2 x) = false) as E by (apply Hb; lia). by rewrite Z.bit_log2 in E by lia.
Qed.

Definition set_flag (idx : Z) (w : t) : t :=
  set_flags_at (Z.shiftr idx 6) (Z.lor (flags_at (Z.shiftr idx 6) w) (flag_bit idx)) w.
Definition clear_flag (idx : Z) (w : t) : t :=
  set_flags_at (Z.shiftr idx 6) (Z.land (flags_at (Z.shiftr idx 6) w) (Z.lxor (flag_bit idx) (2^64 - 1))) w.

Lemma flag_bit_u64 idx : is_u64 (flag_bit idx).
Proof.
  unfold flag_bit, is_u64. rewrite land_63, Z.shiftl_1_l.
  assert (0 ≤ idx `mod` 64 < 64) by (apply Z.mod_pos_bound; lia).
  split; [lia|]. apply Z.pow_lt_mono_r; lia.
Qed.

Lemma set_flag_spec idx w : shape w → 0 ≤ idx < iItemSize w →
  shape (set_flag idx w) ∧
  ∀ j, 0 ≤ j → flagged (set_flag idx w) j = bool_decide (j = idx) || flagged w j.
Proof.
  intros Hsh Hi. pose proof (word_of _ _ Hsh Hi) as Hw. unfold set_flag. rewrite shiftr_6.
  pose proof (proj1 (is_u64_bits _) (flags_range _ Hsh _ Hw)) as [Hw0 Hwb].
  pose proof (proj1 (is_u64_bits _) (flag_bit_u64 idx)) as [Hf0 Hfb]. split.
  - apply shape_set_flags; [done|]. apply is_u64_bits. split; [apply Z.lor_nonneg; lia|].
    intros b Hb. by rewrite Z.lor_spec, Hwb, Hfb.
  - intros j Hj. unfold flagged. rewrite flags_set by (try done; apply Z.div_pos; lia). case_decide as E.
    + rewrite Z.lor_spec, flag_bit_spec by (apply Z.mod_pos_bound; lia). rewrite <-E, orb_comm.
      f_equal. apply bool_decide_ext. split; [by apply same_flag|by intros ->].
    + rewrite bool_decide_false; [done|]. by intros ->.
Qed.

Lemma clear_flag_spec idx w : shape w → 0 ≤ idx < iItemSize w →
  shape (clear_flag idx w) ∧
  ∀ j, 0 ≤ j → flagged (clear_flag idx w) j = negb (bool_decide (j = idx)) && flagged w j.
Proof.
  intros Hsh Hi. pose proof (word_of _ _ Hsh Hi) as Hw. unfold clear_flag. rewrite shiftr_6.
  pose proof (proj1 (is_u64_bits _) (flags_range _ Hsh _ Hw)) as [Hw0 Hwb]. split.
  - apply shape_set_flags; [done|]. apply is_u64_bits. split; [apply Z.land_nonneg; lia|].
    intros b Hb. by rewrite Z.land_spec, Hwb.
  - intros j Hj. unfold flagged. rewrite flags_set by (try done; apply Z.div_pos; lia). case_decide as E.
    + assert (0 ≤ j `mod` 64 < 64) as Hm by (apply Z.mod_pos_bound; lia).
      rewrite Z.land_spec, Z.lxor_spec, flag_bit_spec by lia.
      change (2^64 - 1) with (Z.ones 64). rewrite Z.ones_spec_low by lia. rewrite xorb_true_r, <-E, andb_comm.
      do 2 f_equal. apply bool_decide_ext. split; [by apply same_flag|by intros ->].
    + rewrite bool_decide_false; [done|]. by intros ->.
Qed.

(** ** [AddTimeout] *)

Lemma start_if_new_old now w : shape w → start_if_new now w = w.
Proof. intros Hsh. unfold start_if_new. rewrite bool_decide_false; [done|]. pose proof (sh_start _ Hsh). lia. Qed.

(** Where an item goes. *)
Definition diff_of (e : item) (w : t) : Z := Z.min (ullExpireTime e - ullStart w) (iItemSize w - 1).

Lemma AddTimeout_eq e now w : shape w → ullStart w ≤ now → now ≤ ullExpireTime e < 2^64 →
  AddTimeout e now w =
    (true, set_flag (pos w (diff_of e w)) (set_link (pos w (diff_of e w)) (slot w (diff_of e w) ++ [e]) w)).
Proof.
  intros Hsh Hn He. pose proof (sh_start _ Hsh). unfold AddTimeout. rewrite start_if_new_old by done.
  rewrite bool_decide_false, bool_decide_false by lia.
  assert (u64 (ullExpireTime e - ullStart w) = ullExpireTime e - ullStart w) as -> by (apply u64_small; lia).
  assert ((if bool_decide (ullExpireTime e - ullStart w >= iItemSize w) then iItemSize w - 1
           else ullExpireTime e - ullStart w) = diff_of e w) as ->
    by (unfold diff_of; case_bool_decide; lia).
  rewrite at_index_mod by done. done.
Qed.

Lemma wheel_add_inv e now w : inv w → ullStart w ≤ now → now ≤ ullExpireTime e < 2^64 →
  ∃ w', AddTimeout e now w = (true, w') ∧ inv w' ∧ items w' ≡ₚ e :: items w ∧
    ullStart w' = ullStart w ∧ llStartIdx w' = llStartIdx w ∧ iItemSize w' = iItemSize w.
Proof.
  intros [Hsh Hdue Hfl] Hn He. eexists. split; [by apply AddTimeout_eq|].
  pose proof (pos_range _ Hsh (diff_of e w)) as Hp. pose proof (size_bounds _ Hsh) as Hsz.
  set (idx := pos w (diff_of e w)) in *.
  set (w1 := set_link idx (slot w (diff_of e w) ++ [e]) w).
  assert (shape w1) as Hsh1 by (by apply shape_set_link).
  destruct (set_flag_spec idx w1 Hsh1 Hp) as [Hsh2 Hf].
  assert (0 ≤ diff_of e w < iItemSize w) as Hd by (unfold diff_of; lia).
  split_and!; try done.
  - constructor; [done|..].
    + intros d x Hdr Hx. unfold slot in Hx. change (link_at ?i (set_flag ?j ?w)) with (link_at i w) in Hx.
      change (pos (set_flag _ _) d) with (pos w d) in Hx. simpl in Hdr.
      unfold w1 in Hx. rewrite link_set in Hx by (try done; apply pos_range; done).
      case_decide as E; [|by apply Hdue]. apply (pos_inj _ Hsh) in E; [|done..]. subst d.
      apply elem_of_app in Hx as [Hx|Hx]; [by apply Hdue|]. apply list_elem_of_singleton in Hx as ->.
      simpl. unfold diff_of. lia.
    + intros j Hj Hne. rewrite Hf by lia. case_bool_decide as E; [done|]. simpl.
      change (flagged w1 j) with (flagged w j). apply Hfl; [done|].
      change (link_at j (set_flag idx w1)) with (link_at j w1) in Hne.
      unfold w1 in Hne. rewrite link_set in Hne by (done || lia). by case_decide.
  - unfold items. simpl. rewrite concat_insert_app; [done|]. by apply link_lookup.
Qed.

(** ** [TakeAllTimeout] *)

(** What stays of a wheel when lists are taken out of it. *)
Record emptied (gone : Z → Prop) (took : list item) (w w' : t) : Prop := {
  e_shape : shape w';
  e_size : iItemSize w' = iItemSize w;
  e_start : ullStart w' = ullStart w;
  e_idx : llStartIdx w' = llStartIdx w;
  e_gone d : 0 ≤ d < iItemSize w → gone d → slot w' d = [];
  e_stay d : 0 ≤ d < iItemSize w → ¬ gone d → slot w' d = slot w d;
  e_flags j : 0 ≤ j < iItemSize w → link_at j w' ≠ [] → flagged w j = true → flagged w' j = true;
  e_items : items w ≡ₚ took ++ items w';
}.

Lemma take_slot_emptied d w r : shape w → 0 ≤ d < iItemSize w →
  ∃ w', take_slot (pos w d) w r = (w', r ++ slot w d) ∧ emptied (λ d', d' = d) (slot w d) w w'.
Proof.
  intros Hsh Hd. pose proof (pos_range _ Hsh d) as Hp.
  unfold take_slot. change (link_at (pos w d) w) with (slot w d). destruct (slot w d) as [|x l] eqn:E.
  { exists w. rewrite app_nil_r. split; [done|]. constructor; try done. by intros d' _ ->. }
  change (set_flags_at _ _ w) with (clear_flag (pos w d) w).
  destruct (clear_flag_spec _ _ Hsh Hp) as [Hsh1 Hf].
  eexists. split; [done|]. constructor; simpl; try done.
  - by apply shape_set_link.
  - intros d' Hd' ->. unfold slot. change (pos (set_link _ _ _) d) with (pos w d).
    rewrite link_set by (done || lia). by rewrite decide_True.
  - intros d' Hd' Hne. unfold slot. change (pos (set_link _ _ _) d') with (pos w d').
    rewrite link_set by (try done; apply pos_range; done). rewrite decide_False; [done|].
    intros E'. apply Hne. by eapply pos_inj.
  - intros j Hj Hne Hfl. rewrite link_set in Hne by (done || lia). case_decide as Ej; [done|].
    change (flagged (set_link _ _ ?u) j) with (flagged u j). rewrite Hf by lia. by rewrite bool_decide_false.
  - change (concat (pItems w) ≡ₚ (x :: l) ++ concat (<[Z.to_nat (pos w d) := []]> (pItems w))).
    rewrite <-E. apply concat_insert_nil. by apply link_lookup.
Qed.

Lemma emptied_trans g1 g2 k1 k2 w1 w2 w3 : (∀ d, Decision (g1 d)) → (∀ d, Decision (g2 d)) →
  emptied g1 k1 w1 w2 → emptied g2 k2 w2 w3 →
  emptied (λ d, g1 d ∨ g2 d) (k1 ++ k2) w1 w3.
Proof.
  intros D1 D2 [Hs Hz Ht Hi Hg Hy Hf Hp] [Hs' Hz' Ht' Hi' Hg' Hy' Hf' Hp']. rewrite Hz in *. constructor; try congruence.
  - intros d Hd [H1|H2]; [|auto]. destruct (D2 d); [auto|]. by rewrite Hy', Hg.
  - intros d Hd Hn. rewrite Hy', Hy by (try done; tauto). done.
  - intros j Hj Hne Hfl. apply Hf'; [done|done|]. apply Hf; try done.
    intros E. apply Hne. destruct (pos_onto _ Hs' j) as (d & Hd & Hpj); [lia|].
    assert (slot w2 d = []) as E2.
    { unfold slot. replace (pos w2 d) with j; [done|]. rewrite <-Hpj. unfold pos. by rewrite Hi', Hz', Hz. }
    rewrite <-Hpj. change (slot w3 d = []). rewrite Hz' in Hd. destruct (D2 d); [by apply Hg'|by rewrite Hy'].
  - rewrite Hp, Hp'. by rewrite app_assoc.
Qed.

Lemma take_loop_emptied n i w r : shape w → 0 ≤ i → i + Z.of_nat n ≤ iItemSize w →
  ∃ w', take_loop n i w r = (w', r ++ concat (slot w <$> seqZ i (Z.of_nat n))) ∧
    emptied (λ d, i ≤ d < i + Z.of_nat n) (concat (slot w <$> seqZ i (Z.of_nat n))) w w'.
Proof.
  revert i w r. induction n as [|n IH]; intros i w r Hsh Hi Hn.
  { exists w. simpl. rewrite app_nil_r. split; [done|]. constructor; try done. intros d _ ?. lia. }
  cbn [take_loop]. rewrite at_index_mod by done. fold (pos w i).
  destruct (take_slot_emptied i w r Hsh) as (w1 & -> & He); [lia|].
  destruct (IH (i + 1) w1 (r ++ slot w i)) as (w2 & -> & He2); [by apply (e_shape _ _ _ _ He)|lia|rewrite (e_size _ _ _ _ He); lia|].
  rewrite (seqZ_cons i (Z.of_nat (S n))) by lia. replace (Z.succ i) with (i + 1) by lia. replace (Z.pred (Z.of_nat (S n))) with (Z.of_nat n) by lia.
  assert (slot w1 <$> seqZ (i + 1) (Z.of_nat n) = slot w <$> seqZ (i + 1) (Z.of_nat n)) as E.
  { apply list_fmap_ext. intros k d Hd. apply list_elem_of_lookup_2, elem_of_seqZ in Hd.
    apply (e_stay _ _ _ _ He); lia. }
  rewrite E in *. csimpl. exists w2. split; [by rewrite app_assoc|].
  destruct (emptied_trans _ _ _ _ _ _ _ _ _ He He2) as [].
  constructor; try done.
  - intros d Hd Hr. apply e_gone0; [done|]. lia.
  - intros d Hd Hr. apply e_stay0; [done|]. lia.
Qed.

(** The number of lists that are due at [now]. *)
Definition due_count (now : Z) (w : t) : Z := Z.min (now - ullStart w + 1) (iItemSize w).

(** The lists of the wheel after it has been moved on to [now]. *)
Lemma moved_slot c now took w w1 d : shape w → 1 ≤ c ≤ iItemSize w → 0 ≤ d < iItemSize w →
  emptied (λ d, 0 ≤ d < c) took w w1 →
  let w' := set_start now ((llStartIdx w1 + c - 1) `mod` iItemSize w1) w1 in
  slot w' d = if bool_decide (0 < d ∧ c - 1 + d < iItemSize w) then slot w (c - 1 + d) else [].
Proof.
  intros Hsh Hc Hd He w'.
  assert (∀ k, pos w' d = pos w1 k → slot w' d = slot w1 k) as Hsame
    by (intros k E; unfold slot; by rewrite E).
  assert (pos w' d = pos w1 (c - 1 + d)) as Hpos.
  { unfold pos, w'. simpl. rewrite Zplus_mod_idemp_l. f_equal. lia. }
  case_bool_decide as Hin.
  - rewrite (Hsame _ Hpos). apply (e_stay _ _ _ _ He); lia.
  - destruct (decide (c - 1 + d < iItemSize w)).
    + rewrite (Hsame _ Hpos). apply (e_gone _ _ _ _ He); lia.
    + rewrite (Hsame (c - 1 + d - iItemSize w)); [apply (e_gone _ _ _ _ He); lia|].
      rewrite Hpos. unfold pos. rewrite (e_size _ _ _ _ He).
      replace (llStartIdx w1 + (c - 1 + d)) with (llStartIdx w1 + (c - 1 + d - iItemSize w) + 1 * iItemSize w) by lia.
      by rewrite Z_mod_plus_full.
Qed.

Lemma take_all_inv now w r : inv w → ullStart w ≤ now < 2^63 → now - ullStart w + 1 < 2^31 →
  ∃ w', TakeAllTimeout now w r = (w', r ++ concat (slot w <$> seqZ 0 (due_count now w))) ∧
    inv w' ∧ ullStart w' = now ∧ iItemSize w' = iItemSize w ∧
    items w ≡ₚ concat (slot w <$> seqZ 0 (due_count now w)) ++ items w' ∧
    (∀ e, e ∈ items w' → now < ullExpireTime e).
Proof.
  intros [Hsh Hdue Hfl] Hn Hj. pose proof (sh_start _ Hsh) as Hst. pose proof (size_bounds _ Hsh) as Hsz.
  unfold TakeAllTimeout. rewrite start_if_new_old by done. rewrite bool_decide_false by lia.
  assert (i32 (u64 (now - ullStart w + 1)) = now - ullStart w + 1) as ->
    by (rewrite u64_small by lia; unfold i32; rewrite Z.mod_small by lia; lia).
  assert ((if bool_decide (now - ullStart w + 1 > iItemSize w) then iItemSize w else now - ullStart w + 1)
    = due_count now w) as -> by (unfold due_count; case_bool_decide; lia).
  assert (1 ≤ due_count now w ≤ iItemSize w) as Hc by (unfold due_count; lia).
  rewrite bool_decide_false by lia.
  destruct (take_loop_emptied (Z.to_nat (due_count now w)) 0 w r Hsh) as (w1 & -> & He); [lia..|].
  rewrite Z2Nat.id in * by lia. rewrite at_index_mod by apply (e_shape _ _ _ _ He).
  eexists. split; [done|]. pose proof (e_shape _ _ _ _ He) as Hsh1.
  assert (shape (set_start now ((llStartIdx w1 + due_count now w - 1) `mod` iItemSize w1) w1)) as Hsh2.
  { destruct Hsh1. constructor; try done; simpl; [|lia]. apply Z.mod_pos_bound. rewrite (e_size _ _ _ _ He). lia. }
  assert (∀ d e, 0 ≤ d < iItemSize w →
    e ∈ slot (set_start now ((llStartIdx w1 + due_count now w - 1) `mod` iItemSize w1) w1) d →
    now + d ≤ ullExpireTime e ∧ 0 < d) as Hdue2.
  { intros d e Hd Hin. rewrite (moved_slot (due_count now w) now _ w w1 d Hsh Hc Hd He) in Hin.
    case_bool_decide as Hcd; [|set_solver]. apply Hdue in Hin; [|lia]. unfold due_count in *. lia. }
  split_and!; try done.
  - constructor; [done|..].
    + intros d e Hd Hin. simpl in Hd. rewrite (e_size _ _ _ _ He) in Hd. by apply Hdue2.
    + intros j Hj' Hne. simpl in Hj'. rewrite (e_size _ _ _ _ He) in Hj'.
      apply (e_flags _ _ _ _ He j Hj' Hne), Hfl; [done|]. intros E. apply Hne.
      destruct (pos_onto _ Hsh j) as (d & Hd & <-); [done|].
      change (link_at (pos w d) w1 = []). assert (pos w d = pos w1 d) as ->
        by (unfold pos; by rewrite (e_idx _ _ _ _ He), (e_size _ _ _ _ He)).
      change (slot w1 d = []). destruct (decide (0 ≤ d < due_count now w)); [by apply (e_gone _ _ _ _ He)|].
      by rewrite (e_stay _ _ _ _ He).
  - apply (e_size _ _ _ _ He).
  - apply (e_items _ _ _ _ He).
  - intros e Hin. apply (elem_items _ Hsh2) in Hin as (d & Hd & Hin). simpl in Hd. rewrite (e_size _ _ _ _ He) in Hd.
    apply Hdue2 in Hin; [lia|done].
Qed.

(** ** [GetNextTimeoutInASecond] *)

Lemma byte_bit k b : 0 ≤ k → Z.testbit (Z.shiftl 255 (8 * k)) b = bool_decide (8 * k ≤ b < 8 * k + 8).
Proof.
  intros Hk. destruct (decide (0 ≤ b)) as [Hb|Hb];
    [|rewrite Z.testbit_neg_r by lia; symmetry; apply bool_decide_eq_false; lia].
  rewrite Z.shiftl_spec by lia. change 255 with (Z.ones 8). rewrite Z.testbit_ones by lia.
  case_bool_decide; [apply andb_true_intro; split; [apply Z.leb_le; lia|apply Z.ltb_lt; lia]|].
  apply andb_false_iff. rewrite Z.leb_nle, Z.ltb_nlt. lia.
Qed.

Lemma byte_zero flag k b : 0 ≤ k → Z.land flag (Z.shiftl 255 (8 * k)) = 0 → b / 8 = k → Z.testbit flag b = false.
Proof.
  intros Hk Hz Hb. assert (8 * k ≤ b < 8 * k + 8) by (subst k; pose proof (Z.div_mod b 8); pose proof (Z.mod_pos_bound b 8); lia).
  apply (f_equal (λ z, Z.testbit z b)) in Hz. rewrite Z.testbit_0_l, Z.land_spec, byte_bit in Hz by lia.
  rewrite bool_decide_true in Hz by lia. by rewrite andb_true_r in Hz.
Qed.

Lemma byte_nonzero flag k : 0 ≤ flag → 0 ≤ k → Z.land flag (Z.shiftl 255 (8 * k)) ≠ 0 →
  ∃ b, 0 ≤ b ∧ b / 8 = k ∧ Z.testbit flag b = true.
Proof.
  intros Hf Hk Hn. set (x := Z.land flag (Z.shiftl 255 (8 * k))) in *.
  assert (0 ≤ x) by (apply Z.land_nonneg; lia).
  assert (Z.testbit x (Z.log2 x) = true) as Hb by (apply Z.bit_log2; lia).
  unfold x in Hb at 1. rewrite Z.land_spec, byte_bit in Hb by lia. apply andb_true_iff in Hb as [Hb Hr].
  apply bool_decide_eq_true in Hr. exists (Z.log2 x). split_and!; [lia| |done].
  symmetry. apply Z.div_unique with (Z.log2 x - 8 * k); lia.
Qed.

(** The chain of tests, as a search from byte [k] on. *)
Fixpoint byte_from (n : nat) (k flag : Z) : Z :=
  match n with
  | O => 8 * (k + 1)
  | S n => if bool_decide (Z.land flag (Z.shiftl 255 (8 * k)) ≠ 0) then 8 * (k + 1) else byte_from n (k + 1) flag
  end.
Lemma first_byte_search flag : first_byte flag = byte_from 7 0 flag.
Proof. reflexivity. Qed.

(** The bit that [first_byte] finds is in the first byte with a bit. *)
Definition first_bit (ret flag b : Z) : Prop :=
  0 ≤ b < 64 ∧ Z.testbit flag b = true ∧ ret = 8 * (b / 8 + 1) ∧
  ∀ b', 0 ≤ b' → Z.testbit flag b' = true → b / 8 ≤ b' / 8.

Lemma byte_from_spec n k flag : is_u64 flag → flag ≠ 0 → 0 ≤ k → k + Z.of_nat n = 7 →
  (∀ b, 0 ≤ b → b / 8 < k → Z.testbit flag b = false) → ∃ b, first_bit (byte_from n k flag) flag b.
Proof.
  intros Hu Hn. pose proof Hu as Hub. apply is_u64_bits in Hub as [H0 Hub].
  assert (∀ b, Z.testbit flag b = true → 0 ≤ b < 64) as Hrange.
  { intros b Hb. destruct (decide (0 ≤ b)); [|by rewrite Z.testbit_neg_r in Hb by lia].
    destruct (decide (b < 64)); [done|]. by rewrite Hub in Hb by lia. }
  assert (∀ k b, (∀ b, 0 ≤ b → b / 8 < k → Z.testbit flag b = false) → Z.testbit flag b = true →
    b / 8 = k → first_bit (8 * (k + 1)) flag b) as Hfirst.
  { intros k' b Hlow Hb Hk. split_and!; [apply Hrange; done..|done|by rewrite Hk|].
    intros b' Hb' Ht. destruct (decide (b / 8 ≤ b' / 8)); [done|]. rewrite Hlow in Ht; [done|done|lia]. }
  revert k. induction n as [|n IH]; intros k Hk Hkn Hlow; cbn [byte_from].
  - exists (Z.log2 flag). assert (Z.testbit flag (Z.log2 flag) = true) as Hb by (apply Z.bit_log2; lia).
    pose proof (Hrange _ Hb). apply Hfirst; try done.
    assert (Z.log2 flag / 8 < 8) by (apply Z.div_lt_upper_bound; lia).
    destruct (decide (Z.log2 flag / 8 < k)) as [Hl|]; [by rewrite Hlow in Hb by (done || lia)|lia].
  - case_bool_decide as E.
    + destruct (byte_nonzero flag k) as (b & Hb & Hbk & Ht); [lia..|done|]. exists b. by apply Hfirst.
    + apply IH; [lia..|]. intros b Hb Hbk.
      destruct (decide (b / 8 = k)); [by apply (byte_zero flag k)|]. apply Hlow; lia.
Qed.

Lemma first_byte_spec flag : is_u64 flag → flag ≠ 0 → ∃ b, first_bit (first_byte flag) flag b.
Proof.
  intros Hu Hn. rewrite first_byte_search. apply byte_from_spec; try done.
  intros b Hb Hlt. assert (0 ≤ b / 8) by (apply Z.div_pos; lia). lia.
Qed.

(** The constants of the first word, for each of its bits. *)
Lemma start_consts b0 : 0 ≤ b0 < 64 →
  Z.land b0 0xFFFFFFF8 = 8 * (b0 / 8) ∧ is_u64 (u64 (Z.shiftr (- 2^63) (63 - b0))) ∧
  ∀ b, 0 ≤ b < 64 → Z.testbit (u64 (Z.shiftr (- 2^63) (63 - b0))) b = bool_decide (b0 ≤ b).
Proof.
  intros Hb0.
  assert (Forall (λ b0, Z.land b0 0xFFFFFFF8 = 8 * (b0 / 8) ∧
    Forall (λ b, Z.testbit (u64 (Z.shiftr (- 2^63) (63 - b0))) b = bool_decide (b0 ≤ b)) (seqZ 0 64)) (seqZ 0 64)) as Hall
    by (apply (bool_decide_unpack _); vm_compute; exact I).
  rewrite Forall_forall in Hall. destruct (Hall b0) as [H1 H2]; [apply elem_of_seqZ; lia|].
  rewrite Forall_forall in H2. split_and!; [done|apply u64_range|].
  intros b Hb. apply H2, elem_of_seqZ. lia.
Qed.

Section scan.
Context (w : t) (Hsh : shape w).

(** The word and the bit of the start. *)
Definition w0 : Z := llStartIdx w / 64.
Definition b0 : Z := llStartIdx w `mod` 64.

Lemma b0_range : 0 ≤ b0 < 64.
Proof. apply Z.mod_pos_bound. lia. Qed.
Lemma start_split : llStartIdx w = 64 * w0 + b0.
Proof. apply Z.div_mod. lia. Qed.

(** The index [j] words and [b] bits after the start of the first word. *)
Lemma pos_word j b : 0 ≤ b < 64 → pos w (64 * j + b - b0) = 64 * ((w0 + j) `mod` iFlagSize w) + b.
Proof.
  intros Hb. pose proof (sh_words _ Hsh) as Hw. pose proof (size_bounds _ Hsh).
  unfold pos. rewrite start_split, Hw.
  replace (64 * w0 + b0 + (64 * j + b - b0)) with (64 * (w0 + j) + b) by lia.
  pose proof (Z.div_mod (w0 + j) (iFlagSize w) ltac:(lia)) as E.
  pose proof (Z.mod_pos_bound (w0 + j) (iFlagSize w) ltac:(lia)).
  symmetry. apply Z.mod_unique_pos with ((w0 + j) / iFlagSize w); [lia|]. rewrite E at 1. ring.
Qed.
Lemma pos_word_div j b : 0 ≤ b < 64 → pos w (64 * j + b - b0) / 64 = (w0 + j) `mod` iFlagSize w.
Proof. intros Hb. rewrite pos_word by done. symmetry. apply Z.div_unique with b; lia. Qed.
Lemma pos_word_mod j b : 0 ≤ b < 64 → pos w (64 * j + b - b0) `mod` 64 = b.
Proof. intros Hb. rewrite pos_word by done. symmetry. apply Z.mod_unique with ((w0 + j) `mod` iFlagSize w); lia. Qed.

(** The flag there. *)
Lemma flagged_word j b : 0 ≤ b < 64 →
  flagged w (pos w (64 * j + b - b0)) = Z.testbit (flags_at ((w0 + j) `mod` iFlagSize w) w) b.
Proof. intros Hb. unfold flagged. by rewrite pos_word_div, pos_word_mod. Qed.

(** Nothing is flagged in the first [n] milliseconds from the first word on. *)
Definition clear_to (n : Z) : Prop := ∀ d, 0 ≤ d → b0 + d < n → flagged w (pos w d) = false.

(** A time to sleep: at most fifteen milliseconds beyond the first flag of the
    second, and not short of every flag unless it is long. *)
Definition wait_ok (ret : Z) : Prop :=
  0 < ret ≤ 1015 ∧
  (∀ d, 0 ≤ d ≤ 1000 → flagged w (pos w d) = true → ret ≤ d + 15) ∧
  (937 ≤ ret ∨ ∃ d, 0 ≤ d < ret ∧ flagged w (pos w d) = true).

(** A word in which a flag is found, [j] words after the first; [flag] is the
    word, perhaps without some of its bits, shifted by [sh] bits. *)
Lemma found j sh flag : 0 ≤ j → 0 ≤ sh → is_u64 flag → flag ≠ 0 → clear_to (64 * j) →
  (j = 0 → sh = 8 * (b0 / 8)) → (0 < j → sh = 0) →
  (∀ b, 0 ≤ b → Z.testbit flag b = true →
     b + sh < 64 ∧ b0 ≤ 64 * j + b + sh ≤ b0 + 1000 ∧ Z.testbit (flags_at ((w0 + j) `mod` iFlagSize w) w) (b + sh) = true) →
  (∀ b, 0 ≤ b < 64 → b0 ≤ 64 * j + b ≤ b0 + 1000 → Z.testbit (flags_at ((w0 + j) `mod` iFlagSize w) w) b = true →
     sh ≤ b ∧ Z.testbit flag (b - sh) = true) →
  wait_ok (64 * j + sh - 8 * (b0 / 8) + first_byte flag).
Proof.
  intros Hj Hsh0 Hu Hn Hclear Hj0 Hj1 Hback Hforth.
  destruct (first_byte_spec flag Hu Hn) as (b & Hb & Ht & -> & Hmin).
  destruct (Hback b ltac:(lia) Ht) as (Hb64 & Hbd & Htw).
  pose proof b0_range. pose proof (Z.div_mod b0 8 ltac:(lia)). pose proof (Z.mod_pos_bound b0 8 ltac:(lia)).
  pose proof (Z.div_mod b 8 ltac:(lia)). pose proof (Z.mod_pos_bound b 8 ltac:(lia)).
  assert (sh `mod` 8 = 0) as Hsh8.
  { destruct (decide (j = 0)); [rewrite Hj0 by done; rewrite Z.mul_comm; apply Z.mod_mul; lia|by rewrite Hj1 by lia]. }
  split_and!.
  - destruct (decide (j = 0)); [rewrite Hj0 by done|rewrite Hj1 by lia]; lia.
  - assert (sh < 64) by lia. pose proof (Z.div_mod sh 8 ltac:(lia)). lia.
  - intros d Hd Hfl. destruct (decide (b0 + d < 64 * j)); [by rewrite Hclear in Hfl by lia|].
    destruct (decide (b0 + d < 64 * j + 64)).
    + assert (0 ≤ b0 + d - 64 * j < 64) as Hr by lia.
      replace d with (64 * j + (b0 + d - 64 * j) - b0) in Hfl by lia. rewrite flagged_word in Hfl by done.
      apply Hforth in Hfl as [Hsb Hfl]; [|lia..]. apply Hmin in Hfl; [|lia].
      pose proof (Z.div_mod (b0 + d - 64 * j - sh) 8 ltac:(lia)).
      pose proof (Z.mod_pos_bound (b0 + d - 64 * j - sh) 8 ltac:(lia)). lia.
    + pose proof (Z.div_mod sh 8 ltac:(lia)). lia.
  - right. exists (64 * j + (b + sh) - b0). split; [|by rewrite flagged_word by lia]. lia.
Qed.

Lemma F_bounds : 16 ≤ iFlagSize w.
Proof. pose proof (sh_words _ Hsh). pose proof (size_bounds _ Hsh). lia. Qed.

Lemma w0_mod : w0 `mod` iFlagSize w = w0.
Proof.
  apply Z.mod_small. unfold w0. apply word_of; [done|]. apply (sh_idx _ Hsh).
Qed.

Lemma word_u64 j : is_u64 (flags_at ((w0 + j) `mod` iFlagSize w) w).
Proof. apply flags_range; [done|]. apply Z.mod_pos_bound. pose proof F_bounds. lia. Qed.

(** The first word, from the bit of the start on. *)
Definition startFlag : Z :=
  Z.shiftr (Z.land (flags_at w0 w) (u64 (Z.shiftr (- 2^63) (63 - b0)))) (8 * (b0 / 8)).

Lemma startFlag_bit b : 0 ≤ b → Z.testbit startFlag b =
  Z.testbit (flags_at w0 w) (b + 8 * (b0 / 8)) && bool_decide (b0 ≤ b + 8 * (b0 / 8) < 64).
Proof.
  intros Hb. pose proof b0_range. assert (0 ≤ b0 / 8) by (apply Z.div_pos; lia).
  unfold startFlag. rewrite Z.shiftr_spec, Z.land_spec by lia.
  destruct (start_consts b0 b0_range) as (_ & Hu & Hbit).
  destruct (decide (b + 8 * (b0 / 8) < 64)).
  - rewrite Hbit by lia. f_equal. apply bool_decide_ext. lia.
  - apply is_u64_bits in Hu as [_ Hu]. rewrite Hu by lia. by rewrite bool_decide_false, !andb_false_r by lia.
Qed.

Lemma startFlag_u64 : is_u64 startFlag.
Proof.
  pose proof b0_range. assert (0 ≤ b0 / 8) by (apply Z.div_pos; lia). apply is_u64_bits. split.
  - apply Z.shiftr_nonneg, Z.land_nonneg. left. pose proof (word_u64 0) as [Hw _].
    by rewrite Z.add_0_r, w0_mod in Hw.
  - intros b Hb. rewrite startFlag_bit by lia. rewrite bool_decide_false by lia. apply andb_false_r.
Qed.

Lemma first_word : startFlag ≠ 0 → wait_ok (first_byte startFlag).
Proof.
  intros Hn. pose proof b0_range. assert (0 ≤ b0 / 8) by (apply Z.div_pos; lia).
  replace (first_byte startFlag) with (64 * 0 + 8 * (b0 / 8) - 8 * (b0 / 8) + first_byte startFlag) by lia.
  apply found; try done; [lia|apply startFlag_u64|intros d ? ?; lia| |]; rewrite Z.add_0_r, w0_mod.
  - intros b Hb. rewrite startFlag_bit by done. intros [Ht Hr]%andb_true_iff.
    apply bool_decide_eq_true in Hr. split_and!; try done; lia.
  - intros b Hb Hr Ht. pose proof (Z.mul_div_le b0 8 ltac:(lia)). split; [lia|].
    rewrite startFlag_bit by lia. replace (b - 8 * (b0 / 8) + 8 * (b0 / 8)) with b by lia.
    rewrite Ht, bool_decide_true by lia. done.
Qed.

Lemma first_word_clear : startFlag = 0 → clear_to 64.
Proof.
  intros Hz d Hd Hlt. pose proof b0_range. pose proof (Z.mul_div_le b0 8 ltac:(lia)).
  assert (0 ≤ b0 / 8) by (apply Z.div_pos; lia).
  replace d with (64 * 0 + (b0 + d) - b0) by lia. rewrite flagged_word by lia. rewrite Z.add_0_r, w0_mod.
  pose proof (startFlag_bit (b0 + d - 8 * (b0 / 8)) ltac:(lia)) as Hb.
  rewrite Hz, Z.testbit_0_l, bool_decide_true in Hb by lia.
  rewrite andb_true_r in Hb. rewrite Hb. f_equal. lia.
Qed.

(** The words between the first and the one in which the second ends. *)
Definition lastWord : Z := (b0 + 1000) / 64.

Lemma lastWord_range : 64 * lastWord ≤ b0 + 1000 < 64 * lastWord + 64 ∧ 15 ≤ lastWord ≤ 16.
Proof.
  unfold lastWord. pose proof b0_range. pose proof (Z.div_mod (b0 + 1000) 64 ltac:(lia)).
  pose proof (Z.mod_pos_bound (b0 + 1000) 64 ltac:(lia)).
  split; [lia|]. split; [apply Z.div_le_lower_bound; lia|].
  assert ((b0 + 1000) / 64 < 17) by (apply Z.div_lt_upper_bound; lia). lia.
Qed.

Lemma word_eq j : 1 ≤ j ≤ lastWord → (w0 + j) `mod` iFlagSize w = (w0 + lastWord) `mod` iFlagSize w → j = lastWord.
Proof.
  intros Hj E. pose proof F_bounds. pose proof lastWord_range.
  assert ((lastWord - j) `mod` iFlagSize w = 0) as Hm.
  { replace (lastWord - j) with ((w0 + lastWord) - (w0 + j)) by lia.
    rewrite Zminus_mod, E, Z.sub_diag. apply Z.mod_0_l. lia. }
  rewrite Z.mod_small in Hm by lia. lia.
Qed.

Lemma scan_words_spec fuel j : 1 ≤ j ≤ lastWord → (Z.to_nat (lastWord - j) ≤ fuel)%nat → clear_to (64 * j) →
  ∃ r, scan_words fuel ((w0 + j) `mod` iFlagSize w) ((w0 + lastWord) `mod` iFlagSize w) (64 * j - 8 * (b0 / 8)) w = Ok r ∧
    match r with
    | inl ret => wait_ok ret
    | inr ret => ret = 64 * lastWord - 8 * (b0 / 8) ∧ clear_to (64 * lastWord)
    end.
Proof.
  revert j. induction fuel as [|fuel IH]; intros j Hj Hf Hclear; cbn [scan_words];
    (case_bool_decide as E; [apply word_eq in E as ->; [|done]; eexists; split; [done|]; simpl; auto|]);
    [assert (j = lastWord) as -> by lia; done|].
  assert (j ≠ lastWord) by (by intros ->). pose proof lastWord_range. pose proof b0_range.
  case_bool_decide as Hfl.
  - eexists. split; [done|]. simpl.
    replace (64 * j - 8 * (b0 / 8)) with (64 * j + 0 - 8 * (b0 / 8)) by lia.
    apply found; try done; [lia|apply word_u64|lia|..].
    + intros b Hb Ht. rewrite Z.add_0_r. pose proof (proj1 (is_u64_bits _) (word_u64 j)) as [_ Hu].
      assert (b < 64) by (destruct (decide (b < 64)); [done|by rewrite Hu in Ht by lia]). split_and!; try done; lia.
    + intros b Hb _ Ht. rewrite Z.sub_0_r. split; [lia|done].
  - rewrite flag_index_mod by done. rewrite Zplus_mod_idemp_l.
    replace (w0 + j + 1) with (w0 + (j + 1)) by lia.
    replace (64 * j - 8 * (b0 / 8) + 64) with (64 * (j + 1) - 8 * (b0 / 8)) by lia.
    apply IH; [lia..|]. intros d Hd Hlt. destruct (decide (b0 + d < 64 * j)); [by apply Hclear|].
    replace d with (64 * j + (b0 + d - 64 * j) - b0) by lia. rewrite flagged_word by lia.
    by rewrite Hfl, Z.testbit_0_l.
Qed.

(** The word in which the second ends. *)
Definition endBit : Z := b0 + 1000 - 64 * lastWord.

Lemma end_pos : pos w 1000 / 64 = (w0 + lastWord) `mod` iFlagSize w ∧ pos w 1000 `mod` 64 = endBit.
Proof.
  pose proof lastWord_range. replace 1000 with (64 * lastWord + endBit - b0) by (unfold endBit; lia).
  split; [apply pos_word_div|apply pos_word_mod]; unfold endBit; lia.
Qed.

Lemma scan_end_spec ret : ret = 64 * lastWord - 8 * (b0 / 8) → clear_to (64 * lastWord) → endBit ≠ 63 →
  ∃ r, scan_end (pos w 1000) ret w = Ok r ∧ wait_ok r.
Proof.
  intros -> Hclear Hend. pose proof lastWord_range as [HL HL2]. pose proof b0_range.
  assert (0 ≤ endBit < 63) as He by (unfold endBit in *; lia).
  assert (0 ≤ b0 / 8 < 8) by (split; [apply Z.div_pos|apply Z.div_lt_upper_bound]; lia).
  pose proof (Z.div_mod b0 8 ltac:(lia)). pose proof (Z.mod_pos_bound b0 8 ltac:(lia)).
  unfold scan_end. rewrite land_63, shiftr_6. destruct end_pos as [-> ->].
  unfold shl64. rewrite bool_decide_true by lia. simpl. rewrite Z.shiftl_1_l.
  assert (2^(endBit + 1) < 2^64) by (apply Z.pow_lt_mono_r; lia).
  assert (0 < 2^(endBit + 1)) by lia. rewrite (u64_small (2^(endBit + 1))), u64_small by lia.
  replace (2^(endBit + 1) - 1) with (Z.ones (endBit + 1)) by (rewrite Z.ones_equiv; lia).
  set (word := flags_at ((w0 + lastWord) `mod` iFlagSize w) w).
  pose proof (word_u64 lastWord) as Hu. fold word in Hu. apply is_u64_bits in Hu as [Hw0 Hu].
  assert (∀ b, 0 ≤ b → Z.testbit (Z.land word (Z.ones (endBit + 1))) b = Z.testbit word b && bool_decide (b ≤ endBit)) as Hbit.
  { intros b Hb. rewrite Z.land_spec, Z.testbit_ones_nonneg by lia. f_equal.
    case_bool_decide; [apply Z.ltb_lt; lia|apply Z.ltb_nlt; lia]. }
  eexists. split; [done|]. case_bool_decide as Hfl.
  - replace (64 * lastWord - 8 * (b0 / 8)) with (64 * lastWord + 0 - 8 * (b0 / 8)) by lia.
    apply found; try done; [lia| |lia|..].
    + apply is_u64_bits. split; [apply Z.land_nonneg; lia|]. intros b Hb. by rewrite Hbit, Hu by lia.
    + intros b Hb. rewrite Hbit by done. intros [Ht Hr]%andb_true_iff. apply bool_decide_eq_true in Hr.
      rewrite Z.add_0_r. unfold endBit in *. split_and!; try done; lia.
    + intros b Hb Hr Ht. rewrite Z.sub_0_r. split; [lia|]. fold word in Ht.
      rewrite Hbit, Ht, bool_decide_true by (unfold endBit; lia). done.
  - split_and!; [lia..| |left; lia]. intros d Hd Hf.
    destruct (decide (b0 + d < 64 * lastWord)); [by rewrite Hclear in Hf by lia|]. exfalso.
    replace d with (64 * lastWord + (b0 + d - 64 * lastWord) - b0) in Hf by lia.
    rewrite flagged_word in Hf by lia. fold word in Hf.
    pose proof (Hbit (b0 + d - 64 * lastWord) ltac:(lia)) as E.
    rewrite Hfl, Z.testbit_0_l, Hf, bool_decide_true in E by (unfold endBit; lia). done.
Qed.

(** [GetNextTimeoutInASecond] gives a time to sleep
    that is positive, at most 1015 milliseconds, at most fifteen milliseconds
    beyond the first list with a flag, and not wasted: it ends after some flag
    or is nearly a second.  The only other outcome is a shift by 64 bits, which
    happens when no flag is set before the word in which the second ends and
    that is at the last bit of its word. *)
Lemma next_timeout now : ullStart w ≤ now →
  match GetNextTimeoutInASecond now w with
  | Ok (ret, w') => w' = w ∧ wait_ok ret
  | Fault f => f = BadShift ∧ (llStartIdx w + 1000) `mod` 64 = 63 ∧ clear_to (64 * lastWord)
  end.
Proof.
  intros Hn. unfold GetNextTimeoutInASecond. rewrite start_if_new_old by done. rewrite bool_decide_false by lia.
  rewrite !shiftr_6, land_63. fold w0 b0. destruct (start_consts b0 b0_range) as (-> & _ & _). fold startFlag.
  case_bool_decide as Hs; [split; [done|by apply first_word]|].
  pose proof lastWord_range as [HL HL2]. pose proof F_bounds.
  rewrite flag_index_mod, at_index_mod by done. fold (pos w 1000). destruct end_pos as [-> Hm].
  destruct (scan_words_spec (Z.to_nat (iFlagSize w)) 1) as (r & Hr & Hr2); [lia..|by apply first_word_clear|].
  rewrite Z.mul_1_r in Hr. rewrite Hr. simpl. destruct r as [ret|ret]; [done|]. destruct Hr2 as [-> Hc].
  destruct (decide (endBit = 63)) as [E|E].
  - unfold scan_end. rewrite land_63, Hm, E. simpl. split_and!; try done.
    rewrite <-E, <-Hm. unfold pos. destruct (sh_size _ Hsh) as (k & Hk & ->).
    replace (2^k) with (64 * 2^(k - 6)) by (change 64 with (2^6); rewrite <-Z.pow_add_r by lia; f_equal; lia).
    rewrite Z.rem_mul_r by lia. rewrite Z.mul_comm, Z_mod_plus_full. by rewrite Zmod_mod.
  - destruct (scan_end_spec _ eq_refl Hc E) as (r & -> & Hw). done.
Qed.

End scan.

(** ** [RemoveFromLink] *)
Lemma remove_link idx x w : shape w → 0 ≤ idx < iItemSize w →
  link_at idx (remove x w) = filter (λ e, addr e ≠ x) (link_at idx w).
Proof.
  intros Hsh Hi. unfold link_at, remove. simpl. 
  rewrite !list_lookup_total_alt, list_lookup_fmap. by destruct (pItems w !! Z.to_nat idx).
Qed.

Lemma wheel_remove_inv x w : inv w →
  inv (remove x w) ∧ items (remove x w) = filter (λ e, addr e ≠ x) (items w).
Proof.
  intros [Hsh Hdue Hfl].
  assert (shape (remove x w)) as Hsh'
    by (destruct Hsh; constructor; try done; simpl; unfold zlen in *; by rewrite length_fmap).
  split; [constructor; [done|..]|].
  - intros d e Hd Hin. unfold slot in Hin. change (pos (remove x w) d) with (pos w d) in Hin.
    rewrite remove_link in Hin by (done || by apply pos_range). apply list_elem_of_filter in Hin as [_ Hin].
    by apply Hdue.
  - intros idx Hi Hne. rewrite remove_link in Hne by done. apply (Hfl idx Hi). intros E. apply Hne. by rewrite E.
  - unfold items, remove. simpl. generalize (pItems w). clear. intros l.
    induction l as [|a l IH]; [done|]. csimpl. rewrite filter_app. by f_equal.
Qed.

Lemma empty_lists n i : (replicate n ([] : list item)) !!! i = [].
Proof.
  rewrite list_lookup_total_alt. destruct (replicate n [] !! i) as [l|] eqn:E; [|done].
  by apply lookup_replicate in E as [-> _].
Qed.

(** A new wheel is empty. *)
Lemma AllocTimeout_inv k now : 10 ≤ k ≤ 30 → 0 < now < 2^63 →
  ∃ w, AllocTimeout (2^k) now = Ok (Some w) ∧ inv w ∧ items w = [] ∧ ullStart w = now ∧ iItemSize w = 2^k.
Proof.
  intros Hk Hn. assert (2^10 ≤ 2^k) by (apply Z.pow_le_mono_r; lia).
  assert (2^k = 64 * 2^(k - 6)) as E by (change 64 with (2^6); rewrite <-Z.pow_add_r by lia; f_equal; lia).
  unfold AllocTimeout. rewrite land_pow2_mod, Z_mod_same_full by lia. rewrite require_true by done. simpl.
  rewrite bool_decide_false by lia. rewrite shiftr_6.
  assert (2^k / 64 = 2^(k - 6)) as -> by (rewrite E; rewrite Z.mul_comm; apply Z.div_mul; lia).
  assert (0 < 2^(k - 6)) by lia. eexists. split; [done|].
  assert (∀ n, concat (replicate n ([] : list item)) = []) as Hnil by (intros n; by induction n).
  split_and!; try done; [|apply Hnil]. constructor.
  - constructor; simpl; try done; try lia; [by exists k|apply zlen_replicate; lia|apply zlen_replicate; lia|].
    apply Forall_replicate. unfold is_u64. lia.
  - intros d e _ Hin. unfold slot, link_at in Hin. simpl in Hin. rewrite empty_lists in Hin. set_solver.
  - intros idx Hi Hne. exfalso. apply Hne. unfold link_at. simpl. apply empty_lists.
Qed.

(** When the clock has moved on by 2^31 milliseconds or more, but less than
    2^32, the number of due lists is negative as an [int], and nothing is
    taken. *)
Lemma take_all_jump now w r : shape w → now < 2^63 → 2^31 ≤ now - ullStart w + 1 < 2^32 →
  TakeAllTimeout now w r = (w, r).
Proof.
  intros Hsh Hn Hj. pose proof (size_bounds _ Hsh). pose proof (sh_start _ Hsh).
  unfold TakeAllTimeout. rewrite start_if_new_old by done. rewrite bool_decide_false by lia.
  assert (i32 (u64 (now - ullStart w + 1)) = now - ullStart w + 1 - 2^32) as ->.
  { rewrite u64_small by lia. unfold i32.
    replace (now - ullStart w + 1 + 2^31) with (now - ullStart w + 1 + 2^31 - 2^32 + 1 * 2^32) by lia.
    rewrite Z_mod_plus_full, Z.mod_small by lia. lia. }
  rewrite (bool_decide_false (now - ullStart w + 1 - 2^32 > iItemSize w)) by lia.
  by rewrite bool_decide_true by lia.
Qed.
End TimeWheel.
