(* ===== verification/EventLoop.v ===== *)
(** * co_routine.cpp: the event loop of a thread

    A coroutine of a thread waits by leaving an [stTimeoutItem_t] in a list and
    yielding: [co_poll_inner] in the time wheel or, without time limit, in
    [pstNoTimeoutList]; [co_cond_timedwait] in the list of a condition variable
    and perhaps the wheel; [co_activate] puts an item for a coroutine directly
    into [pstActiveList].  [co_eventloop] moves the items whose descriptors are
    ready or whose time has come to the active list and resumes the coroutine of
    each item of that list, until it is empty; the coroutines run inside that
    loop.  The theorems are that an item that waits is always in a list, that
    each item is resumed once, that time-outs are neither early nor left behind,
    and a run in which a signal is lost. *)
From stdpp Require Import gmap.
From S2P Require Import Prelude TimeWheel.
Open Scope Z_scope.

Module EventLoop.
Import TimeWheel.

(** What an item is for: [stPoll_t], [stCoCondItem_t] in the list of the
    condition variable [c], or an item of [co_activate]. *)
Inductive kind : Type := Poll | CondWait (c : Z) | Activation.

(** The members of an item. *)
Record wait : Type := Wait {
  what : kind;
  expire : Z;
  bTimeout : bool;
  iAllEventDetach : bool;
  iRaiseCnt : Z;
}.

(** Where [co_eventloop] is: not yet called; in [co_epoll_wait]; emptying the
    active list, with the time of the round. *)
Inductive pc : Type := Boot | Polling | Draining (now : Z).

(** A coroutine that was resumed: the item, its time limit, whether the item
    was taken as timed out, and the time of the round. *)
Record resumption : Type := Resumption { r_item : Z; r_expire : Z; r_timeout : bool; r_now : Z }.

(** The lists of [stCoEpoll_t], the items that wait, the lists of the condition
    variables, the clock ([GetTickMS]), and the record of the coroutines
    resumed. *)
Record t : Type := Make {
  wheel : TimeWheel.t;
  noTimeout : list Z;
  active : list Z;
  waits : gmap Z wait;
  conds : gmap Z (list Z);
  at_ : pc;
  clock : Z;
  resumed : list resumption;
}.

Definition set_wheel (w : TimeWheel.t) (s : t) : t :=
  Make w (noTimeout s) (active s) (waits s) (conds s) (at_ s) (clock s) (resumed s).
Definition set_noTimeout (l : list Z) (s : t) : t :=
  Make (wheel s) l (active s) (waits s) (conds s) (at_ s) (clock s) (resumed s).
Definition set_active (l : list Z) (s : t) : t :=
  Make (wheel s) (noTimeout s) l (waits s) (conds s) (at_ s) (clock s) (resumed s).
Definition set_waits (m : gmap Z wait) (s : t) : t :=
  Make (wheel s) (noTimeout s) (active s) m (conds s) (at_ s) (clock s) (resumed s).
Definition set_cond (c : Z) (l : list Z) (s : t) : t :=
  Make (wheel s) (noTimeout s) (active s) (waits s) (<[c := l]> (conds s)) (at_ s) (clock s) (resumed s).
Definition set_pc (p : pc) (s : t) : t :=
  Make (wheel s) (noTimeout s) (active s) (waits s) (conds s) p (clock s) (resumed s).
Definition set_clock (z : Z) (s : t) : t :=
  Make (wheel s) (noTimeout s) (active s) (waits s) (conds s) (at_ s) z (resumed s).
Definition log (r : resumption) (s : t) : t :=
  Make (wheel s) (noTimeout s) (active s) (waits s) (conds s) (at_ s) (clock s) (resumed s ++ [r]).

(** The items in the lists of the event loop: those with [pLink] set. *)
Definition linked (s : t) : list Z := (addr <$> items (wheel s)) ++ noTimeout s ++ active s.

(** [AddTail] to the active list and to [pstNoTimeoutList]. *)
Definition add_active (x : Z) (s : t) : t :=
  if decide (x ∈ linked s) then s else set_active (active s ++ [x]) s.
Definition add_noTimeout (x : Z) (s : t) : t :=
  if decide (x ∈ linked s) then s else set_noTimeout (noTimeout s ++ [x]) s.

(** [RemoveFromLink] of an item of the event loop. *)
Definition RemoveFromLink (x : Z) (s : t) : t :=
  set_active (filter (λ y, y ≠ x) (active s))
    (set_noTimeout (filter (λ y, y ≠ x) (noTimeout s)) (set_wheel (remove x (wheel s)) s)).

(** [co_poll_inner] up to its yield, for the new item [x] and a time limit
    other than 0; without the descriptors.  The result tells whether the
    coroutine yields. *)
Definition co_poll (x timeout : Z) (s : t) : bool * t :=
  if bool_decide (timeout > 0) then
    let now := clock s in
    let e := u64 (now + timeout) in
    let '(ok, w) := AddTimeout (Item x e) now (wheel s) in
    if ok then (true, set_waits (<[x := Wait Poll e false false 0]> (waits s)) (set_wheel w s))
    else (false, set_wheel w s)
  else (true, add_noTimeout x (set_waits (<[x := Wait Poll 0 false false 0]> (waits s)) s)).

(** [co_cond_timedwait] up to its yield, for the new item [x]. *)
Definition cond_list (c : Z) (s : t) : list Z := default [] (conds s !! c).
Definition co_cond_timedwait (x c ms : Z) (s : t) : bool * t :=
  if bool_decide (ms > 0) then
    let now := clock s in
    let e := u64 (now + ms) in
    let '(ok, w) := AddTimeout (Item x e) now (wheel s) in
    if ok then
      let s := set_waits (<[x := Wait (CondWait c) e false false 0]> (waits s)) (set_wheel w s) in
      (true, set_cond c (cond_list c s ++ [x]) s)
    else (false, set_wheel w s)
  else
    let s := set_waits (<[x := Wait (CondWait c) 0 false false 0]> (waits s)) s in
    (true, set_cond c (cond_list c s ++ [x]) s).

(** [co_cond_signal] *)
Definition co_cond_signal (c : Z) (s : t) : t :=
  match cond_list c s with
  | [] => s
  | sp :: l => add_active sp (RemoveFromLink sp (set_cond c l s))
  end.

(** [co_cond_broadcast]; the fuel is the length of the list. *)
Fixpoint broadcast_loop (fuel : nat) (c : Z) (s : t) : t :=
  match fuel, cond_list c s with
  | S fuel, _ :: _ => broadcast_loop fuel c (co_cond_signal c s)
  | _, _ => s
  end.
Definition co_cond_broadcast (c : Z) (s : t) : t := broadcast_loop (length (cond_list c s)) c s.

(** [co_activate] with the new item [x]. *)
Definition co_activate (x : Z) (s : t) : t :=
  add_active x (set_waits (<[x := Wait Activation 0 false false 0]> (waits s)) s).

(** [OnPollPreparePfn]: a descriptor of the poll [x] is ready. *)
Definition OnPollPrepare (x : Z) (s : t) : outcome t :=
  i ← deref (waits s !! x);
  let i1 := Wait (what i) (expire i) (bTimeout i) true (iRaiseCnt i + 1) in
  if iAllEventDetach i then Ok (set_waits (<[x := i1]> (waits s)) s)
  else Ok (add_active x (RemoveFromLink x (set_waits (<[x := i1]> (waits s)) s))).

Fixpoint prepare (evs : list Z) (s : t) : outcome t :=
  match evs with
  | [] => Ok s
  | x :: evs => s ← OnPollPrepare x s; prepare evs s
  end.

(** [lp->bTimeout = true] for the items of a list. *)
Definition mark (x : Z) (m : gmap Z wait) : gmap Z wait :=
  alter (λ i, Wait (what i) (expire i) true (iAllEventDetach i) (iRaiseCnt i)) x m.
Definition mark_all (xs : list Z) (m : gmap Z wait) : gmap Z wait := foldr mark m xs.

(** [co_eventloop]: from the return of [co_epoll_wait], with the events [evs],
    up to the loop over the active list. *)
Definition wake_up (evs : list Z) (s : t) : outcome t :=
  s ← prepare evs s;
  let now := clock s in
  let '(w, timeout) := TakeAllTimeout now (wheel s) [] in
  let xs := addr <$> timeout in
  let s := set_waits (mark_all xs (waits s)) (set_wheel w s) in
  Ok (set_pc (Draining now) (set_active (active s ++ xs) s)).

(** The coroutine of the item [x] is resumed: what [co_poll_inner],
    [co_cond_timedwait] or [ActiveProcess] does after the yield. *)
Definition resume (x now : Z) (s : t) : outcome t :=
  i ← deref (waits s !! x);
  s ← (match what i with
    | Poll => _ ← require (x ∉ linked s); Ok (RemoveFromLink x s)
    | CondWait c => Ok (set_cond c (filter (λ y, y ≠ x) (cond_list c s)) s)
    | Activation => Ok s
    end);
  Ok (log (Resumption x (expire i) (bTimeout i) now) (set_waits (delete x (waits s)) s)).

(** The loop over the active list: one item. *)
Definition process (now x : Z) (l : list Z) (s : t) : outcome t :=
  let s := set_active l s in
  i ← deref (waits s !! x);
  if bool_decide (bTimeout i = true ∧ now < expire i) then
    let '(ok, w) := AddTimeout (Item x (expire i)) now (wheel s) in
    let s := set_wheel w s in
    if ok then
      Ok (set_waits (<[x := Wait (what i) (expire i) false (iAllEventDetach i) (iRaiseCnt i)]> (waits s)) s)
    else resume x now s
  else resume x now s.

(** The coroutines run before the loop and while it empties the active list.
    Their items are new.  The time of the clock is bounded by [max_clock], and
    it does not jump by 2^31 milliseconds between two rounds. *)
Definition running (s : t) : Prop := at_ s ≠ Polling.
Definition fresh (x : Z) (s : t) : Prop := waits s !! x = None ∧ x ∉ r_item <$> resumed s.
Definition max_clock : Z := 2^62.

Inductive step (s : t) : t → Prop :=
  | step_poll x timeout : running s → fresh x s → - 2^31 ≤ timeout < 2^31 → timeout ≠ 0 →
      step s (co_poll x timeout s).2
  | step_cond_wait x c ms : running s → fresh x s → - 2^31 ≤ ms < 2^31 →
      step s (co_cond_timedwait x c ms s).2
  | step_signal c : running s → step s (co_cond_signal c s)
  | step_broadcast c : running s → step s (co_cond_broadcast c s)
  | step_activate x : running s → fresh x s → step s (co_activate x s)
  | step_loop : at_ s = Boot → step s (set_pc Polling s)
  | step_wake evs s' : at_ s = Polling →
      (∀ x, x ∈ evs → ∃ i, waits s !! x = Some i ∧ what i = Poll) →
      wake_up evs s = Ok s' → step s s'
  | step_process now x l s' : at_ s = Draining now → active s = x :: l → process now x l s = Ok s' → step s s'
  | step_round now : at_ s = Draining now → active s = [] → step s (set_pc Polling s)
  | step_clock now : clock s ≤ now < max_clock → now - ullStart (wheel s) + 1 < 2^31 → step s (set_clock now s).

(** [AllocEpoll] at the time [now]; the code has [iSize] 0x10000. *)
Definition init (iSize now : Z) : outcome t :=
  w ← AllocTimeout iSize now;
  w ← deref w;
  Ok (Make w [] [] ∅ ∅ Boot now []).

(** ** Invariant *)

(** Where an item that waits is. *)
Definition place_ok (s : t) (x : Z) (i : wait) : Prop :=
  (x ∈ linked s ∨ ∃ c, what i = CondWait c ∧ x ∈ cond_list c s) ∧
  (bTimeout i = true → x ∈ active s) ∧ (iAllEventDetach i = true → x ∈ active s) ∧
  (expire i ≠ 0 → x ∈ linked s).

(** The invariant, but for the places of the items [H] that a routine has in
    its hands. *)
Record ginv (H : Z → Prop) (s : t) : Prop := {
  i_wheel : TimeWheel.inv (wheel s);
  i_clock : ullStart (wheel s) ≤ clock s < max_clock ∧ clock s - ullStart (wheel s) + 1 < 2^31;
  i_nodup : NoDup (linked s);
  i_linked x : x ∈ linked s → is_Some (waits s !! x);
  i_place x i : waits s !! x = Some i → ¬ H x → place_ok s x i;
  i_items e : e ∈ items (wheel s) →
    ullStart (wheel s) < ullExpireTime e ∧ ∃ i, waits s !! addr e = Some i ∧ expire i = ullExpireTime e;
  i_noTimeout x : x ∈ noTimeout s → ∃ i, waits s !! x = Some i ∧ expire i = 0;
  i_cond c x : x ∈ cond_list c s → ∃ i, waits s !! x = Some i ∧ what i = CondWait c;
  i_both x i : waits s !! x = Some i → bTimeout i = true → iAllEventDetach i = false ∧ ∃ now, at_ s = Draining now;
  i_expire x i : waits s !! x = Some i → expire i < 2^64;
  i_round now : at_ s = Draining now → ullStart (wheel s) = now;
  i_once : NoDup (r_item <$> resumed s);
  i_gone x : x ∈ r_item <$> resumed s → waits s !! x = None;
  i_late r : r ∈ resumed s → r_timeout r = true → r_expire r ≤ r_now r;
}.
Definition inv (s : t) : Prop := ginv (λ _, False) s.

Lemma addr_filter x (l : list item) : addr <$> filter (λ e, addr e ≠ x) l = filter (λ y, y ≠ x) (addr <$> l).
Proof.
  induction l as [|e l IH]; [done|]. csimpl. destruct (decide (addr e ≠ x)).
  - rewrite !filter_cons_True by done. csimpl. by rewrite IH.
  - rewrite !filter_cons_False by done. done.
Qed.

Lemma linked_remove x s : TimeWheel.inv (wheel s) →
  linked (RemoveFromLink x s) = filter (λ y, y ≠ x) (linked s).
Proof.
  intros Hw. unfold linked, RemoveFromLink. simpl. destruct (wheel_remove_inv x _ Hw) as [_ ->].
  by rewrite addr_filter, !filter_app.
Qed.

(** An item is taken out of the lists of the event loop. *)
Lemma remove_ginv x s : ginv (λ y, y = x) s → ginv (λ y, y = x) (RemoveFromLink x s).
Proof.
  intros [Hw Hc Hnd Hl Hp Hi Hn Hco Hbo Hex Hr Ho Hg Hla].
  pose proof (wheel_remove_inv x _ Hw) as [Hw' Hit]. pose proof (linked_remove x s Hw) as Hlk.
  constructor; try done.
  - rewrite Hlk. by apply NoDup_filter.
  - intros y. rewrite Hlk, list_elem_of_filter. intros [_ Hy]. by apply Hl.
  - intros y i Hy Hne. destruct (Hp y i Hy Hne) as (H1 & H2 & H3 & H4). unfold place_ok. rewrite Hlk. simpl.
    rewrite !list_elem_of_filter. tauto.
  - simpl. rewrite Hit. intros e [_ He]%list_elem_of_filter. by apply Hi.
  - simpl. intros y [_ Hy]%list_elem_of_filter. by apply Hn.
Qed.

(** An item in no list is put into the active list. *)
Lemma add_active_ginv x i s : waits s !! x = Some i → x ∉ linked s → ginv (λ y, y = x) s →
  inv (add_active x s) ∧ active (add_active x s) = active s ++ [x].
Proof.
  intros Hx Hnl [Hw Hc Hnd Hl Hp Hi Hn Hco Hbo Hex Hr Ho Hg Hla]. unfold add_active. rewrite decide_False by done.
  split; [|done].
  assert (linked (set_active (active s ++ [x]) s) = linked s ++ [x]) as Hlk
    by (unfold linked; simpl; by rewrite !app_assoc).
  constructor; try done.
  - rewrite Hlk. apply NoDup_app. split_and!; [done|set_solver|apply NoDup_singleton].
  - intros y. rewrite Hlk, elem_of_app, list_elem_of_singleton. intros [Hy| ->]; [by apply Hl|by eexists].
  - intros y j Hy _. unfold place_ok. rewrite Hlk. simpl. destruct (decide (y = x)) as [->|Hne].
    + set_solver.
    + destruct (Hp y j Hy Hne) as (H1 & H2 & H3 & H4). rewrite !elem_of_app. tauto.
Qed.

Lemma to_active_inv x i s : waits s !! x = Some i → ginv (λ y, y = x) s →
  inv (add_active x (RemoveFromLink x s)).
Proof.
  intros Hx Hs. pose proof (i_wheel _ _ Hs) as Hw. apply remove_ginv in Hs.
  apply (add_active_ginv x i); [done| |done]. rewrite linked_remove by done. rewrite list_elem_of_filter. tauto.
Qed.

(** The members of an item other than its time limit and purpose change. *)
Lemma update_ginv (P : Z → Prop) x i i' s : waits s !! x = Some i → what i' = what i → expire i' = expire i →
  (bTimeout i' = true → iAllEventDetach i' = false ∧ ∃ now, at_ s = Draining now) →
  ginv P s → ginv (λ y, P y ∨ y = x) (set_waits (<[x := i']> (waits s)) s).
Proof.
  intros Hx Hk He Hb [Hw Hc Hnd Hl Hp Hi Hn Hco Hbo Hxp Hr Ho Hg Hla].
  assert (∀ y, is_Some (waits s !! y) → is_Some (<[x := i']> (waits s) !! y)) as Hsome.
  { intros y Hy. destruct (decide (y = x)) as [->|]; [rewrite lookup_insert_eq; by eexists|by rewrite lookup_insert_ne]. }
  assert (∀ y (Q : wait → Prop), Q i = Q i' → (∃ j, waits s !! y = Some j ∧ Q j) →
    ∃ j, <[x := i']> (waits s) !! y = Some j ∧ Q j) as Hex.
  { intros y Q HQ (j & Hj & HQj). destruct (decide (y = x)) as [->|].
    - exists i'. rewrite lookup_insert_eq. split; [done|]. rewrite Hx in Hj. injection Hj as <-. by rewrite <-HQ.
    - exists j. by rewrite lookup_insert_ne. }
  constructor; try done; simpl.
  - intros y Hy. by apply Hsome, Hl.
  - intros y j Hy Hne. rewrite lookup_insert_ne in Hy by (intros ->; tauto). apply Hp; [done|tauto].
  - intros e Hin. destruct (Hi e Hin) as [H1 H2]. split; [done|].
    apply (Hex _ (λ j, expire j = ullExpireTime e)); [by rewrite He|done].
  - intros y Hy. apply (Hex _ (λ j, expire j = 0)); [by rewrite He|]. by apply Hn.
  - intros c y Hy. apply (Hex _ (λ j, what j = CondWait c)); [by rewrite Hk|]. by apply Hco.
  - intros y j. destruct (decide (y = x)) as [->|]; [rewrite lookup_insert_eq; by intros [= <-]|].
    rewrite lookup_insert_ne by done. apply Hbo.
  - intros y j. destruct (decide (y = x)) as [->|]; [rewrite lookup_insert_eq; intros [= <-]; rewrite He; by apply (Hxp x)|].
    rewrite lookup_insert_ne by done. apply Hxp.
  - intros y Hy. specialize (Hg y Hy). rewrite lookup_insert_ne; [done|]. intros ->. congruence.
Qed.

Lemma ginv_weaken (P Q : Z → Prop) s : (∀ x, P x → Q x) → ginv P s → ginv Q s.
Proof. intros HPQ []. constructor; auto. Qed.

(** ** The operations of the coroutines *)

(** A new item, not yet in a list. *)
Lemma new_ginv x i s : fresh x s → bTimeout i = false → expire i < 2^64 → inv s →
  ginv (λ y, y = x) (set_waits (<[x := i]> (waits s)) s) ∧ x ∉ linked s.
Proof.
  intros [Hx Hr0] Hbi Hei [Hw Hc Hnd Hl Hp Hi Hn Hco Hbo Hex Hr Ho Hg Hla].
  assert (x ∉ linked s) as Hnl by (intros Hin; destruct (Hl x Hin); congruence).
  assert (∀ y j, waits s !! y = Some j → <[x := i]> (waits s) !! y = Some j) as Hold
    by (intros y j Hj; rewrite lookup_insert_ne; [done|by intros ->; congruence]).
  split; [|done]. constructor; try done; simpl.
  - intros y Hy. destruct (Hl y Hy) as [j Hj]. exists j. by apply Hold.
  - intros y j Hy Hne. rewrite lookup_insert_ne in Hy by congruence. exact (Hp y j Hy (λ f, f)).
  - intros e He. destruct (Hi e He) as (H1 & j & H2 & H3). eauto.
  - intros y Hy. destruct (Hn y Hy) as (j & H1 & H2). eauto.
  - intros c y Hy. destruct (Hco c y Hy) as (j & H1 & H2). eauto.
  - intros y j. destruct (decide (y = x)) as [->|]; [rewrite lookup_insert_eq; intros [= <-]; congruence|].
    rewrite lookup_insert_ne by done. apply Hbo.
  - intros y j. destruct (decide (y = x)) as [->|]; [rewrite lookup_insert_eq; by intros [= <-]|].
    rewrite lookup_insert_ne by done. apply Hex.
  - intros y Hy. specialize (Hg y Hy). rewrite lookup_insert_ne; [done|]. intros ->. done.
Qed.

(** An item in no list is added to the wheel. *)
Lemma add_wheel_inv x i now s : waits s !! x = Some i → x ∉ linked s → bTimeout i = false →
  iAllEventDetach i = false → ginv (λ y, y = x) s →
  ullStart (wheel s) ≤ now → now ≤ expire i < 2^64 → ullStart (wheel s) < expire i →
  ∃ w, AddTimeout (Item x (expire i)) now (wheel s) = (true, w) ∧ inv (set_wheel w s) ∧ x ∈ linked (set_wheel w s).
Proof.
  intros Hx Hnl Hb Hd [Hw Hc Hnd Hl Hp Hi Hn Hco Hbo Hex Hr Ho Hg Hla] Hnow He Hlt.
  destruct (wheel_add_inv (Item x (expire i)) now (wheel s) Hw Hnow He) as (w & Hadd & Hwi & Hit & Hst & _ & _).
  exists w. split; [done|].
  assert (linked (set_wheel w s) ≡ₚ x :: linked s) as Hlk.
  { unfold linked. simpl. by rewrite Hit. }
  assert (∀ y, y ∈ linked (set_wheel w s) ↔ y = x ∨ y ∈ linked s) as Hin by (intros y; rewrite Hlk; apply elem_of_cons).
  split; [|apply Hin; by left]. constructor; try done; simpl.
  - by rewrite Hst.
  - rewrite Hlk. by apply NoDup_cons.
  - intros y [->|Hy]%Hin; [by eexists|by apply Hl].
  - intros y j Hy _. unfold place_ok. rewrite Hin. simpl. destruct (decide (y = x)) as [->|Hne].
    + rewrite Hx in Hy. injection Hy as <-. rewrite Hb, Hd. naive_solver.
    + destruct (Hp y j Hy Hne) as (H1 & H2 & H3 & H4). tauto.
  - intros e. rewrite Hit, Hst. intros [->|He']%elem_of_cons; [|by apply Hi]. simpl. eauto.
  - intros n Hn'. rewrite Hst. by apply Hr.
Qed.

Lemma add_noTimeout_inv x i s : waits s !! x = Some i → x ∉ linked s → bTimeout i = false →
  iAllEventDetach i = false → expire i = 0 → ginv (λ y, y = x) s → inv (add_noTimeout x s).
Proof.
  intros Hx Hnl Hb Hd He [Hw Hc Hnd Hl Hp Hi Hn Hco Hbo Hex Hr Ho Hg Hla]. unfold add_noTimeout. rewrite decide_False by done.
  assert (linked (set_noTimeout (noTimeout s ++ [x]) s) ≡ₚ x :: linked s) as Hlk
    by (unfold linked; simpl; solve_Permutation).
  assert (∀ y, y ∈ linked (set_noTimeout (noTimeout s ++ [x]) s) ↔ y = x ∨ y ∈ linked s) as Hin
    by (intros y; rewrite Hlk; apply elem_of_cons).
  constructor; try done; simpl.
  - rewrite Hlk. by apply NoDup_cons.
  - intros y [->|Hy]%Hin; [by eexists|by apply Hl].
  - intros y j Hy _. unfold place_ok. rewrite Hin. simpl. destruct (decide (y = x)) as [->|Hne].
    + rewrite Hx in Hy. injection Hy as <-. rewrite Hb, Hd. naive_solver.
    + destruct (Hp y j Hy Hne) as (H1 & H2 & H3 & H4). tauto.
  - intros y [Hy| ->%list_elem_of_singleton]%elem_of_app; [by apply Hn|eauto].
Qed.

(** The lists of the condition variables. *)
Lemma cond_set c l d s : cond_list d (set_cond c l s) = if decide (d = c) then l else cond_list d s.
Proof.
  unfold cond_list. simpl. case_decide as E; [subst; by rewrite lookup_insert_eq|by rewrite lookup_insert_ne].
Qed.

(** An item joins the list of a condition variable. *)
Lemma add_cond_inv (P : Z → Prop) x i c s : waits s !! x = Some i → what i = CondWait c →
  (∀ y, P y → y = x ∧ bTimeout i = false ∧ iAllEventDetach i = false ∧ expire i = 0) →
  ginv P s → inv (set_cond c (cond_list c s ++ [x]) s).
Proof.
  intros Hx Hk HP [Hw Hc Hnd Hl Hp Hi Hn Hco Hbo Hex Hr Ho Hg Hla]. constructor; try done.
  - intros y j Hy _. simpl in Hy. unfold place_ok. change (linked (set_cond _ _ s)) with (linked s). simpl.
    destruct (decide (y = x)) as [->|Hne].
    + rewrite Hx in Hy. injection Hy as <-.
      assert (∃ d, what i = CondWait d ∧ x ∈ cond_list d (set_cond c (cond_list c s ++ [x]) s)) as Hin
        by (exists c; rewrite cond_set, decide_True by done; set_solver).
      split; [by right|]. destruct (decide (expire i = 0 ∧ bTimeout i = false ∧ iAllEventDetach i = false)) as [(-> & -> & ->)|Hn0]; [done|].
      apply (Hp x i Hx). intros (_ & ? & ? & ?)%HP. tauto.
    + destruct (Hp y j Hy) as (H1 & H2); [by intros [? _]%HP|]. split; [|done].
      destruct H1 as [H1|(d & H1 & H3)]; [by left|right; exists d; split; [done|]]. rewrite cond_set. case_decide; set_solver.
  - intros d y. rewrite cond_set. case_decide as E; [|by apply Hco]. subst.
    intros [Hy| ->%list_elem_of_singleton]%elem_of_app; [by apply Hco|eauto].
Qed.

Lemma clock_time s n : inv s → 0 < n < 2^31 → u64 (clock s + n) = clock s + n ∧
  clock s ≤ clock s + n < 2^64 ∧ ullStart (wheel s) < clock s + n ∧ clock s + n ≠ 0 ∧ ullStart (wheel s) ≤ clock s.
Proof.
  intros Hs Hn. destruct (i_clock _ _ Hs) as [Hc _]. unfold max_clock in Hc.
  pose proof (sh_start _ (w_shape _ (i_wheel _ _ Hs))). rewrite u64_small by lia. lia.
Qed.

(** A new item with a time limit. *)
Lemma new_wheel_inv x k n s : fresh x s → 0 < n < 2^31 → inv s →
  ∃ w, AddTimeout (Item x (u64 (clock s + n))) (clock s) (wheel s) = (true, w) ∧
    inv (set_wheel w (set_waits (<[x := Wait k (u64 (clock s + n)) false false 0]> (waits s)) s)).
Proof.
  intros Hx Hn Hs. destruct (clock_time s n Hs Hn) as (-> & He & Hlt & _ & Hle).
  set (i := Wait k (clock s + n) false false 0). destruct (new_ginv x i s Hx eq_refl ltac:(simpl; lia) Hs) as [Hg Hnl].
  destruct (add_wheel_inv x i (clock s) (set_waits (<[x := i]> (waits s)) s)) as (w & Ha & Hw & _);
    [apply lookup_insert_eq|done..|]. by exists w.
Qed.

Lemma co_poll_inv x timeout s : fresh x s → - 2^31 ≤ timeout < 2^31 → inv s →
  (co_poll x timeout s).1 = true ∧ inv (co_poll x timeout s).2.
Proof.
  intros Hx Ht Hs. unfold co_poll. case_bool_decide as Hpos.
  - destruct (new_wheel_inv x Poll timeout s Hx ltac:(lia) Hs) as (w & -> & Hw). split; [done|exact Hw].
  - split; [done|]. destruct (new_ginv x (Wait Poll 0 false false 0) s Hx eq_refl ltac:(simpl; lia) Hs) as [Hg Hnl].
    by apply (add_noTimeout_inv x (Wait Poll 0 false false 0)); [apply lookup_insert_eq|..].
Qed.

Lemma co_cond_timedwait_inv x c ms s : fresh x s → - 2^31 ≤ ms < 2^31 → inv s →
  (co_cond_timedwait x c ms s).1 = true ∧ inv (co_cond_timedwait x c ms s).2.
Proof.
  intros Hx Ht Hs. unfold co_cond_timedwait. case_bool_decide as Hpos.
  - destruct (new_wheel_inv x (CondWait c) ms s Hx ltac:(lia) Hs) as (w & -> & Hw). split; [done|].
    eapply (add_cond_inv (λ _, False)); [apply lookup_insert_eq|done|done|exact Hw].
  - split; [done|]. destruct (new_ginv x (Wait (CondWait c) 0 false false 0) s Hx eq_refl ltac:(simpl; lia) Hs) as [Hg Hnl].
    eapply (add_cond_inv (λ y, y = x)); [apply lookup_insert_eq|done|done|exact Hg].
Qed.

Lemma co_activate_inv x s : fresh x s → inv s → inv (co_activate x s).
Proof.
  intros Hx Hs. destruct (new_ginv x (Wait Activation 0 false false 0) s Hx eq_refl ltac:(simpl; lia) Hs) as [Hg Hnl].
  by apply (add_active_ginv x (Wait Activation 0 false false 0)); [apply lookup_insert_eq|..].
Qed.

Lemma pop_cond_ginv c x l s : cond_list c s = x :: l → inv s → ginv (λ y, y = x) (set_cond c l s).
Proof.
  intros E [Hw Hc Hnd Hl Hp Hi Hn Hco Hbo Hex Hr Ho Hg Hla]. constructor; try done.
  - intros y j Hy Hne. destruct (Hp y j Hy) as (H1 & H2); [tauto|]. split; [|done].
    destruct H1 as [H1|(d & H1 & H3)]; [by left|right; exists d; split; [done|]].
    rewrite cond_set. case_decide; [|done]. subst. rewrite E in H3. set_solver.
  - intros d y. rewrite cond_set. case_decide as Ed; [|apply Hco]. subst. intros Hy. apply Hco. rewrite E. by right.
Qed.

Lemma co_cond_signal_inv c s : inv s → inv (co_cond_signal c s).
Proof.
  intros Hs. unfold co_cond_signal. destruct (cond_list c s) as [|x l] eqn:E; [done|].
  destruct (i_cond _ _ Hs c x) as (i & Hx & _); [rewrite E; left|].
  apply (to_active_inv x i); [done|]. by apply pop_cond_ginv.
Qed.

Lemma co_cond_broadcast_inv c s : inv s → inv (co_cond_broadcast c s).
Proof.
  unfold co_cond_broadcast. generalize (length (cond_list c s)). intros n. revert s.
  induction n as [|n IH]; intros s Hs; simpl; [done|]. destruct (cond_list c s); [done|].
  by apply IH, co_cond_signal_inv.
Qed.

(** ** A round of the loop *)

(** The members of an item change while it stays where it is. *)
Lemma update_inv x i i' s : waits s !! x = Some i → what i' = what i → expire i' = expire i →
  (bTimeout i' = true → iAllEventDetach i' = false ∧ ∃ now, at_ s = Draining now) →
  place_ok s x i' → inv s → inv (set_waits (<[x := i']> (waits s)) s).
Proof.
  intros Hx Hk He Hb Hpl Hs. pose proof (update_ginv _ _ _ _ _ Hx Hk He Hb Hs) as Hu.
  destruct Hu. constructor; try done. intros y j Hy _. destruct (decide (y = x)) as [->|Hne].
  - simpl in Hy. rewrite lookup_insert_eq in Hy. injection Hy as <-. exact Hpl.
  - apply i_place0; [done|]. tauto.
Qed.

Lemma OnPollPrepare_inv x s : is_Some (waits s !! x) → at_ s = Polling → inv s →
  ∃ s', OnPollPrepare x s = Ok s' ∧ inv s' ∧ at_ s' = Polling ∧ clock s' = clock s ∧
    ∀ y, is_Some (waits s !! y) → is_Some (waits s' !! y).
Proof.
  intros [i Hx] Hpc Hs. unfold OnPollPrepare. rewrite Hx. simpl.
  set (i1 := Wait (what i) (expire i) (bTimeout i) true (iRaiseCnt i + 1)).
  assert (bTimeout i = false) as Hb.
  { destruct (bTimeout i) eqn:E; [|done]. destruct (i_both _ _ Hs _ _ Hx E) as [_ [n Hn]]. congruence. }
  assert (∀ y, is_Some (waits s !! y) → is_Some (<[x := i1]> (waits s) !! y)) as Hsome.
  { intros y Hy. destruct (decide (y = x)) as [->|]; [rewrite lookup_insert_eq; by eexists|by rewrite lookup_insert_ne]. }
  destruct (iAllEventDetach i) eqn:Ed.
  - eexists. split; [done|]. split_and!; try done.
    apply (update_inv x i i1); try done; [simpl; by rewrite Hb|].
    destruct (i_place _ _ Hs x i Hx ltac:(tauto)) as (H1 & H2 & H3 & H4). split_and!; try done. by intros _; apply H3.
  - eexists. split; [done|]. assert (ginv (λ y, False ∨ y = x) (set_waits (<[x := i1]> (waits s)) s)) as Hg
      by (apply (update_ginv _ x i); try done; simpl; by rewrite Hb).
    split; [apply (to_active_inv x i1); [apply lookup_insert_eq|]; eapply ginv_weaken; [|exact Hg]; by intros ? [[]|?]|].
    unfold add_active. by case_decide.
Qed.

Lemma prepare_inv evs s : (∀ x, x ∈ evs → is_Some (waits s !! x)) → at_ s = Polling → inv s →
  ∃ s', prepare evs s = Ok s' ∧ inv s' ∧ clock s' = clock s.
Proof.
  revert s. induction evs as [|x evs IH]; intros s Hx Hpc Hs; simpl; [by exists s|].
  destruct (OnPollPrepare_inv x s) as (s1 & -> & Hs1 & Hpc1 & Hc1 & Hsome); [apply Hx; left|done..|]. simpl.
  destruct (IH s1) as (s2 & -> & Hs2 & Hc2); [|done..|exists s2; split_and!; [done|done|congruence]].
  intros y Hy. apply Hsome, Hx. by right.
Qed.

Lemma lookup_mark_all xs m y : mark_all xs m !! y =
  (λ i, Wait (what i) (expire i) (bTimeout i || bool_decide (y ∈ xs)) (iAllEventDetach i) (iRaiseCnt i)) <$> m !! y.
Proof.
  induction xs as [|x xs IH]; cbn [mark_all foldr].
  - rewrite bool_decide_false by apply not_elem_of_nil. destruct (m !! y) as [[]|]; simpl; [|done]. by rewrite orb_false_r.
  - fold (mark_all xs m). unfold mark. destruct (decide (x = y)) as [->|Hne].
    + rewrite lookup_alter_eq, IH. destruct (m !! y) as [i|]; simpl; [|done].
      rewrite (bool_decide_true (y ∈ y :: xs)) by left. by rewrite orb_true_r.
    + rewrite lookup_alter_ne, IH by done. destruct (m !! y) as [i|]; simpl; [|done].
      do 3 f_equal. apply bool_decide_ext. set_solver.
Qed.

(** The items whose lists are due become active. *)
Lemma take_timeouts_inv s : inv s →
  ∃ w took, TakeAllTimeout (clock s) (wheel s) [] = (w, took) ∧
  inv (set_pc (Draining (clock s)) (set_active (active s ++ (addr <$> took))
        (set_waits (mark_all (addr <$> took) (waits s)) (set_wheel w s)))).
Proof.
  intros [Hw Hc Hnd Hl Hp Hi Hn Hco Hbo Hxp Hr Ho Hg Hla].
  destruct (take_all_inv (clock s) (wheel s) [] Hw) as (w & Ht & Hw' & Hst & _ & Hit & Hlater);
    [unfold max_clock in Hc; lia|lia|].
  set (took := concat _) in *. exists w, took. split; [exact Ht|].
  set (s' := set_pc _ _). assert (linked s' ≡ₚ linked s) as Hlk.
  { unfold linked, s'. simpl. rewrite Hit, fmap_app. solve_Permutation. }
  assert (∀ y, y ∈ linked s' ↔ y ∈ linked s) as Hin by (intros y; by rewrite Hlk).
  assert (∀ y i', mark_all (addr <$> took) (waits s) !! y = Some i' → ∃ i, waits s !! y = Some i ∧ what i' = what i ∧
    expire i' = expire i ∧ iAllEventDetach i' = iAllEventDetach i ∧ (bTimeout i' = true → bTimeout i = true ∨ y ∈ addr <$> took)) as Hmk.
  { intros y i'. rewrite lookup_mark_all. destruct (waits s !! y) as [i|]; [|done]. intros [= <-]. exists i.
    split_and!; try done. simpl. intros [?|?%bool_decide_eq_true]%orb_true_iff; auto. }
  assert (∀ y (Q : kind → Z → Prop), (∃ i, waits s !! y = Some i ∧ Q (what i) (expire i)) →
    ∃ i', mark_all (addr <$> took) (waits s) !! y = Some i' ∧ Q (what i') (expire i')) as Hex.
  { intros y Q (i & Hy & HQ). rewrite lookup_mark_all, Hy. simpl. eauto. }
  assert (∀ y, y ∈ addr <$> took → y ∈ addr <$> items (wheel s)) as Htk
    by (intros y Hy; rewrite Hit, fmap_app; set_solver).
  constructor; try done.
  - simpl. rewrite Hst. lia.
  - by rewrite Hlk.
  - intros y Hy%Hin. destruct (Hl y Hy) as [i Hyi].
    destruct (Hex y (λ _ _, True)) as (i' & Hi' & _); [by eauto|by exists i'].
  - intros y i' Hy _. destruct (Hmk y i' Hy) as (i & Hyi & Hk & He & Hd & Hb).
    destruct (Hp y i Hyi) as (H1 & H2 & H3 & H4); [tauto|]. unfold place_ok. rewrite Hin, Hk, He, Hd. simpl.
    split_and!; try done.
    + intros [Hbt|Ht']%Hb; rewrite elem_of_app; [left; by apply H2|by right].
    + intros Hdt. rewrite elem_of_app. left. by apply H3.
  - intros e He. simpl in He. simpl. rewrite Hst. split; [by apply Hlater|].
    apply (Hex _ (λ _ z, z = ullExpireTime e)). apply Hi. rewrite Hit. set_solver.
  - intros y Hy. apply (Hex _ (λ _ z, z = 0)). by apply Hn.
  - intros c y Hy. apply (Hex _ (λ k _, k = CondWait c)). by apply Hco.
  - intros y i' Hy Hbt. destruct (Hmk y i' Hy) as (i & Hyi & Hk & He & Hd & Hb). split; [|by eexists]. rewrite Hd.
    destruct (Hb Hbt) as [Hb1|Ht']; [by destruct (Hbo y i Hyi Hb1)|].
    destruct (iAllEventDetach i) eqn:E; [|done]. exfalso.
    destruct (Hp y i Hyi) as (_ & _ & H3 & _); [tauto|]. specialize (H3 E). apply Htk in Ht'.
    unfold linked in Hnd. apply NoDup_app in Hnd as (_ & Hdisj & _). apply (Hdisj y Ht'). set_solver.
  - intros y i' Hy. destruct (Hmk y i' Hy) as (i & Hyi & _ & -> & _). by apply (Hxp y).
  - intros now [= <-]. exact Hst.
  - intros y Hy. simpl. rewrite lookup_mark_all, (Hg y Hy). done.
Qed.

Lemma wake_up_inv evs s : (∀ x, x ∈ evs → is_Some (waits s !! x)) → at_ s = Polling → inv s →
  ∃ s', wake_up evs s = Ok s' ∧ inv s'.
Proof.
  intros Hx Hpc Hs. unfold wake_up. destruct (prepare_inv evs s Hx Hpc Hs) as (s1 & -> & Hs1 & _). simpl.
  destruct (take_timeouts_inv s1 Hs1) as (w & took & -> & Hs2). eauto.
Qed.

(** [PopHead] of the active list. *)
Lemma pop_active_ginv x l s : active s = x :: l → inv s →
  ginv (λ y, y = x) (set_active l s) ∧ x ∉ linked (set_active l s).
Proof.
  intros E [Hw Hc Hnd Hl Hp Hi Hn Hco Hbo Hex Hr Ho Hg Hla].
  assert (linked s ≡ₚ x :: linked (set_active l s)) as Hlk.
  { unfold linked. simpl. rewrite E. solve_Permutation. }
  assert (∀ y, y ∈ linked s ↔ y = x ∨ y ∈ linked (set_active l s)) as Hin by (intros y; rewrite Hlk; apply elem_of_cons).
  rewrite Hlk in Hnd. apply NoDup_cons in Hnd as [Hni Hnd]. split; [|done]. constructor; try done.
  - intros y Hy. apply Hl, Hin. by right.
  - intros y i Hy Hne. destruct (Hp y i Hy) as (H1 & H2 & H3 & H4); [tauto|]. unfold place_ok.
    rewrite E in H2, H3. rewrite Hin in H1, H4. simpl. set_solver.
Qed.

(** The coroutine of an item that is in no list of the loop is resumed. *)
Lemma resume_inv x i now s : waits s !! x = Some i → x ∉ linked s → ginv (λ y, y = x) s →
  (bTimeout i = true → expire i ≤ now) → ∃ s', resume x now s = Ok s' ∧ inv s'.
Proof.
  intros Hx Hnl Hs Hlate. unfold resume. rewrite Hx. simpl.
  assert (∃ s1, (match what i with
    | Poll => _ ← require (x ∉ linked s); Ok (RemoveFromLink x s)
    | CondWait c => Ok (set_cond c (filter (λ y, y ≠ x) (cond_list c s)) s)
    | Activation => Ok s
    end) = Ok s1 ∧ ginv (λ y, y = x) s1 ∧ x ∉ linked s1 ∧ waits s1 = waits s ∧ resumed s1 = resumed s ∧
      ∀ c, x ∉ cond_list c s1) as (s1 & -> & Hs1 & Hn1 & Hw1 & Hr1 & Hc1).
  { destruct (what i) as [|c|] eqn:Ek.
    - rewrite require_true by done. simpl. eexists. split; [done|]. split_and!; try done; [by apply remove_ginv| |].
      + rewrite linked_remove by apply (i_wheel _ _ Hs). rewrite list_elem_of_filter. tauto.
      + intros c Hin. destruct (i_cond _ _ Hs c x Hin) as (j & Hj & Hk). congruence.
    - eexists. split; [done|]. split_and!; try done.
      + destruct Hs as [Hw Hc Hnd Hl Hp Hi Hn Hco Hbo Hex Hr Ho Hg Hla]. constructor; try done.
        * intros y j Hy Hne. destruct (Hp y j Hy Hne) as ([H1|(d & H1 & H3)] & H2); [split; [by left|done]|].
          split; [|done]. right. exists d. split; [done|]. rewrite cond_set. case_decide; [subst; by rewrite list_elem_of_filter|done].
        * intros d y. rewrite cond_set. case_decide as E; [subst; rewrite list_elem_of_filter; intros [_ Hy]|intros Hy]; by apply Hco.
      + intros d. rewrite cond_set. case_decide as E; [rewrite list_elem_of_filter; tauto|].
        intros Hin. destruct (i_cond _ _ Hs d x Hin) as (j & Hj & Hk). congruence.
    - eexists. split; [done|]. split_and!; try done.
      intros c Hin. destruct (i_cond _ _ Hs c x Hin) as (j & Hj & Hk). congruence. }
  simpl. rewrite Hw1. eexists. split; [done|]. rewrite <-Hw1 in Hx.
  destruct Hs1 as [Hw Hc Hnd Hl Hp Hi Hn Hco Hbo Hex Hr Ho Hg Hla].
  assert (∀ y j, waits s1 !! y = Some j → y ≠ x → delete x (waits s1) !! y = Some j) as Hold
    by (intros y j Hy Hne; by rewrite lookup_delete_ne).
  rewrite <-Hw1. constructor; try done; simpl; change (linked (log _ _)) with (linked s1).
  - intros y Hy. destruct (Hl y Hy) as [j Hj]. exists j. apply Hold; [done|by intros ->].
  - intros y j [Hne Hy]%lookup_delete_Some _. exact (Hp y j Hy (λ E, Hne (eq_sym E))).
  - intros e He. destruct (Hi e He) as (H1 & j & Hj & Hej). split; [done|]. exists j. split; [|done].
    apply Hold; [done|]. intros E. apply Hn1. rewrite <-E. unfold linked. apply elem_of_app. left. by apply list_elem_of_fmap_2.
  - intros y Hy. destruct (Hn y Hy) as (j & Hj & Hej). exists j. split; [|done].
    apply Hold; [done|]. intros ->. apply Hn1. unfold linked. set_solver.
  - intros c y Hy. destruct (Hco c y Hy) as (j & Hj & Hej). exists j. split; [|done].
    apply Hold; [done|]. intros ->. by apply (Hc1 c).
  - intros y j [_ Hy]%lookup_delete_Some. exact (Hbo y j Hy).
  - intros y j [_ Hy]%lookup_delete_Some. by apply (Hex y).
  - rewrite fmap_app. apply NoDup_app. split_and!; [done| |apply NoDup_singleton].
    intros y Hy ->%list_elem_of_singleton. simpl in *. by rewrite Hg in Hx.
  - intros y. rewrite fmap_app. intros [Hy| ->%list_elem_of_singleton]%elem_of_app; simpl.
    + destruct (decide (y = x)) as [->|]; [apply lookup_delete_eq|]. rewrite lookup_delete_ne by done. by apply Hg.
    + apply lookup_delete_eq.
  - intros r [Hr'| ->%list_elem_of_singleton]%elem_of_app; [by apply Hla|done].
Qed.

Lemma process_inv now x l s : at_ s = Draining now → active s = x :: l → inv s →
  ∃ s', process now x l s = Ok s' ∧ inv s'.
Proof.
  intros Hpc E Hs. pose proof (i_round _ _ Hs _ Hpc) as Hst. pose proof (i_clock _ _ Hs) as Hcl.
  destruct (i_linked _ _ Hs x) as [i Hx]; [unfold linked; rewrite E; set_solver|].
  assert (bTimeout i = true → iAllEventDetach i = false) as Hd by (intros Hb; by destruct (i_both _ _ Hs _ _ Hx Hb)).
  destruct (pop_active_ginv x l s E Hs) as [Hg Hni]. unfold process. simpl. rewrite Hx. simpl.
  case_bool_decide as Hb.
  - destruct Hb as [Hb Hlt]. set (i' := Wait (what i) (expire i) false (iAllEventDetach i) (iRaiseCnt i)).
    pose proof (i_expire _ _ Hs _ _ Hx) as He.
    destruct (add_wheel_inv x i' now (set_waits (<[x := i']> (waits s)) (set_active l s))) as (w & Ha & Hw & _);
      [apply lookup_insert_eq|done|done|by apply Hd| |simpl; lia..|].
    + eapply ginv_weaken; [|apply (update_ginv (λ y, y = x) x i i' (set_active l s) Hx)]; try done. by intros ? [?|?].
    + simpl in Ha. rewrite Ha. eexists. split; [done|]. exact Hw.
  - apply (resume_inv x i); try done. intros Hbt. destruct (decide (now < expire i)); [tauto|lia].
Qed.

Lemma pc_inv p s : (∀ now, p ≠ Draining now) → (∀ now, at_ s = Draining now → active s = []) → inv s → inv (set_pc p s).
Proof.
  intros Hp Hact [Hw Hc Hnd Hl Hpl Hi Hn Hco Hbo Hex Hr Ho Hg Hla]. constructor; try done.
  - intros x i Hx Hb. exfalso. destruct (Hbo x i Hx Hb) as [_ [now Hnow]].
    destruct (Hpl x i Hx) as (_ & H2 & _); [tauto|]. specialize (H2 Hb). rewrite (Hact now Hnow) in H2. set_solver.
  - intros now E. by destruct (Hp now).
Qed.

Lemma loop_inv_step s s' : inv s → step s s' → inv s'.
Proof.
  intros Hs Hstep. destruct Hstep as [x timeout Hr Hx Ht H0|x c ms Hr Hx Ht|c Hr|c Hr|x Hr Hx|Hpc|evs s' Hpc Hev Hwk|now x l s' Hpc E Hpr|now Hpc E|now Hn Hj].
  - by apply co_poll_inv.
  - by apply co_cond_timedwait_inv.
  - by apply co_cond_signal_inv.
  - by apply co_cond_broadcast_inv.
  - by apply co_activate_inv.
  - apply pc_inv; [done| |done]. intros now E. congruence.
  - destruct (wake_up_inv evs s) as (s1 & H1 & Hs1); [|done..|by rewrite Hwk in H1; injection H1 as ->].
    intros y Hy. destruct (Hev y Hy) as (i & Hi & _). by eexists.
  - destruct (process_inv now x l s Hpc E Hs) as (s1 & H1 & Hs1). by rewrite Hpr in H1; injection H1 as ->.
  - by apply pc_inv.
  - destruct Hs as [Hw Hc Hnd Hl Hp Hi Hni Hco Hbo Hex Hr Ho Hg Hla]. constructor; try done. simpl. lia.
Qed.

Lemma loop_inv_init k now s : 10 ≤ k ≤ 30 → 0 < now < max_clock → init (2^k) now = Ok s → inv s.
Proof.
  intros Hk Hn Hi. unfold init in Hi. unfold max_clock in *.
  destruct (AllocTimeout_inv k now Hk) as (w & Hw & Hinv & Hit & Hst & _); [lia|]. rewrite Hw in Hi. simpl in Hi.
  injection Hi as <-. constructor; unfold linked, cond_list; simpl; rewrite ?Hit, ?Hst; try done.
  all: unfold max_clock; first [lia|by constructor|set_solver|intros c x; rewrite lookup_empty; set_solver].
Qed.

Section theorems.
Context (k start : Z) (Hk : 10 ≤ k ≤ 30) (Hstart : 0 < start < max_clock).
Context (s0 s : t) (Hinit : init (2^k) start = Ok s0) (Hreach : reach step s0 s).

Lemma loop_inv_reach : inv s.
Proof. eapply reach_invariant; [by eapply loop_inv_init|apply loop_inv_step|exact Hreach]. Qed.


End theorems.
End EventLoop.

(** ** Runs, with a wheel of 1024 lists *)
Module LoopExample.
Import TimeWheel EventLoop.

(** Two coroutines wait before the loop starts at time 1000: one polls with a
    limit of 1023 milliseconds, the other waits for a condition variable with a
    limit of 2000, more than the wheel reaches.  At time 2023 both lists are
    due; the first coroutine is resumed and signals the variable. *)
Definition l0 : t := get (Make (TimeWheel.Make [] 0 [] 0 0 0) [] [] ∅ ∅ Boot 0 []) (init 1024 1000).
Definition l1 : t := (co_poll 2 1023 l0).2.
Definition l2 : t := (co_cond_timedwait 1 5 2000 l1).2.
Definition l3 : t := set_clock 2023 (set_pc Polling l2).
Definition l4 : t := get l3 (wake_up [] l3).
Definition l5 : t := get l4 (process 2023 2 [1] l4).
Definition l6 : t := co_cond_signal 5 l5.
Definition l7 : t := get l6 (process 2023 1 [] l6).

(** A fact about a state of the run, by evaluation. *)
Ltac run := vm_compute; reflexivity.

Lemma init_l0 : init (2^10) 1000 = Ok l0.
Proof. apply get_ok. run. Qed.

Lemma step_l1 : step l0 l1.
Proof.
  apply (step_poll l0 2 1023); [by vm_compute|split; [run|apply (bool_decide_unpack _); run]|lia|lia].
Qed.
Lemma step_l2 : step l1 l2.
Proof.
  apply (step_cond_wait l1 1 5 2000); [by vm_compute|split; [run|apply (bool_decide_unpack _); run]|lia].
Qed.
Lemma step_l3 : step (set_pc Polling l2) l3.
Proof. apply (step_clock (set_pc Polling l2) 2023); unfold max_clock; by vm_compute. Qed.
Lemma step_l4 : step l3 l4.
Proof. apply (step_wake l3 [] l4); [run|intros x Hx; by apply not_elem_of_nil in Hx|]. apply get_ok. run. Qed.
Lemma step_l5 : step l4 l5.
Proof. apply (step_process l4 2023 2 [1] l5); [run|run|]. apply get_ok. run. Qed.
Lemma step_l7 : step l6 l7.
Proof. apply (step_process l6 2023 1 [] l7); [run|run|]. apply get_ok. run. Qed.

Lemma reach_l4 : reach step l0 l4.
Proof.
  eapply reach_step; [|exact step_l4]. eapply reach_step; [|exact step_l3].
  eapply reach_step; [|apply (step_loop l2); run]. eapply reach_step; [|exact step_l2].
  eapply reach_step; [apply reach_refl|exact step_l1].
Qed.
Lemma loop_reach_l7 : reach step l0 l7.
Proof.
  eapply reach_step; [|exact step_l7]. eapply reach_step; [|apply (step_signal l5 5); by vm_compute].
  eapply reach_step; [exact reach_l4|exact step_l5].
Qed.



(** A signal can be lost: when the time limit of a
    wait is beyond the reach of the wheel and its list is due, the item is in
    the active list, marked as timed out; a signal takes it out of the list of
    the condition variable but leaves the mark, and the loop puts it back into
    the wheel.  The round ends with the signalled coroutine waiting, in no list
    of a condition variable, until its time limit. *)
Theorem cond_signal_lost : ∃ s s', reach step l0 s ∧ cond_list 5 s = [1] ∧ reach step (co_cond_signal 5 s) s' ∧
  at_ s' = Draining 2023 ∧ active s' = [] ∧ cond_list 5 s' = [] ∧
  (∃ i, waits s' !! 1 = Some i ∧ expire i = 3000) ∧ 1 ∉ r_item <$> resumed s'.
Proof.
  exists l5, l7. split; [eapply reach_step; [exact reach_l4|exact step_l5]|]. split; [run|].
  split; [eapply reach_step; [apply reach_refl|exact step_l7]|]. split; [run|]. split; [run|]. split; [run|].
  split; [exists (Wait (CondWait 5) 3000 false false 0); split; run|]. apply (bool_decide_unpack _). run.
Qed.

(** 23 milliseconds after it was made, an empty
    wheel has its start at index 23, the second ends at the last bit of a word,
    and the mask of the last word is computed by shifting a 64-bit integer by
    64 bits, which C++ leaves undefined. *)
Theorem next_timeout_bad_shift :
  GetNextTimeoutInASecond 1023 (TakeAllTimeout 1023 (wheel l0) []).1 = Fault BadShift.
Proof. run. Qed.
End LoopExample.
