(* ===== verification/Handshake.v ===== *)
(** * The handshake of UDP connections: corpc_io.cpp and corpc_message_client.cpp

    [UdpClient::connect] and [UdpAcceptor] agree on a connection with four
    datagrams of four bytes.  The client repeats the first until it gets the
    second, and the third until it gets the fourth.  The acceptor has one
    coroutine for the listening socket and one for every handshake, which has a
    socket of its own, connected to the client; after the fourth message that
    socket becomes the socket of a connection, whose receiving pipeline
    (Pipeline.v) answers the third message when it comes again.

    The network may lose, repeat and reorder datagrams: what was sent once can
    be delivered any number of times, at any time.  A datagram from a client
    goes to the listening socket or to any socket connected to the client.
    Besides the clients of the library there may be strangers, who send what
    they like. *)
From stdpp Require Import functions.
From S2P Require Import Prelude Define Pipeline.
Open Scope Z_scope.

Module Handshake.
(** [sockaddr_in]; [sin_family] is always [AF_INET]. *)
Record sockaddr_in : Type := Addr { s_addr : Z; sin_port : Z }.
#[global] Instance sockaddr_eq_dec : EqDecision sockaddr_in.
Proof. solve_decision. Defined.
#[global] Instance sockaddr_countable : Countable sockaddr_in.
Proof. refine (inj_countable' (λ a, (s_addr a, sin_port a)) (λ x, Addr x.1 x.2) _). by intros []. Defined.

(** The order of the keys of [shakingClient_]. *)
Definition SockAddrCmp (s1 s2 : sockaddr_in) : bool :=
  if bool_decide (s_addr s1 ≠ s_addr s2) then bool_decide (s_addr s1 < s_addr s2) else
  if bool_decide (sin_port s1 ≠ sin_port s2) then bool_decide (sin_port s1 < sin_port s2) else
  false.

(** It is a strict order in which only equal addresses are equivalent, so the
    [std::map] is a map from addresses. *)
Lemma SockAddrCmp_order a b c :
  SockAddrCmp a a = false ∧
  (SockAddrCmp a b = true → SockAddrCmp b c = true → SockAddrCmp a c = true) ∧
  (SockAddrCmp a b = false → SockAddrCmp b a = false → a = b).
Proof.
  destruct a as [a1 a2], b as [b1 b2], c as [c1 c2]. unfold SockAddrCmp. simpl.
  split_and!; repeat case_bool_decide; intros; try done; try lia. f_equal; lia.
Qed.

(** A handshake message, [tmp = htobe32(type); std::memcpy(msg, &tmp, 4)]. *)
Definition shakemsg (e : endian) (type : Z) : outcome bytes := put_be32 e (zeros CORPC_UDP_HANDSHAKE_SIZE) 0 type.
Definition get_type (e : endian) (buf : bytes) : outcome Z := x ← get_be32 e buf 0; Ok (i32 x).

(** ** The client: [UdpClient::connect] *)

(** Where the client is: [connect] was not called; it waits in [poll] for
    handshake 2, for handshake 4; it has returned [true] and the connection is
    open or not; it has closed the socket and returned [false]. *)
Inductive phase : Type :=
  | Idle
  | Step1 (pollEndAt : Z)
  | Step2 (pollEndAt : Z)
  | Connected (open : bool)
  | Failed.

(** What [poll] returns, and [read] after it: -1 with [EAGAIN] or [EINTR], at
    the time [nowms]; -1 with another error; 0; a datagram, or an error of
    [read].  A datagram longer than the buffer is cut, but not to four bytes. *)
Inductive poll_result : Type :=
  | PollAgain (nowms : Z)
  | PollError
  | PollTimeout
  | PollRead (data : option bytes).

Section client.
Context (e : endian).

(** The start of a round of the two loops: [written] is whether [write] takes
    the message, [nowms] what [mtime] returns after it. *)
Definition send1 (written : bool) (nowms : Z) : outcome (phase * list bytes) :=
  handshake1msg ← shakemsg e CORPC_MSG_TYPE_UDP_HANDSHAKE_1;
  if written then Ok (Step1 (u64 (nowms + 1000)), [handshake1msg]) else Ok (Failed, []).
Definition send3 (written : bool) (nowms : Z) : outcome (phase * list bytes) :=
  handshake3msg ← shakemsg e CORPC_MSG_TYPE_UDP_HANDSHAKE_3;
  if written then Ok (Step2 (u64 (nowms + 100)), [handshake3msg]) else Ok (Failed, []).

(** From the poll for handshake 2 to the next poll or the end. *)
Definition step1 (r : poll_result) (written : bool) (nowms pollEndAt : Z) : outcome (phase * list bytes) :=
  match r with
  | PollAgain now => if bool_decide (now < pollEndAt) then Ok (Step1 pollEndAt, []) else send1 written nowms
  | PollError => Ok (Failed, [])
  | PollTimeout => send1 written nowms
  | PollRead None => Ok (Failed, [])
  | PollRead (Some buf) =>
    if bool_decide (zlen buf ≠ CORPC_UDP_HANDSHAKE_SIZE) then Ok (Failed, []) else
    msgtype ← get_type e buf;
    if bool_decide (msgtype ≠ CORPC_MSG_TYPE_UDP_HANDSHAKE_2) then Ok (Failed, []) else
    send3 written nowms
  end.

(** From the poll for handshake 4 on. *)
Definition step2 (r : poll_result) (written : bool) (nowms pollEndAt : Z) : outcome (phase * list bytes) :=
  match r with
  | PollAgain now => if bool_decide (now < pollEndAt) then Ok (Step2 pollEndAt, []) else send3 written nowms
  | PollError => Ok (Failed, [])
  | PollTimeout => send3 written nowms
  | PollRead None => Ok (Failed, [])
  | PollRead (Some buf) =>
    if bool_decide (zlen buf ≠ CORPC_UDP_HANDSHAKE_SIZE) then Ok (Failed, []) else
    msgtype ← get_type e buf;
    if bool_decide (msgtype = CORPC_MSG_TYPE_UDP_HANDSHAKE_2) then send3 written nowms else
    if bool_decide (msgtype ≠ CORPC_MSG_TYPE_UDP_HANDSHAKE_4) then Ok (Failed, []) else
    Ok (Connected true, [])
  end.

(** [UdpClient::connect] up to its first poll: it returns [false] at once when
    a connection is open; [ok] is whether the socket could be created, bound
    and connected. *)
Definition connect (ph : phase) (ok written : bool) (nowms : Z) : outcome (phase * list bytes) :=
  match ph with
  | Connected true => Ok (ph, [])
  | _ => if ok then send1 written nowms else Ok (Failed, [])
  end.
End client.

(** ** The server: [UdpAcceptor] *)

(** What [read] of a handshake routine returns: a negative number with
    [EAGAIN] (the time limit has passed), another error, a datagram. *)
Inductive read_result : Type := ReadAgain | ReadError | ReadData (buf : bytes).

Section server.
Context {Conn Task : Type} (e : endian).
Context (decodeFun_ : decode_fun Conn Task) (headSize maxBodySize : Z) `{!Decoder headSize decodeFun_} (newConn : Conn).

(** A socket connected to a client, by who uses it: the handshake routine, in
    its [read]; the routine between writing handshake 4 and
    [buildAndAddConnection]; a connection; a connection that has closed it; the
    routine has closed it; nobody, and it is open. *)
Inductive sstate : Type :=
  | Shaking (waittime trytimes : Z)
  | Building
  | Built (p : UdpPipeline.t Conn Task)
  | ConnClosed
  | Closed
  | Leaked.
Record sock : Type := Sock { peer : sockaddr_in; st : sstate }.

(** The members of [UdpAcceptor], and the sockets made so far. *)
Record acceptor : Type := Acceptor { shakingClient_ : gmap sockaddr_in bool; socks : list sock }.

(** Whether the handshake routine is still running, and whether the
    descriptor is open. *)
Definition running (x : sstate) : bool := match x with Shaking _ _ | Building => true | _ => false end.
Definition fd_open (x : sstate) : bool := match x with ConnClosed | Closed => false | _ => true end.

(** [while (trytimes > 0 && !shakeOK)] up to the [read]; [written] is whether
    [write] takes handshake 2. *)
Definition loop_head (written : bool) (waittime trytimes : Z) : outcome (sstate * list bytes) :=
  if bool_decide (trytimes > 0) then
    shakemsg2buf_ ← shakemsg e CORPC_MSG_TYPE_UDP_HANDSHAKE_2;
    if written then Ok (Shaking waittime trytimes, [shakemsg2buf_]) else Ok (Closed, [])
  else Ok (Leaked, []).

(** [handshakeRoutine] from its [read] to the next one or the end of the loop;
    [written] is about the message written then. *)
Definition handshakeRoutine (r : read_result) (written : bool) (waittime trytimes : Z) : outcome (sstate * list bytes) :=
  match r with
  | ReadAgain => loop_head written (Z.shiftl waittime 1) (trytimes - 1)
  | ReadError => Ok (Closed, [])
  | ReadData buf =>
    if bool_decide (zlen buf ≠ CORPC_UDP_HANDSHAKE_SIZE) then Ok (Closed, []) else
    msgtype ← get_type e buf;
    if bool_decide (msgtype ≠ CORPC_MSG_TYPE_UDP_HANDSHAKE_3) then loop_head written waittime trytimes else
    shakemsg4buf_ ← shakemsg e CORPC_MSG_TYPE_UDP_HANDSHAKE_4;
    if written then Ok (Building, [shakemsg4buf_]) else Ok (Closed, [])
  end.

(** The routine of the socket [fd] goes on to [x]; when it has ended,
    [shakingClient_.erase(client_addr)]. *)
Definition set_sock (fd : nat) (a : sockaddr_in) (x : sstate) (s : acceptor) : acceptor :=
  Acceptor (if running x then shakingClient_ s else delete a (shakingClient_ s)) (<[fd := Sock a x]> (socks s)).

(** [acceptRoutine]: what [recvfrom] returned, with the address, [None] for an
    error; [bound] is whether the new socket could be bound and connected. *)
Definition acceptRoutine (a : sockaddr_in) (data : option bytes) (bound written : bool) (s : acceptor)
    : outcome (acceptor * list bytes) :=
  match data with
  | None => unshake ← shakemsg e CORPC_MSG_TYPE_UDP_UNSHAKE; Ok (s, [unshake])
  | Some buf =>
    if bool_decide (zlen buf ≠ CORPC_UDP_HANDSHAKE_SIZE) then
      unshake ← shakemsg e CORPC_MSG_TYPE_UDP_UNSHAKE; Ok (s, [unshake])
    else
    msgType ← get_type e buf;
    if bool_decide (msgType ≠ CORPC_MSG_TYPE_UDP_HANDSHAKE_1) then
      if bool_decide (msgType = CORPC_MSG_TYPE_UDP_HANDSHAKE_3) then
        shakemsg2buf_ ← shakemsg e CORPC_MSG_TYPE_UDP_HANDSHAKE_2; Ok (s, [shakemsg2buf_])
      else Ok (s, [])
    else
    match shakingClient_ s !! a with
    | Some _ => Ok (s, [])
    | None =>
      if negb bound then Ok (s, []) else
      '(x, out) ← loop_head written 1000 4;
      let s := Acceptor (<[a := true]> (shakingClient_ s)) (socks s ++ [Sock a Closed]) in
      Ok (set_sock (length (socks s) - 1) a x s, out)
    end
  end.

(** A datagram at the socket of a connection goes to its pipeline; [wret] is
    what [::write] returns for the answer.  When [upflow] fails the receiver
    leaves and closes the descriptor. *)
Definition receive (buf : bytes) (wret : Z) (p : UdpPipeline.t Conn Task) : outcome (sstate * list bytes) :=
  '(p', ok) ← UdpPipeline.upflow e headSize decodeFun_ buf (zlen buf) wret p;
  Ok (if ok : bool then Built p' else ConnClosed, drop (length (UdpPipeline.written p)) (UdpPipeline.written p')).

Definition newPipeline : UdpPipeline.t Conn Task := UdpPipeline.init headSize maxBodySize newConn.
End server.
Arguments sstate : clear implicits.
Arguments sock : clear implicits.
Arguments acceptor : clear implicits.

(** ** Clients, server and network *)
Section system.
Context {Conn Task : Type} (ec es : endian).
Context (decodeFun_ : decode_fun Conn Task) (headSize maxBodySize : Z) `{!Decoder headSize decodeFun_} (newConn : Conn).
Context (stranger : sockaddr_in → bool).

(** The datagrams sent so far, with the address of the client, and the
    addresses for which [buildAndAddConnection] was called. *)
Record t : Type := State {
  clients : sockaddr_in → phase;
  srv : acceptor Conn Task;
  up : list (sockaddr_in * bytes);
  down : list (sockaddr_in * bytes);
  built : list sockaddr_in;
}.
Implicit Types (s : t) (a : sockaddr_in).

Definition with_addr a (out : list bytes) : list (sockaddr_in * bytes) := (λ d, (a, d)) <$> out.
Definition add_up a (out : list bytes) s : t := State (clients s) (srv s) (up s ++ with_addr a out) (down s) (built s).
Definition add_down a (out : list bytes) s : t := State (clients s) (srv s) (up s) (down s ++ with_addr a out) (built s).
Definition set_client a (ph : phase) s : t := State (<[a := ph]> (clients s)) (srv s) (up s) (down s) (built s).
Definition set_srv (x : acceptor Conn Task) s : t := State (clients s) x (up s) (down s) (built s).
Definition add_built a s : t := State (clients s) (srv s) (up s) (down s) (built s ++ [a]).
Definition put_sock (fd : nat) a (x : sstate Conn Task) (s : acceptor Conn Task) : acceptor Conn Task :=
  Acceptor (shakingClient_ s) (<[fd := Sock a x]> (socks s)).

(** [connect] is not called while it runs. *)
Definition idle (ph : phase) : Prop := match ph with Step1 _ | Step2 _ => False | _ => True end.

Inductive step : t → t → Prop :=
  | step_connect s a ok w now ph out : stranger a = false → idle (clients s a) →
      connect ec (clients s a) ok w now = Ok (ph, out) → step s (add_up a out (set_client a ph s))
  | step_poll1 s a T r w now ph out : clients s a = Step1 T → (∀ d, r = PollRead (Some d) → (a, d) ∈ down s) →
      step1 ec r w now T = Ok (ph, out) → step s (add_up a out (set_client a ph s))
  | step_poll2 s a T r w now ph out : clients s a = Step2 T → (∀ d, r = PollRead (Some d) → (a, d) ∈ down s) →
      step2 ec r w now T = Ok (ph, out) → step s (add_up a out (set_client a ph s))
  | step_client_data s a d : clients s a = Connected true → Forall is_byte d → zlen d ≠ CORPC_UDP_HANDSHAKE_SIZE →
      step s (add_up a [d] s)
  | step_client_close s a : clients s a = Connected true → step s (set_client a (Connected false) s)
  | step_stranger s a d : stranger a = true → Forall is_byte d → step s (add_up a [d] s)
  | step_accept s a d bound w srv' out : (a, d) ∈ up s → acceptRoutine es a (Some d) bound w (srv s) = Ok (srv', out) →
      step s (add_down a out (set_srv srv' s))
  | step_recv_error s bound w srv' out : acceptRoutine es (Addr 0 0) None bound w (srv s) = Ok (srv', out) →
      step s (add_down (Addr 0 0) out (set_srv srv' s))
  | step_shake s fd a wt tt r w x out : socks (srv s) !! fd = Some (Sock a (Shaking wt tt)) →
      (∀ d, r = ReadData d → (a, d) ∈ up s) → handshakeRoutine es r w wt tt = Ok (x, out) →
      step s (add_down a out (set_srv (set_sock fd a x (srv s)) s))
  | step_build s fd a : socks (srv s) !! fd = Some (Sock a Building) →
      step s (set_srv (set_sock fd a (Built (newPipeline headSize maxBodySize newConn)) (srv s)) (add_built a s))
  | step_receive s fd a p d wret x out : socks (srv s) !! fd = Some (Sock a (Built p)) → (a, d) ∈ up s →
      receive es decodeFun_ headSize d wret p = Ok (x, out) →
      step s (add_down a out (set_srv (put_sock fd a x (srv s)) s))
  | step_data s fd a p d : socks (srv s) !! fd = Some (Sock a (Built p)) → Forall is_byte d →
      zlen d ≠ CORPC_UDP_HANDSHAKE_SIZE → step s (add_down a [d] s)
  | step_close_conn s fd a p : socks (srv s) !! fd = Some (Sock a (Built p)) →
      step s (set_srv (put_sock fd a ConnClosed (srv s)) s).

Definition init : t := State (λ _, Idle) (Acceptor ∅ []) [] [] [].
Definition reach (s : t) : Prop := rtc step init s.

(** ** The messages *)
Definition msg1 : bytes := be_bytes 4 CORPC_MSG_TYPE_UDP_HANDSHAKE_1.
Definition msg2 : bytes := be_bytes 4 CORPC_MSG_TYPE_UDP_HANDSHAKE_2.
Definition msg3 : bytes := be_bytes 4 CORPC_MSG_TYPE_UDP_HANDSHAKE_3.
Definition msg4 : bytes := be_bytes 4 CORPC_MSG_TYPE_UDP_HANDSHAKE_4.
Definition unshake : bytes := be_bytes 4 CORPC_MSG_TYPE_UDP_UNSHAKE.

Lemma shakemsg_ok e type : shakemsg e type = Ok (be_bytes 4 type).
Proof. unfold shakemsg. rewrite put_be32_ok by (vm_compute; congruence). done. Qed.

Lemma get_type_ok e d : Forall is_byte d → zlen d = 4 → get_type e d = Ok (i32 (be_val d)).
Proof.
  intros Hb Hl. unfold get_type. rewrite get_be32_ok by (done || lia). simpl.
  by rewrite <-Hl, slice_all.
Qed.

Lemma type_inj d type : Forall is_byte d → zlen d = 4 → i32 (be_val d) = type → d = be_bytes 4 type.
Proof.
  intros Hb Hl <-. pose proof (be_val_range d Hb) as Hr. rewrite Hl in Hr.
  rewrite <-(be_bytes_val 4 (be_bytes 4 (i32 (be_val d)))) by auto using be_bytes_length, be_bytes_bytes with lia.
  rewrite be_val_bytes by lia. change (4 * 8) with 32. fold (u32 (i32 (be_val d))). rewrite u32_i32, u32_small by done. by rewrite be_bytes_val.
Qed.

Lemma get_msg e d type : d = be_bytes 4 type → i32 type = type → get_type e d = Ok type.
Proof.
  intros -> Ht. rewrite get_type_ok by auto using be_bytes_length, be_bytes_bytes with lia.
  rewrite be_val_bytes by lia. change (4 * 8) with 32. fold (u32 type). by rewrite i32_u32, Ht.
Qed.
Lemma get_msg1 e : get_type e msg1 = Ok CORPC_MSG_TYPE_UDP_HANDSHAKE_1.
Proof. by apply get_msg. Qed.
Lemma get_msg2 e : get_type e msg2 = Ok CORPC_MSG_TYPE_UDP_HANDSHAKE_2.
Proof. by apply get_msg. Qed.
Lemma get_msg3 e : get_type e msg3 = Ok CORPC_MSG_TYPE_UDP_HANDSHAKE_3.
Proof. by apply get_msg. Qed.
Lemma get_msg4 e : get_type e msg4 = Ok CORPC_MSG_TYPE_UDP_HANDSHAKE_4.
Proof. by apply get_msg. Qed.


(** No two of them are equal. *)
Ltac not_msg := let E := fresh in intros E; exfalso; apply list_elem_of_singleton in E; by vm_compute in E.

(** ** What the routines do, by cases *)
Ltac routine :=
  repeat first
    [ progress rewrite !shakemsg_ok in *
    | progress cbn [mbind outcome_bind negb] in *
    | match goal with
      | Hr : ∀ d, _ (Some ?x) = _ (Some d) → _ |- _ => specialize (Hr x eq_refl)
      | Hr : ∀ d, _ ?x = _ d → Forall is_byte d |- _ => specialize (Hr x eq_refl)
      | H : ¬ _ ≠ _ |- _ => apply dec_stable in H
      | H : zlen ?d = CORPC_UDP_HANDSHAKE_SIZE |- _ => change (zlen d = 4) in H
      | Hb : Forall is_byte ?d, Hl : zlen ?d = 4 |- context [get_type ?e ?d] => rewrite (get_type_ok e d Hb Hl)
      | Hb : Forall is_byte ?d, Hl : zlen ?d = 4, H : i32 (be_val ?d) = _ |- _ =>
          apply (type_inj _ _ Hb Hl) in H; subst d
      | |- context [bool_decide _] => case_bool_decide
      | |- context [if ?b then _ else _] => destruct b
      end ];
  intros; simplify_eq; try (by eauto 10).

Lemma step1_cases r w now T ph out : (∀ d, r = PollRead (Some d) → Forall is_byte d) →
  step1 ec r w now T = Ok (ph, out) →
  (ph = Failed ∧ out = []) ∨ (∃ T', ph = Step1 T' ∧ (out = [] ∨ out = [msg1])) ∨
  (∃ T', ph = Step2 T' ∧ out = [msg3] ∧ r = PollRead (Some msg2)).
Proof. intros Hr. unfold step1, send1, send3. destruct r as [x| | |[d|]]; routine. Qed.

Lemma step2_cases r w now T ph out : (∀ d, r = PollRead (Some d) → Forall is_byte d) →
  step2 ec r w now T = Ok (ph, out) →
  (ph = Failed ∧ out = []) ∨ (∃ T', ph = Step2 T' ∧ (out = [] ∨ out = [msg3])) ∨
  (ph = Connected true ∧ out = [] ∧ r = PollRead (Some msg4)).
Proof. intros Hr. unfold step2, send3. destruct r as [x| | |[d|]]; routine. Qed.

Lemma connect_cases ph0 ok w now ph out : idle ph0 → connect ec ph0 ok w now = Ok (ph, out) →
  (ph = ph0 ∧ out = []) ∨ (ph = Failed ∧ out = []) ∨ (∃ T, ph = Step1 T ∧ out = [msg1]).
Proof. intros Hi. unfold connect, send1. destruct ph0 as [| | |[]|]; routine. Qed.

Lemma loop_head_cases e w wt tt x out : loop_head (Conn:=Conn) (Task:=Task) e w wt tt = Ok (x, out) →
  (x = Closed ∧ out = []) ∨ (x = Leaked ∧ out = []) ∨ (x = Shaking wt tt ∧ 0 < tt ∧ out = [msg2]).
Proof. unfold loop_head. routine. right. right. split_and!; [done|lia|done]. Qed.

Lemma handshake_cases r w wt tt x out : (∀ d, r = ReadData d → Forall is_byte d) →
  handshakeRoutine (Conn:=Conn) (Task:=Task) es r w wt tt = Ok (x, out) → tt ≤ 4 →
  (x = Closed ∧ out = []) ∨ (x = Leaked ∧ out = []) ∨ (∃ wt' tt', x = Shaking wt' tt' ∧ 0 < tt' ≤ 4 ∧ out = [msg2]) ∨
  (x = Building ∧ out = [msg4] ∧ r = ReadData msg3).
Proof.
  intros Hr. unfold handshakeRoutine. destruct r as [| |d]; routine.
  all: match goal with H : loop_head _ _ _ _ = _ |- _ =>
    apply loop_head_cases in H as [[-> ->]|[[-> ->]|(-> & ? & ->)]] end; eauto 10 with lia.
Qed.

(** A new socket for the client [a], whose routine has got to [x]. *)
Definition new_sock a (x : sstate Conn Task) (s : acceptor Conn Task) : acceptor Conn Task :=
  Acceptor (if running x then <[a := true]> (shakingClient_ s) else delete a (shakingClient_ s)) (socks s ++ [Sock a x]).

Lemma set_new a x (s : acceptor Conn Task) : shakingClient_ s !! a = None →
  set_sock (length (socks s ++ [Sock a Closed]) - 1) a x (Acceptor (<[a := true]> (shakingClient_ s)) (socks s ++ [Sock a Closed])) =
  new_sock a x s.
Proof.
  intros Hn. unfold set_sock, new_sock. simpl. f_equal; [by rewrite delete_insert_eq|].
  rewrite length_app, Nat.add_sub, insert_app_r_alt, Nat.sub_diag by lia. done.
Qed.

Lemma accept_cases a d bound w (s s' : acceptor Conn Task) out : Forall is_byte d → acceptRoutine es a (Some d) bound w s = Ok (s', out) →
  (s' = s ∧ (out = [] ∨ out = [unshake] ∨ out = [msg2] ∧ d = msg3)) ∨
  (d = msg1 ∧ shakingClient_ s !! a = None ∧ ∃ x, s' = new_sock a x s ∧
     (x = Closed ∧ out = [] ∨ x = Shaking 1000 4 ∧ out = [msg2])).
Proof.
  intros Hr. unfold acceptRoutine. destruct (shakingClient_ s !! a) eqn:E; routine.
  destruct (loop_head es w 1000 4) as [[x o]|] eqn:Eh; simpl in *; simplify_eq.
  apply loop_head_cases in Eh as Hx. right. split; [done|]. split; [done|]. exists x. split.
  - by rewrite <-set_new.
  - destruct Hx as [[-> ->]|[[-> ->]|(-> & ? & ->)]]; eauto.
    unfold loop_head in Eh. simpl in Eh. rewrite shakemsg_ok in Eh. by destruct w.
Qed.

Lemma receive_cases d wret p x out : Forall is_byte d → receive es decodeFun_ headSize d wret p = Ok (x, out) →
  ((∃ p', x = Built p') ∨ x = ConnClosed) ∧ (out = [] ∨ out = [msg4] ∧ d = msg3).
Proof.
  intros Hb E. unfold receive in E. inv_bind. destruct a as [p' ok]. simplify_eq.
  split; [destruct ok; eauto|]. destruct (decide (zlen d = 4)) as [Hl|Hl].
  - rewrite Hl, <-(be_bytes_val 4 d Hl Hb), (UdpPipeline.udp_upflow_handshake_reply es headSize decodeFun_) in Ha.
    case_bool_decide as Ht; simplify_eq; [|by rewrite drop_all; left].
    right. simpl. rewrite drop_app_length. split; [done|]. by apply type_inj.
  - left. unfold UdpPipeline.upflow in Ha. rewrite bool_decide_false in Ha by done.
    case_bool_decide; [simplify_eq; by rewrite drop_all|]. inv_bind.
    destruct a1 as [[c bb] task]. case_match; simplify_eq; simpl; by rewrite drop_all.
Qed.

(** ** Invariant *)

(** The server has built a connection for the client or is about to. *)
Definition agreed s a : Prop := a ∈ built s ∨ ∃ fd, socks (srv s) !! fd = Some (Sock a Building).

Record inv s : Prop := {
  i_up_bytes a d : (a, d) ∈ up s → Forall is_byte d;
  i_down_bytes a d : (a, d) ∈ down s → Forall is_byte d;
  i_shaking a : is_Some (shakingClient_ (srv s) !! a) ↔ ∃ fd x, socks (srv s) !! fd = Some (Sock a x) ∧ running x = true;
  i_unique fd1 fd2 a x y : socks (srv s) !! fd1 = Some (Sock a x) → socks (srv s) !! fd2 = Some (Sock a y) →
    running x = true → running y = true → fd1 = fd2;
  i_tries fd a wt tt : socks (srv s) !! fd = Some (Sock a (Shaking wt tt)) → 0 < tt ≤ 4;
  i_msg2 fd a x : socks (srv s) !! fd = Some (Sock a x) → running x = true → (a, msg2) ∈ down s;
  i_built fd a p : socks (srv s) !! fd = Some (Sock a (Built p)) → a ∈ built s;
  i_msg4 a : (a, msg4) ∈ down s → agreed s a;
  i_connected a b : clients s a = Connected b → agreed s a;
  i_msg3 a : agreed s a → (a, msg3) ∈ up s;
  i_order a : stranger a = false → (a, msg3) ∈ up s → (a, msg2) ∈ down s ∧ (a, msg1) ∈ up s;
  i_step1 a T : clients s a = Step1 T → (a, msg1) ∈ up s;
  i_step2 a T : clients s a = Step2 T → (a, msg3) ∈ up s;
  i_stranger a : stranger a = true → clients s a = Idle;
}.

Lemma elem_with_addr a b (d : bytes) out : (b, d) ∈ with_addr a out ↔ b = a ∧ d ∈ out.
Proof. unfold with_addr. rewrite list_elem_of_fmap. naive_solver. Qed.
Lemma msg_bytes type : Forall is_byte (be_bytes 4 type).
Proof. by apply be_bytes_bytes. Qed.
Lemma all_bytes type : Forall (Forall is_byte) [be_bytes 4 type].
Proof. constructor; [apply msg_bytes|constructor]. Qed.
Lemma not_msg (d : bytes) type : zlen d ≠ CORPC_UDP_HANDSHAKE_SIZE → d ≠ be_bytes 4 type.
Proof. intros Hl ->. apply Hl. by apply be_bytes_length. Qed.

(** Datagrams from a client. *)
Lemma inv_up s a out : inv s → Forall (Forall is_byte) out →
  (stranger a = false → msg3 ∈ out → (a, msg2) ∈ down s ∧ (a, msg1) ∈ up s) → inv (add_up a out s).
Proof.
  intros [] Hb H3. constructor; simpl; try done.
  - intros b d. rewrite elem_of_app, elem_with_addr. intros [?|[-> ?]]; [eauto|]. by eapply Forall_forall in Hb.
  - intros b Hg. apply elem_of_app. eauto.
  - intros b Hs. rewrite !elem_of_app, !elem_with_addr. intros [H|[-> H]]; [naive_solver|].
    destruct (H3 Hs H). eauto.
  - intros b T ?. apply elem_of_app. eauto.
  - intros b T ?. apply elem_of_app. eauto.
Qed.

(** Datagrams from the server. *)
Lemma inv_down s a out : inv s → Forall (Forall is_byte) out → (msg4 ∈ out → agreed s a) → inv (add_down a out s).
Proof.
  intros Hi Hb H4. pose proof (i_msg4 s Hi) as Hi4. pose proof (i_order s Hi) as Hio.
  destruct Hi. constructor; simpl; try done.
  - intros b d. rewrite elem_of_app, elem_with_addr. intros [?|[-> ?]]; [eauto|]. by eapply Forall_forall in Hb.
  - intros fd b x ??. apply elem_of_app. eauto.
  - intros b. rewrite elem_of_app, elem_with_addr. intros [H|[-> H]]; [by apply Hi4|by apply H4].
  - intros b Hs H3. destruct (Hio b Hs H3). rewrite elem_of_app. eauto.
Qed.

(** A client goes on. *)
Lemma inv_client s a ph : inv s → stranger a = false →
  (∀ b, ph = Connected b → agreed s a) → (∀ T, ph = Step1 T → (a, msg1) ∈ up s) → (∀ T, ph = Step2 T → (a, msg3) ∈ up s) →
  inv (set_client a ph s).
Proof.
  intros [] Hs Hc H1 H2. constructor; simpl; try done.
  - intros b x. destruct (decide (b = a)) as [->|]; [rewrite fn_lookup_insert|rewrite fn_lookup_insert_ne by done]; eauto.
  - intros b x. destruct (decide (b = a)) as [->|]; [rewrite fn_lookup_insert|rewrite fn_lookup_insert_ne by done]; eauto.
  - intros b x. destruct (decide (b = a)) as [->|]; [rewrite fn_lookup_insert|rewrite fn_lookup_insert_ne by done]; eauto.
  - intros b Hb. rewrite fn_lookup_insert_ne by congruence. eauto.
Qed.

(** The socket [fd] goes on from [x] to [x']. *)
Section sockets.
Context s (fd : nat) a (x x' : sstate Conn Task) (Hfd : socks (srv s) !! fd = Some (Sock a x)).

Lemma lookup_put fd' b y : <[fd := Sock a x']> (socks (srv s)) !! fd' = Some (Sock b y) ↔
  fd' = fd ∧ b = a ∧ y = x' ∨ fd' ≠ fd ∧ socks (srv s) !! fd' = Some (Sock b y).
Proof using Hfd.
  rewrite list_lookup_insert_Some. pose proof (lookup_lt_Some _ _ _ Hfd). split.
  - intros [(-> & [= -> ->] & _)|[? ?]]; eauto.
  - intros [(-> & -> & ->)|[? ?]]; eauto.
Qed.

Context (Hi : inv s) (Htries : ∀ wt tt, x' = Shaking wt tt → 0 < tt ≤ 4) (Hbuilt : ∀ p, x' = Built p → a ∈ built s).
Context (Hstay : x = Building → x' = Building ∨ a ∈ built s) (Hmsg3 : x' = Building → (a, msg3) ∈ up s).

Lemma agreed_put m b : agreed s b → agreed (set_srv (Acceptor m (<[fd := Sock a x']> (socks (srv s)))) s) b.
Proof using Hfd Hstay.
  intros [Hb|(fd' & Hb)]; [by left|]. destruct (decide (fd' = fd)) as [->|].
  - assert (x = Building ∧ b = a) as [Ex ->] by (rewrite Hfd in Hb; by injection Hb).
    destruct (Hstay Ex) as [Ex'|]; [|by left]. right. exists fd. simpl. apply lookup_put. auto.
  - right. exists fd'. simpl. apply lookup_put. eauto.
Qed.

Lemma inv_sock m :
  (∀ b, is_Some (m !! b) ↔
    (b = a ∧ running x' = true) ∨ ∃ fd' y, fd' ≠ fd ∧ socks (srv s) !! fd' = Some (Sock b y) ∧ running y = true) →
  (running x' = true → running x = true) →
  inv (set_srv (Acceptor m (<[fd := Sock a x']> (socks (srv s)))) s).
Proof using All.
  intros Hm Hrun. pose proof agreed_put m as Hag. constructor; simpl; try apply Hi.
  - intros b. rewrite Hm. split.
    + intros [[-> Hr]|(fd' & y & ? & ? & ?)]; [exists fd, x'|exists fd', y]; (split; [|done]); apply lookup_put; eauto.
    + intros (fd' & y & [(-> & -> & ->)|(? & ?)]%lookup_put & Hr); eauto 10.
  - intros fd1 fd2 b y z [(-> & -> & ->)|(? & Hy)]%lookup_put [(-> & ? & ->)|(? & Hz)]%lookup_put; intros; subst; auto;
      eapply (i_unique s Hi); eauto.
  - intros fd' b wt tt [(-> & -> & E)|(? & ?)]%lookup_put; eauto using i_tries.
  - intros fd' b y [(-> & -> & ->)|(? & ?)]%lookup_put ?; eauto using i_msg2.
  - intros fd' b p [(-> & -> & ?)|(? & ?)]%lookup_put; eauto using i_built.
  - intros b ?. by apply Hag, (i_msg4 s Hi).
  - intros b c ?. by eapply Hag, (i_connected s Hi).
  - intros b [Hb|(fd' & [(-> & -> & <-)|(? & ?)]%lookup_put)]; [apply (i_msg3 s Hi); by left|by apply Hmsg3|].
    apply (i_msg3 s Hi). right. eauto.
Qed.

Lemma inv_set : running x = true → inv (set_srv (set_sock fd a x' (srv s)) s).
Proof using All.
  intros Hr. unfold set_sock. apply inv_sock; [|done]. intros b.
  destruct (decide (b = a)) as [->|Hne].
  - destruct (running x') eqn:Hx'; [|rewrite lookup_delete_eq].
    + split; [by left|]. intros _. apply (i_shaking s Hi). eauto.
    + split; [by intros []|]. intros [[_ ?]|(fd' & y & Hne & Hy & ?)]; [done|]. destruct Hne. by eapply (i_unique s Hi).
  - assert ((if running x' then shakingClient_ (srv s) else delete a (shakingClient_ (srv s))) !! b =
      shakingClient_ (srv s) !! b) as -> by (destruct (running x'); [done|by rewrite lookup_delete_ne]).
    rewrite (i_shaking s Hi b). split; [|naive_solver]. intros (fd' & y & Hy & Hry). right. exists fd', y.
    split; [|done]. intros ->. congruence.
Qed.

Lemma inv_put : running x = false → running x' = false → inv (set_srv (put_sock fd a x' (srv s)) s).
Proof using All.
  intros Hr Hr'. unfold put_sock. apply inv_sock; [|congruence]. intros b. rewrite (i_shaking s Hi b). split.
  - intros (fd' & y & Hy & Hry). right. exists fd', y. split; [|done]. intros ->. congruence.
  - rewrite Hr'. naive_solver.
Qed.
End sockets.

Lemma inv_new s a x : inv s → shakingClient_ (srv s) !! a = None →
  x = Closed ∨ x = Shaking 1000 4 ∧ (a, msg2) ∈ down s → inv (set_srv (new_sock a x (srv s)) s).
Proof.
  intros Hi Hn Hx.
  assert (∀ fd b y, socks (new_sock a x (srv s)) !! fd = Some (Sock b y) →
    (fd < length (socks (srv s)) ∧ socks (srv s) !! fd = Some (Sock b y))%nat ∨ (fd = length (socks (srv s)) ∧ b = a ∧ y = x)) as Hl.
  { intros fd b y [?|[-> [= -> ->]]]%lookup_snoc_Some; auto. }
  assert (∀ fd y, socks (srv s) !! fd = Some (Sock a y) → running y = false) as Hno.
  { intros fd y Hy. apply not_true_is_false. intros Hr.
    assert (is_Some (shakingClient_ (srv s) !! a)) as Hs by (apply (i_shaking s Hi); eauto). rewrite Hn in Hs. by destruct Hs. }
  assert (∀ b, agreed s b → agreed (set_srv (new_sock a x (srv s)) s) b) as Hag.
  { intros b [?|(fd & ?)]; [by left|right]. exists fd. simpl. by apply lookup_app_l_Some. }
  constructor; simpl; try apply Hi.
  - intros b. split.
    + intros Hb. destruct (decide (b = a)) as [->|Hne].
      * exists (length (socks (srv s))), x. rewrite lookup_snoc_Some. split; [by right|].
        destruct (running x); [done|]. rewrite lookup_delete_eq in Hb. by destruct Hb.
      * assert (is_Some (shakingClient_ (srv s) !! b)) as (fd & y & Hy & Hr)%(i_shaking s Hi).
        { destruct (running x); [rewrite lookup_insert_ne in Hb by done|rewrite lookup_delete_ne in Hb by done]; done. }
        exists fd, y. split; [by apply lookup_app_l_Some|done].
    + intros (fd & y & [[_ Hy]|(-> & -> & ->)]%Hl & Hr).
      * assert (b ≠ a) by (intros ->; by rewrite (Hno fd y Hy) in Hr).
        destruct (running x); [rewrite lookup_insert_ne by done|rewrite lookup_delete_ne by done]; apply (i_shaking s Hi); eauto.
      * rewrite Hr, lookup_insert_eq. eauto.
  - intros fd1 fd2 b y z [[? Hy]|(-> & -> & ->)]%Hl [[? Hz]|(-> & E & ->)]%Hl Hr1 Hr2; subst; auto.
    + by eapply (i_unique s Hi).
    + by rewrite (Hno _ _ Hy) in Hr1.
    + by rewrite (Hno _ _ Hz) in Hr2.
  - intros fd b wt tt [[_ ?]|(-> & -> & E)]%Hl; [eauto using i_tries|]. destruct Hx as [->|[-> _]]; [done|]. injection E. lia.
  - intros fd b y [[_ ?]|(-> & -> & ->)]%Hl Hr; [eauto using i_msg2|]. by destruct Hx as [->|[-> ?]].
  - intros fd b p [[_ ?]|(-> & -> & E)]%Hl; [eauto using i_built|]. by destruct Hx as [->|[-> _]].
  - intros b ?. by apply Hag, (i_msg4 s Hi).
  - intros b c ?. by eapply Hag, (i_connected s Hi).
  - intros b [Hb|(fd & [[_ ?]|(-> & -> & E)]%Hl)]; [apply (i_msg3 s Hi); by left|apply (i_msg3 s Hi); right; eauto|].
    by destruct Hx as [->|[-> _]].
Qed.

Lemma inv_add_built s a : inv s → agreed s a → inv (add_built a s).
Proof.
  intros Hi Ha.
  assert (∀ b, agreed s b → agreed (add_built a s) b) as Hag.
  { intros b [?|?]; [left; simpl; apply elem_of_app; by left|by right]. }
  constructor; simpl; try apply Hi.
  - intros fd b p ?. apply elem_of_app. left. eauto using i_built.
  - intros b ?. by apply Hag, (i_msg4 s Hi).
  - intros b c ?. by eapply Hag, (i_connected s Hi).
  - intros b [[Hb| ->%list_elem_of_singleton]%elem_of_app|Hb]; apply (i_msg3 s Hi); [by left|done|by right].
Qed.

(** A client sends [out] and goes on. *)
Lemma inv_client_step s a ph out : inv s → stranger a = false → Forall (Forall is_byte) out →
  (msg3 ∈ out → (a, msg2) ∈ down s ∧ (a, msg1) ∈ up s) →
  (∀ b, ph = Connected b → agreed s a) → (∀ T, ph = Step1 T → (a, msg1) ∈ up s ∨ msg1 ∈ out) →
  (∀ T, ph = Step2 T → (a, msg3) ∈ up s ∨ msg3 ∈ out) → inv (add_up a out (set_client a ph s)).
Proof.
  intros Hi Hs Hb H3 Hc H1 H2. change (inv (set_client a ph (add_up a out s))).
  apply inv_client; [by apply inv_up; auto|done|done|..]; simpl; intros T E; rewrite elem_of_app, elem_with_addr.
  - destruct (H1 T E); auto.
  - destruct (H2 T E); auto.
Qed.

Lemma client_not_stranger s a : inv s → clients s a ≠ Idle → stranger a = false.
Proof. intros Hi Hc. apply not_true_is_false. intros Hs. by apply Hc, (i_stranger s Hi). Qed.

#[local] Hint Extern 1 (_ ∈ [_]) => apply list_elem_of_here : core.
#[local] Hint Extern 1 (Forall (Forall is_byte) [_]) => apply all_bytes : core.

Lemma inv_connect s a ok w now ph out : inv s → stranger a = false → idle (clients s a) →
  connect ec (clients s a) ok w now = Ok (ph, out) → inv (add_up a out (set_client a ph s)).
Proof.
  intros Hi Hs Hid [[-> ->]|[[-> ->]|(T & -> & ->)]]%connect_cases; [| | |done]; apply inv_client_step; auto; try done.
  - by intros ?%elem_of_nil.
  - eauto using i_connected.
  - intros T E. by rewrite E in Hid.
  - intros T E. by rewrite E in Hid.
  - by intros ?%elem_of_nil.
  - not_msg.
Qed.

Lemma inv_poll1 s a T r w now ph out : inv s → clients s a = Step1 T → (∀ d, r = PollRead (Some d) → (a, d) ∈ down s) →
  step1 ec r w now T = Ok (ph, out) → inv (add_up a out (set_client a ph s)).
Proof.
  intros Hi Hc Hr Hstep. pose proof (client_not_stranger s a Hi ltac:(congruence)) as Hs.
  apply step1_cases in Hstep as [[-> ->]|[(T' & -> & [-> | ->])|(T' & -> & -> & ->)]]; [| | | |eauto using i_down_bytes].
  all: apply inv_client_step; auto; try done.
  - by intros ?%elem_of_nil.
  - by intros ?%elem_of_nil.
  - left. by eapply (i_step1 s Hi).
  - not_msg.
  - split; [auto|by eapply (i_step1 s Hi)].
Qed.

Lemma inv_poll2 s a T r w now ph out : inv s → clients s a = Step2 T → (∀ d, r = PollRead (Some d) → (a, d) ∈ down s) →
  step2 ec r w now T = Ok (ph, out) → inv (add_up a out (set_client a ph s)).
Proof.
  intros Hi Hc Hr Hstep. pose proof (client_not_stranger s a Hi ltac:(congruence)) as Hs.
  pose proof (i_step2 s Hi a T Hc) as H3. pose proof (i_order s Hi a Hs H3) as Ho.
  apply step2_cases in Hstep as [[-> ->]|[(T' & -> & [-> | ->])|(-> & -> & ->)]]; [| | | |eauto using i_down_bytes].
  all: apply inv_client_step; auto; try done.
  intros b _. apply (i_msg4 s Hi). auto.
Qed.

(** The server sends something else than handshake 4. *)
Lemma inv_reply s a out : inv s → out = [] ∨ out = [unshake] ∨ out = [msg2] → inv (add_down a out s).
Proof.
  intros Hi Hout. apply inv_down; [done|destruct Hout as [->|[->| ->]]; [constructor|apply all_bytes..]|].
  destruct Hout as [->|[->| ->]]; [by intros ?%elem_of_nil|not_msg|not_msg].
Qed.

Lemma inv_accept s a d bound w srv' out : inv s → (a, d) ∈ up s → acceptRoutine es a (Some d) bound w (srv s) = Ok (srv', out) →
  inv (add_down a out (set_srv srv' s)).
Proof.
  intros Hi Hd [[-> Hout]|(-> & Hn & x & -> & Hx)]%accept_cases; [| |by eapply (i_up_bytes s Hi)].
  - change (inv (add_down a out s)). apply inv_reply; naive_solver.
  - change (inv (set_srv (new_sock a x (srv (add_down a out s))) (add_down a out s))).
    apply inv_new; [apply inv_reply; naive_solver|done|].
    destruct Hx as [[-> ->]|[-> ->]]; [by left|right]. split; [done|]. apply elem_of_app. right. by left.
Qed.

Lemma inv_shake s fd a wt tt r w x out : inv s → socks (srv s) !! fd = Some (Sock a (Shaking wt tt)) →
  (∀ d, r = ReadData d → (a, d) ∈ up s) → handshakeRoutine es r w wt tt = Ok (x, out) →
  inv (add_down a out (set_srv (set_sock fd a x (srv s)) s)).
Proof.
  intros Hi Hfd Hr Hx. pose proof (i_tries s Hi fd a wt tt Hfd) as Ht.
  apply handshake_cases in Hx as [[-> ->]|[[-> ->]|[(wt' & tt' & -> & ? & ->)|(-> & -> & ->)]]]; [..|eauto using i_up_bytes|lia].
  1-3: apply inv_reply; [|by auto]; eapply inv_set; [done|done|..]; try done; intros ?? [= -> ->]; lia.
  apply inv_down; [|apply all_bytes|].
  - eapply inv_set; try done. intros _. by apply Hr.
  - intros _. right. exists fd. simpl. rewrite list_lookup_insert_eq; [done|]. by eapply lookup_lt_Some.
Qed.

Lemma shake_inv_step s s' : step s s' → inv s → inv s'.
Proof.
  intros Hs Hi. destruct Hs as [s a ok w now ph out Hst ? Hc|s a T r w now ph out Hc Hr ?|s a T r w now ph out Hc Hr ?
    |s a d Hc Hb Hl|s a Hc|s a d Hst Hb|s a d bound w srv' out Hd Hacc|s bound w srv' out Hacc
    |s fd a wt tt r w x out Hfd Hr Hx|s fd a Hfd|s fd a p d wret x out Hfd Hd Hx|s fd a p d Hfd Hb Hl|s fd a p Hfd].
  - by eapply inv_connect.
  - by eapply inv_poll1.
  - by eapply inv_poll2.
  - apply inv_up; [done|by constructor|]. intros _ E%list_elem_of_singleton. by apply (not_msg d CORPC_MSG_TYPE_UDP_HANDSHAKE_3) in Hl.
  - apply inv_client; [done|eapply client_not_stranger; [done|congruence]|..]; try done. intros b _. by eapply (i_connected s Hi).
  - apply inv_up; [done|by constructor|congruence].
  - by eapply inv_accept.
  - simpl in Hacc. rewrite shakemsg_ok in Hacc. simplify_eq/=. apply inv_reply; [by destruct s|by right; left].
  - by eapply inv_shake.
  - eapply (inv_set (add_built a s)); try done.
    + apply inv_add_built; [done|]. right. eauto.
    + intros p _. simpl. apply elem_of_app. right. by left.
    + intros _. right. simpl. apply elem_of_app. right. by left.
  - pose proof (i_built s Hi fd a p Hfd) as Hb. apply receive_cases in Hx as [Hx Hout]; [|by eapply (i_up_bytes s Hi)].
    apply inv_down.
    + eapply inv_put; try done; destruct Hx as [[p' ->]| ->]; by auto.
    + destruct Hout as [->|[-> _]]; [constructor|apply all_bytes].
    + intros _. by left.
  - apply inv_down; [done|by constructor|]. intros E%list_elem_of_singleton. by apply (not_msg d CORPC_MSG_TYPE_UDP_HANDSHAKE_4) in Hl.
  - by eapply inv_put.
Qed.

Lemma shake_inv_init : inv init.
Proof.
  constructor; simpl; try done; try (by intros ?? ?%elem_of_nil); try (by intros ? ?%elem_of_nil).
  - intros a. rewrite lookup_empty. split; [by intros []|by intros (fd & x & ? & _)].
  - intros a [?%elem_of_nil|(fd & ?)]; done.
Qed.

Lemma shake_inv_reach s : reach s → inv s.
Proof. intros Hr. eapply (rtc_ind_r inv init); eauto using shake_inv_init, shake_inv_step. Qed.

(** ** Theorems *)

(** C31 (handshake_agreed).  However the network loses, repeats and reorders the
    datagrams and whatever others send: when [UdpClient::connect] has returned
    [true], the server has called [buildAndAddConnection] for this client or
    is about to, with nothing in between that can fail; and when the server has
    built a connection for a client of the library, the client had sent
    handshake 1, the server handshake 2, and the client handshake 3. *)
Theorem handshake_agreed s a : reach s → stranger a = false →
  (∀ b, clients s a = Connected b → agreed s a) ∧
  (agreed s a → (a, msg1) ∈ up s ∧ (a, msg2) ∈ down s ∧ (a, msg3) ∈ up s).
Proof.
  intros Hi%shake_inv_reach Hs. split; [apply (i_connected s Hi)|]. intros H3%(i_msg3 s Hi).
  destruct (i_order s Hi a Hs H3). done.
Qed.

(** Whatever datagrams arrive, from clients or from
    strangers: [shakingClient_] has exactly the addresses of the clients whose
    handshake routine is running, every client has at most one, and neither
    the acceptor nor a handshake routine nor a client faults on a datagram. *)
Theorem handshake_exclusive s : reach s →
  (∀ a, is_Some (shakingClient_ (srv s) !! a) ↔ ∃ fd x, socks (srv s) !! fd = Some (Sock a x) ∧ running x = true) ∧
  (∀ fd1 fd2 a x y, socks (srv s) !! fd1 = Some (Sock a x) → socks (srv s) !! fd2 = Some (Sock a y) →
    running x = true → running y = true → fd1 = fd2) ∧
  (∀ a d bound w, (a, d) ∈ up s → is_ok (acceptRoutine es a (Some d) bound w (srv s))) ∧
  (∀ a d w wt tt, (a, d) ∈ up s → is_ok (handshakeRoutine (Conn:=Conn) (Task:=Task) es (ReadData d) w wt tt)) ∧
  (∀ a d w now T, (a, d) ∈ down s → is_ok (step1 ec (PollRead (Some d)) w now T) ∧ is_ok (step2 ec (PollRead (Some d)) w now T)).
Proof.
  intros Hi%shake_inv_reach. split; [apply (i_shaking s Hi)|]. split; [eapply (i_unique s Hi)|].
  assert (∀ w wt tt, is_ok (loop_head (Conn:=Conn) (Task:=Task) es w wt tt)) as Hh.
  { intros w wt tt. unfold loop_head, is_ok. routine. }
  split_and!.
  - intros a d bound w Hd%(i_up_bytes s Hi). unfold acceptRoutine, is_ok. destruct (shakingClient_ (srv s) !! a); routine.
    destruct (Hh w 1000 4) as [[x out] ->]. simpl. eauto.
  - intros a d w wt tt Hd%(i_up_bytes s Hi). unfold handshakeRoutine, is_ok. routine. apply Hh.
  - intros a d w now T Hd%(i_down_bytes s Hi). unfold step1, step2, send1, send3, is_ok. split; routine.
Qed.

(** *** The sockets of the server *)
Definition live (x : sstate Conn Task) : bool := match x with Shaking _ _ | Building | Built _ => true | _ => false end.

(** A step leaves the sockets as they are, changes one that somebody uses, or
    makes a new one. *)
Lemma step_socks s s' : inv s → step s s' → socks (srv s') = socks (srv s) ∨
  (∃ fd a x x', socks (srv s) !! fd = Some (Sock a x) ∧ live x = true ∧ socks (srv s') = <[fd := Sock a x']> (socks (srv s))) ∨
  (∃ a x, socks (srv s') = socks (srv s) ++ [Sock a x]).
Proof.
  intros Hi. destruct 1 as [| | | | | |s a d bound w srv' out Hd Hacc|s bound w srv' out Hacc| | | | |]; simpl; eauto 10.
  - apply accept_cases in Hacc as [[-> _]|(_ & _ & x & -> & _)]; [by left|eauto|by eapply (i_up_bytes s Hi)].
  - simpl in Hacc. inv_bind. simplify_eq. by left.
Qed.

Lemma leaked_step s s' fd a : inv s → step s s' → socks (srv s) !! fd = Some (Sock a Leaked) →
  socks (srv s') !! fd = Some (Sock a Leaked).
Proof.
  intros Hi Hs Hfd. destruct (step_socks s s' Hi Hs) as [->|[(fd' & b & x & x' & Hfd' & Hl & ->)|(b & x & ->)]]; [done| |].
  - rewrite list_lookup_insert_ne; [done|]. intros ->. rewrite Hfd in Hfd'. by injection Hfd' as <- <-.
  - by apply lookup_app_l_Some.
Qed.

(** One time-out of a handshake routine, after which it writes again. *)
Lemma shake_timeout s fd a wt tt : socks (srv s) !! fd = Some (Sock a (Shaking wt tt)) →
  ∃ s', step s s' ∧
    socks (srv s') !! fd = Some (Sock a (if bool_decide (tt - 1 > 0) then Shaking (Z.shiftl wt 1) (tt - 1) else Leaked)).
Proof.
  intros Hfd. eexists. split.
  { eapply (step_shake s fd a wt tt ReadAgain true); [done|done|]. unfold handshakeRoutine, loop_head.
    rewrite shakemsg_ok. cbn [mbind outcome_bind].
    instantiate (1 := if bool_decide (tt - 1 > 0) then [msg2] else []).
    instantiate (1 := if bool_decide (tt - 1 > 0) then Shaking (Z.shiftl wt 1) (tt - 1) else Leaked).
    by case_bool_decide. }
  simpl. apply list_lookup_insert_eq. by eapply lookup_lt_Some.
Qed.

(** The socket of a handshake that has just begun is
    leaked when the client does not answer: after four time-outs the routine
    ends without closing it, no connection has it, and in every continuation it
    stays open and out of use. *)
Theorem shake_fd_leaked s fd a : reach s → socks (srv s) !! fd = Some (Sock a (Shaking 1000 4)) →
  ∃ s', rtc step s s' ∧ ∀ s'', rtc step s' s'' → socks (srv s'') !! fd = Some (Sock a Leaked) ∧
    fd_open (Leaked (Conn:=Conn) (Task:=Task)) = true.
Proof.
  intros Hr H0. destruct (shake_timeout s fd a _ _ H0) as (s1 & Hs1 & H1). destruct (shake_timeout s1 fd a _ _ H1) as (s2 & Hs2 & H2).
  destruct (shake_timeout s2 fd a _ _ H2) as (s3 & Hs3 & H3). destruct (shake_timeout s3 fd a _ _ H3) as (s4 & Hs4 & H4).
  assert (rtc step s s4) as Hrun by eauto using rtc_l, rtc_refl. exists s4. split; [done|].
  intros s'' Hs''. split; [|done]. assert (reach s4) as Hr4 by (unfold reach in *; by etrans). clear -Hs'' H4 Hr4.
  induction Hs'' as [|x y z Hxy Hyz IH]; [done|]. apply IH; [|by eapply rtc_r].
  eapply leaked_step; eauto using shake_inv_reach.
Qed.

(** *** Progress *)
Definition can_connect s a : Prop := ∃ s', rtc step s s' ∧ clients s' a = Connected true.
Lemma then_connects s s1 a : step s s1 → can_connect s1 a → can_connect s a.
Proof. intros Hs (s' & Hr & Hc). exists s'. split; [by eapply rtc_l|done]. Qed.
Lemma step2_msg4 s a T : clients s a = Step2 T → (a, msg4) ∈ down s → can_connect s a.
Proof.
  intros Hc H4. eexists. split.
  - apply rtc_once. eapply (step_poll2 s a T (PollRead (Some msg4)) true 0); [done|by intros ? [= <-]|].
    unfold step2. rewrite bool_decide_false by (vm_compute; tauto). by rewrite get_msg4.
  - simpl. by rewrite fn_lookup_insert.
Qed.

Lemma connects_built s fd a p T : inv s → clients s a = Step2 T → socks (srv s) !! fd = Some (Sock a (Built p)) →
  can_connect s a.
Proof.
  intros Hi Hc Hfd. pose proof (i_step2 s Hi a T Hc) as H3.
  assert (∃ x, receive es decodeFun_ headSize msg3 4 p = Ok (x, [msg4])) as [x Hx].
  { unfold receive. change (zlen msg3) with 4. unfold msg3.
    rewrite (UdpPipeline.udp_upflow_handshake_reply es headSize decodeFun_). rewrite bool_decide_true by (vm_compute; congruence).
    cbn [mbind outcome_bind UdpPipeline.written]. rewrite drop_app_length. eauto. }
  pose proof (step_receive s fd a p msg3 4 x [msg4] Hfd H3 Hx) as Hs.
  eapply then_connects; [exact Hs|]. apply (step2_msg4 _ a T); [done|]. simpl. apply elem_of_app. right. by left.
Qed.

Lemma connects_building s fd a T : inv s → clients s a = Step2 T → socks (srv s) !! fd = Some (Sock a Building) →
  can_connect s a.
Proof.
  intros Hi Hc Hfd. pose proof (step_build s fd a Hfd) as Hs.
  eapply then_connects; [exact Hs|]. eapply (connects_built _ fd a _ T (shake_inv_step _ _ Hs Hi)); [done|].
  simpl. apply list_lookup_insert_eq. by eapply lookup_lt_Some.
Qed.

Lemma connects_shaking s fd a wt tt T : inv s → clients s a = Step2 T → socks (srv s) !! fd = Some (Sock a (Shaking wt tt)) →
  can_connect s a.
Proof.
  intros Hi Hc Hfd. pose proof (i_step2 s Hi a T Hc) as H3.
  assert (handshakeRoutine (Conn:=Conn) (Task:=Task) es (ReadData msg3) true wt tt = Ok (Building, [msg4])) as Hx.
  { unfold handshakeRoutine. rewrite bool_decide_false by (vm_compute; tauto).
    by rewrite get_msg3, shakemsg_ok. }
  pose proof (step_shake s fd a wt tt (ReadData msg3) true _ _ Hfd ltac:(by intros ? [= <-]) Hx) as Hs.
  eapply then_connects; [exact Hs|]. apply (connects_building _ fd a T (shake_inv_step _ _ Hs Hi)); [done|].
  simpl. apply list_lookup_insert_eq. by eapply lookup_lt_Some.
Qed.

Lemma connects_live s fd a x T : inv s → clients s a = Step2 T → socks (srv s) !! fd = Some (Sock a x) → live x = true →
  can_connect s a.
Proof. destruct x; intros; eauto using connects_shaking, connects_building, connects_built; done. Qed.

(** The client takes handshake 2. *)
Lemma step1_msg2 s a T : clients s a = Step1 T → (a, msg2) ∈ down s →
  step s (add_up a [msg3] (set_client a (Step2 (u64 100)) s)).
Proof.
  intros Hc H2. eapply (step_poll1 s a T (PollRead (Some msg2)) true 0); [done|by intros ? [= <-]|].
  unfold step1. rewrite bool_decide_false by (vm_compute; tauto). rewrite get_msg2.
  cbn [mbind outcome_bind]. rewrite bool_decide_false by (vm_compute; tauto). unfold send3. by rewrite shakemsg_ok.
Qed.


(** *** A client that waits in vain *)

(** The server has neither a routine nor a connection for the client, and
    handshake 4 was never sent to it. *)
Definition abandoned s a : Prop :=
  (∀ fd x, socks (srv s) !! fd = Some (Sock a x) → live x = false) ∧ (a, msg4) ∉ down s ∧ ∀ b, clients s a ≠ Connected b.

(** A step in which no new handshake with the client begins. *)
Definition quiet a s s' : Prop :=
  step s s' ∧ ∀ fd x, socks (srv s') !! fd = Some (Sock a x) → (fd < length (socks (srv s)))%nat.

Lemma abandoned_socks s s' a : inv s → quiet a s s' → abandoned s a →
  ∀ fd x, socks (srv s') !! fd = Some (Sock a x) → live x = false.
Proof.
  intros Hi [Hs Hq] [Hno _] fd x Hx. destruct (step_socks s s' Hi Hs) as [E|[(fd' & b & y & y' & Hy & Hl & E)|(b & y & E)]].
  - rewrite E in Hx. eauto.
  - rewrite E, list_lookup_insert_Some in Hx. destruct Hx as [(-> & [= -> ->] & _)|[_ ?]]; [|eauto].
    by rewrite (Hno _ _ Hy) in Hl.
  - pose proof (Hq fd x Hx). rewrite E, lookup_app_l in Hx by done. eauto.
Qed.

(** Handshake 4 comes from a socket that is in use. *)
Lemma msg4_step s s' a : inv s → step s s' → (∀ fd x, socks (srv s) !! fd = Some (Sock a x) → live x = false) →
  (a, msg4) ∈ down s' → (a, msg4) ∈ down s.
Proof.
  intros Hi Hs Hno.
  destruct Hs as [| | | | | |s b d bound w srv' out Hd Hacc|s bound w srv' out Hacc|s fd b wt tt r w x out Hfd| |s fd b p d wret x out Hfd
    |s fd b p d Hfd Hb Hl|]; cbn [down add_down add_up set_client set_srv add_built]; try done; rewrite elem_of_app, elem_with_addr; intros [?|[-> H4]]; try done; exfalso.
  - apply accept_cases in Hacc as [[_ Hout]|(_ & _ & x & _ & Hx)]; [| |by eapply (i_up_bytes s Hi)].
    + destruct Hout as [->|[->|[-> _]]]; [by apply elem_of_nil in H4|revert H4; not_msg..].
    + destruct Hx as [[_ ->]|[_ ->]]; [by apply elem_of_nil in H4|revert H4; not_msg].
  - simpl in Hacc. rewrite shakemsg_ok in Hacc. simplify_eq/=. revert H4. not_msg.
  - by apply Hno in Hfd.
  - by apply Hno in Hfd.
  - by apply Hno in Hfd.
Qed.

Lemma abandoned_step s s' a : inv s → quiet a s s' → abandoned s a → abandoned s' a.
Proof.
  intros Hi Hq Ha. split; [by eapply abandoned_socks|]. destruct Hq as [Hs _], Ha as (Hno & H4 & Hc).
  split; [intros ?; by apply H4, (msg4_step s s' a)|].
  destruct Hs as [s b ok w now ph out Hst Hid Hph|s b T r w now ph out Hb Hr Hph|s b T r w now ph out Hb Hr Hph
    |s b d Hb ? Hl|s b Hb|s b d Hst ?| | | | | | |]; simpl; try done; intros y.
  all: destruct (decide (a = b)) as [<-|]; [rewrite fn_lookup_insert; intros E|by rewrite fn_lookup_insert_ne].
  - apply connect_cases in Hph as [[E' _]|[[? _]|(? & ? & _)]]; [|congruence..|done]. rewrite E in E'. by apply (Hc y).
  - apply step1_cases in Hph as [[? _]|[(? & ? & _)|(? & ? & _)]]; [congruence..|eauto using i_down_bytes].
  - apply step2_cases in Hph as [[? _]|[(? & ? & _)|(_ & _ & ->)]]; [congruence..|by apply H4, Hr|eauto using i_down_bytes].
  - by apply Hc in Hb.
Qed.

(** When the handshake routine of the server has given
    up and handshake 4 was never sent, [UdpClient::connect] never returns [true]
    as long as the acceptor takes no handshake 1 from this client, however often
    the client sends handshake 3 and the listening socket answers it. *)
Theorem handshake_stuck s s' a : reach s → abandoned s a → rtc (quiet a) s s' → ∀ b, clients s' a ≠ Connected b.
Proof.
  intros Hi%shake_inv_reach Ha Hr. induction Hr as [s|s s1 s2 Hq _ IH]; [apply Ha|].
  apply IH; [|by eapply abandoned_step]. destruct Hq. eauto using shake_inv_step.
Qed.
End system.
Arguments t : clear implicits.

(** ** Runs of one client *)
Module HandshakeExample.
Definition A : sockaddr_in := Addr 1 1000.
Definition stranger (a : sockaddr_in) : bool := bool_decide (a = Addr 9 9).
Abbreviation state := (t bool bytes).
Abbreviation step' := (step LittleEndian LittleEndian TcpPipeline.Echo.decode 22 540 false stranger).
Abbreviation reach' := (reach LittleEndian LittleEndian TcpPipeline.Echo.decode 22 540 false stranger).

(** Handshake 1; handshake 2; handshake 3; handshake 4; the connection; the
    client has got handshake 4. *)
Definition s1 : state := add_up A [msg1] (set_client A (Step1 1000) init).
Definition s2 : state := add_down A [msg2] (set_srv (new_sock A (Shaking 1000 4) (srv s1)) s1).
Definition s3 : state := add_up A [msg3] (set_client A (Step2 100) s2).
Definition s4 : state := add_down A [msg4] (set_srv (set_sock 0 A Building (srv s3)) s3).
Definition s5 : state := set_srv (set_sock 0 A (Built (newPipeline 22 540 false)) (srv s4)) (add_built A s4).
Definition s6 : state := add_up A [] (set_client A (Connected true) s5).

Lemma step_s1 : step' init s1.
Proof. by eapply (step_connect _ _ _ _ _ _ _ init A true true 0). Qed.
Lemma step_s2 : step' s1 s2.
Proof. eapply (step_accept _ _ _ _ _ _ _ s1 A msg1 true true); [by left|reflexivity]. Qed.
Lemma step_s3 : step' s2 s3.
Proof. eapply (step_poll1 _ _ _ _ _ _ _ s2 A 1000 (PollRead (Some msg2)) true 0); [done|intros ? [= <-]; by left|reflexivity]. Qed.
Lemma step_s4 : step' s3 s4.
Proof. eapply (step_shake _ _ _ _ _ _ _ s3 0 A 1000 4 (ReadData msg3) true); [done|intros ? [= <-]; right; by left|reflexivity]. Qed.
Lemma step_s5 : step' s4 s5.
Proof. by eapply (step_build _ _ _ _ _ _ _ s4 0 A). Qed.
Lemma step_s6 : step' s5 s6.
Proof. eapply (step_poll2 _ _ _ _ _ _ _ s5 A 100 (PollRead (Some msg4)) true 0); [done|intros ? [= <-]; right; by left|reflexivity]. Qed.

Lemma shake_reach_s2 : reach' s2.
Proof. eapply rtc_l; [apply step_s1|]. apply rtc_once, step_s2. Qed.
Lemma shake_reach_s3 : reach' s3.
Proof. eapply rtc_r; [apply shake_reach_s2|apply step_s3]. Qed.
Lemma shake_reach_s5 : reach' s5.
Proof. eapply rtc_r; [|apply step_s5]. eapply rtc_r; [apply shake_reach_s3|apply step_s4]. Qed.
Lemma shake_reach_s6 : reach' s6.
Proof. eapply rtc_r; [apply shake_reach_s5|apply step_s6]. Qed.

Lemma handshake_agreed_witness : agreed s6 A ∧ (A, msg1) ∈ up s6 ∧ (A, msg3) ∈ up s6.
Proof.
  destruct (handshake_agreed _ _ _ _ _ _ _ s6 A shake_reach_s6 eq_refl) as [Hc Ho].
  pose proof (Hc true eq_refl) as Ha. destruct (Ho Ha) as (? & ? & ?). auto.
Defined.

Lemma handshake_exclusive_witness : is_ok (acceptRoutine (Conn:=bool) (Task:=bytes) LittleEndian A (Some msg3) true true (srv s3)).
Proof.
  destruct (handshake_exclusive _ _ _ _ _ _ _ s3 shake_reach_s3) as (_ & _ & Hacc & _). apply (Hacc A). right. by left.
Defined.

Lemma shake_fd_leaked_witness : ∃ s', rtc step' s2 s' ∧ socks (srv s') !! 0%nat = Some (Sock A Leaked).
Proof.
  destruct (shake_fd_leaked _ _ _ _ _ _ _ s2 0 A shake_reach_s2 eq_refl) as (s' & Hr & Hl).
  exists s'. split; [exact Hr|]. apply (Hl s' (rtc_refl _ s')).
Defined.


(** From [s3]: four time-outs of the routine, then the client sends handshake 3
    again and the listening socket answers. *)
Definition again (wt tt : Z) (s : state) : state := add_down A [msg2] (set_srv (set_sock 0 A (Shaking wt tt) (srv s)) s).
Definition g1 : state := again 2000 3 s3.
Definition g2 : state := again 4000 2 g1.
Definition g3 : state := again 8000 1 g2.
Definition g4 : state := add_down A [] (set_srv (set_sock 0 A Leaked (srv g3)) g3).
Definition g5 : state := add_up A [msg3] (set_client A (Step2 300) g4).
Definition g6 : state := add_down A [msg2] (set_srv (srv g5) g5).

Lemma timeout_step s wt tt x out : socks (srv s) !! 0%nat = Some (Sock A (Shaking wt tt)) →
  handshakeRoutine LittleEndian ReadAgain true wt tt = Ok (x, out) →
  step' s (add_down A out (set_srv (set_sock 0 A x (srv s)) s)).
Proof. intros Hfd Hx. by eapply (step_shake _ _ _ _ _ _ _ s 0 A wt tt ReadAgain true). Qed.
Lemma reach_g4 : reach' g4.
Proof.
  eapply rtc_r; [|by apply (timeout_step g3 8000 1)]. eapply rtc_r; [|by apply (timeout_step g2 4000 2)].
  eapply rtc_r; [|by apply (timeout_step g1 2000 3)]. eapply rtc_r; [|by apply (timeout_step s3 1000 4)]. apply shake_reach_s3.
Qed.
Lemma abandoned_g4 : abandoned g4 A.
Proof.
  split; [|split].
  - intros [|fd] x E; [by injection E as <-|done].
  - by apply (bool_decide_unpack _).
  - intros b E. vm_compute in E. discriminate.
Qed.

Lemma handshake_stuck_witness : abandoned g4 A ∧ clients g6 A ≠ Connected true.
Proof.
  split; [exact abandoned_g4|].
  refine (handshake_stuck LittleEndian LittleEndian TcpPipeline.Echo.decode 22 540 false stranger g4 g6 A reach_g4 abandoned_g4 _ true).
  eapply rtc_l; [|apply rtc_once].
  - instantiate (1 := g5). split.
    + eapply (step_poll2 _ _ _ _ _ _ _ g4 A 100 PollTimeout true 200); [reflexivity|intros ?; discriminate|reflexivity].
    + intros fd x ?%lookup_lt_Some. exact H.
  - split.
    + eapply (step_accept _ _ _ _ _ _ _ g5 A msg3 true true); [right; left|reflexivity].
    + intros fd x ?%lookup_lt_Some. exact H.
Defined.

(** From [s5], where the client has not got handshake 4 yet: handshake 1 comes
    again, and handshake 3. *)
Definition d1 : state := add_down A [msg2] (set_srv (new_sock A (Shaking 1000 4) (srv s5)) s5).
Definition d2 : state := add_down A [msg4] (set_srv (set_sock 1 A Building (srv d1)) d1).
Definition d3 : state := set_srv (set_sock 1 A (Built (newPipeline 22 540 false)) (srv d2)) (add_built A d2).

(** A client that calls [UdpClient::connect] once can
    get two connections on the server: when a handshake 1 that was repeated by
    the network or by the client comes after the handshake, the acceptor makes
    a second socket for the same client, and a repeated handshake 3 completes
    the second handshake. *)
Theorem handshake_twice : reach' d3 ∧ clients d3 A = Step2 100 ∧ built d3 = [A; A] ∧
  (st <$> socks (srv d3)) = [Built (newPipeline 22 540 false); Built (newPipeline 22 540 false)].
Proof.
  split; [|split_and!; reflexivity]. eapply rtc_r; [eapply rtc_r; [eapply rtc_r; [apply shake_reach_s5|]|]|].
  - eapply (step_accept _ _ _ _ _ _ _ s5 A msg1 true true); [by left|reflexivity].
  - eapply (step_shake _ _ _ _ _ _ _ d1 1 A 1000 4 (ReadData msg3) true); [done|intros ? [= <-]; right; by left|reflexivity].
  - by eapply (step_build _ _ _ _ _ _ _ d2 1 A).
Qed.
End HandshakeExample.
End Handshake.
