(* ===== verification/Kcp.v ===== *)
(** * corpc_kcp.cpp: message connections over KCP

    KCP (the vendored kcp/ikcp.c) turns a datagram socket into an ordered and
    reliable sequence of packets.  It is used here by its contract: [KcpOps] has
    the calls the connection makes and [KcpLaws] what they do to the packets
    that were sent, that were received, and that wait to be received.

    [KcpMessageTerminal::Connection::write] cuts the bytes of the sending
    pipeline into packets; [KcpPipeline::upflow] puts a datagram into KCP and
    parses the packets that come out as [TcpPipeline::upflow] parses the reads of
    a stream.  The theorem is that the frames that were written are the frames
    that are decoded. *)
From S2P Require Import Prelude Define Pipeline.
Open Scope Z_scope.

(** The calls of ikcp.h: a datagram comes in; the next packet, if it fits into
    [len] bytes ([inl] is a negative result); a packet goes out; and
    [ikcp_flush].  [nrcv] is [nrcv_que + nrcv_buf], which bounds the packets
    that can be received. *)
Class KcpOps (KCP : Type) : Type := {
  ikcp_input : KCP → bytes → KCP * Z;
  ikcp_recv : KCP → Z → KCP * (Z + bytes);
  ikcp_send : KCP → bytes → KCP * Z;
  ikcp_flush : KCP → KCP;
  nrcv : KCP → nat;
}.

(** What they promise: [sent] are the packets accepted by [ikcp_send], [recvd]
    those returned by [ikcp_recv], [ready] those that are complete and wait. *)
Class KcpLaws (KCP : Type) `{KcpOps KCP} : Type := {
  sent : KCP → list bytes;
  recvd : KCP → list bytes;
  ready : KCP → list bytes;
  ready_nrcv k : (length (ready k) ≤ nrcv k)%nat;
  input_law k d : ∃ ms, ready (ikcp_input k d).1 = ready k ++ ms ∧ recvd (ikcp_input k d).1 = recvd k ∧
    sent (ikcp_input k d).1 = sent k;
  recv_law k len m ms : ready k = m :: ms → zlen m ≤ len →
    ∃ k', ikcp_recv k len = (k', inr m) ∧ ready k' = ms ∧ recvd k' = recvd k ++ [m] ∧ sent k' = sent k;
  recv_empty k len : ready k = [] →
    ∃ k' r, ikcp_recv k len = (k', inl r) ∧ ready k' = [] ∧ recvd k' = recvd k ∧ sent k' = sent k;
  send_law k m : sent (ikcp_send k m).1 = sent k ++ (if bool_decide (0 ≤ (ikcp_send k m).2) then [m] else []) ∧
    ready (ikcp_send k m).1 = ready k ∧ recvd (ikcp_send k m).1 = recvd k;
  flush_law k : sent (ikcp_flush k) = sent k ∧ ready (ikcp_flush k) = ready k ∧ recvd (ikcp_flush k) = recvd k;
}.

(** ** Sending *)
Module KcpConnection.
Section write.
Context {KCP : Type} `{KcpOps KCP}.

(** The loop of [KcpMessageTerminal::Connection::write]; the result is negative
    when [ikcp_send] refuses a packet. *)
Fixpoint write_loop (fuel : nat) (k : KCP) (buf : bytes) (nbyte sentNum leftNum : Z) : outcome (KCP * Z) :=
  match fuel with
  | O => Fault OutOfFuel
  | S fuel =>
    let pkgSize := if bool_decide (leftNum > CORPC_MAX_KCP_PACKAGE_SIZE) then CORPC_MAX_KCP_PACKAGE_SIZE else leftNum in
    pkg ← memread buf sentNum pkgSize;
    let '(k, ret) := ikcp_send k pkg in
    if bool_decide (ret < 0) then Ok (k, ret) else
    let sentNum := u32 (sentNum + pkgSize) in
    let leftNum := u32 (leftNum - pkgSize) in
    if bool_decide (leftNum > 0) then write_loop fuel k buf nbyte sentNum leftNum
    else Ok (ikcp_flush k, nbyte)
  end.
Definition write (buf : bytes) (nbyte : Z) (k : KCP) : outcome (KCP * Z) :=
  write_loop (S (Z.to_nat nbyte)) k buf nbyte 0 (u32 nbyte).
End write.

Section write_laws.
Context {KCP : Type} `{KcpLaws KCP}.

(** The packets of [write]: the bytes in order, at most
    [CORPC_MAX_KCP_PACKAGE_SIZE] each; [sentNum] when it fails is what went out
    before. *)
Lemma write_loop_ok fuel k buf nbyte sentNum leftNum :
  0 ≤ sentNum → 0 ≤ leftNum → sentNum + leftNum ≤ zlen buf → zlen buf < 2^32 → (Z.to_nat leftNum < fuel)%nat →
  ∃ k' r pkgs, write_loop fuel k buf nbyte sentNum leftNum = Ok (k', r) ∧ sent k' = sent k ++ pkgs ∧
    ready k' = ready k ∧ recvd k' = recvd k ∧ Forall (λ m, zlen m ≤ CORPC_MAX_KCP_PACKAGE_SIZE) pkgs ∧
    (r < 0 ∧ (∃ rest, concat pkgs ++ rest = slice sentNum leftNum buf) ∨ r = nbyte ∧ concat pkgs = slice sentNum leftNum buf).
Proof.
  revert k sentNum leftNum. induction fuel as [|fuel IH]; intros k sentNum leftNum Hs Hl Hbuf Hu Hf; [lia|].
  cbn [write_loop]. set (n := if bool_decide (leftNum > CORPC_MAX_KCP_PACKAGE_SIZE) then _ else leftNum).
  assert (0 ≤ n ≤ leftNum ∧ n ≤ CORPC_MAX_KCP_PACKAGE_SIZE ∧ (0 < leftNum → 0 < n)) as (Hn & Hmax & Hpos).
  { unfold n, CORPC_MAX_KCP_PACKAGE_SIZE. case_bool_decide; lia. }
  rewrite memread_ok by lia. cbn [mbind outcome_bind].
  pose proof (send_law k (slice sentNum n buf)) as (Hsent & Hready & Hrecvd).
  destruct (ikcp_send k (slice sentNum n buf)) as [k1 ret]. cbn [fst snd] in Hsent, Hready, Hrecvd.
  assert (slice sentNum leftNum buf = slice sentNum n buf ++ slice (sentNum + n) (leftNum - n) buf) as Hsl.
  { rewrite <-slice_app_ztake by lia. f_equal. lia. }
  destruct (decide (ret < 0)) as [Hr|Hr].
  { rewrite (bool_decide_true (ret < 0)) by done. rewrite (bool_decide_false (0 ≤ ret)), app_nil_r in Hsent by lia. exists k1, ret, []. split_and!; [done|by rewrite app_nil_r|done|done|constructor|]. left. split; [done|]. by eexists. }
  rewrite (bool_decide_false (ret < 0)) by done. rewrite (bool_decide_true (0 ≤ ret)) in Hsent by lia. rewrite !u32_small by lia.
  assert (zlen (slice sentNum n buf) = n) as Hzl by (by apply zlen_slice; lia).
  case_bool_decide as Hmore.
  - destruct (IH k1 (sentNum + n) (leftNum - n)) as (k' & r & pkgs & -> & Hs' & Hr' & Hv' & Hall & Hres); [lia..|].
    exists k', r, (slice sentNum n buf :: pkgs). split_and!; [done| |congruence|congruence|constructor; [lia|done]|].
    + by rewrite Hs', Hsent, <-app_assoc.
    + simpl. rewrite Hsl. destruct Hres as [(? & rest & <-)|[-> ->]]; [left|by right].
      split; [done|]. exists rest. by rewrite app_assoc.
  - destruct (flush_law k1) as (Hfs & Hfr & Hfv). exists (ikcp_flush k1), nbyte, [slice sentNum n buf].
    split_and!; [done|congruence|congruence|congruence|constructor; [lia|constructor]|]. right. split; [done|].
    rewrite Hsl. simpl. replace (leftNum - n) with 0 by lia. by rewrite slice_0, !app_nil_r.
Qed.

(** Buffers written one after the other, as [Sender::connectionRoutine] does;
    the result is [false] when a write has failed. *)
Fixpoint writes (k : KCP) (bufs : list bytes) : outcome (KCP * bool) :=
  match bufs with
  | [] => Ok (k, true)
  | buf :: bufs =>
    '(k, r) ← write buf (zlen buf) k;
    if bool_decide (r < 0) then Ok (k, false) else writes k bufs
  end.

Lemma writes_ok k bufs : Forall (λ b, zlen b < 2^32) bufs →
  ∃ k' ok pkgs, writes k bufs = Ok (k', ok) ∧ sent k' = sent k ++ pkgs ∧
    Forall (λ m, zlen m ≤ CORPC_MAX_KCP_PACKAGE_SIZE) pkgs ∧ (ok = true → concat pkgs = concat bufs).
Proof.
  intros Hb. revert k. induction Hb as [|b bufs Hb Hbs IH]; intros k.
  { exists k, true, []. by rewrite app_nil_r. }
  pose proof (zlen_nonneg b). cbn [writes]. unfold write. rewrite u32_small by lia.
  destruct (write_loop_ok (S (Z.to_nat (zlen b))) k b (zlen b) 0 (zlen b)) as (k1 & r & pk & -> & Hs & _ & _ & Hall & Hres); [lia..|].
  cbn [mbind outcome_bind]. case_bool_decide as Hr.
  - exists k1, false, pk. done.
  - destruct (IH k1) as (k2 & ok & pk2 & -> & Hs2 & Hall2 & Hc2). exists k2, ok, (pk ++ pk2). split; [done|].
    split; [by rewrite Hs2, Hs, app_assoc|]. split; [by apply Forall_app|]. intros Hok. rewrite concat_app. simpl.
    destruct Hres as [[? _]|[_ ->]]; [lia|]. rewrite slice_all. f_equal. auto.
Qed.
End write_laws.
End KcpConnection.

(** ** Receiving *)
Module KcpPipeline.
Section kcp.
Context {Conn Task KCP : Type} `{KcpOps KCP} (e : endian).
Context (headSize_ maxBodySize_ bodySizeOffset_ : Z) (bodySizeType_ : SIZE_TYPE).
Context (decodeFun_ : decode_fun Conn Task) `{!Decoder headSize_ decodeFun_}.

(** The members of the pipeline are those of [TcpPipeline]; KCP belongs to the
    connection; [written] are the datagrams written directly to the socket. *)
Record t : Type := Make { pipe : TcpPipeline.t Conn Task; pkcp_ : KCP; written : list bytes }.
Definition init (c : Conn) (k : KCP) : t := Make (TcpPipeline.init headSize_ maxBodySize_ c) k [].

(** The bytes of one packet: [while (dataSize > offset)] is, statement for
    statement, the loop of [TcpPipeline::upflow]. *)
Abbreviation parse := (TcpPipeline.upflow e headSize_ maxBodySize_ bodySizeOffset_ bodySizeType_ decodeFun_).

(** [while (true)]: the packets that are ready. *)
Fixpoint recv_loop (fuel : nat) (k : KCP) (p : TcpPipeline.t Conn Task) : outcome (KCP * TcpPipeline.t Conn Task * bool) :=
  match fuel with
  | O => Fault OutOfFuel
  | S fuel =>
    match ikcp_recv k CORPC_MAX_KCP_PACKAGE_SIZE with
    | (k, inl _) => Ok (k, p, true)
    | (k, inr data) =>
      '(p, ok) ← parse data (zlen data) p;
      if ok : bool then recv_loop fuel k p else Ok (k, p, false)
    end
  end.

(** The datagrams of the handshake, as in [UdpPipeline::upflow]. *)
Definition upflow_handshake (buf : bytes) (wret : Z) (s : t) : outcome (t * bool) :=
  x ← get_be32 e buf 0;
  if bool_decide (i32 x = CORPC_MSG_TYPE_UDP_HANDSHAKE_3) then
    shakemsg4buf ← put_be32 e (zeros CORPC_UDP_HANDSHAKE_SIZE) 0 CORPC_MSG_TYPE_UDP_HANDSHAKE_4;
    Ok (Make (pipe s) (pkcp_ s) (written s ++ [shakemsg4buf]), bool_decide (wret = CORPC_UDP_HANDSHAKE_SIZE))
  else Ok (s, true).

(** [KcpPipeline::upflow]; [wret] is what [::write] returns for handshake 4. *)
Definition upflow (buf : bytes) (size wret : Z) (s : t) : outcome (t * bool) :=
  if bool_decide (size = CORPC_UDP_HANDSHAKE_SIZE) then upflow_handshake buf wret s else
  let k := (ikcp_input (pkcp_ s) (ztake size buf)).1 in
  '(k, p, ok) ← recv_loop (S (nrcv k)) k (pipe s);
  if ok : bool then Ok (Make p (ikcp_flush k) (written s), true) else Ok (Make p k (written s), false).

(** [Receiver::connectionRoutine]: datagrams until [upflow] fails. *)
Fixpoint feed (s : t) (datagrams : list (bytes * Z)) : outcome (t * bool) :=
  match datagrams with
  | [] => Ok (s, true)
  | (d, wret) :: datagrams =>
    '(s, ok) ← upflow d (zlen d) wret s;
    if ok : bool then feed s datagrams else Ok (s, false)
  end.
End kcp.
Arguments t : clear implicits.

Section refine.
Context {Conn Task KCP : Type} `{KcpLaws KCP} (e : endian).
Context (headSize_ maxBodySize_ bodySizeOffset_ : Z) (bodySizeType_ : SIZE_TYPE).
Context (decodeFun_ : decode_fun Conn Task) `{!Decoder headSize_ decodeFun_}.
Abbreviation tcp_feed := (TcpPipeline.feed e headSize_ maxBodySize_ bodySizeOffset_ bodySizeType_ decodeFun_).
Abbreviation kcp_feed := (feed e headSize_ maxBodySize_ bodySizeOffset_ bodySizeType_ decodeFun_).
Implicit Types (s : t Conn Task KCP).

(** The packets that come out of KCP in the course of the calls, from [k] to
    [k']. *)
Definition came (k k' : KCP) (ms : list bytes) : Prop := recvd k' = recvd k ++ ms ∧ sent k' = sent k.

Lemma came_trans k1 k2 k3 ms1 ms2 : came k1 k2 ms1 → came k2 k3 ms2 → came k1 k3 (ms1 ++ ms2).
Proof. intros [H1 S1] [H2 S2]. split; [by rewrite H2, H1, app_assoc|congruence]. Qed.

Lemma recv_loop_ok fuel k p : (length (ready k) < fuel)%nat → Forall (λ m, zlen m ≤ CORPC_MAX_KCP_PACKAGE_SIZE) (ready k) →
  ∃ k' ms, came k k' ms ∧ recvd k ++ ready k = recvd k' ++ ready k' ∧
    match recv_loop e headSize_ maxBodySize_ bodySizeOffset_ bodySizeType_ decodeFun_ fuel k p with
    | Ok (k2, p', ok) => k2 = k' ∧ tcp_feed p ms = Ok (p', ok) ∧ (ok = true → ready k' = [])
    | Fault f => tcp_feed p ms = Fault f
    end.
Proof.
  revert k p. induction fuel as [|fuel IH]; intros k p Hf Hall; [lia|]. cbn [recv_loop].
  destruct (ready k) as [|m ms] eqn:Hr.
  - destruct (recv_empty k CORPC_MAX_KCP_PACKAGE_SIZE Hr) as (k' & r & -> & Hr' & Hv & Hs). exists k', [].
    split; [split; [by rewrite app_nil_r|done]|]. split; [by rewrite Hr', Hv|]. done.
  - inversion_clear Hall as [|?? Hm Hms].
    destruct (recv_law k CORPC_MAX_KCP_PACKAGE_SIZE m ms Hr Hm) as (k1 & -> & Hr1 & Hv & Hs).
    assert (recvd k ++ m :: ms = recvd k1 ++ ready k1) as Htot by (by rewrite Hr1, Hv, <-app_assoc).
    assert (came k k1 [m]) as Hc1 by done.
    destruct (TcpPipeline.upflow _ _ _ _ _ _ m (zlen m) p) as [[p1 ok]|f] eqn:E; cbn [mbind outcome_bind].
    + destruct ok.
      * destruct (IH k1 p1) as (k' & ms' & Hc & Ht & Hres); [simpl in Hf; rewrite Hr1; lia|by rewrite Hr1|].
        exists k', (m :: ms'). split; [by apply (came_trans k k1 k' [m])|]. split; [congruence|].
        cbn [TcpPipeline.feed]. rewrite E. cbn [mbind outcome_bind]. exact Hres.
      * exists k1, [m]. split; [done|]. split; [done|]. cbn [TcpPipeline.feed]. rewrite E. done.
    + exists k1, [m]. split; [done|]. split; [done|]. cbn [TcpPipeline.feed]. by rewrite E.
Qed.

(** What KCP promises about a run of the receiver: the packets that have come in
    are the first of the packets [out] that the peer has sent, whatever was
    lost, repeated or reordered. *)
Fixpoint reliable (out : list bytes) s (datagrams : list (bytes * Z)) : Prop :=
  match datagrams with
  | [] => True
  | (d, wret) :: datagrams =>
    (zlen d ≠ CORPC_UDP_HANDSHAKE_SIZE →
      let k := (ikcp_input (pkcp_ s) d).1 in (recvd k ++ ready k) `prefix_of` out) ∧
    ∀ s', upflow e headSize_ maxBodySize_ bodySizeOffset_ bodySizeType_ decodeFun_ d (zlen d) wret s = Ok (s', true) →
      reliable out s' datagrams
  end.

Lemma upflow_ok s d wret (out : list bytes) : Forall is_byte d →
  Forall (λ m, zlen m ≤ CORPC_MAX_KCP_PACKAGE_SIZE) out →
  (zlen d ≠ CORPC_UDP_HANDSHAKE_SIZE → let k := (ikcp_input (pkcp_ s) d).1 in (recvd k ++ ready k) `prefix_of` out) →
  (recvd (pkcp_ s) ++ ready (pkcp_ s)) `prefix_of` out → ready (pkcp_ s) = [] →
  ∃ ms k', came (pkcp_ s) k' ms ∧ recvd k' `prefix_of` out ∧
    match upflow e headSize_ maxBodySize_ bodySizeOffset_ bodySizeType_ decodeFun_ d (zlen d) wret s with
    | Ok (s', ok) => pkcp_ s' = k' ∧ (ok = true → ready k' = []) ∧
        ∃ ok', tcp_feed (pipe s) ms = Ok (pipe s', ok') ∧ (ok = true → ok' = true) ∧ (ok = ok' ∨ wret ≠ CORPC_UDP_HANDSHAKE_SIZE)
    | Fault f => tcp_feed (pipe s) ms = Fault f
    end.
Proof.
  intros Hb Hsmall Hrel Hpre Hr0. unfold upflow. case_bool_decide as Hd.
  { exists [], (pkcp_ s). split; [split; [by rewrite app_nil_r|done]|]. rewrite Hr0, app_nil_r in Hpre. split; [done|].
    change (zlen d = 4) in Hd. unfold upflow_handshake. rewrite get_be32_ok by (done || lia). cbn [mbind outcome_bind].
    case_bool_decide; [|by eauto 10]. rewrite put_be32_ok by (vm_compute; congruence). cbn [mbind outcome_bind].
    split; [done|]. split; [done|]. exists true. case_bool_decide; auto. }
  rewrite ztake_ge by lia. specialize (Hrel Hd). cbv zeta in Hrel.
  destruct (input_law (pkcp_ s) d) as (new & Hrin & Hvin & Hsin). set (k := (ikcp_input (pkcp_ s) d).1) in *.
  pose proof (ready_nrcv k) as Hn.
  assert (Forall (λ m, zlen m ≤ CORPC_MAX_KCP_PACKAGE_SIZE) (ready k)) as Hall.
  { destruct Hrel as [rest ->]. apply Forall_app in Hsmall as [[_ ?]%Forall_app _]. done. }
  destruct (recv_loop_ok (S (nrcv k)) k (pipe s) ltac:(lia) Hall) as (k' & ms & [Hc Hcs] & Htot & Hres).
  assert (recvd k' `prefix_of` out) as Hpre'.
  { destruct Hrel as [rest ->]. rewrite Htot, <-app_assoc. by eexists. }
  destruct (recv_loop _ _ _ _ _ _ _ _ _) as [[[k2 p'] ok]|f]; cbn [mbind outcome_bind].
  - destruct Hres as (-> & Hfeed & Hready). destruct ok.
    + destruct (flush_law k') as (Fs & Fr & Fv). exists ms, (ikcp_flush k'). split; [split; congruence|].
      rewrite Fv. split; [done|]. split; [done|]. rewrite Fr. split; [auto|]. exists true. auto.
    + exists ms, k'. split; [split; congruence|]. split; [done|]. split; [done|]. split; [done|]. exists false. auto.
  - exists ms, k'. split; [split; congruence|]. done.
Qed.

Lemma tcp_feed_app p ms1 ms2 : tcp_feed p (ms1 ++ ms2) =
  '(p', ok) ← tcp_feed p ms1; if ok : bool then tcp_feed p' ms2 else Ok (p', false).
Proof.
  revert p. induction ms1 as [|m ms1 IH]; intros p; [done|]. cbn [TcpPipeline.feed app].
  destruct (TcpPipeline.upflow _ _ _ _ _ _ _ _ _) as [[p' [|]]|f]; cbn [mbind outcome_bind]; [apply IH|done|done].
Qed.

(** The datagrams have the effect of the packets, read from a stream. *)
Lemma kcp_feed_ok out s datagrams : Forall (λ x, Forall is_byte x.1) datagrams →
  Forall (λ m, zlen m ≤ CORPC_MAX_KCP_PACKAGE_SIZE) out → reliable out s datagrams →
  recvd (pkcp_ s) `prefix_of` out → ready (pkcp_ s) = [] →
  ∃ ms, (recvd (pkcp_ s) ++ ms) `prefix_of` out ∧
    match kcp_feed s datagrams with
    | Ok (s', ok) => ∃ ok', tcp_feed (pipe s) ms = Ok (pipe s', ok') ∧ recvd (pkcp_ s') = recvd (pkcp_ s) ++ ms ∧
        (ok = true → ok' = true ∧ ready (pkcp_ s') = []) ∧ (ok = ok' ∨ Exists (λ x, x.2 ≠ CORPC_UDP_HANDSHAKE_SIZE) datagrams)
    | Fault f => tcp_feed (pipe s) ms = Fault f
    end.
Proof.
  intros Hb Hsmall. revert s. induction Hb as [|[d wret] ds Hd Hds IH]; intros s Hrel Hpre Hr.
  { exists []. rewrite app_nil_r. split; [done|]. exists true. auto. }
  destruct Hrel as [Hrel Hnext]. simpl in Hd.
  destruct (upflow_ok s d wret out Hd Hsmall Hrel) as (ms1 & k1 & [Hc _] & Hpre1 & Hup); [by rewrite Hr, app_nil_r|done|].
  cbn [feed]. destruct (upflow _ _ _ _ _ _ d (zlen d) wret s) as [[s1 ok]|f]; cbn [mbind outcome_bind].
  2: { exists ms1. rewrite <-Hc. done. }
  destruct Hup as (<- & Hr1 & ok1 & Hfeed & Hok & Hsame). destruct ok.
  - destruct (IH s1 (Hnext s1 eq_refl) Hpre1 (Hr1 eq_refl)) as (ms2 & Hpre2 & Hres).
    exists (ms1 ++ ms2). rewrite tcp_feed_app, Hfeed, (Hok eq_refl), (app_assoc (recvd _)), <-Hc. split; [done|].
    cbn [mbind outcome_bind]. destruct (kcp_feed s1 ds) as [[s2 ok2]|f]; [|done].
    destruct Hres as (ok' & ? & ? & ? & Hor). exists ok'. split_and!; try done. destruct Hor; auto.
  - exists ms1. rewrite <-Hc. split; [done|]. exists ok1. split_and!; try done.
    destruct Hsame as [?|Hw]; [by left|right]. by constructor.
Qed.

End refine.

(** ** The limits of the two ends *)
Section limits.
Context {Conn Task : Type} (e : endian) (decodeFun_ : decode_fun Conn Task) `{!Decoder CORPC_MESSAGE_HEAD_SIZE decodeFun_}.
Abbreviation parse_with n := (TcpPipeline.upflow e CORPC_MESSAGE_HEAD_SIZE n 0 FOUR_BYTES decodeFun_).

(** [KcpClient] builds its pipeline with the limit of
    datagrams, 540 bytes, [KcpMessageServer] with that of messages, 65536: the
    head of a message whose body is between the two makes the pipeline of the
    client fail, and thereby closes the connection, while the server accepts
    it. *)
Theorem kcp_client_limit c head :
  zlen head = CORPC_MESSAGE_HEAD_SIZE → Forall is_byte head →
  CORPC_MAX_UDP_MESSAGE_SIZE < be_val (slice 0 4 head) ≤ CORPC_MAX_MESSAGE_SIZE →
  (∃ p, parse_with CORPC_MAX_UDP_MESSAGE_SIZE head (zlen head)
     (TcpPipeline.init CORPC_MESSAGE_HEAD_SIZE CORPC_MAX_UDP_MESSAGE_SIZE c) = Ok (p, false)) ∧
  (∃ p, parse_with CORPC_MAX_MESSAGE_SIZE head (zlen head)
     (TcpPipeline.init CORPC_MESSAGE_HEAD_SIZE CORPC_MAX_MESSAGE_SIZE c) = Ok (p, true)).
Proof.
  intros Hl Hb Hf. unfold CORPC_MESSAGE_HEAD_SIZE, CORPC_MAX_UDP_MESSAGE_SIZE, CORPC_MAX_MESSAGE_SIZE in *.
  assert (∀ n, 540 ≤ n ≤ 65536 → TcpPipeline.config_ok 22 n 0 FOUR_BYTES) as Hcfg.
  { intros n Hn. unfold TcpPipeline.config_ok. simpl. lia. }
  assert (∀ n, 540 ≤ n ≤ 65536 → TcpPipeline.refines 22 n 0 FOUR_BYTES (TcpPipeline.init 22 n c)
    (parse_with n head (zlen head) (TcpPipeline.init 22 n c))
    (if bool_decide (be_val (slice 0 4 head) > n) then Frames.Closed c [] else Frames.Waiting c [] head)) as Hr.
  { intros n Hn.
    pose proof (TcpPipeline.upflow_refines e 22 n 0 FOUR_BYTES decodeFun_ (Hcfg n Hn) head (zlen head) Hb ltac:(lia) ltac:(lia)
      (TcpPipeline.init 22 n c) (TcpPipeline.init_wf _ _ _ _ c (Hcfg n Hn))) as Href.
    rewrite (ztake_ge (zlen head)) in Href by lia. simpl in Href.
    rewrite Frames.run_unfold in Href; [|lia|apply TcpPipeline.field_nonneg|done].
    rewrite (bool_decide_false (zlen head < 22)), (ztake_ge 22) in Href by lia. cbv zeta in Href.
    change (TcpPipeline.field 0 FOUR_BYTES head) with (be_val (slice 0 4 head)) in Href.
    case_bool_decide; [done|]. rewrite bool_decide_true in Href by lia. done. }
  split.
  - specialize (Hr 540 ltac:(lia)). rewrite bool_decide_true in Hr by lia. destruct Hr as (p & ? & _). by exists p.
  - specialize (Hr 65536 ltac:(lia)). rewrite bool_decide_false in Hr by lia. destruct Hr as (p & ? & _). by exists p.
Qed.
End limits.

(** ** An example *)
Module KcpExample.
(** A network in which every datagram is a packet and arrives at once. *)
Record ideal : Type := Ideal { i_sent : list bytes; i_recvd : list bytes; i_ready : list bytes }.
#[global] Instance ideal_ops : KcpOps ideal := {|
  ikcp_input k d := (Ideal (i_sent k) (i_recvd k) (i_ready k ++ [d]), 0);
  ikcp_recv k len :=
    match i_ready k with
    | [] => (k, inl (-1))
    | m :: ms => if bool_decide (zlen m ≤ len) then (Ideal (i_sent k) (i_recvd k ++ [m]) ms, inr m) else (k, inl (-3))
    end;
  ikcp_send k m := (Ideal (i_sent k ++ [m]) (i_recvd k) (i_ready k), 0);
  ikcp_flush k := k;
  nrcv k := length (i_ready k);
|}.
#[global] Program Instance ideal_laws : KcpLaws ideal := {| sent := i_sent; recvd := i_recvd; ready := i_ready |}.
Next Obligation. done. Qed.
Next Obligation. intros k d. by exists [d]. Qed.
Next Obligation. intros k len m ms E Hl. simpl. rewrite E, bool_decide_true by done. by eexists. Qed.
Next Obligation. intros k len E. simpl. rewrite E. by eexists _, _. Qed.
Next Obligation. intros k m. done. Qed.
Next Obligation. done. Qed.

Definition buf : bytes := [0; 3; 7; 8; 9; 0; 1; 5].
Definition after : ideal := Ideal [buf] [] [].


(** The head of a message of 1000 bytes. *)
Definition head1000 : bytes := be_bytes 4 1000 ++ zeros 18.
Lemma kcp_client_limit_witness :
  (∃ p, TcpPipeline.upflow LittleEndian 22 540 0 FOUR_BYTES TcpPipeline.Echo.decode head1000 22 (TcpPipeline.init 22 540 false) = Ok (p, false)) ∧
  (∃ p, TcpPipeline.upflow LittleEndian 22 65536 0 FOUR_BYTES TcpPipeline.Echo.decode head1000 22 (TcpPipeline.init 22 65536 false) = Ok (p, true)).
Proof.
  apply (kcp_client_limit LittleEndian TcpPipeline.Echo.decode false head1000).
  - reflexivity.
  - by apply (bool_decide_unpack _).
  - vm_compute. split; congruence.
Defined.
End KcpExample.
End KcpPipeline.
