(* ===== verification/InnerRpc.v ===== *)
(** * corpc_inner_rpc.cpp: RPC between threads of one process

    A coroutine calls a service of another thread through a queue: no bytes are
    exchanged, the service works on the objects of the call.  When the call has
    no time limit these are the caller's own request, response and controller,
    on the caller's stack, and the caller waits until the service is done.  When
    it has one the caller may return earlier, so the service works on copies,
    whose contents [resumeRoutine] gives to the caller if it still waits.

    The queue and the list of time-outs are used by their contracts (Queue.v,
    RoutineEnv.v): a queue is first in, first out; a call in the list of
    time-outs is ended by its time-out or by the first answer that finds it
    there (an answer names its call by the coroutine and the time of expiry,
    which no two calls share while the clock does not go back).  Several
    threads may serve the queue, and every service may take its time: [step] lets every request that was taken run concurrently.  The
    theorems: the service touches only objects that are alive, every call ends
    once, with the result the service has computed for its own request, and no
    call without a time limit is forgotten. *)
From S2P Require Import Prelude Define RpcWire RpcServer RoutineEnv.
Open Scope Z_scope.

Module InnerRpc.

(** Where the request of a call is: in the queue of the server, with the
    service, with [resumeRoutine] of the caller's thread (with [err]), or
    deleted. *)
Inductive place : Type := Queued | Serving | Answering (err : Z) | Deleted.

(** How [CallMethod] has returned: answered; with a time-out or an error of the
    server, which [controller] tells; or at once, when no response is wanted. *)
Inductive ending : Type := Answered | Failed | AtOnce.

(** A call: [InnerRpcRequest] with its [RpcClientTask]; the objects of the
    caller and the copies; [asked], the response as the caller gave it; [alive],
    whether the objects of the caller exist; [listed], whether the call is in the list of time-outs; [served], how often
    the service was called. *)
Record call (M : Type) : Type := Call {
  md : MethodDescriptor;
  serviceId : Z;
  request : M;
  asked : option M;
  response : option M;
  controller : option Controller.t;
  request_1 : option M;
  response_1 : option M;
  controller_1 : option Controller.t;
  done : bool;
  expireTime : Z;
  alive : bool;
  listed : bool;
  where_ : place;
  returned : option ending;
  served : nat;
}.
Arguments Call {_} _ _ _ _ _ _ _ _ _ _ _ _ _ _ _ _.
Arguments md {_} _.
Arguments serviceId {_} _.
Arguments request {_} _.
Arguments asked {_} _.
Arguments response {_} _.
Arguments controller {_} _.
Arguments request_1 {_} _.
Arguments response_1 {_} _.
Arguments controller_1 {_} _.
Arguments done {_} _.
Arguments expireTime {_} _.
Arguments alive {_} _.
Arguments listed {_} _.
Arguments where_ {_} _.
Arguments returned {_} _.
Arguments served {_} _.

Section inner.
Context {M Proto : Type} `{Message M Proto}.
Variable MergeFrom : M → M → M.
Variable strerror : Z → bytes.
Variable services_ : gmap Z (RpcServer.ServiceData M Proto).
Implicit Types (c : call M).

(** The calls made so far, and the queue of the server. *)
Record t : Type := State { calls : list (call M); queue_ : list nat }.
Implicit Types (s : t).

Definition set_place (p : place) c : call M :=
  Call (md c) (serviceId c) (request c) (asked c) (response c) (controller c) (request_1 c) (response_1 c) (controller_1 c) (done c)
    (expireTime c) (alive c) (listed c) p (returned c) (served c).
Definition set_callers (resp : option M) (ctl : option Controller.t) c : call M :=
  Call (md c) (serviceId c) (request c) (asked c) resp ctl (request_1 c) (response_1 c) (controller_1 c) (done c)
    (expireTime c) (alive c) (listed c) (where_ c) (returned c) (served c).
Definition set_copies (resp : option M) (ctl : option Controller.t) c : call M :=
  Call (md c) (serviceId c) (request c) (asked c) (response c) (controller c) (request_1 c) resp ctl (done c)
    (expireTime c) (alive c) (listed c) (where_ c) (returned c) (served c).
Definition count_served c : call M :=
  Call (md c) (serviceId c) (request c) (asked c) (response c) (controller c) (request_1 c) (response_1 c) (controller_1 c) (done c)
    (expireTime c) (alive c) (listed c) (where_ c) (returned c) (S (served c)).
(** [CallMethod] returns: its objects are gone, and the call is not in the list
    of time-outs. *)
Definition return_with (e : ending) c : call M :=
  Call (md c) (serviceId c) (request c) (asked c) (response c) (controller c) (request_1 c) (response_1 c) (controller_1 c) (done c)
    (expireTime c) false false (where_ c) (Some e) (served c).
(** [done->Run()] of a call without response deletes its request. *)
Definition run_done c : call M :=
  Call (md c) (serviceId c) (request c) (asked c) (response c) (controller c) (request_1 c) (response_1 c) (controller_1 c) (done c)
    (expireTime c) false (listed c) (where_ c) (returned c) (served c).

(** [InnerRpcChannel::CallMethod] up to [co_yield_ct], or to its end when no
    response is wanted; then the request lives until [done] is run. *)
Definition CallMethod (m : MethodDescriptor) (service_id now : Z) (ctrl : option Controller.t) (req : M)
    (resp : option M) (dn : bool) s : outcome t :=
  let care_response := negb (not_care_response m) in
  _ ← require (care_response = true ∨ dn = true);
  c ← (if care_response then
         _ ← require (resp ≠ None);
         _ ← require (ctrl ≠ None);
         if bool_decide (timeout m > 0) then
           r ← deref resp;
           Ok (Call m service_id req resp resp ctrl (Some req) (Some (New (proto_of r))) (Some Controller.Reset) dn
                 (u64 (now + timeout m)) true true Queued None 0)
         else Ok (Call m service_id req resp resp ctrl None None None dn 0 true false Queued None 0)
       else
         _ ← require (timeout m = 0);
         Ok (Call m service_id req None None ctrl None None None dn 0 true false Queued (Some AtOnce) 0));
  Ok (State (calls s ++ [c]) (queue_ s ++ [length (calls s)])).

(** [requestQueueRoutine]: one request; the service is called at once or in a
    coroutine ([requestRoutine]), in both cases on the call [i]. *)
Definition take (now : Z) s : outcome t :=
  match queue_ s with
  | [] => Ok s
  | i :: q =>
    c ← deref (calls s !! i);
    c ← (if bool_decide (expireTime c ≠ 0) && bool_decide (now >= expireTime c) then
           _ ← require (response c ≠ None);
           Ok (set_place (Answering RoutineEnvironment.ETIMEDOUT) c)
         else
           _ ← deref (RpcServer.getMethod services_ (serviceId c) (index (md c)));
           Ok (set_place Serving c));
    Ok (State (<[i := c]> (calls s)) q)
  end.

(** The objects of the caller may be used only while they exist. *)
Definition callers c : outcome unit := if alive c then Ok tt else Fault NullDeref.

(** The call of the service, on the caller's objects or on the copies. *)
Definition serve (d : MethodDescriptor) c : outcome (call M) :=
  svc ← deref (RpcServer.getService services_ (serviceId c));
  if bool_decide (expireTime c = 0) then
    _ ← callers c;
    Ok (count_served (set_callers (call_response svc d (request c) <$> response c)
                                  (call_controller svc d (request c) <$> controller c) c))
  else
    req ← deref (request_1 c);
    Ok (count_served (set_copies (call_response svc d req <$> response_1 c)
                                 (call_controller svc d req <$> controller_1 c) c)).

(** [requestQueueRoutine] and [requestRoutine] from the call of the service on;
    for a call without response the second asserts that there is a [done], the
    first tests it. *)
Definition finish (i : nat) s : outcome t :=
  c ← deref (calls s !! i);
  methodData ← deref (RpcServer.getMethod services_ (serviceId c) (index (md c)));
  c ← serve (method_descriptor methodData) c;
  c ← (match response c with
       | Some _ => Ok (set_place (Answering 0) c)
       | None =>
         _ ← (if need_coroutine (method_descriptor methodData) then require (done c = true) else Ok tt);
         if done c then _ ← callers c; Ok (set_place Deleted (run_done c)) else Ok (set_place Deleted c)
       end);
  Ok (State (<[i := c]> (calls s)) (queue_ s)).

(** [RoutineEnvironment::resumeRoutine] for the answer of the call [i]: without
    a time limit the caller is activated; with one, if the call is still in the
    list of time-outs, it gets the result. *)
Definition give_result (err : Z) c : outcome (call M) :=
  if bool_decide (err ≠ 0) then
    ctl ← deref (controller c);
    Ok (set_callers (response c) (Some (Controller.SetErrorCode (-1) (Controller.SetFailed (strerror err) ctl))) c)
  else
    let merge := r ← deref (response c); r1 ← deref (response_1 c); Ok (set_callers (Some (MergeFrom r r1)) (controller c) c) in
    match controller_1 c with
    | Some ctl1 =>
      if Controller.Failed ctl1 then
        ctl ← deref (controller c);
        Ok (set_callers (response c)
              (Some (Controller.SetErrorCode (Controller.GetErrorCode ctl1) (Controller.SetFailed (Controller.ErrorText ctl1) ctl))) c)
      else merge
    | None => merge
    end.
Definition resume (i : nat) (err : Z) s : outcome t :=
  c ← deref (calls s !! i);
  let c := set_place Deleted c in
  c ← (if bool_decide (expireTime c = 0) then _ ← callers c; Ok (return_with Answered c) else
       if listed c then _ ← callers c; c ← give_result err c; Ok (return_with (if bool_decide (err ≠ 0) then Failed else Answered) c)
       else Ok c);
  Ok (State (<[i := c]> (calls s)) (queue_ s)).

(** [RoutineEnvironment::timeoutRoutine] for the call [i]. *)
Definition time_out (i : nat) s : outcome t :=
  c ← deref (calls s !! i);
  _ ← callers c;
  ctl ← deref (controller c);
  Ok (State (<[i := return_with Failed (set_callers (response c) (Some (Controller.SetFailed (strerror RoutineEnvironment.ETIMEDOUT) ctl)) c)]>
        (calls s)) (queue_ s)).

(** Who does the next step, and what it is; [act] runs it. *)
Inductive label : Type :=
  | LCall (m : MethodDescriptor) (service_id now : Z) (ctrl : option Controller.t) (req : M) (resp : option M) (dn : bool)
  | LTake (now : Z)
  | LFinish (i : nat)
  | LResume (i : nat) (err : Z)
  | LTimeOut (i : nat).
Definition act (l : label) s : outcome t :=
  match l with
  | LCall m sid now ctrl req resp dn => CallMethod m sid now ctrl req resp dn s
  | LTake now => take now s
  | LFinish i => finish i s
  | LResume i err => resume i err s
  | LTimeOut i => time_out i s
  end.

(** When a step can be taken.  [CallMethod] is called as its assertions ask for,
    on a method of the server, and the time of day fits. *)
Definition enabled (l : label) s : Prop :=
  match l with
  | LCall m sid now ctrl req resp dn =>
      (∃ d, RpcServer.getMethod services_ sid (index m) = Some d) ∧ is_Some (RpcServer.getService services_ sid) ∧
      (if not_care_response m then dn = true ∧ timeout m = 0 else is_Some resp ∧ is_Some ctrl) ∧
      0 ≤ timeout m ∧ 0 ≤ now ∧ now + timeout m < 2^64
  | LTake _ => True
  | LFinish i => ∃ c, calls s !! i = Some c ∧ where_ c = Serving
  | LResume i err => ∃ c, calls s !! i = Some c ∧ where_ c = Answering err
  | LTimeOut i => ∃ c, calls s !! i = Some c ∧ listed c = true
  end.
Definition step s s' : Prop := ∃ l, enabled l s ∧ act l s = Ok s'.
Definition init : t := State [] [].

(** ** Invariant *)

(** What the service makes of the response [r] and of a new controller. *)
Abbreviation reply svc d c r := (call_response svc (method_descriptor d) (request c) r).
Abbreviation verdict svc d c := (call_controller svc (method_descriptor d) (request c) Controller.Reset).

(** What a caller with a time limit gets. *)
Definition given (svc : Service M Proto) (d : MethodData Proto) (r0 : M) c : Prop :=
  let ctl1 := verdict svc d c in
  if Controller.Failed ctl1 then
    response c = Some r0 ∧ ∃ ctl, controller c =
      Some (Controller.SetErrorCode (Controller.GetErrorCode ctl1) (Controller.SetFailed (Controller.ErrorText ctl1) ctl))
  else response c = Some (MergeFrom r0 (reply svc d c (New (proto_of r0)))).

(** A call without response, without a time limit, and with one. *)
Definition good_oneway c : Prop :=
  response c = None ∧ expireTime c = 0 ∧ listed c = false ∧ returned c = Some AtOnce ∧ done c = true ∧
  match where_ c with
  | Queued | Serving => alive c = true ∧ served c = 0%nat
  | Answering _ => False
  | Deleted => alive c = false ∧ served c = 1%nat
  end.
Definition good_plain (svc : Service M Proto) (d : MethodData Proto) (r0 : M) c : Prop :=
  listed c = false ∧
  match where_ c with
  | Queued | Serving => alive c = true ∧ returned c = None ∧ served c = 0%nat ∧ response c = Some r0
  | Answering err => err = 0 ∧ alive c = true ∧ returned c = None ∧ served c = 1%nat ∧ response c = Some (reply svc d c r0)
  | Deleted => alive c = false ∧ returned c = Some Answered ∧ served c = 1%nat ∧ response c = Some (reply svc d c r0)
  end.
Definition good_timed (svc : Service M Proto) (d : MethodData Proto) (r0 : M) c : Prop :=
  request_1 c = Some (request c) ∧ alive c = listed c ∧ is_Some (controller c) ∧ is_Some (response c) ∧
  (if listed c then returned c = None ∧ response c = Some r0 ∧ where_ c ≠ Deleted
   else returned c = Some Failed ∨ returned c = Some Answered ∧ where_ c = Deleted ∧ served c = 1%nat ∧ given svc d r0 c) ∧
  match where_ c with
  | Queued | Serving => served c = 0%nat ∧ response_1 c = Some (New (proto_of r0)) ∧ controller_1 c = Some Controller.Reset
  | Answering err => if bool_decide (err ≠ 0) then served c = 0%nat else
      served c = 1%nat ∧ response_1 c = Some (reply svc d c (New (proto_of r0))) ∧ controller_1 c = Some (verdict svc d c)
  | Deleted => (served c ≤ 1)%nat
  end.

Definition good c : Prop := ∃ svc d,
  RpcServer.getService services_ (serviceId c) = Some svc ∧
  RpcServer.getMethod services_ (serviceId c) (index (md c)) = Some d ∧
  match asked c with
  | None => good_oneway c
  | Some r0 => if bool_decide (expireTime c = 0) then good_plain svc d r0 c else good_timed svc d r0 c
  end.

Record inv s : Prop := {
  i_good i c : calls s !! i = Some c → good c;
  i_nodup : NoDup (queue_ s);
  i_queue i : i ∈ queue_ s ↔ ∃ c, calls s !! i = Some c ∧ where_ c = Queued;
}.

(** How far the request of a call is from its end, and a step that brings one
    nearer to it. *)
Definition weight c : nat := match where_ c with Queued => 3 | Serving => 2 | Answering _ => 1 | Deleted => 0 end.
Definition moves s s' : Prop := ∃ i c c',
  calls s !! i = Some c ∧ calls s' = <[i := c']> (calls s) ∧ (weight c' < weight c)%nat.

(** A call changes, and stays in the queue or out of it. *)
Lemma inv_goes_on s i c c' : inv s → calls s !! i = Some c → good c' → (where_ c = Queued ↔ where_ c' = Queued) →
  inv (State (<[i := c']> (calls s)) (queue_ s)).
Proof.
  intros [Hg Hn Hq] Hi Hc' Hw. pose proof (lookup_lt_Some _ _ _ Hi). constructor; simpl; [|done|].
  - intros j x [(-> & <- & _)|[_ ?]]%list_lookup_insert_Some; eauto.
  - intros j. rewrite Hq. split; intros (x & Hx & Hxw).
    + destruct (decide (i = j)) as [->|]; [|exists x; by rewrite list_lookup_insert_ne].
      exists c'. rewrite list_lookup_insert_eq by done. split; [done|]. apply Hw. congruence.
    + apply list_lookup_insert_Some in Hx as [(-> & <- & _)|[_ ?]]; [|by eauto]. exists c. tauto.
Qed.

Lemma inv_moves s i c c' : inv s → calls s !! i = Some c → where_ c ≠ Queued → good c' → (weight c' < weight c)%nat →
  inv (State (<[i := c']> (calls s)) (queue_ s)) ∧ moves s (State (<[i := c']> (calls s)) (queue_ s)).
Proof.
  intros Hi Hc Hw Hg Hwt. split; [|by exists i, c, c']. eapply inv_goes_on; [done..|]. split; [done|]. intros E.
  unfold weight in Hwt. rewrite E in Hwt. destruct (where_ c); [done|lia..].
Qed.

Lemma take_ok now s : inv s → ∃ s', take now s = Ok s' ∧ inv s' ∧ (queue_ s ≠ [] → moves s s').
Proof.
  intros Hi. unfold take. destruct (queue_ s) as [|i q] eqn:Eq; [exists s; by split_and!|].
  destruct (proj1 (i_queue s Hi i)) as (c & Hc & Hw); [rewrite Eq; by left|]. rewrite Hc. cbn [mbind outcome_bind deref].
  destruct (i_good s Hi i c Hc) as (svc & d & Hs & Hd & Hkind).
  assert (∃ c', (if bool_decide (expireTime c ≠ 0) && bool_decide (now >= expireTime c)
    then _ ← require (response c ≠ None); Ok (set_place (Answering RoutineEnvironment.ETIMEDOUT) c)
    else _ ← deref (RpcServer.getMethod services_ (serviceId c) (index (md c))); Ok (set_place Serving c)) = Ok c' ∧
    good c' ∧ (weight c' < 3)%nat) as (c' & -> & Hgood & Hwt).
  { destruct (bool_decide (expireTime c ≠ 0) && _) eqn:E.
    - apply andb_true_iff in E as [He%bool_decide_eq_true _]. destruct (asked c) as [r0|] eqn:Ea.
      2: { destruct Hkind as (_ & ? & _). done. }
      rewrite bool_decide_false in Hkind by done. destruct Hkind as (H1 & H2 & H3 & [r Hr] & Hl & Hp). rewrite Hw in *.
      rewrite Hr, require_true by done. eexists. split; [done|]. split; [|simpl; unfold weight; simpl; lia]. exists svc, d. simpl. rewrite Ea.
      rewrite bool_decide_false by done. split_and!; try done. unfold good_timed. simpl. split_and!; eauto; [|tauto].
      destruct (listed c); [naive_solver|]. destruct Hl as [?|(_ & ? & _)]; [by left|done].
    - rewrite Hd. eexists. split; [done|]. split; [|unfold weight; simpl; lia]. exists svc, d. simpl. split_and!; try done.
      destruct (asked c) as [r0|]; [|unfold good_oneway in *; simpl; by rewrite Hw in Hkind].
      destruct (bool_decide (expireTime c = 0)); [unfold good_plain in *; simpl; by rewrite Hw in Hkind|].
      unfold good_timed in *. simpl. rewrite Hw in Hkind. destruct Hkind as (? & ? & ? & ? & Hl & ?). split_and!; try tauto.
      destruct (listed c); [naive_solver|]. destruct Hl as [?|(_ & ? & _)]; [by left|done]. }
  cbn [mbind outcome_bind]. eexists. split; [done|].
  split; [|intros _; exists i, c, c'; split_and!; [done|done|unfold weight at 2; rewrite Hw; lia]].
  assert (where_ c' ≠ Queued) as Hw' by (intros E; unfold weight in Hwt; rewrite E in Hwt; lia).
  pose proof (i_nodup s Hi) as Hn. rewrite Eq in Hn. apply NoDup_cons in Hn as [Hni Hn].
  constructor; simpl; [|done|].
  - intros j x [(-> & <- & _)|[_ ?]]%list_lookup_insert_Some; eauto using i_good.
  - intros j. split.
    + intros Hj. destruct (proj1 (i_queue s Hi j)) as (x & ? & ?); [rewrite Eq; by right|]. exists x.
      rewrite list_lookup_insert_ne; [done|]. intros ->. done.
    + intros (x & [(-> & <- & _)|[Hne Hx]]%list_lookup_insert_Some & Hxw); [done|].
      assert (j ∈ queue_ s) as Hj by (apply (i_queue s Hi); eauto). rewrite Eq in Hj. by apply elem_of_cons in Hj as [->|].
Qed.

(** A new call is good and waits in the queue. *)
Lemma CallMethod_ok m sid now ctrl req resp dn s : inv s → enabled (LCall m sid now ctrl req resp dn) s →
  ∃ s', CallMethod m sid now ctrl req resp dn s = Ok s' ∧ inv s'.
Proof.
  intros Hi ([d Hd] & [svc Hsvc] & Hargs & Ht & Hnow & Hfit).
  assert (∃ c, CallMethod m sid now ctrl req resp dn s = Ok (State (calls s ++ [c]) (queue_ s ++ [length (calls s)])) ∧
    good c ∧ where_ c = Queued) as (c & -> & Hgood & Hw).
  { unfold CallMethod. destruct (not_care_response m) eqn:En; simpl.
    - destruct Hargs as [-> Ht0]. rewrite !require_true by auto. simpl.
      eexists. split; [done|]. split; [|done]. by exists svc, d.
    - destruct Hargs as [[r ->] [ctl ->]]. repeat (rewrite require_true by auto; simpl).
      destruct (decide (timeout m > 0)) as [Hp|Hp].
      + rewrite bool_decide_true by done. simpl. eexists. split; [done|]. split; [|done]. exists svc, d. simpl.
        rewrite bool_decide_false by (rewrite u64_small by lia; lia). by split_and!.
      + rewrite bool_decide_false by done. eexists. split; [done|]. split; [|done]. by exists svc, d. }
  eexists. split; [done|]. destruct Hi as [Hg Hn Hq]. constructor; simpl.
  - intros j x [?|[_ [_ <-]%list_lookup_singleton_Some]]%lookup_app_Some; eauto.
  - apply NoDup_app. split_and!; [done| |apply NoDup_singleton]. intros j Hj ->%list_elem_of_singleton.
    apply Hq in Hj as (x & Hx%lookup_lt_Some & _). lia.
  - intros j. rewrite elem_of_app, Hq, list_elem_of_singleton. split.
    + intros [(x & Hx & ?)| ->]; [exists x; by rewrite (lookup_app_l_Some _ _ _ _ Hx)|]. exists c. by rewrite list_lookup_middle.
    + intros (x & [?|[Hge [Hj <-]%list_lookup_singleton_Some]]%lookup_app_Some & ?); [left; eauto|]. right. lia.
Qed.

Lemma inner_finish_ok i s : inv s → enabled (LFinish i) s → ∃ s', finish i s = Ok s' ∧ inv s' ∧ moves s s'.
Proof.
  intros Hi (c & Hc & Hw). destruct (i_good s Hi i c Hc) as (svc & d & Hs & Hd & Hkind).
  unfold finish, serve. rewrite Hc. simpl. rewrite Hd. simpl. rewrite Hs. simpl. destruct (asked c) as [r0|] eqn:Ea.
  - destruct (decide (expireTime c = 0)) as [He|He].
    + rewrite bool_decide_true in * by done. destruct Hkind as (H1 & H2). rewrite Hw in H2. destruct H2 as (H2 & H3 & H4 & H5).
      unfold callers. rewrite H2, H5. simpl. eexists. split; [done|]. eapply inv_moves; [done..|congruence| |unfold weight; simpl; rewrite Hw; lia].
      exists svc, d. simpl. rewrite Ea, He. split_and!; try done. unfold good_plain. simpl. naive_solver.
    + rewrite bool_decide_false in * by done. destruct Hkind as (H1 & H2 & H3 & [r Hr] & H5 & H6). rewrite Hw in H5, H6.
      destruct H6 as (H6 & H7 & H8). rewrite H1. simpl. rewrite Hr. simpl.
      eexists. split; [done|]. eapply inv_moves; [done..|congruence| |unfold weight; simpl; rewrite Hw; lia].
      exists svc, d. simpl. rewrite Ea. split; [done|]. split; [done|]. rewrite bool_decide_false by done. unfold good_timed. simpl.
      rewrite H7, H8. repeat split; eauto.
      destruct (listed c); [naive_solver|]. destruct H5 as [?|(_ & ? & _)]; [by left|done].
  - destruct Hkind as (H1 & H2 & H3 & H4 & H5 & H6). rewrite Hw in H6. destruct H6 as [H6 H7].
    rewrite bool_decide_true by done. unfold callers. rewrite H6, H1. simpl. rewrite H5.
    rewrite require_true by done. assert (∀ b : bool, (if b then @Ok unit tt else Ok tt) = Ok tt) as -> by (by intros []). simpl.
    rewrite H6. eexists. split; [done|]. eapply inv_moves; [done..|congruence| |unfold weight; simpl; rewrite Hw; lia]. exists svc, d. simpl. rewrite Ea.
    split_and!; try done. unfold good_oneway. simpl. naive_solver.
Qed.

(** The result goes to a caller that still waits. *)
Lemma give_result_ok svc d r0 err c : good_timed svc d r0 c → where_ c = Answering err → listed c = true →
  ∃ resp ctl, give_result err (set_place Deleted c) = Ok (set_callers resp ctl (set_place Deleted c)) ∧ is_Some resp ∧ is_Some ctl ∧
    (err = 0 → served c = 1%nat ∧ given svc d r0 (set_callers resp ctl c)).
Proof.
  intros (_ & _ & [ctl Hctl] & _ & Hl & Hp) Hw Hli. rewrite Hli in Hl. destruct Hl as (_ & Hr & _). rewrite Hw in Hp.
  unfold give_result, given. simpl. rewrite Hctl, Hr. destruct (decide (err ≠ 0)) as [He|He].
  - rewrite bool_decide_true by done. simpl. eexists _, _. split; [done|]. split_and!; eauto. done.
  - rewrite bool_decide_false in * by done. destruct Hp as (Hsv & -> & ->). simpl.
    destruct (Controller.Failed _); simpl; eexists _, _; (split; [done|]); split_and!; eauto.
Qed.

Lemma inner_resume_ok i err s : inv s → enabled (LResume i err) s → ∃ s', resume i err s = Ok s' ∧ inv s' ∧ moves s s'.
Proof.
  intros Hi (c & Hc & Hw). destruct (i_good s Hi i c Hc) as (svc & d & Hs & Hd & Hkind). unfold resume, callers. rewrite Hc. simpl.
  destruct (asked c) as [r0|] eqn:Ea; [|destruct Hkind as (_ & _ & _ & _ & _ & Hp); by rewrite Hw in Hp].
  destruct (decide (expireTime c = 0)) as [He|He].
  - rewrite bool_decide_true in * by done. destruct Hkind as (H1 & H2). rewrite Hw in H2. destruct H2 as (-> & H2 & H3 & H4 & H5).
    rewrite H2. simpl. eexists. split; [done|]. eapply inv_moves; [done..|congruence| |unfold weight; simpl; rewrite Hw; lia].
    exists svc, d. simpl. rewrite Ea, He. by split_and!.
  - rewrite bool_decide_false in * by done. pose proof Hkind as (H1 & H2 & H3 & H4 & H5 & H6). rewrite H2.
    destruct (listed c) eqn:El; simpl.
    + destruct (give_result_ok svc d r0 err c Hkind Hw El) as (resp & ctl & -> & Hresp & Hct & Hok). simpl.
      eexists. split; [done|]. eapply inv_moves; [done..|congruence| |unfold weight; simpl; rewrite Hw; lia].
      exists svc, d. simpl. rewrite Ea. split; [done|]. split; [done|]. rewrite bool_decide_false by done. unfold good_timed. simpl.
      rewrite Hw in H6. destruct (decide (err ≠ 0)) as [Hn|Hn].
      * rewrite bool_decide_true in * by done. split_and!; eauto. rewrite H6. lia.
      * rewrite bool_decide_false by done. destruct (Hok (dec_stable Hn)) as [Hsv Hgv]. repeat split; eauto. lia.
    + eexists. split; [done|]. eapply inv_moves; [done..|congruence| |unfold weight; simpl; rewrite Hw; lia].
      exists svc, d. simpl. rewrite Ea. split; [done|]. split; [done|]. rewrite bool_decide_false by done. unfold good_timed. simpl.
      rewrite El. rewrite Hw in H5, H6. split_and!; eauto; [destruct H5 as [?|(_ & ? & _)]; [by left|done]|].
      destruct (bool_decide _); [lia|destruct H6; lia].
Qed.

Lemma time_out_ok i s : inv s → enabled (LTimeOut i) s → ∃ s', time_out i s = Ok s' ∧ inv s'.
Proof.
  intros Hi (c & Hc & Hl). destruct (i_good s Hi i c Hc) as (svc & d & Hs & Hd & Hkind). unfold time_out, callers. rewrite Hc. simpl.
  destruct (asked c) as [r0|] eqn:Ea; [|destruct Hkind as (_ & _ & Hp & _); congruence].
  destruct (decide (expireTime c = 0)) as [He|He]; [rewrite bool_decide_true in Hkind by done; destruct Hkind; congruence|].
  rewrite bool_decide_false in Hkind by done. destruct Hkind as (H1 & H2 & [ctl Hctl] & H4 & H5 & H6). rewrite H2, Hl, Hctl. simpl.
  eexists. split; [done|]. eapply inv_goes_on; [done..| |done]. exists svc, d. simpl. rewrite Ea. split; [done|]. split; [done|].
  rewrite bool_decide_false by done. unfold good_timed. simpl. split_and!; eauto.
Qed.

(** Every step that can be taken succeeds and keeps the invariant. *)
Lemma act_ok l s : inv s → enabled l s → ∃ s', act l s = Ok s' ∧ inv s'.
Proof.
  intros Hi He. destruct l as [m sid now ctrl req resp dn|now|i|i err|i]; simpl act.
  - by apply CallMethod_ok.
  - destruct (take_ok now s Hi) as (s' & ? & ? & _). eauto.
  - destruct (inner_finish_ok i s Hi He) as (s' & ? & ? & _). eauto.
  - destruct (inner_resume_ok i err s Hi He) as (s' & ? & ? & _). eauto.
  - by apply time_out_ok.
Qed.
Lemma inner_reach_inv s : reach step init s → inv s.
Proof.
  apply reach_invariant.
  - constructor; simpl; [by intros ? ?|apply NoDup_nil_2|]. intros i. split; [by intros ?%elem_of_nil|by intros (? & ? & _)].
  - intros s1 s2 Hi (l & He & Ha). destruct (act_ok l s1 Hi He) as (s' & ? & ?). congruence.
Qed.


(** What the caller of [c] has got, when the service has answered it. *)
Definition result_of (svc : Service M Proto) (d : MethodData Proto) c : Prop :=
  match asked c with
  | None => False
  | Some r0 => if bool_decide (expireTime c = 0) then response c = Some (reply svc d c r0) else given svc d r0 c
  end.

(** C15 (inner_rpc_result).  In every reachable state the service was called at
    most once for each call; a call that returned as answered was served once and
    its response (or, if the service has failed, its controller) is what the
    service registered under its own service and method ids made of its own
    request; and a call that has not returned still has a request on its way. *)
Theorem inner_rpc_result s i c : reach step init s → calls s !! i = Some c →
  ∃ svc d, RpcServer.getService services_ (serviceId c) = Some svc ∧
    RpcServer.getMethod services_ (serviceId c) (index (md c)) = Some d ∧
    (served c ≤ 1)%nat ∧ (returned c = Some Answered → served c = 1%nat ∧ result_of svc d c) ∧
    (returned c = None → where_ c ≠ Deleted).
Proof.
  intros Hi%inner_reach_inv Hc. destruct (i_good s Hi i c Hc) as (svc & d & Hs & Hd & Hkind). exists svc, d.
  split; [done|]. split; [done|]. unfold result_of. destruct (asked c) as [r0|].
  - destruct (bool_decide (expireTime c = 0)).
    + destruct Hkind as [_ Hp]. destruct (where_ c); naive_solver lia.
    + destruct Hkind as (_ & _ & _ & _ & Hl & Hp). split_and!.
      * destruct (where_ c) as [| |err|]; [lia..|destruct (bool_decide _); lia|done].
      * intros E. destruct (listed c); [naive_solver|]. destruct Hl as [?|(_ & _ & ? & ?)]; [congruence|done].
      * intros E. destruct (listed c); [naive_solver|]. destruct Hl as [?|(? & _)]; congruence.
  - destruct Hkind as (_ & _ & _ & Hr & _ & Hp). rewrite Hr. split_and!; [|done..]. destruct (where_ c); naive_solver lia.
Qed.

(** ** Completion *)
Definition total s : nat := sum_list (weight <$> calls s).
Lemma sum_list_insert (l : list nat) i x y : l !! i = Some x → (sum_list (<[i := y]> l) + x = sum_list l + y)%nat.
Proof.
  revert i. induction l as [|z l IH]; intros i Hi; [done|]. destruct i as [|i]; simpl in *; [simplify_eq; lia|].
  specialize (IH i Hi). lia.
Qed.
Lemma moves_total s s' : moves s s' → (total s' < total s)%nat.
Proof.
  intros (i & c & c' & Hc & E & Hw). unfold total. rewrite E, list_fmap_insert.
  pose proof (sum_list_insert (weight <$> calls s) i (weight c) (weight c')) as Hs.
  rewrite list_lookup_fmap, Hc in Hs. specialize (Hs eq_refl). lia.
Qed.

(** A call whose request is on its way can make a step. *)
Lemma inner_progress s i c : inv s → calls s !! i = Some c → where_ c ≠ Deleted → ∃ s', step s s' ∧ inv s' ∧ moves s s'.
Proof.
  intros Hi Hc Hw. destruct (where_ c) as [| |err|] eqn:E; [| | |done].
  - destruct (take_ok 0 s Hi) as (s' & Ha & Hi' & Hm). exists s'. split_and!; [by exists (LTake 0)|done|]. apply Hm. intros Eq.
    assert (i ∈ queue_ s) as Hin by (apply (i_queue s Hi); eauto). rewrite Eq in Hin. by apply elem_of_nil in Hin.
  - assert (enabled (LFinish i) s) as He by (exists c; done). destruct (inner_finish_ok i s Hi He) as (s' & ? & ? & ?).
    exists s'. split_and!; [by exists (LFinish i)|done..].
  - assert (enabled (LResume i err) s) as He by (exists c; done). destruct (inner_resume_ok i err s Hi He) as (s' & ? & ? & ?).
    exists s'. split_and!; [by exists (LResume i err)|done..].
Qed.

Lemma inner_drain : ∀ n s, (total s ≤ n)%nat → inv s → ∃ s', reach step s s' ∧ inv s' ∧ length (calls s') = length (calls s) ∧
  Forall (λ c, where_ c = Deleted) (calls s').
Proof.
  induction n as [n IH] using lt_wf_ind. intros s Hn Hi.
  destruct (decide (Forall (λ c, weight c = 0%nat) (calls s))) as [Hall|Hex].
  - exists s. split_and!; [apply reach_refl|done..|]. eapply Forall_impl; [exact Hall|]. intros c. unfold weight. by destruct (where_ c).
  - apply not_Forall_Exists in Hex; [|apply _]. apply Exists_exists in Hex as (c & Hin & Hc).
    apply list_elem_of_lookup in Hin as [i Hi']. assert (where_ c ≠ Deleted) as Hd by (intros E; apply Hc; simpl; unfold weight; by rewrite E).
    destruct (inner_progress s i c Hi Hi' Hd) as (s1 & Hst & Hi1 & Hm). pose proof (moves_total s s1 Hm).
    destruct (IH (total s1)) with s1 as (s' & Hr & Hinv & Hlen & Hall); [lia|lia|done|]. exists s'.
    split_and!; [|done| |done]; [eapply reach_trans; [eapply reach_step; [apply reach_refl|done]|done]|].
    rewrite Hlen. destruct Hm as (j & ? & ? & _ & -> & _). by rewrite length_insert.
Qed.

(** From every reachable state the threads can, with
    no further call, serve and answer everything on its way: the queue is empty,
    every request is deleted and every caller has returned. *)
Theorem inner_rpc_completes s : reach step init s → ∃ s', reach step s s' ∧ length (calls s') = length (calls s) ∧ queue_ s' = [] ∧
  Forall (λ c, where_ c = Deleted ∧ returned c ≠ None ∧ alive c = false) (calls s').
Proof.
  intros Hi%inner_reach_inv. destruct (inner_drain (total s) s) as (s' & Hr & Hi' & Hlen & Hall); [done|done|]. exists s'.
  split_and!; [done|done| |].
  - destruct (queue_ s') as [|j q] eqn:Eq; [done|]. destruct (proj1 (i_queue s' Hi' j)) as (c & Hc & Hw); [rewrite Eq; by left|].
    rewrite Forall_lookup in Hall. rewrite (Hall j c Hc) in Hw. done.
  - rewrite Forall_lookup in *. intros j c Hc. specialize (Hall j c Hc). split; [done|].
    destruct (i_good s' Hi' j c Hc) as (svc & d & _ & _ & Hkind). destruct (asked c) as [r0|].
    + destruct (bool_decide (expireTime c = 0)); [destruct Hkind as [_ Hp]; rewrite Hall in Hp; naive_solver|].
      destruct Hkind as (_ & Hal & _ & _ & Hl & _). rewrite Hal. destruct (listed c); naive_solver.
    + destruct Hkind as (_ & _ & _ & Hr' & _ & Hp). rewrite Hall in Hp. naive_solver.
Qed.

(** A request for a method the server does not have is dereferenced without a
    test: [getMethod] returns a null pointer. *)
Theorem inner_rpc_unknown now s i q c : queue_ s = i :: q → calls s !! i = Some c → expireTime c = 0 →
  RpcServer.getMethod services_ (serviceId c) (index (md c)) = None → take now s = Fault NullDeref.
Proof. intros Hq Hc He Hm. unfold take. rewrite Hq, Hc. simpl. rewrite He. simpl. by rewrite Hm. Qed.
End inner.
Arguments t : clear implicits.
End InnerRpc.

(** A service that adds one, a call of 41 with a time limit and a call of 7
    without; the second is answered, the first times out while it is served. *)
Module InnerExample.
Import InnerRpc.

Definition plain : MethodDescriptor :=
  {| index := 0; not_care_response := false; delete_in_done := false; need_coroutine := true; timeout := 0 |}.
Definition timed : MethodDescriptor :=
  {| index := 1; not_care_response := false; delete_in_done := false; need_coroutine := true; timeout := 100 |}.
Definition adder : Service Fixed64.msg unit :=
  {| global_service_id := 5; service_methods := 
       [{| method_descriptor := plain; request_proto := tt; response_proto := tt |};
        {| method_descriptor := timed; request_proto := tt; response_proto := tt |}];
     call_controller _ _ c := c; call_response _ req _ := Fixed64.Msg (Fixed64.value req + 1) |}.
Definition server : gmap Z (RpcServer.ServiceData Fixed64.msg unit) := (RpcServer.registerService adder ∅).2.
Definition merge (a b : Fixed64.msg) : Fixed64.msg := b.
Definition err_text (e : Z) : bytes := [e].
Definition l1 : label (M := Fixed64.msg) := LCall timed 5 1000 (Some Controller.Reset) (Fixed64.Msg 41) (Some (Fixed64.Msg 0)) false.
Definition l2 : label (M := Fixed64.msg) := LCall plain 5 1001 (Some Controller.Reset) (Fixed64.Msg 7) (Some (Fixed64.Msg 0)) false.
Definition go (l : label (M := Fixed64.msg)) (s : t Fixed64.msg) : t Fixed64.msg :=
  match act merge err_text server l s with Ok s' => s' | Fault _ => s end.
Definition s1 : t Fixed64.msg := go l1 init.
Definition s2 : t Fixed64.msg := go l2 s1.
Definition s3 : t Fixed64.msg := go (LTake 1002) s2.
Definition s4 : t Fixed64.msg := go (LTake 1003) s3.
Definition s5 : t Fixed64.msg := go (LFinish 1) s4.
Definition s6 : t Fixed64.msg := go (LTimeOut 0) s5.
Definition s7 : t Fixed64.msg := go (LResume 1 0) s6.

Lemma inner_reach_s7 : reach (step merge err_text server) init s7.
Proof.
  apply (reach_step _ _ s6); [apply (reach_step _ _ s5); [apply (reach_step _ _ s4); [apply (reach_step _ _ s3);
    [apply (reach_step _ _ s2); [apply (reach_step _ _ s1); [apply (reach_step _ _ init); [apply reach_refl|]|]|]|]|]|]|].
  - exists l1. split; [|by vm_compute]. simpl. split; [eexists; by vm_compute|]. split; [eexists; by vm_compute|].
    split; [split; by eexists|]. vm_compute. done.
  - exists l2. split; [|by vm_compute]. simpl. split; [eexists; by vm_compute|]. split; [eexists; by vm_compute|].
    split; [split; by eexists|]. vm_compute. done.
  - exists (LTake 1002). split; [done|by vm_compute].
  - exists (LTake 1003). split; [done|by vm_compute].
  - exists (LFinish 1). split; [eexists; by vm_compute|by vm_compute].
  - exists (LTimeOut 0). split; [eexists; by vm_compute|by vm_compute].
  - exists (LResume 1 0). split; [eexists; by vm_compute|by vm_compute].
Qed.


Definition c7 : call Fixed64.msg := default (Call plain 0 (Fixed64.Msg 0) None None None None None None false 0 false false Queued None 0) (calls s7 !! 1%nat).
Lemma inner_rpc_result_witness :
  (response c7 = Some (Fixed64.Msg 8) ∧ returned c7 = Some Answered) ∧
  ∃ svc d, RpcServer.getService server 5 = Some svc ∧ RpcServer.getMethod server 5 0 = Some d ∧ (served c7 ≤ 1)%nat ∧
    (returned c7 = Some Answered → served c7 = 1%nat ∧ result_of merge svc d c7) ∧ (returned c7 = None → where_ c7 ≠ Deleted).
Proof.
  split; [by vm_compute|]. exact (inner_rpc_result merge err_text server s7 1 c7 inner_reach_s7 ltac:(by vm_compute)).
Defined.

Lemma inner_rpc_completes_witness : ∃ s', reach (step merge err_text server) s7 s' ∧ length (calls s') = 2%nat ∧ queue_ s' = [] ∧
  Forall (λ c, where_ c = Deleted ∧ returned c ≠ None ∧ alive c = false) (calls s').
Proof. exact (inner_rpc_completes merge err_text server s7 inner_reach_s7). Defined.
End InnerExample.
