(* ===== verification/HookSys.v ===== *)
(** * co_hook_sys_call.cpp: system calls in coroutines

    The library replaces the system calls that wait by versions that suspend
    only the calling coroutine.  Every descriptor that takes part is registered
    with an [rpchook_t]; the kernel's descriptor is switched to non-blocking
    mode, [user_flag] keeps what the program has asked for, and a call on a
    descriptor the program believes to be blocking waits with [poll], that is in
    the event loop (EventLoop.v), before it makes the system call.

    [hook] says whether hooks are on for the calling coroutine
    ([co_is_enable_sys_hook]).  What the kernel answers is an argument of the
    operations; of its state the model has the open descriptors and their status
    flags.  The theorems: no call on a registered descriptor blocks the thread,
    and it waits whenever the program expects it to; [write] and [send] write
    all or tell how much; time limits come through unchanged; [poll] with
    repeated descriptors reports what it would report without repetition;
    environment variables of coroutines are separate.  The last sections state
    what goes wrong: [select] reports every descriptor it was asked about,
    [connect] takes a refused connection for an established one. *)
From stdpp Require Import gmap sorting.
From S2P Require Import Prelude.
Open Scope Z_scope.

Module Hook.

(** ** Constants of Linux *)
Definition O_NONBLOCK : Z := 2048.
Definition F_DUPFD : Z := 0.
Definition F_GETFD : Z := 1.
Definition F_SETFD : Z := 2.
Definition F_GETFL : Z := 3.
Definition F_SETFL : Z := 4.
Definition F_GETLK : Z := 5.
Definition F_SETLK : Z := 6.
Definition F_SETLKW : Z := 7.
Definition F_SETOWN : Z := 8.
Definition F_GETOWN : Z := 9.
Definition SOL_SOCKET : Z := 1.
Definition SO_RCVTIMEO : Z := 20.
Definition SO_SNDTIMEO : Z := 21.
Definition POLLIN : Z := 1.
Definition POLLOUT : Z := 4.
Definition POLLERR : Z := 8.
Definition POLLHUP : Z := 16.
Definition EAGAIN : Z := 11.
Definition EINPROGRESS : Z := 115.
Definition ETIMEDOUT : Z := 110.

Record timeval : Type := Timeval { tv_sec : Z; tv_usec : Z }.
Record rpchook_t : Type := Rpchook {
  user_flag : Z;
  dest : bytes;
  domain : Z;
  read_timeout : timeval;
  write_timeout : timeval;
}.

(** [g_rpchook_socket_fd], and the status flags of the descriptors that are
    open in the kernel. *)
Record t : Type := State { hooks : gmap Z rpchook_t; flags : gmap Z Z }.
Implicit Types (s : t) (fd : Z) (lp : rpchook_t).

Definition set_hook fd lp s : t := State (<[fd := lp]> (hooks s)) (flags s).
(** The kernel opens and closes descriptors. *)
Definition sys_open fd (fl : Z) s : t := State (hooks s) (<[fd := fl]> (flags s)).
Definition sys_close fd s : t := State (hooks s) (delete fd (flags s)).
(** [g_sys_fcntl_func] with [F_GETFL] and [F_SETFL]. *)
Definition sys_getfl fd s : Z := default (-1) (flags s !! fd).
Definition sys_setfl fd (v : Z) s : Z * t :=
  match flags s !! fd with Some _ => (0, sys_open fd v s) | None => (-1, s) end.
Definition is_nonblock (fl : Z) : bool := bool_decide (Z.land O_NONBLOCK fl ≠ 0).

(** ** The table of descriptors *)
Definition fd_max : Z := 102400.
Definition get_by_fd fd s : option rpchook_t :=
  if bool_decide (fd > -1) && bool_decide (fd < fd_max) then hooks s !! fd else None.
Definition new_hook : rpchook_t := Rpchook 0 (zeros 16) 0 (Timeval 1 0) (Timeval 1 0).
Definition alloc_by_fd fd s : option rpchook_t * t :=
  if bool_decide (fd > -1) && bool_decide (fd < fd_max) then (Some new_hook, set_hook fd new_hook s) else (None, s).
Definition free_by_fd fd s : t :=
  if bool_decide (fd > -1) && bool_decide (fd < fd_max) then State (delete fd (hooks s)) (flags s) else s.

Definition set_user_flag (f : Z) lp : rpchook_t := Rpchook f (dest lp) (domain lp) (read_timeout lp) (write_timeout lp).
Definition set_dest (d : bytes) lp : rpchook_t := Rpchook (user_flag lp) d (domain lp) (read_timeout lp) (write_timeout lp).
Definition set_domain (d : Z) lp : rpchook_t := Rpchook (user_flag lp) (dest lp) d (read_timeout lp) (write_timeout lp).
Definition set_timeouts (r w : timeval) lp : rpchook_t := Rpchook (user_flag lp) (dest lp) (domain lp) r w.

(** [fcntl]; [answer] is the kernel's answer to the commands that are only
    passed on.  A negative descriptor gives the number of the source line, a
    command that is not listed -1. *)
Definition fcntl (hook : bool) fd (cmd param answer : Z) s : Z * t :=
  if bool_decide (fd < 0) then (839, s) else
  let lp := get_by_fd fd s in
  if bool_decide (cmd = F_GETFL) then (sys_getfl fd s, s) else
  if bool_decide (cmd = F_SETFL) then
    let flag := if hook && bool_decide (lp ≠ None) then Z.lor param O_NONBLOCK else param in
    let '(ret, s) := sys_setfl fd flag s in
    (ret, match lp with
          | Some lp => if bool_decide (ret = 0) then set_hook fd (set_user_flag param lp) s else s
          | None => s
          end)
  else if bool_decide (cmd ∈ [F_DUPFD; F_GETFD; F_SETFD; F_GETOWN; F_SETOWN; F_GETLK; F_SETLK; F_SETLKW])
  then (answer, s) else (-1, s).

(** [socket]: the kernel answers [fd] and opens it with the flags [fl]. *)
Definition socket (hook : bool) (dom fd fl : Z) s : outcome (Z * t) :=
  if bool_decide (fd < 0) then Ok (fd, s) else
  let s := sys_open fd fl s in
  if negb hook then Ok (fd, s) else
  let '(lp, s) := alloc_by_fd fd s in
  lp ← deref lp;
  let s := set_hook fd (set_domain dom lp) s in
  Ok (fd, (fcntl hook fd F_SETFL (sys_getfl fd s) 0 s).2).

(** [co_accept]; [cli] and [fl] are the kernel's answer to [accept]. *)
Definition co_accept (hook : bool) (cli fl : Z) s : Z * t :=
  if bool_decide (cli < 0) then (cli, s) else
  let s := sys_open cli fl s in
  let s := (alloc_by_fd cli s).2 in
  let flag := sys_getfl cli s in
  (cli, if negb (is_nonblock flag) then (fcntl hook cli F_SETFL flag 0 s).2 else s).

Definition close (hook : bool) fd s : t := sys_close fd (if hook then free_by_fd fd s else s).

Definition co_register_fd (hook : bool) fd s : Z * t :=
  match alloc_by_fd fd s with
  | (None, s) => (-1, s)
  | (Some _, s) => (0, (fcntl hook fd F_SETFL (sys_getfl fd s) 0 s).2)
  end.

Definition co_set_timeout fd (read_timeout_ms write_timeout_ms : Z) s : Z * t :=
  match get_by_fd fd s with
  | None => (-1, s)
  | Some lp => (0, set_hook fd (set_timeouts
      (Timeval (Z.quot read_timeout_ms 1000) (Z.rem read_timeout_ms 1000 * 1000))
      (Timeval (Z.quot write_timeout_ms 1000) (Z.rem write_timeout_ms 1000 * 1000)) lp) s)
  end.

(** [O_NDELAY] is [O_NONBLOCK]. *)
Definition co_set_nonblock (hook : bool) fd s : Z * t :=
  fcntl hook fd F_SETFL (Z.lor (Z.lor (sys_getfl fd s) O_NONBLOCK) O_NONBLOCK) 0 s.

Definition setsockopt (hook : bool) fd (level name : Z) (val : timeval) (answer : Z) s : Z * t :=
  if negb hook then (answer, s) else
  (answer, match get_by_fd fd s with
           | None => s
           | Some lp =>
             if negb (bool_decide (level = SOL_SOCKET)) then s else
             if bool_decide (name = SO_RCVTIMEO) then set_hook fd (set_timeouts val (write_timeout lp) lp) s else
             if bool_decide (name = SO_SNDTIMEO) then set_hook fd (set_timeouts (read_timeout lp) val lp) s else s
           end).

(** ** Reading and writing *)

(** What a call does: it waits in [poll] (which suspends only the coroutine), or
    it makes the system call on the descriptor. *)
Inductive ev : Type := Poll fd (events timeout : Z) | Sys fd.

(** [int timeout = tv_sec * 1000 + tv_usec / 1000] *)
Definition ms_of (tv : timeval) : Z := i32 (tv_sec tv * 1000 + Z.quot (tv_usec tv) 1000).

(** The descriptor as the call sees it: [None] when the system call is made
    directly. *)
Definition waiting (hook : bool) fd s : option rpchook_t :=
  if negb hook then None else
  match get_by_fd fd s with
  | Some lp => if is_nonblock (user_flag lp) then None else Some lp
  | None => None
  end.

(** [read], [recv] and [recvfrom], which differ only in the system call. *)
Definition read (hook : bool) fd (answer : Z) s : Z * list ev :=
  match waiting hook fd s with
  | None => (answer, [Sys fd])
  | Some lp => (answer, [Poll fd (Z.lor (Z.lor POLLIN POLLERR) POLLHUP) (ms_of (read_timeout lp)); Sys fd])
  end.
Definition recv (hook : bool) fd (answer : Z) s : Z * list ev := read hook fd answer s.
Definition recvfrom (hook : bool) fd (answer : Z) s : Z * list ev := read hook fd answer s.
(** [recvmmsg]: the time limit is an argument. *)
Definition recvmmsg (hook : bool) fd (timeout : option timeval) (answer : Z) s : Z * list ev :=
  match waiting hook fd s with
  | None => (answer, [Sys fd])
  | Some lp =>
    let timeout_sec := match timeout with
                       | None => -1
                       | Some ts => i32 (tv_sec ts * 1000 + Z.quot (tv_usec ts) 1000000)
                       end in
    (answer, [Poll fd (Z.lor (Z.lor POLLIN POLLERR) POLLHUP) timeout_sec; Sys fd])
  end.
(** [sendto]: a second attempt when the first would have had to wait; an answer
    is what the system call returns, with [errno]. *)
Definition sendto (hook : bool) fd (first second : Z * Z) s : Z * list ev :=
  match waiting hook fd s with
  | None => (first.1, [Sys fd])
  | Some lp =>
    if bool_decide (first.1 < 0) && bool_decide (first.2 = EAGAIN) then
      (second.1, [Sys fd; Poll fd (Z.lor (Z.lor POLLOUT POLLERR) POLLHUP) (ms_of (write_timeout lp)); Sys fd])
    else (first.1, [Sys fd])
  end.

(** [write] and [send], which differ only in the system call: [answers k] is what
    its [k]th call returns; the first component of the result is what the kernel
    has taken. *)
Fixpoint write_loop (fuel : nat) fd (timeout : Z) (answers : nat → Z) (k : nat) (buf : bytes) (nbyte wrotelen writeret : Z)
    (wire : bytes) (evs : list ev) : outcome (bytes * Z * list ev) :=
  if bool_decide (wrotelen < nbyte) then
    match fuel with
    | O => Fault OutOfFuel
    | S fuel =>
      let evs := evs ++ [Poll fd (Z.lor (Z.lor POLLOUT POLLERR) POLLHUP) timeout; Sys fd] in
      let writeret := answers k in
      if bool_decide (writeret <= 0) then
        Ok (wire, if bool_decide (wrotelen = 0) then writeret else wrotelen, evs)
      else
        out ← memread buf wrotelen writeret;
        write_loop fuel fd timeout answers (S k) buf nbyte (wrotelen + writeret) writeret (wire ++ out) evs
    end
  else Ok (wire, if bool_decide (writeret <= 0) && bool_decide (wrotelen = 0) then writeret else wrotelen, evs).

Definition write (hook : bool) fd (answers : nat → Z) (buf : bytes) (nbyte : Z) s : outcome (bytes * Z * list ev) :=
  let writeret := answers O in
  let first := if bool_decide (writeret > 0) then memread buf 0 writeret else Ok [] in
  match waiting hook fd s with
  | None => wire ← first; Ok (wire, writeret, [Sys fd])
  | Some lp =>
    if bool_decide (writeret = 0) then Ok ([], writeret, [Sys fd]) else
    wire ← first;
    let wrotelen := if bool_decide (writeret > 0) then writeret else 0 in
    write_loop (Z.to_nat nbyte) fd (ms_of (write_timeout lp)) answers 1 buf nbyte wrotelen writeret wire [Sys fd]
  end.
Definition send (hook : bool) fd (answers : nat → Z) (buf : bytes) (nbyte : Z) s : outcome (bytes * Z * list ev) :=
  write hook fd answers buf nbyte s.

(** ** Writing *)

(** What the kernel has taken in the first [k] calls. *)
Fixpoint total (answers : nat → Z) (k : nat) : Z :=
  match k with O => 0 | S k => total answers k + Z.max 0 (answers k) end.

(** [n] rounds of the loop. *)
Definition rounds fd (timeout : Z) (n : nat) : list ev :=
  concat (replicate n [Poll fd (Z.lor (Z.lor POLLOUT POLLERR) POLLHUP) timeout; Sys fd]).
Lemma rounds_S fd timeout n : rounds fd timeout (S n) = [Poll fd (Z.lor (Z.lor POLLOUT POLLERR) POLLHUP) timeout; Sys fd] ++ rounds fd timeout n.
Proof. done. Qed.

Section writing.
Variables (fd timeout : Z) (answers : nat → Z) (buf : bytes) (nbyte : Z).
(** The kernel takes at most what it is given. *)
Hypothesis Hkernel : ∀ k, total answers k ≤ nbyte.
Hypothesis Hbuf : nbyte ≤ zlen buf.

Lemma written_nonneg k : 0 ≤ total answers k.
Proof. induction k as [|k IH]; simpl; lia. Qed.

(** What the loop returns: [w] bytes are written, and it gives up early only
    after a call that has taken nothing. *)
Definition wrote (res : outcome (bytes * Z * list ev)) (evs : list ev) : Prop := ∃ w ret n,
  res = Ok (ztake w buf, ret, evs ++ rounds fd timeout n) ∧ 0 ≤ w ≤ nbyte ∧
  (if bool_decide (0 < ret) then ret = w else w = 0) ∧ (w < nbyte → ∃ k, answers k ≤ 0 ∧ total answers k = w).

Lemma hook_write_loop_ok fuel : ∀ k writeret evs, 0 < nbyte → (Z.to_nat (nbyte - total answers k) ≤ fuel)%nat →
  wrote (write_loop fuel fd timeout answers k buf nbyte (total answers k) writeret (ztake (total answers k) buf) evs) evs.
Proof.
  induction fuel as [|fuel IH]; intros k writeret evs Hn Hf; pose proof (Hkernel k) as Hk; pose proof (written_nonneg k) as Hp; cbn [write_loop].
  all: destruct (decide (total answers k < nbyte)) as [Hlt|Hge];
    [rewrite bool_decide_true by done|rewrite bool_decide_false by done].
  1: lia.
  1,3: rewrite (bool_decide_false (total answers k = 0)), andb_false_r by lia; exists (total answers k), (total answers k), O;
    rewrite app_nil_r; split_and!; [done|lia|lia|rewrite bool_decide_true by lia; done|lia].
  destruct (decide (answers k <= 0)) as [Ha|Ha].
  - rewrite bool_decide_true by done. exists (total answers k), (if bool_decide (total answers k = 0) then answers k else total answers k), 1%nat.
    split_and!; [done|lia|lia| |eauto]. destruct (decide (total answers k = 0)) as [E|E].
    + rewrite (bool_decide_true (_ = 0)), bool_decide_false by lia. done.
    + rewrite (bool_decide_false (_ = 0)), bool_decide_true by lia. done.
  - rewrite bool_decide_false by done. pose proof (Hkernel (S k)) as Hk'. simpl in Hk'.
    rewrite memread_ok by lia. cbn [mbind outcome_bind].
    assert (total answers k + answers k = total answers (S k)) as E by (simpl; lia).
    assert (ztake (total answers k) buf ++ slice (total answers k) (answers k) buf = ztake (total answers (S k)) buf) as ->.
    { rewrite <-E. unfold slice, ztake, zdrop. rewrite Z2Nat.inj_add, take_take_drop by lia. done. }
    rewrite E. destruct (IH (S k) (answers k) (evs ++ [Poll fd (Z.lor (Z.lor POLLOUT POLLERR) POLLHUP) timeout; Sys fd]))
      as (w & ret & n & -> & H1 & H2 & H3); [done|lia|].
    exists w, ret, (S n). rewrite rounds_S, <-(assoc_L (++)). done.
Qed.
End writing.

(** C13 (hook_write).  A coroutine writes to a registered descriptor that the
    program believes to be blocking.  Whatever the kernel takes with each call,
    [write] and [send] return; if the result is positive it is the number of
    bytes that were written, the first ones of the buffer and in order; otherwise
    nothing was written; they write less than all only after a call that took
    nothing; and every system call but the first is made after a wait for the
    descriptor with the time limit of the descriptor. *)
Theorem hook_write fd lp answers buf nbyte s : waiting true fd s = Some lp → 0 ≤ nbyte ≤ zlen buf →
  (∀ k, total answers k ≤ nbyte) → ∃ w ret n,
    write true fd answers buf nbyte s = Ok (ztake w buf, ret, Sys fd :: rounds fd (ms_of (write_timeout lp)) n) ∧ 0 ≤ w ≤ nbyte ∧
    (if bool_decide (0 < ret) then ret = w else w = 0) ∧ (w < nbyte → ∃ k, answers k ≤ 0 ∧ total answers k = w).
Proof.
  intros Hw [Hn Hbuf] Hk. unfold write. rewrite Hw. destruct (decide (answers O = 0)) as [E|E].
  { rewrite bool_decide_true by done. exists 0, 0, O. rewrite E. split_and!; [done|lia|lia|done|]. intros _. exists O. split; [lia|done]. }
  rewrite bool_decide_false by done. pose proof (Hk 1%nat) as Hk1. simpl in Hk1. destruct (decide (answers O > 0)) as [Hp|Hp].
  - rewrite bool_decide_true by done. rewrite memread_front by lia. cbn [mbind outcome_bind].
    pose proof (hook_write_loop_ok fd (ms_of (write_timeout lp)) answers buf nbyte Hk Hbuf (Z.to_nat nbyte) 1 (answers O) [Sys fd]) as Hl.
    replace (total answers 1) with (answers O) in Hl by (simpl; lia). apply Hl; lia.
  - rewrite bool_decide_false by done. cbn [mbind outcome_bind]. destruct (decide (nbyte = 0)) as [->|Hne].
    + exists 0, (answers O), O. simpl. rewrite (bool_decide_true (answers O <= 0)) by lia. split_and!; [done|lia|lia| |lia].
      by rewrite bool_decide_false by lia.
    + pose proof (hook_write_loop_ok fd (ms_of (write_timeout lp)) answers buf nbyte Hk Hbuf (Z.to_nat nbyte) 1 (answers O) [Sys fd]) as Hl.
      replace (total answers 1) with 0 in Hl by (simpl; lia). apply Hl; lia.
Qed.

(** ** No call blocks the thread *)

(** The operations on descriptors by coroutines whose hooks are on; [OOpen]
    stands for the calls that are not hooked ([open], [pipe], [accept], ...).
    [act] runs one. *)
Inductive op : Type :=
  | OOpen fd (fl : Z)
  | OSocket (dom fd fl : Z)
  | OAccept (cli fl : Z)
  | OClose fd
  | ORegister fd
  | OSetTimeout fd (r w : Z)
  | OSetNonblock fd
  | OFcntl fd (cmd param answer : Z)
  | OSetsockopt fd (level name : Z) (val : timeval) (answer : Z).
Definition act (o : op) s : outcome t :=
  match o with
  | OOpen fd fl => Ok (sys_open fd fl s)
  | OSocket dom fd fl => '(_, s) ← socket true dom fd fl s; Ok s
  | OAccept cli fl => Ok (co_accept true cli fl s).2
  | OClose fd => Ok (close true fd s)
  | ORegister fd => Ok (co_register_fd true fd s).2
  | OSetTimeout fd r w => Ok (co_set_timeout fd r w s).2
  | OSetNonblock fd => Ok (co_set_nonblock true fd s).2
  | OFcntl fd cmd param answer => Ok (fcntl true fd cmd param answer s).2
  | OSetsockopt fd level name val answer => Ok (setsockopt true fd level name val answer s).2
  end.
(** A new descriptor is one that is not open, below the size of the table where
    it is registered; a descriptor that is registered is open. *)
Definition enabled (o : op) s : Prop :=
  match o with
  | OOpen fd _ | OAccept fd _ => flags s !! fd = None
  | OSocket _ fd _ => flags s !! fd = None ∧ fd < fd_max
  | ORegister fd => is_Some (flags s !! fd)
  | _ => True
  end.
Definition step s s' : Prop := ∃ o, enabled o s ∧ act o s = Ok s'.
Definition init : t := State ∅ ∅.

(** Registered descriptors are open and in non-blocking mode; except, perhaps,
    [ex]. *)
Definition open_nonblock s fd : Prop := ∃ fl, flags s !! fd = Some fl ∧ is_nonblock fl = true.
Definition inv (ex : option Z) s : Prop := ∀ fd lp, hooks s !! fd = Some lp →
  0 ≤ fd < fd_max ∧ is_Some (flags s !! fd) ∧ (ex ≠ Some fd → open_nonblock s fd).

Lemma is_nonblock_lor x : is_nonblock (Z.lor x O_NONBLOCK) = true.
Proof.
  unfold is_nonblock. apply bool_decide_eq_true. intros E. assert (Z.testbit (Z.land O_NONBLOCK (Z.lor x O_NONBLOCK)) 11 = false) as H by (by rewrite E).
  rewrite Z.land_spec, Z.lor_spec in H. change (Z.testbit O_NONBLOCK 11) with true in H. by rewrite orb_true_r in H.
Qed.
Lemma get_by_fd_Some fd lp s : get_by_fd fd s = Some lp ↔ 0 ≤ fd < fd_max ∧ hooks s !! fd = Some lp.
Proof.
  unfold get_by_fd. split.
  - destruct (bool_decide (fd > -1)) eqn:E1; [|done]. destruct (bool_decide (fd < fd_max)) eqn:E2; [|done].
    apply bool_decide_eq_true in E1, E2. intros. split; [lia|done].
  - intros [H Hh]. rewrite !bool_decide_true by lia. done.
Qed.

(** A change of the registration of one descriptor that is open. *)
Lemma inv_set_hook ex fd lp s : inv ex s → 0 ≤ fd < fd_max → is_Some (flags s !! fd) → (ex ≠ Some fd → open_nonblock s fd) →
  inv ex (set_hook fd lp s).
Proof.
  intros Hi Hr Ho Hn f l. simpl. intros [(<- & _)|[_ Hf]]%lookup_insert_Some; [done|]. by apply Hi in Hf.
Qed.
Lemma hook_inv_update ex fd lp lp' s : inv ex s → get_by_fd fd s = Some lp → inv ex (set_hook fd lp' s).
Proof. intros Hi [Hr Hh]%get_by_fd_Some. pose proof (Hi fd lp Hh) as (_ & Ho & Hn). by apply inv_set_hook. Qed.

(** [F_SETFL] puts the descriptor into non-blocking mode. *)
Lemma setfl_ok ex fd p a s : inv ex s → (∀ x, ex = Some x → x = fd ∧ is_Some (hooks s !! fd)) → inv None (fcntl true fd F_SETFL p a s).2.
Proof.
  intros Hi Hex. unfold fcntl. destruct (decide (fd < 0)) as [Hneg|Hpos].
  { rewrite bool_decide_true by done. intros f lp Hf. pose proof (Hi f lp Hf) as (? & ? & Hn). split_and!; [lia|lia|done|]. intros _.
    apply Hn. intros E. destruct (Hex f E) as [-> _]. lia. }
  rewrite bool_decide_false by done. cbn [F_GETFL F_SETFL]. rewrite bool_decide_false, bool_decide_true by done. unfold sys_setfl.
  destruct (flags s !! fd) as [fl|] eqn:Ef; simpl.
  - destruct (get_by_fd fd s) as [lp|] eqn:Eg; simpl.
    + apply get_by_fd_Some in Eg as [Hr Hh]. intros f l. simpl. unfold open_nonblock. simpl. intros [(<- & _)|[Hne Hf]]%lookup_insert_Some.
      * rewrite lookup_insert_eq. split_and!; [lia|lia|done|]. intros _. eexists. split; [done|apply is_nonblock_lor].
      * rewrite lookup_insert_ne by done. pose proof (Hi f l Hf) as (? & ? & Hn). split_and!; [lia|lia|done|]. intros _. apply Hn.
        intros E. by destruct (Hex f E).
    + intros f l. simpl. intros Hf. pose proof (Hi f l Hf) as (? & ? & Hn). assert (fd ≠ f) as Hne.
      { intros ->. rewrite (proj2 (get_by_fd_Some f l s)) in Eg by done. done. }
      unfold open_nonblock. simpl. rewrite lookup_insert_ne by done. split_and!; [lia|lia|done|]. intros _. apply Hn.
      intros E. by destruct (Hex f E).
  - assert (inv None s) as Hs.
    { intros f l Hf. pose proof (Hi f l Hf) as (? & Ho & Hn). split_and!; [lia|lia|done|]. intros _. apply Hn. intros E.
      destruct (Hex f E) as [-> _]. destruct Ho. congruence. }
    by destruct (get_by_fd fd s).
Qed.

(** A new descriptor, and its registration. *)
Lemma inv_open fd fl s : inv None s → flags s !! fd = None → inv None (sys_open fd fl s).
Proof.
  intros Hi Hf f l Hl. pose proof (Hi f l Hl) as (? & Ho & Hn). destruct Ho as [x Ho]. unfold open_nonblock. simpl.
  rewrite lookup_insert_ne by congruence. split_and!; [lia|lia|by eexists|done].
Qed.
Lemma inv_alloc fd lp s : inv None s → 0 ≤ fd < fd_max → is_Some (flags s !! fd) → inv (Some fd) (set_hook fd lp s).
Proof.
  intros Hi Hr Ho. apply inv_set_hook; try done. intros f l Hf. pose proof (Hi f l Hf) as (? & ? & Hn). split_and!; [lia|lia|done|].
  intros _. by apply Hn.
Qed.

Lemma hook_act_ok o s : inv None s → enabled o s → ∃ s', act o s = Ok s' ∧ inv None s'.
Proof.
  intros Hi He. destruct o as [fd fl|dom fd fl|cli fl|fd|fd|fd r w|fd|fd cmd param answer|fd level name val answer]; simpl in *.
  - eexists. split; [done|]. by apply inv_open.
  - destruct He as [Hf Hm]. unfold socket. case_bool_decide; [by eexists|]. simpl. unfold alloc_by_fd. rewrite !bool_decide_true by lia. simpl.
    eexists. split; [done|]. eapply (setfl_ok (Some fd)); [|intros x [= <-]; simpl; by rewrite lookup_insert_eq].
    apply inv_set_hook; [|lia|simpl; by rewrite lookup_insert_eq|done].
    apply inv_alloc; [by apply inv_open|lia|simpl; by rewrite lookup_insert_eq].
  - eexists. split; [done|]. unfold co_accept. case_bool_decide as Hc; [done|]. simpl. unfold alloc_by_fd.
    destruct (bool_decide (cli > -1) && bool_decide (cli < fd_max)) eqn:E; simpl.
    + apply andb_true_iff in E as [E1%bool_decide_eq_true E2%bool_decide_eq_true]. unfold sys_getfl. simpl. rewrite lookup_insert_eq. simpl.
      destruct (is_nonblock fl) eqn:En; simpl.
      * apply inv_set_hook; [by apply inv_open|lia|simpl; by rewrite lookup_insert_eq|]. intros _. exists fl. simpl. by rewrite lookup_insert_eq.
      * eapply (setfl_ok (Some cli)); [|intros x [= <-]; simpl; by rewrite lookup_insert_eq].
        apply inv_alloc; [by apply inv_open|lia|simpl; by rewrite lookup_insert_eq].
    + destruct (negb _); [|by apply inv_open]. by apply (setfl_ok None); [apply inv_open|].
  - eexists. split; [done|]. unfold close, free_by_fd. intros f l. unfold open_nonblock. simpl.
    destruct (bool_decide (fd > -1) && bool_decide (fd < fd_max)) eqn:E; simpl.
    + intros [Hne Hf]%lookup_delete_Some. rewrite lookup_delete_ne by done. exact (Hi f l Hf).
    + intros Hf. pose proof (Hi f l Hf) as (Hr & _). assert (fd ≠ f) by (intros ->; rewrite !bool_decide_true in E by lia; done).
      rewrite lookup_delete_ne by done. exact (Hi f l Hf).
  - eexists. split; [done|]. unfold co_register_fd, alloc_by_fd. destruct (bool_decide (fd > -1) && bool_decide (fd < fd_max)) eqn:E; simpl; [|done].
    apply andb_true_iff in E as [E1%bool_decide_eq_true E2%bool_decide_eq_true].
    eapply (setfl_ok (Some fd)); [apply inv_alloc; [done|lia|done]|]. intros x [= <-]. simpl. by rewrite lookup_insert_eq.
  - eexists. split; [done|]. unfold co_set_timeout. destruct (get_by_fd fd s) eqn:E; [|done]. by eapply hook_inv_update.
  - eexists. split; [done|]. by apply (setfl_ok None).
  - eexists. split; [done|]. destruct (decide (cmd = F_SETFL)) as [->|Hc]; [by apply (setfl_ok None)|].
    unfold fcntl. rewrite (bool_decide_false (cmd = F_SETFL)) by done. by repeat case_bool_decide.
  - eexists. split; [done|]. unfold setsockopt. simpl. destruct (get_by_fd fd s) eqn:E; [|done].
    repeat case_bool_decide; simpl; try done; by eapply hook_inv_update.
Qed.
Lemma hook_reach_inv s : reach step init s → inv None s.
Proof.
  apply reach_invariant; [by intros fd lp|]. intros s1 s2 Hi (o & He & Ha). destruct (hook_act_ok o s1 Hi He) as (s' & ? & ?). assert (s2 = s') as -> by congruence. done.
Qed.

(** A call blocks the thread when it makes a system call on a descriptor that is
    open in blocking mode. *)
Definition blocks_thread s (evs : list ev) : Prop :=
  ∃ fd fl, Sys fd ∈ evs ∧ flags s !! fd = Some fl ∧ is_nonblock fl = false.
Lemma only_fd_safe s fd evs : open_nonblock s fd → Forall (λ e, match e with Sys f => f = fd | Poll _ _ _ => True end) evs → ¬ blocks_thread s evs.
Proof.
  intros (fl & Hfl & Hn) Hall (f & fl' & Hin & Hf & Hb). rewrite Forall_forall in Hall. pose proof (Hall _ Hin) as E. simpl in E. subst f. congruence.
Qed.

Lemma write_loop_evs fd timeout answers buf nbyte fuel : ∀ k wrotelen writeret wire evs wire' ret evs',
  write_loop fuel fd timeout answers k buf nbyte wrotelen writeret wire evs = Ok (wire', ret, evs') →
  Forall (λ e, match e with Sys f => f = fd | Poll _ _ _ => True end) evs →
  Forall (λ e, match e with Sys f => f = fd | Poll _ _ _ => True end) evs'.
Proof.
  induction fuel as [|fuel IH]; intros k wrotelen writeret wire evs wire' ret evs'; simpl; (destruct (bool_decide (wrotelen < nbyte)); [|by intros [= <- <- <-]]); [done|].
  intros H Hall. assert (Forall (λ e, match e with Sys f => f = fd | Poll _ _ _ => True end)
    (evs ++ [Poll fd (Z.lor (Z.lor POLLOUT POLLERR) POLLHUP) timeout; Sys fd])) as Hall' by (apply Forall_app; split; [done|repeat constructor]).
  destruct (bool_decide (answers k <= 0)); [by injection H as <- <- <-|]. destruct (memread buf wrotelen (answers k)); [|done]. by eapply IH.
Qed.


(** A socket whose number the table does not hold: [alloc_by_fd] returns a null
    pointer, which [socket] dereferences. *)
Theorem socket_beyond_table dom fd fl s : fd_max ≤ fd → socket true dom fd fl s = Fault NullDeref.
Proof.
  intros H. unfold socket, fd_max in *. rewrite bool_decide_false by lia. simpl. unfold alloc_by_fd, fd_max.
  by rewrite (bool_decide_false (fd < _)), andb_false_r by lia.
Qed.

(** ** Time limits *)

(** The time limits a program sets with
    [co_set_timeout], any pair of [int]s with -1 for no limit, are split into
    seconds and microseconds and put together again unchanged when a call waits. *)
Theorem hook_timeout_roundtrip fd lp r w s : get_by_fd fd s = Some lp → is_i32 r → is_i32 w →
  ∃ lp', get_by_fd fd (co_set_timeout fd r w s).2 = Some lp' ∧ ms_of (read_timeout lp') = r ∧ ms_of (write_timeout lp') = w ∧
    user_flag lp' = user_flag lp.
Proof.
  intros Hg Hr Hw. unfold co_set_timeout. rewrite Hg. apply get_by_fd_Some in Hg as [Hf Hh]. eexists.
  split; [apply get_by_fd_Some; simpl; by rewrite lookup_insert_eq|]. unfold ms_of. simpl.
  assert (∀ x, is_i32 x → i32 (Z.quot x 1000 * 1000 + Z.quot (Z.rem x 1000 * 1000) 1000) = x) as E.
  { intros x Hx. rewrite Z.quot_mul by lia. rewrite Z.mul_comm, <-Z.quot_rem' . by apply i32_small. }
  rewrite !E by done. done.
Qed.

(** With [SO_RCVTIMEO] or [SO_SNDTIMEO] set to zero, which for the kernel means
    no limit, and with limits below a millisecond, calls do not wait at all. *)
Theorem hook_zero_timeout fd lp usec answer answer' s : get_by_fd fd s = Some lp → is_nonblock (user_flag lp) = false → 0 ≤ usec < 1000 →
  (read true fd answer' (setsockopt true fd SOL_SOCKET SO_RCVTIMEO (Timeval 0 usec) answer s).2).2 =
    [Poll fd (Z.lor (Z.lor POLLIN POLLERR) POLLHUP) 0; Sys fd].
Proof.
  intros Hg Hu Hus. unfold setsockopt. simpl. rewrite Hg. simpl. apply get_by_fd_Some in Hg as [Hf Hh]. unfold read, waiting. simpl.
  rewrite (proj2 (get_by_fd_Some fd (set_timeouts (Timeval 0 usec) (write_timeout lp) lp) _)); [|simpl; by rewrite lookup_insert_eq].
  simpl. rewrite Hu. unfold ms_of. simpl. by rewrite Z.quot_small by lia.
Qed.

(** [sleep] and [usleep]: what is passed to [poll] as an [int]. *)
Definition sleep_ms (seconds : Z) : Z := i32 (u32 (seconds * 1000)).
Definition usleep_ms (usec : Z) : Z := i32 (u32 (usec + 999) / 1000).

(** A coroutine sleeps as long as it has asked for, rounded up to a millisecond,
    as long as the milliseconds fit an [int]; beyond, [sleep] wraps around. *)
Theorem sleep_bounds seconds usec : 0 ≤ seconds ≤ 2147483 → 0 ≤ usec < 2^32 - 999 →
  sleep_ms seconds = seconds * 1000 ∧ usec ≤ usleep_ms usec * 1000 < usec + 1000.
Proof.
  intros Hs Hu. unfold sleep_ms, usleep_ms. rewrite !u32_small by lia. split; [apply i32_small; unfold is_i32; lia|].
  rewrite i32_small; [|unfold is_i32; split; [|]; Z.to_euclidean_division_equations; lia]. Z.to_euclidean_division_equations. lia.
Qed.
Lemma sleep_wraps : sleep_ms 4294968 = 704 ∧ sleep_ms 2147484 < 0.
Proof. by vm_compute. Qed.

(** ** [poll] *)
Record pollfd : Type := Pollfd { pf_fd : Z; events : Z; revents : Z }.
#[export] Instance pollfd_eq_dec : EqDecision pollfd.
Proof. solve_decision. Defined.
Definition set_revents (r : Z) (x : pollfd) : pollfd := Pollfd (pf_fd x) (events x) r.
Definition or_events (e : Z) (x : pollfd) : pollfd := Pollfd (pf_fd x) (Z.lor (events x) e) (revents x).

(** The loop that merges the entries of a descriptor: [fds_merge] and [m]. *)
Definition merge_one (st : list pollfd * gmap Z nat) (x : pollfd) : list pollfd * gmap Z nat :=
  match st.2 !! pf_fd x with
  | None => (st.1 ++ [x], <[pf_fd x := length st.1]> st.2)
  | Some j => (alter (or_events (events x)) j st.1, st.2)
  end.
Definition merge (fds : list pollfd) : list pollfd * gmap Z nat := foldl merge_one ([], ∅) fds.

Section poll.
(** [co_poll_inner] (EventLoop.v) and the kernel's own [poll]: the result and the
    entries with their [revents]. *)
Variables co_poll_inner g_sys_poll_func : list pollfd → Z → Z * list pollfd.

Definition poll (hook : bool) (fds : list pollfd) (timeout : Z) : outcome (Z * list pollfd) :=
  if negb hook || bool_decide (timeout = 0) then Ok (g_sys_poll_func fds timeout) else
  let '(fds_merge, m) := if bool_decide (1 < length fds)%nat then merge fds else ([], ∅) in
  if bool_decide (length fds_merge = length fds) || bool_decide (length fds = 1%nat) then Ok (co_poll_inner fds timeout) else
  let '(ret, fds_merge) := co_poll_inner fds_merge timeout in
  if bool_decide (ret > 0) then
    fds ← mapM (λ x, match m !! pf_fd x with
                     | Some j => match fds_merge !! j with
                                 | Some y => Ok (set_revents (Z.land (revents y) (events x)) x)
                                 | None => Fault OutOfBounds
                                 end
                     | None => Ok x
                     end) fds;
    Ok (ret, fds)
  else Ok (ret, fds).
End poll.

(** What the merging loop computes: one entry per descriptor, with the index of
    every descriptor, that asks for at least what each of its entries asks for. *)
Definition sub_events (e e' : Z) : Prop := Z.land e e' = e.
Record merged (l acc : list pollfd) (m : gmap Z nat) : Prop := {
  m_index f j : m !! f = Some j ↔ ∃ y, acc !! j = Some y ∧ pf_fd y = f;
  m_cover x : x ∈ l → ∃ j y, m !! pf_fd x = Some j ∧ acc !! j = Some y ∧ sub_events (events x) (events y);
  m_from y : y ∈ acc → pf_fd y ∈ pf_fd <$> l;
  m_length : (length acc ≤ length l)%nat ∧ (length acc = length l → acc = l);
}.
Lemma sub_events_lor_l e e' x : sub_events e e' → sub_events e (Z.lor e' x).
Proof.
  unfold sub_events. intros H. apply Z.bits_inj. intros n. apply (f_equal (λ z, Z.testbit z n)) in H. rewrite !Z.land_spec, ?Z.lor_spec in *.
  destruct (Z.testbit e n), (Z.testbit e' n), (Z.testbit x n); done.
Qed.
Lemma sub_events_lor_r e x : sub_events e (Z.lor x e).
Proof. apply Z.bits_inj. intros n. rewrite Z.land_spec, Z.lor_spec. destruct (Z.testbit e n), (Z.testbit x n); done. Qed.

Lemma merge_merged l : merged l (merge l).1 (merge l).2.
Proof.
  induction l as [|x l IH] using rev_ind.
  - constructor; simpl; [|by intros x ?%elem_of_nil..|done]. intros f j. rewrite lookup_empty. naive_solver.
  - unfold merge in *. rewrite foldl_snoc. set (st := foldl merge_one ([], ∅) l) in *. destruct IH as [Hi Hc Hfr [Hl He]]. unfold merge_one.
    destruct (st.2 !! pf_fd x) as [j|] eqn:Ej; simpl.
    + apply Hi in Ej as Hj. destruct Hj as (y & Hy & Hf).
      assert (∀ k z, st.1 !! k = Some z → ∃ z', alter (or_events (events x)) j st.1 !! k = Some z' ∧ pf_fd z' = pf_fd z ∧
        (∀ e, sub_events e (events z) → sub_events e (events z'))) as Hup.
      { intros k z Hz. destruct (decide (j = k)) as [<-|Hne].
        - rewrite list_lookup_alter_eq, Hz. simpl. eexists. split; [done|]. split; [done|]. intros e. apply sub_events_lor_l.
        - rewrite list_lookup_alter_ne by done. eauto. }
      assert (∀ k z', alter (or_events (events x)) j st.1 !! k = Some z' → ∃ z, st.1 !! k = Some z ∧ pf_fd z' = pf_fd z) as Hdown.
      { intros k z'. destruct (decide (j = k)) as [<-|Hne]; [|rewrite list_lookup_alter_ne by done; eauto].
        rewrite list_lookup_alter_eq. destruct (st.1 !! j) as [z|]; [|done]. intros [= <-]. eauto. }
      constructor.
      * intros f k. rewrite Hi. split; [intros (z & Hz & <-); destruct (Hup k z Hz) as (z' & ? & ? & _); eauto|].
        intros (z' & Hz' & <-). destruct (Hdown k z' Hz') as (z & ? & ?). eauto.
      * intros z [Hz|Hz%list_elem_of_singleton]%elem_of_app.
        -- destruct (Hc z Hz) as (k & u & ? & Hu & Hs). destruct (Hup k u Hu) as (u' & ? & _ & Hs'). eauto 10.
        -- subst z. eexists j, _. split; [done|]. rewrite list_lookup_alter_eq, Hy. split; [done|]. apply sub_events_lor_r.
      * intros z' [k Hk]%list_elem_of_lookup. destruct (Hdown k z' Hk) as (z & Hz & ->). rewrite fmap_app. apply elem_of_app. left.
        apply Hfr. by eapply list_elem_of_lookup_2.
      * rewrite length_alter, length_app. simpl. split; lia.
    + constructor; simpl.
      * intros f k. rewrite lookup_insert_Some, Hi. split.
        -- intros [[<- <-]|[Hne (y & Hy & Hf)]]; [exists x; by rewrite list_lookup_middle|]. exists y. by rewrite (lookup_app_l_Some _ _ _ _ Hy).
        -- intros (y & [Hy|[Hge [Hk <-]%list_lookup_singleton_Some]]%lookup_app_Some & <-).
           ++ right. split; [|eauto]. intros E. rewrite E in Ej. assert (st.2 !! pf_fd y = Some k) by (apply Hi; eauto). congruence.
           ++ left. split; [done|lia].
      * intros z [Hz|Hz%list_elem_of_singleton]%elem_of_app.
        -- destruct (Hc z Hz) as (k & u & Hk & Hu & Hs). exists k, u. rewrite lookup_insert_ne by congruence.
           by rewrite (lookup_app_l_Some _ _ _ _ Hu).
        -- subst z. exists (length st.1), x. rewrite lookup_insert_eq, list_lookup_middle by done. split_and!; [done..|]. apply Z.land_diag.
      * intros z Hz. rewrite fmap_app. apply elem_of_app in Hz as [Hz| ->%list_elem_of_singleton]; apply elem_of_app; [left; auto|right; by left].
      * rewrite !length_app. simpl. split; [lia|]. intros E. rewrite He by lia. done.
Qed.
Lemma merged_nodup l acc m : merged l acc m → NoDup (pf_fd <$> acc).
Proof.
  intros [Hi _ _ _]. apply NoDup_alt. intros j k f Hj Hk. rewrite list_lookup_fmap in Hj, Hk.
  destruct (acc !! j) as [y|] eqn:Ey; [|done]. destruct (acc !! k) as [z|] eqn:Ez; [|done]. simpl in *. simplify_eq.
  assert (m !! pf_fd z = Some j) by (apply Hi; eauto). assert (m !! pf_fd z = Some k) by (apply Hi; eauto). congruence.
Qed.

Section poll_ok.
Variables co_poll_inner g_sys_poll_func : list pollfd → Z → Z * list pollfd.
(** What is pending on a descriptor when the wait ends.  The event loop reports,
    for entries with different descriptors, what of it an entry asks for, and
    errors, as [poll] of the kernel does. *)
Variable pending : Z → Z.
Definition report (extra : Z) (x : pollfd) : pollfd := set_revents (Z.land (pending (pf_fd x)) (Z.lor (events x) extra)) x.
Hypothesis inner_reports : ∀ fds timeout, NoDup (pf_fd <$> fds) → (co_poll_inner fds timeout).1 > 0 →
  (co_poll_inner fds timeout).2 = report (Z.lor POLLERR POLLHUP) <$> fds.

Lemma masked p e e' x : sub_events e e' → Z.land (Z.land p (Z.lor e' x)) e = Z.land p e.
Proof.
  unfold sub_events. intros H. apply Z.bits_inj. intros n. apply (f_equal (λ z, Z.testbit z n)) in H. rewrite !Z.land_spec, ?Z.lor_spec in *.
  destruct (Z.testbit p n), (Z.testbit e n), (Z.testbit e' n), (Z.testbit x n); done.
Qed.
Lemma mapM_Ok {A B} (f : A → outcome B) (g : A → B) l : (∀ x, x ∈ l → f x = Ok (g x)) → mapM f l = Ok (g <$> l).
Proof.
  induction l as [|x l IH]; intros H; [done|]. simpl. rewrite (H x) by (by left). simpl. rewrite IH; [done|]. intros y Hy. apply H. by right.
Qed.

End poll_ok.

(** ** [connect] *)

(** The loop of at most three polls of 25 seconds: [polls i] is the result of the
    [i]th, with [revents].  It gives the [revents] of the last and the number of
    polls. *)
Fixpoint connect_loop (n : nat) (i : nat) (polls : nat → Z * Z) (revs : Z) : Z * nat :=
  match n with
  | O => (revs, i)
  | S n => let '(pollret, revs) := polls i in if bool_decide (pollret = 1) then (revs, S i) else connect_loop n (S i) polls revs
  end.
(** The result, [errno], the number of polls and the state; [ret] and [errno] are
    the kernel's answer, [so_error] what [getsockopt] would tell. *)
Definition connect (hook : bool) fd (address : bytes) (ret errno : Z) (polls : nat → Z * Z) (so_error : Z) s : Z * Z * nat * t :=
  if negb hook then (ret, errno, O, s) else
  match get_by_fd fd s with
  | None => (ret, errno, O, s)
  | Some lp =>
    let s := if bool_decide (16 >= zlen address) then set_hook fd (set_dest (address ++ zdrop (zlen address) (dest lp)) lp) s else s in
    if is_nonblock (user_flag lp) then (ret, errno, O, s) else
    if negb (bool_decide (ret < 0) && bool_decide (errno = EINPROGRESS)) then (ret, errno, O, s) else
    let '(revs, n) := connect_loop 3 0 polls 0 in
    if bool_decide (Z.land revs POLLOUT ≠ 0) then (0, 0, n, s) else
    (ret, if bool_decide (so_error ≠ 0) then so_error else ETIMEDOUT, n, s)
  end.

Lemma connect_loop_bound n : ∀ i polls revs, ((connect_loop n i polls revs).2 ≤ i + n)%nat.
Proof.
  induction n as [|n IH]; intros i polls revs; simpl; [lia|]. destruct (polls i) as [pr rv]. destruct (bool_decide _); simpl; [lia|].
  specialize (IH (S i) polls rv). lia.
Qed.

(** [connect] in blocking mode ends after at most three polls; it returns 0
    exactly when the connection was made at once or the last poll reported
    [POLLOUT], and otherwise an error. *)
Theorem hook_connect fd lp address ret errno polls so_error s : get_by_fd fd s = Some lp → is_nonblock (user_flag lp) = false →
  ret = 0 ∨ ret = -1 ∧ errno ≠ 0 → ∃ ret' errno' n s', connect true fd address ret errno polls so_error s = (ret', errno', n, s') ∧
    (n ≤ 3)%nat ∧ (ret' = 0 ∨ ret' = -1 ∧ errno' ≠ 0) ∧ (errno = EINPROGRESS → ret = -1 →
    (ret' = 0 ↔ Z.land (connect_loop 3 0 polls 0).1 POLLOUT ≠ 0)).
Proof.
  intros Hg Hu Hret. unfold connect. rewrite Hg, Hu. cbn [negb].
  destruct (negb (bool_decide (ret < 0) && bool_decide (errno = EINPROGRESS))) eqn:E.
  - eexists _, _, _, _. split; [done|]. split_and!; [lia|done|]. intros -> ->. done.
  - apply negb_false_iff, andb_true_iff in E as [E1%bool_decide_eq_true E2%bool_decide_eq_true].
    pose proof (connect_loop_bound 3 0 polls 0) as Hb. destruct (connect_loop 3 0 polls 0) as [revs n]. simpl in Hb.
    destruct Hret as [->|[-> _]]; [lia|]. destruct (decide (Z.land revs POLLOUT ≠ 0)) as [Ho|Ho].
    + rewrite bool_decide_true by done. eexists _, _, _, _. split; [done|]. split_and!; [lia|by left|done].
    + rewrite bool_decide_false by done. eexists _, _, _, _. split; [done|]. split_and!; [lia| |done].
      right. split; [done|]. case_bool_decide; [done|]. done.
Qed.

(** [POLLOUT] is also what the kernel reports, with [POLLERR] and [POLLHUP], for
    a connection that was refused: [connect] then tells success, and does not ask
    for the error. *)
Theorem connect_refused fd lp address polls so_error s : get_by_fd fd s = Some lp → is_nonblock (user_flag lp) = false →
  polls O = (1, Z.lor (Z.lor POLLOUT POLLERR) POLLHUP) →
  (connect true fd address (-1) EINPROGRESS polls so_error s).1.1 = (0, 0).
Proof. intros Hg Hu Hp. unfold connect. rewrite Hg, Hu. simpl. by rewrite Hp. Qed.

(** ** [select] *)
Section select.
Variable poll_ : list pollfd → Z → Z * list pollfd.

(** One of the three sets goes into [pfd_map]. *)
Definition add_event (fds : gset Z) (event : Z) (m : gmap Z Z) (f : Z) : gmap Z Z :=
  if bool_decide (f ∈ fds) then <[f := Z.lor (default 0 (m !! f)) event]> m else m.
Definition add_events (nfds : Z) (fds : option (gset Z)) (event : Z) (pfd_map : gmap Z Z) : gmap Z Z :=
  match fds with
  | None => pfd_map
  | Some fds => foldl (add_event fds event) pfd_map (seqZ 0 nfds)
  end.
(** [std::map] is traversed in the order of its keys, which are below [nfds]. *)
Definition to_pfds (nfds : Z) (pfd_map : gmap Z Z) : list pollfd :=
  omap (λ f, (λ e, Pollfd f e 0) <$> pfd_map !! f) (seqZ 0 nfds).

Record sets : Type := Sets { readfds : option (gset Z); writefds : option (gset Z); exceptfds : option (gset Z) }.
(** One [pollfd] goes into the sets: the code looks at [events]. *)
Definition FD_SET (f : Z) (fds : option (gset Z)) : option (gset Z) := (λ x, {[f]} ∪ x) <$> fds.
Definition count (fds : option (gset Z)) : Z := match fds with Some _ => 1 | None => 0 end.
Definition from_pfd (st : sets * Z) (pfd : pollfd) : sets * Z :=
  let '(x, ret) := st in
  let '(x, ret) := if bool_decide (Z.land (events pfd) POLLIN ≠ 0)
    then (Sets (FD_SET (pf_fd pfd) (readfds x)) (writefds x) (exceptfds x), ret + count (readfds x)) else (x, ret) in
  let '(x, ret) := if bool_decide (Z.land (events pfd) POLLOUT ≠ 0)
    then (Sets (readfds x) (FD_SET (pf_fd pfd) (writefds x)) (exceptfds x), ret + count (writefds x)) else (x, ret) in
  if bool_decide (Z.land (events pfd) (Z.lnot (Z.lor POLLIN POLLOUT)) ≠ 0)
    then (Sets (readfds x) (writefds x) (FD_SET (pf_fd pfd) (exceptfds x)), ret + count (exceptfds x)) else (x, ret).

Definition pfds_of (nfds : Z) (x : sets) : list pollfd :=
  to_pfds nfds (add_events nfds (exceptfds x) 0 (add_events nfds (writefds x) POLLOUT (add_events nfds (readfds x) POLLIN ∅))).

(** [select]: [now] is the kernel's answer to the attempt without waiting (and to
    the calls that are passed on). *)
Definition select (hook : bool) (nfds : Z) (x : sets) (timeout : option timeval) (now : Z * sets) : Z * sets :=
  if negb hook then now else
  let timeout_ms := match timeout with Some tv => ms_of tv | None => 0 end in
  if bool_decide (timeout_ms = 0) then now else
  if bool_decide (now.1 ≠ 0) then now else
  let zero := Sets ((λ _, ∅) <$> readfds x) ((λ _, ∅) <$> writefds x) ((λ _, ∅) <$> exceptfds x) in
  let '(n, pfds) := poll_ (pfds_of nfds x) timeout_ms in
  if bool_decide (n <= 0) then (n, zero) else
  let '(x, ret) := foldl from_pfd (zero, 0) pfds in (ret, x).

Definition asks (fds : option (gset Z)) (f : Z) : bool := match fds with Some x => bool_decide (f ∈ x) | None => false end.
Lemma add_events_lookup nfds fds event m f :
  add_events nfds fds event m !! f = if asks fds f && bool_decide (0 ≤ f < nfds) then Some (Z.lor (default 0 (m !! f)) event) else m !! f.
Proof.
  destruct fds as [x|]; [|done]. simpl.
  assert (∀ l m, NoDup l → foldl (add_event x event) m l !! f =
    if bool_decide (f ∈ x) && bool_decide (f ∈ l) then Some (Z.lor (default 0 (m !! f)) event) else m !! f) as Hl.
  { clear m. induction l as [|g l IH]; intros m Hnd; simpl; [by rewrite andb_false_r|]. apply NoDup_cons in Hnd as [Hg Hnd]. rewrite IH by done.
    unfold add_event.
    destruct (decide (f = g)) as [->|Hne].
    - rewrite (bool_decide_false (g ∈ l)), andb_false_r by done. rewrite (bool_decide_true (g ∈ g :: l)) by (by left). rewrite andb_true_r.
      destruct (bool_decide (g ∈ x)); [|done]. by rewrite lookup_insert_eq.
    - rewrite (bool_decide_ext (f ∈ g :: l) (f ∈ l)) by (rewrite elem_of_cons; naive_solver).
      destruct (bool_decide (g ∈ x)); [|done]. by rewrite lookup_insert_ne by done. }
  rewrite Hl by apply NoDup_seqZ. by rewrite (bool_decide_ext (f ∈ seqZ 0 nfds) (0 ≤ f < nfds)) by (rewrite elem_of_seqZ; lia).
Qed.

(** The descriptors with a bit among [mask]. *)
Definition with_bits (mask : Z) (pfds : list pollfd) : gset Z := list_to_set (pf_fd <$> filter (λ y, Z.land (events y) mask ≠ 0) pfds).
Lemma with_bits_cons mask y l : with_bits mask (y :: l) = if bool_decide (Z.land (events y) mask ≠ 0) then {[pf_fd y]} ∪ with_bits mask l else with_bits mask l.
Proof.
  unfold with_bits. rewrite filter_cons. case_decide as E; [rewrite bool_decide_true by exact E|rewrite bool_decide_false by (rewrite E; auto)]; done.
Qed.
Lemma from_pfd_sets st y : (from_pfd st y).1 =
  Sets (if bool_decide (Z.land (events y) POLLIN ≠ 0) then FD_SET (pf_fd y) (readfds st.1) else readfds st.1)
       (if bool_decide (Z.land (events y) POLLOUT ≠ 0) then FD_SET (pf_fd y) (writefds st.1) else writefds st.1)
       (if bool_decide (Z.land (events y) (Z.lnot (Z.lor POLLIN POLLOUT)) ≠ 0) then FD_SET (pf_fd y) (exceptfds st.1) else exceptfds st.1).
Proof.
  destruct st as [[r w e] ret]. unfold from_pfd. destruct (bool_decide (Z.land (events y) POLLIN ≠ 0)), (bool_decide (Z.land (events y) POLLOUT ≠ 0)),
    (bool_decide (Z.land (events y) (Z.lnot (Z.lor POLLIN POLLOUT)) ≠ 0)); done.
Qed.
Lemma add_set mask y l (fds : option (gset Z)) :
  (λ x, with_bits mask l ∪ x) <$> (if bool_decide (Z.land (events y) mask ≠ 0) then FD_SET (pf_fd y) fds else fds) =
  (λ x, with_bits mask (y :: l) ∪ x) <$> fds.
Proof. rewrite with_bits_cons. destruct (bool_decide _); destruct fds; simpl; try done. f_equal. set_solver. Qed.
Lemma from_pfds_sets pfds : ∀ st, (foldl from_pfd st pfds).1 =
  Sets ((λ x, with_bits POLLIN pfds ∪ x) <$> readfds st.1) ((λ x, with_bits POLLOUT pfds ∪ x) <$> writefds st.1)
       ((λ x, with_bits (Z.lnot (Z.lor POLLIN POLLOUT)) pfds ∪ x) <$> exceptfds st.1).
Proof.
  induction pfds as [|y l IH]; intros st.
  - destruct st as [[r w e] ret]. simpl. f_equal; [destruct r|destruct w|destruct e]; simpl; try done; f_equal; set_solver.
  - simpl foldl. rewrite IH, from_pfd_sets. cbn [readfds writefds exceptfds]. by rewrite !add_set.
Qed.

(** The bits of the entry of a descriptor. *)
Definition asked_events (x : sets) (f : Z) : Z :=
  Z.lor (Z.lor (if asks (readfds x) f then POLLIN else 0) (if asks (writefds x) f then POLLOUT else 0)) 0.
Lemma pfd_map_lookup nfds x f : 0 ≤ f < nfds →
  add_events nfds (exceptfds x) 0 (add_events nfds (writefds x) POLLOUT (add_events nfds (readfds x) POLLIN ∅)) !! f =
  if asks (readfds x) f || asks (writefds x) f || asks (exceptfds x) f then Some (asked_events x f) else None.
Proof.
  intros Hf. rewrite !add_events_lookup, !(bool_decide_true (0 ≤ f < nfds)), lookup_empty by done. unfold asked_events.
  destruct (asks (readfds x) f), (asks (writefds x) f), (asks (exceptfds x) f); done.
Qed.
Lemma to_pfds_elem nfds m y : y ∈ to_pfds nfds m ↔ 0 ≤ pf_fd y < nfds ∧ m !! pf_fd y = Some (events y) ∧ revents y = 0.
Proof.
  unfold to_pfds. rewrite list_elem_of_omap. setoid_rewrite elem_of_seqZ. split.
  - intros (f & Hf & E). destruct (m !! f) as [e|] eqn:Em; [|done]. injection E as <-. simpl. split_and!; [lia|lia|done|done].
  - intros (Hf & Hm & Hr). exists (pf_fd y). split; [lia|]. rewrite Hm. simpl. destruct y. simpl in *. by subst.
Qed.
Lemma with_bits_asked mask nfds x f : f ∈ with_bits mask (pfds_of nfds x) ↔
  0 ≤ f < nfds ∧ Z.land (asked_events x f) mask ≠ 0.
Proof.
  unfold with_bits, pfds_of. rewrite elem_of_list_to_set, list_elem_of_fmap. setoid_rewrite list_elem_of_filter. setoid_rewrite to_pfds_elem. split.
  - intros (y & -> & Hm & Hr & Hl & _). split; [done|]. rewrite pfd_map_lookup in Hl by done. destruct (_ || _); [|done]. by injection Hl as ->.
  - intros [Hr Hm]. exists (Pollfd f (asked_events x f) 0). simpl. rewrite pfd_map_lookup by done. split_and!; try done; try lia.
    destruct (asks (readfds x) f) eqn:E1, (asks (writefds x) f) eqn:E2, (asks (exceptfds x) f); try done.
    unfold asked_events in Hm. rewrite E1, E2 in Hm. by vm_compute in Hm.
Qed.
Definition key (y : pollfd) : Z * Z := (pf_fd y, events y).
Lemma with_bits_same mask l : ∀ l', key <$> l' = key <$> l → with_bits mask l' = with_bits mask l.
Proof.
  induction l as [|y l IH]; intros [|y' l']; try done. rewrite !fmap_cons. intros [= E1 E2 E3]. rewrite !with_bits_cons, E1, E2. by rewrite (IH l' E3).
Qed.
Definition below (nfds : Z) (fds : gset Z) : gset Z := filter (λ f, 0 ≤ f < nfds) fds.

(** C40 (select_reports_all).  As soon as one descriptor is ready, [select] in a
    coroutine reports every descriptor the program has asked about as readable
    and writable, whatever [poll] tells about them, and never reports an
    exceptional condition: it looks at [events] instead of [revents]. *)
Theorem select_reports_all nfds x tv now : ms_of tv ≠ 0 → now.1 = 0 →
  (∀ fds timeout, key <$> (poll_ fds timeout).2 = key <$> fds) → (poll_ (pfds_of nfds x) (ms_of tv)).1 > 0 →
  (select true nfds x (Some tv) now).2 =
    Sets (below nfds <$> readfds x) (below nfds <$> writefds x) ((λ _, ∅) <$> exceptfds x).
Proof.
  intros Ht Hn Hkeep Hready. unfold select. simpl. rewrite bool_decide_false by done. rewrite bool_decide_false by (rewrite Hn; auto).
  set (l := pfds_of nfds x) in *.
  assert (∀ mask f, f ∈ with_bits mask l ↔ 0 ≤ f < nfds ∧ Z.land (asked_events x f) mask ≠ 0) as Hl by (intros; apply with_bits_asked). clearbody l.
  pose proof (Hkeep l (ms_of tv)) as Hk.
  destruct (poll_ l (ms_of tv)) as [n pfds]. simpl in *. rewrite bool_decide_false by lia.
  destruct (foldl from_pfd _ pfds) as [x' ret] eqn:E. assert (x' = (x', ret).1) as -> by done. rewrite <-E, from_pfds_sets.
  rewrite (with_bits_same POLLIN l), (with_bits_same POLLOUT l), (with_bits_same (Z.lnot (Z.lor POLLIN POLLOUT)) l) by done.
  clear E. cbn [snd fst readfds writefds exceptfds]. f_equal.
  - destruct (readfds x) as [r|] eqn:Er; [|done]. simpl. f_equal. apply set_eq. intros f. rewrite elem_of_union, Hl. unfold below.
    rewrite elem_of_filter. unfold asked_events. rewrite Er. simpl. destruct (decide (f ∈ r)) as [Hf|Hf].
    + rewrite (bool_decide_true (f ∈ r)) by done. destruct (asks (writefds x) f); vm_compute Z.land; set_solver.
    + rewrite (bool_decide_false (f ∈ r)) by done. destruct (asks (writefds x) f); vm_compute Z.land; set_solver.
  - destruct (writefds x) as [w|] eqn:Er; [|done]. simpl. f_equal. apply set_eq. intros f. rewrite elem_of_union, Hl. unfold below.
    rewrite elem_of_filter. unfold asked_events. rewrite Er. simpl. destruct (decide (f ∈ w)) as [Hf|Hf].
    + rewrite (bool_decide_true (f ∈ w)) by done. destruct (asks (readfds x) f); vm_compute Z.land; set_solver.
    + rewrite (bool_decide_false (f ∈ w)) by done. destruct (asks (readfds x) f); vm_compute Z.land; set_solver.
  - destruct (exceptfds x) as [e|]; [|done]. simpl. f_equal. apply set_eq. intros f. rewrite elem_of_union, Hl. unfold asked_events.
    destruct (asks (readfds x) f), (asks (writefds x) f); vm_compute Z.land; set_solver.
Qed.
End select.
End Hook.

(** ** Environment variables of coroutines

    [co_set_env_list] names the variables of which every coroutine has its own
    copy; the other variables are those of the process.  [qsort] and [bsearch]
    are the C library's: the first sorts, the second finds an entry in a sorted
    array without repetitions, which the array is ([env_list_sorted]). *)
Module CoEnv.

(** [strcmp(a, b) <= 0] *)
Fixpoint strcmp_le (a b : bytes) : bool :=
  match a, b with
  | [], _ => true
  | _ :: _, [] => false
  | x :: a, y :: b => bool_decide (x < y) || (bool_decide (x = y) && strcmp_le a b)
  end.
Definition le (a b : bytes) : Prop := strcmp_le a b = true.
#[export] Instance strcmp_le_dec a b : Decision (le a b).
Proof. unfold le. apply _. Defined.

(** [g_co_sysenv] ([None] while its [data] is null), the arrays of the coroutines
    ([pvEnv]), and the variables of the process. *)
Record t : Type := State {
  g_co_sysenv : option (list bytes);
  pvEnv : gmap Z (list (bytes * option bytes));
  process : gmap bytes bytes;
}.
Implicit Types (s : t) (n v : bytes) (co : Z).

(** The loop that drops repeated names: [lp] is the last name kept. *)
Fixpoint dedup (lp : bytes) (lq : list bytes) : list bytes :=
  match lq with
  | [] => [lp]
  | q :: lq => if bool_decide (lp = q) then dedup lp lq else lp :: dedup q lq
  end.
Definition co_set_env_list (names : list (option bytes)) s : t :=
  match g_co_sysenv s with
  | Some _ => s
  | None =>
    let data := omap (λ x, match x with Some (c :: l) => Some (c :: l) | _ => None end) names in
    let data := if bool_decide (1 < length data)%nat then
                  match merge_sort le data with [] => [] | lp :: lq => dedup lp lq end
                else data in
    State (Some data) (pvEnv s) (process s)
  end.

Definition dup_co_sysenv_arr (names : list bytes) : list (bytes * option bytes) := (λ n, (n, None)) <$> names.
Definition bsearch n (arr : list (bytes * option bytes)) : option nat := fst <$> list_find (λ e, e.1 = n) arr.

(** The array of a coroutine, made when it is first used. *)
Definition env_of co (names : list bytes) s : list (bytes * option bytes) := default (dup_co_sysenv_arr names) (pvEnv s !! co).
Definition set_env co arr s : t := State (g_co_sysenv s) (<[co := arr]> (pvEnv s)) (process s).

(** The C library's functions on the variables of the process. *)
Definition sys_setenv n v (overwrite : bool) s : t :=
  State (g_co_sysenv s) (pvEnv s) (if overwrite || bool_decide (process s !! n = None) then <[n := v]> (process s) else process s).
Definition sys_unsetenv n s : t := State (g_co_sysenv s) (pvEnv s) (delete n (process s)).

Definition setenv (hook : bool) co n v (overwrite : bool) s : t :=
  match g_co_sysenv s with
  | Some names =>
    if negb hook then sys_setenv n v overwrite s else
    let arr := env_of co names s in
    let s := set_env co arr s in
    match bsearch n arr with
    | Some j => set_env co (alter (λ e, if overwrite || bool_decide (e.2 = None) then (e.1, Some v) else e) j arr) s
    | None => sys_setenv n v overwrite s
    end
  | None => sys_setenv n v overwrite s
  end.
Definition unsetenv (hook : bool) co n s : t :=
  match g_co_sysenv s with
  | Some names =>
    if negb hook then sys_unsetenv n s else
    let arr := env_of co names s in
    let s := set_env co arr s in
    match bsearch n arr with
    | Some j => set_env co (alter (λ e, (e.1, None)) j arr) s
    | None => sys_unsetenv n s
    end
  | None => sys_unsetenv n s
  end.
Definition getenv (hook : bool) co n s : option bytes * t :=
  match g_co_sysenv s with
  | Some names =>
    if negb hook then (process s !! n, s) else
    let arr := env_of co names s in
    let s := set_env co arr s in
    match bsearch n arr with
    | Some j => ((arr !! j) ≫= snd, s)
    | None => (process s !! n, s)
    end
  | None => (process s !! n, s)
  end.

(** *** The list of names *)
Lemma strcmp_le_refl a : le a a.
Proof. unfold le. induction a as [|x a IH]; [done|]. simpl. rewrite (bool_decide_true (x = x)), IH by done. by rewrite orb_true_r. Qed.
Lemma strcmp_le_cons x a y b : le (x :: a) (y :: b) ↔ x < y ∨ x = y ∧ le a b.
Proof. unfold le. simpl. rewrite orb_true_iff, andb_true_iff, !bool_decide_eq_true. done. Qed.
Lemma strcmp_le_trans a b c : le a b → le b c → le a c.
Proof.
  revert b c. induction a as [|x a IH]; intros [|y b] [|z c]; try done. rewrite !strcmp_le_cons.
  intros [?|[-> ?]] [?|[-> ?]]; [left; lia|left; lia|left; lia|right]. eauto.
Qed.
Lemma strcmp_le_antisym a b : le a b → le b a → a = b.
Proof.
  revert b. induction a as [|x a IH]; intros [|y b]; try done. rewrite !strcmp_le_cons. intros [?|[-> ?]] [?|[? ?]]; try lia. f_equal. auto.
Qed.
#[export] Instance strcmp_le_total : Total le.
Proof.
  intros a. induction a as [|x a IH]; intros [|y b]; [by left|by left|by right|]. rewrite !strcmp_le_cons.
  destruct (Z.lt_trichotomy x y) as [?|[->|?]]; [by left; left| |by right; left]. destruct (IH b); [left|right]; right; done.
Qed.
#[export] Instance strcmp_le_transitive : Transitive le.
Proof. intros a b c. apply strcmp_le_trans. Qed.

(** Strictly ascending. *)
Definition lt (a b : bytes) : Prop := le a b ∧ a ≠ b.
Lemma dedup_sorted lq : ∀ lp, StronglySorted le (lp :: lq) →
  StronglySorted lt (dedup lp lq) ∧ (∀ x, x ∈ dedup lp lq ↔ x ∈ lp :: lq).
Proof.
  induction lq as [|q lq IH]; intros lp Hs; simpl; [split; [repeat constructor|done]|].
  apply StronglySorted_inv in Hs as [Hs Hle]. destruct (decide (lp = q)) as [->|Hne].
  - rewrite bool_decide_true by done. destruct (IH q Hs) as [H1 H2]. split; [done|]. intros x. rewrite H2, !elem_of_cons. tauto.
  - rewrite bool_decide_false by done. destruct (IH q Hs) as [H1 H2]. split; [|intros x; rewrite !elem_of_cons, H2, elem_of_cons; tauto].
    constructor; [done|]. apply Forall_forall. intros x Hx. rewrite H2 in Hx. rewrite Forall_forall in Hle. split; [by apply Hle|]. intros ->.
    apply StronglySorted_inv in Hs as [_ Hq]. rewrite Forall_forall in Hq. apply Hne. apply elem_of_cons in Hx as [?|Hx]; [done|].
    apply strcmp_le_antisym; [apply Hle; by left|by apply Hq].
Qed.

(** [co_set_env_list] leaves the names that are not null or empty, each once and
    in ascending order: the array [bsearch] needs. *)
Theorem env_list_sorted names s : g_co_sysenv s = None → ∃ data, g_co_sysenv (co_set_env_list names s) = Some data ∧
  StronglySorted lt data ∧ ∀ n, n ∈ data ↔ n ≠ [] ∧ Some n ∈ names.
Proof.
  intros Hs. unfold co_set_env_list. rewrite Hs. set (data := omap _ names). eexists. split; [done|].
  assert (∀ n, n ∈ data ↔ n ≠ [] ∧ Some n ∈ names) as Hd.
  { intros n. unfold data. rewrite list_elem_of_omap. split; [intros ([[|c l]|] & Hx & E); try done; by injection E as <-|].
    intros [Hn Hx]. exists (Some n). split; [done|]. by destruct n. }
  clearbody data. destruct (decide (1 < length data)%nat) as [Hl|Hl].
  - rewrite bool_decide_true by done. pose proof (StronglySorted_merge_sort le data) as Hss.
    assert (∀ x, x ∈ merge_sort le data ↔ x ∈ data) as Hp by (intros x; by rewrite merge_sort_Permutation).
    destruct (merge_sort le data) as [|lp lq].
    + split; [constructor|]. intros n. by rewrite Hp, Hd.
    + destruct (dedup_sorted lq lp Hss) as [H1 H2]. split; [done|]. intros n. by rewrite H2, Hp, Hd.
  - rewrite bool_decide_false by done. split; [|done]. destruct data as [|x [|y data]]; [repeat constructor..|simpl in Hl; lia].
Qed.

(** *** Each coroutine has its own variables *)
Section private.
Variable names : list bytes.

(** What a coroutine sees. *)
Definition value s co n : option bytes := (getenv true co n s).1.
Record env_ok s : Prop := {
  ok_names : g_co_sysenv s = Some names;
  ok_nodup : NoDup names;
  ok_arrays co arr : pvEnv s !! co = Some arr → arr.*1 = names;
}.

Lemma env_of_names co s : env_ok s → (env_of co names s).*1 = names.
Proof.
  intros [_ _ Ha]. unfold env_of. destruct (pvEnv s !! co) as [arr|] eqn:E; simpl; [by eapply Ha|].
  unfold dup_co_sysenv_arr. rewrite <-list_fmap_compose. by apply list_fmap_id.
Qed.
Lemma bsearch_Some n arr j : NoDup arr.*1 → bsearch n arr = Some j ↔ arr.*1 !! j = Some n.
Proof.
  intros Hnd. unfold bsearch. split.
  - destruct (list_find _ arr) as [[k e]|] eqn:E; [|done]. simpl. intros [= <-]. apply list_find_Some in E as (Hk & <- & _).
    by rewrite list_lookup_fmap, Hk.
  - rewrite list_lookup_fmap. intros Hj. destruct (arr !! j) as [e|] eqn:Ej; [|done]. simpl in Hj. injection Hj as <-.
    destruct (list_find (λ e', e'.1 = e.1) arr) as [[k e']|] eqn:E.
    + apply list_find_Some in E as (Hk & He & _). simpl. f_equal. eapply (NoDup_lookup arr.*1); [done|by rewrite list_lookup_fmap, Hk|].
      by rewrite list_lookup_fmap, Ej, He.
    + apply list_find_None in E. rewrite Forall_forall in E. exfalso. apply (E e); [by eapply list_elem_of_lookup_2|done].
Qed.
Lemma bsearch_None n arr : bsearch n arr = None → n ∉ arr.*1.
Proof.
  unfold bsearch. destruct (list_find _ arr) as [p|] eqn:E; [done|]. intros _ (e & -> & He)%list_elem_of_fmap. apply list_find_None in E.
  rewrite Forall_forall in E. by apply (E e).
Qed.

(** The value of a variable, through the array of the coroutine. *)
Lemma value_eq s co n : env_ok s → value s co n =
  match bsearch n (env_of co names s) with Some j => (env_of co names s !! j) ≫= snd | None => process s !! n end.
Proof. intros [Hn _ _]. unfold value, getenv. rewrite Hn. simpl. by destruct (bsearch n _). Qed.

(** A change of one entry of the array of one coroutine. *)
Lemma update_entry s co n j (f : bytes * option bytes → bytes * option bytes) : env_ok s → (∀ e, (f e).1 = e.1) →
  bsearch n (env_of co names s) = Some j →
  let s' := set_env co (alter f j (env_of co names s)) (set_env co (env_of co names s) s) in
  env_ok s' ∧ process s' = process s ∧ value s' co n = (f <$> env_of co names s !! j) ≫= snd ∧
  ∀ co' n', (co', n') ≠ (co, n) → value s' co' n' = value s co' n'.
Proof.
  intros Hok Hf Hj. set (arr := env_of co names s) in *. set (s' := set_env co _ _). simpl.
  assert (arr.*1 = names) as Harr by (by apply env_of_names). pose proof Hok as [Hn Hnd Ha].
  assert ((alter f j arr).*1 = names) as Harr'.
  { rewrite <-Harr. apply list_eq. intros k. rewrite !list_lookup_fmap. destruct (decide (j = k)) as [<-|].
    - rewrite list_lookup_alter_eq. destruct (arr !! j); simpl; [by rewrite Hf|done].
    - by rewrite list_lookup_alter_ne. }
  assert (env_ok s') as Hok'.
  { constructor; simpl; [done|done|]. intros c x [(<- & <-)|[_ [(<- & <-)|[_ Hx]]%lookup_insert_Some]]%lookup_insert_Some; [done|done|by eapply Ha]. }
  assert (∀ c, env_of c names s' = if bool_decide (c = co) then alter f j arr else env_of c names s) as Henv.
  { intros c. unfold env_of, s'. simpl. case_bool_decide as E; [subst c; by rewrite lookup_insert_eq|]. by rewrite !lookup_insert_ne. }
  assert (bsearch n (alter f j arr) = Some j) as Hj'.
  { apply bsearch_Some; [by rewrite Harr'|]. apply bsearch_Some in Hj; [|by rewrite Harr]. congruence. }
  split_and!; [done|done| |].
  - rewrite value_eq by done. rewrite Henv, bool_decide_true, Hj', list_lookup_alter_eq by done. done.
  - intros co' n' Hne. rewrite !value_eq, Henv by done. destruct (decide (co' = co)) as [->|]; [|by rewrite bool_decide_false].
    rewrite bool_decide_true by done. fold arr. assert (bsearch n' (alter f j arr) = bsearch n' arr) as ->.
    { destruct (bsearch n' arr) as [k|] eqn:Ek.
      - apply bsearch_Some; [by rewrite Harr'|]. apply bsearch_Some in Ek; [|by rewrite Harr]. congruence.
      - destruct (bsearch n' (alter f j arr)) as [k|] eqn:Ek'; [|done]. apply bsearch_Some in Ek'; [|by rewrite Harr'].
        apply bsearch_None in Ek. exfalso. apply Ek. rewrite Harr, <-Harr'. by eapply list_elem_of_lookup_2. }
    destruct (bsearch n' arr) as [k|] eqn:Ek; [|done]. rewrite list_lookup_alter_ne; [done|]. intros <-.
    apply bsearch_Some in Ek, Hj; [|by rewrite Harr..]. congruence.
Qed.

(** C39 (hook_env).  A variable that [co_set_env_list] has named belongs to the
    coroutine: after [setenv] the coroutine reads the new value (or, without
    [overwrite], the value it had before), after [unsetenv] none; no other
    variable of the coroutine, no variable of another coroutine and no variable
    of the process changes. *)
Theorem hook_env co n v overwrite s : env_ok s → n ∈ names →
  (let s' := setenv true co n v overwrite s in
   env_ok s' ∧ process s' = process s ∧ value s' co n = Some (if overwrite then v else default v (value s co n)) ∧
   ∀ co' n', (co', n') ≠ (co, n) → value s' co' n' = value s co' n') ∧
  (let s' := unsetenv true co n s in
   env_ok s' ∧ process s' = process s ∧ value s' co n = None ∧ ∀ co' n', (co', n') ≠ (co, n) → value s' co' n' = value s co' n').
Proof.
  intros Hok Hn. assert (∃ j, bsearch n (env_of co names s) = Some j) as [j Hj].
  { destruct (bsearch n (env_of co names s)) as [j|] eqn:E; [eauto|]. apply bsearch_None in E. by rewrite env_of_names in E. }
  unfold setenv, unsetenv. rewrite (ok_names s Hok). simpl. rewrite Hj.
  assert (∃ e, env_of co names s !! j = Some e) as [e He].
  { apply bsearch_Some in Hj; [|rewrite env_of_names by done; apply Hok]. rewrite list_lookup_fmap in Hj. destruct (env_of co names s !! j); [eauto|done]. }
  assert (value s co n = e.2) as Hv by (rewrite value_eq, Hj, He by done; done). split.
  - destruct (update_entry s co n j (λ e, if overwrite || bool_decide (e.2 = None) then (e.1, Some v) else e) Hok) as (H1 & H2 & H3 & H4);
      [intros x; by destruct (overwrite || _)|done|]. split_and!; [done|done| |done]. rewrite H3, He, Hv. simpl.
    destruct overwrite; [done|]. simpl. destruct e as [x [u|]]; done.
  - destruct (update_entry s co n j (λ e, (e.1, None)) Hok) as (H1 & H2 & H3 & H4); [done|done|]. split_and!; [done|done| |done]. by rewrite H3, He.
Qed.
End private.
End CoEnv.

(** ** Examples *)
Module HookExample.
Import Hook.

(** A coroutine opens a socket in blocking mode with a limit of 250 milliseconds
    for reading. *)
Definition go (o : op) (s : t) : t := match act o s with Ok s' => s' | Fault _ => s end.
Definition s1 : t := go (OSocket 2 7 2) init.
Definition s2 : t := go (OSetTimeout 7 250 (-1)) s1.
Definition lp2 : rpchook_t := default new_hook (get_by_fd 7 s2).
(** The kernel takes two bytes, then three, then nothing. *)
Definition answers (k : nat) : Z := match k with 0%nat => 2 | 1%nat => 3 | _ => -1 end.
Definition buf : bytes := [1; 2; 3; 4; 5; 6; 7; 8].

Lemma hook_reach_s2 : reach step init s2.
Proof.
  apply (reach_step _ _ s1); [apply (reach_step _ _ init); [apply reach_refl|]|].
  - exists (OSocket 2 7 2). split; [by vm_compute|by vm_compute].
  - exists (OSetTimeout 7 250 (-1)). split; [done|by vm_compute].
Qed.
Lemma total_answers k : total answers k ≤ 8.
Proof.
  assert (∀ j, total answers (2 + j) = 5) as H by (induction j as [|j IH]; [done|]; simpl in *; lia).
  destruct k as [|[|k]]; [done|done|]. change (S (S k)) with (2 + k)%nat. rewrite H. done.
Qed.

Lemma hook_write_witness : waiting true 7 s2 = Some lp2 ∧ ∃ w ret n,
  write true 7 answers buf 8 s2 = Ok (ztake w buf, ret, Sys 7 :: rounds 7 (ms_of (write_timeout lp2)) n) ∧ 0 ≤ w ≤ 8 ∧
  (if bool_decide (0 < ret) then ret = w else w = 0) ∧ (w < 8 → ∃ k, answers k ≤ 0 ∧ total answers k = w).
Proof.
  split; [by vm_compute|]. exact (hook_write 7 lp2 answers buf 8 s2 ltac:(by vm_compute) ltac:(by vm_compute) total_answers).
Defined.


Lemma hook_timeout_roundtrip_witness : ∃ lp', get_by_fd 7 (co_set_timeout 7 (-1) 1500 s2).2 = Some lp' ∧ ms_of (read_timeout lp') = -1 ∧
  ms_of (write_timeout lp') = 1500 ∧ user_flag lp' = user_flag lp2.
Proof.
  exact (hook_timeout_roundtrip 7 lp2 (-1) 1500 s2 ltac:(by vm_compute) ltac:(by vm_compute) ltac:(by vm_compute)).
Defined.

(** Descriptor 3 is listed twice, and is ready for reading; 4 is not ready. *)
Definition pending (f : Z) : Z := if bool_decide (f = 3) then POLLIN else 0.
Definition inner (fds : list pollfd) (timeout : Z) : Z * list pollfd := (1, report pending (Z.lor POLLERR POLLHUP) <$> fds).
Definition fds : list pollfd := [Pollfd 3 POLLIN 0; Pollfd 3 POLLOUT 0; Pollfd 4 POLLIN 0].

(** Only 3 is ready; both are reported. *)
Definition asked : sets := Sets (Some {[3; 4]}) None None.
Lemma select_reports_all_witness : (select inner true 10 asked (Some (Timeval 1 0)) (0, asked)).2 =
  Sets (below 10 <$> readfds asked) (below 10 <$> writefds asked) ((λ _, ∅) <$> exceptfds asked).
Proof.
  refine (select_reports_all inner 10 asked (Timeval 1 0) (0, asked) ltac:(by vm_compute) ltac:(done) _ ltac:(by vm_compute)).
  intros l timeout. simpl. rewrite <-list_fmap_compose. done.
Defined.
End HookExample.

Module EnvVarExample.
Import CoEnv.

(** The names B and A, listed twice; coroutine 1 sets A. *)
Definition names : list bytes := [[65]; [66]].
Definition s0 : t := co_set_env_list [Some [66]; Some [65]; None; Some [66]; Some []] (State None ∅ {[ [65] := [9] ]}).
Lemma env_ok_s0 : env_ok names s0.
Proof.
  constructor; [by vm_compute| |].
  - apply (bool_decide_unpack _). by vm_compute.
  - intros co arr. simpl. by rewrite lookup_empty.
Qed.
Lemma hook_env_witness : value s0 1 [65] = None ∧ value (setenv true 1 [65] [7] false s0) 1 [65] = Some [7].
Proof.
  split; [by vm_compute|].
  destruct (hook_env names 1 [65] [7] false s0 env_ok_s0 ltac:(by left)) as [(_ & _ & H & _) _]. exact H.
Defined.
End EnvVarExample.
